(* ===== verification/_CoqProject ===== *)
-Q . S2P
Prelude.v
Common.v
LRU.v
RollingIndex.v
Crypto.v
Peers.v
PeerSelector.v
Data.v
Event.v
Block.v
Caches.v
Store.v
InmemStore.v
Hashgraph.v
Badger.v
Core.v
Node.v
App.v
Proxies.v
NetTransport.v
InmemTransport.v
Service.v
Engine.v
Settings.v
Dag.v
Inv.v
Insert.v
Ledger.v
Votes.v
Received.v
Content.v
Consensus.v
Frames.v
Rounds.v
Blocks.v
Commit.v
CommitCallback.v
StoreFrame.v
Database.v
Termination.v
Recorded.v
Divide.v
Walk.v
Decisions.v
Committed.v
Settled.v
Instances.v
StoreInstances.v
GraphTheorems.v
Agreement.v
SameBlocks.v
ReplicaExamples.v
CoreTheorems.v
PipelineTheorems.v
NodeTheorems.v
ServiceTheorems.v
ProxyTheorems.v
ComponentTheorems.v
BadgerTheorems.v
TransportTheorems.v
EngineTheorems.v
