(* ===== verification/Prelude.v ===== *)
(** * Babble: a verification of the consensus engine

    Babble (src/src, in Go) is a BFT consensus engine. Nodes gossip events
    that reference each other; every node inserts the events into a hashgraph,
    computes from it rounds, famous witnesses and the round in which an event
    is received, turns the received events into frames and blocks, commits the
    blocks to an application and collects signatures of them. The set of
    validators changes by internal transactions. A node stores what it knows
    in memory or in a database, from which it can bootstrap, and a node that is
    behind can fast-forward from a signed block.

    ** How Go is modelled

    A function that returns [(A, error)] is a function into [result error A],
    whose other values are [Panic] and [OutOfFuel]; a method that changes an
    object of type [S] is in the monad [GoM error S A] of this file, which
    returns the state on errors too. Machine integers are [Z] with explicit
    wrap-around where it can matter; maps are [gmap]; an iteration over a map
    is in the order that the class [RangeOrder] gives, of which nothing is
    assumed but that it lists the map, and which may differ from replica to
    replica. What another package draws at random (the signature of a hash)
    is one of its possible answers, a function of its arguments. A pointer read from a
    store and changed afterwards is a write to the object in the store
    ([mutEvent] and its like). The parts outside the repository are classes:
    [Keys] (SHA-256, the curve, ECDSA), [Codec] and [DBCodec] (JSON), [KV] (the
    database), [JSONStream] (JSON on a connection), [Transport] and [AppProxy]
    (the two ends of a node). Their laws are separate classes, and
    Instances.v, StoreInstances.v and TransportTheorems.v have executable
    instances that satisfy them, on which the witnesses run.

    ** The files

    - Prelude: the monad, the rules [hoare] and [respects] with their
      automation, lists and numbers.
    - Common, LRU, RollingIndex (src/src/common), Crypto (crypto, crypto/keys),
      Peers (peers), PeerSelector (node/peer_selector.go).
    - Data, Event, Block: the structures of src/src/hashgraph, their hashes
      and signatures. Caches: caches.go. Store: the interface of store.go with
      its contract [StoreLaws]; InmemStore: inmem_store.go, which satisfies it.
    - Hashgraph: hashgraph.go, every method. Badger: badger_store.go and
      [Bootstrap].
    - Core: node/core.go. Node: node/node.go, node_rpc.go, the state manager
      and the timer. App: the in-process proxy and the demo application.
      Proxies: the socket proxies (proxy/socket) and the application of a
      phone (mobile/mobile_app.go). NetTransport: net/net_transport.go.
      InmemTransport: net/inmem_transport.go, rpc.go. Service:
      service/service.go, node/graph.go. Engine: the files of keys and peers
      and babble/babble.go. Settings: config/config.go and the commands.
    - Dag, Inv, Insert, Consensus: the graph of events and its invariant.
      Frames, Rounds, Blocks, Commit, CommitCallback: what the pipeline does
      and does not change. StoreFrame, Database: the same for a persistent
      store. Termination: the fuel.
    - Ledger, Votes, Received, Content: the specification of consensus on a
      graph under one peer-set, without stores and caches: the round of an
      event and whether it is a witness, the votes on a witness and its fame,
      the round in which an event is received, the frame of a round; with the
      proofs that two graphs agree on them. Recorded, Divide, Walk, Decisions,
      Committed, Settled: hashgraph.go implements that specification;
      [settled_at] relates a hashgraph to it.
    - GraphTheorems, Agreement, SameBlocks, CoreTheorems, PipelineTheorems,
      NodeTheorems, ServiceTheorems, ProxyTheorems, ComponentTheorems,
      BadgerTheorems, TransportTheorems, EngineTheorems: the properties.
      Instances, StoreInstances,
      ReplicaExamples: the examples on which they are run.

    ** What is shown

    - The graph (GraphTheorems): from an empty hashgraph, whatever events with
      consecutive indexes are offered, and whether they are accepted or not,
      the coordinates kept with the events are exact, so that the
      constant-time test of ancestry decides reachability; an insertion adds
      exactly the event, a refused one nothing; Lamport timestamps grow along
      parents; strongly seeing means what it should.
    - Agreement (Agreement, SameBlocks): two replicas that start with the same
      peer-set and receive different parts of the network's events in
      different orders, while the peer-set does not change and fewer than a
      third of the validators equivocate, give an event the same round, decide
      the same fame, receive an event in the same round and commit the same
      blocks, as far as both have come; two that hold the same events have
      decided and committed exactly the same. A round is decided as soon as
      the events at hand settle it, and what is received in a round all of
      whose predecessors are settled is committed. The conditions: the stores
      keep [StoreLaws] (the in-memory store does; the persistent one is not
      shown to), the caches have room, the commit callback leaves the
      hashgraph alone ([commit_quiet]: [core.commit] does when no join or leave
      is accepted), and every event offered is new and carries the index after
      its self-parent's. The code does not check that index, and without the
      condition replicas differ: [misindexed_forks_diverge], a run with one of
      four validators misbehaving. Two more examples:
      [fame_conflict_on_peer_change], votes under different peer-sets, and
      [signatures_reorder_frame], a second signature of an event.
    - The pipeline (PipelineTheorems): decisions are final; blocks are numbered
      without gaps, and are given to the application in the order of their
      rounds; the anchor block carries signatures of more than a third of its
      validators.
    - The store (ComponentTheorems, BadgerTheorems): the in-memory store and
      its caches refine maps, windows and queues; a stored event survives
      everything that follows, and a restart; the database's sequence of events
      is an append-only log, which bootstrapping replays. An index that is
      left out hides every event stored afterwards ([gap_hides_events]). Two
      examples break the log: [refused_event_truncates_log] and
      [fast_forward_breaks_bootstrap].
    - The node (CoreTheorems, NodeTheorems, PipelineTheorems): self-events
      carry the pools, peer-set changes take effect six rounds later, an
      event survives the wire; a remote request cannot change more than it
      should; the answer to a synchronisation; shutting down, with the ways it
      goes wrong.
    - The surroundings (TransportTheorems, InmemTransport, ProxyTheorems,
      ServiceTheorems, EngineTheorems): connections are neither leaked nor
      shared, requests are told apart (but for one size), an answer belongs to
      its request; an application behind a socket behaves as one in the same
      process as long as no answer is lost, and commits twice when one is, and
      each call runs its handler at most three times, be it late; the
      HTTP service only reads, and pages of blocks are cut to size (but for
      one count); the engine starts with the key that was generated for it;
      keys survive their file; a restored application follows the others; in
      maintenance mode the engine does nothing to the disk but open the
      database.

    ** Bounds

    The recursions of [round] and [lamportTimestamp] and the walk over
    self-parents take a fuel. Any fuel above the topological index of the
    hashgraph is enough (Termination, [rounds_terminate],
    [lamport_happens_before]), and the theorems that say that a call returns
    assume no more than that. [Bootstrap] needs one step more than there are
    full batches ([bootstrap_replays]); [read_value] needs two reads for a
    request that fits ([requests_framed]). The theorems on rounds and blocks
    assume, where they say so, that the caches have not overflowed: the code
    forgets what the caches evict.

    ** What is not modelled

    Sockets, WebRTC and its signalling, the HTTP server, the bindings of
    mobile/node.go and the main programs: they call other packages and have no
    consensus state. badger_store_mobile.go is the text of badger_store.go
    over a fork of the database. Logging is left out, and so is waiting: a
    goroutine that waits for an answer is split there into two steps, and the
    interleaving is the order of the steps. That gossip brings a node the
    events that settle a round depends on the network and its scheduling and
    is not stated; [received_is_committed] starts from the events at hand. *)
From Stdlib Require Export ZArith Lia ZifyBool ZifyNat.
From stdpp Require Export sorting.
From stdpp Require Export base tactics option list gmap strings fin_maps numbers.
From stdpp Require Export list_basics list_relations list_monad list_misc list_tactics list_numbers list.

#[global] Set Default Goal Selector "!".

(** ** Results of Go code

    A Go function that returns [(A, error)] is a function into [result E A].
    [Ok] is a nil error, [Err] a non-nil one; [Panic] is a run-time panic (an
    index out of range, a nil dereference) and [OutOfFuel] the answer of a
    bounded recursion that was given too little fuel: it is never the answer
    of the program, and the termination theorems rule it out. *)
Inductive result (E A : Type) : Type :=
| Ok (a : A)
| Err (e : E)
| Panic
| OutOfFuel.
Arguments Ok {E A} _.
Arguments Err {E A} _.
Arguments Panic {E A}.
Arguments OutOfFuel {E A}.

Definition res_bind {E A B} (r : result E A) (k : A → result E B) : result E B :=
  match r with
  | Ok a => k a
  | Err e => Err e
  | Panic => Panic
  | OutOfFuel => OutOfFuel
  end.

Definition is_ok {E A} (r : result E A) : bool :=
  match r with Ok _ => true | _ => false end.

(** ** The state-and-error monad

    Stateful Go code over an object of type [S] is [GoM E S A]: it returns a
    result together with the new state. The state is returned on errors too,
    because Go does not undo the assignments made before a [return err]. *)
Definition GoM (E S A : Type) : Type := S → result E A * S.

Definition ret {E S A} (a : A) : GoM E S A := λ s, (Ok a, s).
Definition throw {E S A} (e : E) : GoM E S A := λ s, (Err e, s).
Definition panic {E S A} : GoM E S A := λ s, (Panic, s).
Definition diverge {E S A} : GoM E S A := λ s, (OutOfFuel, s).
Definition bind {E S A B} (m : GoM E S A) (k : A → GoM E S B) : GoM E S B :=
  λ s, match m s with
       | (Ok a, s') => k a s'
       | (Err e, s') => (Err e, s')
       | (Panic, s') => (Panic, s')
       | (OutOfFuel, s') => (OutOfFuel, s')
       end.
Definition get {E S} : GoM E S S := λ s, (Ok s, s).
Definition gets {E S A} (f : S → A) : GoM E S A := λ s, (Ok (f s), s).
Definition modify {E S} (f : S → S) : GoM E S unit := λ s, (Ok tt, f s).
Definition lift {E S A} (r : result E A) : GoM E S A := λ s, (r, s).
(** [try m] runs [m] and hands its error to the caller as a value, the shape
    of [v, err := m] followed by a test of [err]. Panics are not caught. *)
Definition try {E S A} (m : GoM E S A) : GoM E S (A + E) :=
  λ s, match m s with
       | (Ok a, s') => (Ok (inl a), s')
       | (Err e, s') => (Ok (inr e), s')
       | (Panic, s') => (Panic, s')
       | (OutOfFuel, s') => (OutOfFuel, s')
       end.
(** Running a computation on a component of a larger state. *)
Definition zoom {E S T A} (proj : S → T) (put : T → S → S) (m : GoM E T A) :
    GoM E S A :=
  λ s, match m (proj s) with (r, t) => (r, put t s) end.

Declare Scope go_scope.
Delimit Scope go_scope with go.
Notation "x <- m ;; k" := (bind m (λ x, k))
  (at level 100, m at next level, right associativity) : go_scope.
Notation "m ;;; k" := (bind m (λ _, k))
  (at level 100, right associativity) : go_scope.
Notation "x <-- r ;; k" := (res_bind r (λ x, k))
  (at level 100, r at next level, right associativity) : go_scope.
Open Scope go_scope.
Open Scope Z_scope.

(** ** Loops

    [for _, x := range l] is [forM l body]; a loop with an accumulator is
    [foldM]. A body that can [break] answers [Break]. *)
Inductive ctl (A : Type) : Type :=
| Continue (a : A)
| Break (a : A).
Arguments Continue {A} _.
Arguments Break {A} _.

Definition ctl_val {A} (c : ctl A) : A :=
  match c with Continue a | Break a => a end.

Fixpoint foldM {E S A B} (f : A → B → GoM E S A) (a : A) (l : list B) : GoM E S A :=
  match l with
  | [] => ret a
  | b :: l' => a' <- f a b ;; foldM f a' l'
  end.

Definition forM {E S B} (l : list B) (f : B → GoM E S unit) : GoM E S unit :=
  foldM (λ _ b, f b) tt l.

Fixpoint foldM_ctl {E S A B} (f : A → B → GoM E S (ctl A)) (a : A) (l : list B) :
    GoM E S A :=
  match l with
  | [] => ret a
  | b :: l' =>
      c <- f a b ;;
      match c with
      | Continue a' => foldM_ctl f a' l'
      | Break a' => ret a'
      end
  end.

Fixpoint res_foldM {E A B} (f : A → B → result E A) (a : A) (l : list B) : result E A :=
  match l with
  | [] => Ok a
  | b :: l' => a' <-- f a b ;; res_foldM f a' l'
  end.

Definition res_mapM {E A B} (f : A → result E B) (l : list A) : result E (list B) :=
  res_foldM (λ acc a, b <-- f a ;; Ok (acc ++ [b])) [] l.

(** The integers [lo, lo+1, .., hi] of [for i := lo; i <= hi; i++]. *)
Definition zrange (lo hi : Z) : list Z :=
  (λ i, lo + Z.of_nat i) <$> seq 0 (Z.to_nat (hi - lo + 1)).

(** ** Go slices and machine integers

    [slice A] distinguishes the nil slice from the empty one, which [encoding/
    json] renders differently; [elems] is what ranging over it yields. *)
Definition slice (A : Type) : Type := option (list A).
Definition elems {A} (s : slice A) : list A := default [] s.

(** [s[i]], [s[i:]] and [s[:i]]: out of range they panic. *)
Definition go_index {E A} (l : list A) (i : Z) : result E A :=
  if (i <? 0) then Panic
  else match l !! Z.to_nat i with Some a => Ok a | None => Panic end.
Definition go_from {E A} (l : list A) (i : Z) : result E (list A) :=
  if (i <? 0) || (Z.of_nat (length l) <? i) then Panic else Ok (drop (Z.to_nat i) l).
Lemma go_from_app {E A} (l1 l2 : list A) : go_from (E:=E) (l1 ++ l2) (Z.of_nat (length l1)) = Ok l2.
Proof.
  unfold go_from. rewrite length_app. destruct (Z.ltb_spec (Z.of_nat (length l1)) 0); [lia|].
  destruct (Z.ltb_spec (Z.of_nat (length l1 + length l2)) (Z.of_nat (length l1))); [lia|]. simpl.
  by rewrite Nat2Z.id, drop_app_length.
Qed.
Definition go_upto {E A} (l : list A) (i : Z) : result E (list A) :=
  if (i <? 0) || (Z.of_nat (length l) <? i) then Panic else Ok (take (Z.to_nat i) l).
Definition zlen {A} (l : list A) : Z := Z.of_nat (length l).

(** Two's complement [int64] and unsigned [uint32] wrap-around. *)
Definition wrap64 (z : Z) : Z := (z + 2 ^ 63) mod 2 ^ 64 - 2 ^ 63.
Definition wrapU32 (z : Z) : Z := z mod 2 ^ 32.
Definition int64_ok (z : Z) : Prop := - 2 ^ 63 ≤ z < 2 ^ 63.

(** ** Ranging over a map

    Go leaves the iteration order of a map unspecified, and may choose another
    one at every loop. The model takes the order as a parameter, of which only
    this is known and used: every binding is visited once. It is a function of
    the map, the same at every loop over an equal map; the theorems hold for
    every such function, and those on two replicas let them use different
    ones. *)
Class RangeOrder := {
  range : ∀ {K} `{Countable K} {V : Type}, gmap K V → list (K * V);
  range_perm : ∀ {K} `{Countable K} {V : Type} (m : gmap K V),
      range m ≡ₚ map_to_list m;
}.
Definition map_to_list_order : RangeOrder :=
  {| range := λ K _ _ V m, map_to_list m;
     range_perm := λ K _ _ V m, reflexivity _ |}.

(** ** Reasoning about [GoM] *)
Section monad_laws.
Context {E S : Type}.

Lemma bind_Ok {A B} (m : GoM E S A) (k : A → GoM E S B) s b s' :
  bind m k s = (Ok b, s') ↔ ∃ a s1, m s = (Ok a, s1) ∧ k a s1 = (Ok b, s').
Proof.
  unfold bind. split.
  - destruct (m s) as [[a|e| |] s1] eqn:Hm; intros H; try discriminate. eauto.
  - intros (a & s1 & -> & H). exact H.
Qed.

Lemma bind_Ok_l {A B} (m : GoM E S A) (k : A → GoM E S B) s a s1 :
  m s = (Ok a, s1) → bind m k s = k a s1.
Proof. unfold bind. by intros ->. Qed.

Lemma bind_Err_l {A B} (m : GoM E S A) (k : A → GoM E S B) s e s1 :
  m s = (Err e, s1) → bind m k s = (Err e, s1).
Proof. unfold bind. by intros ->. Qed.

Lemma try_Ok {A} (m : GoM E S A) s r s' :
  try m s = (Ok r, s') ↔
  match r with inl a => m s = (Ok a, s') | inr e => m s = (Err e, s') end.
Proof. unfold try. destruct (m s) as [[]]; destruct r; naive_solver. Qed.

Lemma ret_Ok {A} (a a' : A) (s s' : S) :
  ret (E:=E) a s = (Ok a', s') ↔ a = a' ∧ s = s'.
Proof. unfold ret. naive_solver. Qed.

Lemma gets_Ok {A} (f : S → A) a (s s' : S) :
  gets (E:=E) f s = (Ok a, s') ↔ f s = a ∧ s = s'.
Proof. unfold gets. naive_solver. Qed.

Lemma modify_Ok (f : S → S) u (s s' : S) :
  modify (E:=E) f s = (Ok u, s') ↔ s' = f s.
Proof. unfold modify. destruct u. naive_solver. Qed.

Lemma lift_Ok {A} (r : result E A) a (s s' : S) :
  lift r s = (Ok a, s') ↔ r = Ok a ∧ s = s'.
Proof. unfold lift. naive_solver. Qed.

Lemma throw_Ok {A} e a (s s' : S) : throw (E:=E) (A:=A) e s = (Ok a, s') ↔ False.
Proof. unfold throw. naive_solver. Qed.

Lemma res_bind_Ok {A B} (r : result E A) (k : A → result E B) b :
  res_bind r k = Ok b ↔ ∃ a, r = Ok a ∧ k a = Ok b.
Proof. destruct r; naive_solver. Qed.

Lemma zoom_Ok {T A} (proj : S → T) put (m : GoM E T A) s a s' :
  zoom proj put m s = (Ok a, s') ↔
  ∃ t, m (proj s) = (Ok a, t) ∧ s' = put t s.
Proof. unfold zoom. destruct (m (proj s)) as [r t]. naive_solver. Qed.
End monad_laws.

(** [inv_ok] takes a successful run of a sequence of calls apart. *)
Ltac inv_ok_step :=
  match goal with
  | H : bind _ _ _ = (Ok _, _) |- _ =>
      apply bind_Ok in H; destruct H as (? & ? & ? & ?)
  | H : ret _ _ = (Ok _, _) |- _ => apply ret_Ok in H; destruct H as [? ?]
  | H : gets _ _ = (Ok _, _) |- _ => apply gets_Ok in H; destruct H as [? ?]
  | H : modify _ _ = (Ok _, _) |- _ => apply modify_Ok in H
  | H : lift _ _ = (Ok _, _) |- _ => apply lift_Ok in H; destruct H as [? ?]
  | H : throw _ _ = (Ok _, _) |- _ => apply throw_Ok in H; destruct H
  | H : res_bind _ _ = Ok _ |- _ => apply res_bind_Ok in H; destruct H as (? & ? & ?)
  | H : zoom _ _ _ _ = (Ok _, _) |- _ => apply zoom_Ok in H; destruct H as (? & ? & ?)
  end.
Ltac inv_ok := repeat (inv_ok_step; simplify_eq/=).

(** *** Two-state properties

    [respects R m]: whatever [m] answers, the states before and after it are
    related by [R]. For a preorder this composes, so it is proved operation
    by operation and lifted through a whole handler by [auto with respects].
    An invariant [I] is the preorder [λ s s', I s → I s']. *)
Definition respects {E S A} (R : S → S → Prop) (m : GoM E S A) : Prop :=
  ∀ s, R s (m s).2.
Definition keeps {S} (I : S → Prop) : S → S → Prop := λ s s', I s → I s'.
#[export] Instance keeps_preorder {S} (I : S → Prop) : PreOrder (keeps I).
Proof. split; unfold keeps; red; auto. Qed.

Create HintDb respects.
Section respects.
Context {E S : Type} (R : S → S → Prop) `{!PreOrder R}.

Lemma respects_pure {A} (m : GoM E S A) : (∀ s, (m s).2 = s) → respects R m.
Proof. intros H s. by rewrite H. Qed.

Lemma respects_ret {A} (a : A) : respects R (ret (E:=E) a).
Proof. by apply respects_pure. Qed.
Lemma respects_throw {A} e : respects R (throw (E:=E) (A:=A) e).
Proof. by apply respects_pure. Qed.
Lemma respects_panic {A} : respects R (panic (E:=E) (A:=A)).
Proof. by apply respects_pure. Qed.
Lemma respects_diverge {A} : respects R (diverge (E:=E) (A:=A)).
Proof. by apply respects_pure. Qed.
Lemma respects_gets {A} (f : S → A) : respects R (gets (E:=E) f).
Proof. by apply respects_pure. Qed.
Lemma respects_get : respects R (get (E:=E)).
Proof. by apply respects_pure. Qed.
Lemma respects_lift {A} (r : result E A) : respects R (lift r).
Proof. by apply respects_pure. Qed.
Lemma respects_modify f : (∀ s, R s (f s)) → respects R (modify (E:=E) f).
Proof. by intros H s. Qed.
Lemma respects_try {A} (m : GoM E S A) : respects R m → respects R (try m).
Proof. intros H s. specialize (H s). unfold try. by destruct (m s) as [[]]. Qed.

Lemma respects_bind {A B} (m : GoM E S A) (k : A → GoM E S B) :
  respects R m → (∀ a, respects R (k a)) → respects R (bind m k).
Proof.
  intros Hm Hk s. specialize (Hm s). unfold bind.
  destruct (m s) as [[a|e| |] s1]; simpl in *; try done.
  etrans; [exact Hm|apply Hk].
Qed.

Lemma respects_foldM {A B} (f : A → B → GoM E S A) a l :
  (∀ a b, respects R (f a b)) → respects R (foldM f a l).
Proof.
  intros Hf. revert a. induction l as [|b l IH]; intros a; simpl.
  - apply respects_ret.
  - apply respects_bind; auto.
Qed.

Lemma respects_forM {B} (l : list B) (f : B → GoM E S unit) :
  (∀ b, respects R (f b)) → respects R (forM l f).
Proof. intros Hf. apply respects_foldM. auto. Qed.

Lemma respects_foldM_ctl {A B} (f : A → B → GoM E S (ctl A)) a l :
  (∀ a b, respects R (f a b)) → respects R (foldM_ctl f a l).
Proof.
  intros Hf. revert a. induction l as [|b l IH]; intros a; simpl.
  - apply respects_ret.
  - apply respects_bind; [auto|]. intros [a'|a']; auto using respects_ret.
Qed.

Lemma respects_zoom {T A} (R' : T → T → Prop) (proj : S → T) put (m : GoM E T A) :
  respects R' m →
  (∀ s t, R' (proj s) t → R s (put t s)) →
  respects R (zoom proj put m).
Proof.
  intros Hm Hput s. specialize (Hm (proj s)). unfold zoom.
  destruct (m (proj s)) as [r t]. by apply Hput.
Qed.
End respects.

(** [returns Φ m]: what [m] answers, if it answers, satisfies [Φ]. *)
Definition returns {E S A} (Φ : A → Prop) (m : GoM E S A) : Prop :=
  ∀ s a s', m s = (Ok a, s') → Φ a.
Lemma returns_ret {E S A} (Φ : A → Prop) (a : A) : Φ a → returns (E:=E) (S:=S) Φ (ret a).
Proof. intros Ha s a' s' Hr. by injection Hr as <- _. Qed.
Lemma returns_bind {E S A B} (Φ : B → Prop) (m : GoM E S A) (k : A → GoM E S B) :
  (∀ a, returns Φ (k a)) → returns Φ (bind m k).
Proof. intros Hk s b s' (a & s1 & _ & Hr)%bind_Ok. by apply (Hk a s1 b s'). Qed.
Lemma returns_throw {E S A} (Φ : A → Prop) e : returns (E:=E) (S:=S) Φ (throw e).
Proof. by intros s a s' []%throw_Ok. Qed.
Ltac returns_go :=
  repeat first
    [ progress cbv zeta
    | match goal with
      | |- returns _ (bind _ _) => apply returns_bind; intros ?
      | |- returns _ (ret _) => apply returns_ret
      | |- returns _ (throw _) => apply returns_throw
      | |- returns _ (match ?x with _ => _ end) => destruct x
      end ]; try done.

Lemma respects_bind_val {E S A B} (R : S → S → Prop) `{!PreOrder R} (Φ : A → Prop)
    (m : GoM E S A) (k : A → GoM E S B) :
  respects R m → returns Φ m → (∀ a, Φ a → respects R (k a)) → respects R (bind m k).
Proof.
  intros Hm HΦ Hk s. specialize (Hm s). specialize (HΦ s). unfold bind.
  destruct (m s) as [[a|e| |] s1]; simpl in *; try done.
  etrans; [exact Hm|]. by eapply Hk, HΦ.
Qed.

Lemma respects_impl {E S A} (R R' : S → S → Prop) (m : GoM E S A) :
  respects R m → (∀ s s', R s s' → R' s s') → respects R' m.
Proof. unfold respects. auto. Qed.

Lemma respects_Ok {E S A} (R : S → S → Prop) (m : GoM E S A) s a s' :
  respects R m → m s = (Ok a, s') → R s s'.
Proof. intros H Hm. specialize (H s). by rewrite Hm in H. Qed.

#[export] Hint Resolve respects_ret respects_throw respects_panic respects_diverge
  respects_gets respects_get respects_lift respects_bind respects_try
  respects_foldM respects_forM respects_foldM_ctl : respects.

(** [respects_go] walks through a handler: binds, branches and loops are
    split, the calls are closed by the hints of the called operations. *)
Ltac respects_go :=
  repeat first
    [ progress cbv zeta
    | match goal with
      | |- respects _ (bind _ _) => apply (respects_bind _); [ | intros ? ]
      | |- respects _ (try _) => apply respects_try
      | |- respects _ (foldM _ _ _) => apply (respects_foldM _); intros ? ?
      | |- respects _ (forM _ _) => apply (respects_forM _); intros ?
      | |- respects _ (foldM_ctl _ _ _) => apply (respects_foldM_ctl _); intros ? ?
      | |- respects _ (match ?x with _ => _ end) => destruct x
      end ];
  try solve [ auto with respects typeclass_instances ].

(** *** Hoare triples

    [hoare P m Q F]: from a state satisfying [P], a normal return satisfies
    [Q] of the value and the new state, and any other outcome (an error, a
    panic, no fuel) leaves a state satisfying [F]. *)
Definition hoare {E S A} (P : S → Prop) (m : GoM E S A) (Q : A → S → Prop) (F : S → Prop) :
    Prop :=
  ∀ s, P s → match m s with
             | (Ok a, s') => Q a s'
             | (_, s') => F s'
             end.

Create HintDb hoare.
Section hoare.
Context {E S : Type}.
Implicit Types (P F : S → Prop).

Lemma hoare_bind {A B} P (Q : A → S → Prop) (Q' : B → S → Prop) F
    (m : GoM E S A) (k : A → GoM E S B) :
  hoare P m Q F → (∀ a, hoare (Q a) (k a) Q' F) → hoare P (bind m k) Q' F.
Proof.
  intros Hm Hk s HP. specialize (Hm s HP). unfold bind.
  destruct (m s) as [[a|e| |] s']; try done. by apply Hk.
Qed.

Lemma hoare_conseq {A} P P' (Q Q' : A → S → Prop) F F' (m : GoM E S A) :
  hoare P' m Q' F' → (∀ s, P s → P' s) → (∀ a s, Q' a s → Q a s) → (∀ s, F' s → F s) →
  hoare P m Q F.
Proof.
  intros Hm HP HQ HF s Hs. specialize (Hm s (HP s Hs)).
  destruct (m s) as [[a|e| |] s']; auto.
Qed.

Lemma hoare_fail {A} P (Q : A → S → Prop) F' F (m : GoM E S A) :
  hoare P m Q F' → (∀ s, F' s → F s) → hoare P m Q F.
Proof. intros Hm HF. by eapply hoare_conseq. Qed.

Lemma hoare_ret {A} P (Q : A → S → Prop) F a : (∀ s, P s → Q a s) → hoare P (ret (E:=E) a) Q F.
Proof. intros H s Hs. by apply H. Qed.
Lemma hoare_throw {A} P (Q : A → S → Prop) F e :
  (∀ s, P s → F s) → hoare P (throw (E:=E) e) Q F.
Proof. intros H s Hs. by apply H. Qed.
Lemma hoare_panic {A} P (Q : A → S → Prop) F :
  (∀ s, P s → F s) → hoare P (panic (E:=E)) Q F.
Proof. intros H s Hs. by apply H. Qed.
Lemma hoare_diverge {A} P (Q : A → S → Prop) F :
  (∀ s, P s → F s) → hoare P (diverge (E:=E)) Q F.
Proof. intros H s Hs. by apply H. Qed.
Lemma hoare_gets {A} P (Q : A → S → Prop) F (f : S → A) :
  (∀ s, P s → Q (f s) s) → hoare P (gets (E:=E) f) Q F.
Proof. intros H s Hs. by apply H. Qed.
Lemma hoare_get P (Q : S → S → Prop) F :
  (∀ s, P s → Q s s) → hoare P (get (E:=E)) Q F.
Proof. intros H s Hs. by apply H. Qed.
Lemma hoare_modify P (Q : unit → S → Prop) F f :
  (∀ s, P s → Q tt (f s)) → hoare P (modify (E:=E) f) Q F.
Proof. intros H s Hs. by apply H. Qed.
Lemma hoare_lift {A} P (Q : A → S → Prop) F (r : result E A) :
  (∀ a s, r = Ok a → P s → Q a s) → (∀ s, P s → F s) → hoare P (lift r) Q F.
Proof. intros H HF s Hs. unfold lift. destruct r; auto. Qed.
Lemma hoare_try {A} P (Q : A → S → Prop) F (m : GoM E S A) :
  hoare P m Q F →
  hoare P (try m) (λ r s, match r with inl a => Q a s | inr _ => F s end) F.
Proof.
  intros Hm s Hs. specialize (Hm s Hs). unfold try. by destruct (m s) as [[]].
Qed.

Lemma hoare_foldM {A B} (Inv : A → S → Prop) F (f : A → B → GoM E S A) a l :
  (∀ a b, b ∈ l → hoare (Inv a) (f a b) Inv F) → hoare (Inv a) (foldM f a l) Inv F.
Proof.
  revert a. induction l as [|b l IH]; intros a Hf; simpl; [by apply hoare_ret|].
  eapply hoare_bind; [apply Hf; set_solver|]. intros a'. apply IH. intros; apply Hf; set_solver.
Qed.

Lemma hoare_forM {B} P F (f : B → GoM E S unit) l :
  (∀ b, b ∈ l → hoare P (f b) (λ _, P) F) → hoare P (forM l f) (λ _, P) F.
Proof. intros Hf. apply (hoare_foldM (λ _, P)). auto. Qed.

Lemma hoare_foldM_ctl {A B} (Inv : A → S → Prop) F (f : A → B → GoM E S (ctl A)) a l :
  (∀ a b, b ∈ l → hoare (Inv a) (f a b) (λ c s, Inv (ctl_val c) s) F) →
  hoare (Inv a) (foldM_ctl f a l) Inv F.
Proof.
  revert a. induction l as [|b l IH]; intros a Hf; simpl; [by apply hoare_ret|].
  eapply hoare_bind; [apply Hf; set_solver|]. intros [a'|a']; simpl.
  - apply IH. intros; apply Hf; set_solver.
  - by apply hoare_ret.
Qed.

Lemma hoare_zoom {T A} (proj : S → T) put (P : S → Prop) (P' : T → Prop)
    (Q : A → S → Prop) (Q' : A → T → Prop) F (F' : T → Prop) (m : GoM E T A) :
  hoare P' m Q' F' → (∀ s, P s → P' (proj s)) →
  (∀ s a t, P s → Q' a t → Q a (put t s)) → (∀ s t, P s → F' t → F (put t s)) →
  hoare P (zoom proj put m) Q F.
Proof.
  intros Hm HP HQ HF s Hs. specialize (Hm (proj s) (HP s Hs)). unfold zoom.
  destruct (m (proj s)) as [[a|e| |] t]; eauto.
Qed.

(** Facts about the pre-state can be brought into the context. *)
Lemma hoare_pre {A} P (Q : A → S → Prop) F (m : GoM E S A) :
  (∀ s0, P s0 → hoare (λ s, s = s0) m Q F) → hoare P m Q F.
Proof. intros H s Hs. by apply (H s Hs). Qed.

Lemma hoare_pure {A} (φ : Prop) P (Q : A → S → Prop) F (m : GoM E S A) :
  (φ → hoare P m Q F) → hoare (λ s, P s ∧ φ) m Q F.
Proof. intros H s [Hs Hφ]. by apply H. Qed.

Lemma hoare_Ok {A} P (Q : A → S → Prop) F (m : GoM E S A) s a s' :
  hoare P m Q F → P s → m s = (Ok a, s') → Q a s'.
Proof. intros H Hs Hm. specialize (H s Hs). by rewrite Hm in H. Qed.

Lemma hoare_state {A} P (Q : A → S → Prop) F (m : GoM E S A) s :
  hoare P m Q F → P s → (∀ a s', Q a s' → F s') → F (m s).2.
Proof. intros H Hs HQ. specialize (H s Hs). destruct (m s) as [[]]; simpl; eauto. Qed.
End hoare.

(** Errors told apart from panics and from running out of fuel: an error is a
    value that the caller sees, after the others nothing runs any more. *)
Definition hoare3 {E S A} (P : S → Prop) (m : GoM E S A) (Q : A → S → Prop) (F C : S → Prop) : Prop :=
  ∀ s, P s → match m s with
             | (Ok a, s') => Q a s'
             | (Err _, s') => F s'
             | (_, s') => C s'
             end.
Section hoare3.
Context {E S : Type}.
Implicit Types (P F C : S → Prop).
Lemma hoare3_of {A} P (Q : A → S → Prop) F' F C (m : GoM E S A) :
  hoare P m Q F' → (∀ s, F' s → F s ∧ C s) → hoare3 P m Q F C.
Proof. intros Hm HF s Hs. specialize (Hm s Hs). destruct (m s) as [[]]; naive_solver. Qed.
Lemma hoare3_bind {A B} P (Q : A → S → Prop) (Q' : B → S → Prop) F C (m : GoM E S A) (k : A → GoM E S B) :
  hoare3 P m Q F C → (∀ a, hoare3 (Q a) (k a) Q' F C) → hoare3 P (bind m k) Q' F C.
Proof.
  intros Hm Hk s HP. specialize (Hm s HP). unfold bind. destruct (m s) as [[a|e| |] s']; try done.
  by apply Hk.
Qed.
Lemma hoare3_try {A} P (Q : A → S → Prop) F F' C (m : GoM E S A) :
  hoare3 P m Q F C → hoare3 P (try m) (λ r s, match r with inl a => Q a s | inr _ => F s end) F' C.
Proof. intros Hm s Hs. specialize (Hm s Hs). unfold try. by destruct (m s) as [[]]. Qed.
Lemma hoare3_pure {A} (φ : Prop) P (Q : A → S → Prop) F C (m : GoM E S A) :
  (φ → hoare3 P m Q F C) → hoare3 (λ s, P s ∧ φ) m Q F C.
Proof. intros H s [Hs Hφ]. by apply H. Qed.
Lemma hoare3_ret {A} P (Q : A → S → Prop) F C a : (∀ s, P s → Q a s) → hoare3 P (ret (E:=E) a) Q F C.
Proof. intros H s Hs. by apply H. Qed.
End hoare3.
