(* ===== verification/Common.v ===== *)
(** * Package common: errors, trilean, hexadecimal strings, median

    Models src/src/common/store_errors.go, trilean.go, hex.go and median.go,
    and the error type of src/src/hashgraph/errors.go. *)
From Stdlib Require Export Strings.Ascii Strings.Byte.
From stdpp Require Export pretty.
From S2P Require Export Prelude.

(** ** Errors *)
Inductive StoreErrType :=
| KeyNotFound
| TooLate
| SkippedIndex
| UnknownParticipant
| Empty
| KeyAlreadyExists.

#[export] Instance StoreErrType_eq_dec : EqDecision StoreErrType.
Proof. solve_decision. Defined.

Record StoreErr := mkStoreErr {
  dataType : string;
  errType : StoreErrType;
  errKey : string;
}.

#[export] Instance StoreErr_eq_dec : EqDecision StoreErr.
Proof. solve_decision. Defined.

(** The values of Go's [error] interface the program builds: a [StoreErr], a
    [SelfParentError], or an error made from a message by [fmt.Errorf]. *)
Inductive error :=
| EStore (e : StoreErr)
| ESelfParent (msg : string) (normal : bool)
| EMsg (msg : string).

#[export] Instance error_eq_dec : EqDecision error.
Proof. solve_decision. Defined.

Abbreviation res := (result error).
Abbreviation M := (GoM error).

Definition NewStoreErr (dt : string) (et : StoreErrType) (k : string) : error :=
  EStore (mkStoreErr dt et k).

Definition StoreErr_Error (e : StoreErr) : string :=
  let m := match errType e with
           | KeyNotFound => "Not Found"
           | TooLate => "Too Late"
           | SkippedIndex => "Skipped Index"
           | UnknownParticipant => "Unknown Participant"
           | Empty => "Empty"
           | KeyAlreadyExists => "Key Already Exists"
           end in
  dataType e +:+ ", " +:+ errKey e +:+ ", " +:+ m.

Definition IsStore (err : error) (t : StoreErrType) : bool :=
  match err with
  | EStore e => bool_decide (errType e = t)
  | _ => false
  end.

Definition NewSelfParentError (msg : string) (normal : bool) : error :=
  ESelfParent msg normal.

Definition IsNormalSelfParentError (err : error) : bool :=
  match err with
  | ESelfParent _ normal => normal
  | _ => false
  end.

(** The [Error()] method of the interface. *)
Definition error_msg (err : error) : string :=
  match err with
  | EStore e => StoreErr_Error e
  | ESelfParent m _ => m
  | EMsg m => m
  end.

(** [fmt.Errorf("prefix: %s", err)]: the error becomes a message. *)
Definition wrap {S A} (prefix : string) (m : M S A) : M S A :=
  λ s, match m s with
       | (Err e, s') => (Err (EMsg (prefix +:+ ": " +:+ error_msg e)), s')
       | r => r
       end.

Lemma wrap_Ok {S A} prefix (m : M S A) s a s' :
  wrap prefix m s = (Ok a, s') ↔ m s = (Ok a, s').
Proof. unfold wrap. destruct (m s) as [[]]; naive_solver. Qed.

Lemma respects_wrap {S A} (R : S → S → Prop) prefix (m : M S A) :
  respects R m → respects R (wrap prefix m).
Proof. intros H s. specialize (H s). unfold wrap. by destruct (m s) as [[]]. Qed.
#[export] Hint Resolve respects_wrap : respects.
Lemma returns_wrap {S A} (Φ : A → Prop) prefix (m : M S A) :
  returns Φ m → returns Φ (wrap prefix m).
Proof. intros Hm s a s' Hr%wrap_Ok. by apply (Hm s a s'). Qed.

(** ** Trilean *)
Inductive Trilean := Undefined | TTrue | TFalse.
#[export] Instance Trilean_eq_dec : EqDecision Trilean.
Proof. solve_decision. Defined.

(** ** Hexadecimal strings *)
Abbreviation bytes := (list byte).

#[export] Instance byte_eq_dec : EqDecision byte := Byte.byte_eq_dec.

Definition hex_digit (n : N) : ascii :=
  default "0"%char (String.get (N.to_nat n) "0123456789ABCDEF").

(** One byte printed with the [%X] verb. *)
Definition hex_of_byte (b : byte) (s : string) : string :=
  String (hex_digit (Byte.to_N b / 16)) (String (hex_digit (Byte.to_N b mod 16)) s).

Definition hex_of_bytes (bs : bytes) : string := foldr hex_of_byte "" bs.

Definition EncodeToString (hexBytes : bytes) : string :=
  "0X" +:+ hex_of_bytes hexBytes.

(** [fromHexChar] of Go's encoding/hex. *)
Definition fromHexChar (c : ascii) : option N :=
  let n := N_of_ascii c in
  (if (48 <=? n) && (n <=? 57) then Some (n - 48)
   else if (97 <=? n) && (n <=? 102) then Some (n - 97 + 10)
   else if (65 <=? n) && (n <=? 70) then Some (n - 65 + 10)
   else None)%N.

(** [hex.DecodeString]: the bytes decoded before an error are returned with
    the error. *)
Fixpoint hex_DecodeString (s : string) : bytes * option error :=
  match s with
  | EmptyString => ([], None)
  | String a EmptyString =>
      match fromHexChar a with
      | None => ([], Some (EMsg "encoding/hex: invalid byte"))
      | Some _ => ([], Some (EMsg "encoding/hex: odd length hex string"))
      end
  | String a (String b s') =>
      match fromHexChar a, fromHexChar b with
      | Some x, Some y =>
          let '(bs, err) := hex_DecodeString s' in
          (default x00 (Byte.of_N (x * 16 + y)) :: bs, err)
      | _, _ => ([], Some (EMsg "encoding/hex: invalid byte"))
      end
  end.

(** [hexString[2:]] panics on a string shorter than two bytes. *)
Definition DecodeFromString (hexString : string) : res (bytes * option error) :=
  match hexString with
  | String _ (String _ s) => Ok (hex_DecodeString s)
  | _ => Panic
  end.

(** [strings.ToUpper] on the ASCII strings the program applies it to. *)
Definition ascii_upper (c : ascii) : ascii :=
  let n := N_of_ascii c in
  if ((97 <=? n) && (n <=? 122))%N then ascii_of_N (n - 32) else c.
Fixpoint ToUpper (s : string) : string :=
  match s with
  | EmptyString => EmptyString
  | String c s' => String (ascii_upper c) (ToUpper s')
  end.

(** ** Median *)
Definition Median (input : list Z) : Z :=
  let s := merge_sort Z.le input in
  let l := length s in
  if (l =? 0)%nat then 0
  else if (l mod 2 =? 0)%nat then
    let mid := (l / 2 - 1)%nat in
    Z.quot (wrap64 (nth mid s 0 + nth (mid + 1) s 0)) 2
  else nth (l / 2) s 0.

Example Median_even : Median [10; 2; 8; 4] = 6.
Proof. reflexivity. Qed.
Example Median_odd : Median [9; 1; 5] = 5.
Proof. reflexivity. Qed.
Example hex_ex : EncodeToString [x01; xab] = "0X01AB" ∧
  DecodeFromString "0x01aB" = Ok ([x01; xab], None) ∧
  DecodeFromString "0" = Panic.
Proof. repeat split. Qed.

(** ** Properties of the hexadecimal encoding *)
Lemma fromHexChar_upper c : fromHexChar (ascii_upper c) = fromHexChar c.
Proof. destruct c as [[] [] [] [] [] [] [] []]; reflexivity. Qed.

Lemma fromHexChar_digit c x :
  fromHexChar c = Some x → (x < 16)%N ∧ hex_digit x = ascii_upper c.
Proof.
  destruct c as [[] [] [] [] [] [] [] []]; vm_compute; intros; simplify_eq;
    (split; [done|reflexivity]).
Qed.

Lemma hex_of_byte_decode b s :
  hex_DecodeString (hex_of_byte b s) =
  let '(bs, err) := hex_DecodeString s in (b :: bs, err).
Proof. destruct b; simpl; by destruct (hex_DecodeString s). Qed.

Lemma hex_of_bytes_decode bs : hex_DecodeString (hex_of_bytes bs) = (bs, None).
Proof.
  induction bs as [|b bs IH]; [done|].
  change (hex_of_bytes (b :: bs)) with (hex_of_byte b (hex_of_bytes bs)).
  by rewrite hex_of_byte_decode, IH.
Qed.

Lemma hex_DecodeString_upper s : hex_DecodeString (ToUpper s) = hex_DecodeString s.
Proof.
  revert s. fix IH 1. intros [|a [|b s]]; simpl.
  - done.
  - by rewrite fromHexChar_upper.
  - rewrite !fromHexChar_upper. by rewrite IH.
Qed.

Lemma hex_of_byte_upper b s : ToUpper (hex_of_byte b s) = hex_of_byte b (ToUpper s).
Proof. destruct b; reflexivity. Qed.

Lemma byte_of_nibbles x y :
  (x < 16)%N → (y < 16)%N →
  let b := default x00 (Byte.of_N (x * 16 + y)) in
  (Byte.to_N b / 16 = x ∧ Byte.to_N b mod 16 = y)%N.
Proof.
  intros Hx Hy. cbv zeta. destruct (Byte.of_N (x * 16 + y)) as [b|] eqn:Hb; simpl.
  - apply Byte.to_of_N in Hb. rewrite Hb. split.
    + rewrite N.div_add_l by done. rewrite N.div_small by done. lia.
    + rewrite N.add_comm, N.Div0.mod_add. by apply N.mod_small.
  - apply Byte.of_N_None_iff in Hb. lia.
Qed.

(** A string that decodes without error is, in upper case, the encoding of
    the bytes it decodes to: two keys of a map that decode alike may differ
    in case only. *)
Lemma hex_DecodeString_canonical s bs :
  hex_DecodeString s = (bs, None) → hex_of_bytes bs = ToUpper s.
Proof.
  revert s bs. fix IH 1. intros [|a [|b s]] bs; simpl.
  - by intros [= <-].
  - destruct (fromHexChar a); naive_solver.
  - destruct (fromHexChar a) as [x|] eqn:Ha; [|done].
    destruct (fromHexChar b) as [y|] eqn:Hb; [|done].
    destruct (hex_DecodeString s) as [bs' err] eqn:Hs. intros [= <- ->].
    apply fromHexChar_digit in Ha as [Hx Ha], Hb as [Hy Hb].
    destruct (byte_of_nibbles x y Hx Hy) as [Hhi Hlo].
    change (hex_of_bytes (?b :: bs')) with (hex_of_byte b (hex_of_bytes bs')).
    unfold hex_of_byte. rewrite Hhi, Hlo, Ha, Hb. by rewrite (IH _ _ Hs).
Qed.

(** Encoding then decoding is the identity, without error. *)
Lemma hex_roundtrip bs : DecodeFromString (EncodeToString bs) = Ok (bs, None).
Proof.
  change (DecodeFromString (EncodeToString bs))
    with (Ok (E:=error) (hex_DecodeString (hex_of_bytes bs))).
  by rewrite hex_of_bytes_decode.
Qed.

#[export] Instance EncodeToString_inj : Inj (=) (=) EncodeToString.
Proof.
  intros bs bs' H. pose proof (hex_roundtrip bs) as H1. rewrite H, hex_roundtrip in H1.
  congruence.
Qed.

Lemma EncodeToString_upper bs : ToUpper (EncodeToString bs) = EncodeToString bs.
Proof.
  unfold EncodeToString.
  change (ToUpper ("0X" +:+ hex_of_bytes bs)) with ("0X" +:+ ToUpper (hex_of_bytes bs)).
  f_equal. induction bs as [|b bs IH]; [done|].
  change (hex_of_bytes (b :: bs)) with (hex_of_byte b (hex_of_bytes bs)).
  by rewrite hex_of_byte_upper, IH.
Qed.

(** ** Properties of the median *)
Lemma wrap64_id z : int64_ok z → wrap64 z = z.
Proof.
  unfold int64_ok, wrap64. intros H. rewrite Z.mod_small; lia.
Qed.

Lemma sorted_count_lt s i a :
  StronglySorted Z.le s → (i < length s)%nat → nth i s 0 < a →
  (S i ≤ length (filter (λ t, (t < a)%Z) s))%nat.
Proof.
  intros Hs. revert i. induction Hs as [|x s Hs IH Hx]; intros i Hi Ha; simpl in *.
  { lia. }
  assert (x < a) as Hxa.
  { destruct i as [|j]; [done|]. rewrite Forall_forall in Hx.
    assert (x ≤ nth j s 0); [|lia]. apply Hx, list_elem_of_In, nth_In. lia. }
  rewrite filter_cons_True by done. simpl. destruct i as [|j]; [lia|].
  assert (S j ≤ length (filter (λ t, (t < a)%Z) s))%nat; [|lia]. apply IH; [lia|done].
Qed.

Lemma sorted_count_gt s i b :
  StronglySorted Z.le s → (i < length s)%nat → b < nth i s 0 →
  (length s - i ≤ length (filter (λ t, (b < t)%Z) s))%nat.
Proof.
  intros Hs. revert i. induction Hs as [|x s Hs IH Hx]; intros i Hi Hb; simpl in *.
  { lia. }
  destruct i as [|j].
  - rewrite filter_cons_True by done. simpl.
    assert (∀ t, t ∈ s → b < t) as Hall.
    { rewrite Forall_forall in Hx. intros t Ht. specialize (Hx t Ht). lia. }
    enough (length (filter (λ t, (b < t)%Z) s) = length s) by lia.
    f_equal. clear -Hall. induction s as [|y s IH]; [done|].
    rewrite filter_cons_True by set_solver. f_equal. apply IH. set_solver.
  - destruct (decide (b < x)).
    + rewrite filter_cons_True by done. simpl.
      assert (length s - j ≤ length (filter (λ t, (b < t)%Z) s))%nat by (apply IH; [lia|done]).
      lia.
    + rewrite filter_cons_False by done. simpl. apply IH; [lia|done].
Qed.

Lemma length_filter_split (P : Z → Prop) `{!∀ x, Decision (P x)} l :
  (length (filter P l) + length (filter (λ x, ¬ P x) l) = length l)%nat.
Proof.
  induction l as [|x l IH]; [done|]. destruct (decide (P x)).
  - rewrite filter_cons_True, filter_cons_False by (auto; tauto). simpl. lia.
  - rewrite filter_cons_False, filter_cons_True by (auto; tauto). simpl. lia.
Qed.

Lemma length_filter_impl (P Q : Z → Prop) `{!∀ x, Decision (P x), !∀ x, Decision (Q x)} l :
  (∀ x, P x → Q x) → (length (filter P l) ≤ length (filter Q l))%nat.
Proof.
  intros HPQ. induction l as [|x l IH]; [done|]. rewrite !filter_cons.
  destruct (decide (P x)), (decide (Q x)); simpl; try lia. exfalso; eauto.
Qed.

(** The middle positions of a sorted list in which the values of [a, b] have
    the majority hold values of [a, b]. *)
Lemma sorted_middle_bounds s i a b :
  StronglySorted Z.le s → (i < length s)%nat →
  (length s ≤ 2 * S i)%nat → (2 * i ≤ length s)%nat →
  (length s < 2 * length (filter (λ t, (a ≤ t ≤ b)%Z) s))%nat →
  a ≤ nth i s 0 ≤ b.
Proof.
  intros Hs Hi Hlo Hhi Hmaj.
  pose proof (length_filter_split (λ t, a ≤ t ≤ b) s) as Hsplit.
  split.
  - destruct (Z_lt_le_dec (nth i s 0) a) as [Hlt|]; [|done]. exfalso.
    pose proof (sorted_count_lt s i a Hs Hi Hlt) as Hc.
    pose proof (length_filter_impl (λ t, t < a) (λ t, ¬ a ≤ t ≤ b) s) as Hbad.
    specialize (Hbad ltac:(simpl; intros; lia)). lia.
  - destruct (Z_lt_le_dec b (nth i s 0)) as [Hlt|]; [|done]. exfalso.
    pose proof (sorted_count_gt s i b Hs Hi Hlt) as Hc.
    pose proof (length_filter_impl (λ t, b < t) (λ t, ¬ a ≤ t ≤ b) s) as Hbad.
    specialize (Hbad ltac:(simpl; intros; lia)). lia.
Qed.

Lemma quot2_bounds x y a b : a ≤ x ≤ b → a ≤ y ≤ b → a ≤ Z.quot (x + y) 2 ≤ b.
Proof. intros. Z.to_euclidean_division_equations. lia. Qed.

Lemma Median_majority (input : list Z) (a b : Z) :
  - 2 ^ 62 ≤ a → b < 2 ^ 62 →
  (length input < 2 * length (filter (λ t, (a ≤ t ≤ b)%Z) input))%nat →
  a ≤ Median input ≤ b.
Proof.
  intros Ha Hb Hmaj. unfold Median.
  pose proof (StronglySorted_merge_sort Z.le input) as Hs.
  pose proof (merge_sort_Permutation Z.le input) as Hp.
  set (s := merge_sort Z.le input) in *.
  assert (length s < 2 * length (filter (λ t, (a ≤ t ≤ b)%Z) s))%nat as Hmaj'.
  { by rewrite Hp. }
  pose proof (λ i, sorted_middle_bounds s i a b Hs) as Hmid.
  destruct (Nat.eqb_spec (length s) 0) as [H0|H0].
  { destruct s; [simpl in Hmaj'; lia|done]. }
  pose proof (Nat.div_mod_eq (length s) 2) as Hdm.
  pose proof (Nat.mod_upper_bound (length s) 2 ltac:(lia)) as Hub.
  destruct (Nat.eqb_spec (length s mod 2) 0) as [Hev|Hodd].
  - assert (a ≤ nth (length s / 2 - 1) s 0 ≤ b) as H1 by (apply Hmid; lia).
    assert (a ≤ nth (length s / 2 - 1 + 1) s 0 ≤ b) as H2 by (apply Hmid; lia).
    rewrite wrap64_id by (unfold int64_ok; lia). by apply quot2_bounds.
  - apply Hmid; lia.
Qed.
