(* ===== verification/LRU.v ===== *)
(** * The LRU cache of src/src/common/lru.go

    [items] maps a key to its element of the doubly linked [evictList], so
    the two always hold the same entries; the model keeps the list only, the
    most recently used entry first, and [items[key]] is the search for the
    entry of [key]. [evictions] records the calls made to the [onEvict] callback when
    there is one.

    The theorems: the cache is a bounded map that may forget but never lies
    ([Add_view], [Get_view]), and what it forgets is always the least recently
    used entry ([run_recency]). *)
From S2P Require Export Common.

(** ** Association lists *)
Section assoc.
Context {K V : Type} `{Countable K}.
Implicit Types (l : list (K * V)).

Fixpoint assoc_get (k : K) (l : list (K * V)) : option V :=
  match l with
  | [] => None
  | (k', v) :: l' => if decide (k = k') then Some v else assoc_get k l'
  end.

Definition assoc_del (k : K) (l : list (K * V)) : list (K * V) :=
  filter (λ kv, kv.1 ≠ k) l.

Definition assoc_map (l : list (K * V)) : gmap K V := list_to_map l.

Lemma assoc_get_map k l : assoc_get k l = assoc_map l !! k.
Proof.
  unfold assoc_map. induction l as [|[k' v] l IH]; csimpl; [done|].
  case_decide; subst; by simplify_map_eq.
Qed.

Lemma assoc_del_map k l : assoc_map (assoc_del k l) = delete k (assoc_map l).
Proof.
  unfold assoc_map, assoc_del. induction l as [|[k' v] l IH]; csimpl.
  { by rewrite delete_empty. }
  rewrite filter_cons. csimpl. destruct (decide (k' = k)) as [->|Hk].
  - rewrite decide_False by tauto. by rewrite delete_insert_eq.
  - rewrite decide_True by done. csimpl. rewrite delete_insert_ne by congruence. by rewrite IH.
Qed.

Lemma assoc_del_keys k l : (assoc_del k l).*1 = filter (λ k', k' ≠ k) l.*1.
Proof.
  unfold assoc_del. induction l as [|[k' v] l IH]; csimpl; [done|].
  rewrite !filter_cons. csimpl. destruct (decide (k' = k)).
  - rewrite !decide_False by tauto. done.
  - rewrite !decide_True by done. csimpl. by rewrite IH.
Qed.

Lemma assoc_del_NoDup k l : NoDup l.*1 → NoDup (assoc_del k l).*1.
Proof. rewrite assoc_del_keys. apply NoDup_filter. Qed.

Lemma assoc_get_Some_elem k v l : assoc_get k l = Some v → k ∈ l.*1.
Proof.
  induction l as [|[k' v'] l IH]; csimpl; [done|]. case_decide; set_solver.
Qed.

Lemma assoc_get_None k l : assoc_get k l = None ↔ k ∉ l.*1.
Proof. rewrite assoc_get_map. unfold assoc_map. by rewrite <-not_elem_of_list_to_map. Qed.

Lemma assoc_del_notin k l : k ∉ l.*1 → assoc_del k l = l.
Proof.
  intros Hk. unfold assoc_del. induction l as [|[k' v] l IH]; [done|].
  rewrite filter_cons_True by (csimpl; set_solver). f_equal. apply IH. set_solver.
Qed.

Lemma assoc_del_length k l :
  NoDup l.*1 → k ∈ l.*1 → S (length (assoc_del k l)) = length l.
Proof.
  induction l as [|[k' v] l IH]; csimpl; [set_solver|]. intros Hnd Hk.
  apply NoDup_cons in Hnd as [Hnotin Hnd]. unfold assoc_del. rewrite filter_cons. csimpl.
  destruct (decide (k' ≠ k)) as [Hne|Hne]; csimpl in *.
  - f_equal. apply IH; set_solver.
  - assert (k' = k) as -> by (by apply dec_stable).
    fold (assoc_del k l). by rewrite assoc_del_notin.
Qed.

Lemma assoc_get_in k v l : NoDup l.*1 → assoc_get k l = Some v ↔ (k, v) ∈ l.
Proof.
  intros Hnd. rewrite assoc_get_map. unfold assoc_map. by rewrite elem_of_list_to_map.
Qed.

Lemma assoc_map_size l : NoDup l.*1 → size (assoc_map l) = length l.
Proof.
  unfold assoc_map. induction l as [|[k v] l IH]; csimpl; [done|]. intros Hnd.
  apply NoDup_cons in Hnd as [Hk Hnd].
  rewrite map_size_insert_None; [by rewrite IH|]. by apply not_elem_of_list_to_map_1.
Qed.
End assoc.

Record LRU (K V : Type) := mkLRU {
  lru_size : Z;
  evictList : list (K * V);
  onEvict : bool;
  evictions : list (K * V);
}.
Arguments mkLRU {K V}.
Arguments lru_size {K V}.
Arguments evictList {K V}.
Arguments onEvict {K V}.
Arguments evictions {K V}.

Section lru.
Context {K V : Type} `{Countable K} {RO : RangeOrder}.
Implicit Types (c : LRU K V) (k key : K) (v value : V).

Definition NewLRU (size : Z) (cb : bool) : LRU K V := mkLRU size [] cb [].

Definition set_list c (l : list (K * V)) : LRU K V :=
  mkLRU (lru_size c) l (onEvict c) (evictions c).

Definition Purge c : LRU K V :=
  mkLRU (lru_size c) [] (onEvict c)
    (evictions c ++ if onEvict c then range (assoc_map (evictList c)) else []).

Definition removeElement (kv : K * V) c : LRU K V :=
  mkLRU (lru_size c) (assoc_del kv.1 (evictList c)) (onEvict c)
    (evictions c ++ if onEvict c then [kv] else []).

Definition removeOldest c : LRU K V :=
  match last (evictList c) with
  | Some kv => removeElement kv c
  | None => c
  end.

Definition Add key value c : bool * LRU K V :=
  match assoc_get key (evictList c) with
  | Some _ => (false, set_list c ((key, value) :: assoc_del key (evictList c)))
  | None =>
      let c1 := set_list c ((key, value) :: evictList c) in
      if lru_size c <? zlen (evictList c1) then (true, removeOldest c1) else (false, c1)
  end.

Definition Get key c : option V * LRU K V :=
  match assoc_get key (evictList c) with
  | Some v => (Some v, set_list c ((key, v) :: assoc_del key (evictList c)))
  | None => (None, c)
  end.

Definition Contains key c : bool :=
  match assoc_get key (evictList c) with Some _ => true | None => false end.

Definition Peek key c : option V := assoc_get key (evictList c).

Definition Remove key c : bool * LRU K V :=
  match assoc_get key (evictList c) with
  | Some v => (true, removeElement (key, v) c)
  | None => (false, c)
  end.

Definition RemoveOldest c : option (K * V) * LRU K V :=
  match last (evictList c) with
  | Some kv => (Some kv, removeElement kv c)
  | None => (None, c)
  end.

Definition GetOldest c : option (K * V) := last (evictList c).

Definition LRU_Keys c : list K := reverse (evictList c).*1.

Definition Len c : Z := zlen (evictList c).

(** The object an entry points to, changed through another pointer to it:
    the entry keeps its place. *)
Definition poke key (f : V → V) c : LRU K V :=
  set_list c ((λ kv, if decide (kv.1 = key) then (kv.1, f kv.2) else kv) <$> evictList c).

(** ** The cache as a map *)
Definition view c : gmap K V := assoc_map (evictList c).

(** Well-formed: no key twice, never over its size. *)
Definition lru_wf c : Prop :=
  NoDup (evictList c).*1 ∧ Len c ≤ lru_size c ∧ 1 ≤ lru_size c.

Lemma NewLRU_wf n cb : 1 ≤ n → lru_wf (NewLRU n cb).
Proof. intros Hn. split; [constructor|]. unfold Len, zlen. csimpl. lia. Qed.

Lemma NewLRU_view n cb : view (NewLRU n cb) = ∅.
Proof. done. Qed.

Lemma Get_view key c :
  (Get key c).1 = view c !! key ∧ view (Get key c).2 = view c.
Proof.
  unfold Get, view. rewrite <-assoc_get_map.
  destruct (assoc_get key (evictList c)) as [v|] eqn:Hg; csimpl; [|done].
  split; [done|]. change (assoc_map ((key, v) :: ?l)) with (<[key:=v]> (assoc_map l)).
  rewrite assoc_del_map, insert_delete_eq.
  rewrite assoc_get_map in Hg. by apply insert_id.
Qed.

Lemma Get_wf key c : lru_wf c → lru_wf (Get key c).2.
Proof.
  intros (Hnd & Hlen & Hsz). unfold Get.
  destruct (assoc_get key (evictList c)) as [v|] eqn:Hg; csimpl; [|done].
  apply assoc_get_Some_elem in Hg as Hin. split; [|split; [|done]]; csimpl.
  - apply NoDup_cons. split; [|by apply assoc_del_NoDup].
    rewrite assoc_del_keys, list_elem_of_filter. tauto.
  - unfold Len, zlen in *. csimpl. rewrite (assoc_del_length key) by done. done.
Qed.

Lemma poke_view key f c : view (poke key f c) = alter f key (view c).
Proof.
  unfold view, poke, assoc_map. csimpl. induction (evictList c) as [|[k v] l IH]; csimpl.
  { by rewrite alter_empty. }
  case_decide as Hk; csimpl; rewrite IH; apply map_eq; intros i.
  - subst. rewrite alter_insert_eq, !lookup_insert. case_decide; [done|].
    by rewrite lookup_alter_ne.
  - by rewrite alter_insert_ne.
Qed.

Lemma poke_keys key f c : (evictList (poke key f c)).*1 = (evictList c).*1.
Proof.
  unfold poke. csimpl. rewrite <-list_fmap_compose. apply list_fmap_ext.
  intros i [k v] _. csimpl. by case_decide.
Qed.

Lemma poke_wf key f c : lru_wf c → lru_wf (poke key f c).
Proof.
  intros (Hnd & Hlen & Hsz). split; [by rewrite poke_keys|].
  unfold Len, zlen in *. csimpl. by rewrite length_fmap.
Qed.

(** *** Adding *)
Lemma removeOldest_snoc c l kv :
  evictList c = l ++ [kv] → NoDup (evictList c).*1 →
  evictList (removeOldest c) = l.
Proof.
  intros Hl Hnd. unfold removeOldest. rewrite Hl, last_snoc. unfold removeElement. csimpl.
  rewrite Hl in Hnd |- *. rewrite fmap_app in Hnd. apply NoDup_app in Hnd as (Hnd & Hdis & _).
  unfold assoc_del. rewrite filter_app, filter_cons_False by (csimpl; tauto). csimpl.
  rewrite filter_nil, app_nil_r. apply (assoc_del_notin kv.1 l).
  intros Hin. apply (Hdis _ Hin). csimpl. set_solver.
Qed.

Lemma Add_wf key value c : lru_wf c → lru_wf (Add key value c).2.
Proof.
  intros (Hnd & Hlen & Hsz). unfold Add.
  destruct (assoc_get key (evictList c)) as [v|] eqn:Hg; csimpl.
  - apply assoc_get_Some_elem in Hg. split; [|split; [|done]]; csimpl.
    + apply NoDup_cons. split; [|by apply assoc_del_NoDup].
      rewrite assoc_del_keys, list_elem_of_filter. tauto.
    + unfold Len, zlen in *. csimpl. by rewrite (assoc_del_length key).
  - apply assoc_get_None in Hg.
    assert (NoDup ((key, value) :: evictList c).*1) as Hnd' by (by apply NoDup_cons).
    case_match eqn:Hsize; csimpl.
    + destruct (exists_last (l := (key, value) :: evictList c)) as (l & kv & Hl); [done|].
      assert (evictList (removeOldest (set_list c ((key, value) :: evictList c))) = l) as Hr.
      { eapply removeOldest_snoc; [|done]. csimpl. rewrite Hl. done. }
      split; [|split]; csimpl.
      * rewrite Hr. rewrite Hl, fmap_app in Hnd'. by apply NoDup_app in Hnd' as (? & _).
      * unfold Len, zlen in *. rewrite Hr.
        apply (f_equal length) in Hl. rewrite length_app in Hl. csimpl in Hl.
        unfold removeOldest. csimpl. case_match; csimpl; lia.
      * unfold removeOldest. csimpl. case_match; csimpl; lia.
    + split; [done|]. split; [|done]. unfold Len, zlen in *. csimpl in *. lia.
Qed.

(** Adding to a full cache evicts one entry, never the new one. *)
Lemma Add_lookup key value c :
  lru_wf c → view (Add key value c).2 !! key = Some value.
Proof.
  intros (Hnd & Hlen & Hsz). unfold Add, view. rewrite <-assoc_get_map.
  destruct (assoc_get key (evictList c)) as [v|] eqn:Hg; csimpl; [by case_decide|].
  apply assoc_get_None in Hg.
  assert (NoDup ((key, value) :: evictList c).*1) as Hnd' by (by apply NoDup_cons).
  case_match eqn:Hsize; csimpl; [|by case_decide].
  destruct (exists_last (l := (key, value) :: evictList c)) as (l & kv & Hl); [done|].
  rewrite (removeOldest_snoc _ l kv) by done.
  destruct l as [|kv' l].
  { injection Hl as _ Hl. unfold zlen in Hsize. csimpl in Hsize. rewrite Hl in Hsize.
    csimpl in Hsize. lia. }
  simplify_eq/=. by case_decide.
Qed.

Lemma Add_ne key value c k v :
  lru_wf c → k ≠ key → view (Add key value c).2 !! k = Some v → view c !! k = Some v.
Proof.
  intros (Hnd & Hlen & Hsz) Hne. unfold Add, view. rewrite <-!assoc_get_map.
  destruct (assoc_get key (evictList c)) as [v0|] eqn:Hg; csimpl.
  - rewrite decide_False by done. rewrite !assoc_get_map, assoc_del_map.
    by rewrite lookup_delete_ne.
  - apply assoc_get_None in Hg.
    assert (NoDup ((key, value) :: evictList c).*1) as Hnd' by (by apply NoDup_cons).
    case_match eqn:Hsize; csimpl; [|by rewrite decide_False].
    destruct (exists_last (l := (key, value) :: evictList c)) as (l & kv & Hl); [done|].
    rewrite (removeOldest_snoc _ l kv) by done.
    destruct l as [|kv' l]; [done|]. simplify_eq/=. rewrite decide_False by done.
    intros Hin. match goal with H : evictList c = _ |- _ => rewrite H in Hnd |- * end.
    rewrite fmap_app in Hnd. apply NoDup_app in Hnd as (Hndl & Hdis & _).
    rewrite !assoc_get_map in *. unfold assoc_map in *. rewrite list_to_map_app.
    by apply lookup_union_Some_l.
Qed.

(** While there is room, adding is exactly the update of the map. *)
Lemma Add_view key value c :
  is_Some (view c !! key) ∨ Len c < lru_size c →
  view (Add key value c).2 = <[key := value]> (view c) ∧ (Add key value c).1 = false.
Proof.
  unfold Add, view, Len. rewrite <-assoc_get_map.
  destruct (assoc_get key (evictList c)) as [v|] eqn:Hg; csimpl.
  - intros _. split; [|done].
    change (assoc_map ((key, value) :: ?l)) with (<[key:=value]> (assoc_map l)).
    by rewrite assoc_del_map, insert_delete_eq.
  - intros [[? ?]|Hroom]; [done|]. unfold zlen in *.
    case_match eqn:Hsize; csimpl in *; [lia|done].
Qed.

(** Adding a new key to a full cache leaves it full. *)
Lemma Add_full key value c :
  lru_wf c → view c !! key = None → lru_size c ≤ Len c →
  zlen (evictList (Add key value c).2) = lru_size c.
Proof.
  intros (Hnd & Hlen & Hsz) Hk Hfull. unfold Add, view, Len, zlen in *.
  rewrite <-assoc_get_map in Hk. rewrite Hk. csimpl.
  rewrite (proj2 (Z.ltb_lt _ _)) by lia. cbn [snd].
  assert (NoDup ((key, value) :: evictList c).*1) as Hnd'.
  { apply NoDup_cons. split; [by apply assoc_get_None in Hk|done]. }
  destruct (exists_last (l:=(key, value) :: evictList c)) as (l & kv & Hl); [done|].
  rewrite (removeOldest_snoc _ l kv); [|done|done].
  apply (f_equal length) in Hl. rewrite length_app in Hl. simpl in Hl. lia.
Qed.
End lru.

(** ** Recency

    The specification of the eviction policy: after any sequence of calls the
    cache holds the [size] most recently used keys, in that order. *)
Inductive lru_op (K V : Type) :=
| OpAdd (k : K) (v : V)
| OpGet (k : K).
Arguments OpAdd {K V}.
Arguments OpGet {K V}.

Section recency.
Context {K V : Type} `{Countable K} {RO : RangeOrder}.
Implicit Types (c : LRU K V) (k : K) (h l : list K).

(** The cache and the keys used so far, the latest first: a key is used
    when it is added and when it is found. *)
Definition lru_step (st : LRU K V * list K) (op : lru_op K V) : LRU K V * list K :=
  let '(c, h) := st in
  match op with
  | OpAdd k v => ((Add k v c).2, k :: h)
  | OpGet k => match Get k c with
               | (Some _, c') => (c', k :: h)
               | (None, c') => (c', h)
               end
  end.
Definition lru_run (ops : list (lru_op K V)) (st : LRU K V * list K) :=
  foldl lru_step st ops.

Fixpoint latest (h : list K) : list K :=
  match h with
  | [] => []
  | k :: h' => k :: filter (λ k', k' ≠ k) (latest h')
  end.

Lemma latest_NoDup h : NoDup (latest h).
Proof.
  induction h as [|k h IH]; csimpl; [constructor|].
  apply NoDup_cons. split; [rewrite list_elem_of_filter; tauto|]. by apply NoDup_filter.
Qed.

Lemma filter_ne_notin k l : k ∉ l → filter (λ k', k' ≠ k) l = l.
Proof.
  induction l as [|x l IH]; [done|]. intros Hk. rewrite filter_cons_True by set_solver.
  f_equal. apply IH. set_solver.
Qed.

Lemma take_filter_in k l n :
  NoDup l → k ∈ take n l →
  filter (λ k', k' ≠ k) (take n l) = take (pred n) (filter (λ k', k' ≠ k) l).
Proof.
  revert n. induction l as [|x l IH]; intros [|n] Hnd Hk; csimpl in *; try set_solver.
  apply NoDup_cons in Hnd as [Hx Hnd]. destruct (decide (x = k)) as [->|Hne].
  - rewrite !filter_cons_False by tauto. rewrite !filter_ne_notin; [done|done|].
    intros Hin. apply Hx. apply elem_of_take in Hin as (? & ? & _).
    by eapply list_elem_of_lookup_2.
  - rewrite !filter_cons_True by done. rewrite IH by set_solver.
    destruct n as [|n]; [|done]. set_solver.
Qed.

Lemma take_filter_notin k l n :
  k ∉ take n l → take n (filter (λ k', k' ≠ k) l) = take n l.
Proof.
  revert n. induction l as [|x l IH]; intros [|n] Hk; csimpl in *; try done.
  rewrite filter_cons_True by set_solver. csimpl. f_equal. apply IH. set_solver.
Qed.

Definition recent (n : nat) (st : LRU K V * list K) : Prop :=
  lru_wf st.1 ∧ lru_size st.1 = Z.of_nat n ∧
  (evictList st.1).*1 = take n (latest st.2).

(** Moving a cached key to the front, as [Get] and [Add] do. *)
Lemma recent_hit n c h k v :
  recent n (c, h) → k ∈ (evictList c).*1 →
  ((k, v) :: assoc_del k (evictList c)).*1 = take n (latest (k :: h)).
Proof.
  intros ((_ & Hlen & Hsz) & Hn & Hkeys) Hk. csimpl in *.
  rewrite assoc_del_keys, Hkeys in *.
  rewrite (take_filter_in k) by (done || apply latest_NoDup).
  by destruct n as [|n]; [lia|].
Qed.

Lemma recent_step n st op : recent n st → recent n (lru_step st op).
Proof.
  destruct st as [c h]. intros Hr. pose proof Hr as (Hwf & Hn & Hkeys).
  pose proof Hwf as (Hnd & Hlen & Hsz). csimpl in *. destruct op as [k v|k]; csimpl.
  - split; [by apply Add_wf|]. unfold Add. csimpl.
    destruct (assoc_get k (evictList c)) as [v0|] eqn:Hg; csimpl.
    { apply assoc_get_Some_elem in Hg. split; [done|]. by eapply (recent_hit n c h k v). }
    apply assoc_get_None in Hg. case_match eqn:Hsize; csimpl.
    + assert (NoDup ((k, v) :: evictList c).*1) as Hnd' by (by apply NoDup_cons).
      destruct (exists_last (l := (k, v) :: evictList c)) as (l & kv & Hl); [done|].
      rewrite (removeOldest_snoc _ l kv) by done. split.
      { unfold removeOldest. csimpl. by case_match. }
      assert (length (evictList c) = n) as Hfull.
      { unfold Len, zlen in *. csimpl in *. lia. }
      assert (length l = n) as Hll.
      { apply (f_equal length) in Hl. rewrite length_app in Hl. csimpl in Hl. lia. }
      apply (f_equal (λ x, take n (fmap fst x))) in Hl. rewrite fmap_app in Hl. csimpl in Hl.
      rewrite take_app_length' in Hl by (by rewrite length_fmap).
      rewrite <-Hl. destruct n as [|n]; [lia|]. csimpl. f_equal.
      rewrite Hkeys in Hg |- *. rewrite take_take, Nat.min_l by lia.
      symmetry. apply take_filter_notin. contradict Hg.
      rewrite elem_of_take in *. naive_solver lia.
    + split; [done|]. unfold Len, zlen in *. csimpl in *.
      destruct n as [|n]; [lia|]. csimpl. f_equal.
      rewrite <-(length_fmap fst), Hkeys in Hsize. rewrite length_take in Hsize.
      rewrite Hkeys in Hg |- *. rewrite take_ge in Hg |- * by lia.
      rewrite filter_ne_notin by done. by rewrite take_ge by lia.
  - pose proof (Get_wf k c Hwf) as Hwf'. unfold Get in *.
    destruct (assoc_get k (evictList c)) as [v|] eqn:Hg; [|done].
    apply assoc_get_Some_elem in Hg. split; [done|]. split; [done|].
    by eapply (recent_hit n c h k v).
Qed.

Lemma run_recency n cb ops :
  1 ≤ Z.of_nat n →
  let st := lru_run ops (NewLRU (Z.of_nat n) cb, []) in
  (evictList st.1).*1 = take n (latest st.2).
Proof.
  intros Hn. cbv zeta.
  assert (recent n (NewLRU (K:=K) (V:=V) (Z.of_nat n) cb, [])) as H0.
  { split; [by apply NewLRU_wf|]. split; [done|]. csimpl. by rewrite take_nil. }
  assert (∀ st, recent n st → recent n (lru_run ops st)) as Hrun.
  { induction ops as [|op ops IH]; intros st Hst; csimpl; [done|].
    apply IH, recent_step, Hst. }
  by apply Hrun.
Qed.
End recency.
