(* ===== verification/RollingIndex.v ===== *)
(** * RollingIndex and RollingIndexMap

    Models src/src/common/rolling_index.go and rolling_index_map.go: a FIFO
    window of consecutively indexed items that drops its older half when it
    is full, and a collection of such windows by participant id.

    The abstraction is the partial map [ri_at] from indexes to items. The
    theorems give every operation on every branch in terms of it, show the
    window to be the end of the log of appended items ([append_window]), and
    show what the size one does ([RollingIndex_size1_items]). *)
From S2P Require Export Common.

Record RollingIndex (A : Type) := mkRI {
  ri_name : string;
  ri_size : Z;
  lastIndex : Z;
  ri_items : list A;
}.
Arguments mkRI {A}.
Arguments ri_name {A}.
Arguments ri_size {A}.
Arguments lastIndex {A}.
Arguments ri_items {A}.

Section rolling_index.
Context {A : Type}.
Implicit Types (r : RollingIndex A) (item : A) (index skipIndex : Z).

Definition NewRollingIndex (name : string) (size : Z) : RollingIndex A :=
  mkRI name size (-1) [].

Definition GetLastWindow r : list A * Z := (ri_items r, lastIndex r).

(** [Get]: the items with index greater than [skipIndex]. *)
Definition RI_Get r skipIndex : res (list A) :=
  if lastIndex r <? skipIndex then Ok []
  else
    let cachedItems := zlen (ri_items r) in
    let oldestCachedIndex := lastIndex r - cachedItems + 1 in
    if skipIndex + 1 <? oldestCachedIndex then
      Err (NewStoreErr (ri_name r) TooLate (pretty skipIndex))
    else
      let start := skipIndex - oldestCachedIndex + 1 in
      go_from (ri_items r) start.

Definition RI_GetItem r index : res A :=
  let items := zlen (ri_items r) in
  let oldestCached := lastIndex r - items + 1 in
  if index <? oldestCached then
    Err (NewStoreErr (ri_name r) TooLate (pretty index))
  else
    let findex := index - oldestCached in
    if items <=? findex then
      Err (NewStoreErr (ri_name r) KeyNotFound (pretty index))
    else go_index (ri_items r) findex.

(** [roll]: the earlier half goes. *)
Definition roll r : res (RollingIndex A) :=
  rest <-- go_from (ri_items r) (Z.quot (ri_size r) 2) ;;
  Ok (mkRI (ri_name r) (ri_size r) (lastIndex r) rest).

Definition RI_Set item index : M (RollingIndex A) unit := λ r,
  if (0 <=? lastIndex r) && (lastIndex r + 1 <? index) then
    (Err (NewStoreErr (ri_name r) SkippedIndex (pretty index)), r)
  else if (lastIndex r <? 0) || (index =? lastIndex r + 1) then
    match (if ri_size r <=? zlen (ri_items r) then roll r else Ok r) with
    | Ok r1 =>
        (Ok tt, mkRI (ri_name r1) (ri_size r1) index (ri_items r1 ++ [item]))
    | Err e => (Err e, r)
    | Panic => (Panic, r)
    | OutOfFuel => (OutOfFuel, r)
    end
  else
    let cachedItems := zlen (ri_items r) in
    let oldestCachedIndex := lastIndex r - cachedItems + 1 in
    if index <? oldestCachedIndex then
      (Err (NewStoreErr (ri_name r) TooLate (pretty index)), r)
    else
      let position := index - oldestCachedIndex in
      if zlen (ri_items r) <=? position then (Panic, r)
      else (Ok tt, mkRI (ri_name r) (ri_size r) (lastIndex r)
                     (<[Z.to_nat position := item]> (ri_items r))).

(** ** The window as a map from indexes *)
Definition oldest r : Z := lastIndex r - zlen (ri_items r) + 1.

Definition ri_at r index : option A :=
  if (oldest r <=? index) && (index <=? lastIndex r)
  then ri_items r !! Z.to_nat (index - oldest r) else None.

(** Either nothing was inserted, or the items have the consecutive
    non-negative indexes that end at [lastIndex]. *)
Definition ri_wf r : Prop :=
  2 ≤ ri_size r ∧ zlen (ri_items r) ≤ ri_size r ∧ 0 ≤ oldest r ∧
  (lastIndex r = -1 ∨ ri_items r ≠ []).

Lemma NewRollingIndex_wf name size : 2 ≤ size → ri_wf (NewRollingIndex name size).
Proof. unfold ri_wf, oldest, zlen. simpl. lia. Qed.

Lemma ri_wf_last r : ri_wf r → -1 ≤ lastIndex r.
Proof. unfold ri_wf, oldest, zlen. lia. Qed.

Lemma ri_at_Some r index :
  is_Some (ri_at r index) ↔ oldest r ≤ index ≤ lastIndex r.
Proof.
  unfold ri_at. destruct ((oldest r <=? index) && (index <=? lastIndex r)) eqn:Hin.
  - rewrite lookup_lt_is_Some. unfold oldest, zlen in *. lia.
  - rewrite is_Some_alt. lia.
Qed.

(** Every answer of [GetItem]. *)
Lemma GetItem_spec r index :
  RI_GetItem r index =
  if index <? oldest r then Err (NewStoreErr (ri_name r) TooLate (pretty index))
  else match ri_at r index with
       | Some a => Ok a
       | None => Err (NewStoreErr (ri_name r) KeyNotFound (pretty index))
       end.
Proof.
  unfold RI_GetItem. fold (oldest r). destruct (index <? oldest r) eqn:Hlo; [done|].
  pose proof (ri_at_Some r index) as Hsome. unfold ri_at in *.
  destruct (zlen (ri_items r) <=? index - oldest r) eqn:Hhi.
  - replace ((oldest r <=? index) && (index <=? lastIndex r)) with false; [done|].
    unfold oldest in *. lia.
  - replace ((oldest r <=? index) && (index <=? lastIndex r)) with true in *
      by (unfold oldest in *; lia).
    unfold go_index. replace (index - oldest r <? 0) with false by lia.
    destruct (ri_items r !! Z.to_nat (index - oldest r)) eqn:Hl; [done|].
    exfalso. apply (is_Some_None (A:=A)). apply Hsome. unfold oldest in *. lia.
Qed.

(** Every answer of [Get]: the items above [skipIndex], in order, unless
    some of them are gone. *)
Lemma Get_spec r skipIndex :
  RI_Get r skipIndex =
  if lastIndex r <? skipIndex then Ok []
  else if skipIndex + 1 <? oldest r then
    Err (NewStoreErr (ri_name r) TooLate (pretty skipIndex))
  else Ok (drop (Z.to_nat (skipIndex + 1 - oldest r)) (ri_items r)).
Proof.
  unfold RI_Get. fold (oldest r). destruct (lastIndex r <? skipIndex) eqn:H1; [done|].
  destruct (skipIndex + 1 <? oldest r) eqn:H2; [done|]. unfold go_from.
  replace ((skipIndex - oldest r + 1 <? 0)
           || (Z.of_nat (length (ri_items r)) <? skipIndex - oldest r + 1)) with false
    by (unfold oldest, zlen in *; lia).
  do 2 f_equal. lia.
Qed.

Lemma Get_items r skipIndex l (i : nat) :
  RI_Get r skipIndex = Ok l → skipIndex ≤ lastIndex r →
  l !! i = ri_at r (skipIndex + 1 + Z.of_nat i).
Proof.
  rewrite Get_spec. intros H Hle.
  replace (lastIndex r <? skipIndex) with false in H by lia.
  destruct (skipIndex + 1 <? oldest r) eqn:Hlo; simplify_eq/=.
  rewrite lookup_drop. unfold ri_at.
  destruct ((oldest r <=? skipIndex + 1 + Z.of_nat i)
            && (skipIndex + 1 + Z.of_nat i <=? lastIndex r)) eqn:Hin.
  - f_equal. lia.
  - apply lookup_ge_None. unfold oldest, zlen in *. lia.
Qed.

Lemma roll_Ok r :
  ri_wf r → ri_size r ≤ zlen (ri_items r) →
  roll r = Ok (mkRI (ri_name r) (ri_size r) (lastIndex r)
                    (drop (Z.to_nat (Z.quot (ri_size r) 2)) (ri_items r))).
Proof.
  intros (Hsz & Hlen & _ & _) Hfull. unfold roll, go_from, zlen in *.
  replace ((Z.quot (ri_size r) 2 <? 0)
           || (Z.of_nat (length (ri_items r)) <? Z.quot (ri_size r) 2)) with false; [done|].
  Z.to_euclidean_division_equations. lia.
Qed.

Lemma lookup_drop_snoc (l : list A) k x i :
  (k ≤ length l)%nat →
  (drop k l ++ [x]) !! i =
  if decide (i = length l - k)%nat then Some x else l !! (k + i)%nat.
Proof.
  intros Hk. case_decide as Hi.
  - subst. rewrite lookup_app_r by (rewrite length_drop; lia).
    rewrite length_drop. replace (length l - k - (length l - k))%nat with 0%nat by lia. done.
  - destruct (decide (i < length l - k)%nat).
    + rewrite lookup_app_l by (rewrite length_drop; lia). by rewrite lookup_drop.
    + rewrite lookup_ge_None_2 by (rewrite length_app, length_drop; simpl; lia).
      symmetry. apply lookup_ge_None. lia.
Qed.

Lemma quot2_spec n : 2 ≤ n → 1 ≤ Z.quot n 2 ∧ 2 * Z.quot n 2 ≤ n ≤ 2 * Z.quot n 2 + 1.
Proof. intros. Z.to_euclidean_division_equations. lia. Qed.

(** How many items an append drops. *)
Definition rolled r : nat :=
  if ri_size r <=? zlen (ri_items r) then Z.to_nat (Z.quot (ri_size r) 2) else 0%nat.

Lemma rolled_le r : ri_wf r → (rolled r ≤ length (ri_items r))%nat.
Proof.
  intros (Hsz & Hlen & _). unfold rolled, zlen in *. case_match; [|lia].
  Z.to_euclidean_division_equations. lia.
Qed.

Lemma Set_append r item index :
  ri_wf r → lastIndex r = -1 ∨ index = lastIndex r + 1 →
  RI_Set item index r =
  (Ok tt, mkRI (ri_name r) (ri_size r) index (drop (rolled r) (ri_items r) ++ [item])).
Proof.
  intros Hwf Hidx. pose proof (ri_wf_last r Hwf). unfold RI_Set, rolled.
  replace ((0 <=? lastIndex r) && (lastIndex r + 1 <? index)) with false by lia.
  replace ((lastIndex r <? 0) || (index =? lastIndex r + 1)) with true by lia.
  destruct (ri_size r <=? zlen (ri_items r)) eqn:Hfull; [|by rewrite drop_0].
  rewrite roll_Ok by (done || lia). done.
Qed.

Lemma Set_append_wf r item index r' :
  ri_wf r → 0 ≤ index → lastIndex r = -1 ∨ index = lastIndex r + 1 →
  RI_Set item index r = (Ok tt, r') → ri_wf r'.
Proof.
  intros Hwf Hi Hidx. rewrite (Set_append r item index Hwf Hidx). intros [= <-].
  pose proof (rolled_le r Hwf). destruct Hwf as (Hsz & Hlen & Hold & _).
  split; [done|]. unfold rolled, oldest, zlen in *. simpl in *.
  rewrite length_app, length_drop. simpl. pose proof (quot2_spec _ Hsz).
  split; [|split; [|right; by destruct (drop _ _)]];
    destruct (ri_size r <=? Z.of_nat (length (ri_items r))) eqn:Hfull; lia.
Qed.

(** Appending: the item is there, every other index holds what it held or
    fell out of the window, and at most half of the window falls out. *)
Lemma Set_append_at r item index r' j :
  ri_wf r → 0 ≤ index → lastIndex r = -1 ∨ index = lastIndex r + 1 →
  RI_Set item index r = (Ok tt, r') →
  lastIndex r' = index ∧
  ri_at r' j = if decide (j = index) then Some item
               else if oldest r' <=? j then ri_at r j else None.
Proof.
  intros Hwf Hi Hidx. rewrite (Set_append r item index Hwf Hidx). intros [= <-].
  split; [done|]. pose proof (rolled_le r Hwf) as Hk.
  pose proof (ri_wf_last r Hwf) as Hlast. destruct Hwf as (Hsz & Hlen & Hold & Hne).
  unfold ri_at, oldest, zlen in *. simpl. rewrite length_app, length_drop. simpl.
  set (k := rolled r) in *. set (n := length (ri_items r)) in *.
  set (old := index - Z.of_nat (n - k + 1) + 1).
  destruct ((old <=? j) && (j <=? index)) eqn:Hin.
  - rewrite lookup_drop_snoc by done. fold n. case_decide as Hpos; case_decide as Hj;
      subst old; [done|exfalso; lia|exfalso; lia|].
    replace (index - Z.of_nat (n - k + 1) + 1 <=? j) with true by lia.
    assert (lastIndex r = -1 ∨ lastIndex r ≠ -1) as [Hf|Hf] by lia.
    + assert (n = 0%nat) by lia. lia.
    + replace ((lastIndex r - Z.of_nat n + 1 <=? j) && (j <=? lastIndex r)) with true by lia.
      f_equal. lia.
  - rewrite decide_False by (subst old; lia). subst old.
    destruct (index - Z.of_nat (n - k + 1) + 1 <=? j) eqn:Hlo; [|done].
    replace ((lastIndex r - Z.of_nat n + 1 <=? j) && (j <=? lastIndex r)) with false; [done|].
    destruct Hidx; lia.
Qed.

(** Replacing an item of the window changes that item only. *)
Lemma Set_replace r item index :
  ri_wf r → oldest r ≤ index ≤ lastIndex r →
  ∃ r', RI_Set item index r = (Ok tt, r') ∧ ri_wf r' ∧ lastIndex r' = lastIndex r ∧
    ∀ j, ri_at r' j = if decide (j = index) then Some item else ri_at r j.
Proof.
  intros Hwf Hin. unfold RI_Set. fold (oldest r).
  destruct Hwf as (Hsz & Hlen & Hold & Hne).
  replace ((0 <=? lastIndex r) && (lastIndex r + 1 <? index)) with false by lia.
  replace ((lastIndex r <? 0) || (index =? lastIndex r + 1)) with false by lia.
  replace (index <? oldest r) with false by lia.
  replace (zlen (ri_items r) <=? index - oldest r) with false
    by (unfold oldest in *; lia).
  eexists. split; [done|].
  assert (∀ l, oldest (mkRI (ri_name r) (ri_size r) (lastIndex r) (<[l:=item]> (ri_items r)))
               = oldest r) as Hsame.
  { intros l. unfold oldest, zlen. simpl. by rewrite length_insert. }
  split; [|split; [done|]].
  - unfold ri_wf. rewrite Hsame. simpl. unfold zlen in *. rewrite length_insert.
    split_and!; try done. right. destruct (ri_items r) eqn:Hi.
    + unfold oldest, zlen in *. rewrite Hi in *. simpl in *. lia.
    + by destruct (Z.to_nat _).
  - intros j. unfold ri_at. rewrite Hsame. simpl.
    destruct ((oldest r <=? j) && (j <=? lastIndex r)) eqn:Hj.
    + destruct (decide (j = index)) as [->|Hji].
      * apply list_lookup_insert_eq. unfold oldest, zlen in *. lia.
      * apply list_lookup_insert_ne. lia.
    + by rewrite decide_False by lia.
Qed.

(** The two refusals leave the window as it was. *)
Lemma Set_errors r item index :
  ri_wf r → lastIndex r ≠ -1 →
  (lastIndex r + 1 < index →
   RI_Set item index r = (Err (NewStoreErr (ri_name r) SkippedIndex (pretty index)), r)) ∧
  (index < oldest r →
   RI_Set item index r = (Err (NewStoreErr (ri_name r) TooLate (pretty index)), r)).
Proof.
  intros Hwf Hlast. pose proof (ri_wf_last r Hwf). destruct Hwf as (Hsz & Hlen & Hold & Hne).
  unfold RI_Set. fold (oldest r). split; intros Hi.
  - by replace ((0 <=? lastIndex r) && (lastIndex r + 1 <? index)) with true by lia.
  - assert (0 ≤ zlen (ri_items r)) by (unfold zlen; lia).
    replace ((0 <=? lastIndex r) && (lastIndex r + 1 <? index)) with false
      by (unfold oldest in *; lia).
    replace ((lastIndex r <? 0) || (index =? lastIndex r + 1)) with false
      by (unfold oldest in *; lia).
    by replace (index <? oldest r) with true by lia.
Qed.

(** ** The window is the end of the log *)
Fixpoint append_all (l : list A) (i : Z) (r : RollingIndex A) : RollingIndex A :=
  match l with
  | [] => r
  | x :: l' => append_all l' (i + 1) (RI_Set x i r).2
  end.

Lemma append_all_snoc l x i r :
  append_all (l ++ [x]) i r = (RI_Set x (i + zlen l) (append_all l i r)).2.
Proof.
  revert i r. induction l as [|y l IH]; intros i r; simpl.
  - f_equal. by rewrite Z.add_0_r.
  - rewrite IH. do 2 f_equal. unfold zlen. simpl. lia.
Qed.

Lemma append_window name size l :
  2 ≤ size →
  let r := append_all l 0 (NewRollingIndex name size) in
  ri_wf r ∧ lastIndex r = zlen l - 1 ∧
  ∃ k, ri_items r = drop k l ∧
       Z.min (zlen l) (size - Z.quot size 2) ≤ zlen l - Z.of_nat k ≤ size.
Proof.
  intros Hsz. cbv zeta. induction l as [|x l IH] using rev_ind.
  { split; [by apply NewRollingIndex_wf|]. simpl. split; [done|].
    exists 0%nat. split; [done|]. unfold zlen. simpl.
    Z.to_euclidean_division_equations. lia. }
  rewrite append_all_snoc. set (r := append_all l 0 (NewRollingIndex name size)) in *.
  destruct IH as (Hwf & Hlast & k & Hitems & Hk).
  assert (ri_size r = size) as Hrs.
  { subst r. clear. induction l as [|y l IH] using rev_ind; [done|].
    rewrite append_all_snoc. set (r := append_all l 0 _) in *. unfold RI_Set, roll.
    repeat case_match; simplify_eq/=; try done.
    match goal with H : res_bind _ _ = Ok _ |- _ => apply res_bind_Ok in H as (? & _ & [= <-]) end.
    done. }
  rewrite Z.add_0_l. pose proof (Set_append r x (zlen l) Hwf) as Hset.
  specialize (Hset ltac:(lia)). split; [|split].
  - apply (Set_append_wf r x (zlen l)); [done|unfold zlen; lia|lia|by rewrite Hset].
  - rewrite Hset. simpl. unfold zlen. rewrite length_app. simpl. lia.
  - rewrite Hset. simpl. pose proof (rolled_le r Hwf) as Hr. rewrite Hitems in Hr |- *.
    pose proof (quot2_spec _ Hsz). assert (k ≤ length l)%nat by (unfold zlen in *; lia).
    rewrite length_drop in Hr. exists (k + rolled r)%nat. split.
    + rewrite drop_drop, drop_app_le by lia. done.
    + unfold rolled. rewrite Hitems, Hrs. unfold zlen in *.
      rewrite length_drop, length_app. simpl. case_match; lia.
Qed.
End rolling_index.

(** A window of size one never drops anything: half of one is nothing. *)
Lemma RollingIndex_size1_items {A} name (l : list A) :
  let r := append_all l 0 (NewRollingIndex name 1) in
  ri_items r = l ∧ ri_size r = 1 ∧ lastIndex r = zlen l - 1.
Proof.
  cbv zeta. induction l as [|x l IH] using rev_ind; [done|].
  rewrite append_all_snoc. set (r := append_all l 0 (NewRollingIndex name 1)) in *.
  destruct IH as (Hitems & Hsize & Hlast). unfold RI_Set. rewrite Z.add_0_l.
  assert (0 ≤ zlen l) by (unfold zlen; lia).
  replace ((0 <=? lastIndex r) && (lastIndex r + 1 <? zlen l)) with false by lia.
  replace ((lastIndex r <? 0) || (zlen l =? lastIndex r + 1)) with true by lia.
  assert ((if ri_size r <=? zlen (ri_items r) then roll r else Ok r) =
          Ok (mkRI (ri_name r) 1 (lastIndex r) l)) as ->.
  { clearbody r. destruct r as [n sz li its]. simpl in *. subst. unfold roll, go_from. simpl.
    change (Z.quot 1 2) with 0. replace (Z.of_nat (length l) <? 0) with false by lia.
    by destruct (1 <=? zlen l). }
  simpl. split_and!; try done. unfold zlen. rewrite length_app. simpl. lia.
Qed.

Record RollingIndexMap (A : Type) := mkRIM {
  rim_name : string;
  rim_size : Z;
  rim_keys : list Z;
  rim_mapping : gmap Z (RollingIndex A);
}.
Arguments mkRIM {A}.
Arguments rim_name {A}.
Arguments rim_size {A}.
Arguments rim_keys {A}.
Arguments rim_mapping {A}.

Section rolling_index_map.
Context {A : Type}.
Implicit Types (rim : RollingIndexMap A) (key index skipIndex : Z).

Definition NewRollingIndexMap (name : string) (size : Z) : RollingIndexMap A :=
  mkRIM name size [] ∅.

(** [fmt.Sprintf("%s[%d]", rim.name, key)] *)
Definition rim_entry_name rim key : string :=
  rim_name rim +:+ "[" +:+ pretty key +:+ "]".

Definition RIM_AddKey key : M (RollingIndexMap A) unit := λ rim,
  match rim_mapping rim !! key with
  | Some _ => (Err (NewStoreErr (rim_name rim) KeyAlreadyExists (pretty key)), rim)
  | None =>
      (Ok tt, mkRIM (rim_name rim) (rim_size rim) (rim_keys rim ++ [key])
                (<[key := NewRollingIndex (rim_entry_name rim key) (rim_size rim)]>
                   (rim_mapping rim)))
  end.

Definition RIM_Get rim key skipIndex : res (list A) :=
  match rim_mapping rim !! key with
  | None => Err (NewStoreErr (rim_name rim) KeyNotFound (pretty key))
  | Some items => RI_Get items skipIndex
  end.

(** [rim.mapping[key].GetItem(index)]: an absent key is a nil pointer. *)
Definition RIM_GetItem rim key index : res A :=
  match rim_mapping rim !! key with
  | None => Panic
  | Some items => RI_GetItem items index
  end.

Definition RIM_GetLast rim key : res A :=
  match rim_mapping rim !! key with
  | None => Err (NewStoreErr (rim_name rim) KeyNotFound (pretty key))
  | Some pe =>
      let '(cached, _) := GetLastWindow pe in
      if zlen cached =? 0 then Err (NewStoreErr (rim_name rim) Empty (pretty key))
      else go_index cached (zlen cached - 1)
  end.

Definition RIM_Set key (item : A) index : M (RollingIndexMap A) unit := λ rim,
  let items := match rim_mapping rim !! key with
               | Some items => items
               | None => NewRollingIndex (rim_entry_name rim key) (rim_size rim)
               end in
  match RI_Set item index items with
  | (r, items') =>
      (r, mkRIM (rim_name rim) (rim_size rim) (rim_keys rim)
            (<[key := items']> (rim_mapping rim)))
  end.

Definition RIM_Known rim : gmap Z Z := (λ items, (GetLastWindow items).2) <$> rim_mapping rim.

(** [Set] touches the window of its key only. *)
Lemma RIM_Set_other key item index rim k :
  k ≠ key → rim_mapping (RIM_Set key item index rim).2 !! k = rim_mapping rim !! k.
Proof.
  intros Hne. unfold RIM_Set. destruct (RI_Set item index _) as [r items']. simpl.
  by rewrite lookup_insert_ne.
Qed.

Lemma RIM_Set_same key item index rim items r items' :
  rim_mapping rim !! key = Some items → RI_Set item index items = (r, items') →
  (RIM_Set key item index rim).1 = r ∧
  rim_mapping (RIM_Set key item index rim).2 !! key = Some items'.
Proof.
  intros Hk Hset. unfold RIM_Set. rewrite Hk, Hset. simpl. by rewrite lookup_insert_eq.
Qed.

(** The last item of a window is the item at [lastIndex]. *)
Lemma RIM_GetLast_spec rim key items :
  rim_mapping rim !! key = Some items → ri_wf items →
  RIM_GetLast rim key =
  match ri_at items (lastIndex items) with
  | Some a => Ok a
  | None => Err (NewStoreErr (rim_name rim) Empty (pretty key))
  end.
Proof.
  intros Hk (_ & _ & Hold & Hne). unfold RIM_GetLast. rewrite Hk. simpl.
  unfold ri_at, go_index, oldest, zlen in *.
  destruct (Z.of_nat (length (ri_items items)) =? 0) eqn:H0.
  - replace ((lastIndex items - Z.of_nat (length (ri_items items)) + 1 <=? lastIndex items)
             && (lastIndex items <=? lastIndex items)) with false by lia. done.
  - replace ((lastIndex items - Z.of_nat (length (ri_items items)) + 1 <=? lastIndex items)
             && (lastIndex items <=? lastIndex items)) with true by lia.
    replace (Z.of_nat (length (ri_items items)) - 1 <? 0) with false by lia.
    replace (Z.to_nat (lastIndex items - (lastIndex items
               - Z.of_nat (length (ri_items items)) + 1)))
      with (Z.to_nat (Z.of_nat (length (ri_items items)) - 1)) by lia.
    destruct (ri_items items !! _) eqn:Hl; [done|]. apply lookup_ge_None in Hl. lia.
Qed.
End rolling_index_map.
