(* ===== verification/Crypto.v ===== *)
(** * Packages crypto and crypto/keys

    Models src/src/crypto/hash.go and src/src/crypto/keys: the FNV-1a
    identifier of a public key (public_key.go), the base-36 rendering of a
    signature (signature.go) and the byte encoding of a private key
    (private_key.go). SHA-256, the elliptic curve and the ECDSA primitives are the
    parameters of the class [Keys].

    A signature survives its encoding ([DecodeSignature_Encode]; the same for
    a private key and its file is [key_file_roundtrip] of EngineTheorems), and
    an undecodable signature makes verification panic instead of fail
    ([Verify_nil]). *)
From S2P Require Export Common.

(** ** The cryptographic primitives *)
Class Keys := {
  (** crypto/sha256 *)
  sha256 : bytes → bytes;
  (** crypto/elliptic.Unmarshal on secp256k1: the coordinates, if any *)
  elliptic_Unmarshal : bytes → option (Z * Z);
  (** scalar multiplication of the base point by a private key, and the
      uncompressed form of the result *)
  ScalarBaseMult : Z → option (Z * Z);
  elliptic_Marshal : Z * Z → bytes;
  (** crypto/ecdsa on a non-nil key and non-nil numbers. [Sign] draws a number
      at random; here the draw is a function of the key and the data, the same
      at every call. Nothing is assumed of it, and an event's signature is not
      part of what identifies the event: the theorems on replicas say where
      they need that an event has one signature. *)
  ecdsa_Verify : option (Z * Z) → bytes → Z → Z → res bool;
  ecdsa_Sign : Z → bytes → res (Z * Z);
}.

Section hash.
Context {KP : Keys}.

Definition SHA256 (data : bytes) : bytes := sha256 data.

Definition SimpleHashFromTwoHashes (left right : bytes) : bytes := sha256 (left ++ right).
End hash.

(** ** Identifiers: 32-bit FNV-1a *)
Definition fnv_prime : Z := 16777619.
Definition fnv_offset : Z := 2166136261.
Definition byteZ (b : byte) : Z := Z.of_N (Byte.to_N b).

Definition hash32 (data : bytes) : Z :=
  foldl (λ h b, wrapU32 (Z.lxor h (byteZ b) * fnv_prime)) fnv_offset data.

Definition PublicKeyID (pubBytes : bytes) : Z := hash32 pubBytes.

Example hash32_a : hash32 [x61] = 3826002220.
Proof. reflexivity. Qed.

(** ** Signatures *)
Definition digit36 (n : N) : ascii :=
  default "0"%char (String.get (N.to_nat n) "0123456789abcdefghijklmnopqrstuvwxyz").

Fixpoint text36_go (fuel : nat) (n : N) (acc : string) : string :=
  match fuel with
  | O => acc
  | S f =>
      if (n <? 36)%N then String (digit36 n) acc
      else text36_go f (n / 36) (String (digit36 (n mod 36)) acc)
  end.

(** [big.Int.Text(36)] *)
Definition Text36 (z : Z) : string :=
  let n := Z.to_N (Z.abs z) in
  let t := text36_go (S (N.size_nat n)) n "" in
  if z <? 0 then String "-" t else t.

(** The value of a digit of [big.Int.SetString]; case does not matter. *)
Definition value36 (c : ascii) : option N :=
  let n := N_of_ascii c in
  (if (48 <=? n) && (n <=? 57) then Some (n - 48)
   else if (97 <=? n) && (n <=? 122) then Some (n - 97 + 10)
   else if (65 <=? n) && (n <=? 90) then Some (n - 65 + 10)
   else None)%N.

Fixpoint scan36 (acc : N) (s : string) : option N :=
  match s with
  | EmptyString => Some acc
  | String c s' =>
      match value36 c with
      | Some d => scan36 (acc * 36 + d) s'
      | None => None
      end
  end.

(** [new(big.Int).SetString(s, 36)]: an optional sign, then at least one
    digit; on failure the pointer is nil. *)
Definition SetString36 (s : string) : option Z :=
  match s with
  | EmptyString => None
  | String c s' =>
      if decide (c = "-"%char) then
        match s' with EmptyString => None | _ => (λ n, - Z.of_N n) <$> scan36 0 s' end
      else if decide (c = "+"%char) then
        match s' with EmptyString => None | _ => Z.of_N <$> scan36 0 s' end
      else Z.of_N <$> scan36 0 s
  end.

(** [strings.Split(s, "|")] *)
Fixpoint split_bar (s : string) : list string :=
  match s with
  | EmptyString => [""]
  | String c s' =>
      if decide (c = "|"%char) then "" :: split_bar s'
      else match split_bar s' with
           | h :: t => String c h :: t
           | [] => [String c ""]
           end
  end.

Definition EncodeSignature (r s : Z) : string := Text36 r +:+ "|" +:+ Text36 s.

(** The failures of [SetString] are dropped: the numbers are then nil. *)
Definition DecodeSignature (sig : string) : res (option Z * option Z) :=
  match split_bar sig with
  | [v0; v1] => Ok (SetString36 v0, SetString36 v1)
  | _ => Err (EMsg "wrong number of values in signature")
  end.

(** ** Keys *)
Section keys.
Context {KP : Keys}.

(** [ToPublicKey]: the nil pointer for an empty slice, otherwise a key whose
    point may be missing. *)
Definition ToPublicKey (pub : bytes) : option (option (Z * Z)) :=
  if zlen pub =? 0 then None else Some (elliptic_Unmarshal pub).

(** [Verify] dereferences the key and both numbers. *)
Definition Verify (pub : option (option (Z * Z))) (data : bytes) (r s : option Z) :
    res bool :=
  match pub, r, s with
  | Some p, Some r, Some s => ecdsa_Verify p data r s
  | _, _, _ => Panic
  end.

Definition Sign (priv : Z) (data : bytes) : res (Z * Z) := ecdsa_Sign priv data.

Definition FromPublicKey (pub : option (Z * Z)) : bytes :=
  match pub with
  | None => []
  | Some p => elliptic_Marshal p
  end.

Definition PublicKeyHex (pub : option (Z * Z)) : string :=
  EncodeToString (FromPublicKey pub).
End keys.

(** *** Private keys as bytes *)
Definition secp256k1N : Z :=
  115792089237316195423570985008687907852837564279074904382605163141518161494337.
Definition BitSize : Z := 256.
Definition wordBytes : Z := 8.

(** [big.Int.Bits]: the 64-bit words, least significant first. *)
Fixpoint words_go (fuel : nat) (n : Z) : list Z :=
  match fuel with
  | O => []
  | S f => if n =? 0 then [] else n mod 2 ^ 64 :: words_go f (n / 2 ^ 64)
  end.
Definition Bits (n : Z) : list Z := words_go (Z.to_nat (Z.log2 n + 1)) n.

Definition byte_of_Z (z : Z) : byte := default x00 (Byte.of_N (Z.to_N (z mod 256))).

(** [big.Int.Bytes]: big endian, no leading zero. *)
Fixpoint bytes_go (fuel : nat) (n : Z) (acc : bytes) : bytes :=
  match fuel with
  | O => acc
  | S f => if n =? 0 then acc else bytes_go f (n / 256) (byte_of_Z n :: acc)
  end.
Definition Bytes (n : Z) : bytes := bytes_go (Z.to_nat (Z.log2 n + 1)) n [].
(** [big.Int.BitLen] *)
Definition BitLen (n : Z) : Z := if n =? 0 then 0 else Z.log2 n + 1.
(** [big.Int.SetBytes] *)
Definition SetBytes (bs : bytes) : Z := foldl (λ a b, a * 256 + byteZ b) 0 bs.

(** The loops of [readBits]: [d] is written byte by byte from the end. The
    state is the index [i] and the buffer. *)
Fixpoint readBits_word (j : nat) (d : Z) (i : nat) (buf : bytes) : nat * bytes :=
  match j with
  | O => (i, buf)
  | S j' =>
      match i with
      | O => (O, buf)
      | S i' => readBits_word j' (Z.shiftr d 8) i' (<[i' := byte_of_Z d]> buf)
      end
  end.
Definition readBits (n : Z) (buf : bytes) : bytes :=
  (foldl (λ '(i, buf) d, readBits_word (Z.to_nat wordBytes) d i buf)
     (length buf, buf) (Bits n)).2.

Definition paddedBigBytes (n : Z) (size : Z) : bytes :=
  if size <=? BitLen n / 8 then Bytes n
  else readBits n (replicate (Z.to_nat size) x00).

Definition DumpPrivateKey (priv : option Z) : bytes :=
  match priv with
  | None => []
  | Some d => paddedBigBytes d (BitSize / 8)
  end.

Definition ParsePrivateKey {KP : Keys} (d : bytes) : res (Z * (Z * Z)) :=
  if negb (8 * zlen d =? BitSize) then Err (EMsg "invalid length, need 256 bits")
  else
    let D := SetBytes d in
    if secp256k1N <=? D then Err (EMsg "invalid private key, >=N")
    else if D <=? 0 then Err (EMsg "invalid private key, zero or negative")
    else match ScalarBaseMult D with
         | None => Err (EMsg "invalid private key")
         | Some p => Ok (D, p)
         end.

Example sig_ex : DecodeSignature (EncodeSignature 12345678901234567890 (-35))
    = Ok (Some 12345678901234567890, Some (-35)) ∧ Text36 1295 = "zz" ∧
    DecodeSignature "!|!" = Ok (None, None).
Proof. repeat split; reflexivity. Qed.
Example dump_ex : zlen (DumpPrivateKey (Some 1234567890123456789012345)) = 32
  ∧ SetBytes (DumpPrivateKey (Some 1234567890123456789012345)) = 1234567890123456789012345.
Proof. split; vm_compute; reflexivity. Qed.

(** ** Properties of the signature encoding *)
Lemma value36_digit36 n : (n < 36)%N →
  value36 (digit36 n) = Some n ∧ digit36 n ≠ "|"%char ∧ digit36 n ≠ "-"%char ∧
  digit36 n ≠ "+"%char.
Proof.
  intros Hn. assert (∃ k : nat, n = N.of_nat k ∧ (k < 36)%nat) as (k & -> & Hk).
  { exists (N.to_nat n). lia. }
  do 36 (destruct k as [|k]; [by vm_compute|]). lia.
Qed.

Lemma scan36_text fuel n acc :
  (n < 36 ^ N.of_nat fuel)%N → scan36 0 (text36_go fuel n acc) = scan36 n acc.
Proof.
  revert n acc. induction fuel as [|f IH]; intros n acc Hn.
  { simpl in *. by replace n with 0%N by lia. }
  cbn [text36_go]. destruct (N.ltb_spec n 36) as [Hlt|Hge].
  - simpl. destruct (value36_digit36 n Hlt) as [-> _]. done.
  - rewrite IH.
    + simpl. destruct (value36_digit36 (n mod 36)) as [-> _]; [by apply N.mod_lt|].
      f_equal. rewrite N.mul_comm. symmetry. apply N.div_mod'.
    + apply N.Div0.div_lt_upper_bound. rewrite Nat2N.inj_succ, N.pow_succ_r' in Hn. lia.
Qed.

(** A rendered number starts with a digit, and holds no bar. *)
Definition barfree (s : string) : Prop := split_bar s = [s].

Lemma text36_go_shape fuel n acc :
  barfree acc → barfree (text36_go fuel n acc) ∧
  (fuel ≠ O → ∃ c s, text36_go fuel n acc = String c s ∧ c ≠ "-"%char ∧ c ≠ "+"%char).
Proof.
  assert (∀ d a, (d < 36)%N → barfree a → barfree (String (digit36 d) a)) as Hcons.
  { intros d a Hd Ha. destruct (value36_digit36 d Hd) as (_ & Hb & _).
    unfold barfree in *. simpl. rewrite decide_False by done. by rewrite Ha. }
  revert n acc. induction fuel as [|f IH]; intros n acc Hacc; [done|].
  cbn [text36_go]. destruct (N.ltb_spec n 36) as [Hlt|Hge].
  - split; [by apply Hcons|]. intros _. eexists _, _. split; [done|].
    by destruct (value36_digit36 n Hlt) as (_ & _ & ?).
  - assert (n mod 36 < 36)%N as Hm by (by apply N.mod_lt).
    destruct (IH (n / 36)%N (String (digit36 (n mod 36)) acc)) as [H1 H2]; [by apply Hcons|].
    split; [done|]. intros _. destruct f as [|f]; [|by apply H2].
    eexists _, _. split; [done|]. by destruct (value36_digit36 _ Hm) as (_ & _ & ?).
Qed.

Lemma size_nat_bound n : (n < 36 ^ N.of_nat (S (N.size_nat n)))%N.
Proof.
  assert (n < 2 ^ N.of_nat (N.size_nat n))%N as H.
  { destruct n as [|p]; [done|]. simpl N.size_nat.
    pose proof (Pos.size_gt p). replace (N.of_nat (Pos.size_nat p)) with (N.pos (Pos.size p)); [lia|].
    clear. induction p; simpl; lia. }
  rewrite Nat2N.inj_succ, N.pow_succ_r'.
  assert (2 ^ N.of_nat (N.size_nat n) ≤ 36 ^ N.of_nat (N.size_nat n))%N
    by (apply N.pow_le_mono_l; lia). lia.
Qed.

Lemma SetString36_Text36 z : SetString36 (Text36 z) = Some z.
Proof.
  unfold Text36. set (n := Z.to_N (Z.abs z)).
  destruct (text36_go_shape (S (N.size_nat n)) n "" eq_refl) as [_ Hc].
  destruct (Hc ltac:(done)) as (c & s & Heq & Hm & Hp).
  pose proof (scan36_text (S (N.size_nat n)) n "" (size_nat_bound n)) as Hscan.
  rewrite Heq in *. destruct (z <? 0) eqn:Hz.
  - unfold SetString36. rewrite decide_True by done. rewrite Hscan. simpl. f_equal. lia.
  - unfold SetString36. rewrite !decide_False by done. rewrite Hscan. simpl. f_equal. lia.
Qed.

Lemma Text36_barfree z : barfree (Text36 z).
Proof.
  unfold Text36. set (n := Z.to_N (Z.abs z)).
  destruct (text36_go_shape (S (N.size_nat n)) n "" eq_refl) as [Hb _].
  destruct (z <? 0); [|done]. unfold barfree in *. cbn [split_bar].
  rewrite decide_False by done. by rewrite Hb.
Qed.

Lemma split_bar_app a b : barfree a → split_bar (a +:+ String "|" b) = a :: split_bar b.
Proof.
  unfold barfree. induction a as [|c a IH]; intros Ha; [done|].
  change (String c a +:+ String "|" b) with (String c (a +:+ String "|" b)).
  simpl in *. case_decide; [done|]. destruct (split_bar a) as [|h t] eqn:Hs.
  - simplify_eq.
  - simplify_eq. by rewrite IH.
Qed.

(** Every pair of numbers survives the rendering of a signature. *)
Lemma DecodeSignature_Encode r s :
  DecodeSignature (EncodeSignature r s) = Ok (Some r, Some s).
Proof.
  unfold DecodeSignature, EncodeSignature.
  change ("|" +:+ Text36 s) with (String "|" (Text36 s)).
  rewrite split_bar_app by apply Text36_barfree. rewrite (Text36_barfree s).
  by rewrite !SetString36_Text36.
Qed.

(** A number that did not parse is a nil pointer, which [ecdsa.Verify]
    dereferences. *)
Lemma Verify_nil {KP : Keys} pub data s : Verify pub data None s = Panic.
Proof. by destruct pub. Qed.
