(* ===== verification/Peers.v ===== *)
(** * Package peers

    Models src/src/peers/peer.go, peer_set.go and the key normalisation of
    json_peer_set.go. The fields that only cache a computed value ([id],
    [hash], [hex], [superMajority], [trustCount]) are recomputed.

    The theorems: two super-majorities share more than a third of the peers
    ([supermajority_intersection]), a trust count is more than a third
    ([trust_third]), and adding or removing a peer keeps a peer-set
    consistent ([WithNewPeer_wf], [WithRemovedPeer_wf]). *)
From S2P Require Export Crypto.

Record Peer := mkPeer {
  NetAddr : string;
  PubKeyHex : string;
  Moniker : string;
}.
#[export] Instance Peer_eq_dec : EqDecision Peer.
Proof. solve_decision. Defined.

Definition NewPeer (pubKeyHex netAddr moniker : string) : Peer :=
  mkPeer netAddr pubKeyHex moniker.

(** [PubKeyBytes] drops the decoding error; a key shorter than the prefix
    panics in [DecodeFromString]. *)
Definition PubKeyBytes (p : Peer) : res bytes :=
  r <-- DecodeFromString (PubKeyHex p) ;; Ok r.1.

Definition ID (p : Peer) : res Z :=
  pubKeyBytes <-- PubKeyBytes p ;; Ok (PublicKeyID pubKeyBytes).

Definition PubKeyString (p : Peer) : string := ToUpper (PubKeyHex p).

Definition ExcludePeer (ps : list Peer) (peer : Z) : res (Z * list Peer) :=
  r <-- res_foldM (λ '(i, index, otherPeers) p,
          id <-- ID p ;;
          if negb (id =? peer) then Ok (i + 1, index, otherPeers ++ [p])
          else Ok (i + 1, i, otherPeers))
        (0, -1, []) ps ;;
  let '(_, index, otherPeers) := r in Ok (index, otherPeers).

(** [cleansePeerSet]: the format Babble derives from a private key. *)
Definition TrimPrefix0X (s : string) : string :=
  match s with
  | String "0" (String "X" s') => s'
  | _ => s
  end.
Definition cleansePeer (p : Peer) : Peer :=
  mkPeer (NetAddr p) ("0X" +:+ TrimPrefix0X (ToUpper (PubKeyHex p))) (Moniker p).
Definition cleansePeerSet (ps : list Peer) : list Peer := cleansePeer <$> ps.

Record PeerSet := mkPeerSet {
  Peers : list Peer;
  ByPubKey : gmap string Peer;
  ByID : gmap Z Peer;
}.

Definition initMaps (ps : list Peer) : res (gmap string Peer * gmap Z Peer) :=
  res_foldM (λ '(byPub, byID) peer,
      id <-- ID peer ;;
      Ok (<[PubKeyString peer := peer]> byPub, <[id := peer]> byID)) (∅, ∅) ps.

Definition NewPeerSet (ps : list Peer) : res PeerSet :=
  m <-- initMaps ps ;; Ok (mkPeerSet ps m.1 m.2).

Definition WithNewPeer (peerSet : PeerSet) (peer : Peer) : res PeerSet :=
  id <-- ID peer ;;
  NewPeerSet (match ByID peerSet !! id with
              | Some _ => Peers peerSet
              | None => Peers peerSet ++ [peer]
              end).

Definition WithRemovedPeer (peerSet : PeerSet) (peer : Peer) : res PeerSet :=
  NewPeerSet (filter (λ p, PubKeyHex p ≠ PubKeyHex peer) (Peers peerSet)).

Definition PubKeys (peerSet : PeerSet) : list string := PubKeyString <$> Peers peerSet.
Definition IDs (peerSet : PeerSet) : res (list Z) := res_mapM ID (Peers peerSet).

Definition PS_Len (peerSet : PeerSet) : Z := Z.of_nat (size (ByPubKey peerSet)).

Definition PS_Hash {KP : Keys} (peerSet : PeerSet) : res bytes :=
  res_foldM (λ hash p, pk <-- PubKeyBytes p ;; Ok (SimpleHashFromTwoHashes hash pk))
    [] (Peers peerSet).

Definition PS_Hex {KP : Keys} (peerSet : PeerSet) : res string :=
  h <-- PS_Hash peerSet ;; Ok (EncodeToString h).

Definition SuperMajority (peerSet : PeerSet) : Z := Z.quot (2 * PS_Len peerSet) 3 + 1.

(** [int(math.Ceil(float64(n) / float64(3)))]: the division and the rounding
    are exact for the sizes a map can have here. *)
Definition TrustCount (peerSet : PeerSet) : Z :=
  if 1 <? zlen (Peers peerSet) then (PS_Len peerSet + 2) / 3 else 0.

(** ** Thresholds *)
Section thresholds.
Implicit Types (ps : PeerSet).

Lemma PS_Len_nonneg ps : 0 ≤ PS_Len ps.
Proof. unfold PS_Len. lia. Qed.

Lemma supermajority_bounds ps :
  2 * PS_Len ps < 3 * SuperMajority ps ∧
  (0 < PS_Len ps → SuperMajority ps ≤ PS_Len ps).
Proof.
  unfold SuperMajority. pose proof (PS_Len_nonneg ps).
  Z.to_euclidean_division_equations. lia.
Qed.

(** Two sets of peers that both reach the super-majority share more than a
    third of the peers. *)
Lemma supermajority_intersection ps (X Y : gset string) :
  X ⊆ dom (ByPubKey ps) → Y ⊆ dom (ByPubKey ps) →
  SuperMajority ps ≤ Z.of_nat (size X) → SuperMajority ps ≤ Z.of_nat (size Y) →
  PS_Len ps < 3 * Z.of_nat (size (X ∩ Y)).
Proof.
  intros HX HY HsX HsY. destruct (supermajority_bounds ps) as [Hb _].
  unfold PS_Len in *. rewrite <-size_dom in *.
  assert (size (X ∪ Y) ≤ size (dom (ByPubKey ps)))%nat as Hu
    by (apply subseteq_size; set_solver).
  pose proof (size_union_alt X Y) as Hun.
  assert (size (Y ∖ X) + size (X ∩ Y) = size Y)%nat as Hsplit.
  { rewrite <-size_union by set_solver. f_equal. apply set_eq. intros x.
    destruct (decide (x ∈ X)); set_solver. }
  lia.
Qed.

(** More signatures than the trust count are more than a third of the
    peers. *)
Lemma trust_third ps n :
  1 ≤ zlen (Peers ps) → PS_Len ps ≤ zlen (Peers ps) → TrustCount ps < n →
  PS_Len ps < 3 * n.
Proof.
  unfold TrustCount. pose proof (PS_Len_nonneg ps).
  case_match; Z.to_euclidean_division_equations; lia.
Qed.
End thresholds.

(** ** Consistency of a peer-set

    The map by identifier has, under an identifier, the last peer of the list
    with that identifier, and nothing under the others: identifiers are
    32-bit digests of keys, and two peers may share one. *)
Definition has_id (id : Z) (p : Peer) : bool :=
  match ID p with Ok i => i =? id | _ => false end.
Definition with_id (id : Z) (ps : list Peer) : option Peer := last (filter (has_id id) ps).
Definition ps_wf (ps : PeerSet) : Prop :=
  NoDup (PubKeys ps) ∧
  (∀ k p, ByPubKey ps !! k = Some p ↔ p ∈ Peers ps ∧ PubKeyString p = k) ∧
  (∀ p, p ∈ Peers ps → ∃ id q, ID p = Ok id ∧ ByID ps !! id = Some q) ∧
  (∀ id, ByID ps !! id = with_id id (Peers ps)).
Lemma with_id_Some id ps p : with_id id ps = Some p → p ∈ ps ∧ ID p = Ok id.
Proof.
  unfold with_id. intros Hp%last_Some_elem_of. apply list_elem_of_filter in Hp as [Hid Hp].
  split; [done|]. unfold has_id in Hid. destruct (ID p) as [i| | |]; [|done..].
  apply Is_true_true, Z.eqb_eq in Hid. by subst.
Qed.
Lemma with_id_None id ps p : with_id id ps = None → p ∈ ps → ID p ≠ Ok id.
Proof.
  unfold with_id. intros Hn%last_None Hp Hid.
  assert (p ∈ filter (has_id id) ps) as Hin; [|rewrite Hn in Hin; by apply elem_of_nil in Hin].
  apply list_elem_of_filter. split; [|done]. unfold has_id. rewrite Hid.
  by apply Is_true_true, Z.eqb_eq.
Qed.

(** The identifier depends on the normalised key only. *)
Lemma ID_PubKeyString p q : PubKeyString p = PubKeyString q → ID p = ID q.
Proof.
  unfold PubKeyString, ID, PubKeyBytes, DecodeFromString.
  destruct (PubKeyHex p) as [|a [|b s]], (PubKeyHex q) as [|a' [|b' s']]; simpl;
    intros; simplify_eq; try done.
  assert (hex_DecodeString s = hex_DecodeString s') as ->; [|done].
  rewrite <-(hex_DecodeString_upper s), <-(hex_DecodeString_upper s'). congruence.
Qed.

Definition initMaps_from (m : gmap string Peer * gmap Z Peer) (ps : list Peer) :=
  res_foldM (E:=error) (λ '(byPub, byID) peer,
      id <-- ID peer ;;
      Ok (<[PubKeyString peer := peer]> byPub, <[id := peer]> byID)) m ps.

Lemma initMaps_from_spec l m m' :
  initMaps_from m l = Ok m' → NoDup (PubKeyString <$> l) →
  (∀ k, m'.1 !! k = match list_find (λ p, PubKeyString p = k) l with
                    | Some (_, p) => Some p
                    | None => m.1 !! k
                    end) ∧
  (∀ id, m'.2 !! id = match with_id id l with
                      | Some p => Some p
                      | None => m.2 !! id
                      end) ∧
  (∀ p, p ∈ l → ∃ id, ID p = Ok id).
Proof.
  revert m. induction l as [|p l IH]; intros [m1 m2] H Hnd; simpl in *.
  { injection H as <-. simpl. split; [done|]. split; [done|].
    intros p Hp. by apply elem_of_nil in Hp. }
  apply NoDup_cons in Hnd as [Hp Hnd].
  apply res_bind_Ok in H as ([m1' m2'] & Hstep & H).
  apply res_bind_Ok in Hstep as (id & Hid & [= <- <-]).
  destruct (IH _ H Hnd) as (H1 & H2 & H3). split; [|split].
  - intros k. rewrite H1. simpl. destruct (decide (PubKeyString p = k)) as [<-|Hne].
    + destruct (list_find (λ q, PubKeyString q = PubKeyString p) l) as [[i q]|] eqn:Hf; simpl.
      * exfalso. apply list_find_Some in Hf as (Hq & Heq & _). apply Hp.
        rewrite <-Heq. apply list_elem_of_fmap_2. by eapply list_elem_of_lookup_2.
      * by rewrite lookup_insert_eq.
    + destruct (list_find (λ q, PubKeyString q = k) l) as [[i q]|]; simpl; [done|].
      by rewrite lookup_insert_ne.
  - intros id'. rewrite H2. unfold with_id. rewrite filter_cons. simpl.
    destruct (decide (has_id id' p)) as [Hid'|Hid'].
    + rewrite last_cons. destruct (last (filter (has_id id') l)); [done|]. apply Is_true_true in Hid'.
      unfold has_id in Hid'. rewrite Hid in Hid'. apply Z.eqb_eq in Hid' as <-. apply lookup_insert_eq.
    + destruct (last (filter (has_id id') l)); [done|]. apply lookup_insert_ne. intros ->.
      apply Hid'. unfold has_id. rewrite Hid. by apply Is_true_true, Z.eqb_eq.
  - intros q [->|Hq]%elem_of_cons; eauto.
Qed.

Lemma NewPeerSet_Peers l ps : NewPeerSet l = Ok ps → Peers ps = l.
Proof. unfold NewPeerSet. intros H. by apply res_bind_Ok in H as (? & _ & [= <-]). Qed.

(** Building a peer-set from a list without repeated keys. *)
Lemma NewPeerSet_wf l ps :
  NewPeerSet l = Ok ps → NoDup (PubKeyString <$> l) → ps_wf ps.
Proof.
  intros H Hnd. unfold NewPeerSet in H. apply res_bind_Ok in H as ([m1 m2] & H & [= <-]).
  destruct (initMaps_from_spec _ _ _ H Hnd) as (H1 & H2 & H3). simpl in *.
  split; [done|]. simpl. split; [|split].
  - intros k p. rewrite H1. destruct (list_find _ l) as [[i q]|] eqn:Hf.
    + apply list_find_Some in Hf as (Hq & Heq & _). split.
      * intros [= ->]. split; [by eapply list_elem_of_lookup_2|done].
      * intros [Hp Hk]. f_equal.
        apply list_elem_of_lookup in Hp as [j Hj].
        assert (i = j) as ->; [|congruence].
        eapply (NoDup_lookup (PubKeyString <$> l)); [done|rewrite list_lookup_fmap, Hq; done|].
        rewrite list_lookup_fmap, Hj. simpl. congruence.
    + rewrite lookup_empty. split; [done|]. intros [Hp Hk]. exfalso.
      apply list_find_None in Hf. rewrite Forall_forall in Hf. by eapply Hf.
  - intros p Hp. destruct (H3 p Hp) as [id Hid]. exists id. rewrite H2.
    destruct (with_id id l) as [q|] eqn:Hq; [eauto|]. by destruct (with_id_None id l p Hq Hp).
  - intros id. rewrite H2. by destruct (with_id id l).
Qed.

Lemma ps_wf_Len ps : ps_wf ps → PS_Len ps = zlen (Peers ps).
Proof.
  intros (Hnd & Hby & _). unfold PS_Len, zlen. f_equal.
  rewrite <-size_dom. replace (dom (ByPubKey ps)) with (list_to_set (PubKeys ps) : gset string).
  - rewrite size_list_to_set by done. unfold PubKeys. by rewrite length_fmap.
  - apply set_eq. intros k. rewrite elem_of_list_to_set, elem_of_dom. unfold PubKeys.
    rewrite list_elem_of_fmap. split.
    + intros (p & -> & Hp). exists p. by apply Hby.
    + intros [p Hp]. apply Hby in Hp as [Hp <-]. eauto.
Qed.

(** A join extends the peer-set by the new peer, unless its identifier is
    taken. *)
Lemma WithNewPeer_wf ps peer ps' id :
  ps_wf ps → ID peer = Ok id → WithNewPeer ps peer = Ok ps' →
  ps_wf ps' ∧
  Peers ps' = match ByID ps !! id with Some _ => Peers ps | None => Peers ps ++ [peer] end.
Proof.
  intros Hwf Hid H. unfold WithNewPeer in H. rewrite Hid in H. simpl in H.
  assert (NoDup (PubKeyString <$>
            match ByID ps !! id with Some _ => Peers ps | None => Peers ps ++ [peer] end)) as Hnd.
  { destruct Hwf as (Hnd & Hby & Hids). destruct (ByID ps !! id) eqn:Hlook; [done|].
    rewrite fmap_app. apply NoDup_app. split; [done|]. split; [|apply NoDup_singleton].
    intros k Hk Hk'. apply list_elem_of_fmap in Hk as (q & -> & Hq). simpl in Hk'.
    apply list_elem_of_singleton in Hk'. destruct (proj1 Hids q Hq) as (id' & q' & Hid' & Hq').
    rewrite (ID_PubKeyString q peer), Hid in Hid' by done. simplify_eq. }
  split; [by eapply NewPeerSet_wf|by eapply NewPeerSet_Peers].
Qed.

(** A removal takes out the peer with that key string, and nothing else. *)
Lemma WithRemovedPeer_wf ps peer ps' :
  ps_wf ps → WithRemovedPeer ps peer = Ok ps' →
  ps_wf ps' ∧ (∀ p, p ∈ Peers ps' ↔ p ∈ Peers ps ∧ PubKeyHex p ≠ PubKeyHex peer).
Proof.
  intros (Hnd & _ & _) H. unfold WithRemovedPeer in H. split.
  - eapply NewPeerSet_wf; [done|]. unfold PubKeys in Hnd.
    eapply sublist_NoDup; [exact Hnd|]. apply fmap_sublist, sublist_filter.
  - intros p. rewrite (NewPeerSet_Peers _ _ H), list_elem_of_filter. tauto.
Qed.
