(* ===== verification/PeerSelector.v ===== *)
(** * Selecting a gossip peer (src/src/node/peer_selector.go)

    [randomPeerSelector] keeps the peers a node gossips with, their connection
    status and the last one it talked to. [next] is given the number its random
    generator draws.

    The theorems: every peer but the node itself is selectable, and [next]
    picks a selectable peer, a different one from the last unless there is
    only one ([next_selects]). *)
From S2P Require Export Peers.

Record peerSelectorItem := mkItem {
  psi_peer : Peer;
  psi_connected : bool;
}.
Record randomPeerSelector := mkSelector {
  rps_peers : PeerSet;
  rps_selfID : Z;
  selectablePeersMap : gmap Z peerSelectorItem;
  selectablePeersSlice : list Z;
  rps_last : Z;
}.

Definition newRandomPeerSelector (peerSet : PeerSet) (selfID : Z) : res randomPeerSelector :=
  others <-- ExcludePeer (Peers peerSet) selfID ;;
  ms <-- res_foldM (λ '(m, l) p,
           id <-- ID p ;; Ok (<[id := mkItem p false]> m, l ++ [id]))
         (∅, []) others.2 ;;
  Ok (mkSelector peerSet selfID ms.1 ms.2 0).

Definition updateLast (ps : randomPeerSelector) (peer : Z) (connected : bool) :
    bool * randomPeerSelector :=
  match selectablePeersMap ps !! peer with
  | Some item =>
      (negb (psi_connected item) && connected,
       mkSelector (rps_peers ps) (rps_selfID ps)
         (<[peer := mkItem (psi_peer item) connected]> (selectablePeersMap ps))
         (selectablePeersSlice ps) peer)
  | None =>
      (false, mkSelector (rps_peers ps) (rps_selfID ps) (selectablePeersMap ps)
                (selectablePeersSlice ps) peer)
  end.

(** [rand.Intn(n)], drawing [rnd]. *)
Definition rand_Intn (rnd : nat) (n : nat) : res nat :=
  if (n <=? 0)%nat then Panic else Ok (rnd mod n)%nat.

(** [next] returns nil when there is nobody to select. *)
Definition next (ps : randomPeerSelector) (rnd : nat) : res (option Peer) :=
  match selectablePeersSlice ps with
  | [] => Ok None
  | id0 :: _ =>
      nextID <--
        (if 1 <? zlen (selectablePeersSlice ps) then
           let otherPeers := filter (λ pid, pid ≠ rps_last ps) (selectablePeersSlice ps) in
           i <-- rand_Intn rnd (length otherPeers) ;;
           match otherPeers !! i with
           | Some id => Ok id
           | None => Panic
           end
         else Ok id0) ;;
      match selectablePeersMap ps !! nextID with
      | Some item => Ok (Some (psi_peer item))
      | None => Panic
      end
  end.

(** ** Properties *)
Definition selector_wf (ps : randomPeerSelector) : Prop :=
  NoDup (selectablePeersSlice ps) ∧
  (∀ id, id ∈ selectablePeersSlice ps ↔ is_Some (selectablePeersMap ps !! id)) ∧
  (∀ id item, selectablePeersMap ps !! id = Some item →
     ID (psi_peer item) = Ok id ∧ psi_peer item ∈ Peers (rps_peers ps) ∧ id ≠ rps_selfID ps).

Definition has_id (id : Z) (p : Peer) : bool :=
  match ID p with Ok id' => id' =? id | _ => false end.
Lemma has_id_spec id p : has_id id p = true ↔ ID p = Ok id.
Proof.
  unfold has_id. destruct (ID p) as [id'| | |]; [|done..]. rewrite Z.eqb_eq. naive_solver.
Qed.

Lemma ExcludePeer_spec l self r : ExcludePeer l self = Ok r →
  r.2 = filter (λ p, has_id self p = false) l ∧ ∀ p, p ∈ l → ∃ id, ID p = Ok id.
Proof.
  unfold ExcludePeer. intros ([[i ix] others] & Hf & [= <-])%res_bind_Ok. simpl.
  assert (∀ l i ix acc i' ix' others,
    res_foldM (λ '(i, index, otherPeers) p,
          id <-- ID p ;;
          if negb (id =? self) then Ok (E:=error) (i + 1, index, otherPeers ++ [p])
          else Ok (i + 1, i, otherPeers)) (i, ix, acc) l = Ok (i', ix', others) →
    others = acc ++ filter (λ p, has_id self p = false) l ∧ ∀ p, p ∈ l → ∃ id, ID p = Ok id) as Hgen.
  { clear. induction l as [|p l IH]; intros i ix acc i' ix' others; simpl.
    { intros [= _ _ <-]. rewrite app_nil_r. split; [done|]. set_solver. }
    intros (st & Hst & Hf)%res_bind_Ok. apply res_bind_Ok in Hst as (id & Hid & Hst).
    rewrite filter_cons. destruct (Z.eqb_spec id self) as [->|Hne]; simpl in Hst;
      injection Hst as <-; apply IH in Hf as [-> Hin]; (split; [|set_solver]).
    - rewrite decide_False; [done|]. apply has_id_spec in Hid. congruence.
    - rewrite decide_True; [by rewrite <-app_assoc|]. destruct (has_id self p) eqn:Hp; [|done].
      apply has_id_spec in Hp. congruence. }
  apply (Hgen _ _ _ _ _ _ _ Hf).
Qed.

(** The loop that fills the two tables. *)
Lemma selectable_fold ps : ∀ (m : gmap Z peerSelectorItem) l m' l', NoDup (ID <$> ps) →
  NoDup l → (∀ id, id ∈ l ↔ is_Some (m !! id)) → (∀ p id, p ∈ ps → ID p = Ok id → id ∉ l) →
  res_foldM (λ '(m, l) p, id <-- ID p ;; Ok (E:=error) (<[id := mkItem p false]> m, l ++ [id]))
    (m, l) ps = Ok (m', l') →
  NoDup l' ∧ (∀ id, id ∈ l' ↔ is_Some (m' !! id)) ∧
  (∀ id item, m' !! id = Some item → m !! id = Some item ∨
     ∃ p, p ∈ ps ∧ ID p = Ok id ∧ item = mkItem p false) ∧
  (∀ p id, p ∈ ps → ID p = Ok id → m' !! id = Some (mkItem p false)) ∧
  (∀ id, is_Some (m !! id) → m' !! id = m !! id).
Proof.
  induction ps as [|p ps IH]; intros m l m' l' Hnd Hl Hdom Hfresh; simpl.
  { intros [= <- <-]. do 2 (split; [done|]). split; [auto|]. split; [set_solver|done]. }
  intros (st & Hst & Hf)%res_bind_Ok. apply res_bind_Ok in Hst as (id & Hid & [= <-]).
  csimpl in Hnd. apply NoDup_cons in Hnd as [Hnp Hnd].
  assert (id ∉ l) as Hnew by (eapply Hfresh; [by apply list_elem_of_here|done]).
  apply IH in Hf as (H1 & H2 & H3 & H4 & H5); [|done| | |].
  - split; [done|]. split; [done|]. split; [|split].
    + intros id' item Hi. apply H3 in Hi as [Hi|(q & Hq & Hqi & ->)].
      * destruct (decide (id' = id)) as [->|Hne].
        -- rewrite lookup_insert_eq in Hi. injection Hi as <-. right. exists p. set_solver.
        -- rewrite lookup_insert_ne in Hi by done. by left.
      * right. exists q. set_solver.
    + intros q id' [->|Hq]%elem_of_cons Hqi; [|by apply H4].
      assert (id' = id) as -> by congruence.
      rewrite H5; [by rewrite lookup_insert_eq|]. rewrite lookup_insert_eq. eauto.
    + intros id' Hi. assert (id' ≠ id) as Hne.
      { intros ->. apply Hdom in Hi. done. }
      rewrite H5, lookup_insert_ne; [done|done|]. by rewrite lookup_insert_ne.
  - apply NoDup_app. split; [done|]. split; [set_solver|apply NoDup_singleton].
  - intros id'. rewrite elem_of_app, list_elem_of_singleton, Hdom, lookup_insert_is_Some'.
    naive_solver.
  - intros q id' Hq Hqi [Hin|Heq]%elem_of_app.
    + eapply Hfresh; [by apply list_elem_of_further|done|done].
    + apply list_elem_of_singleton in Heq as ->. apply Hnp. rewrite Hid, <-Hqi.
      by apply list_elem_of_fmap_2.
Qed.

(** Building a selector from a peer-set whose peers have distinct
    identifiers. *)
Lemma newRandomPeerSelector_wf peerSet self ps :
  newRandomPeerSelector peerSet self = Ok ps → NoDup (ID <$> Peers peerSet) →
  selector_wf ps ∧
  (∀ p id, p ∈ Peers peerSet → ID p = Ok id → id ≠ self →
     selectablePeersMap ps !! id = Some (mkItem p false)).
Proof.
  unfold newRandomPeerSelector. intros (others & Hex' & H)%res_bind_Ok Hnd.
  apply res_bind_Ok in H as ([m l] & Hf & [= <-]).
  apply ExcludePeer_spec in Hex' as [Ho Hids]. set (ps := others.2) in *.
  assert (NoDup (ID <$> ps)) as Hndo.
  { rewrite Ho. eapply sublist_NoDup; [exact Hnd|]. apply fmap_sublist, sublist_filter. }
  apply selectable_fold in Hf as (H1 & H2 & H3 & H4 & _); [|done|constructor| |set_solver].
  2:{ intros id. rewrite lookup_empty. split; [set_solver|by intros []]. }
  assert (∀ p, p ∈ ps ↔ p ∈ Peers peerSet ∧ ID p ≠ Ok self) as Hin.
  { intros p. rewrite Ho, list_elem_of_filter, <-has_id_spec, not_true_iff_false. tauto. }
  split.
  - split; [done|]. split; [done|]. intros id item Hi. simpl in *.
    apply H3 in Hi as [Hi|(p & Hp & Hid & ->)]; [by rewrite lookup_empty in Hi|].
    apply Hin in Hp as [Hp Hne]. split; [done|]. split; [done|]. simpl. congruence.
  - intros p id Hp Hid Hne. apply H4; [|done]. apply Hin. split; [done|]. congruence.
Qed.

Lemma updateLast_wf ps peer c : selector_wf ps → selector_wf (updateLast ps peer c).2.
Proof.
  intros (Hnd & Hdom & Hit). unfold updateLast.
  destruct (selectablePeersMap ps !! peer) as [item|] eqn:Hp; [|done].
  split; [done|]. split; simpl.
  - intros id. rewrite Hdom, lookup_insert_is_Some'. naive_solver.
  - intros id it. destruct (decide (id = peer)) as [->|Hne].
    + rewrite lookup_insert_eq. intros [= <-]. exact (Hit peer item Hp).
    + rewrite lookup_insert_ne by done. apply Hit.
Qed.

(** With at least one other peer, [next] returns one of them; with two or
    more, not the one it talked to last. *)
Lemma next_selects ps rnd : selector_wf ps → selectablePeersSlice ps ≠ [] →
  ∃ p id, next ps rnd = Ok (Some p) ∧ ID p = Ok id ∧ p ∈ Peers (rps_peers ps) ∧
    id ≠ rps_selfID ps ∧ (1 < zlen (selectablePeersSlice ps) → id ≠ rps_last ps).
Proof.
  intros (Hnd & Hdom & Hit) Hne. unfold next.
  assert (∃ id, id ∈ selectablePeersSlice ps ∧
    (1 < zlen (selectablePeersSlice ps) → id ≠ rps_last ps) ∧
    next ps rnd = match selectablePeersMap ps !! id with
      | Some item => Ok (Some (psi_peer item)) | None => Panic end) as (id & Hin & Hlast & Hnext).
  { unfold next. destruct (selectablePeersSlice ps) as [|id0 ids] eqn:Hs; [done|].
    destruct (1 <? zlen (id0 :: ids)) eqn:Hlen; [|exists id0; split; [set_solver|split; [lia|done]]].
    set (others := filter (λ pid, pid ≠ rps_last ps) (id0 :: ids)).
    assert (others ≠ []) as Hot.
    { destruct ids as [|id1 ids]; [unfold zlen in Hlen; simpl in Hlen; lia|]. intros Hnil.
      assert (∀ x, x ∈ id0 :: id1 :: ids → x = rps_last ps) as Hall.
      { intros x Hx. destruct (decide (x = rps_last ps)) as [|Hxn]; [done|].
        assert (x ∈ others) as Hxo by (apply list_elem_of_filter; done).
        rewrite Hnil in Hxo. set_solver. }
      apply NoDup_cons in Hnd as [Hn0 _]. apply Hn0.
      rewrite (Hall id0), <-(Hall id1) by set_solver. set_solver. }
    unfold rand_Intn. destruct (length others <=? 0)%nat eqn:Hl0.
    { destruct others; [done|]. simpl in Hl0. done. }
    apply Nat.leb_gt in Hl0. simpl.
    destruct (lookup_lt_is_Some_2 others (rnd mod length others)) as [id Hid].
    { apply Nat.mod_upper_bound. lia. }
    rewrite Hid. simpl. apply list_elem_of_lookup_2 in Hid.
    apply list_elem_of_filter in Hid as [Hid1 Hid2]. exists id. done. }
  apply Hdom in Hin as [item Hitem]. unfold next in Hnext. rewrite Hnext, Hitem.
  destruct (Hit id item Hitem) as (Hid & Hp & Hself). by exists (psi_peer item), id.
Qed.
