(* ===== verification/Data.v ===== *)
(** * The data of the hashgraph

    The structures of src/src/hashgraph: internal transactions, block
    signatures, events and their wire form, frames and blocks, and the class
    [Codec] of the JSON encoders that give them their hashes. An encoder sees
    the exported fields only, as [encoding/json] does.

    A nil pointer to an int is [None]. The fields that cache a value computed
    from the others ([Event.creator], [hash], [hex]; [Block.hash], [hex], [peerSet]) are
    recomputed. [Parents] is a pair: every event of the program is built with
    a self-parent and an other-parent, the empty string standing for none. *)
From S2P Require Export Peers LRU.

(** ** Internal transactions (internal_transaction.go) *)
Inductive TransactionType :=
| PEER_ADD
| PEER_REMOVE
| UnknownTransactionType (n : Z).
#[export] Instance TransactionType_eq_dec : EqDecision TransactionType.
Proof. solve_decision. Defined.

Record InternalTransactionBody := mkITBody {
  itb_Type : TransactionType;
  itb_Peer : Peer;
}.
Record InternalTransaction := mkITx {
  itx_Body : InternalTransactionBody;
  itx_Signature : string;
}.
Record InternalTransactionReceipt := mkReceipt {
  itr_InternalTransaction : InternalTransaction;
  itr_Accepted : bool;
}.

(** ** Block signatures (block.go) *)
Record BlockSignature := mkBS {
  bs_Validator : bytes;
  bs_Index : Z;
  bs_Signature : string;
}.
Record WireBlockSignature := mkWBS {
  wbs_Index : Z;
  wbs_Signature : string;
}.

(** ** Events (event.go)

    [Parents] is a slice of two hashes, as every constructor and [ReadWireInfo]
    make it; a decoded event with fewer panics when its parents are asked for,
    and further ones would only enter its hash. *)
Record EventBody := mkEventBody {
  eb_Transactions : slice bytes;
  eb_InternalTransactions : slice InternalTransaction;
  eb_Parents : string * string;
  eb_Creator : bytes;
  eb_Index : Z;
  eb_BlockSignatures : slice BlockSignature;
  eb_Timestamp : Z;
  (* not serialized *)
  eb_creatorID : Z;
  eb_otherParentCreatorID : Z;
  eb_selfParentIndex : Z;
  eb_otherParentIndex : Z;
}.

Record EventCoordinates := mkCoord {
  ec_Hash : string;
  ec_Index : Z;
}.
#[export] Instance EventCoordinates_eq_dec : EqDecision EventCoordinates.
Proof. solve_decision. Defined.

Abbreviation CoordinatesMap := (gmap string EventCoordinates).

Record Event := mkEvent {
  ev_Body : EventBody;
  ev_Signature : string;
  ev_topologicalIndex : Z;
  ev_round : option Z;
  ev_lamportTimestamp : option Z;
  ev_roundReceived : option Z;
  ev_lastAncestors : CoordinatesMap;
  ev_firstDescendants : CoordinatesMap;
}.

Record WireBody := mkWireBody {
  wb_Transactions : slice bytes;
  wb_InternalTransactions : slice InternalTransaction;
  wb_BlockSignatures : slice WireBlockSignature;
  wb_CreatorID : Z;
  wb_OtherParentCreatorID : Z;
  wb_Index : Z;
  wb_SelfParentIndex : Z;
  wb_OtherParentIndex : Z;
  wb_Timestamp : Z;
}.
Record WireEvent := mkWireEvent {
  we_Body : WireBody;
  we_Signature : string;
}.

Record FrameEvent := mkFrameEvent {
  fe_Core : Event;
  fe_Round : Z;
  fe_LamportTimestamp : Z;
  fe_Witness : bool;
}.

(** ** Roots and frames (root.go, frame.go) *)
Record Root := mkRoot { root_Events : list FrameEvent }.

Record Frame := mkFrame {
  fr_Round : Z;
  fr_Peers : list Peer;
  fr_Roots : gmap string Root;
  fr_Events : list FrameEvent;
  fr_PeerSets : gmap Z (list Peer);
  fr_Timestamp : Z;
}.

(** ** Blocks (block.go) *)
Record BlockBody := mkBlockBody {
  bb_Index : Z;
  bb_RoundReceived : Z;
  bb_Timestamp : Z;
  bb_StateHash : bytes;
  bb_FrameHash : bytes;
  bb_PeersHash : bytes;
  bb_Transactions : list bytes;
  bb_InternalTransactions : list InternalTransaction;
  bb_InternalTransactionReceipts : list InternalTransactionReceipt;
}.
Record Block := mkBlock {
  bl_Body : BlockBody;
  bl_Signatures : gmap string string;
}.

(** ** What is serialized *)
Record EventBodyJSON := mkEBJ {
  ebj_Transactions : slice bytes;
  ebj_InternalTransactions : slice InternalTransaction;
  ebj_Parents : string * string;
  ebj_Creator : bytes;
  ebj_Index : Z;
  ebj_BlockSignatures : slice BlockSignature;
  ebj_Timestamp : Z;
}.
Definition eb_public (b : EventBody) : EventBodyJSON :=
  mkEBJ (eb_Transactions b) (eb_InternalTransactions b) (eb_Parents b) (eb_Creator b)
    (eb_Index b) (eb_BlockSignatures b) (eb_Timestamp b).

Record FrameEventJSON := mkFEJ {
  fej_Body : EventBodyJSON;
  fej_Signature : string;
  fej_Round : Z;
  fej_LamportTimestamp : Z;
  fej_Witness : bool;
}.
Definition fe_public (fe : FrameEvent) : FrameEventJSON :=
  mkFEJ (eb_public (ev_Body (fe_Core fe))) (ev_Signature (fe_Core fe)) (fe_Round fe)
    (fe_LamportTimestamp fe) (fe_Witness fe).

Record FrameJSON := mkFJ {
  fj_Round : Z;
  fj_Peers : list Peer;
  fj_Roots : gmap string (list FrameEventJSON);
  fj_Events : list FrameEventJSON;
  fj_PeerSets : gmap Z (list Peer);
  fj_Timestamp : Z;
}.
Definition fr_public (f : Frame) : FrameJSON :=
  mkFJ (fr_Round f) (fr_Peers f) ((λ r, fe_public <$> root_Events r) <$> fr_Roots f)
    (fe_public <$> fr_Events f) (fr_PeerSets f) (fr_Timestamp f).

Class Codec := {
  json_EventBody : EventBodyJSON → res bytes;
  json_InternalTransactionBody : InternalTransactionBody → res bytes;
  json_BlockBody : BlockBody → res bytes;
  json_Frame : FrameJSON → res bytes;
}.
