(* ===== verification/Event.v ===== *)
(** * Internal transactions and events

    Models src/src/hashgraph/internal_transaction.go and event.go: hashing,
    signing and verifying, the wire form, and the two orders of events.
    That an event survives its wire form is in PipelineTheorems
    ([wire_roundtrip]). *)
From S2P Require Export Data.

Section internal_transactions.
Context {KP : Keys} {CP : Codec}.

Definition ITBody_Hash (i : InternalTransactionBody) : res bytes :=
  hashBytes <-- json_InternalTransactionBody i ;; Ok (SHA256 hashBytes).

Definition NewInternalTransaction (tType : TransactionType) (peer : Peer) :
    InternalTransaction :=
  mkITx (mkITBody tType peer) "".
Definition NewInternalTransactionJoin (peer : Peer) := NewInternalTransaction PEER_ADD peer.
Definition NewInternalTransactionLeave (peer : Peer) :=
  NewInternalTransaction PEER_REMOVE peer.

Definition ITx_Sign (t : InternalTransaction) (privKey : Z) : res InternalTransaction :=
  signBytes <-- ITBody_Hash (itx_Body t) ;;
  rs <-- Sign privKey signBytes ;;
  Ok (mkITx (itx_Body t) (EncodeSignature rs.1 rs.2)).

Definition ITx_Verify (t : InternalTransaction) : res bool :=
  pubBytes <-- PubKeyBytes (itb_Peer (itx_Body t)) ;;
  signBytes <-- ITBody_Hash (itx_Body t) ;;
  rs <-- DecodeSignature (itx_Signature t) ;;
  Verify (ToPublicKey pubBytes) signBytes rs.1 rs.2.

(** [HashString] drops the error of the hash. *)
Definition ITx_HashString (t : InternalTransaction) : res string :=
  match ITBody_Hash (itx_Body t) with
  | Ok hash => Ok (String.string_of_list_byte hash)
  | Err _ => Ok ""
  | Panic => Panic
  | OutOfFuel => OutOfFuel
  end.

Definition AsAccepted (t : InternalTransaction) : InternalTransactionReceipt :=
  mkReceipt t true.
Definition AsRefused (t : InternalTransaction) : InternalTransactionReceipt :=
  mkReceipt t false.
End internal_transactions.

(** ** Coordinates *)
Definition NewCoordinatesMap : CoordinatesMap := ∅.
Definition CoordinatesMap_Copy (c : CoordinatesMap) : CoordinatesMap := c.

Section events.
Context {KP : Keys} {CP : Codec}.
Implicit Types (e : Event).

Definition EventBody_Hash (b : EventBody) : res bytes :=
  hashBytes <-- json_EventBody (eb_public b) ;; Ok (SHA256 hashBytes).

(** [time.Now().Unix()] is an argument. *)
Definition NewEvent (transactions : slice bytes)
    (internalTransactions : slice InternalTransaction)
    (blockSignatures : slice BlockSignature) (parents : string * string)
    (creator : bytes) (index : Z) (now : Z) : Event :=
  mkEvent (mkEventBody transactions internalTransactions parents creator index
             blockSignatures now 0 0 0 0)
    "" 0 None None None ∅ ∅.

Definition Creator e : string := EncodeToString (eb_Creator (ev_Body e)).
Definition SelfParent e : string := (eb_Parents (ev_Body e)).1.
Definition OtherParent e : string := (eb_Parents (ev_Body e)).2.
Definition Transactions e : list bytes := elems (eb_Transactions (ev_Body e)).
Definition InternalTransactions e : list InternalTransaction :=
  elems (eb_InternalTransactions (ev_Body e)).
Definition Index e : Z := eb_Index (ev_Body e).
Definition Timestamp e : Z := eb_Timestamp (ev_Body e).
Definition BlockSignatures e : list BlockSignature :=
  elems (eb_BlockSignatures (ev_Body e)).

Definition IsLoaded e : bool :=
  if Index e =? 0 then true
  else
    let hasTransactions := 0 <? zlen (Transactions e) in
    let hasInternalTransactions := 0 <? zlen (InternalTransactions e) in
    hasTransactions || hasInternalTransactions.

Definition Event_Sign e (privKey : Z) : res Event :=
  signBytes <-- EventBody_Hash (ev_Body e) ;;
  rs <-- Sign privKey signBytes ;;
  Ok (mkEvent (ev_Body e) (EncodeSignature rs.1 rs.2) (ev_topologicalIndex e) (ev_round e)
        (ev_lamportTimestamp e) (ev_roundReceived e) (ev_lastAncestors e)
        (ev_firstDescendants e)).

Definition Event_Verify e : res bool :=
  _ <-- res_foldM (λ _ itx,
          ok <-- ITx_Verify itx ;;
          if (ok : bool) then Ok tt
          else Err (EMsg "invalid signature on internal transaction"))
        tt (InternalTransactions e) ;;
  let pubKey := ToPublicKey (eb_Creator (ev_Body e)) in
  signBytes <-- EventBody_Hash (ev_Body e) ;;
  rs <-- DecodeSignature (ev_Signature e) ;;
  Verify pubKey signBytes rs.1 rs.2.

(** [Hex] drops the error of the hash: it is then the encoding of nothing. *)
Definition Hex e : string :=
  match EventBody_Hash (ev_Body e) with
  | Ok hash => EncodeToString hash
  | _ => EncodeToString []
  end.

Definition SetRound e (r : Z) : Event :=
  mkEvent (ev_Body e) (ev_Signature e) (ev_topologicalIndex e) (Some r)
    (ev_lamportTimestamp e) (ev_roundReceived e) (ev_lastAncestors e) (ev_firstDescendants e).
Definition GetRound e : option Z := ev_round e.
Definition SetLamportTimestamp e (t : Z) : Event :=
  mkEvent (ev_Body e) (ev_Signature e) (ev_topologicalIndex e) (ev_round e)
    (Some t) (ev_roundReceived e) (ev_lastAncestors e) (ev_firstDescendants e).
Definition SetRoundReceived e (rr : Z) : Event :=
  mkEvent (ev_Body e) (ev_Signature e) (ev_topologicalIndex e) (ev_round e)
    (ev_lamportTimestamp e) (Some rr) (ev_lastAncestors e) (ev_firstDescendants e).
Definition set_topologicalIndex e (i : Z) : Event :=
  mkEvent (ev_Body e) (ev_Signature e) i (ev_round e)
    (ev_lamportTimestamp e) (ev_roundReceived e) (ev_lastAncestors e) (ev_firstDescendants e).
Definition set_coordinates e (la fd : CoordinatesMap) : Event :=
  mkEvent (ev_Body e) (ev_Signature e) (ev_topologicalIndex e) (ev_round e)
    (ev_lamportTimestamp e) (ev_roundReceived e) la fd.

Definition Event_SetWireInfo e (selfParentIndex otherParentCreatorID otherParentIndex
    creatorID : Z) : Event :=
  let b := ev_Body e in
  mkEvent (mkEventBody (eb_Transactions b) (eb_InternalTransactions b) (eb_Parents b)
             (eb_Creator b) (eb_Index b) (eb_BlockSignatures b) (eb_Timestamp b)
             creatorID otherParentCreatorID selfParentIndex otherParentIndex)
    (ev_Signature e) (ev_topologicalIndex e) (ev_round e) (ev_lamportTimestamp e)
    (ev_roundReceived e) (ev_lastAncestors e) (ev_firstDescendants e).

Definition BS_ToWire (bs : BlockSignature) : WireBlockSignature :=
  mkWBS (bs_Index bs) (bs_Signature bs).

Definition WireBlockSignatures e : slice WireBlockSignature :=
  match eb_BlockSignatures (ev_Body e) with
  | Some sigs => Some (BS_ToWire <$> sigs)
  | None => None
  end.

Definition ToWire e : WireEvent :=
  let b := ev_Body e in
  mkWireEvent
    (mkWireBody (eb_Transactions b) (eb_InternalTransactions b) (WireBlockSignatures e)
       (eb_creatorID b) (eb_otherParentCreatorID b) (eb_Index b) (eb_selfParentIndex b)
       (eb_otherParentIndex b) (eb_Timestamp b))
    (ev_Signature e).

(** [WireEvent.BlockSignatures] *)
Definition WE_BlockSignatures (we : WireEvent) (validator : bytes) : slice BlockSignature :=
  match wb_BlockSignatures (we_Body we) with
  | Some sigs => Some ((λ bs, mkBS validator (wbs_Index bs) (wbs_Signature bs)) <$> sigs)
  | None => None
  end.

(** ** Database form *)
Record eventWrapper := mkWrapper {
  ew_Body : EventBodyJSON;
  ew_Signature : string;
  ew_CreatorID : Z;
  ew_OtherParentCreatorID : Z;
  ew_SelfParentIndex : Z;
  ew_OtherParentIndex : Z;
  ew_TopologicalIndex : Z;
  ew_LastAncestors : CoordinatesMap;
  ew_FirstDescendants : CoordinatesMap;
}.

(** The wrapper that [MarshalDB] hands to the JSON encoder, and the event
    that [UnmarshalDB] makes of a decoded wrapper. *)
Definition MarshalDB e : eventWrapper :=
  let b := ev_Body e in
  mkWrapper (eb_public b) (ev_Signature e) (eb_creatorID b) (eb_otherParentCreatorID b)
    (eb_selfParentIndex b) (eb_otherParentIndex b) (ev_topologicalIndex e)
    (ev_lastAncestors e) (ev_firstDescendants e).

Definition UnmarshalDB (w : eventWrapper) : Event :=
  let b := ew_Body w in
  mkEvent (mkEventBody (ebj_Transactions b) (ebj_InternalTransactions b) (ebj_Parents b)
             (ebj_Creator b) (ebj_Index b) (ebj_BlockSignatures b) (ebj_Timestamp b)
             (ew_CreatorID w) (ew_OtherParentCreatorID w) (ew_SelfParentIndex w)
             (ew_OtherParentIndex w))
    (ew_Signature w) (ew_TopologicalIndex w) None None None
    (ew_LastAncestors w) (ew_FirstDescendants w).

(** ** Orders *)
Definition ByTopologicalOrder_Less (a b : Event) : Prop :=
  ev_topologicalIndex a < ev_topologicalIndex b.

(** The number the ties are broken with: [wsi], nil when the signature does
    not decode. *)
Definition sig_r e : option Z :=
  match DecodeSignature (ev_Signature e) with
  | Ok rs => rs.1
  | _ => None
  end.

(** [SortedFrameEvents.Less]; comparing a nil number panics. *)
Definition FE_Less (a b : FrameEvent) : res bool :=
  if negb (fe_LamportTimestamp a =? fe_LamportTimestamp b) then
    Ok (fe_LamportTimestamp a <? fe_LamportTimestamp b)
  else match sig_r (fe_Core a), sig_r (fe_Core b) with
       | Some wsi, Some wsj => Ok (wsi <? wsj)
       | _, _ => Panic
       end.
End events.
