(* ===== verification/Block.v ===== *)
(** * Roots, frames, blocks and round information

    Models src/src/hashgraph/root.go, frame.go, block.go and roundInfo.go.
    That a block carries the payload of its frame in order is in Commit
    ([NewBlockFromFrame_spec]), that a decided round stays decided in Rounds
    ([WitnessesDecided_le]). *)
From S2P Require Export Event.

(** ** Roots (root.go) *)
Definition NewRoot : Root := mkRoot [].
Definition Root_Insert (r : Root) (frameEvent : FrameEvent) : Root :=
  mkRoot (root_Events r ++ [frameEvent]).

(** ** Frames (frame.go) *)
Section frames.
Context {KP : Keys} {CP : Codec} {RO : RangeOrder}.

(** [sort.Sort] with [SortedFrameEvents.Less] sorts by Lamport timestamp, then
    by the first number of the signature. A comparison of two events with the
    same timestamp dereferences both numbers, and a sort has to compare an
    event with one of those it ties with, so it panics exactly when an event
    with an undecodable signature ties with another one ([fe_sortable]). The
    order of two events that agree on both keys is not specified. *)
Definition fe_sort_key (fe : FrameEvent) : Z * Z :=
  (fe_LamportTimestamp fe, default 0 (sig_r (fe_Core fe))).
Definition fe_le (a b : FrameEvent) : Prop :=
  (fe_sort_key a).1 < (fe_sort_key b).1 ∨
  ((fe_sort_key a).1 = (fe_sort_key b).1 ∧ (fe_sort_key a).2 ≤ (fe_sort_key b).2).
#[export] Instance fe_le_dec a b : Decision (fe_le a b).
Proof. unfold fe_le. apply _. Defined.
Definition fe_decodes (fe : FrameEvent) : bool := bool_decide (is_Some (sig_r (fe_Core fe))).

Definition fe_same_lt (a b : FrameEvent) : bool :=
  fe_LamportTimestamp a =? fe_LamportTimestamp b.
Definition fe_sortable (l : list FrameEvent) : bool :=
  forallb (λ a, fe_decodes a || (zlen (filter (λ b, fe_same_lt a b) l) <=? 1)) l.

(** [sort.Sort] is not stable; events that neither timestamp nor signature
    tells apart keep their order here. Comparing two undecodable signatures
    dereferences nil, which panics. *)
Definition Sort_FrameEvents (l : list FrameEvent) : res (list FrameEvent) :=
  if fe_sortable l then Ok (merge_sort fe_le l) else Panic.

Definition SortedFrameEvents (f : Frame) : res (list FrameEvent) :=
  Sort_FrameEvents (concat ((λ kr, root_Events kr.2) <$> range (fr_Roots f)) ++ fr_Events f).

Definition Frame_Hash (f : Frame) : res bytes :=
  hashBytes <-- json_Frame (fr_public f) ;; Ok (SHA256 hashBytes).

(** ** Blocks (block.go) *)
Definition BlockBody_Hash (bb : BlockBody) : res bytes :=
  hashBytes <-- json_BlockBody bb ;; Ok (SHA256 hashBytes).

Definition ValidatorHex (bs : BlockSignature) : string := EncodeToString (bs_Validator bs).
Definition BS_Key (bs : BlockSignature) : string :=
  pretty (bs_Index bs) +:+ "-" +:+ ValidatorHex bs.

Definition NewBlock (blockIndex roundReceived : Z) (frameHash : bytes) (peerSlice : list Peer)
    (txs : list bytes) (itxs : list InternalTransaction) (timestamp : Z) : res Block :=
  peerSet <-- NewPeerSet peerSlice ;;
  peersHash <-- PS_Hash peerSet ;;
  Ok (mkBlock (mkBlockBody blockIndex roundReceived timestamp [] frameHash peersHash txs itxs [])
        ∅).

Definition NewBlockFromFrame (blockIndex : Z) (frame : Frame) : res Block :=
  frameHash <-- Frame_Hash frame ;;
  let '(transactions, internalTransactions) :=
    foldl (λ '(txs, itxs) e,
        (txs ++ Transactions (fe_Core e), itxs ++ InternalTransactions (fe_Core e)))
      ([], []) (fr_Events frame) in
  NewBlock blockIndex (fr_Round frame) frameHash (fr_Peers frame) transactions
    internalTransactions (fr_Timestamp frame).

Definition Block_Index (b : Block) : Z := bb_Index (bl_Body b).
Definition Block_Timestamp (b : Block) : Z := bb_Timestamp (bl_Body b).
Definition Block_Transactions (b : Block) : list bytes := bb_Transactions (bl_Body b).
Definition Block_InternalTransactions (b : Block) : list InternalTransaction :=
  bb_InternalTransactions (bl_Body b).
Definition Block_InternalTransactionReceipts (b : Block) :
    list InternalTransactionReceipt :=
  bb_InternalTransactionReceipts (bl_Body b).
Definition Block_RoundReceived (b : Block) : Z := bb_RoundReceived (bl_Body b).
Definition Block_StateHash (b : Block) : bytes := bb_StateHash (bl_Body b).
Definition Block_FrameHash (b : Block) : bytes := bb_FrameHash (bl_Body b).
Definition Block_PeersHash (b : Block) : bytes := bb_PeersHash (bl_Body b).

(** The decoding error of a validator's key is dropped; a key of the map that
    is shorter than two characters panics. *)
Definition GetSignatures (b : Block) : res (list BlockSignature) :=
  res_mapM (λ '(val, sig),
      validatorBytes <-- DecodeFromString val ;;
      Ok (mkBS validatorBytes.1 (Block_Index b) sig))
    (range (bl_Signatures b)).

Definition GetSignature (b : Block) (validator : string) : res BlockSignature :=
  match bl_Signatures b !! validator with
  | None => Err (EMsg "signature not found")
  | Some sig =>
      validatorBytes <-- DecodeFromString validator ;;
      Ok (mkBS validatorBytes.1 (Block_Index b) sig)
  end.

Definition AppendTransactions (b : Block) (txs : list bytes) : Block :=
  let bb := bl_Body b in
  mkBlock (mkBlockBody (bb_Index bb) (bb_RoundReceived bb) (bb_Timestamp bb) (bb_StateHash bb)
             (bb_FrameHash bb) (bb_PeersHash bb) (bb_Transactions bb ++ txs)
             (bb_InternalTransactions bb) (bb_InternalTransactionReceipts bb))
    (bl_Signatures b).

(** The private key is its number together with its public point. *)
Definition Block_Sign (b : Block) (privKey : Z * (Z * Z)) : res BlockSignature :=
  signBytes <-- BlockBody_Hash (bl_Body b) ;;
  rs <-- Sign privKey.1 signBytes ;;
  Ok (mkBS (FromPublicKey (Some privKey.2)) (Block_Index b) (EncodeSignature rs.1 rs.2)).

Definition SetSignature (b : Block) (bs : BlockSignature) : Block :=
  mkBlock (bl_Body b) (<[ValidatorHex bs := bs_Signature bs]> (bl_Signatures b)).

Definition Block_Verify (b : Block) (sig : BlockSignature) : res bool :=
  signBytes <-- BlockBody_Hash (bl_Body b) ;;
  let pubKey := ToPublicKey (bs_Validator sig) in
  rs <-- DecodeSignature (bs_Signature sig) ;;
  Verify pubKey signBytes rs.1 rs.2.
End frames.

(** ** Round information (roundInfo.go) *)
Record roundEvent := mkRE {
  re_Witness : bool;
  re_Famous : Trilean;
}.
Record RoundInfo := mkRI_ {
  CreatedEvents : gmap string roundEvent;
  ReceivedEvents : list string;
  ri_queued : bool;
  ri_decided : bool;
}.

Section rounds.
Context {RO : RangeOrder}.
Implicit Types (r : RoundInfo) (x : string).

Definition NewRoundInfo : RoundInfo := mkRI_ ∅ [] false false.

Definition AddCreatedEvent r x (witness : bool) : RoundInfo :=
  match CreatedEvents r !! x with
  | Some _ => r
  | None => mkRI_ (<[x := mkRE witness Undefined]> (CreatedEvents r)) (ReceivedEvents r)
              (ri_queued r) (ri_decided r)
  end.

Definition AddReceivedEvent r x : RoundInfo :=
  mkRI_ (CreatedEvents r) (ReceivedEvents r ++ [x]) (ri_queued r) (ri_decided r).

Definition SetFame r x (f : bool) : RoundInfo :=
  let e := default (mkRE true Undefined) (CreatedEvents r !! x) in
  mkRI_ (<[x := mkRE (re_Witness e) (if f then TTrue else TFalse)]> (CreatedEvents r))
    (ReceivedEvents r) (ri_queued r) (ri_decided r).

(** The loop of [WitnessesDecided]: the count of decided witnesses, or [None]
    when it meets an undecided one. *)
Fixpoint count_decided (l : list (string * roundEvent)) (c : Z) : option Z :=
  match l with
  | [] => Some c
  | (_, e) :: l' =>
      if re_Witness e && bool_decide (re_Famous e ≠ Undefined) then count_decided l' (c + 1)
      else if re_Witness e && bool_decide (re_Famous e = Undefined) then None
      else count_decided l' c
  end.

Definition WitnessesDecided r (peerSet : PeerSet) : bool * RoundInfo :=
  if ri_decided r then (true, r)
  else match count_decided (range (CreatedEvents r)) 0 with
       | None => (false, r)
       | Some c =>
           let d := SuperMajority peerSet <=? c in
           (d, mkRI_ (CreatedEvents r) (ReceivedEvents r) (ri_queued r) d)
       end.

Definition Witnesses r : list string :=
  omap (λ '(x, e), if re_Witness e then Some x else None) (range (CreatedEvents r)).

Definition FamousWitnesses r : list string :=
  omap (λ '(x, e), if re_Witness e && bool_decide (re_Famous e = TTrue) then Some x else None)
    (range (CreatedEvents r)).

Definition IsDecided r x : bool :=
  match CreatedEvents r !! x with
  | Some w => re_Witness w && bool_decide (re_Famous w ≠ Undefined)
  | None => false
  end.

Definition IsQueued r : bool := ri_queued r.
End rounds.
