(* ===== verification/Caches.v ===== *)
(** * The caches of src/src/hashgraph/caches.go

    [ParticipantEventsCache] (a rolling window of event hashes per
    participant), [PeerSetCache] (the peer-sets and the rounds from which they
    hold), [PendingRoundsCache] (the queue of rounds that consensus works on) and
    [SigPool] (block signatures waiting for their block).

    The theorems: the peer-set of a round is the one recorded at the latest
    round not after it ([PSC_Get_governs]), the queue of pending rounds is
    strictly increasing and agrees with its index whatever sequence of calls
    it goes through ([PRC_Set_wf], [PRC_Update_wf], [PRC_Clean_spec]). *)
From S2P Require Export Block RollingIndex.

(** ** ParticipantEventsCache *)
Record ParticipantEventsCache := mkPEC {
  pec_participants : PeerSet;
  pec_rim : RollingIndexMap string;
}.

Definition empty_PeerSet : PeerSet := mkPeerSet [] ∅ ∅.

Definition NewParticipantEventsCache (size : Z) : ParticipantEventsCache :=
  mkPEC empty_PeerSet (NewRollingIndexMap "ParticipantEvents" size).

Definition set_participants (ps : PeerSet) (pec : ParticipantEventsCache) :=
  mkPEC ps (pec_rim pec).
Definition set_rim (r : RollingIndexMap string) (pec : ParticipantEventsCache) :=
  mkPEC (pec_participants pec) r.

Definition PEC_AddPeer (peer : Peer) : M ParticipantEventsCache unit :=
  ps <- gets pec_participants ;;
  participants <- lift (WithNewPeer ps peer) ;;
  modify (set_participants participants) ;;;
  id <- lift (ID peer) ;;
  zoom pec_rim set_rim (RIM_AddKey id).

Definition participantID (pec : ParticipantEventsCache) (participant : string) : res Z :=
  let pUpper := ToUpper participant in
  match ByPubKey (pec_participants pec) !! pUpper with
  | None => Err (NewStoreErr "ParticipantEvents" UnknownParticipant pUpper)
  | Some peer => ID peer
  end.

Definition PEC_Get (pec : ParticipantEventsCache) (participant : string) (skipIndex : Z) :
    res (list string) :=
  id <-- participantID pec participant ;; RIM_Get (pec_rim pec) id skipIndex.

Definition PEC_GetItem (pec : ParticipantEventsCache) (participant : string) (index : Z) :
    res string :=
  id <-- participantID pec participant ;; RIM_GetItem (pec_rim pec) id index.

Definition PEC_GetLast (pec : ParticipantEventsCache) (participant : string) : res string :=
  id <-- participantID pec participant ;; RIM_GetLast (pec_rim pec) id.

Definition PEC_Set (participant hash : string) (index : Z) : M ParticipantEventsCache unit :=
  pec <- get ;;
  id <- lift (participantID pec participant) ;;
  zoom pec_rim set_rim (RIM_Set id hash index).

Definition PEC_Known (pec : ParticipantEventsCache) : gmap Z Z := RIM_Known (pec_rim pec).

(** ** PeerSetCache *)
Record PeerSetCache := mkPSC {
  psc_rounds : list Z;
  psc_peerSets : gmap Z PeerSet;
  repertoireByPubKey : gmap string Peer;
  repertoireByID : gmap Z Peer;
  firstRounds : gmap Z Z;
}.

Definition NewPeerSetCache : PeerSetCache := mkPSC [] ∅ ∅ ∅ ∅.

Definition PSC_add_peer (round : Z) (c : PeerSetCache) (p : Peer) : res PeerSetCache :=
  id <-- ID p ;;
  let fr := firstRounds c !! id in
  Ok (mkPSC (psc_rounds c) (psc_peerSets c)
        (<[PubKeyString p := p]> (repertoireByPubKey c))
        (<[id := p]> (repertoireByID c))
        (if (match fr with None => true | Some fr => round <? fr end)
         then <[id := round]> (firstRounds c) else firstRounds c)).

Definition PSC_Set (round : Z) (peerSet : PeerSet) : M PeerSetCache unit :=
  c <- get ;;
  match psc_peerSets c !! round with
  | Some _ => throw (NewStoreErr "PeerSetCache" KeyAlreadyExists (pretty round))
  | None =>
      let c1 := mkPSC (merge_sort Z.le (psc_rounds c ++ [round]))
                  (<[round := peerSet]> (psc_peerSets c))
                  (repertoireByPubKey c) (repertoireByID c) (firstRounds c) in
      modify (λ _, c1) ;;;
      c2 <- lift (res_foldM (PSC_add_peer round) c1 (Peers peerSet)) ;;
      modify (λ _, c2)
  end.

(** [c.peerSets[r]] for a round of the index; a missing entry is the nil
    pointer, which every caller dereferences. *)
Definition PSC_at (c : PeerSetCache) (r : Z) : res PeerSet :=
  match psc_peerSets c !! r with Some ps => Ok ps | None => Panic end.

(** The loop over consecutive rounds, then the last one. *)
Fixpoint PSC_search (c : PeerSetCache) (round : Z) (rounds : list Z) : res PeerSet :=
  match rounds with
  | [] => Panic
  | [r] => PSC_at c r
  | r :: ((r' :: _) as rest) =>
      if (r <=? round) && (round <? r') then PSC_at c r else PSC_search c round rest
  end.

Definition PSC_Get (c : PeerSetCache) (round : Z) : res PeerSet :=
  match psc_peerSets c !! round with
  | Some ps => Ok ps
  | None =>
      match psc_rounds c with
      | [] => Err (NewStoreErr "PeerSetCache" KeyNotFound (pretty round))
      | r0 :: _ => if round <? r0 then PSC_at c r0 else PSC_search c round (psc_rounds c)
      end
  end.

Definition PSC_GetAll (c : PeerSetCache) : res (gmap Z (list Peer)) :=
  res_foldM (λ m r, ps <-- PSC_at c r ;; Ok (<[r := Peers ps]> m)) ∅ (psc_rounds c).

Definition MaxInt32 : Z := 2147483647.
Definition MinInt32 : Z := -2147483648.

Definition PSC_FirstRound (c : PeerSetCache) (id : Z) : Z * bool :=
  match firstRounds c !! id with
  | Some fr => (fr, true)
  | None => (MaxInt32, false)
  end.

(** ** PendingRoundsCache

    [items] and [sortedItems] hold pointers to the same objects; [Set] is
    only called with a round that is not queued, so a round index names one
    object and [Update] changes the entries with that index. *)
Record PendingRound := mkPR {
  pr_Index : Z;
  pr_Decided : bool;
}.
#[export] Instance PendingRound_eq_dec : EqDecision PendingRound.
Proof. solve_decision. Defined.

Definition pr_le (a b : PendingRound) : Prop := pr_Index a ≤ pr_Index b.
#[export] Instance pr_le_dec a b : Decision (pr_le a b).
Proof. unfold pr_le. apply _. Defined.

#[export] Instance pr_le_total : Total pr_le.
Proof. intros a b. unfold pr_le. lia. Qed.
#[export] Instance pr_le_trans : Transitive pr_le.
Proof. intros a b c. unfold pr_le. lia. Qed.

Record PendingRoundsCache := mkPRC {
  prc_items : gmap Z PendingRound;
  sortedItems : list PendingRound;
}.

Definition NewPendingRoundsCache : PendingRoundsCache := mkPRC ∅ [].

Definition Queued (c : PendingRoundsCache) (round : Z) : bool :=
  match prc_items c !! round with Some _ => true | None => false end.

Definition PRC_Set (c : PendingRoundsCache) (pendingRound : PendingRound) :
    PendingRoundsCache :=
  mkPRC (<[pr_Index pendingRound := pendingRound]> (prc_items c))
    (merge_sort pr_le (sortedItems c ++ [pendingRound])).

Definition GetOrderedPendingRounds (c : PendingRoundsCache) : list PendingRound :=
  sortedItems c.

Definition mark_decided (drn : Z) (c : PendingRoundsCache) : PendingRoundsCache :=
  match prc_items c !! drn with
  | Some dr =>
      mkPRC (<[drn := mkPR (pr_Index dr) true]> (prc_items c))
        ((λ pr, if pr_Index pr =? drn then mkPR (pr_Index pr) true else pr) <$> sortedItems c)
  | None => c
  end.

Definition PRC_Update (c : PendingRoundsCache) (decidedRounds : list Z) : PendingRoundsCache :=
  foldl (λ c drn, mark_decided drn c) c decidedRounds.

Definition PRC_Clean {RO : RangeOrder} (c : PendingRoundsCache) (processedRounds : list Z) :
    PendingRoundsCache :=
  let items := foldl (λ m pr, delete pr m) (prc_items c) processedRounds in
  mkPRC items (merge_sort pr_le ((range items).*2)).

(** ** SigPool *)
Record SigPool := mkSigPool { sp_items : gmap string BlockSignature }.

Definition NewSigPool : SigPool := mkSigPool ∅.
Definition SP_Add (sp : SigPool) (blockSignature : BlockSignature) : SigPool :=
  mkSigPool (<[BS_Key blockSignature := blockSignature]> (sp_items sp)).
Definition SP_Remove (sp : SigPool) (key : string) : SigPool :=
  mkSigPool (delete key (sp_items sp)).
Definition SP_RemoveSlice (sp : SigPool) (sigs : list BlockSignature) : SigPool :=
  foldl (λ sp s, SP_Remove sp (BS_Key s)) sp sigs.
Definition SP_Len (sp : SigPool) : Z := Z.of_nat (size (sp_items sp)).
Definition SP_Items (sp : SigPool) : gmap string BlockSignature := sp_items sp.
Definition SP_Slice {RO : RangeOrder} (sp : SigPool) : list BlockSignature :=
  (range (sp_items sp)).*2.

(** ** Properties of ParticipantEventsCache *)
Section pec.
Implicit Types (pec : ParticipantEventsCache) (c : string).

(** The window of a participant. *)
Definition window pec c : option (RollingIndex string) :=
  match participantID pec c with
  | Ok id => rim_mapping (pec_rim pec) !! id
  | _ => None
  end.

(** Every participant has a well-formed window of its own: no two share an
    identifier. *)
Record pec_ok pec : Prop := mk_pec_ok {
  pec_ps : ps_wf (pec_participants pec);
  pec_inj : ∀ p q id, p ∈ Peers (pec_participants pec) → q ∈ Peers (pec_participants pec) →
    ID p = Ok id → ID q = Ok id → PubKeyString p = PubKeyString q;
  pec_size : 2 ≤ rim_size (pec_rim pec);
  pec_items : ∀ id items, rim_mapping (pec_rim pec) !! id = Some items → ri_wf items;
  pec_ids : ∀ id, is_Some (rim_mapping (pec_rim pec) !! id) ↔
    ∃ p, p ∈ Peers (pec_participants pec) ∧ ID p = Ok id;
}.

Lemma pec_ok_inj pec k1 k2 p1 p2 id : pec_ok pec →
  ByPubKey (pec_participants pec) !! k1 = Some p1 →
  ByPubKey (pec_participants pec) !! k2 = Some p2 →
  ID p1 = Ok id → ID p2 = Ok id → k1 = k2.
Proof.
  intros [(_ & Hby & _) Hinj _ _ _] [H1 <-]%Hby [H2 <-]%Hby Hi1 Hi2. by eapply Hinj.
Qed.

Lemma pec_ok_items pec k p : pec_ok pec → ByPubKey (pec_participants pec) !! k = Some p →
  ∃ id items, ID p = Ok id ∧ rim_mapping (pec_rim pec) !! id = Some items ∧ ri_wf items.
Proof.
  intros [(_ & Hby & Hids & _) _ _ Hitems Hkeys] [Hp _]%Hby.
  destruct (Hids p Hp) as (id & _ & Hid & _).
  destruct (proj2 (Hkeys id)) as [items Hit]; [eauto|]. exists id, items. eauto.
Qed.

Lemma window_wf pec c items : pec_ok pec → window pec c = Some items → ri_wf items.
Proof.
  intros Hok. unfold window, participantID.
  destruct (ByPubKey (pec_participants pec) !! ToUpper c) as [p|] eqn:Hp; [|done].
  destruct (pec_ok_items _ _ _ Hok Hp) as (id & items' & -> & Hm & Hwf). congruence.
Qed.

Lemma participantID_cases pec c : pec_ok pec →
  (∃ id items, participantID pec c = Ok id ∧ window pec c = Some items ∧
     rim_mapping (pec_rim pec) !! id = Some items) ∨
  (∃ e, participantID pec c = Err (NewStoreErr "ParticipantEvents" UnknownParticipant e) ∧
     window pec c = None).
Proof.
  intros Hok. unfold window, participantID.
  destruct (ByPubKey (pec_participants pec) !! ToUpper c) as [p|] eqn:Hp; [|by eauto].
  destruct (pec_ok_items _ _ _ Hok Hp) as (id & items' & Hid & Hm & Hwf). left. exists id, items'.
  by rewrite Hid.
Qed.

Lemma PEC_GetLast_spec pec c : pec_ok pec →
  match window pec c with
  | Some items =>
      match ri_at items (lastIndex items) with
      | Some a => PEC_GetLast pec c = Ok a
      | None => ∃ e, PEC_GetLast pec c = Err e ∧ IsStore e Empty = true
      end
  | None => ∃ e, PEC_GetLast pec c = Err e ∧ IsStore e Empty = false
  end.
Proof.
  intros Hok. unfold PEC_GetLast.
  destruct (participantID_cases pec c Hok) as [(id & items & -> & Hw & Hm)|(e & -> & Hw)];
    rewrite Hw; simpl.
  - rewrite (RIM_GetLast_spec _ _ _ Hm (window_wf _ _ _ Hok Hw)).
    destruct (ri_at _ _); [done|]. by eexists.
  - by eexists.
Qed.

Lemma PEC_GetItem_spec pec c i h : pec_ok pec →
  PEC_GetItem pec c i = Ok h ↔ ∃ items, window pec c = Some items ∧ ri_at items i = Some h.
Proof.
  intros Hok. unfold PEC_GetItem.
  destruct (participantID_cases pec c Hok) as [(id & items & -> & Hw & Hm)|(e & -> & Hw)];
    rewrite Hw; simpl; [|naive_solver].
  unfold RIM_GetItem. rewrite Hm, GetItem_spec.
  destruct (i <? oldest items) eqn:Ho.
  - split; [done|]. intros (? & [= <-] & Hat).
    assert (is_Some (ri_at items i)) as Hs by eauto. apply ri_at_Some in Hs. lia.
  - destruct (ri_at items i) as [a|] eqn:Ha.
    + split; [intros [= <-]; eauto|]. intros (? & [= <-] & Hat). congruence.
    + split; [done|]. intros (? & [= <-] & Hat). congruence.
Qed.

(** Appending a participant's next event. *)
Lemma PEC_Set_spec pec c h i items :
  pec_ok pec → window pec c = Some items → 0 ≤ i →
  lastIndex items = -1 ∨ i = lastIndex items + 1 →
  ∃ pec' items',
    PEC_Set c h i pec = (Ok tt, pec') ∧ pec_ok pec' ∧ window pec' c = Some items' ∧
    lastIndex items' = i ∧ ri_at items' i = Some h ∧
    (∀ j, j < i → ri_at items' j = ri_at items j ∨ ri_at items' j = None) ∧
    (∀ c', ToUpper c' ≠ ToUpper c → window pec' c' = window pec c') ∧
    pec_participants pec' = pec_participants pec.
Proof.
  intros Hok Hw Hi Hnext.
  destruct (participantID_cases pec c Hok) as [(id & items0 & Hid & Hw' & Hm)|(e & _ & Hw')];
    [|congruence].
  rewrite Hw in Hw'. injection Hw' as <-. pose proof (window_wf _ _ _ Hok Hw) as Hwf.
  destruct (RI_Set h i items) as [r items'] eqn:Hset.
  pose proof Hset as Hset'. rewrite (Set_append _ h i Hwf Hnext) in Hset'.
  injection Hset' as <- Hitems. 
  destruct (Set_append_at items h i items' i Hwf Hi Hnext Hset) as [Hli Hat].
  pose proof (Set_append_wf _ _ _ _ Hwf Hi Hnext Hset) as Hwf'.
  destruct (RIM_Set_same id h i (pec_rim pec) items _ _ Hm Hset) as [Hr Hlook].
  exists (mkPEC (pec_participants pec) (RIM_Set id h i (pec_rim pec)).2), items'.
  assert (∀ c' id', participantID pec c' = Ok id' → ToUpper c' ≠ ToUpper c → id' ≠ id) as Hne.
  { intros c' id' Hc' Hcc ->. apply Hcc. unfold participantID in *.
    destruct (ByPubKey _ !! ToUpper c') as [p'|] eqn:Hp'; [|done].
    destruct (ByPubKey _ !! ToUpper c) as [p|] eqn:Hp; [|done].
    exact (pec_ok_inj _ _ _ _ _ _ Hok Hp' Hp Hc' Hid). }
  split.
  { unfold PEC_Set, bind, get, lift, zoom. rewrite Hid.
    destruct (RIM_Set id h i (pec_rim pec)) as [r rim']; simpl in *. by rewrite Hr. }
  split.
  { destruct Hok as [Hps Hinj Hsz Hits Hids]. split; simpl; [done|done| | |].
    - unfold RIM_Set. rewrite Hm, Hset. exact Hsz.
    - intros id' it'. destruct (decide (id' = id)) as [->|Hne'].
      + rewrite Hlook. by intros [= <-].
      + rewrite RIM_Set_other by done. apply Hits.
    - intros id'. rewrite <-Hids. destruct (decide (id' = id)) as [->|Hne'].
      + rewrite Hlook, Hm. by split.
      + by rewrite RIM_Set_other. }
  assert (∀ c', participantID (mkPEC (pec_participants pec) (RIM_Set id h i (pec_rim pec)).2) c'
                = participantID pec c') as Hpid by done.
  split. { unfold window. rewrite Hpid, Hid. simpl. done. }
  split; [done|]. split. { rewrite Hat. by rewrite decide_True. }
  split.
  { intros j Hj. destruct (Set_append_at items h i items' j Hwf Hi Hnext Hset) as [_ Hat'].
    rewrite Hat'. rewrite decide_False by lia. destruct (oldest items' <=? j); auto. }
  split; [|done].
  intros c' Hc'. unfold window. rewrite Hpid. destruct (participantID pec c') as [id'|e| |] eqn:Hc;
    [|done..]. simpl. apply RIM_Set_other. by eapply Hne.
Qed.

(** Adding a participant: the windows there were are kept, the new one is
    empty. *)
Definition pec_extends pec pec' : Prop :=
  pec_ok pec →
  pec_ok pec' ∧
  (∀ c items, window pec c = Some items → window pec' c = Some items) ∧
  (∀ c items, window pec' c = Some items →
     window pec c = Some items ∨ lastIndex items = -1).

#[export] Instance pec_extends_preorder : PreOrder pec_extends.
Proof.
  split.
  - intros pec Hok. auto.
  - intros p1 p2 p3 H12 H23 Hok. destruct (H12 Hok) as (Hok2 & Hk2 & Hn2).
    destruct (H23 Hok2) as (Hok3 & Hk3 & Hn3). split; [done|]. split; [by auto|].
    intros c items Hc. destruct (Hn3 _ _ Hc) as [Hc2|]; [|by auto]. by apply Hn2.
Qed.

Lemma PEC_AddPeer_extends pec peer id :
  ID peer = Ok id → ByID (pec_participants pec) !! id = None →
  pec_extends pec (PEC_AddPeer peer pec).2.
Proof.
  intros Hid Hnone Hok. destruct (Hok) as [Hps Hinj Hsz Hits Hids].
  unfold PEC_AddPeer, bind, gets, lift, modify, zoom.
  destruct (WithNewPeer (pec_participants pec) peer) as [ps'|err| |] eqn:Hnew;
    [|simpl; split; auto..].
  rewrite Hid. destruct (WithNewPeer_wf _ _ _ _ Hps Hid Hnew) as [Hps' Hpeers].
  rewrite Hnone in Hpeers.
  assert (∀ p, p ∈ Peers (pec_participants pec) → ID p ≠ Ok id) as Hfresh.
  { intros p Hp Hpid. destruct Hps as (_ & _ & H & _). destruct (H p Hp) as (? & ? & ? & ?).
    congruence. }
  assert (rim_mapping (pec_rim pec) !! id = None) as Hrim.
  { destruct (rim_mapping (pec_rim pec) !! id) eqn:Hr; [|done]. exfalso.
    destruct (proj1 (Hids id)) as (p & Hp & Hpid); [eauto|]. by eapply Hfresh. }
  simpl. unfold RIM_AddKey. rewrite Hrim. simpl.
  set (new := NewRollingIndex _ _).
  assert (∀ c p, ByPubKey (pec_participants pec) !! c = Some p →
            ByPubKey ps' !! c = Some p) as Hby.
  { intros c p Hp. destruct Hps as (_ & Hb & _), Hps' as (_ & Hb' & _).
    apply Hb in Hp as [Hp Hk]. apply Hb'. rewrite Hpeers. set_solver. }
  assert (∀ c p, ByPubKey ps' !! c = Some p →
            ByPubKey (pec_participants pec) !! c = Some p ∨ p = peer) as Hby'.
  { intros c p Hp. destruct Hps as (_ & Hb & _), Hps' as (_ & Hb' & _).
    apply Hb' in Hp as [Hp Hk]. rewrite Hpeers in Hp. apply elem_of_app in Hp as [Hp|Hp].
    - left. by apply Hb.
    - right. by apply list_elem_of_singleton in Hp. }
  split; [|split].
  - split; simpl; [done| |done| |].
    + intros p q id' Hp Hq Hpi Hqi. rewrite Hpeers in Hp, Hq.
      apply elem_of_app in Hp as [Hp|Hp], Hq as [Hq|Hq];
        try apply list_elem_of_singleton in Hp as ->; try apply list_elem_of_singleton in Hq as ->.
      * by eapply Hinj.
      * exfalso. apply (Hfresh p Hp). congruence.
      * exfalso. apply (Hfresh q Hq). congruence.
      * done.
    + intros id' items. destruct (decide (id' = id)) as [->|Hne].
      * rewrite lookup_insert_eq. intros [= <-]. by apply NewRollingIndex_wf.
      * rewrite lookup_insert_ne by done. apply Hits.
    + intros id'. rewrite Hpeers, lookup_insert_is_Some', Hids. split.
      * intros [<-|(p & Hp & Hpi)]; [exists peer|exists p]; set_solver.
      * intros (p & [Hp|Hp]%elem_of_app & Hpi); [right; eauto|left].
        apply list_elem_of_singleton in Hp as ->. congruence.
  - intros c items Hw. unfold window, participantID in *. simpl.
    destruct (ByPubKey (pec_participants pec) !! ToUpper c) as [p|] eqn:Hp; [|done].
    rewrite (Hby _ _ Hp). destruct (ID p) as [id'|err| |]; [|done..].
    rewrite lookup_insert_ne; [done|]. intros <-. congruence.
  - intros c items Hw. unfold window, participantID in *. simpl in Hw.
    destruct (ByPubKey ps' !! ToUpper c) as [p|] eqn:Hp; [|done].
    destruct (ID p) as [id'|err| |] eqn:Hpi; [|done..].
    destruct (decide (id' = id)) as [->|Hne].
    + rewrite lookup_insert_eq in Hw. injection Hw as <-. by right.
    + rewrite lookup_insert_ne in Hw by done. left.
      destruct (Hby' _ _ Hp) as [->| ->]; [by rewrite Hpi|congruence].
Qed.
End pec.

Lemma NewParticipantEventsCache_ok size : 2 ≤ size → pec_ok (NewParticipantEventsCache size).
Proof.
  intros Hsz. split; simpl; [|set_solver|done| |].
  - split; [constructor|]. split; [|set_solver]. intros k p. simpl.
    rewrite lookup_empty. set_solver.
  - intros id items. by rewrite lookup_empty.
  - intros id. rewrite lookup_empty. split; [by intros []|]. intros (p & Hp & _). set_solver.
Qed.

(** ** Sorted lists of keys *)
Lemma StronglySorted_lt_of_le (l : list Z) :
  StronglySorted Z.le l → NoDup l → StronglySorted Z.lt l.
Proof.
  induction 1 as [|x l Hs IH Hx]; [constructor|]. intros [Hnx Hnd]%NoDup_cons.
  constructor; [auto|]. rewrite Forall_forall in *. intros y Hy. specialize (Hx y Hy).
  assert (x ≠ y) by (intros ->; done). lia.
Qed.

Lemma StronglySorted_fmap {A} (f : A → Z) (R : relation A) l :
  (∀ a b, R a b → f a ≤ f b) → StronglySorted R l → StronglySorted Z.le (f <$> l).
Proof.
  intros HR. induction 1 as [|x l Hs IH Hx]; csimpl; constructor; [done|].
  rewrite Forall_fmap. eapply Forall_impl; [exact Hx|]. intros y. apply HR.
Qed.

Lemma StronglySorted_lt_NoDup (l : list Z) : StronglySorted Z.lt l → NoDup l.
Proof.
  induction 1 as [|x l Hs IH Hx]; constructor; [|done]. intros Hin.
  rewrite Forall_forall in Hx. specialize (Hx x Hin). lia.
Qed.

(** ** Properties of PeerSetCache *)
Section psc.
Implicit Types (c : PeerSetCache).

Definition psc_wf c : Prop :=
  StronglySorted Z.lt (psc_rounds c) ∧
  ∀ r, r ∈ psc_rounds c ↔ is_Some (psc_peerSets c !! r).

Lemma NewPeerSetCache_wf : psc_wf NewPeerSetCache.
Proof.
  split; [constructor|]. intros r. simpl. rewrite lookup_empty. split; [set_solver|by intros []].
Qed.

Lemma PSC_at_spec c r : psc_wf c → r ∈ psc_rounds c →
  ∃ ps, psc_peerSets c !! r = Some ps ∧ PSC_at c r = Ok ps.
Proof. intros [_ Hwf] [ps Hps]%Hwf. exists ps. unfold PSC_at. by rewrite Hps. Qed.

(** The round from which the peer-set of [round] holds. *)
Definition governs c (r round : Z) : Prop :=
  r ∈ psc_rounds c ∧
  ((r ≤ round ∧ ∀ r', r' ∈ psc_rounds c → r' ≤ round → r' ≤ r) ∨
   (round < r ∧ ∀ r', r' ∈ psc_rounds c → r ≤ r')).

Lemma PSC_search_spec c round r0 l :
  StronglySorted Z.lt (r0 :: l) → r0 ≤ round →
  ∃ r, PSC_search c round (r0 :: l) = PSC_at c r ∧ r ∈ r0 :: l ∧ r ≤ round ∧
    ∀ r', r' ∈ r0 :: l → r' ≤ round → r' ≤ r.
Proof.
  revert r0. induction l as [|r1 l IH]; intros r0 Hs Hr0.
  { exists r0. split; [done|]. split; [set_solver|]. split; [done|]. set_solver. }
  apply StronglySorted_inv in Hs as [Hs Hlt]. rewrite Forall_forall in Hlt.
  change (PSC_search c round (r0 :: r1 :: l)) with
    (if (r0 <=? round) && (round <? r1) then PSC_at c r0 else PSC_search c round (r1 :: l)).
  destruct (round <? r1) eqn:Hr1.
  - rewrite (proj2 (Z.leb_le _ _)) by done. simpl. exists r0. split; [done|].
    split; [set_solver|]. split; [done|]. intros r' [->|Hin]%elem_of_cons Hle; [done|].
    exfalso. assert (r1 ≤ r'); [|lia]. apply elem_of_cons in Hin as [->|Hin]; [done|].
    apply StronglySorted_inv in Hs as [_ Hs]. rewrite Forall_forall in Hs.
    specialize (Hs r' Hin). lia.
  - rewrite andb_false_r. destruct (IH r1 Hs) as (r & Hr & Hin & Hle & Hmax); [lia|].
    exists r. split; [done|]. split; [set_solver|]. split; [done|].
    intros r' [->|Hin']%elem_of_cons Hle'; [|by apply Hmax].
    specialize (Hlt r Hin). lia.
Qed.

(** The peer-set of a round is the one recorded at the latest round not after
    it; before the first recorded round, the first one. *)
Lemma PSC_Get_governs c round : psc_wf c → psc_rounds c ≠ [] →
  ∃ r ps, governs c r round ∧ psc_peerSets c !! r = Some ps ∧ PSC_Get c round = Ok ps.
Proof.
  intros Hwf Hne. unfold PSC_Get. destruct (psc_peerSets c !! round) as [ps|] eqn:Hround.
  { exists round, ps. split; [|done]. assert (round ∈ psc_rounds c) by (apply Hwf; eauto).
    split; [done|]. left. split; [lia|]. auto. }
  destruct (Hwf) as [Hs _]. unfold governs. destruct (psc_rounds c) as [|r0 l] eqn:Hrs; [done|].
  destruct (round <? r0) eqn:Hlt.
  - destruct (PSC_at_spec c r0 Hwf) as (ps & Hps & ->); [rewrite Hrs; set_solver|].
    exists r0, ps. split; [|done]. split; [set_solver|]. right. split; [lia|].
    intros r' [->|Hin]%elem_of_cons; [done|]. apply StronglySorted_inv in Hs as [_ Hs].
    rewrite Forall_forall in Hs. specialize (Hs r' Hin). lia.
  - destruct (PSC_search_spec c round r0 l Hs) as (r & -> & Hin & Hle & Hmax); [lia|].
    destruct (PSC_at_spec c r Hwf) as (ps & Hps & ->); [by rewrite Hrs|].
    exists r, ps. split; [|done]. split; [done|]. left. auto.
Qed.

Lemma governs_unique c r r' round : governs c r round → governs c r' round → r = r'.
Proof.
  intros [Hr [[Hle Hmax]|[Hlt Hmin]]] [Hr' [[Hle' Hmax']|[Hlt' Hmin']]].
  - specialize (Hmax r' Hr' Hle'). specialize (Hmax' r Hr Hle). lia.
  - specialize (Hmin' r Hr). lia.
  - specialize (Hmin r' Hr'). lia.
  - specialize (Hmin r' Hr'). specialize (Hmin' r Hr). lia.
Qed.

Lemma PSC_Get_iff c round ps : psc_wf c → psc_rounds c ≠ [] →
  PSC_Get c round = Ok ps ↔ ∃ r, governs c r round ∧ psc_peerSets c !! r = Some ps.
Proof.
  intros Hwf Hne. destruct (PSC_Get_governs c round Hwf Hne) as (r & ps' & Hg & Hps & ->).
  split; [intros [= <-]; eauto|]. intros (r' & Hg' & Hps').
  assert (r' = r) as -> by (by eapply governs_unique). congruence.
Qed.

(** Recording a peer-set touches the repertoires only after the table. *)
Lemma PSC_add_peers_table round l : ∀ c c', res_foldM (PSC_add_peer round) c l = Ok c' →
  psc_rounds c' = psc_rounds c ∧ psc_peerSets c' = psc_peerSets c.
Proof.
  induction l as [|p l IH]; intros c c'; simpl; [by intros [= <-]|].
  intros (c1 & (id & Hid & [= <-])%res_bind_Ok & [H1 H2]%IH)%res_bind_Ok.
  simpl in *. done.
Qed.

Lemma PSC_Set_table round ps c : psc_peerSets c !! round = None →
  psc_rounds (PSC_Set round ps c).2 = merge_sort Z.le (psc_rounds c ++ [round]) ∧
  psc_peerSets (PSC_Set round ps c).2 = <[round := ps]> (psc_peerSets c).
Proof.
  intros Hnone. unfold PSC_Set, bind, get, modify, lift. rewrite Hnone.
  destruct (res_foldM (PSC_add_peer round) _ (Peers ps)) as [c2|err| |] eqn:Hf; [|done..].
  by apply PSC_add_peers_table in Hf.
Qed.

Lemma PSC_Set_wf round ps c : psc_wf c → psc_wf (PSC_Set round ps c).2.
Proof.
  intros Hwf. destruct (psc_peerSets c !! round) as [ps0|] eqn:Hround.
  { unfold PSC_Set, bind, get. by rewrite Hround. }
  destruct (PSC_Set_table round ps c Hround) as [Hrs Hps].
  destruct (Hwf) as [Hs Hdom]. split; rewrite ?Hrs, ?Hps.
  - apply StronglySorted_lt_of_le; [apply StronglySorted_merge_sort; apply _|].
    rewrite merge_sort_Permutation. apply NoDup_app.
    split; [by apply StronglySorted_lt_NoDup|]. split; [|apply NoDup_singleton].
    intros r Hin ->%list_elem_of_singleton. apply Hdom in Hin as [? ?]. congruence.
  - intros r. rewrite merge_sort_Permutation, elem_of_app, list_elem_of_singleton, Hdom,
      lookup_insert_is_Some'. naive_solver.
Qed.

(** Recording a peer-set for a round after all the recorded ones decides the
    rounds from there on and leaves the earlier ones alone. *)
Lemma PSC_Set_later round ps c : psc_wf c → psc_rounds c ≠ [] →
  (∀ r, r ∈ psc_rounds c → r < round) →
  ∀ q, PSC_Get (PSC_Set round ps c).2 q = if round <=? q then Ok ps else PSC_Get c q.
Proof.
  intros Hwf Hne Hlast q.
  assert (psc_peerSets c !! round = None) as Hround.
  { destruct (psc_peerSets c !! round) eqn:Hr; [|done]. exfalso.
    assert (round ∈ psc_rounds c) as Hin by (apply Hwf; eauto). specialize (Hlast _ Hin). lia. }
  destruct (PSC_Set_table round ps c Hround) as [Hrs Hps].
  pose proof (PSC_Set_wf round ps c Hwf) as Hwf'. set (c' := (PSC_Set round ps c).2) in *.
  assert (∀ r, r ∈ psc_rounds c' ↔ r ∈ psc_rounds c ∨ r = round) as Hin.
  { intros r. rewrite Hrs, merge_sort_Permutation, elem_of_app. set_solver. }
  assert (psc_rounds c' ≠ []) as Hne'.
  { intros Hnil. assert (round ∈ psc_rounds c') as H0 by (apply Hin; auto).
    rewrite Hnil in H0. set_solver. }
  destruct (round <=? q) eqn:Hq.
  - apply (PSC_Get_iff c' q ps Hwf' Hne'). exists round. rewrite Hps, lookup_insert_eq.
    split; [|done]. split; [apply Hin; auto|]. left. split; [lia|].
    intros r' [Hr'| ->]%Hin _; [|lia]. specialize (Hlast r' Hr'). lia.
  - destruct (PSC_Get_governs c q Hwf Hne) as (r & ps' & [Hr Hg] & Hps' & ->).
    apply (PSC_Get_iff c' q ps' Hwf' Hne'). exists r. pose proof (Hlast r Hr).
    rewrite Hps, lookup_insert_ne by lia. split; [|done]. split; [apply Hin; auto|].
    destruct Hg as [[Hle Hmax]|[Hlt Hmin]]; [left|right].
    + split; [done|]. intros r' [Hr'| ->]%Hin Hle'; [by apply Hmax|lia].
    + split; [done|]. intros r' [Hr'| ->]%Hin; [by apply Hmin|lia].
Qed.
End psc.

(** ** Properties of PendingRoundsCache *)
Section prc.
Context {RO : RangeOrder}.
Implicit Types (c : PendingRoundsCache).

(** The queue is strictly increasing and holds exactly the indexed rounds. *)
Definition prc_wf c : Prop :=
  StronglySorted Z.lt (pr_Index <$> sortedItems c) ∧
  (∀ pr, pr ∈ sortedItems c ↔ prc_items c !! pr_Index pr = Some pr) ∧
  (∀ i pr, prc_items c !! i = Some pr → pr_Index pr = i).

Lemma NewPendingRoundsCache_wf : prc_wf NewPendingRoundsCache.
Proof.
  split; [constructor|]. split.
  - intros pr. simpl. rewrite lookup_empty. set_solver.
  - intros i pr. simpl. by rewrite lookup_empty.
Qed.

(** A sorted list of the entries of an index is a well-formed queue. *)
Lemma sort_entries_wf (items : gmap Z PendingRound) (l : list PendingRound) :
  (∀ i pr, items !! i = Some pr → pr_Index pr = i) →
  NoDup (pr_Index <$> l) → (∀ pr, pr ∈ l ↔ items !! pr_Index pr = Some pr) →
  prc_wf (mkPRC items (merge_sort pr_le l)).
Proof.
  intros Hkey Hnd Hin. split; [|split; [|done]]; simpl.
  - apply StronglySorted_lt_of_le; [|by rewrite merge_sort_Permutation].
    apply (StronglySorted_fmap _ pr_le); [done|].
    apply StronglySorted_merge_sort; apply _.
  - intros pr. by rewrite merge_sort_Permutation.
Qed.

Lemma PRC_Set_wf c pr : prc_wf c → Queued c (pr_Index pr) = false → prc_wf (PRC_Set c pr).
Proof.
  intros (Hs & Hin & Hkey) Hq. unfold Queued in Hq.
  destruct (prc_items c !! pr_Index pr) eqn:Hnone; [done|]. apply sort_entries_wf.
  - intros i q. destruct (decide (i = pr_Index pr)) as [->|Hne].
    + rewrite lookup_insert_eq. by intros [= <-].
    + rewrite lookup_insert_ne by done. apply Hkey.
  - rewrite fmap_app. apply NoDup_app. split; [by apply StronglySorted_lt_NoDup|].
    split; [|apply NoDup_singleton]. intros i (q & -> & Hq')%list_elem_of_fmap Hpr.
    apply list_elem_of_singleton in Hpr. apply Hin in Hq'. congruence.
  - intros q. rewrite elem_of_app, list_elem_of_singleton, Hin.
    destruct (decide (pr_Index q = pr_Index pr)) as [Heq|Hne].
    + rewrite Heq, lookup_insert_eq, Hnone. naive_solver.
    + rewrite lookup_insert_ne by done. split; [|auto]. intros [?| ->]; done.
Qed.

Lemma mark_decided_wf drn c : prc_wf c → prc_wf (mark_decided drn c).
Proof.
  intros (Hs & Hin & Hkey). unfold mark_decided.
  destruct (prc_items c !! drn) as [dr|] eqn:Hdr; [|done].
  pose proof (Hkey _ _ Hdr) as Hidx. split; [|split]; simpl.
  - rewrite <-list_fmap_compose. erewrite list_fmap_ext; [exact Hs|].
    intros i q _. simpl. by case_match.
  - intros q. rewrite list_elem_of_fmap. split.
    + intros (q0 & -> & Hq0). apply Hin in Hq0. destruct (Z.eqb_spec (pr_Index q0) drn) as [Heq|Hne].
      * simpl. rewrite Heq, lookup_insert_eq. congruence.
      * by rewrite lookup_insert_ne.
    + destruct (decide (pr_Index q = drn)) as [Heq|Hne].
      * rewrite Heq, lookup_insert_eq. intros [= <-]. exists dr. simpl in *.
        rewrite Heq, Z.eqb_refl. split; [done|]. apply Hin. congruence.
      * rewrite lookup_insert_ne by done. intros Hq. exists q.
        rewrite (proj2 (Z.eqb_neq _ _)) by done. split; [done|]. by apply Hin.
  - intros i q. destruct (decide (i = drn)) as [->|Hne].
    + rewrite lookup_insert_eq. intros [= <-]. done.
    + rewrite lookup_insert_ne by done. apply Hkey.
Qed.

Lemma PRC_Update_wf c l : prc_wf c → prc_wf (PRC_Update c l).
Proof.
  unfold PRC_Update. revert c. induction l as [|r l IH]; intros c Hwf; simpl; [done|].
  apply IH. by apply mark_decided_wf.
Qed.

Lemma foldl_delete_lookup (l : list Z) (m : gmap Z PendingRound) i :
  foldl (λ m pr, delete pr m) m l !! i = if decide (i ∈ l) then None else m !! i.
Proof.
  revert m. induction l as [|r l IH]; intros m; simpl.
  { done. }
  rewrite IH. destruct (decide (i = r)) as [->|Hne].
  - rewrite lookup_delete_eq, (decide_True (P:=r ∈ r :: l)) by set_solver. by case_decide.
  - rewrite lookup_delete_ne by done. destruct (decide (i ∈ l)) as [Hi|Hi].
    + by rewrite decide_True by set_solver.
    + by rewrite decide_False by set_solver.
Qed.

(** Cleaning removes exactly the processed rounds. *)
Lemma PRC_Clean_spec c l : prc_wf c →
  prc_wf (PRC_Clean c l) ∧
  ∀ pr, pr ∈ sortedItems (PRC_Clean c l) ↔ pr ∈ sortedItems c ∧ pr_Index pr ∉ l.
Proof.
  intros (Hs & Hin & Hkey). unfold PRC_Clean.
  set (items := foldl (λ m pr, delete pr m) (prc_items c) l).
  assert (∀ i pr, items !! i = Some pr ↔ prc_items c !! i = Some pr ∧ i ∉ l) as Hitems.
  { intros i pr. unfold items. rewrite foldl_delete_lookup. case_decide; naive_solver. }
  assert (∀ pr, pr ∈ (range items).*2 ↔ items !! pr_Index pr = Some pr) as Hrange.
  { intros pr. rewrite list_elem_of_fmap. split.
    - intros ([i q] & -> & Hiq). rewrite (range_perm items), elem_of_map_to_list in Hiq. simpl.
      pose proof Hiq as Hiq'. apply Hitems in Hiq' as [Hk _]. by rewrite (Hkey _ _ Hk).
    - intros Hpr. exists (pr_Index pr, pr). split; [done|].
      by rewrite (range_perm items), elem_of_map_to_list. }
  assert (prc_wf (mkPRC items (merge_sort pr_le (range items).*2))) as Hwf.
  { apply sort_entries_wf.
    - intros i pr [Hi _]%Hitems. by apply Hkey.
    - assert ((range items).*1 = pr_Index <$> (range items).*2) as <-.
      { rewrite <-list_fmap_compose. apply list_fmap_ext. intros j [i q] Hj. simpl.
        assert ((i, q) ∈ range items) as Hiq by (by eapply list_elem_of_lookup_2).
        rewrite (range_perm items), elem_of_map_to_list in Hiq. apply Hitems in Hiq as [Hk _].
        by rewrite (Hkey _ _ Hk). }
      rewrite (range_perm items). apply NoDup_fst_map_to_list.
    - exact Hrange. }
  split; [done|]. intros pr. destruct (Hwf) as (_ & Hin' & _). rewrite Hin', Hin. apply Hitems.
Qed.
End prc.
