(* ===== verification/Store.v ===== *)
(** * The Store interface (src/src/hashgraph/store.go)

    [Store St] is the interface, with the same methods; the reads that go
    through an LRU cache are stateful, because they change what is evicted
    next.

    Go returns pointers: [ev, err := Store.GetEvent(h)] followed by
    [ev.SetRound(r)] changes the object the store holds, whether or not
    [Store.SetEvent(ev)] follows. [mutEvent], [mutRound] and [mutBlock] are
    those writes: they change the object that the last [Get] of that key
    returned, if the store still holds it.

    [StoreLaws] states what the clients rely on: what a [Get] returns is
    what the abstract view of the store records, and how the view changes. *)
From S2P Require Export Caches.

Class Store (St : Type) := {
  CacheSize : St → Z;
  GetPeerSet : St → Z → res PeerSet;
  SetPeerSet : Z → PeerSet → M St unit;
  GetAllPeerSets : St → res (gmap Z (list Peer));
  FirstRound : St → Z → Z * bool;
  RepertoireByPubKey : St → gmap string Peer;
  RepertoireByID : St → gmap Z Peer;
  GetEvent : string → M St Event;
  SetEvent : Event → M St unit;
  ParticipantEvents : St → string → Z → res (list string);
  ParticipantEvent : St → string → Z → res string;
  LastEventFrom : St → string → res string;
  LastConsensusEventFrom : St → string → string;
  KnownEvents : St → gmap Z Z;
  ConsensusEvents : St → list string;
  ConsensusEventsCount : St → Z;
  AddConsensusEvent : Event → M St unit;
  GetRoundInfo : Z → M St RoundInfo;
  SetRoundInfo : Z → RoundInfo → M St unit;
  LastRound : St → Z;
  RoundWitnesses : Z → M St (list string);
  RoundEvents : Z → M St Z;
  GetRoot : St → string → res Root;
  GetBlock : Z → M St Block;
  SetBlock : Block → M St unit;
  LastBlockIndex : St → Z;
  GetFrame : Z → M St Frame;
  SetFrame : Frame → M St unit;
  Store_Reset : Frame → M St unit;
  mutEvent : string → (Event → Event) → St → St;
  mutRound : Z → (RoundInfo → RoundInfo) → St → St;
  mutBlock : Z → (Block → Block) → St → St;
}.

(** ** The contract

    [StoreView] is the abstract content of a store; recency in the caches is
    not part of it. *)
Record StoreView := mkView {
  v_size : Z;
  v_events : gmap string Event;
  v_rounds : gmap Z RoundInfo;
  v_blocks : gmap Z Block;
  v_frames : gmap Z Frame;
  v_psc : PeerSetCache;
  v_pec : ParticipantEventsCache;
  v_lastRound : Z;
  v_lastBlock : Z;
}.

Definition with_events m v :=
  mkView (v_size v) m (v_rounds v) (v_blocks v) (v_frames v) (v_psc v) (v_pec v)
    (v_lastRound v) (v_lastBlock v).
Definition with_rounds m v :=
  mkView (v_size v) (v_events v) m (v_blocks v) (v_frames v) (v_psc v) (v_pec v)
    (v_lastRound v) (v_lastBlock v).
Definition with_blocks m v :=
  mkView (v_size v) (v_events v) (v_rounds v) m (v_frames v) (v_psc v) (v_pec v)
    (v_lastRound v) (v_lastBlock v).
Definition with_frames m v :=
  mkView (v_size v) (v_events v) (v_rounds v) (v_blocks v) m (v_psc v) (v_pec v)
    (v_lastRound v) (v_lastBlock v).
Definition with_pec c v :=
  mkView (v_size v) (v_events v) (v_rounds v) (v_blocks v) (v_frames v) (v_psc v) c
    (v_lastRound v) (v_lastBlock v).
Definition with_lastRound r v :=
  mkView (v_size v) (v_events v) (v_rounds v) (v_blocks v) (v_frames v) (v_psc v) (v_pec v)
    r (v_lastBlock v).
Definition with_lastBlock b v :=
  mkView (v_size v) (v_events v) (v_rounds v) (v_blocks v) (v_frames v) (v_psc v) (v_pec v)
    (v_lastRound v) b.

(** The answer of a [Get]: the recorded value, or a not-found error. *)
Definition found {A} (o : option A) (r : res A) : Prop :=
  match o with
  | Some a => r = Ok a
  | None => ∃ err, r = Err err ∧ IsStore err KeyNotFound = true
  end.

(** Writing [k] in a bounded map: nothing but [k] changes, except that other
    entries may be forgotten once the map is full, and then it is still
    full. *)
Definition bounded_insert {K V} `{Countable K} (n : Z) (k : K) (v : V) (m m' : gmap K V) : Prop :=
  m' ⊆ <[k := v]> m ∧ m' !! k = Some v ∧
  (is_Some (m !! k) ∨ Z.of_nat (size m) < n → m' = <[k := v]> m) ∧
  (Z.of_nat (size m') < n → m' = <[k := v]> m).

(** Recording a peer-set: participants may be added, and a frame that shares
    its map of roots with the store may gain roots; nothing else changes. *)
Definition peers_step (v v' : StoreView) : Prop :=
  v_size v' = v_size v ∧ v_events v' = v_events v ∧ v_rounds v' = v_rounds v ∧
  v_blocks v' = v_blocks v ∧ v_lastRound v' = v_lastRound v ∧ v_lastBlock v' = v_lastBlock v ∧
  fr_Round <$> v_frames v' = fr_Round <$> v_frames v ∧
  pec_extends (v_pec v) (v_pec v').

#[export] Instance peers_step_preorder : PreOrder peers_step.
Proof.
  split.
  - intros v. unfold peers_step. do 7 (split; [done|]). reflexivity.
  - intros v1 v2 v3 (? & ? & ? & ? & ? & ? & ? & H12) (? & ? & ? & ? & ? & ? & ? & H23).
    unfold peers_step. do 7 (split; [congruence|]). by transitivity (v_pec v2).
Qed.

Class StoreLaws {KP : Keys} {CP : Codec} (St : Type) {STO : Store St} := {
  st_ok : St → Prop;
  store_view : St → StoreView;

  (** reads: the answer comes from the view, which does not change *)
  GetEvent_law : ∀ k s, st_ok s →
    st_ok (GetEvent k s).2 ∧ store_view (GetEvent k s).2 = store_view s ∧
    found (v_events (store_view s) !! k) (GetEvent k s).1;
  GetRound_law : ∀ r s, st_ok s →
    st_ok (GetRoundInfo r s).2 ∧ store_view (GetRoundInfo r s).2 = store_view s ∧
    found (v_rounds (store_view s) !! r) (GetRoundInfo r s).1;
  GetBlock_law : ∀ i s, st_ok s →
    st_ok (GetBlock i s).2 ∧ store_view (GetBlock i s).2 = store_view s ∧
    found (v_blocks (store_view s) !! i) (GetBlock i s).1;
  GetFrame_law : ∀ i s, st_ok s →
    st_ok (GetFrame i s).2 ∧ store_view (GetFrame i s).2 = store_view s ∧
    found (v_frames (store_view s) !! i) (GetFrame i s).1;
  CacheSize_law : ∀ s, CacheSize s = v_size (store_view s);
  GetPeerSet_law : ∀ s r, GetPeerSet s r = PSC_Get (v_psc (store_view s)) r;
  RepertoireByPubKey_law : ∀ s,
    RepertoireByPubKey s = repertoireByPubKey (v_psc (store_view s));
  RepertoireByID_law : ∀ s, RepertoireByID s = repertoireByID (v_psc (store_view s));
  LastEventFrom_law : ∀ s c, LastEventFrom s c = PEC_GetLast (v_pec (store_view s)) c;
  ParticipantEvent_law : ∀ s c i h,
    PEC_GetItem (v_pec (store_view s)) c i = Ok h → ParticipantEvent s c i = Ok h;
  LastRound_law : ∀ s, LastRound s = v_lastRound (store_view s);
  LastBlockIndex_law : ∀ s, LastBlockIndex s = v_lastBlock (store_view s);

  (** writes *)
  SetPeerSet_law : ∀ r ps s, st_ok s →
    st_ok (SetPeerSet r ps s).2 ∧
    peers_step (store_view s) (store_view (SetPeerSet r ps s).2) ∧
    v_psc (store_view (SetPeerSet r ps s).2) = (PSC_Set r ps (v_psc (store_view s))).2;
  SetEvent_known_law : ∀ e s, st_ok s → is_Some (v_events (store_view s) !! Hex e) →
    (SetEvent e s).1 = Ok tt ∧ st_ok (SetEvent e s).2 ∧
    store_view (SetEvent e s).2 =
      with_events (<[Hex e := e]> (v_events (store_view s))) (store_view s);
  SetEvent_new_law : ∀ e s r pec, st_ok s → v_events (store_view s) !! Hex e = None →
    PEC_Set (Creator e) (Hex e) (Index e) (v_pec (store_view s)) = (r, pec) →
    (SetEvent e s).1 = r ∧ st_ok (SetEvent e s).2 ∧
    match r with
    | Ok _ => ∃ evs,
        bounded_insert (v_size (store_view s)) (Hex e) e (v_events (store_view s)) evs ∧
        store_view (SetEvent e s).2 = with_events evs (with_pec pec (store_view s))
    | _ => store_view (SetEvent e s).2 = with_pec pec (store_view s)
    end;
  SetRound_law : ∀ r ri s, st_ok s →
    (SetRoundInfo r ri s).1 = Ok tt ∧ st_ok (SetRoundInfo r ri s).2 ∧
    ∃ rds,
      bounded_insert (v_size (store_view s)) r ri (v_rounds (store_view s)) rds ∧
      store_view (SetRoundInfo r ri s).2 =
        with_lastRound (Z.max (v_lastRound (store_view s)) r)
          (with_rounds rds (store_view s));
  SetBlock_law : ∀ b s, st_ok s →
    (SetBlock b s).1 = Ok tt ∧ st_ok (SetBlock b s).2 ∧
    ∃ bls,
      bounded_insert (v_size (store_view s)) (Block_Index b) b (v_blocks (store_view s)) bls ∧
      store_view (SetBlock b s).2 =
        with_lastBlock (Z.max (v_lastBlock (store_view s)) (Block_Index b))
          (with_blocks bls (store_view s));
  SetFrame_law : ∀ f s, st_ok s →
    (SetFrame f s).1 = Ok tt ∧ st_ok (SetFrame f s).2 ∧
    ∃ frs,
      bounded_insert (v_size (store_view s)) (fr_Round f) f (v_frames (store_view s)) frs ∧
      store_view (SetFrame f s).2 = with_frames frs (store_view s);
  AddConsensusEvent_law : ∀ e s, st_ok s →
    st_ok (AddConsensusEvent e s).2 ∧
    store_view (AddConsensusEvent e s).2 = store_view s;
  mutEvent_law : ∀ k f s, st_ok s →
    st_ok (mutEvent k f s) ∧
    store_view (mutEvent k f s) =
      with_events (alter f k (v_events (store_view s))) (store_view s);
  mutRound_law : ∀ k f s, st_ok s →
    st_ok (mutRound k f s) ∧
    store_view (mutRound k f s) =
      with_rounds (alter f k (v_rounds (store_view s))) (store_view s);
  mutBlock_law : ∀ k f s, st_ok s →
    st_ok (mutBlock k f s) ∧
    store_view (mutBlock k f s) =
      with_blocks (alter f k (v_blocks (store_view s))) (store_view s);
}.
