(* ===== verification/InmemStore.v ===== *)
(** * InmemStore (src/src/hashgraph/inmem_store.go)

    [Reset] installs the [Roots] map of the frame as the map of roots of the
    store and then stores that frame: from then on the two are one map, and a
    participant added to the store appears in the cached frame too.
    [sharedRoots] is the round of the frame whose map is shared. *)
From S2P Require Export Store.

Record InmemStore := mkInmem {
  cacheSize : Z;
  eventCache : LRU string Event;
  roundCache_ : LRU Z RoundInfo;
  blockCache : LRU Z Block;
  frameCache : LRU Z Frame;
  consensusCache : RollingIndex string;
  totConsensusEvents : Z;
  peerSetCache : PeerSetCache;
  participantEventsCache : ParticipantEventsCache;
  roots : gmap string Root;
  lastRound : Z;
  lastConsensusEvents : gmap string string;
  lastBlock : Z;
  sharedRoots : option Z;
}.

(** Field updates *)
Definition set_eventCache c s :=
  mkInmem (cacheSize s) c (roundCache_ s) (blockCache s) (frameCache s) (consensusCache s)
    (totConsensusEvents s) (peerSetCache s) (participantEventsCache s) (roots s) (lastRound s)
    (lastConsensusEvents s) (lastBlock s) (sharedRoots s).
Definition set_roundCache_ c s :=
  mkInmem (cacheSize s) (eventCache s) c (blockCache s) (frameCache s) (consensusCache s)
    (totConsensusEvents s) (peerSetCache s) (participantEventsCache s) (roots s) (lastRound s)
    (lastConsensusEvents s) (lastBlock s) (sharedRoots s).
Definition set_blockCache c s :=
  mkInmem (cacheSize s) (eventCache s) (roundCache_ s) c (frameCache s) (consensusCache s)
    (totConsensusEvents s) (peerSetCache s) (participantEventsCache s) (roots s) (lastRound s)
    (lastConsensusEvents s) (lastBlock s) (sharedRoots s).
Definition set_frameCache c s :=
  mkInmem (cacheSize s) (eventCache s) (roundCache_ s) (blockCache s) c (consensusCache s)
    (totConsensusEvents s) (peerSetCache s) (participantEventsCache s) (roots s) (lastRound s)
    (lastConsensusEvents s) (lastBlock s) (sharedRoots s).
Definition set_consensus c n lce s :=
  mkInmem (cacheSize s) (eventCache s) (roundCache_ s) (blockCache s) (frameCache s) c
    n (peerSetCache s) (participantEventsCache s) (roots s) (lastRound s)
    lce (lastBlock s) (sharedRoots s).
Definition set_peerSetCache c s :=
  mkInmem (cacheSize s) (eventCache s) (roundCache_ s) (blockCache s) (frameCache s)
    (consensusCache s) (totConsensusEvents s) c (participantEventsCache s) (roots s)
    (lastRound s) (lastConsensusEvents s) (lastBlock s) (sharedRoots s).
Definition set_pec c s :=
  mkInmem (cacheSize s) (eventCache s) (roundCache_ s) (blockCache s) (frameCache s)
    (consensusCache s) (totConsensusEvents s) (peerSetCache s) c (roots s)
    (lastRound s) (lastConsensusEvents s) (lastBlock s) (sharedRoots s).
Definition set_roots r s :=
  mkInmem (cacheSize s) (eventCache s) (roundCache_ s) (blockCache s) (frameCache s)
    (consensusCache s) (totConsensusEvents s) (peerSetCache s) (participantEventsCache s) r
    (lastRound s) (lastConsensusEvents s) (lastBlock s) (sharedRoots s).
Definition set_lastRound r s :=
  mkInmem (cacheSize s) (eventCache s) (roundCache_ s) (blockCache s) (frameCache s)
    (consensusCache s) (totConsensusEvents s) (peerSetCache s) (participantEventsCache s)
    (roots s) r (lastConsensusEvents s) (lastBlock s) (sharedRoots s).
Definition set_lastBlock b s :=
  mkInmem (cacheSize s) (eventCache s) (roundCache_ s) (blockCache s) (frameCache s)
    (consensusCache s) (totConsensusEvents s) (peerSetCache s) (participantEventsCache s)
    (roots s) (lastRound s) (lastConsensusEvents s) b (sharedRoots s).
Definition set_sharedRoots r s :=
  mkInmem (cacheSize s) (eventCache s) (roundCache_ s) (blockCache s) (frameCache s)
    (consensusCache s) (totConsensusEvents s) (peerSetCache s) (participantEventsCache s)
    (roots s) (lastRound s) (lastConsensusEvents s) (lastBlock s) r.

Definition set_fr_Roots (r : gmap string Root) (f : Frame) : Frame :=
  mkFrame (fr_Round f) (fr_Peers f) r (fr_Events f) (fr_PeerSets f) (fr_Timestamp f).

Section inmem.
Context {KP : Keys} {CP : Codec} {RO : RangeOrder}.
Implicit Types (s : InmemStore).

Definition NewInmemStore (size : Z) : InmemStore :=
  mkInmem size (NewLRU size false) (NewLRU size false) (NewLRU size false) (NewLRU size false)
    (NewRollingIndex "ConsensusCache" size) 0 NewPeerSetCache (NewParticipantEventsCache size)
    ∅ (-1) ∅ (-1) None.

Definition Inmem_GetPeerSet s (round : Z) : res PeerSet := PSC_Get (peerSetCache s) round.

(** [s.roots[k] = r], through the map the frame shares. *)
Definition put_root (k : string) (r : Root) s : InmemStore :=
  let m := <[k := r]> (roots s) in
  let s1 := set_roots m s in
  match sharedRoots s with
  | Some rr => set_frameCache (poke rr (set_fr_Roots m) (frameCache s1)) s1
  | None => s1
  end.

Definition add_window (p : Peer) (id : Z) : M InmemStore unit :=
  s <- get ;;
  match ByID (pec_participants (participantEventsCache s)) !! id with
  | Some _ => ret tt
  | None => zoom participantEventsCache set_pec (PEC_AddPeer p)
  end.
Definition add_root (p : Peer) : M InmemStore unit :=
  s <- get ;;
  match roots s !! PubKeyString p with
  | Some _ => ret tt
  | None => modify (put_root (PubKeyString p) NewRoot)
  end.
Definition Inmem_addParticipant (p : Peer) : M InmemStore unit :=
  id <- lift (ID p) ;;
  add_window p id ;;;
  add_root p.

(** The error of [addParticipant] is dropped. *)
Definition Inmem_SetPeerSet (round : Z) (peerSet : PeerSet) : M InmemStore unit :=
  zoom peerSetCache set_peerSetCache (PSC_Set round peerSet) ;;;
  forM (Peers peerSet) (λ p, _ <- try (Inmem_addParticipant p) ;; ret tt).

Definition Inmem_GetAllPeerSets s : res (gmap Z (list Peer)) := PSC_GetAll (peerSetCache s).
Definition Inmem_FirstRound s (id : Z) : Z * bool := PSC_FirstRound (peerSetCache s) id.
Definition Inmem_RepertoireByPubKey s : gmap string Peer := repertoireByPubKey (peerSetCache s).
Definition Inmem_RepertoireByID s : gmap Z Peer := repertoireByID (peerSetCache s).

(** A read through one of the caches. *)
Definition cache_get {K V} `{Countable K} (proj : InmemStore → LRU K V)
    (put : LRU K V → InmemStore → InmemStore) (err : error) (key : K) : M InmemStore V :=
  λ s, match Get key (proj s) with
       | (Some v, c) => (Ok v, put c s)
       | (None, c) => (Err err, put c s)
       end.

Definition Inmem_GetEvent (key : string) : M InmemStore Event :=
  cache_get eventCache set_eventCache (NewStoreErr "EventCache" KeyNotFound key) key.

Definition Inmem_SetEvent (event : Event) : M InmemStore unit :=
  let key := Hex event in
  r <- try (Inmem_GetEvent key) ;;
  (match r with
   | inr err =>
       if IsStore err KeyNotFound then
         zoom participantEventsCache set_pec (PEC_Set (Creator event) key (Index event))
       else throw err
   | inl _ => ret tt
   end) ;;;
  modify (λ s, set_eventCache (LRU.Add key event (eventCache s)).2 s).

Definition Inmem_ParticipantEvents s (participant : string) (skip : Z) : res (list string) :=
  PEC_Get (participantEventsCache s) participant skip.
Definition Inmem_ParticipantEvent s (participant : string) (index : Z) : res string :=
  PEC_GetItem (participantEventsCache s) participant index.
Definition Inmem_LastEventFrom s (participant : string) : res string :=
  PEC_GetLast (participantEventsCache s) participant.
(** A missing key yields the empty string. *)
Definition Inmem_LastConsensusEventFrom s (participant : string) : string :=
  default "" (lastConsensusEvents s !! participant).
Definition Inmem_KnownEvents s : gmap Z Z := PEC_Known (participantEventsCache s).
Definition Inmem_ConsensusEvents s : list string := (GetLastWindow (consensusCache s)).1.
Definition Inmem_ConsensusEventsCount s : Z := totConsensusEvents s.

(** The error of the rolling index is dropped. *)
Definition Inmem_AddConsensusEvent (event : Event) : M InmemStore unit :=
  s <- get ;;
  match RI_Set (Hex event) (totConsensusEvents s) (consensusCache s) with
  | (Panic, _) => panic
  | (OutOfFuel, _) => diverge
  | (_, c) =>
      modify (set_consensus c (totConsensusEvents s + 1)
                (<[Creator event := Hex event]> (lastConsensusEvents s)))
  end.

Definition Inmem_GetRound (r : Z) : M InmemStore RoundInfo :=
  cache_get roundCache_ set_roundCache_ (NewStoreErr "RoundCache" KeyNotFound (pretty r)) r.

Definition Inmem_SetRound (r : Z) (round : RoundInfo) : M InmemStore unit :=
  modify (λ s, set_roundCache_ (LRU.Add r round (roundCache_ s)).2 s) ;;;
  modify (λ s, if lastRound s <? r then set_lastRound r s else s).

Definition Inmem_LastRound s : Z := lastRound s.

Definition Inmem_RoundWitnesses (r : Z) : M InmemStore (list string) :=
  round <- try (Inmem_GetRound r) ;;
  ret (match round with inl round => Witnesses round | inr _ => [] end).
Definition Inmem_RoundEvents (r : Z) : M InmemStore Z :=
  round <- try (Inmem_GetRound r) ;;
  ret (match round with inl round => Z.of_nat (size (CreatedEvents round)) | inr _ => 0 end).

Definition Inmem_GetRoot s (participant : string) : res Root :=
  match roots s !! participant with
  | Some r => Ok r
  | None => Err (NewStoreErr "RootCache" KeyNotFound participant)
  end.

Definition Inmem_GetBlock (index : Z) : M InmemStore Block :=
  cache_get blockCache set_blockCache (NewStoreErr "BlockCache" KeyNotFound (pretty index)) index.

(** [if err != nil && !IsStore(err, KeyNotFound) { return err }] *)
Definition known_or_missing {S A} (r : A + error) : M S unit :=
  match r with
  | inr err => if IsStore err KeyNotFound then ret tt else throw err
  | inl _ => ret tt
  end.

Definition Inmem_SetBlock (block : Block) : M InmemStore unit :=
  let index := Block_Index block in
  r <- try (Inmem_GetBlock index) ;;
  known_or_missing r ;;;
  modify (λ s, set_blockCache (LRU.Add index block (blockCache s)).2 s) ;;;
  modify (λ s, if lastBlock s <? index then set_lastBlock index s else s).

Definition Inmem_LastBlockIndex s : Z := lastBlock s.

Definition Inmem_GetFrame (index : Z) : M InmemStore Frame :=
  cache_get frameCache set_frameCache (NewStoreErr "FrameCache" KeyNotFound (pretty index)) index.

(** Storing another frame at the same round ends the sharing of its map. *)
Definition Inmem_SetFrame (frame : Frame) : M InmemStore unit :=
  let index := fr_Round frame in
  r <- try (Inmem_GetFrame index) ;;
  known_or_missing r ;;;
  modify (λ s, set_frameCache (LRU.Add index frame (frameCache s)).2
                 (if decide (sharedRoots s = Some index) then set_sharedRoots None s else s)).

Definition Inmem_Reset (frame : Frame) : M InmemStore unit :=
  modify (λ s,
    let n := cacheSize s in
    mkInmem n (NewLRU n false) (NewLRU n false) (NewLRU n false) (NewLRU n false)
      (NewRollingIndex "ConsensusCache" n) (totConsensusEvents s) NewPeerSetCache
      (NewParticipantEventsCache n) (fr_Roots frame) (-1) ∅ (-1) None) ;;;
  forM (range (fr_PeerSets frame)) (λ '(round, ps),
      peerSet <- lift (NewPeerSet ps) ;; Inmem_SetPeerSet round peerSet) ;;;
  s <- get ;;
  Inmem_SetFrame (set_fr_Roots (roots s) frame) ;;;
  modify (set_sharedRoots (Some (fr_Round frame))).

#[export] Instance InmemStore_Store : Store InmemStore := {
  CacheSize := cacheSize;
  GetPeerSet := Inmem_GetPeerSet;
  SetPeerSet := Inmem_SetPeerSet;
  GetAllPeerSets := Inmem_GetAllPeerSets;
  FirstRound := Inmem_FirstRound;
  RepertoireByPubKey := Inmem_RepertoireByPubKey;
  RepertoireByID := Inmem_RepertoireByID;
  GetEvent := Inmem_GetEvent;
  SetEvent := Inmem_SetEvent;
  ParticipantEvents := Inmem_ParticipantEvents;
  ParticipantEvent := Inmem_ParticipantEvent;
  LastEventFrom := Inmem_LastEventFrom;
  LastConsensusEventFrom := Inmem_LastConsensusEventFrom;
  KnownEvents := Inmem_KnownEvents;
  ConsensusEvents := Inmem_ConsensusEvents;
  ConsensusEventsCount := Inmem_ConsensusEventsCount;
  AddConsensusEvent := Inmem_AddConsensusEvent;
  GetRoundInfo := Inmem_GetRound;
  SetRoundInfo := Inmem_SetRound;
  LastRound := Inmem_LastRound;
  RoundWitnesses := Inmem_RoundWitnesses;
  RoundEvents := Inmem_RoundEvents;
  GetRoot := Inmem_GetRoot;
  GetBlock := Inmem_GetBlock;
  SetBlock := Inmem_SetBlock;
  LastBlockIndex := Inmem_LastBlockIndex;
  GetFrame := Inmem_GetFrame;
  SetFrame := Inmem_SetFrame;
  Store_Reset := Inmem_Reset;
  mutEvent := λ h f s, set_eventCache (poke h f (eventCache s)) s;
  mutRound := λ r f s, set_roundCache_ (poke r f (roundCache_ s)) s;
  mutBlock := λ i f s, set_blockCache (poke i f (blockCache s)) s;
}.
End inmem.

(** ** The contract of the store

    A store whose four caches are well-formed implements [StoreLaws]. *)
Section laws.
Context {KP : Keys} {CP : Codec} {RO : RangeOrder}.
Implicit Types (s : InmemStore).

Definition inmem_ok s : Prop :=
  (lru_wf (eventCache s) ∧ lru_size (eventCache s) = cacheSize s) ∧
  (lru_wf (roundCache_ s) ∧ lru_size (roundCache_ s) = cacheSize s) ∧
  (lru_wf (blockCache s) ∧ lru_size (blockCache s) = cacheSize s) ∧
  (lru_wf (frameCache s) ∧ lru_size (frameCache s) = cacheSize s).

Definition inmem_view s : StoreView :=
  mkView (cacheSize s) (view (eventCache s)) (view (roundCache_ s)) (view (blockCache s))
    (view (frameCache s)) (peerSetCache s) (participantEventsCache s) (lastRound s)
    (lastBlock s).

Lemma Get_size {K V} `{Countable K} (k : K) (c : LRU K V) :
  lru_size (Get k c).2 = lru_size c.
Proof. unfold Get. by case_match. Qed.
Lemma Add_size {K V} `{Countable K} (k : K) (v : V) (c : LRU K V) :
  lru_size (LRU.Add k v c).2 = lru_size c.
Proof.
  unfold LRU.Add. repeat case_match; try done. simpl. unfold removeOldest. by case_match.
Qed.

Lemma cache_get_law {K V} `{Countable K} (proj : InmemStore → LRU K V) put err k s :
  (∀ c, proj (put c s) = c) →
  IsStore err KeyNotFound = true →
  found (view (proj s) !! k) (cache_get proj put err k s).1 ∧
  (cache_get proj put err k s).2 = put (Get k (proj s)).2 s.
Proof.
  intros Hp He. unfold cache_get. destruct (Get_view k (proj s)) as [H1 H2].
  destruct (Get k (proj s)) as [o c]. simpl in *. rewrite <-H1.
  destruct o; simpl; split; try done. eauto.
Qed.

Lemma Add_bounded {K V} `{Countable K} (k : K) (v : V) (c : LRU K V) :
  lru_wf c → bounded_insert (lru_size c) k v (view c) (view (LRU.Add k v c).2).
Proof.
  intros Hwf. assert (Z.of_nat (size (view c)) = Len c) as Hlen.
  { unfold Len, zlen, view. rewrite assoc_map_size; [done|]. by destruct Hwf. }
  split; [|split; [|split]].
  - apply map_subseteq_spec. intros k' v' Hk'. destruct (decide (k' = k)) as [->|Hne].
    + rewrite (Add_lookup k v c Hwf) in Hk'. simplify_eq. by rewrite lookup_insert_eq.
    + rewrite lookup_insert_ne by done. by eapply Add_ne.
  - by apply Add_lookup.
  - intros Hroom. apply Add_view. rewrite <-Hlen. tauto.
  - intros Hroom. apply Add_view. destruct (view c !! k) as [x|] eqn:Hk; [by left; eauto|right].
    destruct (Z.lt_ge_cases (Len c) (lru_size c)) as [|Hfull]; [done|exfalso].
    pose proof (Add_full k v c Hwf Hk Hfull) as Hz.
    unfold view in Hroom. rewrite assoc_map_size in Hroom; [|by apply Add_wf].
    unfold zlen in Hz. lia.
Qed.

Lemma inmem_ok_event s c :
  inmem_ok s → lru_wf c → lru_size c = cacheSize s → inmem_ok (set_eventCache c s).
Proof. intros (? & ? & ? & ?) ??. unfold inmem_ok; simpl; tauto. Qed.
Lemma inmem_ok_round s c :
  inmem_ok s → lru_wf c → lru_size c = cacheSize s → inmem_ok (set_roundCache_ c s).
Proof. intros (? & ? & ? & ?) ??. unfold inmem_ok; simpl; tauto. Qed.
Lemma inmem_ok_block s c :
  inmem_ok s → lru_wf c → lru_size c = cacheSize s → inmem_ok (set_blockCache c s).
Proof. intros (? & ? & ? & ?) ??. unfold inmem_ok; simpl; tauto. Qed.
Lemma inmem_ok_frame s c :
  inmem_ok s → lru_wf c → lru_size c = cacheSize s → inmem_ok (set_frameCache c s).
Proof. intros (? & ? & ? & ?) ??. unfold inmem_ok; simpl; tauto. Qed.

(** The event cache. *)
Lemma Inmem_GetEvent_law k s : inmem_ok s →
  inmem_ok (Inmem_GetEvent k s).2 ∧ inmem_view (Inmem_GetEvent k s).2 = inmem_view s ∧
  found (v_events (inmem_view s) !! k) (Inmem_GetEvent k s).1.
Proof.
  intros Hok. unfold Inmem_GetEvent.
  destruct (cache_get_law eventCache set_eventCache
    (NewStoreErr "EventCache" KeyNotFound k) k s) as [Hf Hs]; [done..|].
  rewrite Hs. destruct Hok as ((He & Hsz) & Hrest).
  split; [|split; [|done]].
  - apply inmem_ok_event; [by split|by apply Get_wf|by rewrite Get_size].
  - unfold inmem_view. simpl. by rewrite (proj2 (Get_view k (eventCache s))).
Qed.

Lemma Inmem_GetRound_law r s : inmem_ok s →
  inmem_ok (Inmem_GetRound r s).2 ∧ inmem_view (Inmem_GetRound r s).2 = inmem_view s ∧
  found (v_rounds (inmem_view s) !! r) (Inmem_GetRound r s).1.
Proof.
  intros Hok. unfold Inmem_GetRound.
  destruct (cache_get_law roundCache_ set_roundCache_
    (NewStoreErr "RoundCache" KeyNotFound (pretty r)) r s) as [Hf Hs]; [done..|].
  rewrite Hs. destruct (Hok) as (_ & (He & Hsz) & Hrest).
  split; [|split; [|done]].
  - apply inmem_ok_round; [done|by apply Get_wf|by rewrite Get_size].
  - unfold inmem_view. simpl. by rewrite (proj2 (Get_view r (roundCache_ s))).
Qed.

Lemma Inmem_GetBlock_law i s : inmem_ok s →
  inmem_ok (Inmem_GetBlock i s).2 ∧ inmem_view (Inmem_GetBlock i s).2 = inmem_view s ∧
  found (v_blocks (inmem_view s) !! i) (Inmem_GetBlock i s).1.
Proof.
  intros Hok. unfold Inmem_GetBlock.
  destruct (cache_get_law blockCache set_blockCache
    (NewStoreErr "BlockCache" KeyNotFound (pretty i)) i s) as [Hf Hs]; [done..|].
  rewrite Hs. destruct (Hok) as (_ & _ & (He & Hsz) & Hrest).
  split; [|split; [|done]].
  - apply inmem_ok_block; [done|by apply Get_wf|by rewrite Get_size].
  - unfold inmem_view. simpl. by rewrite (proj2 (Get_view i (blockCache s))).
Qed.

Lemma Inmem_GetFrame_law i s : inmem_ok s →
  inmem_ok (Inmem_GetFrame i s).2 ∧ inmem_view (Inmem_GetFrame i s).2 = inmem_view s ∧
  found (v_frames (inmem_view s) !! i) (Inmem_GetFrame i s).1.
Proof.
  intros Hok. unfold Inmem_GetFrame.
  destruct (cache_get_law frameCache set_frameCache
    (NewStoreErr "FrameCache" KeyNotFound (pretty i)) i s) as [Hf Hs]; [done..|].
  rewrite Hs. destruct (Hok) as (_ & _ & _ & (He & Hsz)).
  split; [|split; [|done]].
  - apply inmem_ok_frame; [done|by apply Get_wf|by rewrite Get_size].
  - unfold inmem_view. simpl. by rewrite (proj2 (Get_view i (frameCache s))).
Qed.

(** Running a read and handing its outcome over as a value. *)
Lemma try_found {S A} (m : M S A) (t : S) (o : option A) :
  found o (m t).1 →
  ∃ r, try m t = (Ok r, (m t).2) ∧
    match o with
    | Some a => r = inl a
    | None => ∃ err, r = inr err ∧ IsStore err KeyNotFound = true
    end.
Proof.
  unfold try, found. destruct (m t) as [r t']; simpl. destruct o as [a|].
  - intros ->. eauto.
  - intros (err & -> & He). eauto.
Qed.

Lemma Inmem_SetEvent_unfold e s : inmem_ok s →
  let s1 := (Inmem_GetEvent (Hex e) s).2 in
  Inmem_SetEvent e s =
  match view (eventCache s) !! Hex e with
  | Some _ => (Ok tt, set_eventCache (LRU.Add (Hex e) e (eventCache s1)).2 s1)
  | None =>
      match PEC_Set (Creator e) (Hex e) (Index e) (participantEventsCache s) with
      | (Ok _, pec) =>
          (Ok tt, set_eventCache (LRU.Add (Hex e) e (eventCache s1)).2 (set_pec pec s1))
      | (r, pec) => (r, set_pec pec s1)
      end
  end.
Proof.
  intros Hok s1. destruct (Inmem_GetEvent_law (Hex e) s Hok) as (Hok1 & Hv & Hf).
  fold s1 in Hok1, Hv.
  assert (participantEventsCache s1 = participantEventsCache s) as Hp
    by (change (participantEventsCache s1) with (v_pec (inmem_view s1)); by rewrite Hv).
  unfold Inmem_SetEvent. destruct (try_found _ _ _ Hf) as (r & Htry & Hr).
  unfold bind at 1. rewrite Htry. fold s1. simpl in Hr.
  destruct (view (eventCache s) !! Hex e) as [e0|].
  - rewrite Hr. done.
  - destruct Hr as (err & -> & ->). unfold bind, zoom. rewrite Hp.
    destruct (PEC_Set _ _ _ _) as [[[]|err'| |] pec]; done.
Qed.

Lemma Inmem_SetEvent_known e s : inmem_ok s → is_Some (v_events (inmem_view s) !! Hex e) →
  (Inmem_SetEvent e s).1 = Ok tt ∧ inmem_ok (Inmem_SetEvent e s).2 ∧
  inmem_view (Inmem_SetEvent e s).2 =
    with_events (<[Hex e := e]> (v_events (inmem_view s))) (inmem_view s).
Proof.
  intros Hok [e0 He0]. rewrite (Inmem_SetEvent_unfold e s Hok). simpl in He0. rewrite He0.
  destruct (Inmem_GetEvent_law (Hex e) s Hok) as (Hok1 & Hv & Hf).
  set (s1 := (Inmem_GetEvent (Hex e) s).2) in *. simpl.
  assert (view (eventCache s1) = view (eventCache s)) as Hve
    by (change (view (eventCache s1)) with (v_events (inmem_view s1)); by rewrite Hv).
  destruct (Hok1) as ((He & Hsz) & Hrest). split; [done|]. split.
  - apply inmem_ok_event; [done|by apply Add_wf|by rewrite Add_size].
  - destruct (Add_bounded (Hex e) e (eventCache s1) He) as (_ & _ & Heq & _).
    unfold inmem_view in *. simpl. rewrite Heq by (left; rewrite Hve, He0; eauto).
    rewrite Hve. unfold with_events. simpl. injection Hv; intros. congruence.
Qed.

Lemma inmem_ok_pec s c : inmem_ok s → inmem_ok (set_pec c s).
Proof. done. Qed.

Lemma Inmem_SetEvent_new e s r pec : inmem_ok s →
  v_events (inmem_view s) !! Hex e = None →
  PEC_Set (Creator e) (Hex e) (Index e) (v_pec (inmem_view s)) = (r, pec) →
  (Inmem_SetEvent e s).1 = r ∧ inmem_ok (Inmem_SetEvent e s).2 ∧
  match r with
  | Ok _ => ∃ evs,
      bounded_insert (v_size (inmem_view s)) (Hex e) e (v_events (inmem_view s)) evs ∧
      inmem_view (Inmem_SetEvent e s).2 = with_events evs (with_pec pec (inmem_view s))
  | _ => inmem_view (Inmem_SetEvent e s).2 = with_pec pec (inmem_view s)
  end.
Proof.
  intros Hok He0 Hpec. rewrite (Inmem_SetEvent_unfold e s Hok). simpl in He0, Hpec.
  rewrite He0, Hpec.
  destruct (Inmem_GetEvent_law (Hex e) s Hok) as (Hok1 & Hv & Hf).
  set (s1 := (Inmem_GetEvent (Hex e) s).2) in *. clear Hf.
  assert (inmem_view (set_pec pec s1) = with_pec pec (inmem_view s)) as Hvp.
  { rewrite <-Hv. done. }
  assert (inmem_ok (set_pec pec s1)) as Hok2 by done.
  destruct r as [[]|err| |]; simpl; [|done..].
  destruct (Hok1) as ((He & Hsz) & Hrest). split; [done|]. split.
  - apply inmem_ok_event; [done|by apply Add_wf|by rewrite Add_size].
  - exists (view (LRU.Add (Hex e) e (eventCache s1)).2). split.
    + pose proof (Add_bounded (Hex e) e (eventCache s1) He) as Hb. rewrite Hsz in Hb.
      unfold inmem_view in Hv. injection Hv as Hcs Hve _ _ _ _ _ _ _. rewrite Hcs, Hve in Hb. done.
    + rewrite <-Hvp. done.
Qed.

Lemma Inmem_SetRound_law r ri s : inmem_ok s →
  (Inmem_SetRound r ri s).1 = Ok tt ∧ inmem_ok (Inmem_SetRound r ri s).2 ∧
  ∃ rds,
    bounded_insert (v_size (inmem_view s)) r ri (v_rounds (inmem_view s)) rds ∧
    inmem_view (Inmem_SetRound r ri s).2 =
      with_lastRound (Z.max (v_lastRound (inmem_view s)) r) (with_rounds rds (inmem_view s)).
Proof.
  intros Hok. destruct (Hok) as (_ & (He & Hsz) & _).
  set (s1 := set_roundCache_ (LRU.Add r ri (roundCache_ s)).2 s).
  assert (inmem_ok s1) as Hok1
    by (apply inmem_ok_round; [done|by apply Add_wf|by rewrite Add_size]).
  assert ((Inmem_SetRound r ri s) = (Ok tt, if lastRound s <? r then set_lastRound r s1 else s1))
    as -> by done.
  split; [done|]. split; [by case_match|].
  exists (view (LRU.Add r ri (roundCache_ s)).2). split.
  - simpl. rewrite <-Hsz. by apply Add_bounded.
  - simpl. destruct (Z.ltb_spec (lastRound s) r); unfold inmem_view, with_lastRound, with_rounds;
      simpl; f_equal; lia.
Qed.

Lemma known_or_missing_found {S A} (o : option A) (r : A + error) (t : S) :
  match o with
  | Some a => r = inl a
  | None => ∃ err, r = inr err ∧ IsStore err KeyNotFound = true
  end → known_or_missing r t = (Ok tt, t).
Proof. destruct o; [intros ->; done|]. intros (err & -> & He). simpl. by rewrite He. Qed.

Lemma Inmem_SetBlock_law b s : inmem_ok s →
  (Inmem_SetBlock b s).1 = Ok tt ∧ inmem_ok (Inmem_SetBlock b s).2 ∧
  ∃ bls,
    bounded_insert (v_size (inmem_view s)) (Block_Index b) b (v_blocks (inmem_view s)) bls ∧
    inmem_view (Inmem_SetBlock b s).2 =
      with_lastBlock (Z.max (v_lastBlock (inmem_view s)) (Block_Index b))
        (with_blocks bls (inmem_view s)).
Proof.
  intros Hok. destruct (Inmem_GetBlock_law (Block_Index b) s Hok) as (Hok1 & Hv & Hf).
  destruct (try_found _ _ _ Hf) as (r & Htry & Hr).
  set (s1 := (Inmem_GetBlock (Block_Index b) s).2) in *.
  set (s2 := set_blockCache (LRU.Add (Block_Index b) b (blockCache s1)).2 s1).
  assert (Inmem_SetBlock b s = (Ok tt, if lastBlock s2 <? Block_Index b
            then set_lastBlock (Block_Index b) s2 else s2)) as ->.
  { unfold Inmem_SetBlock. unfold bind at 1. rewrite Htry. unfold bind at 1.
    by rewrite (known_or_missing_found _ _ _ Hr). }
  destruct (Hok1) as (_ & _ & (He & Hsz) & _).
  assert (inmem_ok s2) as Hok2
    by (apply inmem_ok_block; [done|by apply Add_wf|by rewrite Add_size]).
  split; [done|]. split; [simpl; by destruct (lastBlock s1 <? Block_Index b)|].
  exists (view (LRU.Add (Block_Index b) b (blockCache s1)).2). rewrite <-Hv. split.
  - simpl. rewrite <-Hsz. by apply Add_bounded.
  - simpl. destruct (Z.ltb_spec (lastBlock s1) (Block_Index b));
      unfold inmem_view, with_lastBlock, with_blocks; simpl; f_equal; lia.
Qed.

Lemma Inmem_SetFrame_law f s : inmem_ok s →
  (Inmem_SetFrame f s).1 = Ok tt ∧ inmem_ok (Inmem_SetFrame f s).2 ∧
  ∃ frs,
    bounded_insert (v_size (inmem_view s)) (fr_Round f) f (v_frames (inmem_view s)) frs ∧
    inmem_view (Inmem_SetFrame f s).2 = with_frames frs (inmem_view s).
Proof.
  intros Hok. destruct (Inmem_GetFrame_law (fr_Round f) s Hok) as (Hok1 & Hv & Hf).
  destruct (try_found _ _ _ Hf) as (r & Htry & Hr).
  set (s1 := (Inmem_GetFrame (fr_Round f) s).2) in *.
  assert (∃ sr, Inmem_SetFrame f s = (Ok tt, set_frameCache
            (LRU.Add (fr_Round f) f (frameCache s1)).2 (set_sharedRoots sr s1))) as [sr ->].
  { unfold Inmem_SetFrame. unfold bind at 1. rewrite Htry. unfold bind at 1.
    rewrite (known_or_missing_found _ _ _ Hr). unfold modify. case_decide; [by eexists|].
    exists (sharedRoots s1). by destruct s1. }
  destruct (Hok1) as (_ & _ & _ & (He & Hsz)).
  split; [done|]. split.
  - apply inmem_ok_frame; [done|by apply Add_wf|by rewrite Add_size].
  - exists (view (LRU.Add (fr_Round f) f (frameCache s1)).2). rewrite <-Hv. split; [|done].
    simpl. rewrite <-Hsz. by apply Add_bounded.
Qed.

Lemma Inmem_AddConsensusEvent_law e s : inmem_ok s →
  inmem_ok (Inmem_AddConsensusEvent e s).2 ∧
  inmem_view (Inmem_AddConsensusEvent e s).2 = inmem_view s.
Proof.
  intros Hok. unfold Inmem_AddConsensusEvent, bind, get, modify, panic, diverge.
  destruct (RI_Set _ _ _) as [[] c]; done.
Qed.

(** *** Recording a peer-set *)
Definition inmem_peers_step s s' : Prop :=
  inmem_ok s → inmem_ok s' ∧ peers_step (inmem_view s) (inmem_view s') ∧
  peerSetCache s' = peerSetCache s.

#[export] Instance inmem_peers_step_preorder : PreOrder inmem_peers_step.
Proof.
  split.
  - intros s Hok. split; [done|]. split; reflexivity.
  - intros s1 s2 s3 H12 H23 Hok. destruct (H12 Hok) as (Hok2 & Hs2 & Hp2).
    destruct (H23 Hok2) as (Hok3 & Hs3 & Hp3). split; [done|].
    split; [by transitivity (inmem_view s2)|congruence].
Qed.

Lemma put_root_step k r s : inmem_peers_step s (put_root k r s).
Proof.
  intros Hok. unfold put_root. destruct (sharedRoots s) as [rr|].
  - destruct (Hok) as (_ & _ & _ & (He & Hsz)). split.
    + apply inmem_ok_frame; [done|by apply poke_wf|done].
    + split; [|done]. unfold peers_step. simpl. do 6 (split; [done|]). split; [|reflexivity].
      rewrite poke_view. apply map_eq. intros i. rewrite !lookup_fmap.
      destruct (decide (i = rr)) as [->|Hne]; [|by rewrite lookup_alter_ne].
      rewrite lookup_alter_eq. by destruct (view (frameCache s) !! rr).
  - split; [done|]. split; [|done]. unfold peers_step. simpl. do 7 (split; [done|]).
    reflexivity.
Qed.

Lemma add_root_step p : respects inmem_peers_step (add_root p).
Proof.
  intros s. unfold add_root, bind, get. destruct (roots s !! _); [reflexivity|].
  apply put_root_step.
Qed.

Lemma add_window_step p id : ID p = Ok id → respects inmem_peers_step (add_window p id).
Proof.
  intros Hid s Hok. unfold add_window, bind, get.
  destruct (ByID _ !! id) as [q|] eqn:Hby.
  { split; [done|]. split; reflexivity. }
  unfold zoom. pose proof (PEC_AddPeer_extends (participantEventsCache s) p id Hid Hby) as Hext.
  destruct (PEC_AddPeer p (participantEventsCache s)) as [r pec']. simpl in *.
  split; [done|]. split; [|done]. unfold peers_step. simpl. by do 7 (split; [done|]).
Qed.

Lemma Inmem_addParticipant_step p : respects inmem_peers_step (Inmem_addParticipant p).
Proof.
  intros s. unfold Inmem_addParticipant. unfold bind at 1, lift.
  destruct (ID p) as [id|e| |] eqn:Hid; [|reflexivity..].
  apply (respects_bind _); [by apply add_window_step|]. intros []. apply add_root_step.
Qed.

Lemma Inmem_SetPeerSet_law r ps s : inmem_ok s →
  inmem_ok (Inmem_SetPeerSet r ps s).2 ∧
  peers_step (inmem_view s) (inmem_view (Inmem_SetPeerSet r ps s).2) ∧
  v_psc (inmem_view (Inmem_SetPeerSet r ps s).2) = (PSC_Set r ps (v_psc (inmem_view s))).2.
Proof.
  intros Hok. change (v_psc (inmem_view s)) with (peerSetCache s).
  assert (Inmem_SetPeerSet r ps s =
    match PSC_Set r ps (peerSetCache s) with
    | (Ok _, c) => forM (Peers ps) (λ p, _ <- try (Inmem_addParticipant p) ;; ret tt)
                     (set_peerSetCache c s)
    | (rr, c) => (rr, set_peerSetCache c s)
    end) as ->.
  { unfold Inmem_SetPeerSet, bind at 1, zoom. by destruct (PSC_Set _ _ _) as [[]]. }
  destruct (PSC_Set r ps (peerSetCache s)) as [rr psc']. simpl.
  assert (peers_step (inmem_view s) (inmem_view (set_peerSetCache psc' s))) as Hst.
  { unfold peers_step. simpl. do 7 (split; [done|]). reflexivity. }
  destruct rr as [[]|e| |]; [|done..].
  assert (respects (E:=error) inmem_peers_step
    (forM (Peers ps) (λ p, _ <- try (Inmem_addParticipant p) ;; ret tt))) as Hfor.
  { respects_go. apply Inmem_addParticipant_step. }
  destruct (Hfor (set_peerSetCache psc' s)) as (Hok' & Hst' & Hp'); [done|].
  split; [done|]. split; [by transitivity (inmem_view (set_peerSetCache psc' s))|].
  simpl. by rewrite Hp'.
Qed.

#[export] Instance InmemStore_Laws : StoreLaws InmemStore.
Proof.
  refine {| st_ok := inmem_ok; store_view := inmem_view |}.
  - exact Inmem_GetEvent_law.
  - exact Inmem_GetRound_law.
  - exact Inmem_GetBlock_law.
  - exact Inmem_GetFrame_law.
  - done.
  - done.
  - done.
  - done.
  - done.
  - intros s c i h H. exact H.
  - done.
  - done.
  - exact Inmem_SetPeerSet_law.
  - exact Inmem_SetEvent_known.
  - exact Inmem_SetEvent_new.
  - exact Inmem_SetRound_law.
  - exact Inmem_SetBlock_law.
  - exact Inmem_SetFrame_law.
  - exact Inmem_AddConsensusEvent_law.
  - intros k f s Hok. destruct (Hok) as ((He & Hsz) & _). split.
    + apply inmem_ok_event; [done|by apply poke_wf|done].
    + unfold inmem_view, with_events. simpl. by rewrite poke_view.
  - intros k f s Hok. destruct (Hok) as (_ & (He & Hsz) & _). split.
    + apply inmem_ok_round; [done|by apply poke_wf|done].
    + unfold inmem_view, with_rounds. simpl. by rewrite poke_view.
  - intros k f s Hok. destruct (Hok) as (_ & _ & (He & Hsz) & _). split.
    + apply inmem_ok_block; [done|by apply poke_wf|done].
    + unfold inmem_view, with_blocks. simpl. by rewrite poke_view.
Defined.

Lemma NewInmemStore_ok n : 1 ≤ n → inmem_ok (NewInmemStore n).
Proof. intros Hn. unfold inmem_ok. simpl. repeat split; by apply NewLRU_wf. Qed.
End laws.
