(* ===== verification/Hashgraph.v ===== *)
(** * The hashgraph (src/src/hashgraph/hashgraph.go)

    The operations of [Hashgraph] over any store. [H A] is the monad of a
    method of [*Hashgraph]. The recursions of [round] and [lamportTimestamp] and
    the walk of [updateAncestorFirstDescendant] are bounded by [fuel];
    [OutOfFuel] is ruled out by the termination theorems.

    The methods that commit blocks ([ProcessDecidedRounds] and
    [InsertEventAndRunConsensus]) run on the hashgraph together with the
    state [X] of the owner of the commit callback, which the callback may
    change along with the hashgraph.

    Log messages are left out. *)
From S2P Require Export Store.

Definition ROOT_DEPTH : nat := 10.
Definition COIN_ROUND_FREQ : Z := 4.

(** The six memo tables. *)
Record MemoCaches := mkMemo {
  ancestorCache : LRU (string * string) bool;
  selfAncestorCache : LRU (string * string) bool;
  stronglySeeCache : LRU (string * string * string) bool;
  roundCache : LRU string Z;
  timestampCache : LRU string Z;
  witnessCache : LRU string bool;
}.

Record Hashgraph (St : Type) := mkHashgraph {
  hg_Store : St;
  UndeterminedEvents : list string;
  PendingRounds : PendingRoundsCache;
  PendingSignatures : SigPool;
  LastConsensusRound : option Z;
  FirstConsensusRound : option Z;
  AnchorBlock : option Z;
  roundLowerBound : option Z;
  LastCommitedRoundEvents : Z;
  ConsensusTransactions : Z;
  PendingLoadedEvents : Z;
  topologicalIndex : Z;
  memo : MemoCaches;
}.
Arguments mkHashgraph {St}.
Arguments hg_Store {St}.
Arguments UndeterminedEvents {St}.
Arguments PendingRounds {St}.
Arguments PendingSignatures {St}.
Arguments LastConsensusRound {St}.
Arguments FirstConsensusRound {St}.
Arguments AnchorBlock {St}.
Arguments roundLowerBound {St}.
Arguments LastCommitedRoundEvents {St}.
Arguments ConsensusTransactions {St}.
Arguments PendingLoadedEvents {St}.
Arguments topologicalIndex {St}.
Arguments memo {St}.

(** Field updates *)
Section updates.
Context {St : Type}.
Implicit Types (h : Hashgraph St).
Definition set_Store (x : St) h :=
  mkHashgraph x (UndeterminedEvents h) (PendingRounds h) (PendingSignatures h)
    (LastConsensusRound h) (FirstConsensusRound h) (AnchorBlock h) (roundLowerBound h)
    (LastCommitedRoundEvents h) (ConsensusTransactions h) (PendingLoadedEvents h)
    (topologicalIndex h) (memo h).
Definition set_UndeterminedEvents x h :=
  mkHashgraph (hg_Store h) x (PendingRounds h) (PendingSignatures h)
    (LastConsensusRound h) (FirstConsensusRound h) (AnchorBlock h) (roundLowerBound h)
    (LastCommitedRoundEvents h) (ConsensusTransactions h) (PendingLoadedEvents h)
    (topologicalIndex h) (memo h).
Definition set_PendingRounds x h :=
  mkHashgraph (hg_Store h) (UndeterminedEvents h) x (PendingSignatures h)
    (LastConsensusRound h) (FirstConsensusRound h) (AnchorBlock h) (roundLowerBound h)
    (LastCommitedRoundEvents h) (ConsensusTransactions h) (PendingLoadedEvents h)
    (topologicalIndex h) (memo h).
Definition set_PendingSignatures x h :=
  mkHashgraph (hg_Store h) (UndeterminedEvents h) (PendingRounds h) x
    (LastConsensusRound h) (FirstConsensusRound h) (AnchorBlock h) (roundLowerBound h)
    (LastCommitedRoundEvents h) (ConsensusTransactions h) (PendingLoadedEvents h)
    (topologicalIndex h) (memo h).
Definition set_consensusRounds lcr fcr h :=
  mkHashgraph (hg_Store h) (UndeterminedEvents h) (PendingRounds h) (PendingSignatures h)
    lcr fcr (AnchorBlock h) (roundLowerBound h)
    (LastCommitedRoundEvents h) (ConsensusTransactions h) (PendingLoadedEvents h)
    (topologicalIndex h) (memo h).
Definition set_AnchorBlock x h :=
  mkHashgraph (hg_Store h) (UndeterminedEvents h) (PendingRounds h) (PendingSignatures h)
    (LastConsensusRound h) (FirstConsensusRound h) x (roundLowerBound h)
    (LastCommitedRoundEvents h) (ConsensusTransactions h) (PendingLoadedEvents h)
    (topologicalIndex h) (memo h).
Definition set_roundLowerBound x h :=
  mkHashgraph (hg_Store h) (UndeterminedEvents h) (PendingRounds h) (PendingSignatures h)
    (LastConsensusRound h) (FirstConsensusRound h) (AnchorBlock h) x
    (LastCommitedRoundEvents h) (ConsensusTransactions h) (PendingLoadedEvents h)
    (topologicalIndex h) (memo h).
Definition set_LastCommitedRoundEvents x h :=
  mkHashgraph (hg_Store h) (UndeterminedEvents h) (PendingRounds h) (PendingSignatures h)
    (LastConsensusRound h) (FirstConsensusRound h) (AnchorBlock h) (roundLowerBound h)
    x (ConsensusTransactions h) (PendingLoadedEvents h)
    (topologicalIndex h) (memo h).
Definition add_ConsensusTransactions n h :=
  mkHashgraph (hg_Store h) (UndeterminedEvents h) (PendingRounds h) (PendingSignatures h)
    (LastConsensusRound h) (FirstConsensusRound h) (AnchorBlock h) (roundLowerBound h)
    (LastCommitedRoundEvents h) (ConsensusTransactions h + n) (PendingLoadedEvents h)
    (topologicalIndex h) (memo h).
Definition add_PendingLoadedEvents n h :=
  mkHashgraph (hg_Store h) (UndeterminedEvents h) (PendingRounds h) (PendingSignatures h)
    (LastConsensusRound h) (FirstConsensusRound h) (AnchorBlock h) (roundLowerBound h)
    (LastCommitedRoundEvents h) (ConsensusTransactions h) (PendingLoadedEvents h + n)
    (topologicalIndex h) (memo h).
Definition set_hg_topologicalIndex x h :=
  mkHashgraph (hg_Store h) (UndeterminedEvents h) (PendingRounds h) (PendingSignatures h)
    (LastConsensusRound h) (FirstConsensusRound h) (AnchorBlock h) (roundLowerBound h)
    (LastCommitedRoundEvents h) (ConsensusTransactions h) (PendingLoadedEvents h)
    x (memo h).
Definition set_memo x h :=
  mkHashgraph (hg_Store h) (UndeterminedEvents h) (PendingRounds h) (PendingSignatures h)
    (LastConsensusRound h) (FirstConsensusRound h) (AnchorBlock h) (roundLowerBound h)
    (LastCommitedRoundEvents h) (ConsensusTransactions h) (PendingLoadedEvents h)
    (topologicalIndex h) x.
End updates.

Definition set_ancestorCache c m :=
  mkMemo c (selfAncestorCache m) (stronglySeeCache m) (roundCache m) (timestampCache m)
    (witnessCache m).
Definition set_selfAncestorCache c m :=
  mkMemo (ancestorCache m) c (stronglySeeCache m) (roundCache m) (timestampCache m)
    (witnessCache m).
Definition set_stronglySeeCache c m :=
  mkMemo (ancestorCache m) (selfAncestorCache m) c (roundCache m) (timestampCache m)
    (witnessCache m).
Definition set_roundCache c m :=
  mkMemo (ancestorCache m) (selfAncestorCache m) (stronglySeeCache m) c (timestampCache m)
    (witnessCache m).
Definition set_timestampCache c m :=
  mkMemo (ancestorCache m) (selfAncestorCache m) (stronglySeeCache m) (roundCache m) c
    (witnessCache m).
Definition set_witnessCache c m :=
  mkMemo (ancestorCache m) (selfAncestorCache m) (stronglySeeCache m) (roundCache m)
    (timestampCache m) c.

Definition NewMemo (n : Z) : MemoCaches :=
  mkMemo (NewLRU n false) (NewLRU n false) (NewLRU n false) (NewLRU n false) (NewLRU n false)
    (NewLRU n false).

Section hashgraph.
Context {KP : Keys} {CP : Codec} {RO : RangeOrder} {St : Type} {STO : Store St}.
Abbreviation H := (GoM error (Hashgraph St)).
Implicit Types (x y : string) (event : Event).

Definition NewHashgraph (store : St) : Hashgraph St :=
  mkHashgraph store [] NewPendingRoundsCache NewSigPool None None None None 0 0 0 0
    (NewMemo (CacheSize store)).

(** A call on the store. *)
Definition onStore {A} (m : M St A) : H A := zoom hg_Store set_Store m.
Definition readStore {A} (f : St → A) : H A := gets (λ h, f (hg_Store h)).
Definition readStoreR {A} (f : St → res A) : H A := s <- gets hg_Store ;; lift (f s).

Definition Init (peerSet : PeerSet) : H unit :=
  wrap "Error setting PeerSet" (onStore (SetPeerSet 0 peerSet)).

(** A memoised computation: [if c, ok := cache.Get(key); ok { return c }],
    otherwise compute, [cache.Add] and return; an error is not cached. *)
Definition memoised {K V} `{Countable K} (proj : MemoCaches → LRU K V)
    (put : LRU K V → MemoCaches → MemoCaches) (key : K) (compute : H V) : H V :=
  c <- zoom memo set_memo (λ m, match Get key (proj m) with
                                | (r, c) => (Ok r, put c m)
                                end) ;;
  match c with
  | Some v => ret v
  | None =>
      v <- compute ;;
      modify (λ h, set_memo (put (LRU.Add key v (proj (memo h))).2 (memo h)) h) ;;;
      ret v
  end.

Definition cache_add {K V} `{Countable K} (proj : MemoCaches → LRU K V)
    (put : LRU K V → MemoCaches → MemoCaches) (key : K) (v : V) : H unit :=
  modify (λ h, set_memo (put (LRU.Add key v (proj (memo h))).2 (memo h)) h).

(** ** Ancestry *)
Definition _ancestor x y : H bool :=
  if decide (x = y) then ret true
  else
    ex <- onStore (GetEvent x) ;;
    ey <- onStore (GetEvent y) ;;
    ret (match ev_lastAncestors ex !! Creator ey with
         | Some entry => Index ey <=? ec_Index entry
         | None => false
         end).

Definition ancestor x y : H bool :=
  memoised ancestorCache set_ancestorCache (x, y) (_ancestor x y).

Definition _selfAncestor x y : H bool :=
  if decide (x = y) then ret true
  else
    ex <- onStore (GetEvent x) ;;
    ey <- onStore (GetEvent y) ;;
    ret (bool_decide (Creator ex = Creator ey) && (Index ey <=? Index ex)).

Definition selfAncestor x y : H bool :=
  memoised selfAncestorCache set_selfAncestorCache (x, y) (_selfAncestor x y).

Definition see x y : H bool := ancestor x y.

(** The count of the loop of [_stronglySee]. *)
Definition ss_count (ex ey : Event) (peers : PeerSet) : Z :=
  foldl (λ c '(p, _),
      match ev_lastAncestors ex !! p, ev_firstDescendants ey !! p with
      | Some xla, Some yfd => if ec_Index yfd <=? ec_Index xla then c + 1 else c
      | _, _ => c
      end) 0 (range (ByPubKey peers)).

Definition _stronglySee x y (peers : PeerSet) : H bool :=
  ex <- onStore (GetEvent x) ;;
  ey <- onStore (GetEvent y) ;;
  ret (SuperMajority peers <=? ss_count ex ey peers).

Definition stronglySee x y (peers : PeerSet) : H bool :=
  hex <- lift (PS_Hex peers) ;;
  memoised stronglySeeCache set_stronglySeeCache (x, y, hex) (_stronglySee x y peers).

(** ** Rounds, witnesses and Lamport timestamps *)

(** The body of [_round], over the recursive call. *)
Definition _round (rec : string → H Z) x : H Z :=
  ex <- onStore (GetEvent x) ;;
  parentRound <- (if decide (SelfParent ex = "") then ret (-1) else rec (SelfParent ex)) ;;
  parentRound <- (if decide (OtherParent ex = "") then ret parentRound
                  else opRound <- rec (OtherParent ex) ;;
                       ret (if parentRound <? opRound then opRound else parentRound)) ;;
  if parentRound =? -1 then ret 0
  else
    parentRoundObj <- onStore (GetRoundInfo parentRound) ;;
    parentRoundPeerSet <- readStoreR (λ s, GetPeerSet s parentRound) ;;
    c <- foldM (λ c w, ss <- stronglySee x w parentRoundPeerSet ;;
                       ret (if (ss : bool) then c + 1 else c))
           0 (Witnesses parentRoundObj) ;;
    ret (if SuperMajority parentRoundPeerSet <=? c then parentRound + 1 else parentRound).

Fixpoint round (fuel : nat) x : H Z :=
  match fuel with
  | O => diverge
  | S fuel => memoised roundCache set_roundCache x (_round (round fuel) x)
  end.

Definition _lamportTimestamp (rec : string → H Z) x : H Z :=
  ex <- onStore (GetEvent x) ;;
  plt <- (if decide (SelfParent ex = "") then ret (-1) else rec (SelfParent ex)) ;;
  plt <- (if decide (OtherParent ex = "") then ret plt
          else
            op <- try (onStore (GetEvent (OtherParent ex))) ;;
            opLT <- (match op with
                     | inl _ => rec (OtherParent ex)
                     | inr _ => ret MinInt32
                     end) ;;
            ret (if plt <? opLT then opLT else plt)) ;;
  ret (plt + 1).

Fixpoint lamportTimestamp (fuel : nat) x : H Z :=
  match fuel with
  | O => diverge
  | S fuel => memoised timestampCache set_timestampCache x
                (_lamportTimestamp (lamportTimestamp fuel) x)
  end.

Context (fuel : nat).

Definition _witness x : H bool :=
  ex <- onStore (GetEvent x) ;;
  xRound <- round fuel x ;;
  peerSet <- readStoreR (λ s, GetPeerSet s xRound) ;;
  match ByPubKey peerSet !! Creator ex with
  | None => ret false
  | Some _ =>
      spRound <- (if decide (SelfParent ex = "") then ret (-1) else round fuel (SelfParent ex)) ;;
      ret (spRound <? xRound)
  end.

Definition witness x : H bool := memoised witnessCache set_witnessCache x (_witness x).

Definition roundReceived x : H Z :=
  ex <- onStore (GetEvent x) ;;
  ret (default (-1) (ev_roundReceived ex)).

Definition roundDiff x y : H Z :=
  xRound <- try (round fuel x) ;;
  match xRound with
  | inr _ => throw (EMsg ("event " +:+ x +:+ " has negative round"))
  | inl xRound =>
      yRound <- try (round fuel y) ;;
      match yRound with
      | inr _ => throw (EMsg ("event " +:+ y +:+ " has negative round"))
      | inl yRound => ret (xRound - yRound)
      end
  end.

(** ** Inserting events *)
Definition checkSelfParent event : H unit :=
  let selfParent := SelfParent event in
  last <- try (readStoreR (λ s, LastEventFrom s (Creator event))) ;;
  match last with
  | inr err =>
      if IsStore err Empty && bool_decide (selfParent = "") then ret tt
      else throw (NewSelfParentError (error_msg err) false)
  | inl creatorLastKnown =>
      if decide (selfParent = creatorLastKnown) then ret tt
      else throw (NewSelfParentError "Self-parent not last known event by creator" true)
  end.

Definition checkOtherParent event : H unit :=
  let otherParent := OtherParent event in
  if decide (otherParent = "") then ret tt
  else
    op <- try (onStore (GetEvent otherParent)) ;;
    match op with
    | inr _ => throw (EMsg "Other-parent not known")
    | inl _ => ret tt
    end.

(** The loop that merges the other-parent's coordinates into the
    self-parent's. *)
Definition merge_coordinates (sla ola : CoordinatesMap) : CoordinatesMap :=
  foldl (λ m '(p, o),
      match m !! p with
      | None => <[p := o]> m
      | Some s => if ec_Index s <? ec_Index o then <[p := o]> m else m
      end) sla (range ola).

(** The event is a local object until it is stored: its new coordinates are
    returned in it. *)
Definition initEventCoordinates event : H Event :=
  selfParent <- try (onStore (GetEvent (SelfParent event))) ;;
  otherParent <- try (onStore (GetEvent (OtherParent event))) ;;
  let la :=
    match selfParent, otherParent with
    | inr _, inl op => CoordinatesMap_Copy (ev_lastAncestors op)
    | inl sp, inr _ => CoordinatesMap_Copy (ev_lastAncestors sp)
    | inl sp, inl op =>
        merge_coordinates (CoordinatesMap_Copy (ev_lastAncestors sp)) (ev_lastAncestors op)
    | inr _, inr _ => NewCoordinatesMap
    end in
  let here := mkCoord (Hex event) (Index event) in
  ret (set_coordinates event (<[Creator event := here]> la)
         (<[Creator event := here]> NewCoordinatesMap)).

(** The inner loop: down the self-parents of an ancestor until one already has
    a first descendant by this creator, or is a witness, or is unknown. *)
Definition put_firstDescendant event (a : Event) : Event :=
  set_coordinates a (ev_lastAncestors a)
    (<[Creator event := mkCoord (Hex event) (Index event)]> (ev_firstDescendants a)).

Fixpoint walk_descendants (n : nat) event (ah : string) : H unit :=
  match n with
  | O => diverge
  | S n =>
      a <- try (onStore (GetEvent ah)) ;;
      match a with
      | inr _ => ret tt
      | inl a =>
          match ev_firstDescendants a !! Creator event with
          | Some _ => ret tt
          | None =>
              let a := put_firstDescendant event a in
              modify (λ h, set_Store (mutEvent ah (put_firstDescendant event) (hg_Store h)) h) ;;;
              onStore (SetEvent a) ;;;
              w <- try (witness ah) ;;
              match w with
              | inl true => ret tt
              | _ => walk_descendants n event (SelfParent a)
              end
          end
      end
  end.

Definition updateAncestorFirstDescendant event : H unit :=
  forM (range (ev_lastAncestors event)) (λ '(_, c), walk_descendants fuel event (ec_Hash c)).

Definition SetWireInfo event : H Event :=
  rep <- readStore RepertoireByPubKey ;;
  match rep !! Creator event with
  | None => throw (EMsg ("Creator " +:+ Creator event +:+ " not found"))
  | Some creator =>
      selfParentIndex <- (if decide (SelfParent event = "") then ret (-1)
                          else selfParent <- onStore (GetEvent (SelfParent event)) ;;
                               ret (Index selfParent)) ;;
      op <- (if decide (OtherParent event = "") then ret (0, -1)
             else
               otherParent <- onStore (GetEvent (OtherParent event)) ;;
               rep <- readStore RepertoireByPubKey ;;
               match rep !! Creator otherParent with
               | None => throw (EMsg ("Creator " +:+ Creator otherParent +:+ " not found"))
               | Some otherParentCreator =>
                   id <- lift (ID otherParentCreator) ;;
                   ret (id, Index otherParent)
               end) ;;
      creatorID <- lift (ID creator) ;;
      ret (Event_SetWireInfo event selfParentIndex op.1 op.2 creatorID)
  end.

Definition removeProcessedSignatures (processedSignatures : gmap string bool) : H unit :=
  modify (λ h, set_PendingSignatures
    (foldl (λ sp '(k, _), SP_Remove sp k) (PendingSignatures h) (range processedSignatures)) h).

(** The part of [InsertEvent] that follows the checks. It returns the event it
    inserted: the caller's pointer sees its private fields. *)
Definition insert_checked event (setWireInfo : bool) : H Event :=
  ti <- gets topologicalIndex ;;
  let event := set_topologicalIndex event ti in
  modify (set_hg_topologicalIndex (ti + 1)) ;;;
  event <- (if setWireInfo then wrap "SetWireInfo" (SetWireInfo event) else ret event) ;;
  event <- wrap "InitEventCoordinates" (initEventCoordinates event) ;;
  wrap "SetEvent" (onStore (SetEvent event)) ;;;
  wrap "UpdateAncestorFirstDescendant" (updateAncestorFirstDescendant event) ;;;
  modify (λ h, set_UndeterminedEvents (UndeterminedEvents h ++ [Hex event]) h) ;;;
  (if IsLoaded event then modify (add_PendingLoadedEvents 1) else ret tt) ;;;
  forM (BlockSignatures event) (λ bs,
      modify (λ h, set_PendingSignatures (SP_Add (PendingSignatures h) bs) h)) ;;;
  ret event.

Definition InsertEvent event (setWireInfo : bool) : H Event :=
  ok <- lift (Event_Verify event) ;;
  (if (ok : bool) then ret tt
   else throw (EMsg ("Invalid Event signature " +:+ Hex event))) ;;;
  checkSelfParent event ;;;
  checkOtherParent event ;;;
  insert_checked event setWireInfo.

(** [GetRound], or a new round when the store does not have it. *)
Definition getOrNewRound (r : Z) : H (bool * RoundInfo) :=
  roundInfo <- try (onStore (GetRoundInfo r)) ;;
  match roundInfo with
  | inl roundInfo => ret (true, roundInfo)
  | inr err => if IsStore err KeyNotFound then ret (false, NewRoundInfo) else throw err
  end.

Definition InsertFrameEvent (frameEvent : FrameEvent) : H unit :=
  let event := fe_Core frameEvent in
  cache_add roundCache set_roundCache (Hex event) (fe_Round frameEvent) ;;;
  cache_add witnessCache set_witnessCache (Hex event) (fe_Witness frameEvent) ;;;
  cache_add timestampCache set_timestampCache (Hex event) (fe_LamportTimestamp frameEvent) ;;;
  let event := SetLamportTimestamp (SetRound event (fe_Round frameEvent))
                 (fe_LamportTimestamp frameEvent) in
  ri <- getOrNewRound (fe_Round frameEvent) ;;
  let roundInfo := AddCreatedEvent ri.2 (Hex event) (fe_Witness frameEvent) in
  onStore (SetRoundInfo (fe_Round frameEvent) roundInfo) ;;;
  event <- wrap "InitEventCoordinates" (initEventCoordinates event) ;;
  wrap "SetEvent" (onStore (SetEvent event)) ;;;
  wrap "UpdateAncestorFirstDescendant" (updateAncestorFirstDescendant event) ;;;
  wrap "AddConsensusEvent" (onStore (AddConsensusEvent event)).

(** ** Consensus *)

(** One event of the loop of [DivideRounds]. *)
Definition divideRound_event (hash : string) : H unit :=
  ev <- onStore (GetEvent hash) ;;
  updated <-
    (match ev_round ev with
     | Some _ => ret (false, ev)
     | None =>
         roundNumber <- round fuel hash ;;
         modify (λ h, set_Store (mutEvent hash (λ e, SetRound e roundNumber) (hg_Store h)) h) ;;;
         ri <- getOrNewRound roundNumber ;;
         let roundInfo := ri.2 in
         h <- get ;;
         (if negb (Queued (PendingRounds h) roundNumber) && negb (ri_decided roundInfo) &&
             (match roundLowerBound h with None => true | Some lb => lb <? roundNumber end)
          then modify (set_PendingRounds (PRC_Set (PendingRounds h) (mkPR roundNumber false)))
          else ret tt) ;;;
         w <- witness hash ;;
         onStore (SetRoundInfo roundNumber (AddCreatedEvent roundInfo hash w)) ;;;
         ret (true, SetRound ev roundNumber)
     end) ;;
  let '(updateEvent, ev) := updated in
  updated <-
    (match ev_lamportTimestamp ev with
     | Some _ => ret (updateEvent, ev)
     | None =>
         lt <- lamportTimestamp fuel hash ;;
         modify (λ h, set_Store (mutEvent hash (λ e, SetLamportTimestamp e lt) (hg_Store h)) h) ;;;
         ret (true, SetLamportTimestamp ev lt)
     end) ;;
  let '(updateEvent, ev) := updated in
  if (updateEvent : bool) then _ <- try (onStore (SetEvent ev)) ;; ret tt else ret tt.

Definition DivideRounds : H unit :=
  hashes <- gets UndeterminedEvents ;;
  forM hashes divideRound_event.

(** *** DecideFame *)
Definition Votes : Type := gmap string (gmap string bool).
Definition setVote (votes : Votes) x y (vote : bool) : Votes :=
  <[x := <[y := vote]> (default ∅ (votes !! x))]> votes.
(** [votes[w][x]]: false when there is no vote. *)
Definition getVote (votes : Votes) x y : bool :=
  default false (default ∅ (votes !! x) !! y).

Definition middleBit (ehex : string) : res bool :=
  hash <-- DecodeFromString ehex ;;
  Ok (match hash.1 !! (length hash.1 / 2)%nat with
      | Some b => negb (byteZ b =? 0)
      | None => true
      end).

(** The witnesses of the previous round that [y] strongly sees. *)
Definition ss_witnesses y (witnesses : list string) (peers : PeerSet) : H (list string) :=
  foldM (λ ssWitnesses w,
      ss <- stronglySee y w peers ;;
      ret (if (ss : bool) then ssWitnesses ++ [w] else ssWitnesses))
    [] witnesses.

Definition count_votes (votes : Votes) x (ws : list string) : Z * Z :=
  foldl (λ '(yays, nays) w, if getVote votes w x then (yays + 1, nays) else (yays, nays + 1))
    (0, 0) ws.

(** [v] and [t]: the value that has most votes, and how many it has. *)
Definition majority (votes : Z * Z) : bool := votes.2 <=? votes.1.
Definition tally (votes : Z * Z) : Z := if majority votes then votes.1 else votes.2.

(** The vote of [y] on [x], and whether it decides: the state of the loops is
    the votes and the round being decided. *)
Definition fame_vote (roundIndex j : Z) (jPeerSet : PeerSet) x (st : Votes * RoundInfo) y :
    H (ctl (Votes * RoundInfo)) :=
  let '(votes, rRoundInfo) := st in
  let diff := j - roundIndex in
  if diff =? 1 then
    ycx <- see y x ;;
    ret (Continue (setVote votes y x ycx, rRoundInfo))
  else
    jPrevRoundInfo <- onStore (GetRoundInfo (j - 1)) ;;
    jPrevPeerSet <- readStoreR (λ s, GetPeerSet s (j - 1)) ;;
    ssWitnesses <- ss_witnesses y (Witnesses jPrevRoundInfo) jPrevPeerSet ;;
    let v := majority (count_votes votes x ssWitnesses) in
    let t := tally (count_votes votes x ssWitnesses) in
    if negb (diff mod COIN_ROUND_FREQ =? 0) then
      if SuperMajority jPeerSet <=? t then
        modify (λ h, set_Store (mutRound roundIndex (λ r, SetFame r x v) (hg_Store h)) h) ;;;
        ret (Break (setVote votes y x v, SetFame rRoundInfo x v))
      else ret (Continue (setVote votes y x v, rRoundInfo))
    else
      if SuperMajority jPeerSet <=? t then ret (Continue (setVote votes y x v, rRoundInfo))
      else
        coin <- lift (middleBit y) ;;
        ret (Continue (setVote votes y x coin, rRoundInfo)).

(** The labelled loop over the rounds [j]. *)
Definition fame_round (roundIndex : Z) x (st : Votes * RoundInfo) (j : Z) :
    H (ctl (Votes * RoundInfo)) :=
  jRoundInfo <- onStore (GetRoundInfo j) ;;
  jPeerSet <- readStoreR (λ s, GetPeerSet s j) ;;
  (fix go (ys : list string) (st : Votes * RoundInfo) : H (ctl (Votes * RoundInfo)) :=
     match ys with
     | [] => ret (Continue st)
     | y :: ys =>
         c <- fame_vote roundIndex j jPeerSet x st y ;;
         match c with
         | Continue st => go ys st
         | Break st => ret (Break st)
         end
     end) (Witnesses jRoundInfo) st.

Definition fame_witness (roundIndex : Z) (st : Votes * RoundInfo) x : H (Votes * RoundInfo) :=
  if IsDecided st.2 x then ret st
  else
    last <- readStore LastRound ;;
    foldM_ctl (fame_round roundIndex x) st (zrange (roundIndex + 1) last).

Definition decideFame_round (st : Votes * list Z) (r : PendingRound) : H (Votes * list Z) :=
  let '(votes, decidedRounds) := st in
  let roundIndex := pr_Index r in
  rRoundInfo <- onStore (GetRoundInfo roundIndex) ;;
  rPeerSet <- readStoreR (λ s, GetPeerSet s roundIndex) ;;
  st <- foldM (fame_witness roundIndex) (votes, rRoundInfo) (Witnesses rRoundInfo) ;;
  let '(votes, rRoundInfo) := st in
  let '(decided, rRoundInfo) := WitnessesDecided rRoundInfo rPeerSet in
  onStore (SetRoundInfo roundIndex rRoundInfo) ;;;
  ret (votes, if decided then decidedRounds ++ [roundIndex] else decidedRounds).

Definition DecideFame : H unit :=
  rounds <- gets (λ h, GetOrderedPendingRounds (PendingRounds h)) ;;
  st <- foldM decideFame_round (∅, []) rounds ;;
  modify (λ h, set_PendingRounds (PRC_Update (PendingRounds h) st.2) h).

(** *** DecideRoundReceived *)
Definition see_all (fws : list string) x : H (list string) :=
  foldM (λ s w, b <- see w x ;; ret (if (b : bool) then s ++ [w] else s)) [] fws.

(** One round [i] of the inner loop. *)
Definition receive_at x (_ : bool) (i : Z) : H (ctl bool) :=
  tr <- try (onStore (GetRoundInfo i)) ;;
  match tr with
  | inr _ => ret (Break false)
  | inl tr =>
      tPeers <- readStoreR (λ s, GetPeerSet s i) ;;
      let '(decided, tr) := WitnessesDecided tr tPeers in
      modify (λ h, set_Store (mutRound i (λ _, tr) (hg_Store h)) h) ;;;
      lb <- gets roundLowerBound ;;
      if negb decided then
        ret (if (match lb with None => true | Some lb => lb <? i end) then Break false
             else Continue false)
      else
        let fws := FamousWitnesses tr in
        s <- see_all fws x ;;
        if (zlen s =? zlen fws) && (SuperMajority tPeers <=? zlen s) then
          ex <- onStore (GetEvent x) ;;
          let ex := SetRoundReceived ex i in
          modify (λ h, set_Store (mutEvent x (λ e, SetRoundReceived e i) (hg_Store h)) h) ;;;
          onStore (SetEvent ex) ;;;
          let tr := AddReceivedEvent tr x in
          onStore (SetRoundInfo i tr) ;;;
          ret (Break true)
        else ret (Continue false)
  end.

Definition receive_event (newUndeterminedEvents : list string) x : H (list string) :=
  r <- round fuel x ;;
  last <- readStore LastRound ;;
  received <- foldM_ctl (receive_at x) false (zrange (r + 1) last) ;;
  ret (if (received : bool) then newUndeterminedEvents else newUndeterminedEvents ++ [x]).

Definition DecideRoundReceived : H unit :=
  xs <- gets UndeterminedEvents ;;
  newUndeterminedEvents <- foldM receive_event [] xs ;;
  modify (set_UndeterminedEvents newUndeterminedEvents).

(** ** Frames *)
Definition createFrameEvent x : H FrameEvent :=
  ev <- try (onStore (GetEvent x)) ;;
  match ev with
  | inr _ => throw (EMsg ("FrameEvent " +:+ x +:+ " not found"))
  | inl ev =>
      round <- round fuel x ;;
      roundInfo <- onStore (GetRoundInfo round) ;;
      match CreatedEvents roundInfo !! x with
      | None => throw (EMsg ("round " +:+ pretty round +:+ " CreatedEvents[" +:+ x +:+ "] not found"))
      | Some te =>
          lt <- lamportTimestamp fuel x ;;
          ret (mkFrameEvent ev round lt (re_Witness te))
      end
  end.

(** The loop of [createRoot]: [n] more events below [index], latest first. *)
Fixpoint root_events (n : nat) (participant : string) (index : Z)
    (reverseRootEvents : list FrameEvent) : H (list FrameEvent) :=
  match n with
  | O => ret reverseRootEvents
  | S n =>
      let index := index - 1 in
      if 0 <=? index then
        peh <- try (readStoreR (λ s, ParticipantEvent s participant index)) ;;
        match peh with
        | inr _ => ret reverseRootEvents
        | inl peh =>
            rev <- createFrameEvent peh ;;
            root_events n participant index (reverseRootEvents ++ [rev])
        end
      else ret reverseRootEvents
  end.

Definition createRoot (participant head : string) : H Root :=
  if decide (head = "") then ret NewRoot
  else
    headEvent <- createFrameEvent head ;;
    reverseRootEvents <- root_events ROOT_DEPTH participant (Index (fe_Core headEvent)) [headEvent] ;;
    ret (foldl Root_Insert NewRoot (reverse reverseRootEvents)).

(** The computation of [GetFrame] when the store does not have the frame. *)
Definition frame_events (received : list string) : H (list FrameEvent) :=
  events <- foldM (λ events eh, re <- createFrameEvent eh ;; ret (events ++ [re])) [] received ;;
  lift (Sort_FrameEvents events).

Definition frame_roots_own (events : list FrameEvent) : H (gmap string Root) :=
  foldM (λ roots ev,
      let p := Creator (fe_Core ev) in
      match roots !! p with
      | Some _ => ret roots
      | None => r <- createRoot p (SelfParent (fe_Core ev)) ;; ret (<[p := r]> roots)
      end) ∅ events.

Definition frame_roots_others (rr : Z) (roots : gmap string Root) : H (gmap string Root) :=
  rep <- readStore RepertoireByPubKey ;;
  foldM (λ roots '(p, peer),
      id <- lift (ID peer) ;;
      fr <- readStore (λ s, FirstRound s id) ;;
      if negb fr.2 || (rr <? fr.1) then ret roots
      else match roots !! p with
           | Some _ => ret roots
           | None =>
               lastConsensusEventHash <- readStore (λ s, LastConsensusEventFrom s p) ;;
               root <- createRoot p lastConsensusEventHash ;;
               ret (<[p := root]> roots)
           end) roots (range rep).

Definition frame_timestamp (fws : list string) : H Z :=
  timestamps <- foldM (λ ts fw, ev <- onStore (GetEvent fw) ;; ret (ts ++ [Timestamp ev])) [] fws ;;
  ret (Median timestamps).

Definition HG_GetFrame (rr : Z) : H Frame :=
  frame <- try (onStore (GetFrame rr)) ;;
  match frame with
  | inl frame => ret frame
  | inr err =>
      if negb (IsStore err KeyNotFound) then throw err
      else
        round <- onStore (GetRoundInfo rr) ;;
        peerSet <- readStoreR (λ s, GetPeerSet s rr) ;;
        events <- frame_events (ReceivedEvents round) ;;
        roots <- frame_roots_own events ;;
        roots <- frame_roots_others rr roots ;;
        allPeerSets <- readStoreR GetAllPeerSets ;;
        frameTimestamp <- frame_timestamp (FamousWitnesses round) ;;
        let res := mkFrame rr (Peers peerSet) roots events allPeerSets frameTimestamp in
        onStore (SetFrame res) ;;;
        ret res
  end.

(** ** Setters *)
Definition setLastConsensusRound (i : Z) : H unit :=
  modify (λ h, set_consensusRounds (Some i)
                 (match FirstConsensusRound h with None => Some i | fcr => fcr end) h).
Definition setRoundLowerBound (i : Z) : H unit := modify (set_roundLowerBound (Some i)).
Definition setAnchorBlock (i : Z) : H unit := modify (set_AnchorBlock (Some i)).

(** ** Block signatures and the anchor block *)
Definition SetAnchorBlock (block : Block) : H unit :=
  peerSet <- readStoreR (λ s, GetPeerSet s (Block_RoundReceived block)) ;;
  anchor <- gets AnchorBlock ;;
  if (TrustCount peerSet <? Z.of_nat (size (bl_Signatures block))) &&
     (match anchor with None => true | Some a => a <? Block_Index block end)
  then setAnchorBlock (Block_Index block)
  else ret tt.

Definition process_signature (bs : BlockSignature) : H unit :=
  block <- try (onStore (GetBlock (bs_Index bs))) ;;
  match block with
  | inr _ => ret tt
  | inl block =>
      peerSet <- try (readStoreR (λ s, GetPeerSet s (Block_RoundReceived block))) ;;
      match peerSet with
      | inr _ => ret tt
      | inl peerSet =>
          match ByPubKey peerSet !! ValidatorHex bs with
          | None => ret tt
          | Some _ =>
              valid <- lift (Block_Verify block bs) ;;
              if negb valid then ret tt
              else
                let block := SetSignature block bs in
                modify (λ h, set_Store (mutBlock (bs_Index bs) (λ b, SetSignature b bs)
                                          (hg_Store h)) h) ;;;
                _ <- try (onStore (SetBlock block)) ;;
                SetAnchorBlock block ;;;
                modify (λ h, set_PendingSignatures
                               (SP_Remove (PendingSignatures h) (BS_Key bs)) h)
          end
      end
  end.

Definition ProcessSigPool : H unit :=
  items <- gets (λ h, SP_Items (PendingSignatures h)) ;;
  forM (range items) (λ '(_, bs), process_signature bs).

Definition GetAnchorBlockWithFrame : H (Block * Frame) :=
  anchor <- gets AnchorBlock ;;
  match anchor with
  | None => throw (EMsg "No Anchor Block")
  | Some i =>
      block <- onStore (GetBlock i) ;;
      frame <- HG_GetFrame (Block_RoundReceived block) ;;
      ret (block, frame)
  end.

(** Hashes are compared as lists of bytes: [reflect.DeepEqual] also tells a nil
    slice from an empty one. The hash of a peer-set is empty only when it has
    no peers, and then there are not enough signatures anyway. *)
Definition CheckBlock (block : Block) (peerSet : PeerSet) : res unit :=
  psh <-- PS_Hash peerSet ;;
  if negb (bool_decide (psh = Block_PeersHash block)) then Err (EMsg "Wrong PeerSet")
  else
    sigs <-- GetSignatures block ;;
    validSignatures <-- res_foldM (λ n s,
        match ByPubKey peerSet !! ValidatorHex s with
        | None => Ok n
        | Some _ =>
            match Block_Verify block s with
            | Ok true => Ok (n + 1)
            | Ok false | Err _ => Ok n
            | Panic => Panic
            | OutOfFuel => OutOfFuel
            end
        end) 0 sigs ;;
    if validSignatures <=? TrustCount peerSet then Err (EMsg "Not enough valid signatures")
    else Ok tt.

(** ** Reset *)

(** The fields [Reset] clears. [PendingSignatures], [roundLowerBound], the
    counters and [timestampCache] are kept. *)
Definition clear_hashgraph (h : Hashgraph St) : Hashgraph St :=
  let n := CacheSize (hg_Store h) in
  mkHashgraph (hg_Store h) [] NewPendingRoundsCache (PendingSignatures h) None None None
    (roundLowerBound h) (LastCommitedRoundEvents h) (ConsensusTransactions h) 0 0
    (mkMemo (NewLRU n false) (NewLRU n false) (NewLRU n false) (NewLRU n false)
       (timestampCache (memo h)) (NewLRU n false)).

Definition Reset (block : Block) (frame : Frame) : H unit :=
  modify clear_hashgraph ;;;
  onStore (Store_Reset frame) ;;;
  sortedFrameEvents <- lift (SortedFrameEvents frame) ;;
  forM sortedFrameEvents InsertFrameEvent ;;;
  onStore (SetBlock block) ;;;
  setLastConsensusRound (Block_RoundReceived block) ;;;
  setRoundLowerBound (Block_RoundReceived block).

(** ** Reading events from the wire *)
Definition ReadWireInfo (wevent : WireEvent) : H Event :=
  let wb := we_Body wevent in
  rep <- readStore RepertoireByID ;;
  match rep !! wb_CreatorID wb with
  | None => throw (EMsg ("Creator " +:+ pretty (wb_CreatorID wb) +:+ " not found"))
  | Some creator =>
      dec <- lift (DecodeFromString (PubKeyString creator)) ;;
      match dec.2 with
      | Some err => throw err
      | None =>
          let creatorBytes := dec.1 in
          selfParent <-
            (if 0 <=? wb_SelfParentIndex wb then
               readStoreR (λ s, ParticipantEvent s (PubKeyString creator) (wb_SelfParentIndex wb))
             else ret "") ;;
          otherParent <-
            (if 0 <=? wb_OtherParentIndex wb then
               match rep !! wb_OtherParentCreatorID wb with
               | None => throw (EMsg ("Participant " +:+ pretty (wb_OtherParentCreatorID wb)
                                        +:+ " not found"))
               | Some otherParentCreator =>
                   op <- try (readStoreR (λ s, ParticipantEvent s
                           (PubKeyString otherParentCreator) (wb_OtherParentIndex wb))) ;;
                   match op with
                   | inl op => ret op
                   | inr _ => throw (EMsg "OtherParent not found")
                   end
               end
             else ret "") ;;
          ret (mkEvent
                 (mkEventBody (wb_Transactions wb) (wb_InternalTransactions wb)
                    (selfParent, otherParent) creatorBytes (wb_Index wb)
                    (WE_BlockSignatures wevent creatorBytes) (wb_Timestamp wb)
                    (wb_CreatorID wb) (wb_OtherParentCreatorID wb) (wb_SelfParentIndex wb)
                    (wb_OtherParentIndex wb))
                 (we_Signature wevent) 0 None None None ∅ ∅)
      end
  end.

(** ** Committing *)
Section commit.
Context {X : Type} (commitCallback : Block → GoM error (Hashgraph St * X) unit).
Abbreviation HX := (GoM error (Hashgraph St * X)).

(** A method of the hashgraph, run beside the owner's state. *)
Definition onHG {A} (m : H A) : HX A := zoom fst (λ h hx, (h, hx.2)) m.

Definition commit_event (e : FrameEvent) : H unit :=
  onStore (AddConsensusEvent (fe_Core e)) ;;;
  modify (add_ConsensusTransactions (zlen (Transactions (fe_Core e)))) ;;;
  (if IsLoaded (fe_Core e) then modify (add_PendingLoadedEvents (-1)) else ret tt).

(** One decided round. An error of the callback is only logged. *)
Definition process_round (index : Z) : HX unit :=
  _ <- onHG (onStore (GetRoundInfo index)) ;;
  frame <- onHG (wrap ("Getting Frame " +:+ pretty index) (HG_GetFrame index)) ;;
  (if 0 <? zlen (fr_Events frame) then
     onHG (forM (fr_Events frame) commit_event) ;;;
     lastBlockIndex <- onHG (readStore LastBlockIndex) ;;
     block <- lift (NewBlockFromFrame (lastBlockIndex + 1) frame) ;;
     (if (0 <? zlen (Block_Transactions block)) || (0 <? zlen (Block_InternalTransactions block))
      then
        onHG (onStore (SetBlock block)) ;;;
        _ <- try (commitCallback block) ;;
        ret tt
      else ret tt) ;;;
     onHG (modify (set_LastCommitedRoundEvents (zlen (fr_Events frame))))
   else ret tt) ;;;
  onHG (
    lcr <- gets LastConsensusRound ;;
    if (match lcr with None => true | Some l => l <? index end)
    then setLastConsensusRound index else ret tt).

(** The loop stops at the first undecided round; the processed rounds are
    returned even when it fails, for the deferred [Clean]. *)
Fixpoint process_rounds (processed : list Z) (rs : list PendingRound) :
    HX (list Z * option error) :=
  match rs with
  | [] => ret (processed, None)
  | r :: rs =>
      if negb (pr_Decided r) then ret (processed, None)
      else
        e <- try (process_round (pr_Index r)) ;;
        match e with
        | inr err => ret (processed, Some err)
        | inl _ => process_rounds (processed ++ [pr_Index r]) rs
        end
  end.

Definition ProcessDecidedRounds : HX unit :=
  rounds <- onHG (gets (λ h, GetOrderedPendingRounds (PendingRounds h))) ;;
  out <- process_rounds [] rounds ;;
  onHG (modify (λ h, set_PendingRounds (PRC_Clean (PendingRounds h) out.1) h)) ;;;
  match out.2 with
  | Some err => throw err
  | None => ret tt
  end.

Definition InsertEventAndRunConsensus event (setWireInfo : bool) : HX Event :=
  event <- onHG (InsertEvent event setWireInfo) ;;
  onHG DivideRounds ;;;
  onHG DecideFame ;;;
  onHG DecideRoundReceived ;;;
  ProcessDecidedRounds ;;;
  ret event.
End commit.
End hashgraph.

Definition DummyInternalCommitCallback {St X} (b : Block) : GoM error (Hashgraph St * X) unit :=
  ret tt.
