(* ===== verification/Badger.v ===== *)
(** * BadgerStore and bootstrapping

    Models src/src/hashgraph/badger_store.go (and badger_store_mobile.go, the
    same code over a fork of the database), the encodings of the stored values
    and [Hashgraph.Bootstrap].

    The database is the class [KV]: a transaction reads a snapshot through
    its own writes ([kv_Get]), collects writes ([kv_Set]) and applies them
    together ([kv_Commit]). An item and its value are separate, as in the
    code: reading the value of an item can fail on its own. [KVLaws] states
    what the theorems use of it. [DBCodec] are the JSON encoders of what is
    stored, on the exported fields; [DBCodecLaws] what is used of them.

    The cache is an [InmemStore]. A value read from the database is a new
    object: a write to it ([mutEvent], [mutBlock]) does not reach the cache. *)
From S2P Require Export Hashgraph InmemStore.

(** ** The database *)
Class KV (DB : Type) := {
  kv_Item : Type;
  ErrKeyNotFound : error;
  kv_Get : DB → list (string * bytes) → string → res kv_Item;
  kv_ValueCopy : kv_Item → res bytes;
  kv_Set : list (string * bytes) → string → bytes → res (list (string * bytes));
  kv_Commit : list (string * bytes) → M DB unit;
  kv_Prefix : DB → string → list kv_Item;
  kv_Close : M DB unit;
}.

Definition apply_writes (w : list (string * bytes)) (m : gmap string bytes) :
    gmap string bytes :=
  foldl (λ m '(k, v), <[k := v]> m) m w.

(** [Get] fails exactly on the keys that are absent, and then with
    [ErrKeyNotFound]; a transaction is applied as a whole or not at all. *)
Class KVLaws (DB : Type) {KVD : KV DB} := {
  kv_content : DB → gmap string bytes;
  kv_Get_law : ∀ d w k, k ≠ "" →
    match apply_writes w (kv_content d) !! k with
    | Some v => ∃ it, kv_Get d w k = Ok it ∧ kv_ValueCopy it = Ok v
    | None => kv_Get d w k = Err ErrKeyNotFound
    end;
  kv_Get_empty : ∀ d w, ∃ err, kv_Get d w "" = Err err;
  kv_Set_law : ∀ w k v w', kv_Set w k v = Ok w' → w' = w ++ [(k, v)];
  kv_Commit_law : ∀ w d,
    match kv_Commit w d with
    | (Ok _, d') => kv_content d' = apply_writes w (kv_content d)
    | (_, d') => kv_content d' = kv_content d
    end;
}.

(** ** The encodings *)
Record RoundInfoJSON := mkRIJ {
  rij_CreatedEvents : gmap string roundEvent;
  rij_ReceivedEvents : list string;
}.

Class DBCodec := {
  json_eventWrapper : eventWrapper → res bytes;
  unjson_eventWrapper : bytes → res eventWrapper;
  json_Block : Block → res bytes;
  unjson_Block : bytes → res Block;
  json_Root : list FrameEventJSON → res bytes;
  unjson_Root : bytes → res (list FrameEventJSON);
  json_RoundInfo : RoundInfoJSON → res bytes;
  unjson_RoundInfo : bytes → res RoundInfoJSON;
  unjson_Frame : bytes → res FrameJSON;
  json_Peer : Peer → res bytes;
  unjson_Peer : bytes → res Peer;
  json_Peers : list Peer → res bytes;
  unjson_Peers : bytes → res (list Peer);
}.

(** What was encoded decodes, to a value that has the same encoding: the text
    that is not valid UTF-8 is replaced when it is encoded, and the
    replacement is stable. Bytes and integers are not changed. *)
Class DBCodecLaws {CP : Codec} {DC : DBCodec} := {
  eventWrapper_roundtrip : ∀ w b, json_eventWrapper w = Ok b →
    ∃ w', unjson_eventWrapper b = Ok w' ∧
      json_EventBody (ew_Body w') = json_EventBody (ew_Body w) ∧
      ebj_Creator (ew_Body w') = ebj_Creator (ew_Body w) ∧
      ebj_Index (ew_Body w') = ebj_Index (ew_Body w) ∧
      ew_TopologicalIndex w' = ew_TopologicalIndex w;
}.

(** A decoded structure has its private fields at zero. *)
Definition ev_of_public (b : EventBodyJSON) (sig : string) : Event :=
  mkEvent (mkEventBody (ebj_Transactions b) (ebj_InternalTransactions b) (ebj_Parents b)
             (ebj_Creator b) (ebj_Index b) (ebj_BlockSignatures b) (ebj_Timestamp b) 0 0 0 0)
    sig 0 None None None ∅ ∅.
Definition fe_of_public (f : FrameEventJSON) : FrameEvent :=
  mkFrameEvent (ev_of_public (fej_Body f) (fej_Signature f)) (fej_Round f)
    (fej_LamportTimestamp f) (fej_Witness f).

Section encodings.
Context {CP : Codec} {DC : DBCodec}.
Definition Event_MarshalDB (e : Event) : res bytes := json_eventWrapper (MarshalDB e).
Definition Event_UnmarshalDB (data : bytes) : res Event :=
  wrapper <-- unjson_eventWrapper data ;; Ok (UnmarshalDB wrapper).
Definition Block_Marshal (b : Block) : res bytes := json_Block b.
Definition Block_Unmarshal (data : bytes) : res Block := unjson_Block data.
Definition Root_Marshal (r : Root) : res bytes := json_Root (fe_public <$> root_Events r).
Definition Root_Unmarshal (data : bytes) : res Root :=
  l <-- unjson_Root data ;; Ok (mkRoot (fe_of_public <$> l)).
Definition RoundInfo_Marshal (r : RoundInfo) : res bytes :=
  json_RoundInfo (mkRIJ (CreatedEvents r) (ReceivedEvents r)).
Definition RoundInfo_Unmarshal (data : bytes) : res RoundInfo :=
  r <-- unjson_RoundInfo data ;;
  Ok (mkRI_ (rij_CreatedEvents r) (rij_ReceivedEvents r) false false).
Definition Frame_Marshal (f : Frame) : res bytes := json_Frame (fr_public f).
Definition Frame_Unmarshal (data : bytes) : res Frame :=
  f <-- unjson_Frame data ;;
  Ok (mkFrame (fj_Round f) (fj_Peers f) ((λ l, mkRoot (fe_of_public <$> l)) <$> fj_Roots f)
        (fe_of_public <$> fj_Events f) (fj_PeerSets f) (fj_Timestamp f)).
Definition Peer_Marshal (p : Peer) : res bytes := json_Peer p.
Definition Peer_Unmarshal (data : bytes) : res Peer := unjson_Peer data.
Definition PS_Marshal (ps : PeerSet) : res bytes := json_Peers (Peers ps).
Definition PS_Unmarshal (data : bytes) : res PeerSet :=
  ps <-- unjson_Peers data ;; NewPeerSet ps.
End encodings.

(** ** Keys *)

(** [%09d]: zeroes up to nine characters, after the sign. *)
Fixpoint zeros (n : nat) (s : string) : string :=
  match n with O => s | S n => String "0" (zeros n s) end.
Definition pad (width : nat) (s : string) : string := zeros (width - String.length s) s.
Definition fmt09d (i : Z) : string :=
  if i <? 0 then "-" +:+ pad 8 (pretty (Z.to_N (- i))) else pad 9 (pretty (Z.to_N i)).

Definition repertoirePrefix : string := "rep".
Definition peerSetPrefix : string := "peerset".
Definition rootSuffix : string := "root".
Definition roundPrefix : string := "round".
Definition topoPrefix : string := "topo".
Definition blockPrefix : string := "block".
Definition framePrefix : string := "frame".

Definition repertoireKey (pub : string) : string := repertoirePrefix +:+ "_" +:+ pub.
Definition peerSetKey (round : Z) : string := peerSetPrefix +:+ "_" +:+ fmt09d round.
Definition topologicalEventKey (index : Z) : string := topoPrefix +:+ "_" +:+ fmt09d index.
Definition participantEventKey (participant : string) (index : Z) : string :=
  participant +:+ "__event_" +:+ fmt09d index.
Definition participantRootKey (participant : string) : string :=
  participant +:+ "_" +:+ rootSuffix.
Definition roundKey (index : Z) : string := roundPrefix +:+ "_" +:+ fmt09d index.
Definition blockKey (index : Z) : string := blockPrefix +:+ "_" +:+ fmt09d index.
Definition frameKey (index : Z) : string := framePrefix +:+ "_" +:+ fmt09d index.

(** ** The store *)
Record BadgerStore (DB : Type) := mkBadger {
  inmemStore : InmemStore;
  badger_db : DB;
  badger_path : string;
  badger_maintenanceMode : bool;
}.
Arguments mkBadger {DB}.
Arguments inmemStore {DB}.
Arguments badger_db {DB}.
Arguments badger_path {DB}.
Arguments badger_maintenanceMode {DB}.

Section badger.
Context {KP : Keys} {CP : Codec} {RO : RangeOrder} {DC : DBCodec}.
Context {DB : Type} {KVD : KV DB}.
Abbreviation BS := (BadgerStore DB).
Abbreviation B := (M (BadgerStore DB)).
Implicit Types (s : BadgerStore DB) (d : DB).

Definition set_inmemStore (m : InmemStore) s : BS :=
  mkBadger m (badger_db s) (badger_path s) (badger_maintenanceMode s).
Definition set_badger_db d s : BS :=
  mkBadger (inmemStore s) d (badger_path s) (badger_maintenanceMode s).
Definition SetMaintenanceMode (val : bool) s : BS :=
  mkBadger (inmemStore s) (badger_db s) (badger_path s) val.
Definition GetMaintenanceMode s : bool := badger_maintenanceMode s.

(** The database that [badger.Open] found at the path is an argument. *)
Definition NewBadgerStore (cacheSize : Z) (path : string) (maintenanceMode : bool)
    (handle : res DB) : res BS :=
  handle <-- handle ;;
  Ok (mkBadger (NewInmemStore cacheSize) handle path maintenanceMode).

Definition onInmem {A} (m : M InmemStore A) : B A := zoom inmemStore set_inmemStore m.

(** *** Errors *)
Definition isDBKeyNotFound (err : error) : bool :=
  bool_decide (error_msg err = error_msg ErrKeyNotFound).
Definition mapError (err : error) (name key : string) : error :=
  if isDBKeyNotFound err then NewStoreErr name KeyNotFound key else err.
Definition mapErr {A} (name key : string) (r : res A) : res A :=
  match r with Err err => Err (mapError err name key) | _ => r end.

(** *** Transactions *)

(** [db.View] of one key: [Get] and [ValueCopy]. *)
Definition db_view d (key : string) : res bytes :=
  item <-- kv_Get d [] key ;; kv_ValueCopy item.

(** A transaction of one [Set]. *)
Definition db_put (key : string) (val : res bytes) : B unit :=
  val <- lift val ;;
  w <- lift (kv_Set [] key val) ;;
  zoom badger_db set_badger_db (kv_Commit w).

Definition dbSetRepertoire (peer : Peer) : B unit :=
  db_put (repertoireKey (PubKeyString peer)) (Peer_Marshal peer).

Definition dbGetRepertoire d : res (gmap string Peer) :=
  res_foldM (λ repertoire item,
      data <-- kv_ValueCopy item ;;
      peer <-- Peer_Unmarshal data ;;
      Ok (<[PubKeyString peer := peer]> repertoire))
    ∅ (kv_Prefix d repertoirePrefix).

Definition dbGetPeerSet d (round : Z) : res PeerSet :=
  peerSliceBytes <-- db_view d (peerSetKey round) ;; PS_Unmarshal peerSliceBytes.
Definition dbSetPeerSet (round : Z) (peerSet : PeerSet) : B unit :=
  db_put (peerSetKey round) (PS_Marshal peerSet).

Definition dbGetEvent d (key : string) : res Event :=
  eventBytes <-- db_view d key ;; Event_UnmarshalDB eventBytes.

(** One event of the loop of [dbSetEvents], on the writes of the transaction. *)
Definition tx_SetEvent d (w : list (string * bytes)) (event : Event) :
    res (list (string * bytes)) :=
  let eventHex := Hex event in
  val <-- Event_MarshalDB event ;;
  new <-- (match kv_Get d w eventHex with
           | Ok _ => Ok false
           | Err err => Ok (isDBKeyNotFound err)
           | Panic => Panic
           | OutOfFuel => OutOfFuel
           end) ;;
  w <-- kv_Set w eventHex val ;;
  if (new : bool) then
    w <-- kv_Set w (topologicalEventKey (ev_topologicalIndex event))
            (String.list_byte_of_string eventHex) ;;
    kv_Set w (participantEventKey (Creator event) (Index event))
      (String.list_byte_of_string eventHex)
  else Ok w.
Definition dbSetEvents (events : list Event) : B unit :=
  d <- gets badger_db ;;
  w <- lift (res_foldM (tx_SetEvent d) [] events) ;;
  zoom badger_db set_badger_db (kv_Commit w).

(** The loop of [dbParticipantEvents], which stops at the first index that is
    missing; a value that cannot be read ends it without an error. *)
Fixpoint participantEvents_from (n : nat) d (participant : string) (i : Z)
    (acc : list string) : res (list string) :=
  match n with
  | O => OutOfFuel
  | S n =>
      match kv_Get d [] (participantEventKey participant i) with
      | Ok item =>
          match kv_ValueCopy item with
          | Ok v => participantEvents_from n d participant (i + 1)
                      (acc ++ [String.string_of_list_byte v])
          | Err _ => Ok acc
          | Panic => Panic
          | OutOfFuel => OutOfFuel
          end
      | Err err => if isDBKeyNotFound err then Ok acc else Err err
      | Panic => Panic
      | OutOfFuel => OutOfFuel
      end
  end.

Context (db_fuel : nat).
Definition dbParticipantEvents d (participant : string) (skip : Z) : res (list string) :=
  participantEvents_from db_fuel d participant (skip + 1) [].

Definition dbParticipantEvent d (participant : string) (index : Z) : res string :=
  data <-- db_view d (participantEventKey participant index) ;;
  Ok (String.string_of_list_byte data).

(** The loop of [dbTopologicalEvents]: at most [n] more events from [t]. *)
Fixpoint topologicalEvents_from (n : nat) d (t : Z) (acc : list Event) : res (list Event) :=
  match kv_Get d [] (topologicalEventKey t) with
  | Ok item =>
      match n with
      | O => Ok acc
      | S n =>
          match kv_ValueCopy item with
          | Ok v =>
              eventBytes <-- db_view d (String.string_of_list_byte v) ;;
              event <-- Event_UnmarshalDB eventBytes ;;
              topologicalEvents_from n d (t + 1) (acc ++ [event])
          | Err _ => Ok acc
          | Panic => Panic
          | OutOfFuel => OutOfFuel
          end
      end
  | Err err => if isDBKeyNotFound err then Ok acc else Err err
  | Panic => Panic
  | OutOfFuel => OutOfFuel
  end.
Definition dbTopologicalEvents d (start count : Z) : res (list Event) :=
  topologicalEvents_from (Z.to_nat count) d start [].

Definition dbSetRoot (participant : string) (root : Root) : B unit :=
  db_put (participantRootKey participant) (Root_Marshal root).
Definition dbGetRoot d (participant : string) : res Root :=
  rootBytes <-- db_view d (participantRootKey participant) ;; Root_Unmarshal rootBytes.
Definition dbGetRound d (index : Z) : res RoundInfo :=
  roundBytes <-- db_view d (roundKey index) ;; RoundInfo_Unmarshal roundBytes.
Definition dbSetRound (index : Z) (round : RoundInfo) : B unit :=
  db_put (roundKey index) (RoundInfo_Marshal round).
Definition dbGetBlock d (index : Z) : res Block :=
  blockBytes <-- db_view d (blockKey index) ;; Block_Unmarshal blockBytes.
Definition dbSetBlock (block : Block) : B unit :=
  db_put (blockKey (Block_Index block)) (Block_Marshal block).
Definition dbGetFrame d (index : Z) : res Frame :=
  frameBytes <-- db_view d (frameKey index) ;; Frame_Unmarshal frameBytes.
Definition dbSetFrame (frame : Frame) : B unit :=
  db_put (frameKey (fr_Round frame)) (Frame_Marshal frame).

(** *** The methods *)

(** [if s.maintenanceMode { return nil }; return m] *)
Definition unless_maintenance (m : B unit) : B unit :=
  mode <- gets badger_maintenanceMode ;;
  if (mode : bool) then ret tt else m.

Definition Badger_GetRound (r : Z) : B RoundInfo := onInmem (Inmem_GetRound r).
Definition Badger_RoundWitnesses (r : Z) : B (list string) :=
  round <- try (Badger_GetRound r) ;;
  ret (match round with inl round => Witnesses round | inr _ => [] end).
Definition Badger_RoundEvents (r : Z) : B Z :=
  round <- try (Badger_GetRound r) ;;
  ret (match round with inl round => Z.of_nat (size (CreatedEvents round)) | inr _ => 0 end).

Definition Badger_addParticipant (p : Peer) : B unit :=
  unless_maintenance (
    dbSetRepertoire p ;;;
    d <- gets badger_db ;;
    match dbGetRoot d (PubKeyString p) with
    | Ok _ => ret tt
    | Err _ => dbSetRoot (PubKeyString p) NewRoot
    | Panic => panic
    | OutOfFuel => diverge
    end).

Definition Badger_SetPeerSet (round : Z) (peerSet : PeerSet) : B unit :=
  onInmem (Inmem_SetPeerSet round peerSet) ;;;
  unless_maintenance (dbSetPeerSet round peerSet) ;;;
  forM (Peers peerSet) Badger_addParticipant.

Definition Badger_SetEvent (event : Event) : B unit :=
  onInmem (Inmem_SetEvent event) ;;;
  unless_maintenance (dbSetEvents [event]).

(** [if err != nil { res, err = fromDB }] *)
Definition or_else {A} (r : res A) (fallback : res A) : res A :=
  match r with Err _ => fallback | _ => r end.

Definition Badger_ParticipantEvents s (participant : string) (skip : Z) : res (list string) :=
  or_else (Inmem_ParticipantEvents (inmemStore s) participant skip)
    (dbParticipantEvents (badger_db s) participant skip).
Definition Badger_ParticipantEvent s (participant : string) (index : Z) : res string :=
  or_else (Inmem_ParticipantEvent (inmemStore s) participant index)
    (dbParticipantEvent (badger_db s) participant index).

Definition Badger_SetRound (r : Z) (round : RoundInfo) : B unit :=
  onInmem (Inmem_SetRound r round) ;;;
  unless_maintenance (dbSetRound r round).

Definition Badger_GetRoot s (participant : string) : res Root :=
  mapErr "Root" (participantRootKey participant)
    (or_else (Inmem_GetRoot (inmemStore s) participant) (dbGetRoot (badger_db s) participant)).

(** A read of the cache, then of the database. *)
Definition cached {A} (m : M InmemStore A) (fromDB : DB → res A) (name key : string) : B A :=
  r <- try (onInmem m) ;;
  match r with
  | inl a => ret a
  | inr _ => d <- gets badger_db ;; lift (mapErr name key (fromDB d))
  end.
Definition Badger_GetEvent (key : string) : B Event :=
  cached (Inmem_GetEvent key) (λ d, dbGetEvent d key) "Event" key.
Definition Badger_GetBlock (rr : Z) : B Block :=
  cached (Inmem_GetBlock rr) (λ d, dbGetBlock d rr) "Block" (blockKey rr).

Definition Badger_SetBlock (block : Block) : B unit :=
  onInmem (Inmem_SetBlock block) ;;;
  unless_maintenance (dbSetBlock block).
Definition Badger_SetFrame (frame : Frame) : B unit :=
  onInmem (Inmem_SetFrame frame) ;;;
  unless_maintenance (dbSetFrame frame).

(** The frame that [Inmem_Reset] was given shares its map of roots with the
    cache: participants added on the way are in it when it is written. *)
Definition Badger_Reset (frame : Frame) : B unit :=
  onInmem (Inmem_Reset frame) ;;;
  unless_maintenance (
    rs <- gets (λ s, roots (inmemStore s)) ;;
    let frame := set_fr_Roots rs frame in
    dbSetFrame frame ;;;
    forM (range (fr_Roots frame)) (λ '(p, root), dbSetRoot p root) ;;;
    peerSet <- lift (NewPeerSet (fr_Peers frame)) ;;
    dbSetPeerSet (fr_Round frame) peerSet).

Definition Badger_Close : B unit := zoom badger_db set_badger_db kv_Close.
Definition StorePath s : string := badger_path s.

#[export] Instance BadgerStore_Store : Store BS := {
  CacheSize := λ s, cacheSize (inmemStore s);
  GetPeerSet := λ s, Inmem_GetPeerSet (inmemStore s);
  SetPeerSet := Badger_SetPeerSet;
  GetAllPeerSets := λ s, Inmem_GetAllPeerSets (inmemStore s);
  FirstRound := λ s, Inmem_FirstRound (inmemStore s);
  RepertoireByPubKey := λ s, Inmem_RepertoireByPubKey (inmemStore s);
  RepertoireByID := λ s, Inmem_RepertoireByID (inmemStore s);
  GetEvent := Badger_GetEvent;
  SetEvent := Badger_SetEvent;
  ParticipantEvents := Badger_ParticipantEvents;
  ParticipantEvent := Badger_ParticipantEvent;
  LastEventFrom := λ s, Inmem_LastEventFrom (inmemStore s);
  LastConsensusEventFrom := λ s, Inmem_LastConsensusEventFrom (inmemStore s);
  KnownEvents := λ s, Inmem_KnownEvents (inmemStore s);
  ConsensusEvents := λ s, Inmem_ConsensusEvents (inmemStore s);
  ConsensusEventsCount := λ s, Inmem_ConsensusEventsCount (inmemStore s);
  AddConsensusEvent := λ e, onInmem (Inmem_AddConsensusEvent e);
  GetRoundInfo := Badger_GetRound;
  SetRoundInfo := Badger_SetRound;
  LastRound := λ s, Inmem_LastRound (inmemStore s);
  RoundWitnesses := Badger_RoundWitnesses;
  RoundEvents := Badger_RoundEvents;
  GetRoot := Badger_GetRoot;
  GetBlock := Badger_GetBlock;
  SetBlock := Badger_SetBlock;
  LastBlockIndex := λ s, Inmem_LastBlockIndex (inmemStore s);
  GetFrame := λ rr, onInmem (Inmem_GetFrame rr);
  SetFrame := Badger_SetFrame;
  Store_Reset := Badger_Reset;
  mutEvent := λ k f s, set_inmemStore (mutEvent k f (inmemStore s)) s;
  mutRound := λ k f s, set_inmemStore (mutRound k f (inmemStore s)) s;
  mutBlock := λ k f s, set_inmemStore (mutBlock k f (inmemStore s)) s;
}.

(** ** Bootstrap (hashgraph.go) *)
Section bootstrap.
Context (fuel : nat).
Context {X : Type} (commitCallback : Block → GoM error (Hashgraph BS * X) unit).
Abbreviation HX := (GoM error (Hashgraph BS * X)).

(** [defer f()]: run on every way out. *)
Definition deferred {A} (f : Hashgraph BS → Hashgraph BS) (m : HX A) : HX A :=
  λ hx, let '(r, (h, x)) := m hx in (r, (f h, x)).

Definition batchSize : Z := 100.

(** The loop over the batches. *)
Fixpoint bootstrap_batches (n : nat) (index : Z) : HX unit :=
  match n with
  | O => diverge
  | S n =>
      d <- gets (λ hx, badger_db (hg_Store hx.1)) ;;
      topologicalEvents <- lift (dbTopologicalEvents d (index * batchSize) batchSize) ;;
      forM topologicalEvents (λ e,
          _ <- InsertEventAndRunConsensus fuel commitCallback e true ;; ret tt) ;;;
      onHG ProcessSigPool ;;;
      if zlen topologicalEvents <? batchSize then ret tt
      else bootstrap_batches n (index + 1)
  end.

Definition set_mode (val : bool) (h : Hashgraph BS) : Hashgraph BS :=
  set_Store (SetMaintenanceMode val (hg_Store h)) h.

Definition bootstrap_body (n : nat) : HX unit :=
  onHG (modify (set_mode true)) ;;;
  d <- gets (λ hx, badger_db (hg_Store hx.1)) ;;
  match dbGetPeerSet d 0 with
  | Err _ => ret tt
  | Panic => panic
  | OutOfFuel => diverge
  | Ok peerSet =>
      _ <- try (onHG (onStore (onInmem (Inmem_SetPeerSet 0 peerSet)))) ;;
      bootstrap_batches n 0
  end.

Definition Bootstrap (n : nat) : HX unit :=
  mode <- gets (λ hx, GetMaintenanceMode (hg_Store hx.1)) ;;
  if (mode : bool) then bootstrap_body n else deferred (set_mode false) (bootstrap_body n).
End bootstrap.
End badger.
