(* ===== verification/Core.v ===== *)
(** * The core of a node (src/src/node/core.go, validator.go, promise.go)

    [core] drives the hashgraph on behalf of a node: it turns wire events into
    insertions, packs the pools into self-events, signs the blocks that
    consensus produces and applies the peer-set changes they carry.

    A method of [*core] runs on the hashgraph, the fields of the core
    ([coreState]) and the state [P] of the application, which only
    [proxyCommitCallback] touches. [core.commit] is the hashgraph's commit
    callback: it runs inside [InsertEventAndRunConsensus], on the same state.

    Readings of the wall clock come from [clock]. A [joinPromise] names its
    channel; [channels] holds what has been sent on each. The waiting of
    [leave] is not modelled. *)
From S2P Require Export Hashgraph PeerSelector.

(** ** Validator *)
Record Validator := mkValidator {
  val_Key : Z * (Z * Z);
  val_Moniker : string;
}.
Definition NewValidator (key : Z * (Z * Z)) (moniker : string) : Validator :=
  mkValidator key moniker.
Section validator.
Context {KP : Keys}.
Definition PublicKeyBytes (v : Validator) : bytes := FromPublicKey (Some (val_Key v).2).
Definition Validator_PublicKeyHex (v : Validator) : string := PublicKeyHex (Some (val_Key v).2).
Definition Validator_ID (v : Validator) : Z := PublicKeyID (PublicKeyBytes v).
End validator.

(** ** Promises *)
Record joinPromiseResponse := mkJoinResponse {
  jr_accepted : bool;
  jr_acceptedRound : Z;
  jr_peers : list Peer;
}.
Record joinPromise := mkPromise {
  jp_tx : InternalTransaction;
  respCh : nat;
}.

(** ** The application's answer (proxy/types.go) *)
Record CommitResponse := mkCommitResponse {
  cr_StateHash : bytes;
  cr_Receipts : list InternalTransactionReceipt;
}.

Record coreState := mkCore {
  validator : Validator;
  genesisPeers : PeerSet;
  validators : PeerSet;
  core_peers : PeerSet;
  peerSelector : randomPeerSelector;
  core_head : string;
  core_seq : Z;
  acceptedRound : Z;
  removedRound : Z;
  targetRound : Z;
  lastPeerChangeRound : Z;
  heads : gmap Z (option Event);
  transactionPool : list bytes;
  internalTransactionPool : list InternalTransaction;
  selfBlockSignatures : SigPool;
  maintenanceMode : bool;
  promises : gmap string joinPromise;
  channels : gmap nat (list joinPromiseResponse);
  nextChannel : nat;
  ticks : nat;
}.

(** Field updates *)
Definition set_validators x c :=
  mkCore (validator c) (genesisPeers c) x (core_peers c) (peerSelector c) (core_head c)
    (core_seq c) (acceptedRound c) (removedRound c) (targetRound c) (lastPeerChangeRound c)
    (heads c) (transactionPool c) (internalTransactionPool c) (selfBlockSignatures c)
    (maintenanceMode c) (promises c) (channels c) (nextChannel c) (ticks c).
Definition set_core_peers x sel c :=
  mkCore (validator c) (genesisPeers c) (validators c) x sel (core_head c)
    (core_seq c) (acceptedRound c) (removedRound c) (targetRound c) (lastPeerChangeRound c)
    (heads c) (transactionPool c) (internalTransactionPool c) (selfBlockSignatures c)
    (maintenanceMode c) (promises c) (channels c) (nextChannel c) (ticks c).
Definition set_head_seq hd sq c :=
  mkCore (validator c) (genesisPeers c) (validators c) (core_peers c) (peerSelector c) hd
    sq (acceptedRound c) (removedRound c) (targetRound c) (lastPeerChangeRound c)
    (heads c) (transactionPool c) (internalTransactionPool c) (selfBlockSignatures c)
    (maintenanceMode c) (promises c) (channels c) (nextChannel c) (ticks c).
Definition set_rounds acc rem tgt lpc c :=
  mkCore (validator c) (genesisPeers c) (validators c) (core_peers c) (peerSelector c)
    (core_head c) (core_seq c) acc rem tgt lpc
    (heads c) (transactionPool c) (internalTransactionPool c) (selfBlockSignatures c)
    (maintenanceMode c) (promises c) (channels c) (nextChannel c) (ticks c).
Definition set_acceptedRound x c :=
  set_rounds x (removedRound c) (targetRound c) (lastPeerChangeRound c) c.
Definition set_removedRound x c :=
  set_rounds (acceptedRound c) x (targetRound c) (lastPeerChangeRound c) c.
Definition set_targetRound x c :=
  set_rounds (acceptedRound c) (removedRound c) x (lastPeerChangeRound c) c.
Definition set_lastPeerChangeRound x c :=
  set_rounds (acceptedRound c) (removedRound c) (targetRound c) x c.
Definition set_heads x c :=
  mkCore (validator c) (genesisPeers c) (validators c) (core_peers c) (peerSelector c)
    (core_head c) (core_seq c) (acceptedRound c) (removedRound c) (targetRound c)
    (lastPeerChangeRound c) x (transactionPool c) (internalTransactionPool c)
    (selfBlockSignatures c) (maintenanceMode c) (promises c) (channels c) (nextChannel c)
    (ticks c).
Definition set_pools txs itxs sigs c :=
  mkCore (validator c) (genesisPeers c) (validators c) (core_peers c) (peerSelector c)
    (core_head c) (core_seq c) (acceptedRound c) (removedRound c) (targetRound c)
    (lastPeerChangeRound c) (heads c) txs itxs sigs (maintenanceMode c) (promises c)
    (channels c) (nextChannel c) (ticks c).
Definition set_promises ps chs next c :=
  mkCore (validator c) (genesisPeers c) (validators c) (core_peers c) (peerSelector c)
    (core_head c) (core_seq c) (acceptedRound c) (removedRound c) (targetRound c)
    (lastPeerChangeRound c) (heads c) (transactionPool c) (internalTransactionPool c)
    (selfBlockSignatures c) (maintenanceMode c) ps chs next (ticks c).
Definition set_ticks x c :=
  mkCore (validator c) (genesisPeers c) (validators c) (core_peers c) (peerSelector c)
    (core_head c) (core_seq c) (acceptedRound c) (removedRound c) (targetRound c)
    (lastPeerChangeRound c) (heads c) (transactionPool c) (internalTransactionPool c)
    (selfBlockSignatures c) (maintenanceMode c) (promises c) (channels c) (nextChannel c) x.

Section core.
Context {KP : Keys} {CP : Codec} {RO : RangeOrder} {St : Type} {STO : Store St}.
(** The application, the clock and the bound of the hashgraph's recursions. *)
Context {P : Type} (proxyCommitCallback : Block → GoM error P CommitResponse).
Context (clock : nat → Z) (fuel : nat).
Abbreviation core := (Hashgraph St * (coreState * P))%type.
Abbreviation C := (GoM error core).

Definition getsC {A} (f : coreState → A) : C A := gets (λ s, f s.2.1).
Definition modifyC (f : coreState → coreState) : C unit :=
  modify (λ s, (s.1, (f s.2.1, s.2.2))).
Definition onApp {A} (m : GoM error P A) : C A :=
  zoom (λ s, s.2.2) (λ p s, (s.1, (s.2.1, p))) m.
Definition onH {A} (m : GoM error (Hashgraph St) A) : C A := onHG m.
(** [time.Now().Unix()] *)
Definition now : C Z :=
  t <- getsC ticks ;; modifyC (λ c, set_ticks (S (ticks c)) c) ;;; ret (clock t).

(** [newCore]; the error of [Init] is dropped. *)
Definition newCore (v : Validator) (ps genesis : PeerSet) (store : St) (maintenance : bool)
    (p : P) : res core :=
  selector <-- newRandomPeerSelector ps (Validator_ID v) ;;
  let c := mkCore v genesis genesis ps selector "" (-1) (-1) (-1) (-1) (-1) ∅ [] []
             NewSigPool maintenance ∅ ∅ 0 0 in
  match Init genesis (NewHashgraph store) with
  | (Ok _, h) | (Err _, h) => Ok (h, (c, p))
  | (Panic, _) => Panic
  | (OutOfFuel, _) => OutOfFuel
  end.

Definition setHeadAndSeq : C unit :=
  v <- getsC validator ;;
  rep <- onH (readStore RepertoireByID) ;;
  hs <- (match rep !! Validator_ID v with
         | None => ret ("", -1)
         | Some _ =>
             last <- try (onH (readStoreR (λ s, LastEventFrom s (Validator_PublicKeyHex v)))) ;;
             last <- (match last with
                      | inl l => ret l
                      | inr err => if IsStore err Empty then ret "" else throw err
                      end) ;;
             if decide (last = "") then ret ("", -1)
             else
               lastEvent <- onH (onStore (GetEvent last)) ;;
               ret (last, Index lastEvent)
         end) ;;
  modifyC (set_head_seq hs.1 hs.2).

Definition setPeers (ps : PeerSet) : C unit :=
  v <- getsC validator ;;
  selector <- lift (newRandomPeerSelector ps (Validator_ID v)) ;;
  modifyC (set_core_peers ps selector).

Definition busy : C bool :=
  s <- get ;;
  let h := s.1 in
  let c := s.2.1 in
  ret ((0 <? PendingLoadedEvents h) || (0 <? zlen (transactionPool c)) ||
       (0 <? zlen (internalTransactionPool c)) || (0 <? SP_Len (selfBlockSignatures c)) ||
       match LastConsensusRound h with
       | Some r => r <? targetRound c
       | None => false
       end).

(** ** Pools *)
Definition addTransactions (txs : list bytes) : C unit :=
  modifyC (λ c, set_pools (transactionPool c ++ txs) (internalTransactionPool c)
                  (selfBlockSignatures c) c).

Definition newJoinPromise (tx : InternalTransaction) : C joinPromise :=
  n <- getsC nextChannel ;;
  modifyC (λ c, set_promises (promises c) (<[n := []]> (channels c)) (S n) c) ;;;
  ret (mkPromise tx n).

(** [respCh] has room for two responses; a third would block. *)
Definition respond (p : joinPromise) (resp : joinPromiseResponse) : C unit :=
  chs <- getsC channels ;;
  let sent := default [] (chs !! respCh p) in
  if (2 <=? length sent)%nat then diverge
  else modifyC (λ c, set_promises (promises c) (<[respCh p := sent ++ [resp]]> (channels c))
                       (nextChannel c) c).

Definition addInternalTransaction (tx : InternalTransaction) : C joinPromise :=
  promise <- newJoinPromise tx ;;
  key <- lift (ITx_HashString tx) ;;
  modifyC (λ c, set_promises (<[key := promise]> (promises c)) (channels c) (nextChannel c) c) ;;;
  modifyC (λ c, set_pools (transactionPool c) (internalTransactionPool c ++ [tx])
                  (selfBlockSignatures c) c) ;;;
  ret promise.

(** ** Commit *)

(** The fields the response sets in the block. *)
Definition set_response (resp : CommitResponse) (b : Block) : Block :=
  let bb := bl_Body b in
  mkBlock (mkBlockBody (bb_Index bb) (bb_RoundReceived bb) (bb_Timestamp bb) (cr_StateHash resp)
             (bb_FrameHash bb) (bb_PeersHash bb) (bb_Transactions bb)
             (bb_InternalTransactions bb) (cr_Receipts resp))
    (bl_Signatures b).

(** A write to the block that the store holds. *)
Definition mutateBlock (i : Z) (f : Block → Block) : C unit :=
  onH (modify (λ h, set_Store (mutBlock i f (hg_Store h)) h)).

Definition signBlock (block : Block) : C (BlockSignature * Block) :=
  v <- getsC validator ;;
  sig <- lift (Block_Sign block (val_Key v)) ;;
  mutateBlock (Block_Index block) (λ b, SetSignature b sig) ;;;
  let block := SetSignature block sig in
  onH (onStore (SetBlock block)) ;;;
  ret (sig, block).

(** One receipt of the first loop. *)
Definition process_receipt (effectiveRound : Z) (st : PeerSet * PeerSet * bool)
    (r : InternalTransactionReceipt) : C (PeerSet * PeerSet * bool) :=
  let '(vals, currentPeers, changed) := st in
  let txBody := itx_Body (itr_InternalTransaction r) in
  if itr_Accepted r then
    match itb_Type txBody with
    | PEER_ADD =>
        vals <- lift (WithNewPeer vals (itb_Peer txBody)) ;;
        currentPeers <- lift (WithNewPeer currentPeers (itb_Peer txBody)) ;;
        ret (vals, currentPeers, true)
    | PEER_REMOVE =>
        vals <- lift (WithRemovedPeer vals (itb_Peer txBody)) ;;
        currentPeers <- lift (WithRemovedPeer currentPeers (itb_Peer txBody)) ;;
        id <- lift (ID (itb_Peer txBody)) ;;
        v <- getsC validator ;;
        (if id =? Validator_ID v then modifyC (set_removedRound effectiveRound) else ret tt) ;;;
        ret (vals, currentPeers, true)
    | UnknownTransactionType _ => ret st
    end
  else ret st.

(** The second loop: the promise of a receipt is answered and forgotten. *)
Definition answer_promise (effectiveRound : Z) (r : InternalTransactionReceipt) : C unit :=
  key <- lift (ITx_HashString (itr_InternalTransaction r)) ;;
  c <- getsC id ;;
  match promises c !! key with
  | None => ret tt
  | Some p =>
      (if itr_Accepted r then
         respond p (mkJoinResponse true effectiveRound (Peers (validators c)))
       else respond p (mkJoinResponse false 0 [])) ;;;
      modifyC (λ c, set_promises (delete key (promises c)) (channels c) (nextChannel c) c)
  end.

Definition processAcceptedInternalTransactions (roundReceived : Z)
    (receipts : list InternalTransactionReceipt) : C unit :=
  c <- getsC id ;;
  let effectiveRound := roundReceived + 6 in
  st <- foldM (process_receipt effectiveRound) (validators c, core_peers c, false) receipts ;;
  let '(vals, currentPeers, changed) := st in
  (if (changed : bool) then
     modifyC (set_lastPeerChangeRound effectiveRound) ;;;
     wrap "Updating Store PeerSet" (onH (onStore (SetPeerSet effectiveRound vals))) ;;;
     modifyC (set_validators vals) ;;;
     setPeers currentPeers ;;;
     modifyC (λ c, if targetRound c <? effectiveRound then set_targetRound effectiveRound c else c)
   else ret tt) ;;;
  forM receipts (answer_promise effectiveRound).

(** The application is called with the block and changes its own state [P]. It
    has no reference to the core: a transaction that it submits while it
    commits goes through the channel of the proxy to a goroutine of the node,
    which adds it to the pool under the lock that is held here. *)
Definition commit (block : Block) : C unit :=
  commitResponse <- onApp (proxyCommitCallback block) ;;
  mutateBlock (Block_Index block) (set_response commitResponse) ;;;
  let block := set_response commitResponse block in
  blockPeerSet <- onH (readStoreR (λ s, GetPeerSet s (Block_RoundReceived block))) ;;
  v <- getsC validator ;;
  block <- (match ByID blockPeerSet !! Validator_ID v with
            | Some _ =>
                sb <- signBlock block ;;
                modifyC (λ c, set_pools (transactionPool c) (internalTransactionPool c)
                                (SP_Add (selfBlockSignatures c) sb.1) c) ;;;
                ret sb.2
            | None => ret block
            end) ;;
  onH (SetAnchorBlock block) ;;;
  processAcceptedInternalTransactions (Block_RoundReceived block) (cr_Receipts commitResponse).

(** ** Inserting events *)
Definition insertEventAndRunConsensus (event : Event) (setWireInfo : bool) : C Event :=
  event <- InsertEventAndRunConsensus fuel commit event setWireInfo ;;
  v <- getsC validator ;;
  (if decide (Creator event = Validator_PublicKeyHex v)
   then modifyC (set_head_seq (Hex event) (Index event)) else ret tt) ;;;
  ret event.

Definition signAndInsertSelfEvent (event : Event) : C Event :=
  v <- getsC validator ;;
  event <- lift (Event_Sign event (val_Key v).1) ;;
  insertEventAndRunConsensus event true.

(** The end of [addSelfEvent]: what was in the pools when the event was made
    leaves them; what was added since then stays. *)
Definition forget_pooled (txs itxs : Z) (sigs : list BlockSignature) : C unit :=
  c <- getsC id ;;
  pool <- lift (go_from (transactionPool c) txs) ;;
  ipool <- lift (go_from (internalTransactionPool c) itxs) ;;
  modifyC (set_pools pool ipool (SP_RemoveSlice (selfBlockSignatures c) sigs)).

Definition addSelfEvent (otherHead : string) : C unit :=
  s <- get ;;
  let c := s.2.1 in
  if LastRound (hg_Store s.1) <? acceptedRound c then ret tt
  else
    let sigs := SP_Slice (selfBlockSignatures c) in
    let txs := zlen (transactionPool c) in
    let itxs := zlen (internalTransactionPool c) in
    t <- now ;;
    let newHead := NewEvent (Some (transactionPool c)) (Some (internalTransactionPool c))
                     (Some sigs) (core_head c, otherHead) (PublicKeyBytes (validator c))
                     (core_seq c + 1) t in
    _ <- signAndInsertSelfEvent newHead ;;
    forget_pooled txs itxs sigs.

Definition recordHeads : C unit :=
  hs <- getsC heads ;;
  forM (range hs) (λ '(id, ev),
      addSelfEvent (match ev with Some ev => Hex ev | None => "" end) ;;;
      modifyC (λ c, set_heads (delete id (heads c)) c)).

(** One wire event of [sync]; the accumulator is [otherHead]. *)
Definition sync_event (fromID : Z) (otherHead : option Event) (we : WireEvent) :
    C (option Event) :=
  ev <- onH (ReadWireInfo we) ;;
  r <- try (insertEventAndRunConsensus ev false) ;;
  match r with
  | inr err => if IsNormalSelfParentError err then ret otherHead else throw err
  | inl ev =>
      modifyC (λ c, match heads c !! wb_CreatorID (we_Body we) with
                    | Some (Some h) =>
                        if Index h <? wb_Index (we_Body we)
                        then set_heads (delete (wb_CreatorID (we_Body we)) (heads c)) c
                        else c
                    | _ => c
                    end) ;;;
      ret (if wb_CreatorID (we_Body we) =? fromID then Some ev else otherHead)
  end.

(** Do not overwrite a non-empty head with an empty or an older one. *)
Definition newer_head (old : option (option Event)) (otherHead : option Event) : bool :=
  match old with
  | None | Some None => true
  | Some (Some h) => match otherHead with Some o => Index h <? Index o | None => false end
  end.

Definition sync (fromID : Z) (unknownEvents : list WireEvent) : C unit :=
  otherHead <- foldM (sync_event fromID) None unknownEvents ;;
  modifyC (λ c, if newer_head (heads c !! fromID) otherHead
                then set_heads (<[fromID := otherHead]> (heads c)) c else c) ;;;
  b <- busy ;;
  sq <- getsC core_seq ;;
  if (b : bool) || (sq <? 0) then recordHeads else ret tt.

Definition knownEvents : C (gmap Z Z) := onH (readStore KnownEvents).

(** ** Fast-forward *)
Definition fastForward (block : Block) (frame : Frame) : C unit :=
  peerSet <- lift (NewPeerSet (fr_Peers frame)) ;;
  lift (CheckBlock block peerSet) ;;;
  frameHash <- lift (Frame_Hash frame) ;;
  if negb (bool_decide (Block_FrameHash block = frameHash)) then throw (EMsg "Invalid Frame Hash")
  else
    onH (Reset fuel block frame) ;;;
    setHeadAndSeq ;;;
    ps <- lift (NewPeerSet (fr_Peers frame)) ;;
    setPeers ps ;;;
    vals <- lift (NewPeerSet (fr_Peers frame)) ;;
    modifyC (set_validators vals).

Definition getAnchorBlockWithFrame : C (Block * Frame) := onH (GetAnchorBlockWithFrame fuel).

(** ** Leave

    Up to the submission of the transaction: the promise to wait for, if
    any. The error of [Sign] is dropped, with the transaction unsigned. *)
Definition leave_request : C (option joinPromise) :=
  c <- getsC id ;;
  match ByID (validators c) !! Validator_ID (validator c) with
  | None => ret None
  | Some p =>
      if zlen (Peers (validators c)) <=? 1 then ret None
      else if maintenanceMode c then ret None
      else
        let itx := NewInternalTransaction PEER_REMOVE p in
        signed <- (match ITx_Sign itx (val_Key (validator c)).1 with
                   | Ok itx => ret itx
                   | Err _ => ret itx
                   | Panic => panic
                   | OutOfFuel => diverge
                   end) ;;
        promise <- addInternalTransaction signed ;;
        ret (Some promise)
  end.

(** ** Differences *)
Definition ev_topo_le (a b : Event) : Prop := ev_topologicalIndex a ≤ ev_topologicalIndex b.
#[export] Instance ev_topo_le_dec a b : Decision (ev_topo_le a b).
Proof. unfold ev_topo_le. apply _. Defined.

Definition eventDiff (otherKnown : gmap Z Z) : C (list Event) :=
  myknown <- knownEvents ;;
  unknown <- foldM (λ unknown '(id, _),
      let ct := default (-1) (otherKnown !! id) in
      rep <- onH (readStore RepertoireByID) ;;
      match rep !! id with
      | None => ret unknown
      | Some peer =>
          participantEvents <- onH (readStoreR (λ s, ParticipantEvents s (PubKeyString peer) ct)) ;;
          evs <- foldM (λ evs e, ev <- onH (onStore (GetEvent e)) ;; ret (evs ++ [ev]))
                   [] participantEvents ;;
          ret (unknown ++ evs)
      end) [] (range myknown) ;;
  ret (merge_sort ev_topo_le unknown).

Definition fromWire (wireEvents : list WireEvent) : C (list Event) :=
  foldM (λ evs w, ev <- onH (ReadWireInfo w) ;; ret (evs ++ [ev])) [] wireEvents.

Definition toWire (events : list Event) : list WireEvent := ToWire <$> events.

Definition processSigPool : C unit := onH ProcessSigPool.

(** ** Getters *)
Definition getHead : C Event := hd <- getsC core_head ;; onH (onStore (GetEvent hd)).
Definition getEvent (hash : string) : C Event := onH (onStore (GetEvent hash)).
Definition getEventTransactions (hash : string) : C (list bytes) :=
  ex <- getEvent hash ;; ret (Transactions ex).
Definition getConsensusEvents : C (list string) := onH (readStore ConsensusEvents).
Definition getConsensusEventsCount : C Z := onH (readStore ConsensusEventsCount).
Definition getUndeterminedEvents : C (list string) := onH (gets UndeterminedEvents).
Definition getPendingLoadedEvents : C Z := onH (gets PendingLoadedEvents).
Definition getConsensusTransactions : C (list bytes) :=
  evs <- getConsensusEvents ;;
  foldM (λ txs e,
      eTxs <- try (getEventTransactions e) ;;
      match eTxs with
      | inl eTxs => ret (txs ++ eTxs)
      | inr _ => throw (EMsg ("Consensus event not found: " +:+ e))
      end) [] evs.
Definition getLastConsensusRoundIndex : C (option Z) := onH (gets LastConsensusRound).
Definition getConsensusTransactionsCount : C Z := onH (gets ConsensusTransactions).
Definition getLastCommitedRoundEventsCount : C Z := onH (gets LastCommitedRoundEvents).
Definition getLastBlockIndex : C Z := onH (readStore LastBlockIndex).
End core.

(** The callback used in tests (proxy/types.go): every internal
    transaction is accepted. *)
Definition DummyCommitCallback {P} (block : Block) : GoM error P CommitResponse :=
  ret (mkCommitResponse [] (AsAccepted <$> Block_InternalTransactions block)).
