(* ===== verification/Node.v ===== *)
(** * The node (src/src/node/node.go, node_rpc.go, state/state.go,
    control_timer.go, src/src/net/commands.go)

    A node is a state machine around a core: it gossips, answers RPCs, joins,
    catches up, suspends and shuts down.

    The application ([AppProxy]) and the transport ([Transport]) are
    interfaces whose implementations are parameters: the application has a
    state [P] of its own, and a request over the transport is answered by
    whatever the other end says. A method of [*Node] runs on [node]. Each
    section of code under [coreLock] is one call on the core; methods that
    release the lock around a request ([pull], [push], [fastForward],
    [join]) are split there, so that other calls can come in between:
    [pull_request] and [pull_sync], [join_request] and [join_response], and so
    on.

    Channels that are only ever closed are booleans; closing one twice
    panics. Logging and statistics are left out. *)
From S2P Require Export Core.

(** ** State manager (state/state.go) *)
Inductive NodeState := Babbling | CatchingUp | Joining | Leaving | Shutdown | Suspended.
#[export] Instance NodeState_eq_dec : EqDecision NodeState.
Proof. solve_decision. Defined.

Definition WGLIMIT : Z := 20.

(** [wg] counts the goroutines that have not returned, [wgCount] is the
    counter that is compared with the limit. *)
Record Manager := mkManager {
  mgr_state : NodeState;
  mgr_wg : Z;
  mgr_wgCount : Z;
}.
Definition GetState (m : Manager) : NodeState := mgr_state m.
Definition SetState (s : NodeState) (m : Manager) : Manager :=
  mkManager s (mgr_wg m) (mgr_wgCount m).
(** [GoFunc] answers whether the goroutine was launched; the goroutine then
    takes two steps, [goroutine_start], before [f], and [goroutine_done],
    after it. *)
Definition GoFunc (m : Manager) : bool * Manager :=
  if mgr_wgCount m <? WGLIMIT
  then (true, mkManager (mgr_state m) (mgr_wg m + 1) (mgr_wgCount m + 1))
  else (false, m).
Definition goroutine_start (m : Manager) : Manager :=
  mkManager (mgr_state m) (mgr_wg m) (mgr_wgCount m - 1).
Definition goroutine_done (m : Manager) : Manager :=
  mkManager (mgr_state m) (mgr_wg m - 1) (mgr_wgCount m).

(** ** Control timer (control_timer.go)

    The timer's goroutine is either waiting in its [select], or has handed a
    tick over and has not yet cleared [isSet], or has returned. *)
Inductive timer_pc := TimerNotStarted | TimerWaiting | TimerTicked | TimerReturned.
Record controlTimer := mkTimer {
  ct_pc : timer_pc;
  ct_armed : option Z;
  ct_isSet : bool;
}.
(** What the goroutine can do next: hand over the tick of an expired timer,
    clear [isSet] after it, or receive on one of its channels. *)
Inductive timer_event :=
| TimerTick | TimerClear | TimerReset (t : Z) | TimerStop | TimerShutdown.
Definition newControlTimer : controlTimer := mkTimer TimerNotStarted None false.
(** The factory of [newRandomControlTimer] answers the nil channel, which
    never fires, for a duration of 0; only whether it fires matters here. *)
Definition setTimer (t : Z) : controlTimer :=
  mkTimer TimerWaiting (if t =? 0 then None else Some t) true.
Definition timer_run (init : Z) (c : controlTimer) : controlTimer := setTimer init.
(** The step of the goroutine, if it can take it. *)
Definition timer_step (c : controlTimer) (e : timer_event) : option controlTimer :=
  match ct_pc c, e with
  | TimerWaiting, TimerTick =>
      match ct_armed c with
      | Some _ => Some (mkTimer TimerTicked None (ct_isSet c))
      | None => None
      end
  | TimerTicked, TimerClear => Some (mkTimer TimerWaiting None false)
  | TimerWaiting, TimerReset t => Some (setTimer t)
  | TimerWaiting, TimerStop => Some (mkTimer TimerWaiting None false)
  | TimerWaiting, TimerShutdown => Some (mkTimer TimerReturned (ct_armed c) false)
  | _, _ => None
  end.

(** ** Commands (net/commands.go) *)
Record SyncRequest := mkSyncRequest { sq_FromID : Z; sq_Known : gmap Z Z; sq_SyncLimit : Z }.
Record SyncResponse := mkSyncResponse {
  sr_FromID : Z; sr_Events : list WireEvent; sr_Known : gmap Z Z }.
Record EagerSyncRequest := mkEagerRequest { eq_FromID : Z; eq_Events : list WireEvent }.
Record EagerSyncResponse := mkEagerResponse { er_FromID : Z; er_Success : bool }.
Record FastForwardRequest := mkFFRequest { fq_FromID : Z }.
Record FastForwardResponse := mkFFResponse {
  ffr_FromID : Z; ffr_Block : Block; ffr_Frame : Frame; ffr_Snapshot : bytes }.
Record JoinRequest := mkJoinRequest { jq_InternalTransaction : InternalTransaction }.
Record JoinResponse := mkJoinResp {
  jrs_FromID : Z; jrs_Accepted : bool; jrs_AcceptedRound : Z; jrs_Peers : list Peer }.
Inductive Command :=
| CSync (r : SyncRequest)
| CEagerSync (r : EagerSyncRequest)
| CFastForward (r : FastForwardRequest)
| CJoin (r : JoinRequest)
| COther.
Inductive Response :=
| RNil
| RSync (r : SyncResponse)
| REagerSync (r : EagerSyncResponse)
| RFastForward (r : FastForwardResponse)
| RJoin (r : JoinResponse).

(** ** The application and the network *)
Class AppProxy (P : Type) := {
  CommitBlock : Block → GoM error P CommitResponse;
  GetSnapshot : Z → GoM error P bytes;
  Restore : bytes → GoM error P unit;
  OnStateChanged : NodeState → GoM error P unit;
}.
Class Transport := {
  trans_Sync : string → SyncRequest → result error SyncResponse;
  trans_EagerSync : string → EagerSyncRequest → result error EagerSyncResponse;
  trans_FastForward : string → FastForwardRequest → result error FastForwardResponse;
  trans_Join : string → JoinRequest → result error JoinResponse;
  AdvertiseAddr : string;
}.

Record Config := mkConfig {
  conf_Bootstrap : bool;
  conf_MaintenanceMode : bool;
  conf_EnableFastSync : bool;
  conf_SyncLimit : Z;
  conf_SuspendLimit : Z;
  conf_HeartbeatTimeout : Z;
  conf_SlowHeartbeatTimeout : Z;
}.

Record node (St P : Type) := mkNode {
  n_manager : Manager;
  n_conf : Config;
  n_core : Hashgraph St * (coreState * P);
  n_timer : controlTimer;
  n_initialUndetermined : Z;
  n_suspendClosed : bool;
  n_shutdownClosed : bool;
  n_transClosed : bool;
  n_storeClosed : bool;
}.
Arguments mkNode {St P}.
Arguments n_manager {St P}.
Arguments n_conf {St P}.
Arguments n_core {St P}.
Arguments n_timer {St P}.
Arguments n_initialUndetermined {St P}.
Arguments n_suspendClosed {St P}.
Arguments n_shutdownClosed {St P}.
Arguments n_transClosed {St P}.
Arguments n_storeClosed {St P}.

Section updates.
Context {St P : Type}.
Definition set_manager x (n : node St P) : node St P :=
  mkNode x (n_conf n) (n_core n) (n_timer n) (n_initialUndetermined n) (n_suspendClosed n)
    (n_shutdownClosed n) (n_transClosed n) (n_storeClosed n).
Definition set_core x (n : node St P) : node St P :=
  mkNode (n_manager n) (n_conf n) x (n_timer n) (n_initialUndetermined n) (n_suspendClosed n)
    (n_shutdownClosed n) (n_transClosed n) (n_storeClosed n).
Definition set_timer x (n : node St P) : node St P :=
  mkNode (n_manager n) (n_conf n) (n_core n) x (n_initialUndetermined n) (n_suspendClosed n)
    (n_shutdownClosed n) (n_transClosed n) (n_storeClosed n).
Definition set_initialUndetermined x (n : node St P) : node St P :=
  mkNode (n_manager n) (n_conf n) (n_core n) (n_timer n) x (n_suspendClosed n)
    (n_shutdownClosed n) (n_transClosed n) (n_storeClosed n).
Definition set_closed suspend shutdown trans store (n : node St P) : node St P :=
  mkNode (n_manager n) (n_conf n) (n_core n) (n_timer n) (n_initialUndetermined n) suspend
    shutdown trans store.
End updates.

Section node.
Context {KP : Keys} {CP : Codec} {RO : RangeOrder} {St : Type} {STO : Store St}.
Context {P : Type} {APP : AppProxy P} {TR : Transport}.
Context (clock : nat → Z) (fuel : nat).
(** [Hashgraph.Bootstrap], which is only defined for a persistent store. *)
Context (bootstrap : GoM error (Hashgraph St * (coreState * P)) unit).
Abbreviation N := (GoM error (node St P)).
Abbreviation Core := (GoM error (Hashgraph St * (coreState * P))).

Definition onCore {A} (m : Core A) : N A := zoom n_core set_core m.
Definition onAppN {A} (m : GoM error P A) : N A := onCore (onApp m).
Definition nstate (n : node St P) : NodeState := GetState (n_manager n).
Definition conf {A} (f : Config → A) : N A := gets (λ n, f (n_conf n)).
Definition selfID : N Z := onCore (getsC (λ c, Validator_ID (validator c))).

(** ** State changes *)

(** The error of the application's handler is logged. *)
Definition transition (s : NodeState) : N unit :=
  modify (λ n, set_manager (SetState s (n_manager n)) n) ;;;
  _ <- try (onAppN (OnStateChanged s)) ;;
  ret tt.

Definition setBabblingOrCatchingUpState : N unit :=
  fast <- conf conf_EnableFastSync ;;
  if (fast : bool) then transition CatchingUp
  else
    r <- try (onCore setHeadAndSeq) ;;
    (match r with
     | inl _ => ret tt
     | inr _ => _ <- try (onCore setHeadAndSeq) ;; ret tt
     end) ;;;
    transition Babbling.

Definition Node_Init : N unit :=
  boot <- conf conf_Bootstrap ;;
  (if (boot : bool) then onCore bootstrap else ret tt) ;;;
  maintenance <- conf conf_MaintenanceMode ;;
  (if (maintenance : bool) then transition Suspended
   else
     id <- selfID ;;
     ps <- onCore (getsC core_peers) ;;
     match ByID ps !! id with
     | Some _ => setBabblingOrCatchingUpState
     | None => transition Joining
     end) ;;;
  modify (λ n, set_initialUndetermined (zlen (UndeterminedEvents (n_core n).1)) n).

(** The goroutines launched by [GoFunc] have returned when [Shutdown] and
    [Suspend] go on: [WaitRoutines]. *)
Definition Node_Shutdown : N unit :=
  s <- gets nstate ;;
  if decide (s = Shutdown) then ret tt
  else
    transition Shutdown ;;;
    closed <- gets n_shutdownClosed ;;
    (if (closed : bool) then panic else ret tt) ;;;
    modify (λ n, set_closed (n_suspendClosed n) true true true n).

Definition Suspend : N unit :=
  s <- gets nstate ;;
  if decide (s = Suspended ∨ s = Shutdown) then ret tt
  else
    transition Suspended ;;;
    closed <- gets n_suspendClosed ;;
    (if (closed : bool) then panic else ret tt) ;;;
    modify (λ n, set_closed true (n_shutdownClosed n) (n_transClosed n) (n_storeClosed n) n).

Definition checkSuspend : N unit :=
  n <- get ;;
  let h := (n_core n).1 in
  let c := (n_core n).2.1 in
  let newUndeterminedEvents := zlen (UndeterminedEvents h) - n_initialUndetermined n in
  let tooManyUndeterminedEvents :=
    conf_SuspendLimit (n_conf n) * PS_Len (validators c) <? newUndeterminedEvents in
  let evicted :=
    match LastConsensusRound h with
    | Some lcr => (0 <? removedRound c) && (acceptedRound c <? removedRound c) &&
                  (removedRound c <=? lcr)
    | None => false
    end in
  if tooManyUndeterminedEvents || evicted then Suspend else ret tt.

(** The send on [resetCh] blocks unless the timer's goroutine receives. *)
Definition resetTimer : N unit :=
  n <- get ;;
  if ct_isSet (n_timer n) then ret tt
  else
    b <- onCore busy ;;
    let ts := if (b : bool) then conf_HeartbeatTimeout (n_conf n)
              else conf_SlowHeartbeatTimeout (n_conf n) in
    match timer_step (n_timer n) (TimerReset ts) with
    | Some t => modify (set_timer t)
    | None => diverge
    end.

Definition addTransaction (tx : bytes) : N unit := onCore (addTransactions [tx]).

(** ** Requests *)
Definition requestSync (target : string) (known : gmap Z Z) (syncLimit : Z) : N SyncResponse :=
  id <- selfID ;; lift (trans_Sync target (mkSyncRequest id known syncLimit)).
Definition requestEagerSync (target : string) (events : list WireEvent) : N EagerSyncResponse :=
  id <- selfID ;; lift (trans_EagerSync target (mkEagerRequest id events)).
Definition requestFastForward (target : string) : N FastForwardResponse :=
  id <- selfID ;; lift (trans_FastForward target (mkFFRequest id)).
(** The error of [Sign] is dropped. *)
Definition requestJoin (target : string) : N JoinResponse :=
  v <- onCore (getsC validator) ;;
  let joinTx := NewInternalTransactionJoin
                  (NewPeer (Validator_PublicKeyHex v) AdvertiseAddr (val_Moniker v)) in
  signed <- (match ITx_Sign joinTx (val_Key v).1 with
             | Ok t => ret t
             | Err _ => ret joinTx
             | Panic => panic
             | OutOfFuel => diverge
             end) ;;
  lift (trans_Join target (mkJoinRequest signed)).

(** ** Gossip *)
Definition node_sync (fromID : Z) (events : list WireEvent) : N unit :=
  r <- try (onCore (sync CommitBlock clock fuel fromID events)) ;;
  (match r with
   | inl _ => ret tt
   | inr err => if IsNormalSelfParentError err then ret tt else throw err
   end) ;;;
  onCore processSigPool.

Definition monologue : N unit :=
  b <- onCore busy ;;
  if (b : bool) then
    onCore (addSelfEvent CommitBlock clock fuel "") ;;;
    onCore processSigPool
  else ret tt.

Definition pull_request (peer : Peer) : N SyncResponse :=
  known <- onCore knownEvents ;;
  limit <- conf conf_SyncLimit ;;
  requestSync (NetAddr peer) known limit.
Definition pull_sync (peer : Peer) (resp : SyncResponse) : N (gmap Z Z) :=
  id <- lift (ID peer) ;;
  node_sync id (sr_Events resp) ;;;
  ret (sr_Known resp).
Definition pull (peer : Peer) : N (gmap Z Z) :=
  resp <- pull_request peer ;; pull_sync peer resp.

Definition push (peer : Peer) (knownEvents : gmap Z Z) : N unit :=
  diff <- onCore (eventDiff knownEvents) ;;
  if 0 <? zlen diff then
    limit <- conf conf_SyncLimit ;;
    diff <- (if limit <? zlen diff then lift (go_upto diff limit) else ret diff) ;;
    _ <- requestEagerSync (NetAddr peer) (toWire diff) ;;
    ret tt
  else ret tt.

(** The deferred update of the selector runs whatever the outcome. *)
Definition update_selector (peer : Peer) (connected : bool) : N unit :=
  id <- lift (ID peer) ;;
  onCore (modifyC (λ c, set_core_peers (core_peers c)
                          (updateLast (peerSelector c) id connected).2 c)).
Definition gossip (peer : Peer) : N unit :=
  r <- try (known <- pull peer ;; push peer known) ;;
  match r with
  | inl _ => update_selector peer true
  | inr err => update_selector peer false ;;; throw err
  end.

(** One tick of [babble]; the answer is the peer to gossip with in a new
    goroutine, if there is one. *)
Definition babble_tick (gossips : bool) (rnd : nat) : N (option Peer) :=
  peer <- (if gossips then
             sel <- onCore (getsC peerSelector) ;;
             peer <- lift (next sel rnd) ;;
             match peer with
             | Some p =>
                 m <- gets n_manager ;;
                 modify (λ n, set_manager (GoFunc m).2 n) ;;;
                 ret (if (GoFunc m).1 then Some p else None)
             | None => _ <- try monologue ;; ret None
             end
           else ret None) ;;
  resetTimer ;;;
  checkSuspend ;;;
  ret peer.

(** ** Catching up *)
Definition getBestFastForwardResponse : N (option FastForwardResponse) :=
  sel <- onCore (getsC peerSelector) ;;
  best <- foldM (λ '(bestResponse, maxBlock) p,
      resp <- try (requestFastForward (NetAddr p)) ;;
      ret (match resp with
           | inr _ => (bestResponse, maxBlock)
           | inl resp =>
               if maxBlock <? Block_Index (ffr_Block resp)
               then (Some resp, Block_Index (ffr_Block resp))
               else (bestResponse, maxBlock)
           end)) (None, 0) (Peers (rps_peers sel)) ;;
  ret best.1.

(** What follows the requests: the error of the receipts is logged. *)
Definition fastForward_from (resp : option FastForwardResponse) : N unit :=
  match resp with
  | None =>
      transition Babbling ;;;
      throw (EMsg "getBestFastForwardResponse returned nil")
  | Some resp =>
      onAppN (Restore (ffr_Snapshot resp)) ;;;
      onCore (fastForward fuel (ffr_Block resp) (ffr_Frame resp)) ;;;
      _ <- try (onCore (processAcceptedInternalTransactions
                          (Block_RoundReceived (ffr_Block resp))
                          (Block_InternalTransactionReceipts (ffr_Block resp)))) ;;
      transition Babbling
  end.
Definition node_fastForward : N unit :=
  resp <- getBestFastForwardResponse ;; fastForward_from resp.

(** ** Joining *)
Definition join_request (rnd : nat) : N JoinResponse :=
  sel <- onCore (getsC peerSelector) ;;
  peer <- lift (next sel rnd) ;;
  match peer with
  | None => panic
  | Some peer => requestJoin (NetAddr peer)
  end.
Definition join_response (resp : JoinResponse) : N unit :=
  if jrs_Accepted resp then
    onCore (modifyC (set_acceptedRound (jrs_AcceptedRound resp))) ;;;
    onCore (modifyC (set_removedRound (-1))) ;;;
    setBabblingOrCatchingUpState
  else Node_Shutdown.
Definition join (rnd : nat) : N unit :=
  maintenance <- conf conf_MaintenanceMode ;;
  if (maintenance : bool) then ret tt
  else resp <- join_request rnd ;; join_response resp.

(** ** The main loop

    One turn of [Run], in which [babble] runs for one tick; the answer is
    whether the loop goes on. The errors of [fastForward] and [join] are
    dropped by the caller; in state [Leaving] nothing is done. *)
Definition Run_turn (gossips : bool) (rnd : nat) : N bool :=
  s <- gets nstate ;;
  match s with
  | Babbling => _ <- babble_tick gossips rnd ;; ret true
  | CatchingUp => _ <- try node_fastForward ;; ret true
  | Joining => _ <- try (join rnd) ;; ret true
  | Suspended | Leaving => ret true
  | Shutdown => ret false
  end.

(** ** Answering requests

    A handler returns what it passes to [rpc.Respond]. *)
Definition answer : Type := Response * option error.

Definition min (a b : Z) : Z := if a <? b then a else b.

Definition processSyncRequest (cmd : SyncRequest) : N answer :=
  id <- selfID ;;
  diff <- try (onCore (eventDiff (sq_Known cmd))) ;;
  ownLimit <- conf conf_SyncLimit ;;
  let respErr := match diff with inl _ => None | inr err => Some err end in
  let eventDiff := match diff with inl d => d | inr _ => [] end in
  events <- (if 0 <? zlen eventDiff then
               let limit := min (sq_SyncLimit cmd) ownLimit in
               eventDiff <- (if limit <? zlen eventDiff then lift (go_upto eventDiff limit)
                             else ret eventDiff) ;;
               ret (toWire eventDiff)
             else ret []) ;;
  known <- onCore knownEvents ;;
  ret (RSync (mkSyncResponse id events known), respErr).

Definition processEagerSyncRequest (cmd : EagerSyncRequest) : N answer :=
  r <- try (node_sync (eq_FromID cmd) (eq_Events cmd)) ;;
  id <- selfID ;;
  ret (match r with
       | inl _ => (REagerSync (mkEagerResponse id true), None)
       | inr err => (REagerSync (mkEagerResponse id false), Some err)
       end).

(** The zero block and frame of an unfilled response. *)
Definition empty_Block : Block := mkBlock (mkBlockBody 0 0 0 [] [] [] [] [] []) ∅.
Definition empty_Frame : Frame := mkFrame 0 [] ∅ [] ∅ 0.

Definition processFastForwardRequest (cmd : FastForwardRequest) : N answer :=
  id <- selfID ;;
  bf <- try (onCore (getAnchorBlockWithFrame fuel)) ;;
  match bf with
  | inr err => ret (RFastForward (mkFFResponse id empty_Block empty_Frame []), Some err)
  | inl (block, frame) =>
      snapshot <- try (onAppN (GetSnapshot (Block_Index block))) ;;
      ret (match snapshot with
           | inl s => (RFastForward (mkFFResponse id block frame s), None)
           | inr err => (RFastForward (mkFFResponse id block frame []), Some err)
           end)
  end.

(** The answer, or the promise to wait for: the response that the promise
    gets, or the timeout, make the answer with [join_answer]. *)
Definition processJoinRequest (cmd : JoinRequest) : N (answer + joinPromise) :=
  id <- selfID ;;
  let tx := jq_InternalTransaction cmd in
  ok <- (match ITx_Verify tx with
         | Ok b => ret b
         | Err _ => ret false
         | Panic => panic
         | OutOfFuel => diverge
         end) ;;
  if negb ok then
    ret (inl (RJoin (mkJoinResp id false 0 []),
              Some (EMsg "Unable to verify signature on join request")))
  else
    ps <- onCore (getsC core_peers) ;;
    match ByPubKey ps !! PubKeyString (itb_Peer (itx_Body tx)) with
    | Some _ =>
        lcr <- onCore getLastConsensusRoundIndex ;;
        ret (inl (RJoin (mkJoinResp id true (default 0 lcr) (Peers ps)), None))
    | None =>
        promise <- onCore (addInternalTransaction tx) ;;
        ret (inr promise)
    end.
Definition join_answer (id : Z) (resp : option joinPromiseResponse) : answer :=
  match resp with
  | Some r => (RJoin (mkJoinResp id (jr_accepted r) (jr_acceptedRound r) (jr_peers r)), None)
  | None => (RJoin (mkJoinResp id false 0 []),
             Some (EMsg "Timeout waiting for JoinRequest to go through consensus"))
  end.

(** The requests that a node in state [s] processes. *)
Definition accepts (s : NodeState) (cmd : Command) : bool :=
  match s, cmd with
  | Babbling, _ => true
  | Suspended, CSync _ => true
  | _, _ => false
  end.

Definition processRPC (cmd : Command) : N (answer + joinPromise) :=
  s <- gets nstate ;;
  if negb (accepts s cmd) then ret (inl (RNil, Some (EMsg "Not in Babbling state")))
  else
    match cmd with
    | CSync r => a <- processSyncRequest r ;; ret (inl a)
    | CEagerSync r => a <- processEagerSyncRequest r ;; ret (inl a)
    | CFastForward r => a <- processFastForwardRequest r ;; ret (inl a)
    | CJoin r => processJoinRequest r
    | COther => ret (inl (RNil, Some (EMsg "unexpected command")))
    end.

(** ** Leaving: up to the request; [Shutdown] follows whatever the outcome. *)
Definition Leave_request : N (option joinPromise) :=
  maintenance <- conf conf_MaintenanceMode ;;
  if (maintenance : bool) then ret None else onCore leave_request.

(** ** Getters *)
Definition GetLastConsensusRoundIndex : N Z :=
  lcr <- onCore getLastConsensusRoundIndex ;; ret (default (-1) lcr).
Definition Node_GetBlock (blockIndex : Z) : N Block := onCore (onH (onStore (GetBlock blockIndex))).
Definition Node_GetLastBlockIndex : N Z := onCore getLastBlockIndex.
Definition Node_GetPeers : N (list Peer) := onCore (getsC (λ c, Peers (core_peers c))).
Definition GetValidatorSet (round : Z) : N (list Peer) :=
  ps <- onCore (onH (readStoreR (λ s, GetPeerSet s round))) ;; ret (Peers ps).
Definition GetAllValidatorSets : N (gmap Z (list Peer)) :=
  onCore (onH (readStoreR GetAllPeerSets)).
End node.

(** [NewNode] *)
Definition NewNode {KP : Keys} {CP : Codec} {RO : RangeOrder} {St : Type} {STO : Store St}
    {P : Type} (cf : Config) (v : Validator) (ps genesis : PeerSet) (store : St) (p : P) :
    res (node St P) :=
  core <-- newCore v ps genesis store (conf_MaintenanceMode cf) p ;;
  Ok (mkNode (mkManager Babbling 0 0) cf core newControlTimer 0 false false false false).
