(* ===== verification/App.v ===== *)
(** * The application side

    Models src/src/proxy/handlers.go and proxy/inmem/inmem_proxy.go (the
    proxy that calls the application's handlers in the same process) and
    src/src/dummy/state.go (the application of the demo). Log messages are
    left out, and so is the channel on which transactions are submitted.

    [snapshot_resumes] of EngineTheorems: an application restored from a snapshot
    answers the blocks that follow as the one that took the snapshot. *)
From S2P Require Export Node.

(** ** The handlers of an application (proxy/handlers.go) *)
Class ProxyHandler (P : Type) := {
  CommitHandler : Block → GoM error P CommitResponse;
  SnapshotHandler : Z → GoM error P bytes;
  RestoreHandler : bytes → GoM error P bytes;
  StateChangeHandler : NodeState → GoM error P unit;
}.

(** ** InmemProxy (proxy/inmem/inmem_proxy.go) *)
Section inmem_proxy.
Context {P : Type} {PH : ProxyHandler P}.
Definition InmemProxy_CommitBlock (block : Block) : GoM error P CommitResponse :=
  CommitHandler block.
Definition InmemProxy_GetSnapshot (blockIndex : Z) : GoM error P bytes :=
  SnapshotHandler blockIndex.
Definition InmemProxy_Restore (snapshot : bytes) : GoM error P unit :=
  _ <- RestoreHandler snapshot ;; ret tt.
Definition InmemProxy_OnStateChanged (state : NodeState) : GoM error P unit :=
  StateChangeHandler state.
#[export] Instance InmemProxy : AppProxy P := {
  CommitBlock := InmemProxy_CommitBlock;
  GetSnapshot := InmemProxy_GetSnapshot;
  Restore := InmemProxy_Restore;
  OnStateChanged := InmemProxy_OnStateChanged;
}.
End inmem_proxy.

(** ** The demo application (dummy/state.go) *)
Record DummyState := mkDummy {
  committedTxs : list bytes;
  stateHash : bytes;
  snapshots : gmap Z bytes;
  babbleState : NodeState;
}.

Section dummy.
Context {KP : Keys}.
Implicit Types (a : DummyState).

(** The zero value of the node's state is [Babbling]. *)
Definition NewState : DummyState := mkDummy [] [] ∅ Babbling.

Definition hash_txs (hash : bytes) (txs : list bytes) : bytes :=
  foldl (λ hash tx, SimpleHashFromTwoHashes hash (SHA256 tx)) hash txs.

Definition Dummy_CommitHandler (block : Block) : GoM error DummyState CommitResponse :=
  modify (λ a, mkDummy (committedTxs a ++ Block_Transactions block) (stateHash a) (snapshots a)
                 (babbleState a)) ;;;
  hash <- gets (λ a, hash_txs (stateHash a) (Block_Transactions block)) ;;
  modify (λ a, mkDummy (committedTxs a) hash (<[Block_Index block := hash]> (snapshots a))
                 (babbleState a)) ;;;
  ret (mkCommitResponse hash (AsAccepted <$> Block_InternalTransactions block)).

Definition Dummy_SnapshotHandler (blockIndex : Z) : GoM error DummyState bytes :=
  snaps <- gets snapshots ;;
  match snaps !! blockIndex with
  | None => throw (EMsg ("Snapshot " +:+ pretty blockIndex +:+ " not found"))
  | Some snapshot => ret snapshot
  end.

Definition Dummy_RestoreHandler (snapshot : bytes) : GoM error DummyState bytes :=
  modify (λ a, mkDummy (committedTxs a) snapshot (snapshots a) (babbleState a)) ;;;
  gets stateHash.

Definition Dummy_StateChangeHandler (state : NodeState) : GoM error DummyState unit :=
  modify (λ a, mkDummy (committedTxs a) (stateHash a) (snapshots a) state).

Definition GetCommittedTransactions a : list bytes := committedTxs a.

#[export] Instance DummyHandler : ProxyHandler DummyState := {
  CommitHandler := Dummy_CommitHandler;
  SnapshotHandler := Dummy_SnapshotHandler;
  RestoreHandler := Dummy_RestoreHandler;
  StateChangeHandler := Dummy_StateChangeHandler;
}.
End dummy.

(** ** Replicas *)
Section replicas.
Context {KP : Keys}.
Implicit Types (a : DummyState).

(** The application's answers to a sequence of blocks, and its last state. *)
Fixpoint commit_all (bs : list Block) a : list (result error CommitResponse) * DummyState :=
  match bs with
  | [] => ([], a)
  | b :: bs =>
      let '(r, a') := CommitBlock b a in
      let '(rs, a'') := commit_all bs a' in (r :: rs, a'')
  end.

Lemma commit_all_app bs1 bs2 a :
  commit_all (bs1 ++ bs2) a =
    ((commit_all bs1 a).1 ++ (commit_all bs2 (commit_all bs1 a).2).1,
     (commit_all bs2 (commit_all bs1 a).2).2).
Proof.
  revert a. induction bs1 as [|b bs1 IH]; intros a; simpl.
  - by destruct (commit_all bs2 a).
  - rewrite IH. by destruct (commit_all bs1 _).
Qed.

(** The answers depend on the state hash only. *)
Lemma commit_all_same bs a a' : stateHash a = stateHash a' →
  (commit_all bs a).1 = (commit_all bs a').1 ∧
  stateHash (commit_all bs a).2 = stateHash (commit_all bs a').2.
Proof.
  revert a a'. induction bs as [|b bs IH]; intros a a' Ha; [done|]. simpl. rewrite Ha.
  destruct (IH (mkDummy (committedTxs a ++ Block_Transactions b)
        (hash_txs (stateHash a') (Block_Transactions b))
        (<[Block_Index b := hash_txs (stateHash a') (Block_Transactions b)]> (snapshots a))
        (babbleState a))
      (mkDummy (committedTxs a' ++ Block_Transactions b)
        (hash_txs (stateHash a') (Block_Transactions b))
        (<[Block_Index b := hash_txs (stateHash a') (Block_Transactions b)]> (snapshots a'))
        (babbleState a')) eq_refl) as [Hr Hh].
  destruct (commit_all bs _) as [rs1 a1]. destruct (commit_all bs _) as [rs2 a2].
  simpl in *. by subst.
Qed.

(** A snapshot is kept until a block with the same index is committed. *)
Lemma snapshot_kept bs a i : i ∉ Block_Index <$> bs →
  snapshots (commit_all bs a).2 !! i = snapshots a !! i.
Proof.
  revert a. induction bs as [|b bs IH]; intros a Hi; simpl; [done|].
  rewrite fmap_cons, not_elem_of_cons in Hi. destruct Hi as [Hb Hi].
  match goal with |- context[commit_all bs ?x] => specialize (IH x Hi) end.
  destruct (commit_all bs _) as [rs a']. simpl in *. rewrite IH. by rewrite lookup_insert_ne.
Qed.
Lemma commit_records b a :
  snapshots (CommitBlock b a).2 !! Block_Index b = Some (stateHash (CommitBlock b a).2).
Proof. simpl. by rewrite lookup_insert_eq. Qed.
End replicas.
