(* ===== verification/Proxies.v ===== *)
(** * The socket proxies and the mobile application

    Models src/src/proxy/socket/app and src/src/proxy/socket/babble (the two
    ends of a connection between a node and an application in another
    process), src/src/dummy/socket_dummy.go and src/src/mobile/mobile_app.go.

    A client makes up to three attempts at a call. What the network and the
    scheduler do with an attempt is the class [Network]: it numbers the
    attempts of a client and says, for each, whether a connection can be
    opened, whether the request reaches the server, when its handler runs and
    whether the answer comes back. A [Link] is the client, the state [P] of the
    server at the other end, the requests that were delivered and whose
    handlers have not run yet (every request is served in a goroutine of its
    own), and the number of the next attempt. A handler runs in one piece.
    JSON-RPC carries the error of a handler as its text. Addresses and log
    messages are left out. *)
From S2P Require Export App Badger.

(** ** The network *)
(** A request that is not answered in time was not delivered, or its handler
    ran, or will run later. *)
Inductive fate := Undelivered | RunsNow | RunsLate.
Inductive exchange :=
| Answered
(** No answer within the timeout. *)
| TimedOut (f : fate)
(** The connection breaks before the answer. *)
| Broken (f : fate) (err : error).
Record attempt := mkAttempt {
  (** which of the late handlers run before the attempt, one after the other *)
  at_wakes : list nat;
  at_dial : option error;  (* of net.DialTimeout *)
  at_exchange : exchange;
}.
Class Network := attempt_at : nat → attempt.

(** What the other end decodes from the JSON of a value: text that is not
    valid UTF-8 is replaced. Bytes, integers and states are not changed. *)
Class RPCCodec := {
  rpc_Block : Block → res Block;
  rpc_CommitResponse : CommitResponse → res CommitResponse;
}.

(** ** The clients *)
Record Link (P : Type) := mkLink {
  lk_server : P;
  lk_late : list (GoM error P unit);
  lk_rpc : bool;  (* whether the field rpc holds a connection *)
  lk_next : nat;
}.
Arguments mkLink {P} _ _ _ _.
Arguments lk_server {P} _.
Arguments lk_late {P} _.
Arguments lk_rpc {P} _.
Arguments lk_next {P} _.

Section client.
Context {NT : Network} {P : Type}.
Implicit Types (l : Link P).

Definition put_server (p : P) l : Link P := mkLink p (lk_late l) (lk_rpc l) (lk_next l).
Definition put_late ms l : Link P := mkLink (lk_server l) ms (lk_rpc l) (lk_next l).
Definition put_rpc (c : bool) l : Link P := mkLink (lk_server l) (lk_late l) c (lk_next l).
Definition next_attempt l : Link P := mkLink (lk_server l) (lk_late l) (lk_rpc l) (S (lk_next l)).

Definition retries : nat := 3.
Definition NewSocketAppProxyClient (p : P) : Link P := mkLink p [] false 0.
Definition NewSocketBabbleProxyClient (p : P) : Link P := mkLink p [] false 0.

Definition getConnection : GoM error (Link P) unit :=
  l <- get ;;
  if lk_rpc l then ret tt
  else match at_dial (attempt_at (lk_next l)) with
       | Some err => throw err
       | None => modify (put_rpc true)
       end.

(** The server runs [m]; what it answers. An error whose text is empty is sent
    as a success, with the zero value [zero] of the answer. *)
Definition serve {A} (m : GoM error P A) : GoM error (Link P) (A + error) :=
  zoom lk_server put_server (try m).
Definition answer {A} (zero : A) (r : A + error) : res A :=
  match r with
  | inl a => Ok a
  | inr e => if bool_decide (error_msg e = "") then Ok zero else Err (EMsg (error_msg e))
  end.
Definition delivers {A} (f : fate) (m : GoM error P A) : GoM error (Link P) unit :=
  match f with
  | Undelivered => ret tt
  | RunsNow => serve m ;;; ret tt
  | RunsLate => modify (λ l, put_late (lk_late l ++ [m ;;; ret tt]) l)
  end.
(** The [i]-th late handler runs; nobody waits for its answer. *)
Definition wake (i : nat) : GoM error (Link P) unit :=
  l <- get ;;
  match lk_late l !! i with
  | None => ret tt
  | Some m => modify (put_late (delete i (lk_late l))) ;;; serve m ;;; ret tt
  end.

(** [rpc.Go] followed by the choice between its answer and the timer. *)
Definition rpc_Go {A} (zero : A) (m : GoM error P A) : GoM error (Link P) A :=
  l <- get ;;
  match at_exchange (attempt_at (lk_next l)) with
  | Answered => r <- serve m ;; lift (answer zero r)
  | TimedOut f => delivers f m ;;; throw (EMsg "rpc timeout")
  | Broken f err => delivers f m ;;; throw err
  end.
(** [rpc.Call] has no timer: it waits for an answer that is late, and for ever
    for one that does not come. *)
Definition rpc_Call {A} (zero : A) (m : GoM error P A) : GoM error (Link P) A :=
  l <- get ;;
  match at_exchange (attempt_at (lk_next l)) with
  | TimedOut Undelivered => diverge
  | Answered | TimedOut _ => r <- serve m ;; lift (answer zero r)
  | Broken f err => delivers f m ;;; throw err
  end.

(** One turn of the loop of [call], and the loop, with [more] turns after the
    first. *)
Definition call_turn {A} (rpc : GoM error (Link P) A) : GoM error (Link P) A :=
  l <- get ;;
  forM (at_wakes (attempt_at (lk_next l))) wake ;;;
  r <- try getConnection ;;
  match r with
  | inr err => modify next_attempt ;;; throw err
  | inl _ =>
      r <- try rpc ;;
      modify next_attempt ;;;
      match r with
      | inr err => modify (put_rpc false) ;;; throw err
      | inl a => ret a
      end
  end.
Fixpoint call_turns {A} (rpc : GoM error (Link P) A) (more : nat) : GoM error (Link P) A :=
  r <- try (call_turn rpc) ;;
  match r, more with
  | inl a, _ => ret a
  | inr err, O => throw err
  | inr _, S more => call_turns rpc more
  end.
Definition app_call {A} (zero : A) (m : GoM error P A) : GoM error (Link P) A :=
  call_turns (rpc_Go zero m) (Nat.pred retries).
Definition babble_call {A} (zero : A) (m : GoM error P A) : GoM error (Link P) A :=
  call_turns (rpc_Call zero m) (Nat.pred retries).
End client.

(** ** From the node to the application *)
Section app_proxy.
Context {NT : Network} {RC : RPCCodec} {P : Type} {PH : ProxyHandler P}.

(** SocketBabbleProxyServer: the handlers on the side of the application. *)
Definition Server_CommitBlock (block : Block) : GoM error P CommitResponse :=
  CommitHandler block.
Definition Server_GetSnapshot (blockIndex : Z) : GoM error P bytes :=
  SnapshotHandler blockIndex.
Definition Server_Restore (snapshot : bytes) : GoM error P bytes :=
  RestoreHandler snapshot.
Definition Server_OnStateChanged (state : NodeState) : GoM error P unit :=
  StateChangeHandler state.

(** The request with its arguments and its answer in JSON. *)
Definition State_CommitBlock (block : Block) : GoM error P CommitResponse :=
  block <- lift (rpc_Block block) ;;
  response <- Server_CommitBlock block ;;
  lift (rpc_CommitResponse response).

(** SocketAppProxyClient *)
Definition Client_CommitBlock (block : Block) : GoM error (Link P) CommitResponse :=
  app_call (mkCommitResponse [] []) (State_CommitBlock block).
Definition Client_GetSnapshot (blockIndex : Z) : GoM error (Link P) bytes :=
  app_call [] (Server_GetSnapshot blockIndex).
Definition Client_Restore (snapshot : bytes) : GoM error (Link P) unit :=
  app_call [] (Server_Restore snapshot) ;;; ret tt.
Definition Client_OnStateChanged (state : NodeState) : GoM error (Link P) unit :=
  app_call tt (Server_OnStateChanged state).

#[export] Instance SocketAppProxy : AppProxy (Link P) := {
  CommitBlock := Client_CommitBlock;
  GetSnapshot := Client_GetSnapshot;
  Restore := Client_Restore;
  OnStateChanged := Client_OnStateChanged;
}.
End app_proxy.

(** ** From the application to the node

    The server's state is what it has put on the channel of submitted
    transactions. *)
Section babble_proxy.
Context {NT : Network}.

Definition Server_SubmitTx (tx : bytes) : GoM error (list bytes) bool :=
  modify (λ submitCh, submitCh ++ [tx]) ;;; ret true.
(** One turn of [listen] of SocketAppProxyServer: after a failed [Accept] it
    serves the nil connection. *)
Definition AppServer_listen {C} (accepted : res C) : res C :=
  match accepted with
  | Ok conn => Ok conn
  | _ => Panic
  end.
(** One turn of [listen] of SocketBabbleProxyServer: it ends with the error. *)
Definition BabbleServer_listen {C} (accepted : res C) : res C := accepted.

Definition Client_SubmitTx (tx : bytes) : GoM error (Link (list bytes)) bool :=
  babble_call false (Server_SubmitTx tx).
Definition SocketBabbleProxy_SubmitTx (tx : bytes) : GoM error (Link (list bytes)) unit :=
  ack <- Client_SubmitTx tx ;;
  if ack then ret tt else throw (EMsg "Failed to deliver transaction to Babble").
Definition DummySocketClient_SubmitTx (tx : bytes) : GoM error (Link (list bytes)) unit :=
  SocketBabbleProxy_SubmitTx tx.
End babble_proxy.

(** ** The mobile application (mobile_app.go)

    The callbacks of the phone's application over its state [P]. *)
Class MobileHandlers (P : Type) := {
  OnCommit : bytes → P → bytes * P;
  OnMobileStateChanged : Z → P → P;
}.

(** [int32(state)], in the order of the constants of node/state/state.go. *)
Definition state_int (s : NodeState) : Z :=
  match s with
  | Babbling => 0
  | CatchingUp => 1
  | Joining => 2
  | Leaving => 3
  | Shutdown => 4
  | Suspended => 5
  end.

Section mobile.
Context {P : Type} {MH : MobileHandlers P} {DC : DBCodec}.

Definition mobile_CommitHandler (block : Block) : GoM error P CommitResponse :=
  blockBytes <- lift (Block_Marshal block) ;;
  processedBlockBytes <- (λ p, let '(bs, p') := OnCommit blockBytes p in (Ok bs, p')) ;;
  processedBlock <- lift (Block_Unmarshal processedBlockBytes) ;;
  ret (mkCommitResponse (Block_StateHash processedBlock)
         (bb_InternalTransactionReceipts (bl_Body processedBlock))).
Definition mobile_SnapshotHandler (blockIndex : Z) : GoM error P bytes := ret [].
Definition mobile_RestoreHandler (snapshot : bytes) : GoM error P bytes := ret [].
Definition mobile_StateChangeHandler (state : NodeState) : GoM error P unit :=
  modify (OnMobileStateChanged (state_int state)).

#[export] Instance MobileApp : ProxyHandler P := {
  CommitHandler := mobile_CommitHandler;
  SnapshotHandler := mobile_SnapshotHandler;
  RestoreHandler := mobile_RestoreHandler;
  StateChangeHandler := mobile_StateChangeHandler;
}.
End mobile.
