(* ===== verification/NetTransport.v ===== *)
(** * The network transport (src/src/net/net_transport.go)

    The client side: a pool of connections per target. A connection is its
    number; what the network answers (dialling, writing, decoding) is an
    argument of the operation. Requests run concurrently, so a request is two
    steps: it takes a connection ([getConn]), and later it ends
    ([finishRPC]: [sendRPC], [decodeResponse] and [returnConn]).

    The server side: [handleConn] reads commands from a connection through a
    [bufio.Reader] and a [json.Decoder] on top of it, each with its own
    buffer. A connection delivers its bytes in pieces, one per read. The
    JSON syntax is the class [JSONStream]: where a value ends, and what it
    decodes to. Deadlines are left out, and so are log messages. *)
From S2P Require Export Node.

(** ** Connections *)
Record netConn := mkConn {
  nc_id : nat;
  nc_target : string;
}.
#[export] Instance netConn_eq_dec : EqDecision netConn.
Proof. solve_decision. Defined.

(** [inUse] are the connections held by requests under way, [released] the
    numbers of those that were closed. *)
Record NetworkTransport := mkTransport {
  connPool : gmap string (list netConn);
  maxPool : Z;
  nt_shutdown : bool;
  nextConn : nat;
  inUse : list netConn;
  released : list nat;
}.
Definition NewNetworkTransport (maxPool : Z) : NetworkTransport :=
  mkTransport ∅ maxPool false 0 [] [].

Definition set_connPool p t :=
  mkTransport p (maxPool t) (nt_shutdown t) (nextConn t) (inUse t) (released t).
Definition set_inUse l t :=
  mkTransport (connPool t) (maxPool t) (nt_shutdown t) (nextConn t) l (released t).

Abbreviation NT := (M NetworkTransport).
Implicit Types (t : NetworkTransport).

Definition IsShutdown t : bool := nt_shutdown t.

Definition Release (conn : netConn) : NT unit :=
  modify (λ t, mkTransport (connPool t) (maxPool t) (nt_shutdown t) (nextConn t) (inUse t)
                 (nc_id conn :: released t)).

Definition Transport_Close : NT unit :=
  modify (λ t, mkTransport (connPool t) (maxPool t) true (nextConn t) (inUse t) (released t)).

(** The last connection of the slice is taken. *)
Definition getPooledConn (target : string) : NT (option netConn) :=
  conns <- gets (λ t, default [] (connPool t !! target)) ;;
  match last conns with
  | None => ret None
  | Some conn =>
      modify (λ t, set_connPool (<[target := take (length conns - 1) conns]> (connPool t)) t) ;;;
      ret (Some conn)
  end.

(** [stream.Dial] answered [dialled]; the new connection gets a fresh number. *)
Definition dial (target : string) (dialled : unit + error) : NT netConn :=
  match dialled with
  | inr err => throw err
  | inl _ =>
      id <- gets nextConn ;;
      modify (λ t, mkTransport (connPool t) (maxPool t) (nt_shutdown t) (S id) (inUse t)
                     (released t)) ;;;
      ret (mkConn id target)
  end.
Definition getConn (target : string) (dialled : unit + error) : NT netConn :=
  pooled <- getPooledConn target ;;
  match pooled with
  | Some conn => ret conn
  | None => dial target dialled
  end.

Definition returnConn (conn : netConn) : NT unit :=
  t <- get ;;
  let key := nc_target conn in
  let conns := default [] (connPool t !! key) in
  if negb (IsShutdown t) && (zlen conns <? maxPool t)
  then modify (λ t, set_connPool (<[key := conns ++ [conn]]> (connPool t)) t)
  else Release conn.

(** [if err := ...; err != nil { conn.Release(); return err }] *)
Definition or_release {A} (conn : netConn) (r : A + error) : NT A :=
  match r with
  | inl a => ret a
  | inr err => Release conn ;;; throw err
  end.

(** What the network answers to a request: the write of the type byte, of the
    arguments, the flush; the decoding of the error text and of the response. *)
Record rpc_outcome (A : Type) := mkOutcome {
  oc_type : unit + error;
  oc_args : unit + error;
  oc_flush : unit + error;
  oc_error : string + error;
  oc_response : A + error;
}.
Arguments mkOutcome {A}.
Arguments oc_type {A}.
Arguments oc_args {A}.
Arguments oc_flush {A}.
Arguments oc_error {A}.
Arguments oc_response {A}.

Section rpc.
Context {A : Type}.
Implicit Types (o : rpc_outcome A).
Definition sendRPC (conn : netConn) o : NT unit :=
  or_release conn (oc_type o) ;;; or_release conn (oc_args o) ;;; or_release conn (oc_flush o).

(** The response, with the error that came with it; then the connection can
    be used again. [fmt.Errorf] is given the text as format: it is the error's
    text as long as it has no percent sign. *)
Definition decodeResponse (conn : netConn) o : NT (A * option error) :=
  rpcError <- or_release conn (oc_error o) ;;
  resp <- or_release conn (oc_response o) ;;
  ret (resp, if decide (rpcError = "") then None else Some (EMsg rpcError)).

(** The rest of [genericRPC], once the connection is there. *)
Definition finishRPC (conn : netConn) o : NT A :=
  sendRPC conn o ;;;
  resp <- decodeResponse conn o ;;
  returnConn conn ;;;
  match resp.2 with
  | Some err => throw err
  | None => ret resp.1
  end.

Definition genericRPC (target : string) (dialled : unit + error) o : NT A :=
  conn <- getConn target dialled ;;
  finishRPC conn o.
End rpc.

(** ** Requests that overlap

    [Start] takes a connection for a request, [End] ends the request that
    holds the [k]-th connection in use. *)
Inductive rpc_step :=
| Start (target : string) (dialled : unit + error)
| End (k : nat) (o : rpc_outcome unit)
| CloseStep.
Definition step_run (s : rpc_step) t : NetworkTransport :=
  match s with
  | Start target dialled =>
      match getConn target dialled t with
      | (Ok conn, t') => set_inUse (conn :: inUse t') t'
      | (_, t') => t'
      end
  | End k o =>
      match inUse t !! k with
      | Some conn =>
          (finishRPC conn o (set_inUse (take k (inUse t) ++ drop (S k) (inUse t)) t)).2
      | None => t
      end
  | CloseStep => (Transport_Close t).2
  end.

(** ** Accounting for the connections *)
Definition pooled (p : gmap string (list netConn)) : list netConn :=
  concat ((map_to_list p).*2).
Definition conns t : list netConn := inUse t ++ pooled (connPool t).

Lemma pooled_insert p k l : pooled (<[k := l]> p) ≡ₚ l ++ pooled (delete k p).
Proof.
  unfold pooled. rewrite <-insert_delete_eq, map_to_list_insert by apply lookup_delete_eq.
  done.
Qed.
Lemma pooled_split p k : pooled p ≡ₚ default [] (p !! k) ++ pooled (delete k p).
Proof.
  destruct (p !! k) as [l|] eqn:Hl; simpl.
  - rewrite <-(insert_id p k l Hl) at 1. apply pooled_insert.
  - by rewrite delete_id.
Qed.

(** Every connection that was ever dialled is in use, in the pool, or
    released, once; a target has at most [maxPool] pooled connections, and
    they lead to it. *)
Definition pool_ok t : Prop :=
  (nc_id <$> conns t) ++ released t ≡ₚ seq 0 (nextConn t) ∧
  ∀ target l, connPool t !! target = Some l →
    zlen l ≤ Z.max 0 (maxPool t) ∧ Forall (λ c, nc_target c = target) l.

Lemma pool_ok_conns t t' :
  conns t' ≡ₚ conns t → released t' = released t → nextConn t' = nextConn t →
  (∀ target l, connPool t' !! target = Some l →
    zlen l ≤ Z.max 0 (maxPool t') ∧ Forall (λ c, nc_target c = target) l) →
  pool_ok t → pool_ok t'.
Proof. intros Hc Hr Hn Hp [Hs _]. split; [|done]. by rewrite Hc, Hr, Hn. Qed.

(** [conn] is held by the request at hand, beside the others. *)
Definition held (conn : netConn) t : Prop := pool_ok (set_inUse (conn :: inUse t) t).

Lemma hoare_Release conn : hoare (held conn) (Release conn) (λ _, pool_ok) pool_ok.
Proof.
  intros t [Hs Hp]. split; [|exact Hp]. simpl in *. rewrite <-Hs.
  unfold conns. simpl. apply Permutation_sym, Permutation_middle.
Qed.
Lemma hoare_or_release {A} conn (r : A + error) :
  hoare (held conn) (or_release conn r) (λ _, held conn) pool_ok.
Proof.
  destruct r as [a|err]; simpl; [by apply hoare_ret|].
  eapply hoare_bind; [apply hoare_Release|intros []]. by apply hoare_throw.
Qed.
Lemma hoare_returnConn conn : hoare (held conn) (returnConn conn) (λ _, pool_ok) pool_ok.
Proof.
  intros t Hh. unfold returnConn, bind at 1, get.
  destruct (negb (IsShutdown t) && _) eqn:Hroom; [|exact (hoare_Release conn t Hh)].
  apply andb_true_iff in Hroom as [_ Hroom]. simpl.
  set (l := default [] (connPool t !! nc_target conn)) in *.
  apply (pool_ok_conns (set_inUse (conn :: inUse t) t)); [|done|done| |exact Hh].
  - unfold conns. simpl. rewrite pooled_insert. rewrite (pooled_split (connPool t) (nc_target conn)).
    fold l. rewrite <-app_assoc. simpl. rewrite <-!Permutation_middle. done.
  - intros target l' Hl'. simpl in *. destruct Hh as [_ Hp]. simpl in Hp.
    destruct (decide (target = nc_target conn)) as [->|Hne].
    + rewrite lookup_insert_eq in Hl'. injection Hl' as <-. unfold zlen in *.
      rewrite length_app. simpl. split; [lia|]. apply Forall_app. split; [|by constructor].
      unfold l. destruct (connPool t !! nc_target conn) as [l0|] eqn:Hl0; [|constructor].
      by apply (Hp _ l0).
    + rewrite lookup_insert_ne in Hl' by done. by apply Hp.
Qed.
Lemma hoare_finishRPC {A} conn (o : rpc_outcome A) :
  hoare (held conn) (finishRPC conn o) (λ _, pool_ok) pool_ok.
Proof.
  unfold finishRPC, sendRPC, decodeResponse.
  eapply hoare_bind; [|intros ?; eapply hoare_bind; [|intros resp]].
  - do 2 (eapply hoare_bind; [apply hoare_or_release|intros []]). apply hoare_or_release.
  - do 2 (eapply hoare_bind; [apply hoare_or_release|intros ?]).
    apply (hoare_ret _ (λ _, held conn)). done.
  - eapply hoare_bind; [apply hoare_returnConn|intros []].
    destruct resp.2; [by apply hoare_throw|by apply hoare_ret].
Qed.

Lemma getPooledConn_spec target t : pool_ok t →
  match getPooledConn target t with
  | (Ok (Some conn), t') => held conn t' ∧ nc_target conn = target
  | (Ok None, t') => t' = t
  | _ => False
  end.
Proof.
  intros Hok. unfold getPooledConn, bind, gets. simpl.
  destruct (last (default [] (connPool t !! target))) as [conn|] eqn:Hlast; [|done]. simpl.
  destruct (connPool t !! target) as [l|] eqn:Hl; [|done]. simpl in *.
  apply last_Some in Hlast as [l' ->].
  replace (length (l' ++ [conn]) - 1)%nat with (length l') by (rewrite length_app; simpl; lia).
  rewrite take_app_length. destruct Hok as [Hs Hp]. pose proof (Hp target _ Hl) as [Hlen Hto].
  apply Forall_app in Hto as [Hto Hc]. inversion Hc as [|? ? Hc' _]; subst.
  split; [|done]. apply (pool_ok_conns t); [|done|done| |done].
  - unfold conns. simpl. rewrite pooled_insert, (pooled_split (connPool t) (nc_target conn)), Hl.
    simpl. rewrite <-app_assoc. simpl. by rewrite <-!Permutation_middle.
  - intros target' l'' Hl''. simpl in *. destruct (decide (target' = nc_target conn)) as [->|Hne].
    + rewrite lookup_insert_eq in Hl''. injection Hl'' as <-. unfold zlen in *.
      rewrite length_app in Hlen. split; [lia|done].
    + rewrite lookup_insert_ne in Hl'' by done. by apply Hp.
Qed.
Lemma getConn_spec target dialled t : pool_ok t →
  match getConn target dialled t with
  | (Ok conn, t') => held conn t' ∧ nc_target conn = target
  | (_, t') => pool_ok t'
  end.
Proof.
  intros Hok. unfold getConn, bind at 1. pose proof (getPooledConn_spec target t Hok) as Hp.
  destruct (getPooledConn target t) as [[[conn|]|err| |] t']; [done| |done..].
  subst t'. destruct dialled as [[]|err]; simpl; [|done].
  split; [|done]. destruct Hok as [Hs Hp]. split; [|exact Hp].
  change ((nextConn t :: (nc_id <$> conns t)) ++ released t ≡ₚ seq 0 (S (nextConn t))).
  rewrite seq_S, Nat.add_0_l, <-Hs. apply Permutation_cons_append.
Qed.
Lemma pool_ok_step s t : pool_ok t → pool_ok (step_run s t).
Proof.
  intros Hok. destruct s as [target dialled|k o|]; simpl.
  - pose proof (getConn_spec target dialled t Hok) as Hg.
    destruct (getConn target dialled t) as [[conn|err| |] t']; [by destruct Hg|done..].
  - destruct (inUse t !! k) as [conn|] eqn:Hk; [|done].
    apply (hoare_state (held conn) (λ _, pool_ok)); [apply hoare_finishRPC| |done].
    apply (pool_ok_conns t); [|done|done| |exact Hok].
    + unfold conns. simpl. rewrite <-(take_drop_middle _ _ _ Hk) at 3.
      rewrite <-!app_assoc. simpl. by rewrite <-!Permutation_middle.
    + simpl. by destruct Hok.
  - exact Hok.
Qed.

(** The size of the pool is a setting. *)
Definition same_max (n : Z) t : Prop := maxPool t = n.
Lemma hoare_or_release_max {A} conn (r : A + error) n :
  hoare (same_max n) (or_release conn r) (λ _, same_max n) (same_max n).
Proof. intros t Ht. by destruct r. Qed.
Lemma hoare_finishRPC_max {A} conn (o : rpc_outcome A) n :
  hoare (same_max n) (finishRPC conn o) (λ _, same_max n) (same_max n).
Proof.
  unfold finishRPC, sendRPC, decodeResponse.
  eapply hoare_bind; [|intros ?; eapply hoare_bind; [|intros resp]].
  - do 2 (eapply hoare_bind; [apply hoare_or_release_max|intros []]). apply hoare_or_release_max.
  - do 2 (eapply hoare_bind; [apply hoare_or_release_max|intros ?]).
    by apply (hoare_ret _ (λ _, same_max n)).
  - apply (hoare_bind _ (λ _, same_max n)).
    + intros t Ht. unfold returnConn, bind, get. by destruct (_ && _).
    + intros ?. destruct resp.2; [by apply hoare_throw|by apply hoare_ret].
Qed.
Lemma step_run_max t s : maxPool (step_run s t) = maxPool t.
Proof.
  destruct s as [target dialled|k o|]; simpl; [| |done].
  - unfold getConn, getPooledConn, bind, gets. destruct (last _); [done|]. simpl.
    by destruct dialled.
  - destruct (inUse t !! k) as [conn|]; [|done].
    by apply (hoare_state (same_max (maxPool t)) (λ _, same_max (maxPool t)) (same_max (maxPool t)));
      [apply hoare_finishRPC_max| |].
Qed.

(** ** Reading commands *)
Definition rpcJoin : Z := 0.
Definition rpcSync : Z := 1.
Definition rpcEagerSync : Z := 2.
Definition rpcFastForward : Z := 3.
Definition bufSize : Z := 65535.

(** What the code uses of encoding/json on a stream: [scan_value] looks for
    the end of the first value ([None]: not JSON; [Some None]: more input is
    needed), [unmarshal_command] decodes a value into the request of the
    given type. A structure ends with its closing brace: the end is found
    without looking at the byte after it. *)
Class JSONStream := {
  scan_value : bytes → option (option nat);
  json_Command : Command → bytes;
  unmarshal_command : Z → bytes → res Command;
}.

(** The first bytes, up to [n]. *)
Definition ztake (n : Z) (l : bytes) : bytes :=
  if zlen l <=? n then l else take (Z.to_nat n) l.
Definition zdrop (n : Z) (l : bytes) : bytes :=
  if zlen l <=? n then [] else drop (Z.to_nat n) l.

(** A read of a connection that delivers [src]: at most [n] bytes of the next
    piece; [None] at the end. *)
Fixpoint conn_Read (n : Z) (src : list bytes) : option (bytes * list bytes) :=
  match src with
  | [] => None
  | [] :: src => conn_Read n src
  | piece :: src =>
      Some (ztake n piece, match zdrop n piece with [] => src | r => r :: src end)
  end.

(** [bufio.Reader] of size [bufSize]. *)
Record bufReader := mkReader {
  rd_buf : bytes;
  rd_src : list bytes;
}.
Definition ReadByte (r : bufReader) : option (byte * bufReader) :=
  match rd_buf r with
  | b :: buf => Some (b, mkReader buf (rd_src r))
  | [] =>
      match conn_Read bufSize (rd_src r) with
      | Some (b :: buf, src) => Some (b, mkReader buf src)
      | _ => None
      end
  end.
Definition buf_Read (n : Z) (r : bufReader) : option (bytes * bufReader) :=
  match rd_buf r with
  | _ :: _ => Some (ztake n (rd_buf r), mkReader (zdrop n (rd_buf r)) (rd_src r))
  | [] =>
      if bufSize <=? n then
        match conn_Read n (rd_src r) with
        | Some (p, src) => Some (p, mkReader [] src)
        | None => None
        end
      else
        match conn_Read bufSize (rd_src r) with
        | Some (p, src) => Some (ztake n p, mkReader (zdrop n p) src)
        | None => None
        end
  end.

(** [json.Decoder]: the input it has read ahead, and the capacity of its
    buffer, which grows so that at least 512 bytes can be read. *)
Record jsonDecoder := mkDecoder {
  dec_buf : bytes;
  dec_cap : Z;
}.
Definition minRead : Z := 512.
Definition grown (d : jsonDecoder) : Z :=
  if dec_cap d - zlen (dec_buf d) <? minRead then 2 * dec_cap d + minRead else dec_cap d.

(** The state of an inbound connection, what was dispatched and answered. *)
Record inbound := mkInbound {
  ib_reader : bufReader;
  ib_decoder : jsonDecoder;
  ib_commands : list Command;
  ib_answers : list (string * Response);
}.
Definition set_streams r d (c : inbound) : inbound :=
  mkInbound r d (ib_commands c) (ib_answers c).
(** The white space of JSON. *)
Definition is_space (b : byte) : bool :=
  match b with x20 | x09 | x0d | x0a => true | _ => false end.
Definition blank (bs : bytes) : bool := forallb is_space bs.
Definition io_EOF : error := EMsg "EOF".
Definition ErrTransportShutdown : error := EMsg "transport shutdown".

Section server.
Context {JS : JSONStream}.
(** What the consumer of the commands answers to the [k]-th; [None]: the
    transport is shut down before it answers. Whether the writes of the
    answer succeed. *)
Context (serve : nat → Command → option (Response * option error)) (written : nat → unit + error).
Abbreviation IB := (M inbound).

Definition read_type : IB Z :=
  c <- get ;;
  match ReadByte (ib_reader c) with
  | None => throw io_EOF
  | Some (b, r) => modify (set_streams r (ib_decoder c)) ;;; ret (byteZ b)
  end.

(** [Decode]: the next value, reading more until it is complete. *)
Fixpoint read_value (n : nat) : IB bytes :=
  match n with
  | O => diverge
  | S n =>
      c <- get ;;
      let d := ib_decoder c in
      match scan_value (dec_buf d) with
      | None => throw (EMsg "invalid character")
      | Some (Some k) =>
          modify (set_streams (ib_reader c) (mkDecoder (drop k (dec_buf d)) (dec_cap d))) ;;;
          ret (take k (dec_buf d))
      | Some None =>
          match buf_Read (grown d - zlen (dec_buf d)) (ib_reader c) with
          | None => throw (if blank (dec_buf d) then io_EOF else EMsg "unexpected EOF")
          | Some (p, r) =>
              modify (set_streams r (mkDecoder (dec_buf d ++ p) (grown d))) ;;; read_value n
          end
      end
  end.

Context (fuel : nat).
Definition read_command : IB Command :=
  rpcType <- read_type ;;
  if (rpcType =? rpcSync) || (rpcType =? rpcEagerSync) || (rpcType =? rpcFastForward) ||
     (rpcType =? rpcJoin)
  then
    value <- read_value fuel ;;
    lift (unmarshal_command rpcType value)
  else throw (EMsg ("unknown rpc type " +:+ pretty rpcType)).

Definition handleCommand : IB unit :=
  command <- read_command ;;
  k <- gets (λ c, length (ib_commands c)) ;;
  match serve k command with
  | None => throw ErrTransportShutdown
  | Some (resp, err) =>
      modify (λ c, mkInbound (ib_reader c) (ib_decoder c) (ib_commands c ++ [command])
                     (ib_answers c)) ;;;
      let respErr := match err with None => "" | Some err => error_msg err end in
      match written k with
      | inr werr => throw werr
      | inl _ =>
          modify (λ c, mkInbound (ib_reader c) (ib_decoder c) (ib_commands c)
                         (ib_answers c ++ [(respErr, resp)]))
      end
  end.

(** The loop of [handleConn], until an error closes the connection. *)
Fixpoint handleConn (n : nat) : IB unit :=
  match n with
  | O => diverge
  | S n => handleCommand ;;; handleConn n
  end.
End server.

Definition accepted (src : list bytes) : inbound :=
  mkInbound (mkReader [] src) (mkDecoder [] 0) [] [].

(** What [sendRPC] sends: the type, the encoding of the arguments and the
    newline that [Encode] adds. *)
Definition rpc_type (c : Command) : option Z :=
  match c with
  | CJoin _ => Some rpcJoin
  | CSync _ => Some rpcSync
  | CEagerSync _ => Some rpcEagerSync
  | CFastForward _ => Some rpcFastForward
  | COther => None
  end.
Definition newline : byte := x0a.
Definition request {JS : JSONStream} (c : Command) : bytes :=
  byte_of_Z (default 0 (rpc_type c)) :: json_Command c ++ [newline].

(** What is used of JSON: white space before a value is skipped, and the
    encoding of a request is found whole whatever follows it. *)
Class JSONStreamLaws {JS : JSONStream} := {
  scan_blank : ∀ ws, blank ws = true → scan_value ws = Some None;
  scan_command : ∀ ws c rest, blank ws = true → is_Some (rpc_type c) →
    scan_value (ws ++ json_Command c ++ rest) = Some (Some (length ws + length (json_Command c)))%nat;
  unmarshal_blank : ∀ ws c ty, blank ws = true → rpc_type c = Some ty →
    unmarshal_command ty (ws ++ json_Command c) = unmarshal_command ty (json_Command c);
}.

(** A request that the encoding represents: the text of a string that is not
    UTF-8, for one, is not kept by JSON. *)
Definition faithful {JS : JSONStream} (c : Command) : Prop :=
  ∃ ty, rpc_type c = Some ty ∧ unmarshal_command ty (json_Command c) = Ok c.

Section framing.
Context {JS : JSONStream} {JL : JSONStreamLaws}.
Context (serve : nat → Command → option (Response * option error)) (written : nat → unit + error).
Context (Hserve : ∀ k c, is_Some (serve k c)) (Hwritten : ∀ k, written k = inl tt).

(** Between two commands: nothing is buffered but white space. *)
Definition clean (src : list bytes) (c : inbound) : Prop :=
  ib_reader c = mkReader [] src ∧ blank (dec_buf (ib_decoder c)) = true ∧
  zlen (dec_buf (ib_decoder c)) ≤ dec_cap (ib_decoder c).
Definition small (c : Command) : Prop := faithful c ∧ zlen (json_Command c) < minRead.

Lemma grown_room d : zlen (dec_buf d) ≤ dec_cap d → minRead ≤ grown d - zlen (dec_buf d).
Proof.
  unfold grown, minRead, zlen. intros H. destruct (_ <? _) eqn:Hlt; lia.
Qed.
Lemma ztake_all n l : zlen l ≤ n → ztake n l = l ∧ zdrop n l = [].
Proof. intros H. unfold ztake, zdrop. by rewrite (proj2 (Z.leb_le _ _)). Qed.
Lemma rpc_type_byte c ty : rpc_type c = Some ty → byteZ (byte_of_Z ty) = ty ∧
  (ty =? rpcSync) || (ty =? rpcEagerSync) || (ty =? rpcFastForward) || (ty =? rpcJoin) = true.
Proof. by destruct c; intros [= <-]. Qed.

Lemma read_type_request cmd src c ty : clean (request cmd :: src) c → small cmd →
  rpc_type cmd = Some ty →
  read_type c = (Ok ty, set_streams (mkReader (json_Command cmd ++ [newline]) src) (ib_decoder c) c).
Proof.
  intros (Hr & _ & _) [_ Hlen] Hty. unfold read_type, bind, get. simpl. rewrite Hr.
  unfold ReadByte. simpl. unfold request. rewrite Hty. simpl.
  destruct (ztake_all bufSize (byte_of_Z ty :: json_Command cmd ++ [newline])) as [-> ->].
  { unfold zlen, minRead, bufSize in *. simpl. rewrite length_app. simpl. lia. }
  simpl. by rewrite (proj1 (rpc_type_byte cmd ty Hty)).
Qed.
Lemma read_value_request cmd src d c n :
  is_Some (rpc_type cmd) → zlen (json_Command cmd) < minRead →
  ib_reader c = mkReader (json_Command cmd ++ [newline]) src → ib_decoder c = d →
  blank (dec_buf d) = true → zlen (dec_buf d) ≤ dec_cap d →
  read_value (S (S n)) c =
    (Ok (dec_buf d ++ json_Command cmd),
     set_streams (mkReader [] src) (mkDecoder [newline] (grown d)) c).
Proof.
  intros Hty Hlen Hr Hd Hb Hcap. simpl. unfold bind at 1, get. rewrite Hd.
  rewrite scan_blank by done. unfold buf_Read. rewrite Hr. simpl.
  pose proof (grown_room d Hcap) as Hroom.
  destruct (ztake_all (grown d - zlen (dec_buf d)) (json_Command cmd ++ [newline])) as [Ht Hdr].
  { unfold zlen in *. rewrite length_app. simpl. lia. }
  destruct (json_Command cmd ++ [newline]) as [|b0 bs0] eqn:Hbs; [by destruct (json_Command cmd)|].
  rewrite Ht, Hdr. unfold bind at 1, modify at 1. simpl. unfold bind at 1, get. simpl.
  rewrite <-Hbs, scan_command by done. unfold bind, modify, ret, set_streams. simpl.
  do 2 f_equal.
  - f_equal. rewrite app_assoc, <-length_app, take_app_length. done.
  - f_equal. f_equal. by rewrite app_assoc, <-length_app, drop_app_length.
Qed.

Lemma handleCommand_request cmd src c n : clean (request cmd :: src) c → small cmd →
  ∃ c', handleCommand serve written (S (S n)) c = (Ok tt, c') ∧ clean src c' ∧
    ib_commands c' = ib_commands c ++ [cmd] ∧
    length (ib_answers c') = S (length (ib_answers c)).
Proof.
  intros Hc Hs. pose proof Hs as [(ty & Hty & Hun) Hlen]. destruct Hc as (Hr & Hb & Hcap).
  unfold handleCommand, read_command.
  rewrite (bind_Ok_l _ _ c cmd (set_streams (mkReader [] src)
    (mkDecoder [newline] (grown (ib_decoder c))) c)).
  2:{ rewrite (bind_Ok_l _ _ _ _ _ (read_type_request cmd src c ty (conj Hr (conj Hb Hcap))
        Hs Hty)).
      rewrite (proj2 (rpc_type_byte cmd ty Hty)).
      rewrite (bind_Ok_l _ _ _ _ _ (read_value_request cmd src (ib_decoder c)
        (set_streams (mkReader (json_Command cmd ++ [newline]) src) (ib_decoder c) c) n
        (mk_is_Some _ _ Hty) Hlen eq_refl eq_refl Hb Hcap)).
      unfold lift. by rewrite (unmarshal_blank _ cmd ty Hb Hty), Hun. }
  unfold bind at 1, gets. simpl. destruct (Hserve (length (ib_commands c)) cmd) as [[resp err] ->].
  unfold bind, modify. simpl. rewrite Hwritten. eexists. split; [done|]. split_and!; simpl; [|done|].
  - split; [done|]. split; [done|]. simpl. pose proof (grown_room _ Hcap) as Hroom.
    unfold zlen, minRead in *. simpl. lia.
  - rewrite length_app. simpl. lia.
Qed.
Lemma handleConn_requests cmds c n : clean (request <$> cmds) c → Forall small cmds →
  ∃ c', handleConn serve written (S (S n)) (S (length cmds)) c = (Err io_EOF, c') ∧
    ib_commands c' = ib_commands c ++ cmds ∧
    length (ib_answers c') = (length (ib_answers c) + length cmds)%nat.
Proof.
  revert c. induction cmds as [|cmd cmds IH]; intros c Hc Hall.
  - destruct Hc as (Hr & _). simpl in *. unfold handleCommand, read_command, read_type, bind, get.
    rewrite Hr. simpl. eexists. rewrite app_nil_r, Nat.add_0_r. done.
  - inversion Hall as [|? ? Hs Hrest]; subst. cbn [length handleConn fmap list_fmap] in *.
    destruct (handleCommand_request cmd (request <$> cmds) c n Hc Hs) as (c1 & Hrun & Hc1 & Hcm & Ha).
    rewrite (bind_Ok_l _ _ _ _ _ Hrun). destruct (IH c1 Hc1 Hrest) as (c' & Hrun' & Hcm' & Ha').
    exists c'. split; [exact Hrun'|]. rewrite Hcm', Hcm, <-app_assoc. split; [done|]. lia.
Qed.
(** A first request of exactly the size of the decoder's buffer leaves its
    newline in the reader. *)
Lemma handleCommand_512 cmd src n : faithful cmd → zlen (json_Command cmd) = minRead →
  ∃ c', handleCommand serve written (S (S n)) (accepted (request cmd :: src)) = (Ok tt, c') ∧
    ib_reader c' = mkReader [newline] src ∧ ib_commands c' = [cmd] ∧
    length (ib_answers c') = 1%nat.
Proof.
  intros (ty & Hty & Hun) Hlen. unfold handleCommand, read_command.
  set (j := json_Command cmd) in *.
  assert (read_type (accepted (request cmd :: src)) =
    (Ok ty, mkInbound (mkReader (j ++ [newline]) src) (mkDecoder [] 0) [] [])) as Hread.
  { unfold read_type, bind, get, accepted. simpl. unfold ReadByte, request. rewrite Hty. simpl.
    destruct (ztake_all bufSize (byte_of_Z ty :: j ++ [newline])) as [Ht Hd].
    { unfold zlen, minRead, bufSize in *. simpl. rewrite length_app. simpl. lia. }
    fold j. rewrite Ht, Hd. simpl. by rewrite (proj1 (rpc_type_byte cmd ty Hty)). }
  assert (ztake 512 (j ++ [newline]) = j ∧ zdrop 512 (j ++ [newline]) = [newline]) as [Ht Hd].
  { unfold ztake, zdrop. unfold zlen, minRead in Hlen. rewrite (proj2 (Z.leb_gt _ _)).
    - replace (Z.to_nat 512) with (length j) by lia. by rewrite take_app_length, drop_app_length.
    - unfold zlen. rewrite length_app. simpl. lia. }
  assert (read_value (S (S n)) (mkInbound (mkReader (j ++ [newline]) src) (mkDecoder [] 0) [] []) =
    (Ok j, mkInbound (mkReader [newline] src) (mkDecoder [] 512) [] [])) as Hval.
  { simpl. unfold bind at 1, get. simpl. rewrite scan_blank by done. unfold buf_Read. simpl.
    change (grown (mkDecoder [] 0) - zlen []) with 512. rewrite Ht, Hd.
    destruct (j ++ [newline]) as [|b0 bs0] eqn:Hbs; [by destruct j|].
    unfold bind at 1, modify at 1. simpl. unfold bind at 1, get. simpl.
    pose proof (scan_command [] cmd [] eq_refl (mk_is_Some _ _ Hty)) as Hscan.
    simpl in Hscan. rewrite app_nil_r in Hscan. fold j in Hscan. rewrite Hscan.
    unfold bind, modify, ret, set_streams. simpl. by rewrite take_ge, drop_ge by lia. }
  unfold bind at 1. unfold bind at 1. rewrite Hread. rewrite (proj2 (rpc_type_byte cmd ty Hty)).
  unfold bind at 1. rewrite Hval. unfold lift. rewrite Hun.
  unfold bind at 1, gets. simpl. destruct (Hserve 0%nat cmd) as [[resp err] ->].
  unfold bind, modify. simpl. rewrite Hwritten. eexists. by split.
Qed.
(** The newline is read as the type of the next request. *)
Lemma read_newline n (c : inbound) src : ib_reader c = mkReader [newline] src →
  read_command n c =
    (Err (EMsg "unknown rpc type 10"), set_streams (mkReader [] src) (ib_decoder c) c).
Proof. intros Hr. unfold read_command, read_type, bind, get. simpl. rewrite Hr. done. Qed.
Lemma accepted_clean src : clean src (accepted src).
Proof. by split. Qed.
End framing.
