(* ===== verification/InmemTransport.v ===== *)
(** * The in-memory transport (src/src/net/inmem_transport.go, rpc.go)

    Nodes of one process, connected by channels. The transports are objects
    that refer to each other: [world] is the store of them, by number, with
    the calls of [makeRPC], each with the channel [RespChan] that it made, and
    the requests that the nodes have taken from their channels and not yet
    answered. A goroutine that waits is split where it waits, and [act] is one
    step of one of them; an action that would block is not possible ([None]).

    [inmem_answers]: the answer of a call is the answer to
    its request by the transport that was its target. *)
From S2P Require Export Node.

(** ** RPC (rpc.go) *)
Record RPCResponse := mkRPCResponse {
  rr_Response : Response;
  rr_Error : option error;
}.
Record RPC := mkRPC {
  rpc_Command : Command;
  rpc_RespChan : nat;  (* the call that made the channel *)
}.

(** ** The transports *)
Record InmemTransport := mkInmemTransport {
  it_consumerCh : list RPC;
  it_localAddr : string;
  it_peers : gmap string nat;
}.
Definition consumer_capacity : nat := 16.
(** [uuid] is the random address that is taken when none is given. *)
Definition NewInmemTransport (uuid addr : string) : string * InmemTransport :=
  let addr := if bool_decide (addr = "") then uuid else addr in
  (addr, mkInmemTransport [] addr ∅).

(** A call waits for its answer, or has returned. *)
Inductive rpc_call :=
| Waiting
| Returned (r : res Response).

Record world := mkWorld {
  w_trans : gmap nat InmemTransport;
  w_calls : gmap nat rpc_call;
  w_taken : list (nat * RPC);  (* by the node of which transport *)
}.
Implicit Types (w : world) (t : InmemTransport).

Definition set_peers f t := mkInmemTransport (it_consumerCh t) (it_localAddr t) (f (it_peers t)).
Definition set_consumer ch t := mkInmemTransport ch (it_localAddr t) (it_peers t).
Definition set_trans i t w := mkWorld (<[i := t]> (w_trans w)) (w_calls w) (w_taken w).
Definition set_call c r w := mkWorld (w_trans w) (<[c := r]> (w_calls w)) (w_taken w).
Definition set_taken l w := mkWorld (w_trans w) (w_calls w) l.

Definition Connect (i : nat) (peer : string) (j : nat) w : option world :=
  t ← w_trans w !! i; Some (set_trans i (set_peers (insert peer j) t) w).
Definition Disconnect (i : nat) (peer : string) w : option world :=
  t ← w_trans w !! i; Some (set_trans i (set_peers (delete peer) t) w).
Definition DisconnectAll (i : nat) w : option world :=
  t ← w_trans w !! i; Some (set_trans i (set_peers (λ _, ∅) t) w).
Definition InmemTransport_Close (i : nat) w : option world := DisconnectAll i w.

(** The first half of [makeRPC]: it returns an error, or sends the request and
    waits. A new call [c] makes a new channel. *)
Definition makeRPC_send (i c : nat) (target : string) (args : Command) w : option world :=
  match w_calls w !! c with
  | Some _ => None
  | None =>
      t ← w_trans w !! i;
      match it_peers t !! target with
      | None => Some (set_call c (Returned (Err (EMsg ("failed to connect to peer: " +:+ target)))) w)
      | Some j =>
          peer ← w_trans w !! j;
          if (length (it_consumerCh peer) <? consumer_capacity)%nat
          then Some (set_call c Waiting
                 (set_trans j (set_consumer (it_consumerCh peer ++ [mkRPC args c]) peer) w))
          else None
      end
  end.
(** The second half: the answer, handed over by [Respond], or the timer. *)
Definition makeRPC_answer (r : RPCResponse) : res Response :=
  match rr_Error r with
  | Some err => Err err
  | None => Ok (rr_Response r)
  end.
Definition makeRPC_timeout (c : nat) w : option world :=
  match w_calls w !! c with
  | Some Waiting => Some (set_call c (Returned (Err (EMsg "command timed out"))) w)
  | _ => None
  end.

(** The node of transport [j] takes a request from [Consumer()]. *)
Definition Consumer_take (j : nat) w : option world :=
  t ← w_trans w !! j;
  match it_consumerCh t with
  | [] => None
  | rpc :: rest => Some (set_taken (w_taken w ++ [(j, rpc)]) (set_trans j (set_consumer rest t) w))
  end.
(** The [k]-th request taken is answered. The channel has no buffer: it can be
    only while the call waits. *)
Definition Respond (k : nat) (r : RPCResponse) w : option world :=
  '(j, rpc) ← w_taken w !! k;
  match w_calls w !! rpc_RespChan rpc with
  | Some Waiting =>
      Some (set_call (rpc_RespChan rpc) (Returned (makeRPC_answer r))
              (set_taken (take k (w_taken w) ++ drop (S k) (w_taken w)) w))
  | _ => None
  end.

(** [Sync] and its like: an answer of another type panics. *)
Definition inmem_Sync (r : res Response) : res SyncResponse :=
  resp <-- r ;; match resp with RSync out => Ok out | _ => Panic end.
Definition inmem_EagerSync (r : res Response) : res EagerSyncResponse :=
  resp <-- r ;; match resp with REagerSync out => Ok out | _ => Panic end.
Definition inmem_FastForward (r : res Response) : res FastForwardResponse :=
  resp <-- r ;; match resp with RFastForward out => Ok out | _ => Panic end.
Definition inmem_Join (r : res Response) : res JoinResponse :=
  resp <-- r ;; match resp with RJoin out => Ok out | _ => Panic end.

Inductive action :=
| AConnect (i : nat) (peer : string) (j : nat)
| ADisconnect (i : nat) (peer : string)
| AClose (i : nat)
| ASend (i c : nat) (target : string) (args : Command)
| ATimeout (c : nat)
| ATake (j : nat)
| ARespond (k : nat) (r : RPCResponse).
Definition act (a : action) w : option world :=
  match a with
  | AConnect i peer j => Connect i peer j w
  | ADisconnect i peer => Disconnect i peer w
  | AClose i => InmemTransport_Close i w
  | ASend i c target args => makeRPC_send i c target args w
  | ATimeout c => makeRPC_timeout c w
  | ATake j => Consumer_take j w
  | ARespond k r => Respond k r w
  end.
Fixpoint acts (l : list action) w : option world :=
  match l with
  | [] => Some w
  | a :: l => w' ← act a w; acts l w'
  end.

(** ** Whose answer a call gets *)
Section answers.
Context (w0 : world).
Hypothesis Hquiet : w_calls w0 = ∅ ∧ w_taken w0 = [] ∧
  ∀ i t, w_trans w0 !! i = Some t → it_consumerCh t = [].

Lemma acts_snoc l a w w' : acts l w = Some w' → acts (l ++ [a]) w = act a w'.
Proof.
  revert w. induction l as [|b l IH]; simpl; intros w Hl.
  - injection Hl as ->. by destruct (act a w').
  - destruct (act b w) as [w1|]; [|done]. simpl in *. by apply IH.
Qed.
Lemma acts_snoc_inv l a w w' : acts (l ++ [a]) w = Some w' →
  ∃ w1, acts l w = Some w1 ∧ act a w1 = Some w'.
Proof.
  intros H. destruct (acts l w) as [w1|] eqn:Hl.
  - exists w1. split; [done|]. by rewrite <-(acts_snoc l a w w1).
  - exfalso. revert w Hl H. induction l as [|b l IH]; simpl; [done|]. intros w.
    destruct (act b w); simpl; [apply IH|done].
Qed.

(** In the course of [l], the request [rpc] was sent to transport [j]: to the
    transport that the target of the call was connected to. *)
Definition sent (l : list action) (j : nat) (rpc : RPC) : Prop :=
  ∃ l1 l2 i target w t, l = l1 ++ ASend i (rpc_RespChan rpc) target (rpc_Command rpc) :: l2 ∧
    acts l1 w0 = Some w ∧ w_trans w !! i = Some t ∧ it_peers t !! target = Some j.
(** The node of transport [j] took [rpc] and answered it with [r]. *)
Definition responded (l : list action) (j : nat) (rpc : RPC) (r : RPCResponse) : Prop :=
  ∃ l1 k l2 w, l = l1 ++ ARespond k r :: l2 ∧ acts l1 w0 = Some w ∧ w_taken w !! k = Some (j, rpc).

Lemma sent_snoc l a j rpc : sent l j rpc → sent (l ++ [a]) j rpc.
Proof.
  intros (l1 & l2 & i & target & w & t & -> & Hl & Ht & Hp).
  exists l1, (l2 ++ [a]), i, target, w, t. by rewrite <-app_assoc.
Qed.
Lemma responded_snoc l a j rpc r : responded l j rpc r → responded (l ++ [a]) j rpc r.
Proof.
  intros (l1 & k & l2 & w & -> & Hl & Hk). exists l1, k, (l2 ++ [a]), w. by rewrite <-app_assoc.
Qed.

Record traced (l : list action) (w : world) : Prop := mkTraced {
  tr_channel : ∀ j t rpc, w_trans w !! j = Some t → rpc ∈ it_consumerCh t → sent l j rpc;
  tr_bound : ∀ j t, w_trans w !! j = Some t → (length (it_consumerCh t) ≤ consumer_capacity)%nat;
  tr_taken : ∀ j rpc, (j, rpc) ∈ w_taken w → sent l j rpc;
  tr_answer : ∀ c resp, w_calls w !! c = Some (Returned (Ok resp)) →
    ∃ j rpc, rpc_RespChan rpc = c ∧ sent l j rpc ∧ responded l j rpc (mkRPCResponse resp None);
}.

(** A change of the routes, or of a call to a failure. *)
Lemma traced_routes l a w i t f : traced l w → w_trans w !! i = Some t →
  traced (l ++ [a]) (set_trans i (set_peers f t) w).
Proof.
  intros [Hc Hb Ht Ha] Hi. split; simpl.
  - intros j t' rpc. rewrite lookup_insert_Some. intros [[<- <-]|[_ Hj]] Hin; eauto using sent_snoc.
  - intros j t'. rewrite lookup_insert_Some. intros [[<- <-]|[_ Hj]]; [exact (Hb i t Hi)|exact (Hb j t' Hj)].
  - eauto using sent_snoc.
  - intros c resp Hr. destruct (Ha c resp Hr) as (j & rpc & ? & ? & ?).
    exists j, rpc. eauto using sent_snoc, responded_snoc.
Qed.
Lemma traced_call l a w c x : traced l w →
  (∀ resp, x = Returned (Ok resp) → ∃ j rpc, rpc_RespChan rpc = c ∧ sent l j rpc ∧
     responded (l ++ [a]) j rpc (mkRPCResponse resp None)) →
  traced (l ++ [a]) (set_call c x w).
Proof.
  intros [Hc Hb Ht Ha] Hx. split; simpl; eauto using sent_snoc.
  intros c' resp. rewrite lookup_insert_Some. intros [[<- Hr]|[_ Hr]].
  - destruct (Hx resp Hr) as (j & rpc & ? & ? & ?). exists j, rpc. eauto using sent_snoc.
  - destruct (Ha c' resp Hr) as (j & rpc & ? & ? & ?).
    exists j, rpc. eauto using sent_snoc, responded_snoc.
Qed.
Lemma traced_sent l w w' i c target args : acts l w0 = Some w → traced l w →
  makeRPC_send i c target args w = Some w' → traced (l ++ [ASend i c target args]) w'.
Proof.
  intros Hl Hw. unfold makeRPC_send. destruct (w_calls w !! c); [done|].
  destruct (w_trans w !! i) as [t|] eqn:Hi; simpl; [|done].
  destruct (it_peers t !! target) as [j|] eqn:Hp; simpl.
  2: { intros [= <-]. by apply traced_call. }
  destruct (w_trans w !! j) as [p|] eqn:Hj; simpl; [|done].
  destruct (Nat.ltb_spec (length (it_consumerCh p)) consumer_capacity) as [Hcap|]; [|done].
  intros [= <-]. destruct Hw as [Hc Hb Ht Ha].
  assert (sent (l ++ [ASend i c target args]) j (mkRPC args c)) as Hsent.
  { exists l, [], i, target, w, t. done. }
  split; simpl.
  - intros j' t' rpc. rewrite lookup_insert_Some. intros [[<- <-]|[_ Hj']] Hin; eauto using sent_snoc.
    simpl in Hin. apply elem_of_app in Hin as [Hin|Hin%list_elem_of_singleton];
      [eauto using sent_snoc|by subst].
  - intros j' t'. rewrite lookup_insert_Some. intros [[<- <-]|[_ Hj']]; [|exact (Hb j' t' Hj')].
    simpl. rewrite length_app. simpl. lia.
  - eauto using sent_snoc.
  - intros c' resp. rewrite lookup_insert_Some. intros [[_ Hr]|[_ Hr]]; [done|].
    destruct (Ha c' resp Hr) as (j' & rpc & ? & ? & ?).
    exists j', rpc. eauto using sent_snoc, responded_snoc.
Qed.
Lemma traced_take l w w' j : traced l w → Consumer_take j w = Some w' →
  traced (l ++ [ATake j]) w'.
Proof.
  intros [Hc Hb Ht Ha]. unfold Consumer_take.
  destruct (w_trans w !! j) as [t|] eqn:Hj; simpl; [|done].
  destruct (it_consumerCh t) as [|rpc rest] eqn:Hch; [done|]. intros [= <-]. split; simpl.
  - intros j' t' r. rewrite lookup_insert_Some. intros [[<- <-]|[_ Hj']] Hin; eauto using sent_snoc.
    apply sent_snoc, (Hc j t); [done|]. rewrite Hch. by right.
  - intros j' t'. rewrite lookup_insert_Some. intros [[<- <-]|[_ Hj']]; [|exact (Hb j' t' Hj')].
    simpl. specialize (Hb j t Hj). rewrite Hch in Hb. simpl in Hb. lia.
  - intros j' r [Hin|[= -> ->]%list_elem_of_singleton]%elem_of_app; [eauto using sent_snoc|].
    apply sent_snoc, (Hc j t); [done|]. rewrite Hch. by left.
  - intros c resp Hr. destruct (Ha c resp Hr) as (j' & r & ? & ? & ?).
    exists j', r. eauto using sent_snoc, responded_snoc.
Qed.
Lemma traced_respond l w w' k r : acts l w0 = Some w → traced l w → Respond k r w = Some w' →
  traced (l ++ [ARespond k r]) w'.
Proof.
  intros Hl Hw. unfold Respond. destruct (w_taken w !! k) as [[j rpc]|] eqn:Hk; simpl; [|done].
  destruct (w_calls w !! rpc_RespChan rpc) as [[|]|]; try done. intros [= <-].
  apply traced_call.
  - destruct Hw as [Hc Hb Ht Ha]. split; simpl; eauto. intros j' r' Hin. apply Ht.
    apply elem_of_app in Hin as [Hin|Hin];
      [by eapply subseteq_take|by eapply subseteq_drop].
  - intros resp [= Hr]. exists j, rpc. split; [done|]. split.
    + apply (tr_taken _ _ Hw). by eapply list_elem_of_lookup_2.
    + exists l, k, [], w. unfold makeRPC_answer in Hr. by destruct r as [resp' [err|]]; simplify_eq/=.
Qed.
Lemma acts_traced l w : acts l w0 = Some w → traced l w.
Proof.
  revert w. induction l as [|a l IH] using rev_ind; intros w Hl.
  { injection Hl as <-. destruct Hquiet as (Hc & Ht & Hch). split.
    - intros j t rpc Hj. rewrite (Hch j t Hj). by intros ?%elem_of_nil.
    - intros j t Hj. rewrite (Hch j t Hj). simpl. lia.
    - intros j rpc. rewrite Ht. by intros ?%elem_of_nil.
    - intros c resp. rewrite Hc. by rewrite lookup_empty. }
  apply acts_snoc_inv in Hl as (w1 & Hl & Ha). specialize (IH w1 Hl).
  destruct a; simpl in Ha; unfold Connect, Disconnect, InmemTransport_Close, DisconnectAll in Ha.
  1-3: destruct (w_trans w1 !! i) eqn:Hi; simpl in Ha; simplify_eq; by apply traced_routes.
  - by eapply traced_sent.
  - unfold makeRPC_timeout in Ha. destruct (w_calls w1 !! c) as [[|]|]; simplify_eq.
    by apply traced_call.
  - by apply (traced_take l w1).
  - by eapply traced_respond.
Qed.
End answers.

(** Transports [0], [1], .. with the given addresses. *)
Definition fresh_world (addrs : list string) : world :=
  mkWorld (map_seq 0 ((λ a, (NewInmemTransport "" a).2) <$> addrs)) ∅ [].
Lemma fresh_quiet addrs : w_calls (fresh_world addrs) = ∅ ∧ w_taken (fresh_world addrs) = [] ∧
  ∀ i t, w_trans (fresh_world addrs) !! i = Some t → it_consumerCh t = [].
Proof.
  split; [done|]. split; [done|]. intros i t. simpl. rewrite lookup_map_seq_0, list_lookup_fmap.
  destruct (addrs !! i); simpl; [by intros [= <-]|done].
Qed.

(** C38: in any interleaving of the nodes on in-memory transports, none of them
    in use at the start (calls, timers,
    nodes that take requests and answer them, connections that change), a
    call that succeeds returns the answer that was given to its own request,
    by the node of the transport to which its target was connected when it
    called; and no channel of requests exceeds its capacity of 16. *)
Theorem inmem_answers addrs l w : acts l (fresh_world addrs) = Some w →
  (∀ c resp, w_calls w !! c = Some (Returned (Ok resp)) →
     ∃ j rpc, rpc_RespChan rpc = c ∧ sent (fresh_world addrs) l j rpc ∧
       responded (fresh_world addrs) l j rpc (mkRPCResponse resp None)) ∧
  ∀ j t, w_trans w !! j = Some t → (length (it_consumerCh t) ≤ 16)%nat.
Proof.
  intros Hl. destruct (acts_traced _ (fresh_quiet addrs) l w Hl) as [_ Hb _ Ha].
  split; [exact Ha|exact Hb].
Qed.

(** Node 0 calls node 1 twice; the first call times out before it is answered. *)
Definition two_calls : list action :=
  [AConnect 0 "b" 1; ASend 0 7 "b" COther; ATake 1; ATimeout 7;
   ASend 0 8 "b" COther; ATake 1; ARespond 1 (mkRPCResponse RNil None)].
Lemma inmem_answers_witness : ∃ w, acts two_calls (fresh_world ["a"; "b"]) = Some w ∧
  w_calls w !! 8%nat = Some (Returned (Ok RNil)) ∧
  ∃ j rpc, rpc_RespChan rpc = 8%nat ∧ sent (fresh_world ["a"; "b"]) two_calls j rpc.
Proof.
  destruct (acts two_calls (fresh_world ["a"; "b"])) as [w|] eqn:Hw; [|by vm_compute in Hw].
  assert (w_calls w !! 8%nat = Some (Returned (Ok RNil))) as Hc
    by (vm_compute in Hw; injection Hw as <-; reflexivity).
  exists w. split; [done|]. split; [exact Hc|].
  destruct (inmem_answers ["a"; "b"] two_calls w Hw) as [Ha _].
  destruct (Ha _ _ Hc) as (j & rpc & ? & ? & _). by exists j, rpc.
Defined.

(** A request whose call has returned stays where it is: the goroutine that
    answers it waits for ever. *)
Lemma stuck_step a w w' j rpc r : (j, rpc) ∈ w_taken w →
  w_calls w !! rpc_RespChan rpc = Some (Returned r) → act a w = Some w' →
  (j, rpc) ∈ w_taken w' ∧ w_calls w' !! rpc_RespChan rpc = Some (Returned r).
Proof.
  intros Hin Hc Ha. destruct a; simpl in Ha;
    unfold Connect, Disconnect, InmemTransport_Close, DisconnectAll, makeRPC_send, makeRPC_timeout,
      Consumer_take, Respond in Ha.
  1-3: destruct (w_trans w !! i); simplify_option_eq; done.
  - destruct (w_calls w !! c) eqn:Hcc; [done|].
    assert (c ≠ rpc_RespChan rpc) by congruence.
    destruct (w_trans w !! i) as [t|]; simplify_option_eq.
    destruct (it_peers t !! target) as [p|]; simplify_option_eq;
      [destruct (_ <? _)%nat; simplify_eq|]; (split; [done|]); simpl; by rewrite lookup_insert_ne.
  - destruct (w_calls w !! c) as [[|]|] eqn:Hcc; simplify_eq.
    split; [done|]. simpl. rewrite lookup_insert_ne; [done|congruence].
  - destruct (w_trans w !! j0) as [t|]; simplify_option_eq. destruct (it_consumerCh t); simplify_eq.
    simpl. split; [|done]. apply elem_of_app. by left.
  - destruct (w_taken w !! k) as [[j' rpc']|] eqn:Hk; simplify_option_eq.
    destruct (w_calls w !! rpc_RespChan rpc') as [[|]|] eqn:Hcc; simplify_eq. simpl.
    assert (rpc_RespChan rpc' ≠ rpc_RespChan rpc) by congruence.
    split; [|by rewrite lookup_insert_ne].
    rewrite <-(take_drop_middle _ _ _ Hk), elem_of_app, elem_of_cons in Hin. rewrite elem_of_app.
    naive_solver.
Qed.

(** A request that was taken, and whose call timed out, is never answered,
    whatever happens afterwards: [Respond] writes to a channel without a
    buffer that nobody reads any more. *)
Theorem late_answer_blocks l w w' j rpc r : (j, rpc) ∈ w_taken w →
  w_calls w !! rpc_RespChan rpc = Some (Returned r) → acts l w = Some w' → (j, rpc) ∈ w_taken w'.
Proof.
  revert w. induction l as [|a l IH]; simpl; intros w Hin Hc Hl; [by simplify_eq|].
  destruct (act a w) as [w1|] eqn:Ha; simpl in Hl; [|done].
  destruct (stuck_step a w w1 j rpc r Hin Hc Ha). by apply (IH w1).
Qed.
