(* ===== verification/Service.v ===== *)
(** * The HTTP service (src/src/service/service.go, src/src/node/graph.go)

    The handlers of the API: they read the node, and answer a value that is
    rendered as JSON, or an error. A request is the path and the parameter
    [count] of its query; that the multiplexer calls a handler only with paths
    that start with the handler's pattern is what [route] says. The getters
    of the node that only the service calls are here too ([Node_GetStats]).

    The service's mutex makes a request one step, but for the node, which is
    read without its lock. *)
From S2P Require Export Node.

(** ** strconv.Atoi, on 64 bits *)
Inductive NumError := ErrSyntax (s : string) | ErrRange (s : string).
Definition digit (c : ascii) : option Z :=
  let n := Z.of_N (Ascii.N_of_ascii c) in
  if (48 <=? n) && (n <=? 57) then Some (n - 48) else None.
(** [strconv.ParseUint]: the first character that is not a digit, or the first
    digit that makes the number too large, ends it. *)
Fixpoint ParseUint_go (s0 s : string) (n : Z) : NumError + Z :=
  match s with
  | EmptyString => inr n
  | String c s =>
      match digit c with
      | None => inl (ErrSyntax s0)
      | Some d => if 2 ^ 64 <=? n * 10 + d then inl (ErrRange s0) else ParseUint_go s0 s (n * 10 + d)
      end
  end.
Definition Atoi (s : string) : NumError + Z :=
  let '(neg, u) := match s with
                   | String "-" u => (true, u)
                   | String "+" u => (false, u)
                   | _ => (false, s)
                   end in
  match u with
  | EmptyString => inl (ErrSyntax s)
  | _ =>
      match ParseUint_go s u 0 with
      | inl err => inl err
      | inr n =>
          if neg then (if 2 ^ 63 <? n then inl (ErrRange s) else inr (- n))
          else (if 2 ^ 63 <=? n then inl (ErrRange s) else inr n)
      end
  end.

(** ** Requests and answers *)
Record Infos := mkInfos {
  inf_ParticipantEvents : gmap string (gmap string Event);
  inf_Rounds : slice RoundInfo;
  inf_Blocks : slice Block;
}.
Inductive payload :=
| PStats (m : gmap string string)
| PBlock (b : Block)
| PBlocks (l : slice Block)
| PInfos (i : Infos)
| PPeers (l : list Peer)
| PHistory (m : gmap Z (list Peer)).
(** [http.Error(w, err.Error(), http.StatusInternalServerError)] *)
Inductive http_error := HError (err : error) | HNumError (err : NumError) | HText (s : string).
Inductive http_body := JSON (p : payload) | InternalServerError (e : http_error).
Record http_response := mkHTTP { allow_origin : option string; body : http_body }.
Record http_request := mkRequest { url_Path : string; query_count : string }.

Definition MAXBLOCKS : Z := 50.
Definition State_String (s : NodeState) : string :=
  match s with
  | Babbling => "Babbling" | CatchingUp => "CatchingUp" | Joining => "Joining"
  | Leaving => "Leaving" | Shutdown => "Shutdown" | Suspended => "Suspended"
  end.

Section service.
Context {KP : Keys} {CP : Codec} {RO : RangeOrder} {St : Type} {STO : Store St}.
Context {P : Type}.
Abbreviation N := (GoM error (node St P)).
Abbreviation Core := (GoM error (Hashgraph St * (coreState * P))).

(** ** GetStats (node.go) *)
Definition GetID : N Z := onCore (getsC (λ c, Validator_ID (validator c))).
Definition GetPubKey : N string := onCore (getsC (λ c, Validator_PublicKeyHex (validator c))).
Definition Node_GetStats : N (gmap string string) :=
  lcr <- GetLastConsensusRoundIndex ;;
  lbi <- Node_GetLastBlockIndex ;;
  ce <- onCore getConsensusEventsCount ;;
  ue <- onCore getUndeterminedEvents ;;
  txs <- onCore getConsensusTransactionsCount ;;
  pool <- onCore (getsC transactionPool) ;;
  peers <- onCore (getsC (λ c, rps_peers (peerSelector c))) ;;
  lpc <- onCore (getsC lastPeerChangeRound) ;;
  id <- GetID ;;
  st <- gets nstate ;;
  moniker <- onCore (getsC (λ c, val_Moniker (validator c))) ;;
  ret (list_to_map [
    ("last_consensus_round", pretty lcr);
    ("last_block_index", pretty lbi);
    ("consensus_events", pretty ce);
    ("undetermined_events", pretty (zlen ue));
    ("transactions", pretty txs);
    ("transaction_pool", pretty (zlen pool));
    ("num_peers", pretty (PS_Len peers));
    ("last_peer_change", pretty lpc);
    ("id", pretty id);
    ("state", State_String st);
    ("moniker", moniker)]).

(** ** The graph for display (graph.go) *)
Abbreviation onS m := (onCore (onH m)).
Definition participant_events (evs : list string) : N (gmap string Event) :=
  foldM (λ m e, event <- onS (onStore (GetEvent e)) ;; ret (<[Hex event := event]> m)) ∅ evs.
Definition GetParticipantEvents : N (gmap string (gmap string Event)) :=
  repertoire <- onS (readStore RepertoireByPubKey) ;;
  foldM (λ res '(_, p),
      root <- onS (readStoreR (λ s, GetRoot s (PubKeyString p))) ;;
      let start := match last (root_Events root) with
                   | Some fe => Index (fe_Core fe)
                   | None => -1
                   end in
      evs <- onS (readStoreR (λ s, ParticipantEvents s (PubKeyString p) start)) ;;
      m <- participant_events evs ;;
      ret (<[PubKeyString p := m]> res)) ∅ (range repertoire).
(** The loops stop at the first number that the store does not have. *)
Definition collect {A} (f : Z → N A) (last : Z) : N (list A) :=
  foldM_ctl (λ res i,
      r <- try (f i) ;;
      match r with
      | inl a => ret (Continue (res ++ [a]))
      | inr _ => ret (Break res)
      end) [] (zrange 0 last).
Definition Graph_GetRounds : N (list RoundInfo) :=
  last <- onS (readStore LastRound) ;; collect (λ i, onS (onStore (GetRoundInfo i))) last.
Definition Graph_GetBlocks : N (list Block) :=
  last <- onS (readStore LastBlockIndex) ;; collect (λ i, onS (onStore (GetBlock i))) last.
Definition GetInfos : N Infos :=
  participantEvents <- GetParticipantEvents ;;
  rounds <- Graph_GetRounds ;;
  blocks <- Graph_GetBlocks ;;
  ret (mkInfos participantEvents (Some rounds) (Some blocks)).

(** ** Handlers (service.go) *)
Abbreviation handler := (http_request → N http_body).
(** [r.URL.Path[len(prefix):]] *)
Definition param (prefix : string) (r : http_request) : N string :=
  if (String.length (url_Path r) <? String.length prefix)%nat then lift Panic
  else ret (String.substring (String.length prefix) (String.length (url_Path r) - String.length prefix)
              (url_Path r)).
Definition Service_GetStats : handler := λ _, stats <- Node_GetStats ;; ret (JSON (PStats stats)).
Definition Service_GetBlock : handler := λ r,
  p <- param "/block/" r ;;
  match Atoi p with
  | inl err => ret (InternalServerError (HNumError err))
  | inr blockIndex =>
      block <- try (Node_GetBlock blockIndex) ;;
      ret (match block with
           | inl block => JSON (PBlock block)
           | inr err => InternalServerError (HError err)
           end)
  end.
(** How many blocks are fetched, from what the request asks for. *)
Definition blocks_count (requestStart lastBlockIndex count : Z) : Z :=
  let count := if MAXBLOCKS <? count then MAXBLOCKS else count in
  if lastBlockIndex <? wrap64 (wrap64 (requestStart + count) - 1)
  then wrap64 (wrap64 (lastBlockIndex - requestStart) + 1) else count.
(** The blocks, of which there are none when [count] is negative: the slice is
    then nil. *)
Definition fetch_blocks (requestStart count : Z) : N (slice Block) :=
  foldM (λ blocks c, block <- Node_GetBlock (wrap64 (requestStart + c)) ;;
      ret (Some (elems blocks ++ [block]))) None (zrange 0 (count - 1)).
Definition Service_GetBlocks : handler := λ r,
  qs <- param "/blocks/" r ;;
  match Atoi qs with
  | inl err => ret (InternalServerError (HNumError err))
  | inr requestStart =>
      lastBlockIndex <- Node_GetLastBlockIndex ;;
      if lastBlockIndex <? requestStart then
        ret (InternalServerError (HText "Requested starting index larger than last block index"))
      else
        match (if bool_decide (query_count r = "") then inr 1
               else match Atoi (query_count r) with
                    | inl err => inl err
                    | inr count => inr (blocks_count requestStart lastBlockIndex count)
                    end) with
        | inl err => ret (InternalServerError (HNumError err))
        | inr count =>
            blocks <- try (fetch_blocks requestStart count) ;;
            ret (match blocks with
                 | inl blocks => JSON (PBlocks blocks)
                 | inr err => InternalServerError (HError err)
                 end)
        end
  end.
(** An error of [GetInfos] is dropped, and the empty value is rendered. *)
Definition Service_GetGraph : handler := λ _,
  res <- try GetInfos ;;
  ret (JSON (PInfos (match res with inl i => i | inr _ => mkInfos ∅ None None end))).
Definition returnPeerSet (peers : list Peer) : http_body := JSON (PPeers peers).
Definition Service_GetPeers : handler := λ _, ps <- Node_GetPeers ;; ret (returnPeerSet ps).
Definition return_validators (round : Z) : N http_body :=
  ps <- try (GetValidatorSet round) ;;
  ret (match ps with
       | inl ps => returnPeerSet ps
       | inr err => InternalServerError (HError err)
       end).
Definition Service_GetGenesisPeers : handler := λ _, return_validators 0.
Definition Service_GetValidatorSet : handler := λ r,
  round <- GetLastConsensusRoundIndex ;;
  p <- param "/validators/" r ;;
  if bool_decide (p = "") then return_validators round
  else match Atoi p with
       | inl err => ret (InternalServerError (HNumError err))
       | inr round => return_validators round
       end.
Definition Service_GetAllValidatorSets : handler := λ _,
  all <- try GetAllValidatorSets ;;
  ret (match all with
       | inl m => JSON (PHistory m)
       | inr err => InternalServerError (HError err)
       end).

Definition makeHandler (fn : handler) (r : http_request) : N http_response :=
  b <- fn r ;; ret (mkHTTP (Some "*") b).
Definition registerHandlers : list (string * handler) := [
  ("/stats", Service_GetStats);
  ("/block/", Service_GetBlock);
  ("/blocks/", Service_GetBlocks);
  ("/graph", Service_GetGraph);
  ("/peers", Service_GetPeers);
  ("/genesispeers", Service_GetGenesisPeers);
  ("/validators/", Service_GetValidatorSet);
  ("/history", Service_GetAllValidatorSets)].
(** [http.ServeMux]: a pattern that ends with a slash stands for the paths
    below it, another one for itself. No pattern here is below another. *)
Definition matches (pattern path : string) : bool :=
  if String.get (String.length pattern - 1) pattern is Some "/"%char
  then String.prefix pattern path else bool_decide (pattern = path).
Definition route (path : string) : option handler :=
  list_find (λ ph, Is_true (matches ph.1 path)) registerHandlers ≫= λ x, Some x.2.2.
Definition serve (r : http_request) : N (option http_response) :=
  match route (url_Path r) with
  | Some fn => resp <- makeHandler fn r ;; ret (Some resp)
  | None => ret None
  end.
End service.
