(* ===== verification/Engine.v ===== *)
(** * The engine: files, configuration and start

    Models src/src/crypto/keys/key_reader_writer.go (the file of the private
    key), src/src/peers/json_peer_set.go (the files of peers), the parts of
    src/src/config/config.go that the start depends on, and
    src/src/babble/babble.go, which puts a node together from them.

    The file system is a map from paths to contents, the databases a map from
    paths to databases; what the operating system answers to a write, a
    rename or an opening is an argument. The service over
    HTTP is in Service.v, and its start is left out here. *)
From S2P Require Export Badger App.

(** ** Files *)
Record disk (DB : Type) := mkDisk {
  dk_files : gmap string bytes;
  dk_dbs : gmap string DB;
}.
Arguments mkDisk {DB}.
Arguments dk_files {DB}.
Arguments dk_dbs {DB}.

Section files.
Context {DB : Type}.
Definition ReadFile (path : string) : M (disk DB) bytes :=
  fs <- gets dk_files ;;
  match fs !! path with
  | Some data => ret data
  | None => throw (EMsg ("open " +:+ path +:+ ": no such file or directory"))
  end.
Definition WriteFile (answer : unit + error) (path : string) (data : bytes) : M (disk DB) unit :=
  match answer with
  | inr err => throw err
  | inl _ => modify (λ d, mkDisk (<[path := data]> (dk_files d)) (dk_dbs d))
  end.
End files.

(** [filepath.Join] of a clean directory and a file name. *)
Definition Join (dir file : string) : string := if decide (dir = "") then file else dir +:+ "/" +:+ file.

(** [strings.TrimSpace]: the white space of Unicode, in UTF-8. *)
Fixpoint trim_left (s : bytes) : bytes :=
  match s with
  | (x09 | x0a | x0b | x0c | x0d | x20) :: r => trim_left r
  | xc2 :: (x85 | xa0) :: r => trim_left r
  | xe1 :: x9a :: x80 :: r => trim_left r
  | xe2 :: x80 :: (x80 | x81 | x82 | x83 | x84 | x85 | x86 | x87 | x88 | x89 | x8a
                  | xa8 | xa9 | xaf) :: r => trim_left r
  | xe2 :: x81 :: x9f :: r => trim_left r
  | xe3 :: x80 :: x80 :: r => trim_left r
  | _ => s
  end.
(** The same from the end, on the reversed text. *)
Fixpoint trim_right_rev (s : bytes) : bytes :=
  match s with
  | (x09 | x0a | x0b | x0c | x0d | x20) :: r => trim_right_rev r
  | (x85 | xa0) :: xc2 :: r => trim_right_rev r
  | x80 :: x9a :: xe1 :: r => trim_right_rev r
  | (x80 | x81 | x82 | x83 | x84 | x85 | x86 | x87 | x88 | x89 | x8a | xa8 | xa9 | xaf)
      :: x80 :: xe2 :: r => trim_right_rev r
  | x9f :: x81 :: xe2 :: r => trim_right_rev r
  | x80 :: x80 :: xe3 :: r => trim_right_rev r
  | _ => s
  end.
Definition TrimSpace (s : bytes) : bytes := reverse (trim_right_rev (reverse (trim_left s))).

(** ** The key file (key_reader_writer.go) *)
(** [hex.EncodeToString]: lower case. *)
Definition lower_digit (n : N) : ascii :=
  default "0"%char (String.get (N.to_nat n) "0123456789abcdef").
Fixpoint hex_EncodeToString (bs : bytes) : string :=
  match bs with
  | [] => ""
  | b :: bs => String (lower_digit (Byte.to_N b / 16))
                 (String (lower_digit (Byte.to_N b mod 16)) (hex_EncodeToString bs))
  end.

Definition hex_byte (b : byte) : bool :=
  match fromHexChar (Ascii.ascii_of_byte b) with Some _ => true | None => false end.

Lemma lower_hex_byte b :
  fromHexChar (lower_digit (Byte.to_N b / 16)) = Some (Byte.to_N b / 16)%N ∧
  fromHexChar (lower_digit (Byte.to_N b mod 16)) = Some (Byte.to_N b mod 16)%N ∧
  Byte.of_N (16 * (Byte.to_N b / 16) + Byte.to_N b mod 16) = Some b.
Proof. by destruct b. Qed.
Lemma lower_hex_decode bs : hex_DecodeString (hex_EncodeToString bs) = (bs, None).
Proof.
  induction bs as [|b bs IH]; [done|]. cbn [hex_EncodeToString hex_DecodeString].
  destruct (lower_hex_byte b) as (-> & -> & Hb). rewrite IH.
  replace (16 * (Byte.to_N b / 16))%N with (Byte.to_N b / 16 * 16)%N in Hb by lia. by rewrite Hb.
Qed.
Lemma lower_hex_text bs : Forall hex_byte (String.list_byte_of_string (hex_EncodeToString bs)).
Proof. induction bs as [|b bs IH]; [constructor|]. by destruct b; do 2 (constructor; [done|]). Qed.

Section keyfile.
Context {KP : Keys} {DB : Type}.
Definition ReadKey (keyfile : string) : M (disk DB) (Z * (Z * Z)) :=
  buf <- ReadFile keyfile ;;
  let '(key, err) := hex_DecodeString (String.string_of_list_byte (TrimSpace buf)) in
  match err with
  | Some err => throw err
  | None => lift (ParsePrivateKey key)
  end.

(** [os.MkdirAll] and the write answer [made] and [wrote]. *)
Definition WriteKey (made wrote : unit + error) (keyfile : string) (key : Z) : M (disk DB) unit :=
  let rawKey := hex_EncodeToString (DumpPrivateKey (Some key)) in
  match made with
  | inr err => throw err
  | inl _ => WriteFile wrote keyfile (String.list_byte_of_string rawKey)
  end.
End keyfile.

(** ** The files of peers (json_peer_set.go) *)
Definition jsonPeerSetPath : string := "peers.json".
Definition jsonGenesisPeerSetPath : string := "peers.genesis.json".
Definition NewJSONPeerSet (base : string) (isCurrent : bool) : string :=
  Join base (if isCurrent then jsonPeerSetPath else jsonGenesisPeerSetPath).

Section json_peer_set.
Context {DC : DBCodec} {DB : Type}.
(** An empty file is a nil peer-set, without an error. *)
Definition JSONPeerSet_PeerSet (path : string) : M (disk DB) (option PeerSet) :=
  buf <- ReadFile path ;;
  if zlen buf =? 0 then ret None
  else
    peers <- lift (unjson_Peers buf) ;;
    ps <- lift (NewPeerSet (cleansePeerSet peers)) ;;
    ret (Some ps).

Definition JSONPeerSet_Write (wrote : unit + error) (path : string) (peers : list Peer) :
    M (disk DB) unit :=
  buf <- lift (json_Peers peers) ;;
  WriteFile wrote path buf.
End json_peer_set.

(** ** The configuration (config.go) *)
Record EngineConfig := mkEngineConfig {
  eg_node : Config;
  eg_DataDir : string;
  eg_DatabaseDir : string;
  eg_Store : bool;
  eg_CacheSize : Z;
  eg_Moniker : string;
  eg_Key : option (Z * (Z * Z));
}.
Definition DefaultBadgerFile : string := "badger_db".
Definition DefaultKeyfile : string := "priv_key".
Definition Keyfile (c : EngineConfig) : string := Join (eg_DataDir c) DefaultKeyfile.

Definition set_eg_node n c :=
  mkEngineConfig n (eg_DataDir c) (eg_DatabaseDir c) (eg_Store c) (eg_CacheSize c)
    (eg_Moniker c) (eg_Key c).
Definition set_eg_Store x c :=
  mkEngineConfig (eg_node c) (eg_DataDir c) (eg_DatabaseDir c) x (eg_CacheSize c)
    (eg_Moniker c) (eg_Key c).
Definition set_eg_Key x c :=
  mkEngineConfig (eg_node c) (eg_DataDir c) (eg_DatabaseDir c) (eg_Store c) (eg_CacheSize c)
    (eg_Moniker c) x.
Definition set_Bootstrap x (n : Config) :=
  mkConfig x (conf_MaintenanceMode n) (conf_EnableFastSync n) (conf_SyncLimit n)
    (conf_SuspendLimit n) (conf_HeartbeatTimeout n) (conf_SlowHeartbeatTimeout n).
Definition set_SlowHeartbeatTimeout x (n : Config) :=
  mkConfig (conf_Bootstrap n) (conf_MaintenanceMode n) (conf_EnableFastSync n) (conf_SyncLimit n)
    (conf_SuspendLimit n) (conf_HeartbeatTimeout n) x.

(** The default directories depend on the user and the operating system. *)
Definition SetDataDir (defaultDataDir : string) (dataDir : string) (c : EngineConfig) : EngineConfig :=
  mkEngineConfig (eg_node c) dataDir
    (if decide (eg_DatabaseDir c = Join defaultDataDir DefaultBadgerFile)
     then Join dataDir DefaultBadgerFile else eg_DatabaseDir c)
    (eg_Store c) (eg_CacheSize c) (eg_Moniker c) (eg_Key c).

(** ** The engine (babble.go) *)

(** Maintenance mode forces bootstrap, which forces the persistent store. *)
Definition validateConfig (defaultDataDir : string) (c : EngineConfig) : EngineConfig :=
  let c := SetDataDir defaultDataDir (eg_DataDir c) c in
  let c := if conf_MaintenanceMode (eg_node c)
           then set_eg_node (set_Bootstrap true (eg_node c)) c else c in
  let c := if conf_Bootstrap (eg_node c) then set_eg_Store true c else c in
  if conf_SlowHeartbeatTimeout (eg_node c) <? conf_HeartbeatTimeout (eg_node c)
  then set_eg_node (set_SlowHeartbeatTimeout (conf_HeartbeatTimeout (eg_node c)) (eg_node c)) c
  else c.

Section engine.
Context {KP : Keys} {CP : Codec} {RO : RangeOrder} {DC : DBCodec}.
Context {DB : Type} {KVD : KV DB} {P : Type} {APP : AppProxy P}.
Context (db_fuel fuel batches : nat).
Abbreviation D := (M (disk DB)).

(** What the operating system answers: the time-stamped name of a backup, the
    rename, and the opening of the database found at a path, or of a new one:
    the handle, or an error, and what is at the path afterwards. [badger.Open]
    creates a database that is missing, and may truncate a damaged one. *)
Record platform := mkPlatform {
  pf_DataDir : string;
  pf_backup : string → string;
  pf_rename : unit + error;
  pf_open : option DB → res DB * option DB;
  pf_transport : unit + error;
}.
Implicit Types (pf : platform) (c : EngineConfig).

(** An error is logged, and the key is then nil. *)
Definition initKey c : D EngineConfig :=
  match eg_Key c with
  | Some _ => ret c
  | None =>
      key <- try (ReadKey (Keyfile c)) ;;
      ret (set_eg_Key (match key with inl k => Some k | inr _ => None end) c)
  end.

(** The current and the genesis peers; without a genesis file, or with one
    that cannot be read, the current peers are the genesis peers. *)
Definition initPeers c : D (option PeerSet * option PeerSet) :=
  participants <- JSONPeerSet_PeerSet (NewJSONPeerSet (eg_DataDir c) true) ;;
  genesis <- try (JSONPeerSet_PeerSet (NewJSONPeerSet (eg_DataDir c) false)) ;;
  ret (participants, match genesis with inl g => g | inr _ => participants end).

(** [os.Rename] of the database to its backup; there may be none. *)
Definition backup_database pf (dbPath : string) : D unit :=
  dbs <- gets dk_dbs ;;
  match dbs !! dbPath with
  | None => ret tt
  | Some d =>
      match pf_rename pf with
      | inr err => throw err
      | inl _ => modify (λ k, mkDisk (dk_files k)
                               (<[pf_backup pf dbPath := d]> (delete dbPath (dk_dbs k))))
      end
  end.

Definition initStore pf c : D (InmemStore + BadgerStore DB) :=
  if negb (eg_Store c) then ret (inl (NewInmemStore (eg_CacheSize c)))
  else
    let dbPath := eg_DatabaseDir c in
    (if negb (conf_Bootstrap (eg_node c)) then backup_database pf dbPath else ret tt) ;;;
    dbs <- gets dk_dbs ;;
    let '(handle, kept) := pf_open pf (dbs !! dbPath) in
    modify (λ k, mkDisk (dk_files k) (partial_alter (λ _, kept) dbPath (dk_dbs k))) ;;;
    dbStore <- lift (NewBadgerStore (eg_CacheSize c) dbPath (conf_MaintenanceMode (eg_node c)) handle) ;;
    ret (inr dbStore).

(** In maintenance mode there is no transport. *)
Definition initTransport pf c : D unit :=
  if conf_MaintenanceMode (eg_node c) then ret tt
  else match pf_transport pf with inl _ => ret tt | inr err => throw err end.

(** The node runs on either store; it has no database to bootstrap from on
    the first. *)
Definition engine_node : Type := node InmemStore P + node (BadgerStore DB) P.

Definition start {St} {STO : Store St} (bootstrap : GoM error (Hashgraph St * (coreState * P)) unit)
    c (v : Validator) (ps genesis : PeerSet) (store : St) (app : P) : res (node St P) :=
  n <-- NewNode (eg_node c) v ps genesis store app ;;
  match Node_Init bootstrap n with
  | (Ok _, n) => Ok n
  | (Err err, _) => Err err
  | (Panic, _) => Panic
  | (OutOfFuel, _) => OutOfFuel
  end.

(** The moniker of the file of peers wins. A nil key or peer-set panics. *)
Definition initNode c (participants genesisPeers : option PeerSet)
    (store : InmemStore + BadgerStore DB) (app : P) : res engine_node :=
  match eg_Key c, participants, genesisPeers with
  | Some key, Some ps, Some genesis =>
      let v := NewValidator key (eg_Moniker c) in
      let v := match ByID ps !! Validator_ID v with
               | Some p => NewValidator key (Moniker p)
               | None => v
               end in
      match store with
      | inl s =>
          n <-- start (ret tt) c v ps genesis s app ;; Ok (inl n)
      | inr s =>
          n <-- start (STO := BadgerStore_Store db_fuel)
                  (Bootstrap db_fuel fuel (commit (STO := BadgerStore_Store db_fuel) CommitBlock) batches)
                  c v ps genesis s app ;;
          Ok (inr n)
      end
  | _, _, _ => Panic
  end.

Definition Engine_Init pf c (app : P) : D engine_node :=
  let c := validateConfig (pf_DataDir pf) c in
  c <- initKey c ;;
  peers <- initPeers c ;;
  store <- initStore pf c ;;
  initTransport pf c ;;;
  lift (initNode c peers.1 peers.2 store app).
End engine.
