(* ===== verification/Settings.v ===== *)
(** * Settings and commands

    Models the rest of src/src/config/config.go (the default settings and
    directories, the level of the log, the ICE servers), the commands of
    src/cmd/babble/commands that do something of their own (the flags of
    [run], [keygen]) and the keys that src/src/mobile/utils.go hands out.

    What the operating system says of the user is [Environment]; a key drawn at
    random is an argument. Paths are clean. *)
From S2P Require Export Engine.

(** ** Directories *)
Record Environment := mkEnvironment {
  env_HOME : string;          (* os.Getenv *)
  env_user : res string;      (* the home directory of user.Current *)
  env_GOOS : string;
}.

Definition HomeDir (env : Environment) : string :=
  if negb (bool_decide (env_HOME env = "")) then env_HOME env
  else match env_user env with Ok home => home | _ => "" end.
Definition DefaultDataDir (env : Environment) : string :=
  let home := HomeDir env in
  if negb (bool_decide (home = "")) then
    if bool_decide (env_GOOS env = "darwin") then Join home ".Babble"
    else if bool_decide (env_GOOS env = "windows") then home +:+ "\AppData\Roaming\Babble"
    else Join home ".babble"
  else "".
Definition DefaultDatabaseDir (env : Environment) : string :=
  Join (DefaultDataDir env) DefaultBadgerFile.

(** ** The settings that Engine.v leaves out *)
Definition Millisecond : Z := 1000000.
Record Settings := mkSettings {
  st_engine : EngineConfig;
  st_LogLevel : string;
  st_BindAddr : string;
  st_AdvertiseAddr : string;
  st_NoService : bool;
  st_ServiceAddr : string;
  st_MaxPool : Z;
  st_TCPTimeout : Z;
  st_JoinTimeout : Z;
  st_WebRTC : bool;
  st_SignalAddr : string;
  st_SignalRealm : string;
  st_SignalSkipVerify : bool;
  st_ICEAddress : string;
  st_ICEUsername : string;
  st_ICEPassword : string;
}.

Definition NewDefaultConfig (env : Environment) : Settings := {|
  st_engine := {|
    eg_node := {|
      conf_Bootstrap := false;
      conf_MaintenanceMode := false;
      conf_EnableFastSync := false;
      conf_SyncLimit := 1000;
      conf_SuspendLimit := 100;
      conf_HeartbeatTimeout := 10 * Millisecond;
      conf_SlowHeartbeatTimeout := 1000 * Millisecond;
    |};
    eg_DataDir := DefaultDataDir env;
    eg_DatabaseDir := DefaultDatabaseDir env;
    eg_Store := false;
    eg_CacheSize := 10000;
    eg_Moniker := "";
    eg_Key := None;
  |};
  st_LogLevel := "debug";
  st_BindAddr := "127.0.0.1:1337";
  st_AdvertiseAddr := "";
  st_NoService := false;
  st_ServiceAddr := "127.0.0.1:8000";
  st_MaxPool := 2;
  st_TCPTimeout := 1000 * Millisecond;
  st_JoinTimeout := 10000 * Millisecond;
  st_WebRTC := false;
  st_SignalAddr := "127.0.0.1:2443";
  st_SignalRealm := "main";
  st_SignalSkipVerify := false;
  st_ICEAddress := "stun:stun.l.google.com:19302";
  st_ICEUsername := "";
  st_ICEPassword := "";
|}.

Definition DefaultCertFile : string := "cert.pem".
Definition CertFile (c : EngineConfig) : string := Join (eg_DataDir c) DefaultCertFile.

Inductive Level := PanicLevel | FatalLevel | ErrorLevel | WarnLevel | InfoLevel | DebugLevel.
#[export] Instance Level_eq_dec : EqDecision Level.
Proof. solve_decision. Defined.
Definition LogLevel (l : string) : Level :=
  if bool_decide (l = "debug") then DebugLevel
  else if bool_decide (l = "info") then InfoLevel
  else if bool_decide (l = "warn") then WarnLevel
  else if bool_decide (l = "error") then ErrorLevel
  else if bool_decide (l = "fatal") then FatalLevel
  else if bool_decide (l = "panic") then PanicLevel
  else DebugLevel.

(** The credential type is always the password. *)
Record ICEServer := mkICEServer {
  ice_URLs : list string;
  ice_Username : string;
  ice_Credential : string;
}.
Definition ICEServers (s : Settings) : list ICEServer :=
  [mkICEServer [st_ICEAddress s] (st_ICEUsername s) (st_ICEPassword s)].

(** ** The command line *)

(** The names under which the structure [Config] is read (its mapstructure
    tags), with those of [CLIConfig], and the flags that [AddRunFlags] adds. *)
Definition mapstructure_tags : list string :=
  ["datadir"; "log"; "listen"; "advertise"; "no-service"; "service-listen"; "heartbeat";
   "slow-heartbeat"; "max-pool"; "timeout"; "join_timeout"; "sync-limit"; "fast-sync"; "store";
   "db"; "cache-size"; "bootstrap"; "maintenance-mode"; "suspend-limit"; "moniker"; "webrtc";
   "signal-addr"; "signal-realm"; "signal-skip-verify"; "ice-addr"; "ice-username";
   "ice-password"].
Definition cli_tags : list string := ["proxy-listen"; "client-connect"].
Definition AddRunFlags : list string :=
  ["datadir"; "log"; "moniker"; "maintenance-mode";
   "listen"; "advertise"; "timeout"; "join-timeout"; "max-pool";
   "webrtc"; "signal-addr"; "signal-skip-verify"; "ice-addr"; "ice-username"; "ice-password";
   "proxy-listen"; "client-connect";
   "no-service"; "service-listen";
   "store"; "db"; "bootstrap"; "cache-size";
   "heartbeat"; "slow-heartbeat"; "sync-limit"; "fast-sync"; "suspend-limit"].

(** The flags whose value no setting takes. *)
Definition lost_flags : list string :=
  filter (λ f, f ∉ mapstructure_tags ++ cli_tags) AddRunFlags.

(** [path.Dir] of a clean path: what comes before the last slash. *)
Fixpoint before_slash (rev : list ascii) : option (list ascii) :=
  match rev with
  | [] => None
  | "/"%char :: r => Some (reverse r)
  | _ :: r => before_slash r
  end.
Definition path_Dir (path : string) : string :=
  match before_slash (reverse (String.list_ascii_of_string path)) with
  | None => "."
  | Some [] => "/"
  | Some dir => String.string_of_list_ascii dir
  end.

Section keygen.
Context {KP : Keys} {DB : Type}.

(** The default files are made by [fmt.Sprintf], not by [filepath.Join]. *)
Definition defaultPrivateKeyFile (s : Settings) : string := eg_DataDir (st_engine s) +:+ "/priv_key".
Definition defaultPublicKeyFile (s : Settings) : string := eg_DataDir (st_engine s) +:+ "/key.pub".

(** [answers]: what the operating system answers to the calls that make a
    directory or write a file, in their order. [key] is the key drawn. *)
Definition keygen (answers : nat → unit + error) (key : res (Z * (Z * Z)))
    (privKeyFile pubKeyFile : string) : M (disk DB) unit :=
  fs <- gets dk_files ;;
  if bool_decide (is_Some (fs !! privKeyFile))
  then throw (EMsg ("A key already lives under: " +:+ path_Dir privKeyFile))
  else
    match key with
    | Ok (D, pub) =>
        wrap "Writing private key"
          (match answers 0%nat with inl _ => ret tt | inr err => throw err end) ;;;
        wrap "Writing private key" (WriteKey (answers 1%nat) (answers 2%nat) privKeyFile D) ;;;
        wrap "Writing public key"
          (match answers 3%nat with inl _ => ret tt | inr err => throw err end) ;;;
        wrap "Writing public key"
          (WriteFile (answers 4%nat) pubKeyFile (String.list_byte_of_string (PublicKeyHex (Some pub))))
    | _ => throw (EMsg "Error generating ECDSA key")
    end.
End keygen.

(** [mobile.GetPrivPublKeys] and its parts: a new key as text. *)
Section mobile_keys.
Context {KP : Keys}.
Definition PrivateKeyHex (D : Z) : string := hex_EncodeToString (DumpPrivateKey (Some D)).
Definition GetPrivPublKeys (key : Z * (Z * Z)) : string :=
  PublicKeyHex (Some key.2) +:+ "=!@#@!=" +:+ PrivateKeyHex key.1.
End mobile_keys.
