(* ===== verification/Dag.v ===== *)
(** * The graph of events and the ancestry tests

    [graph h] is what the store of a hashgraph knows of the DAG: every event
    without the fields that consensus fills in later. [reach] is the
    specification of ancestry, the reflexive and transitive closure of the
    parent relation.

    [dag_ok] is the invariant of a graph into which events were inserted in
    topological order with consecutive indexes per creator; its last clauses
    say that [lastAncestors] is exact, so that the comparison of two numbers
    in [_ancestor] decides reachability. *)
From S2P Require Export Hashgraph.

(** What insertion fixes of an event. *)
Definition skeleton (e : Event) : Event :=
  mkEvent (ev_Body e) (ev_Signature e) (ev_topologicalIndex e) None None None
    (ev_lastAncestors e) ∅.

Section graph.
Context {KP : Keys} {CP : Codec}.
Implicit Types (g : gmap string Event) (e : Event) (pec : ParticipantEventsCache).

Definition parent g (x y : string) : Prop :=
  ∃ e, g !! x = Some e ∧ (SelfParent e = y ∨ OtherParent e = y) ∧ is_Some (g !! y).
Definition reach g : string → string → Prop := rtc (parent g).

Lemma Hex_nonempty e : Hex e ≠ "".
Proof. unfold Hex. by case_match. Qed.
Lemma Creator_upper e : ToUpper (Creator e) = Creator e.
Proof. apply EncodeToString_upper. Qed.

Record dag_ok g pec (n : Z) : Prop := mk_dag_ok {
  dag_hex : ∀ k e, g !! k = Some e → Hex e = k;
  dag_self : ∀ k e, g !! k = Some e →
    SelfParent e = "" ∨
    ∃ p, g !! SelfParent e = Some p ∧ Creator p = Creator e ∧ Index e = Index p + 1;
  dag_other : ∀ k e, g !! k = Some e → OtherParent e = "" ∨ is_Some (g !! OtherParent e);
  dag_topo : ∀ k e, g !! k = Some e →
    0 ≤ ev_topologicalIndex e < n ∧
    ∀ p ep, SelfParent e = p ∨ OtherParent e = p → g !! p = Some ep →
      ev_topologicalIndex ep < ev_topologicalIndex e;
  dag_unique : ∀ k1 k2 e1 e2, g !! k1 = Some e1 → g !! k2 = Some e2 →
    Creator e1 = Creator e2 → Index e1 = Index e2 → k1 = k2;
  dag_first : ∀ k1 k2 e1 e2, g !! k1 = Some e1 → g !! k2 = Some e2 →
    SelfParent e1 = "" → Creator e1 = Creator e2 → Index e1 ≤ Index e2;
  dag_last : ∀ k e, g !! k = Some e →
    0 ≤ Index e ∧
    ∃ items, window pec (Creator e) = Some items ∧ Index e ≤ lastIndex items;
  dag_window : ∀ c items, window pec c = Some items → lastIndex items ≠ -1 →
    ∃ h e, ri_at items (lastIndex items) = Some h ∧ g !! h = Some e ∧
      Creator e = ToUpper c ∧ Index e = lastIndex items;
  dag_la : ∀ x y ex ey, g !! x = Some ex → g !! y = Some ey → reach g x y →
    ∃ c, ev_lastAncestors ex !! Creator ey = Some c ∧ Index ey ≤ ec_Index c;
  dag_la_sound : ∀ x ex p c, g !! x = Some ex → ev_lastAncestors ex !! p = Some c →
    ∃ z, g !! ec_Hash c = Some z ∧ Creator z = p ∧ Index z = ec_Index c ∧
      reach g x (ec_Hash c);
}.

Section facts.
Context g pec n (Hok : dag_ok g pec n).

Lemma dag_empty_key : g !! "" = None.
Proof.
  destruct (g !! "") as [e|] eqn:He; [|done]. exfalso. apply (Hex_nonempty e).
  by eapply dag_hex.
Qed.

(** The events of one creator form a chain. *)
Lemma chain_reach x y ex ey :
  g !! x = Some ex → g !! y = Some ey → Creator ex = Creator ey → Index ey ≤ Index ex →
  reach g x y.
Proof.
  intros Hx Hy Hc Hi. remember (Z.to_nat (Index ex - Index ey)) as d eqn:Hd.
  revert x ex Hx Hc Hi Hd. induction d as [|d IH]; intros x ex Hx Hc Hi Hd.
  - rewrite (dag_unique _ _ _ Hok x y ex ey Hx Hy Hc); [apply rtc_refl|lia].
  - destruct (dag_self _ _ _ Hok x ex Hx) as [Hsp|(p & Hp & Hcp & Hip)].
    + pose proof (dag_first _ _ _ Hok x y ex ey Hx Hy Hsp Hc). lia.
    + apply (rtc_l _ _ (SelfParent ex)).
      * exists ex. eauto.
      * apply (IH (SelfParent ex) p); [done|congruence|lia|lia].
Qed.

(** The comparison that [_ancestor] makes decides reachability. *)
Lemma lastAncestors_reach x y ex ey :
  g !! x = Some ex → g !! y = Some ey →
  reach g x y ↔ ∃ c, ev_lastAncestors ex !! Creator ey = Some c ∧ Index ey ≤ ec_Index c.
Proof.
  intros Hx Hy. split; [by apply (dag_la _ _ _ Hok)|]. intros (c & Hc & Hi).
  destruct (dag_la_sound _ _ _ Hok x ex _ c Hx Hc) as (z & Hz & Hcz & Hiz & Hr).
  etrans; [exact Hr|]. apply (chain_reach _ _ z ey); [done|done|done|lia].
Qed.

Lemma reach_known x y ex : g !! x = Some ex → reach g x y → is_Some (g !! y).
Proof.
  intros Hx Hr. apply rtc_inv_r in Hr as [<-|(z & _ & (e & _ & _ & Hy))]; eauto.
Qed.

(** Going down the parents strictly decreases the topological index. *)
Lemma reach_topo x y ex ey :
  g !! x = Some ex → g !! y = Some ey → reach g x y → x ≠ y →
  ev_topologicalIndex ey < ev_topologicalIndex ex.
Proof.
  intros Hx Hy Hr. revert ex Hx. induction Hr as [x|x z y (e & He & Hp & [ez Hz]) Hr IH]; [done|].
  intros ex Hx Hne. assert (ex = e) as -> by congruence.
  assert (ev_topologicalIndex ez < ev_topologicalIndex e)
    by (by eapply (dag_topo _ _ _ Hok x e Hx)).
  destruct (decide (z = y)) as [->|Hzy]; [by assert (ey = ez) as -> by congruence|].
  specialize (IH Hy ez Hz Hzy). lia.
Qed.

Lemma reach_antisym x y ex :
  g !! x = Some ex → reach g x y → reach g y x → x = y.
Proof.
  intros Hx Hxy Hyx. destruct (decide (x = y)) as [|Hne]; [done|].
  destruct (reach_known x y ex Hx Hxy) as [ey Hy].
  pose proof (reach_topo x y ex ey Hx Hy Hxy Hne).
  pose proof (reach_topo y x ey ex Hy Hx Hyx (not_eq_sym Hne)). lia.
Qed.
End facts.

(** ** Inserting an event *)
Definition well_parented g (e : Event) : Prop :=
  ((SelfParent e = "" ∧ ∀ k e', g !! k = Some e' → Creator e' ≠ Creator e) ∨
   ∃ p, g !! SelfParent e = Some p ∧ Creator p = Creator e ∧ Index e = Index p + 1 ∧
     ∀ k e', g !! k = Some e' → Creator e' = Creator e → Index e' ≤ Index p) ∧
  (OtherParent e = "" ∨ is_Some (g !! OtherParent e)).

Section insert.
Context g pec n (Hok : dag_ok g pec n) (e : Event) (Hfresh : g !! Hex e = None).
Context (Hwp : well_parented g e).
Abbreviation k := (Hex e).
Abbreviation g' := (<[Hex e := e]> g).

Lemma insert_old x ex : g !! x = Some ex → g' !! x = Some ex.
Proof. intros Hx. rewrite lookup_insert_ne; [done|]. intros <-. congruence. Qed.

Lemma parent_old x y : is_Some (g !! x) → parent g' x y ↔ parent g x y.
Proof.
  intros [ex Hx]. split.
  - intros (e0 & He0 & Hp & Hy). rewrite (insert_old x ex Hx) in He0. simplify_eq.
    exists e0. split; [done|]. split; [done|].
    destruct Hp as [Hp|Hp].
    + destruct (dag_self _ _ _ Hok x e0 Hx) as [H|(p & H & _)]; [|rewrite <-Hp; eauto].
      rewrite <-Hp, H in Hy. rewrite lookup_insert_ne in Hy by apply Hex_nonempty.
      rewrite (dag_empty_key _ _ _ Hok) in Hy. by destruct Hy.
    + destruct (dag_other _ _ _ Hok x e0 Hx) as [H|H]; [|rewrite <-Hp; done].
      rewrite <-Hp, H in Hy. rewrite lookup_insert_ne in Hy by apply Hex_nonempty.
      rewrite (dag_empty_key _ _ _ Hok) in Hy. by destruct Hy.
  - intros (e0 & He0 & Hp & [ey Hy]). exists e0. split; [by apply insert_old|].
    split; [done|]. exists ey. by apply insert_old.
Qed.

Lemma reach_old x y : is_Some (g !! x) → reach g' x y ↔ reach g x y.
Proof.
  intros Hx. split; intros Hr.
  - induction Hr as [x|x z y Hp Hr IH]; [apply rtc_refl|].
    apply (parent_old x z Hx) in Hp. eapply rtc_l; [exact Hp|]. apply IH.
    by destruct Hp as (? & _ & _ & ?).
  - induction Hr as [x|x z y Hp Hr IH]; [apply rtc_refl|].
    apply (rtc_l _ _ z); [by apply parent_old|]. apply IH. by destruct Hp as (? & _ & _ & ?).
Qed.

Lemma well_parented_known p : SelfParent e = p ∨ OtherParent e = p → p ≠ "" → is_Some (g !! p).
Proof.
  intros Hp Hne. destruct (Hwp) as [Hs Ho]. destruct Hp as [<-|<-].
  - destruct Hs as [[H _]|(p & H & _)]; [done|eauto].
  - by destruct Ho.
Qed.

(** What the new event reaches: itself and what its parents reach. *)
Lemma reach_new y :
  reach g' k y ↔
  y = k ∨ ∃ p, (SelfParent e = p ∨ OtherParent e = p) ∧ is_Some (g !! p) ∧ reach g p y.
Proof.
  split.
  - intros Hr. apply rtc_inv in Hr as [<-|(z & (e0 & He0 & Hp & Hz) & Hr)]; [by left|].
    rewrite lookup_insert_eq in He0. assert (e0 = e) as -> by congruence. right. exists z. split; [done|].
    assert (z ≠ "") as Hne.
    { intros ->. rewrite lookup_insert_ne in Hz by apply Hex_nonempty.
      rewrite (dag_empty_key _ _ _ Hok) in Hz. by destruct Hz. }
    pose proof (well_parented_known z Hp Hne) as Hk. split; [done|]. by apply reach_old.
  - intros [->|(p & Hp & [ep Hep] & Hr)]; [apply rtc_refl|].
    apply (rtc_l _ _ p).
    + exists e. rewrite lookup_insert_eq. split; [done|]. split; [done|].
      exists ep. by apply insert_old.
    + apply reach_old; [eauto|done].
Qed.

(** The coordinates the new event must carry. *)
Definition la_merged (la : CoordinatesMap) : Prop :=
  (∀ p ep c q, SelfParent e = p ∨ OtherParent e = p → g !! p = Some ep →
     ev_lastAncestors ep !! q = Some c →
     ∃ c', la !! q = Some c' ∧ ec_Index c ≤ ec_Index c') ∧
  (∀ q c, la !! q = Some c →
     ∃ p ep, (SelfParent e = p ∨ OtherParent e = p) ∧ g !! p = Some ep ∧
       ev_lastAncestors ep !! q = Some c).

Context (la : CoordinatesMap) (Hla : la_merged la).
Context (Hela : ev_lastAncestors e = <[Creator e := mkCoord (Hex e) (Index e)]> la).

(** Every event of the creator known so far is older. *)
Lemma insert_index_max x ex : g !! x = Some ex → Creator ex = Creator e → Index ex < Index e.
Proof.
  intros Hx Hc. destruct (Hwp) as [[[_ H]|(p & _ & _ & Hi & H)] _].
  - by destruct (H _ _ Hx).
  - specialize (H _ _ Hx Hc). lia.
Qed.

Lemma insert_la_sound p c :
  ev_lastAncestors e !! p = Some c →
  ∃ z, g' !! ec_Hash c = Some z ∧ Creator z = p ∧ Index z = ec_Index c ∧ reach g' k (ec_Hash c).
Proof.
  rewrite Hela. intros Hc. destruct (decide (p = Creator e)) as [->|Hne].
  - rewrite lookup_insert_eq in Hc. injection Hc as <-. exists e. simpl.
    rewrite lookup_insert_eq. repeat split. apply rtc_refl.
  - rewrite lookup_insert_ne in Hc by done.
    destruct (proj2 Hla _ _ Hc) as (q & eq & Hq & Heq & Hlq).
    destruct (dag_la_sound _ _ _ Hok _ _ _ _ Heq Hlq) as (z & Hz & Hcz & Hiz & Hr).
    exists z. split; [by apply insert_old|]. split; [done|]. split; [done|].
    apply reach_new. right. eauto.
Qed.

Lemma insert_la_complete y ey :
  g' !! y = Some ey → reach g' k y →
  ∃ c, ev_lastAncestors e !! Creator ey = Some c ∧ Index ey ≤ ec_Index c.
Proof.
  intros Hy Hr. rewrite Hela. apply reach_new in Hr as [->|(p & Hp & [ep Hep] & Hr)].
  - rewrite lookup_insert_eq in Hy. assert (ey = e) as -> by congruence.
    eexists. rewrite lookup_insert_eq.
    split; [done|]. simpl. lia.
  - destruct (reach_known _ _ _ _ Hep Hr) as [ey' Hey'].
    rewrite (insert_old _ _ Hey') in Hy. simplify_eq.
    destruct (decide (Creator ey = Creator e)) as [Hc|Hne].
    + rewrite Hc, lookup_insert_eq. eexists. split; [done|]. simpl.
      pose proof (insert_index_max _ _ Hey' Hc). lia.
    + rewrite lookup_insert_ne by done.
      destruct (dag_la _ _ _ Hok _ _ _ _ Hep Hey' Hr) as (c & Hlc & Hi).
      destruct (proj1 Hla _ _ _ _ Hp Hep Hlc) as (c' & Hc' & Hle). exists c'. split; [done|lia].
Qed.

(** The invariant survives the insertion. *)
Lemma dag_ok_insert pec' items :
  ev_topologicalIndex e = n → 0 ≤ n → 0 ≤ Index e →
  window pec' (Creator e) = Some items →
  lastIndex items = Index e → ri_at items (Index e) = Some k →
  (∀ c, ToUpper c ≠ Creator e → window pec' c = window pec c) →
  (∀ c c', ToUpper c = ToUpper c' → window pec' c = window pec' c') →
  dag_ok g' pec' (n + 1).
Proof.
  intros Htopo Hn0 Hidx Hwin Hlast Hat Hothers Hcase.
  assert (∀ x ex, g' !! x = Some ex → (x = k ∧ ex = e) ∨ (x ≠ k ∧ g !! x = Some ex)) as Hcases.
  { intros x ex Hx. destruct (decide (x = k)) as [->|Hne].
    - rewrite lookup_insert_eq in Hx. left. split; congruence.
    - rewrite lookup_insert_ne in Hx by done. by right. }
  split.
  - intros x ex [[-> ->]|[_ Hx]]%Hcases; [done|]. by eapply dag_hex.
  - intros x ex [[-> ->]|[_ Hx]]%Hcases.
    + destruct (Hwp) as [[[Hs _]|(p & Hp & Hc & Hi & _)] _]; [by left|right].
      exists p. split; [by apply insert_old|done].
    + destruct (dag_self _ _ _ Hok _ _ Hx) as [?|(p & Hp & ?)]; [by left|right].
      exists p. split; [by apply insert_old|done].
  - intros x ex [[-> ->]|[_ Hx]]%Hcases.
    + destruct (Hwp) as [_ [?|[p Hp]]]; [by left|right]. exists p. by apply insert_old.
    + destruct (dag_other _ _ _ Hok _ _ Hx) as [?|[p Hp]]; [by left|right].
      exists p. by apply insert_old.
  - intros x ex [[-> ->]|[Hne Hx]]%Hcases.
    + split; [lia|]. intros p ep Hp [[-> ->]|[_ Hep]]%Hcases.
      * exfalso. destruct (well_parented_known k Hp) as [? ?]; [apply Hex_nonempty|congruence].
      * destruct (dag_topo _ _ _ Hok _ _ Hep) as [? _]. lia.
    + destruct (dag_topo _ _ _ Hok _ _ Hx) as [Hb Hpar]. split; [lia|].
      intros p ep Hp Hep. apply (Hpar p ep Hp).
      assert (parent g' x p) as Hpp.
      { exists ex. split; [by apply insert_old|]. split; [done|eauto]. }
      apply parent_old in Hpp as (_ & _ & _ & [ep' Hep']); [|eauto].
      rewrite (insert_old _ _ Hep') in Hep. congruence.
  - intros x1 x2 e1 e2 [[-> ->]|[_ H1]]%Hcases [[-> ->]|[_ H2]]%Hcases Hc Hi.
    + done.
    + pose proof (insert_index_max _ _ H2 (eq_sym Hc)). lia.
    + pose proof (insert_index_max _ _ H1 Hc). lia.
    + by eapply (dag_unique _ _ _ Hok).
  - intros x1 x2 e1 e2 [[-> ->]|[_ H1]]%Hcases [[-> ->]|[_ H2]]%Hcases Hs Hc.
    + done.
    + destruct (Hwp) as [[[_ H]|(p & Hp & _)] _].
      * by destruct (H _ _ H2).
      * rewrite Hs, (dag_empty_key _ _ _ Hok) in Hp. done.
    + pose proof (insert_index_max _ _ H1 Hc). lia.
    + by eapply (dag_first _ _ _ Hok).
  - intros x ex [[-> ->]|[_ Hx]]%Hcases.
    + split; [done|]. exists items. split; [done|lia].
    + destruct (dag_last _ _ _ Hok _ _ Hx) as (H0 & it & Hit & Hle). split; [done|].
      destruct (decide (Creator ex = Creator e)) as [Hc|Hne].
      * exists items. rewrite Hc. split; [done|]. pose proof (insert_index_max _ _ Hx Hc). lia.
      * exists it. rewrite Hothers; [done|]. by rewrite Creator_upper.
  - intros c it Hit Hne. destruct (decide (ToUpper c = Creator e)) as [Hc|Hc].
    + rewrite (Hcase c (Creator e)) in Hit by (by rewrite Creator_upper).
      rewrite Hwin in Hit. injection Hit as <-. exists k, e. rewrite Hlast, lookup_insert_eq. done.
    + rewrite Hothers in Hit by done.
      destruct (dag_window _ _ _ Hok _ _ Hit Hne) as (h & eh & Hh & Heh & ?).
      exists h, eh. split; [done|]. split; [by apply insert_old|done].
  - intros x y ex ey Hx Hy Hr. destruct (Hcases _ _ Hx) as [[-> ->]|[_ Hgx]].
    + by eapply insert_la_complete.
    + apply reach_old in Hr; [|eauto]. destruct (reach_known _ _ _ _ Hgx Hr) as [ey' Hgy].
      rewrite (insert_old _ _ Hgy) in Hy. assert (ey' = ey) as -> by congruence.
      by eapply (dag_la _ _ _ Hok).
  - intros x ex p c Hx Hc. destruct (Hcases _ _ Hx) as [[-> ->]|[_ Hgx]].
    + by apply insert_la_sound.
    + destruct (dag_la_sound _ _ _ Hok _ _ _ _ Hgx Hc) as (z & Hz & ? & ? & Hr).
      exists z. split; [by apply insert_old|]. split; [done|]. split; [done|].
      apply reach_old; [eauto|done].
Qed.
End insert.

Lemma dag_ok_empty pec n :
  (∀ c items, window pec c = Some items → lastIndex items = -1) → 0 ≤ n → dag_ok ∅ pec n.
Proof.
  intros Hw Hn. split; try (intros *; rewrite lookup_empty; done).
  intros c items Hc Hne. by destruct (Hne (Hw _ _ Hc)).
Qed.

Lemma dag_ok_mono g pec n n' : dag_ok g pec n → n ≤ n' → dag_ok g pec n'.
Proof.
  intros [] Hle. split; try done. intros x ex Hx. destruct (dag_topo0 x ex Hx). split; [lia|done].
Qed.

Lemma window_case pec c c' : ToUpper c = ToUpper c' → window pec c = window pec c'.
Proof. intros H. unfold window, participantID. by rewrite H. Qed.
End graph.

(** ** Lamport timestamps

    The specification of [lamportTimestamp]: one more than the largest
    timestamp of the parents, 0 without parents. *)
Section lamport.
Context {KP : Keys} {CP : Codec}.
Implicit Types (g : gmap string Event).

Inductive lamport g : string → Z → Prop :=
| lamport_event x e v w :
    g !! x = Some e → lamport_parent g (SelfParent e) v → lamport_parent g (OtherParent e) w →
    lamport g x (Z.max v w + 1)
with lamport_parent g : string → Z → Prop :=
| lamport_none : lamport_parent g "" (-1)
| lamport_some p v : p ≠ "" → lamport g p v → lamport_parent g p v.

Scheme lamport_ind2 := Induction for lamport Sort Prop
with lamport_parent_ind2 := Induction for lamport_parent Sort Prop.

Lemma lamport_nonneg g x v : lamport g x v → 0 ≤ v.
Proof.
  intros Hl. induction Hl using lamport_ind2 with (P0 := λ p v _, -1 ≤ v); lia.
Qed.

Lemma lamport_det g x v : lamport g x v → ∀ v', lamport g x v' → v = v'.
Proof.
  intros Hl. induction Hl using lamport_ind2 with
    (P0 := λ p v _, ∀ v', lamport_parent g p v' → v = v').
  - intros v'. inversion 1; subst. simplify_eq.
    repeat match goal with H : ∀ v', lamport_parent g _ v' → _ = v' |- _ =>
      erewrite H by eassumption; clear H end. done.
  - intros v'. by inversion 1.
  - intros v'. inversion 1; subst; auto. done.
Qed.

(** A timestamp is larger than those of the parents. *)
Lemma lamport_increasing g x y v w :
  g !! "" = None → lamport g x v → lamport g y w → parent g x y → w < v.
Proof.
  intros Hempty Hx Hy (e & He & Hp & [ey Hey]).
  destruct Hx as [x e' v1 v2 He' H1 H2]. simplify_eq.
  assert (∀ u, lamport_parent g y u → w ≤ u) as Hpar.
  { intros u Hu. destruct Hu as [|p u Hne Hl]; [congruence|].
    rewrite (lamport_det _ _ _ Hy _ Hl). lia. }
  destruct Hp as [<-|<-]; [apply Hpar in H1|apply Hpar in H2]; lia.
Qed.

(** ... and so of everything below. *)
Lemma lamport_below g pec n : dag_ok g pec n → ∀ x y v w,
  lamport g x v → lamport g y w → tc (parent g) x y → w < v.
Proof.
  intros Hok x y v w Hx Hy Hr. pose proof (dag_empty_key _ _ _ Hok) as Hempty.
  revert v Hx. induction Hr as [x y Hxy|x z y Hxz Hr IH]; intros v Hx.
  - by eapply lamport_increasing.
  - assert (∃ u, lamport g z u) as [u Hu].
    { destruct Hxz as (e & He & Hp & [ez Hez]). destruct Hx as [x e' v1 v2 He' H1 H2].
      simplify_eq. destruct Hp as [<-|<-];
        [inversion H1 as [Hs|]|inversion H2 as [Hs|]]; subst; eauto; by rewrite <-Hs in Hez; congruence. }
    pose proof (lamport_increasing _ _ _ _ _ Hempty Hx Hu Hxz). specialize (IH Hy u Hu). lia.
Qed.
End lamport.

(** ** Strongly seeing

    The specification of [stronglySee]: a super-majority of the peers have an
    event between the two. *)
Section strongly.
Context {KP : Keys} {CP : Codec} {RO : RangeOrder}.
Implicit Types (g : gmap string Event).

Definition strongly_sees g (x y : string) (ps : PeerSet) : Prop :=
  ∃ Q : gset string, Q ⊆ dom (ByPubKey ps) ∧ SuperMajority ps ≤ Z.of_nat (size Q) ∧
    ∀ p, p ∈ Q → ∃ z ez, g !! z = Some ez ∧ Creator ez = p ∧ reach g x z ∧ reach g z y.

(** Every first descendant recorded for [y] is an event that reaches [y]. *)
Definition fd_sound g (y : string) (fd : CoordinatesMap) : Prop :=
  ∀ p c, fd !! p = Some c →
    ∃ z, g !! ec_Hash c = Some z ∧ Creator z = p ∧ Index z = ec_Index c ∧
      reach g (ec_Hash c) y.

Definition ss_peer (ex ey : Event) (p : string) : bool :=
  match ev_lastAncestors ex !! p, ev_firstDescendants ey !! p with
  | Some xla, Some yfd => ec_Index yfd <=? ec_Index xla
  | _, _ => false
  end.

Lemma ss_count_set ex ey ps :
  ss_count ex ey ps =
  Z.of_nat (size (list_to_set (filter (λ p, ss_peer ex ey p) (range (ByPubKey ps)).*1) : gset string)).
Proof.
  assert (NoDup (range (ByPubKey ps)).*1) as Hnd
    by (rewrite (range_perm (ByPubKey ps)); apply NoDup_fst_map_to_list).
  rewrite size_list_to_set by (by apply NoDup_filter). clear Hnd. unfold ss_count.
  assert (∀ l c, foldl (λ c '(p, _),
      match ev_lastAncestors ex !! p, ev_firstDescendants ey !! p with
      | Some xla, Some yfd => if ec_Index yfd <=? ec_Index xla then c + 1 else c
      | _, _ => c
      end) c (l : list (string * Peer)) =
    c + Z.of_nat (length (filter (λ p, ss_peer ex ey p) l.*1))) as Hl; [|by rewrite Hl].
  induction l as [|[p q] l IH]; intros c; csimpl; [lia|]. rewrite IH, filter_cons. unfold ss_peer.
  destruct (ev_lastAncestors ex !! p) as [a|], (ev_firstDescendants ey !! p) as [b|];
    try (rewrite decide_False by tauto; lia).
  destruct (ec_Index b <=? ec_Index a).
  - rewrite decide_True by done. csimpl. lia.
  - rewrite decide_False by tauto. lia.
Qed.

(** The count of the code finds peers that the specification counts. *)
Lemma ss_count_sound g pec n x y ex ey ps :
  dag_ok g pec n → g !! x = Some ex → fd_sound g y (ev_firstDescendants ey) →
  SuperMajority ps ≤ ss_count ex ey ps → strongly_sees g x y ps.
Proof.
  intros Hok Hx Hfd Hc. rewrite ss_count_set in Hc. eexists. split; [|split; [exact Hc|]].
  - intros p. rewrite elem_of_list_to_set, list_elem_of_filter. intros [_ Hp].
    rewrite (range_perm (ByPubKey ps)) in Hp. apply list_elem_of_fmap in Hp as ([p' q] & -> & Hp).
    apply elem_of_map_to_list in Hp. simpl. apply elem_of_dom. eauto.
  - intros p. rewrite elem_of_list_to_set, list_elem_of_filter. intros [Hp _].
    unfold ss_peer in Hp. destruct (ev_lastAncestors ex !! p) as [a|] eqn:Ha; [|done].
    destruct (ev_firstDescendants ey !! p) as [b|] eqn:Hb; [|done].
    apply Is_true_true in Hp.
    destruct (dag_la_sound _ _ _ Hok _ _ _ _ Hx Ha) as (u & Hu & Hcu & Hiu & Hru).
    destruct (Hfd _ _ Hb) as (z & Hz & Hcz & Hiz & Hrz).
    exists (ec_Hash b), z. split; [done|]. split; [done|]. split; [|done].
    etrans; [exact Hru|]. eapply (chain_reach _ _ _ Hok); [done|done|congruence|lia].
Qed.

Lemma reach_mono g (e : Event) x y :
  g !! Hex e = None → reach g x y → reach (<[Hex e := e]> g) x y.
Proof.
  intros Hfresh. apply rtc_subrel. intros a b (ea & Ha & Hp & Hb). exists ea.
  split; [by apply insert_old|]. split; [done|]. rewrite lookup_insert_is_Some'. by right.
Qed.

Lemma strongly_sees_mono g (e : Event) x y ps :
  g !! Hex e = None → strongly_sees g x y ps → strongly_sees (<[Hex e := e]> g) x y ps.
Proof.
  intros Hfresh (Q & HQ & Hsz & Hall). exists Q. split; [done|]. split; [done|].
  intros p Hp. destruct (Hall p Hp) as (z & ez & Hz & Hc & Hxz & Hzy). exists z, ez.
  split; [by apply insert_old|]. split; [done|]. split; by apply reach_mono.
Qed.
End strongly.

(** ** Merging coordinates *)
Section merge.
Context {RO : RangeOrder}.

Definition merged_at (s o : option EventCoordinates) : option EventCoordinates :=
  match s, o with
  | Some s, Some o => if ec_Index s <? ec_Index o then Some o else Some s
  | Some s, None => Some s
  | None, o => o
  end.

Lemma merge_fold (l : list (string * EventCoordinates)) (sla : CoordinatesMap) p :
  NoDup l.*1 →
  foldl (λ m '(p, o),
      match m !! p with
      | None => <[p := o]> m
      | Some s => if ec_Index s <? ec_Index o then <[p := o]> m else m
      end) sla l !! p = merged_at (sla !! p) (list_to_map (M:=CoordinatesMap) l !! p).
Proof.
  revert sla. induction l as [|[q o] l IH]; intros sla Hnd; csimpl in *.
  { rewrite lookup_empty. by destruct (sla !! p). }
  apply NoDup_cons in Hnd as [Hq Hnd]. rewrite IH by done.
  destruct (decide (p = q)) as [->|Hne].
  - rewrite lookup_insert_eq. rewrite (not_elem_of_list_to_map_1 l q) by done.
    destruct (sla !! q) as [s|] eqn:Hs; simpl.
    + destruct (ec_Index s <? ec_Index o) eqn:Hlt; simpl.
      * by rewrite lookup_insert_eq.
      * by rewrite Hs.
    + by rewrite lookup_insert_eq.
  - rewrite lookup_insert_ne by done. f_equal.
    destruct (sla !! q) as [s|]; [destruct (ec_Index s <? ec_Index o)|];
      by rewrite ?lookup_insert_ne.
Qed.

Lemma merge_coordinates_lookup (sla ola : CoordinatesMap) p :
  merge_coordinates sla ola !! p = merged_at (sla !! p) (ola !! p).
Proof.
  unfold merge_coordinates. rewrite merge_fold.
  - f_equal. rewrite <-(list_to_map_to_list ola) at 2. f_equal.
    apply list_to_map_proper; [|apply range_perm].
    rewrite (range_perm ola). apply NoDup_fst_map_to_list.
  - rewrite (range_perm ola). apply NoDup_fst_map_to_list.
Qed.
End merge.
