(* ===== verification/Inv.v ===== *)
(** * The invariant of the hashgraph

    [hg_inv] says that the store is well-formed, that the graph of events
    satisfies [dag_ok], and that the memo table of [ancestor] agrees with
    reachability. The theorems: every operation of the consensus pipeline
    keeps it, on every outcome; inserting a new event with the next index of
    its creator, while the event cache has room, extends the graph by exactly
    that event; and under it [ancestor] decides reachability. *)
From S2P Require Export Dag.

Section inv.
Context {KP : Keys} {CP : Codec} {RO : RangeOrder}.
Context {St : Type} {STO : Store St} {LAW : StoreLaws St}.
Abbreviation H := (GoM error (Hashgraph St)).
Implicit Types (h : Hashgraph St) (g : gmap string Event) (pec : ParticipantEventsCache).

Definition hv h : StoreView := store_view (hg_Store h).
Definition graph h : gmap string Event := skeleton <$> v_events (hv h).

(** A memo table all of whose entries are right. *)
Definition table_ok {K V} `{Countable K} (ok : K → V → Prop) (c : LRU K V) : Prop :=
  lru_wf c ∧ ∀ k v, view c !! k = Some v → ok k v.

Definition ancestor_ok g (xy : string * string) (b : bool) : Prop :=
  (xy.1 = xy.2 ∧ b = true) ∨
  (is_Some (g !! xy.1) ∧ is_Some (g !! xy.2) ∧ (b = true ↔ reach g xy.1 xy.2)).

(** A cached [true] of [stronglySee] is right for a peer-set with the hash of
    the key. *)
Definition ss_ok g (k : string * string * string) (b : bool) : Prop :=
  b = true → ∃ ps, PS_Hex ps = Ok k.2 ∧ strongly_sees g k.1.1 k.1.2 ps.

Definition memo_ok g (m : MemoCaches) : Prop :=
  table_ok (ancestor_ok g) (ancestorCache m) ∧ table_ok (lamport g) (timestampCache m) ∧
  table_ok (ss_ok g) (stronglySeeCache m).

Definition fds_ok g (evs : gmap string Event) : Prop :=
  ∀ y e, evs !! y = Some e → fd_sound g y (ev_firstDescendants e).

(** The state as the graph sees it. *)
Definition Ist (N : Z) g pec (n : Z) h : Prop :=
  st_ok (hg_Store h) ∧ v_size (hv h) = N ∧ graph h = g ∧ v_pec (hv h) = pec ∧ topologicalIndex h = n ∧
  memo_ok g (memo h) ∧ fds_ok g (v_events (hv h)).

Definition hg_inv h : Prop :=
  pec_ok (v_pec (hv h)) ∧ 0 ≤ topologicalIndex h ∧
  dag_ok (graph h) (v_pec (hv h)) (topologicalIndex h) ∧
  Ist (v_size (hv h)) (graph h) (v_pec (hv h)) (topologicalIndex h) h.

Lemma hoare_of_keeps {A} (I : Hashgraph St → Prop) (m : H A) :
  respects (keeps I) m → hoare I m (λ _, I) I.
Proof. intros Hm h Hh. specialize (Hm h Hh). by destruct (m h) as [[]]. Qed.
Lemma keeps_of_hoare {A} (I : Hashgraph St → Prop) (Q : A → Hashgraph St → Prop) (m : H A) :
  hoare I m Q I → (∀ a h, Q a h → I h) → respects (keeps I) m.
Proof.
  intros Hm HQ h Hh. specialize (Hm h Hh). destruct (m h) as [[]]; simpl; eauto.
Qed.

(** A memoised computation whose table is sound: the outcome satisfies what
    every outcome of the computation and every entry satisfies. *)
Lemma memoised_inv {K V} `{Countable K} (I : Hashgraph St → Prop) (proj : MemoCaches → LRU K V) put
    (ok : K → V → Prop)
    (key : K) (compute : H V) (P : res V → Prop) h :
  (∀ h, I h → table_ok ok (proj (memo h))) →
  (∀ h c, I h → table_ok ok c → I (set_memo (put c (memo h)) h)) →
  (∀ v, P (Ok v) ↔ ok key v) →
  (∀ h, I h → ∃ r h', compute h = (r, h') ∧ I h' ∧ P r) →
  I h → ∃ r h', memoised proj put key compute h = (r, h') ∧ I h' ∧ P r.
Proof.
  intros Hproj Hput HP Hc HI. destruct (Hproj h HI) as [Hwf Hok].
  destruct (Get_view key (proj (memo h))) as [Hr Hv]. pose proof (Get_wf key _ Hwf) as Hwf'.
  unfold memoised, bind at 1, zoom.
  destruct (Get key (proj (memo h))) as [o c]. simpl in *.
  assert (I (set_memo (put c (memo h)) h)) as HI1.
  { apply Hput; [done|]. split; [done|]. by rewrite Hv. }
  destruct o as [v|].
  { eexists (Ok v), _. split; [done|]. split; [done|]. apply HP, Hok. by rewrite <-Hr. }
  destruct (Hc _ HI1) as (r & h2 & Hrun & HI2 & HPr). unfold bind at 1. rewrite Hrun.
  destruct r as [v|err| |]; [|by eauto..].
  eexists (Ok v), _. split; [done|]. split; [|done].
  destruct (Hproj h2 HI2) as [Hwf2 Hok2]. apply Hput; [done|]. split; [by apply Add_wf|].
  intros k' v' Hl. destruct (decide (k' = key)) as [->|Hne].
  - rewrite (Add_lookup _ _ _ Hwf2) in Hl. injection Hl as <-. by apply HP.
  - apply (Add_ne _ _ _ _ _ Hwf2 Hne) in Hl. by apply Hok2.
Qed.

(** ** Steps that do not touch the graph *)
Section stable.
Context (N : Z) (g : gmap string Event) (pec : ParticipantEventsCache) (n : Z).
Abbreviation I := (Ist N g pec n).
Abbreviation stable := (respects (E:=error) (keeps (Ist N g pec n))).

(** Any change of the store that keeps the view's events and windows. *)
Lemma stable_store {A} (m : M St A) :
  (∀ s, st_ok s → st_ok (m s).2 ∧
     skeleton <$> v_events (store_view (m s).2) = skeleton <$> v_events (store_view s) ∧
     v_pec (store_view (m s).2) = v_pec (store_view s) ∧
     v_size (store_view (m s).2) = v_size (store_view s) ∧
     (fds_ok g (v_events (store_view s)) → fds_ok g (v_events (store_view (m s).2)))) →
  stable (onStore m).
Proof.
  intros Hm h (Hok & HN & Hg & Hp & Ht & Hmo & Hfd). specialize (Hm (hg_Store h) Hok).
  unfold onStore, zoom. destruct (m (hg_Store h)) as [r s']. simpl in *.
  destruct Hm as (? & Hev & Hpec & Hsz & Hfds). unfold Ist, graph, hv in *. simpl.
  split; [done|]. split; [congruence|]. split; [congruence|]. split; [congruence|]. by auto.
Qed.

Lemma stable_mut (f : St → St) :
  (∀ s, st_ok s → st_ok (f s) ∧
     skeleton <$> v_events (store_view (f s)) = skeleton <$> v_events (store_view s) ∧
     v_pec (store_view (f s)) = v_pec (store_view s) ∧
     v_size (store_view (f s)) = v_size (store_view s) ∧
     (fds_ok g (v_events (store_view s)) → fds_ok g (v_events (store_view (f s))))) →
  stable (modify (λ h, set_Store (f (hg_Store h)) h)).
Proof.
  intros Hf. apply (stable_store (A:=unit) (λ s, (Ok tt, f s))). exact Hf.
Qed.

Lemma stable_GetEvent k : stable (onStore (GetEvent k)).
Proof. apply stable_store. intros s Hs. destruct (GetEvent_law k s Hs) as (? & -> & _). done. Qed.
Lemma stable_GetRound r : stable (onStore (GetRoundInfo r)).
Proof. apply stable_store. intros s Hs. destruct (GetRound_law r s Hs) as (? & -> & _). done. Qed.
Lemma stable_GetBlock i : stable (onStore (GetBlock i)).
Proof. apply stable_store. intros s Hs. destruct (GetBlock_law i s Hs) as (? & -> & _). done. Qed.
Lemma stable_GetFrame i : stable (onStore (GetFrame i)).
Proof. apply stable_store. intros s Hs. destruct (GetFrame_law i s Hs) as (? & -> & _). done. Qed.
Lemma stable_SetRound r ri : stable (onStore (SetRoundInfo r ri)).
Proof.
  apply stable_store. intros s Hs. destruct (SetRound_law r ri s Hs) as (_ & ? & rds & _ & ->).
  done.
Qed.
Lemma stable_SetBlock b : stable (onStore (SetBlock b)).
Proof.
  apply stable_store. intros s Hs. destruct (SetBlock_law b s Hs) as (_ & ? & rds & _ & ->).
  done.
Qed.
Lemma stable_SetFrame f : stable (onStore (SetFrame f)).
Proof.
  apply stable_store. intros s Hs. destruct (SetFrame_law f s Hs) as (_ & ? & rds & _ & ->).
  done.
Qed.
Lemma stable_AddConsensusEvent e : stable (onStore (AddConsensusEvent e)).
Proof.
  apply stable_store. intros s Hs. destruct (AddConsensusEvent_law e s Hs) as (? & ->). done.
Qed.
Lemma stable_mutRound r f : stable (modify (λ h, set_Store (mutRound r f (hg_Store h)) h)).
Proof. apply stable_mut. intros s Hs. destruct (mutRound_law r f s Hs) as (? & ->). done. Qed.
Lemma stable_mutBlock r f : stable (modify (λ h, set_Store (mutBlock r f (hg_Store h)) h)).
Proof. apply stable_mut. intros s Hs. destruct (mutBlock_law r f s Hs) as (? & ->). done. Qed.
Lemma stable_mutEvent k f : (∀ e, skeleton (f e) = skeleton e) →
  (∀ e, fd_sound g k (ev_firstDescendants e) → fd_sound g k (ev_firstDescendants (f e))) →
  stable (modify (λ h, set_Store (mutEvent k f (hg_Store h)) h)).
Proof.
  intros Hf Hfd. apply stable_mut. intros s Hs. destruct (mutEvent_law k f s Hs) as (? & ->).
  simpl. split; [done|]. split; [|split; [done|split; [done|]]].
  - apply map_eq. intros i. rewrite !lookup_fmap.
    destruct (decide (i = k)) as [->|Hne]; [|by rewrite lookup_alter_ne].
    rewrite lookup_alter_eq. destruct (_ !! k); simpl; [by rewrite Hf|done].
  - intros Hfds y e. destruct (decide (y = k)) as [->|Hne].
    + rewrite lookup_alter_eq. intros (e0 & He0 & ->)%fmap_Some. by apply Hfd, Hfds.
    + rewrite lookup_alter_ne by done. apply Hfds.
Qed.
Lemma stable_readStore {A} (f : St → A) : stable (readStore f).
Proof. apply respects_pure; [apply _|]. done. Qed.
Lemma stable_readStoreR {A} (f : St → res A) : stable (readStoreR f).
Proof. apply respects_pure; [apply _|]. done. Qed.

(** Changes of the other fields. *)
Lemma stable_fields (f : Hashgraph St → Hashgraph St) :
  (∀ h, hg_Store (f h) = hg_Store h ∧ topologicalIndex (f h) = topologicalIndex h ∧
        memo (f h) = memo h) →
  stable (modify f).
Proof.
  intros Hf. apply respects_modify. intros h. destruct (Hf h) as (H1 & H2 & H3).
  unfold keeps, Ist, graph, hv. by rewrite H1, H2, H3.
Qed.

(** The memo tables other than those of [ancestor] and [lamportTimestamp]. *)
Definition other_table {K V} (put : LRU K V → MemoCaches → MemoCaches) : Prop :=
  ∀ c m, ancestorCache (put c m) = ancestorCache m ∧
    timestampCache (put c m) = timestampCache m ∧
    stronglySeeCache (put c m) = stronglySeeCache m.

Lemma other_put {K V} (put : LRU K V → MemoCaches → MemoCaches) c h :
  other_table put → I h → I (set_memo (put c (memo h)) h).
Proof.
  intros Hput (? & ? & ? & ? & ? & Hmo & ?). unfold Ist, graph, hv, memo_ok in *. simpl.
  destruct (Hput c (memo h)) as (-> & -> & ->). done.
Qed.

Lemma stable_memoised {K V} `{Countable K} (proj : MemoCaches → LRU K V) put (key : K)
    (compute : H V) :
  other_table put → stable compute → stable (memoised proj put key compute).
Proof.
  intros Hput Hc. unfold memoised. apply (respects_bind _).
  - intros h HI. unfold zoom. destruct (Get key (proj (memo h))) as [r c]. by apply other_put.
  - intros [v|]; [apply respects_ret, _|]. apply (respects_bind _); [done|].
    intros v. apply (respects_bind _); [|intros []; apply respects_ret, _].
    apply respects_modify. intros h HI. by apply other_put.
Qed.

Lemma stable_cache_add {K V} `{Countable K} (proj : MemoCaches → LRU K V) put (key : K) (v : V) :
  other_table put → stable (cache_add proj put key v).
Proof. intros Hput. apply respects_modify. intros h HI. by apply other_put. Qed.

Lemma memoised_cases {K V} `{Countable K} (proj : MemoCaches → LRU K V) put (ok : K → V → Prop)
    (key : K) (compute : H V) (P : res V → Prop) h :
  (∀ h, I h → table_ok ok (proj (memo h))) →
  (∀ h c, I h → table_ok ok c → I (set_memo (put c (memo h)) h)) →
  (∀ v, P (Ok v) ↔ ok key v) →
  (∀ h, I h → ∃ r h', compute h = (r, h') ∧ I h' ∧ P r) →
  I h → ∃ r h', memoised proj put key compute h = (r, h') ∧ I h' ∧ P r.
Proof. apply memoised_inv. Qed.

Lemma put_ancestor h c : I h → table_ok (ancestor_ok g) c →
  I (set_memo (set_ancestorCache c (memo h)) h).
Proof. intros (? & ? & ? & ? & ? & (? & ? & ?) & ?) Hc. do 5 (split; [done|]). done. Qed.
Lemma put_timestamp h c : I h → table_ok (lamport g) c →
  I (set_memo (set_timestampCache c (memo h)) h).
Proof. intros (? & ? & ? & ? & ? & (? & ? & ?) & ?) Hc. do 5 (split; [done|]). done. Qed.
Lemma put_stronglySee h c : I h → table_ok (ss_ok g) c →
  I (set_memo (set_stronglySeeCache c (memo h)) h).
Proof. intros (? & ? & ? & ? & ? & (? & ? & ?) & ?) Hc. do 5 (split; [done|]). done. Qed.
Lemma get_tables h : I h → memo_ok g (memo h).
Proof. intros (? & ? & ? & ? & ? & ? & ?). done. Qed.
End stable.
End inv.

#[export] Hint Resolve stable_GetEvent stable_GetRound stable_GetBlock stable_GetFrame
  stable_SetRound stable_SetBlock stable_SetFrame stable_AddConsensusEvent stable_mutRound
  stable_mutBlock stable_readStore stable_readStoreR : respects.

Section graph_steps.
Context {KP : Keys} {CP : Codec} {RO : RangeOrder}.
Context {St : Type} {STO : Store St} {LAW : StoreLaws St}.
Abbreviation H := (GoM error (Hashgraph St)).
Context (N : Z) (g : gmap string Event) (pec : ParticipantEventsCache) (n : Z) (Hok : dag_ok g pec n).
Implicit Types (h : Hashgraph St).
Abbreviation I := (Ist N g pec n).
Abbreviation stable := (respects (E:=error) (keeps (Ist N g pec n))).

Lemma skeleton_Hex e : Hex (skeleton e) = Hex e.
Proof. done. Qed.

(** ** Reading events *)
Lemma GetEvent_cases k h : I h →
  ∃ r h', onStore (GetEvent k) h = (r, h') ∧ I h' ∧
    match r with
    | Ok e => g !! k = Some (skeleton e) ∧ fd_sound g k (ev_firstDescendants e)
    | Err err => g !! k = None ∧ IsStore err KeyNotFound = true
    | _ => False
    end.
Proof.
  intros HI. pose proof (stable_GetEvent N g pec n k h HI) as HI'.
  destruct HI as (Hs & _ & Hg & _ & _ & _ & Hfds). destruct (GetEvent_law k (hg_Store h) Hs) as (_ & _ & Hf).
  unfold onStore, zoom in *. destruct (GetEvent k (hg_Store h)) as [r s']. simpl in *.
  exists r, (set_Store s' h). split; [done|]. split; [done|].
  assert (g !! k = skeleton <$> (v_events (store_view (hg_Store h)) !! k)) as Hgk.
  { rewrite <-Hg. unfold graph, hv. by rewrite lookup_fmap. }
  destruct (v_events _ !! k) as [e|] eqn:He; simpl in *.
  - subst r. split; [done|]. by apply Hfds.
  - destruct Hf as (err & -> & Her). done.
Qed.

Lemma hoare_GetEvent k :
  hoare I (onStore (GetEvent k))
    (λ e h, I h ∧ g !! k = Some (skeleton e) ∧ fd_sound g k (ev_firstDescendants e)) I.
Proof.
  intros h HI. destruct (GetEvent_cases k h HI) as (r & h' & -> & HI' & Hr). by destruct r.
Qed.

Lemma hoare_try_GetEvent k :
  hoare I (try (onStore (GetEvent k)))
    (λ r h, I h ∧ match r with
                  | inl e => g !! k = Some (skeleton e) ∧ fd_sound g k (ev_firstDescendants e)
                  | inr _ => g !! k = None
                  end)
    (λ _, False).
Proof.
  intros h HI. unfold try. destruct (GetEvent_cases k h HI) as (r & h' & -> & HI' & Hr).
  destruct r; naive_solver.
Qed.

(** Writing back an event of the graph. *)
Lemma stable_SetEvent e : g !! Hex e = Some (skeleton e) →
  fd_sound g (Hex e) (ev_firstDescendants e) → stable (onStore (SetEvent e)).
Proof.
  intros He Hfd h (Hs & HN & Hg & Hp & Ht & Hmo & Hfds). unfold onStore, zoom.
  assert (is_Some (v_events (store_view (hg_Store h)) !! Hex e)) as Hk.
  { rewrite <-Hg in He. unfold graph, hv in He. rewrite lookup_fmap in He.
    destruct (v_events _ !! Hex e); [eauto|done]. }
  destruct (SetEvent_known_law e (hg_Store h) Hs Hk) as (_ & Hs' & Hv').
  destruct (SetEvent e (hg_Store h)) as [r s']. simpl in *.
  unfold Ist, graph, hv in *. simpl. rewrite Hv'. simpl. split; [done|]. split; [done|].
  split; [rewrite fmap_insert, Hg; by apply insert_id|].
  split; [done|]. split; [done|]. split; [done|]. intros y e'.
  destruct (decide (y = Hex e)) as [->|Hne].
  - rewrite lookup_insert_eq. by intros [= <-].
  - rewrite lookup_insert_ne by done. apply Hfds.
Qed.

(** ** Ancestry *)
(** What an ancestry test may answer. *)
Definition ancestor_res x y (r : res bool) : Prop :=
  match r with
  | Ok b => ancestor_ok g (x, y) b
  | Err _ => g !! x = None ∨ g !! y = None
  | _ => False
  end.

Lemma _ancestor_cases x y h : I h →
  ∃ r h', _ancestor x y h = (r, h') ∧ I h' ∧ ancestor_res x y r.
Proof.
  intros HI. unfold _ancestor. case_decide as Hxy.
  { exists (Ok true), h. split; [done|]. split; [done|]. by left. }
  destruct (GetEvent_cases x h HI) as (rx & h1 & Hx & HI1 & Hrx).
  destruct rx as [ex|err| |]; [|exists (Err err), h1|done|done].
  2:{ unfold bind. rewrite Hx. split; [done|]. split; [done|]. left. tauto. }
  destruct (GetEvent_cases y h1 HI1) as (ry & h2 & Hy & HI2 & Hry).
  destruct ry as [ey|err| |]; [|exists (Err err), h2|done|done].
  2:{ unfold bind. rewrite Hx, Hy. split; [done|]. split; [done|]. right. tauto. }
  eexists _, h2. unfold bind. rewrite Hx, Hy. split; [done|]. split; [done|].
  destruct Hrx as [Hrx _], Hry as [Hry _]. right. split; [eauto|]. split; [eauto|].
  rewrite (lastAncestors_reach _ _ _ Hok x y _ _ Hrx Hry). simpl.
  destruct (ev_lastAncestors ex !! Creator ey) as [c|] eqn:Hc.
  - change (Creator (skeleton ey)) with (Creator ey). rewrite Hc, Z.leb_le. naive_solver.
  - change (Creator (skeleton ey)) with (Creator ey). rewrite Hc. naive_solver.
Qed.

Lemma ancestor_cases x y h : I h →
  ∃ r h', ancestor x y h = (r, h') ∧ I h' ∧ ancestor_res x y r.
Proof.
  apply (memoised_cases N g pec n ancestorCache set_ancestorCache (ancestor_ok g) (x, y)).
  - intros h1 HI1. by apply get_tables in HI1 as (? & _).
  - apply put_ancestor.
  - done.
  - intros h1 HI1. by apply _ancestor_cases.
Qed.

Lemma stable_ancestor x y : stable (ancestor x y).
Proof. intros h HI. by destruct (ancestor_cases x y h HI) as (r & h' & -> & ? & _). Qed.

(** ** Lamport timestamps *)
Definition lamport_res x (r : res Z) : Prop :=
  match r with
  | Ok v => lamport g x v
  | Err _ => g !! x = None
  | Panic => False
  | OutOfFuel => True
  end.

(** The parent's contribution, as the body of [_lamportTimestamp] computes
    it. *)
Lemma lamport_self_cases (rec : string → H Z) p h :
  (∀ x h, I h → ∃ r h', rec x h = (r, h') ∧ I h' ∧ lamport_res x r) →
  p = "" ∨ is_Some (g !! p) → I h →
  ∃ r h', (if decide (p = "") then ret (-1) else rec p) h = (r, h') ∧ I h' ∧
    match r with Ok v => lamport_parent g p v | OutOfFuel => True | _ => False end.
Proof.
  intros Hrec Hp HI. case_decide as Hd.
  { exists (Ok (-1)), h. subst. split; [done|]. split; [done|]. constructor. }
  destruct (Hrec p h HI) as (r & h' & Hr & HI' & Hres). exists r, h'.
  split; [done|]. split; [done|]. destruct r as [v|err| |]; try done; [by constructor|].
  simpl in Hres. destruct Hp as [|[? ?]]; congruence.
Qed.

Lemma lamport_body_cases (rec : string → H Z) x h :
  (∀ x h, I h → ∃ r h', rec x h = (r, h') ∧ I h' ∧ lamport_res x r) →
  I h → ∃ r h', _lamportTimestamp rec x h = (r, h') ∧ I h' ∧ lamport_res x r.
Proof.
  intros Hrec HI. unfold _lamportTimestamp.
  destruct (GetEvent_cases x h HI) as (rx & h1 & Hx & HI1 & Hrx). unfold bind at 1. rewrite Hx.
  destruct rx as [ex|err| |]; [destruct Hrx as [Hrx _]|exists (Err err), h1; by destruct Hrx|done..].
  destruct (lamport_self_cases rec (SelfParent ex) h1) as (rs & h2 & Hs & HI2 & Hrs); try done.
  { destruct (dag_self _ _ _ Hok _ _ Hrx) as [?|(p & ? & _)]; [by left|right; eauto]. }
  unfold bind at 1. rewrite Hs. destruct rs as [v| | |]; [|done..|by exists OutOfFuel, h2].
  pose proof (dag_other _ _ _ Hok _ _ Hrx) as Hop.
  change (OtherParent (skeleton ex)) with (OtherParent ex) in Hop.
  destruct (decide (OtherParent ex = "")) as [Hd|Hd].
  { eexists (Ok _), h2. split; [done|]. split; [done|]. simpl.
    replace v with (Z.max v (-1)).
    - eapply lamport_event; [exact Hrx|done|]. simpl.
      change (OtherParent (skeleton ex)) with (OtherParent ex). rewrite Hd. constructor.
    - assert (-1 ≤ v); [|lia]. destruct Hrs as [|p v Hne Hl]; [lia|].
      apply lamport_nonneg in Hl. lia. }
  destruct Hop as [|[eo Ho]]; [done|].
  destruct (GetEvent_cases (OtherParent ex) h2 HI2) as (ro & h3 & Hget & HI3 & Hro).
  unfold bind at 1 2, try. rewrite Hget.
  destruct ro as [op|err| |]; [|destruct Hro; congruence|done..].
  destruct (Hrec (OtherParent ex) h3 HI3) as (rw & h4 & Hw & HI4 & Hrw).
  unfold bind at 1. rewrite Hw. destruct rw as [w|err| |]; simpl in Hrw; [|congruence|done|].
  2:{ by exists OutOfFuel, h4. }
  eexists (Ok _), h4. split; [done|]. split; [done|]. simpl.
  replace (if v <? w then w else v) with (Z.max v w) by (destruct (Z.ltb_spec v w); lia).
  eapply lamport_event; [exact Hrx|done|]. by constructor.
Qed.

Lemma lamport_cases fuel x h : I h →
  ∃ r h', lamportTimestamp fuel x h = (r, h') ∧ I h' ∧ lamport_res x r.
Proof.
  revert x h. induction fuel as [|fuel IH]; intros x h HI.
  { by exists OutOfFuel, h. }
  apply (memoised_cases N g pec n timestampCache set_timestampCache (lamport g) x); try done.
  - intros h1 HI1. by apply get_tables in HI1 as (_ & ? & _).
  - apply put_timestamp.
  - intros h1 HI1. by apply lamport_body_cases.
Qed.

Lemma stable_lamport fuel x : stable (lamportTimestamp fuel x).
Proof. intros h HI. by destruct (lamport_cases fuel x h HI) as (r & h' & -> & ? & _). Qed.

(** ** Strongly seeing, rounds and witnesses *)
Definition ss_res x y ps (r : res bool) : Prop :=
  match r with
  | Ok b => b = true → ∃ ps', PS_Hex ps' = PS_Hex ps ∧ strongly_sees g x y ps'
  | Err _ => True
  | _ => False
  end.

Lemma _stronglySee_cases x y ps h : I h →
  ∃ r h', _stronglySee x y ps h = (r, h') ∧ I h' ∧
    match r with
    | Ok b => b = true → strongly_sees g x y ps
    | Err _ => True
    | _ => False
    end.
Proof.
  intros HI. unfold _stronglySee, bind.
  destruct (GetEvent_cases x h HI) as (rx & h1 & -> & HI1 & Hrx).
  destruct rx as [ex|err| |]; [|by exists (Err err), h1|done..].
  destruct (GetEvent_cases y h1 HI1) as (ry & h2 & -> & HI2 & Hry).
  destruct ry as [ey|err| |]; [|by exists (Err err), h2|done..].
  eexists (Ok _), h2. split; [done|]. split; [done|]. intros Hc%Z.leb_le.
  destruct Hrx as [Hrx _], Hry as [_ Hfd]. by eapply (ss_count_sound _ _ _ _ _ (skeleton ex)).
Qed.

Lemma stronglySee_cases x y ps h : I h →
  (PS_Hex ps = Panic ∨ PS_Hex ps = OutOfFuel ∨ ∃ e, PS_Hex ps = Err e) ∨
  ∃ r h', stronglySee x y ps h = (r, h') ∧ I h' ∧ ss_res x y ps r.
Proof.
  intros HI. unfold stronglySee, bind, lift.
  destruct (PS_Hex ps) as [hex|e| |] eqn:Hhex; [right|left; eauto..].
  apply (memoised_cases N g pec n stronglySeeCache set_stronglySeeCache (ss_ok g) (x, y, hex)).
  - intros h1 HI1. by apply get_tables in HI1 as (_ & _ & ?).
  - apply put_stronglySee.
  - intros b. unfold ss_res, ss_ok. simpl. by rewrite Hhex.
  - intros h1 HI1. destruct (_stronglySee_cases x y ps h1 HI1) as (r & h2 & Hr & HI2 & Hrr).
    exists r, h2. split; [done|]. split; [done|]. destruct r; try done. intros Hb. eauto.
  - done.
Qed.

Lemma stable_stronglySee x y ps : stable (stronglySee x y ps).
Proof.
  intros h HI. destruct (stronglySee_cases x y ps h HI) as [Hp|(r & h' & -> & ? & _)]; [|done].
  unfold stronglySee, bind, lift. by destruct Hp as [->|[->|[? ->]]].
Qed.

Lemma stable_round fuel x : stable (round fuel x).
Proof.
  revert x. induction fuel as [|fuel IH]; intros x; simpl; [apply respects_diverge, _|].
  apply stable_memoised; [done|]. unfold _round.
  respects_go; auto using stable_stronglySee.
Qed.

Lemma stable_witness fuel x : stable (witness fuel x).
Proof.
  apply stable_memoised; [done|]. unfold _witness.
  respects_go; auto using stable_round.
Qed.

(** ** The walk down the ancestors *)
Lemma put_fd_sound event a ah :
  is_Some (g !! Hex event) → reach g (Hex event) ah →
  (∀ z, g !! Hex event = Some z → Creator z = Creator event ∧ Index z = Index event) →
  fd_sound g ah (ev_firstDescendants a) →
  fd_sound g ah (ev_firstDescendants (put_firstDescendant event a)).
Proof.
  intros [z Hz] Hr Hsame Ha p c. simpl. destruct (decide (p = Creator event)) as [->|Hne].
  - rewrite lookup_insert_eq. intros [= <-]. destruct (Hsame _ Hz). exists z. done.
  - rewrite lookup_insert_ne by done. apply Ha.
Qed.

(** The event whose descendants are recorded is in the graph and reaches
    where the walk starts. *)
Definition walks event (ah : string) : Prop :=
  is_Some (g !! Hex event) ∧
  (∀ z, g !! Hex event = Some z → Creator z = Creator event ∧ Index z = Index event) ∧
  (is_Some (g !! ah) → reach g (Hex event) ah).

Lemma walks_parent event ah a :
  walks event ah → g !! ah = Some a → walks event (SelfParent a).
Proof.
  intros (Hk & Hs & Hr) Ha. split; [done|]. split; [done|]. intros Hp.
  etrans; [apply Hr; eauto|]. apply rtc_once. exists a. eauto.
Qed.

Lemma stable_walk fuel k event ah : walks event ah → stable (walk_descendants fuel k event ah).
Proof.
  revert ah. induction k as [|k IH]; intros ah Hw; simpl; [apply respects_diverge, _|].
  apply (keeps_of_hoare _ (λ _, I)); [|done].
  eapply hoare_bind.
  { eapply hoare_fail; [apply hoare_try_GetEvent|]. by intros ? []. }
  intros [a|err]; simpl; [|apply hoare_ret; tauto].
  apply hoare_pure. intros [Ha Hfd].
  destruct (ev_firstDescendants a !! Creator event); [by apply hoare_ret|].
  apply hoare_of_keeps.
  assert (Hex a = ah) as Hah by (rewrite <-skeleton_Hex; by eapply dag_hex).
  pose proof (walks_parent _ _ _ Hw Ha) as Hw'. destruct Hw as (Hk & Hs & Hr).
  assert (∀ a', fd_sound g ah (ev_firstDescendants a') →
    fd_sound g ah (ev_firstDescendants (put_firstDescendant event a'))) as Hput.
  { intros a'. apply put_fd_sound; eauto. }
  apply (respects_bind _); [by apply stable_mutEvent|intros []].
  apply (respects_bind _); [|intros []].
  { apply stable_SetEvent;
      change (Hex (put_firstDescendant event a)) with (Hex a); rewrite Hah; [done|by apply Hput]. }
  apply (respects_bind _); [apply respects_try; apply stable_witness|].
  intros [[]|]; [apply respects_ret, _|auto..].
Qed.

Lemma stable_updateAncestor fuel event :
  g !! Hex event = Some (skeleton event) → stable (updateAncestorFirstDescendant fuel event).
Proof.
  intros He. unfold updateAncestorFirstDescendant, forM.
  apply (keeps_of_hoare _ (λ _, I)); [|done].
  apply (hoare_foldM (λ _, I)). intros _ [p c] Hin. apply hoare_of_keeps, stable_walk.
  split; [eauto|]. split; [rewrite He; by intros z [= <-]|]. intros _.
  rewrite (range_perm (ev_lastAncestors event)) in Hin. apply elem_of_map_to_list in Hin.
  by destruct (dag_la_sound _ _ _ Hok _ _ _ _ He Hin) as (z & _ & _ & _ & ?).
Qed.
End graph_steps.
