(* ===== verification/Insert.v ===== *)
(** * Inserting an event

    [InsertEvent] with the checks it makes, over any store that satisfies
    [StoreLaws]: when the event is new, carries the next index of its creator
    and the event cache has room, the graph grows by exactly that event and
    the invariant holds again; when the insertion fails the graph is what it
    was. *)
From S2P Require Export Inv.

Section insert.
Context {KP : Keys} {CP : Codec} {RO : RangeOrder}.
Context {St : Type} {STO : Store St} {LAW : StoreLaws St}.
Abbreviation H := (GoM error (Hashgraph St)).
Implicit Types (h : Hashgraph St) (e : Event).

(** The same serialized body, the same place in the local order, and the same
    round and round received. *)
Definition ev_like e e' : Prop :=
  eb_public (ev_Body e') = eb_public (ev_Body e) ∧
  ev_topologicalIndex e' = ev_topologicalIndex e ∧ ev_round e' = ev_round e ∧
  ev_roundReceived e' = ev_roundReceived e.

Lemma public_fields e e' : eb_public (ev_Body e') = eb_public (ev_Body e) →
  Hex e' = Hex e ∧ Creator e' = Creator e ∧ Index e' = Index e ∧
  SelfParent e' = SelfParent e ∧ OtherParent e' = OtherParent e.
Proof.
  intros Hp. unfold Hex, EventBody_Hash, Creator, Index, SelfParent, OtherParent.
  rewrite Hp. unfold eb_public in Hp. injection Hp as _ _ -> -> -> _ _. done.
Qed.

(** The index the event must carry. *)
Definition well_indexed (g : gmap string Event) e : Prop :=
  0 ≤ Index e ∧
  (SelfParent e = "" ∨ ∀ p, g !! SelfParent e = Some p → Index e = Index p + 1).

(** What [checkSelfParent] establishes. *)
Definition sp_checked (pec : ParticipantEventsCache) e : Prop :=
  (∃ err, PEC_GetLast pec (Creator e) = Err err ∧ IsStore err Empty = true ∧
     SelfParent e = "") ∨
  PEC_GetLast pec (Creator e) = Ok (SelfParent e).

Lemma ri_at_last_None (items : RollingIndex string) :
  ri_wf items → ri_at items (lastIndex items) = None → lastIndex items = -1.
Proof.
  intros Hwf Hat. destruct (Z.eq_dec (lastIndex items) (-1)) as [|Hne]; [done|].
  assert (is_Some (ri_at items (lastIndex items))) as [? ?]; [|congruence].
  apply ri_at_Some. destruct Hwf as (_ & _ & Hold & [?|Hitems]); [done|].
  unfold oldest, zlen in *. destruct (ri_items items); [done|]. simpl. lia.
Qed.

Lemma ri_at_last_Some (items : RollingIndex string) a :
  ri_wf items → ri_at items (lastIndex items) = Some a → lastIndex items ≠ -1.
Proof.
  intros (_ & _ & Hold & _) Hat. assert (is_Some (ri_at items (lastIndex items))) as Hs by eauto.
  apply ri_at_Some in Hs. lia.
Qed.

Section steps.
Context (N : Z) (g : gmap string Event) (pec : ParticipantEventsCache) (n : Z).
Context (Hok : dag_ok g pec n) (Hpec : pec_ok pec).
Abbreviation I := (Ist N g pec n).

(** The checks make a well-indexed event well-parented, and its window ready
    for the next index. *)
Lemma checked_well_parented e :
  sp_checked pec e → well_indexed g e →
  OtherParent e = "" ∨ is_Some (g !! OtherParent e) →
  well_parented g e ∧
  ∃ items, window pec (Creator e) = Some items ∧
    (lastIndex items = -1 ∨ Index e = lastIndex items + 1).
Proof.
  intros Hsp (H0 & Hwi) Hop. pose proof (PEC_GetLast_spec pec (Creator e) Hpec) as Hlast.
  destruct (window pec (Creator e)) as [items|] eqn:Hw.
  2:{ destruct Hlast as (er & Hl & HE). destruct Hsp as [(err & ? & ? & ?)|?]; congruence. }
  pose proof (window_wf _ _ _ Hpec Hw) as Hwf.
  destruct (ri_at items (lastIndex items)) as [l|] eqn:Hat.
  - pose proof (ri_at_last_Some _ _ Hwf Hat) as Hne.
    destruct (dag_window _ _ _ Hok _ _ Hw Hne) as (k & p & Hk & Hp & Hcp & Hip).
    rewrite Creator_upper in Hcp. assert (k = l) as -> by congruence.
    destruct Hsp as [(err & ? & ? & ?)|Hsp]; [congruence|].
    assert (SelfParent e = l) as Hl by congruence. rewrite <-Hl in *.
    assert (Index e = Index p + 1) as Hi.
    { destruct Hwi as [Hempty|Hwi]; [|by apply Hwi].
      rewrite Hempty, (dag_empty_key _ _ _ Hok) in Hp. done. }
    split; [|exists items; split; [done|right; lia]]. split; [|done]. right.
    exists p. split; [done|]. split; [done|]. split; [done|]. intros k' e' Hk' Hc'.
    destruct (dag_last _ _ _ Hok _ _ Hk') as (_ & it & Hit & Hle).
    rewrite Hc', Hw in Hit. injection Hit as <-. lia.
  - apply (ri_at_last_None _ Hwf) in Hat. destruct Hlast as (er & Hl & HE).
    destruct Hsp as [(err & _ & _ & Hs)|?]; [|congruence].
    split; [|exists items; auto]. split; [|done]. left. split; [done|].
    intros k' e' Hk' Hc'. destruct (dag_last _ _ _ Hok _ _ Hk') as (? & it & Hit & Hle).
    rewrite Hc', Hw in Hit. injection Hit as <-. lia.
Qed.

Lemma hoare_checkSelfParent e :
  hoare I (checkSelfParent e) (λ _ h, I h ∧ sp_checked pec e) I.
Proof.
  intros h HI. assert (LastEventFrom (hg_Store h) (Creator e) = PEC_GetLast pec (Creator e)) as Hl.
  { rewrite LastEventFrom_law. destruct HI as (_ & _ & _ & Hp & _). by rewrite <-Hp. }
  unfold checkSelfParent, readStoreR, bind, try, gets, lift. rewrite Hl.
  destruct (PEC_GetLast pec (Creator e)) as [l|err| |] eqn:Hg; [| |done|done].
  - case_decide as Hd; [|done]. split; [done|]. right. congruence.
  - destruct (IsStore err Empty) eqn:HE; simpl; [|done].
    case_bool_decide; [|done]. split; [done|]. left. eauto.
Qed.

Lemma hoare_checkOtherParent e :
  hoare I (checkOtherParent e)
    (λ _ h, I h ∧ (OtherParent e = "" ∨ is_Some (g !! OtherParent e))) I.
Proof.
  unfold checkOtherParent. case_decide as Hd; [apply hoare_ret; auto|].
  eapply hoare_bind; [eapply hoare_fail; [apply hoare_try_GetEvent|by intros ? []]|].
  intros [op|err]; simpl; [apply hoare_ret|apply hoare_throw; tauto].
  intros h (? & ? & _). eauto.
Qed.

(** [SetWireInfo] only fills in fields that are not serialized. *)
Lemma hoare_SetWireInfo e :
  hoare I (SetWireInfo e) (λ e' h, I h ∧ ev_like e e') I.
Proof.
  intros h HI. destruct (SetWireInfo e h) as [r h'] eqn:Hrun.
  assert (I h') as HI'.
  { assert (respects (keeps I) (SetWireInfo e)) as Hst.
    { unfold SetWireInfo. respects_go. }
    specialize (Hst h HI). by rewrite Hrun in Hst. }
  destruct r as [e'|err| |]; [|done..]. split; [done|].
  unfold SetWireInfo in Hrun. apply bind_Ok in Hrun as (rep & h1 & _ & Hrun).
  destruct (rep !! Creator e); [|by apply throw_Ok in Hrun].
  repeat (apply bind_Ok in Hrun as (? & ? & _ & Hrun)).
  apply ret_Ok in Hrun as [<- _]. done.
Qed.

(** The coordinates of a new event are those of its parents, merged. *)
Lemma merged_spec (e sp op : Event) (la1 la2 : CoordinatesMap) :
  g !! SelfParent e = Some sp → g !! OtherParent e = Some op →
  ev_lastAncestors sp = la1 → ev_lastAncestors op = la2 →
  la_merged g e (merge_coordinates la1 la2).
Proof.
  intros Hsp Hop <- <-. split.
  - intros p ep c q [<-|<-] Hep Hc; rewrite merge_coordinates_lookup; simplify_eq.
    + rewrite Hc. destruct (ev_lastAncestors op !! q) as [o|]; simpl; [|eauto using Z.le_refl].
      case_match eqn:Hlt; eexists; (split; [done|lia]).
    + rewrite Hc. destruct (ev_lastAncestors sp !! q) as [s|]; simpl; [|eauto using Z.le_refl].
      case_match eqn:Hlt; eexists; (split; [done|lia]).
  - intros q c. rewrite merge_coordinates_lookup.
    destruct (ev_lastAncestors sp !! q) as [s|] eqn:Hs,
      (ev_lastAncestors op !! q) as [o|] eqn:Ho; simpl; [case_match|..]; intros; simplify_eq;
      first [exists (SelfParent e), sp; by eauto | exists (OtherParent e), op; by eauto].
Qed.

Lemma merged_one (e ep : Event) (p q : string) :
  (SelfParent e = p ∧ OtherParent e = q ∨ SelfParent e = q ∧ OtherParent e = p) →
  g !! p = Some ep → g !! q = None → la_merged g e (ev_lastAncestors ep).
Proof.
  intros Hpq Hp Hq. split.
  - intros p' ep' c x Hor Hp' Hc.
    assert (p' = p) as -> by (destruct Hpq as [[? ?]|[? ?]], Hor; congruence).
    simplify_eq. eauto using Z.le_refl.
  - intros x c Hc. exists p, ep. destruct Hpq as [[? ?]|[? ?]]; eauto.
Qed.

Lemma merged_none (e : Event) :
  g !! SelfParent e = None → g !! OtherParent e = None → la_merged g e ∅.
Proof.
  intros Hs Ho. split; [|intros q c; by rewrite lookup_empty].
  intros p ep c q [<-|<-] Hep; congruence.
Qed.

Lemma hoare_initEventCoordinates e :
  hoare I (initEventCoordinates e)
    (λ e' h, I h ∧ ev_like e e' ∧ ∃ la, la_merged g e la ∧
       ev_lastAncestors e' = <[Creator e := mkCoord (Hex e) (Index e)]> la ∧
       ev_firstDescendants e' = <[Creator e := mkCoord (Hex e) (Index e)]> ∅) I.
Proof.
  unfold initEventCoordinates.
  eapply hoare_bind; [eapply hoare_fail; [apply hoare_try_GetEvent|by intros ? []]|].
  intros rs. simpl. apply hoare_pure. intros Hs.
  eapply hoare_bind; [eapply hoare_fail; [apply hoare_try_GetEvent|by intros ? []]|].
  intros ro. simpl. apply hoare_pure. intros Ho.
  apply hoare_ret. intros h HI. split; [done|]. split; [done|].
  eexists. split; [|split; simpl; reflexivity].
  destruct rs as [sp|], ro as [op|]; unfold CoordinatesMap_Copy, NewCoordinatesMap;
    [destruct Hs as [Hs _], Ho as [Ho _]|destruct Hs as [Hs _]|destruct Ho as [Ho _]|].
  - by eapply merged_spec.
  - apply (merged_one _ (skeleton sp) (SelfParent e) (OtherParent e)); auto.
  - apply (merged_one _ (skeleton op) (OtherParent e) (SelfParent e)); auto.
  - by apply merged_none.
Qed.
End steps.

Lemma hg_inv_intro N g pec n h :
  pec_ok pec → 0 ≤ n → dag_ok g pec n → Ist N g pec n h →
  hg_inv h ∧ v_size (hv h) = N ∧ graph h = g.
Proof.
  intros Hpec Hn Hok HI. destruct (HI) as (Hs & HN & Hg & Hp & Ht & Hmo & Hfd).
  unfold hg_inv. rewrite HN, Hg, Hp, Ht. done.
Qed.

Lemma lamport_insert g e x v :
  g !! Hex e = None → lamport g x v → lamport (<[Hex e := e]> g) x v.
Proof.
  intros Hfresh Hl. induction Hl using lamport_ind2 with
    (P0 := λ p v _, lamport_parent (<[Hex e := e]> g) p v); [|constructor|by constructor].
  econstructor; [|done..]. rewrite lookup_insert_ne; [done|]. intros Heq. congruence.
Qed.

Lemma memo_ok_insert g pec n e m :
  dag_ok g pec n → g !! Hex e = None → memo_ok g m → memo_ok (<[Hex e := e]> g) m.
Proof.
  intros Hok Hfresh ([Hwf Hmo] & [Hwf' Hmo'] & [Hwf'' Hmo'']).
  split; [split|split; split]; [done| |done| |done|].
  - intros [x y] b Hl. destruct (Hmo (x, y) b Hl) as [?|(Hx & Hy & Hb)]; [by left|right].
    simpl in *. rewrite (reach_old _ _ _ Hok _ Hfresh x y Hx).
    rewrite !lookup_insert_is_Some'. auto.
  - intros x v Hl. apply lamport_insert; [done|]. by apply Hmo'.
  - intros k b Hl Hb. destruct (Hmo'' k b Hl Hb) as (ps & Hps & Hss). exists ps.
    split; [done|]. by apply strongly_sees_mono.
Qed.

Lemma fds_ok_insert g e evs :
  g !! Hex e = None → fds_ok g evs →
  fd_sound (<[Hex e := skeleton e]> g) (Hex e) (ev_firstDescendants e) →
  fds_ok (<[Hex e := skeleton e]> g) (<[Hex e := e]> evs).
Proof.
  intros Hfresh Hfds He y e'. destruct (decide (y = Hex e)) as [->|Hne].
  - rewrite lookup_insert_eq. by intros [= <-].
  - rewrite lookup_insert_ne by done. intros Hy p c Hc.
    destruct (Hfds y e' Hy p c Hc) as (z & Hz & ? & ? & Hr). exists z.
    split; [by apply (insert_old g (skeleton e))|]. split; [done|]. split; [done|].
    by apply (reach_mono g (skeleton e)).
Qed.

(** The new event is stored. *)
Lemma SetEvent_new N g pec n e (la : CoordinatesMap) :
  dag_ok g pec n → pec_ok pec → 0 ≤ n →
  g !! Hex e = None → well_parented g e → 0 ≤ Index e →
  (∃ items, window pec (Creator e) = Some items ∧
     (lastIndex items = -1 ∨ Index e = lastIndex items + 1)) →
  Z.of_nat (size g) < N → ev_topologicalIndex e = n →
  la_merged g e la → ev_lastAncestors e = <[Creator e := mkCoord (Hex e) (Index e)]> la →
  ev_firstDescendants e = <[Creator e := mkCoord (Hex e) (Index e)]> ∅ →
  ∃ pec', pec_ok pec' ∧ dag_ok (<[Hex e := skeleton e]> g) pec' (n + 1) ∧
    ∀ h, Ist N g pec (n + 1) h → ∃ h', onStore (SetEvent e) h = (Ok tt, h') ∧
      Ist N (<[Hex e := skeleton e]> g) pec' (n + 1) h' ∧
      ∃ s, h' = set_Store s h ∧
        hv h' = with_events (<[Hex e := e]> (v_events (hv h))) (with_pec pec' (hv h)).
Proof.
  intros Hok Hpec Hn Hfresh Hwp H0 (items & Hw & Hnext) Hroom Htopo Hla Hela Hefd.
  destruct (PEC_Set_spec pec (Creator e) (Hex e) (Index e) items Hpec Hw H0 Hnext)
    as (pec' & items' & Hset & Hpec' & Hw' & Hlast & Hat & _ & Hothers & _).
  exists pec'. split; [done|]. split.
  { apply (dag_ok_insert g pec n Hok (skeleton e) Hfresh Hwp la Hla Hela pec' items'); try done.
    - intros c Hc. apply Hothers. by rewrite Creator_upper.
    - intros c c'. apply window_case. }
  intros h (Hs & HN & Hg & Hp & Ht & Hmo & Hfds). unfold onStore, zoom.
  assert (v_events (store_view (hg_Store h)) !! Hex e = None) as Hnone.
  { rewrite <-Hg in Hfresh. unfold graph, hv in Hfresh. rewrite lookup_fmap in Hfresh.
    by destruct (v_events _ !! Hex e). }
  assert (PEC_Set (Creator e) (Hex e) (Index e) (v_pec (store_view (hg_Store h))) = (Ok tt, pec'))
    as Hset' by (change (v_pec (store_view (hg_Store h))) with (v_pec (hv h)); by rewrite Hp).
  destruct (SetEvent_new_law e (hg_Store h) _ _ Hs Hnone Hset') as (Hr & Hs' & evs & Hb & Hv').
  destruct (SetEvent e (hg_Store h)) as [r s']. simpl in *. rewrite Hr.
  destruct Hb as (_ & _ & Hb & _). unfold hv in HN. rewrite HN in Hb.
  assert (evs = <[Hex e := e]> (v_events (store_view (hg_Store h)))) as ->.
  { apply Hb. right. rewrite <-Hg in Hroom. unfold graph, hv in Hroom.
    by rewrite map_size_fmap in Hroom. }
  exists (set_Store s' h). split; [done|]. split; [|by exists s'].
  unfold Ist, graph, hv in *. simpl. rewrite Hv'. simpl. split; [done|]. split; [done|].
  rewrite fmap_insert, Hg. split; [done|]. split; [done|]. split; [done|].
  split; [by apply (memo_ok_insert g pec n (skeleton e))|].
  apply fds_ok_insert; [done|done|]. rewrite Hefd. intros p c.
  rewrite lookup_insert_Some, lookup_empty. intros [[<- <-]|[_ ?]]; [|done].
  exists (skeleton e). rewrite lookup_insert_eq. repeat split. apply rtc_refl.
Qed.

Definition same_graph (h0 h : Hashgraph St) : Prop :=
  hg_inv h ∧ v_size (hv h) = v_size (hv h0) ∧ graph h = graph h0.
Definition grown (h0 : Hashgraph St) e (h : Hashgraph St) : Prop :=
  hg_inv h ∧ v_size (hv h) = v_size (hv h0) ∧
  ∃ e', eb_public (ev_Body e') = eb_public (ev_Body e) ∧
    graph h = <[Hex e := skeleton e']> (graph h0).

(** The rest of the insertion, once the event is stored. *)
Lemma stable_after_store N g pec n fuel event :
  dag_ok g pec n → g !! Hex event = Some (skeleton event) →
  respects (E:=error) (keeps (Ist N g pec n)) (
    wrap "UpdateAncestorFirstDescendant" (updateAncestorFirstDescendant fuel event) ;;;
    modify (λ h, set_UndeterminedEvents (UndeterminedEvents h ++ [Hex event]) h) ;;;
    (if IsLoaded event then modify (add_PendingLoadedEvents 1) else ret tt) ;;;
    forM (BlockSignatures event) (λ bs,
        modify (λ h, set_PendingSignatures (SP_Add (PendingSignatures h) bs) h)) ;;;
    ret event).
Proof.
  intros Hok He. apply (respects_bind _); [apply respects_wrap; by apply stable_updateAncestor|].
  intros []. respects_go; apply stable_fields; done.
Qed.

Lemma hoare_pre_eq {A} (P : Hashgraph St → Prop) Q F (m : H A) h0 :
  P h0 → hoare P m Q F → hoare (λ h, h = h0) m Q F.
Proof. intros HP Hm h ->. by apply Hm. Qed.

Lemma hoare_wrap {A} P Q F prefix (m : H A) :
  hoare P m Q F → hoare P (wrap prefix m) Q F.
Proof. intros Hm h Hh. specialize (Hm h Hh). unfold wrap. by destruct (m h) as [[]]. Qed.

Section insertion.
Context (h0 : Hashgraph St) (e : Event) (Hinv : hg_inv h0).
Context (Hfresh : graph h0 !! Hex e = None) (Hwi : well_indexed (graph h0) e).
Context (Hroom : Z.of_nat (size (graph h0)) < v_size (hv h0)).
Abbreviation N := (v_size (hv h0)).
Abbreviation g := (graph h0).
Abbreviation pec := (v_pec (hv h0)).
Abbreviation n := (topologicalIndex h0).
Definition insert_failed h : Prop := same_graph h0 h ∨ grown h0 e h.

Lemma failed_same n' h : n ≤ n' → Ist N g pec n' h → insert_failed h.
Proof.
  intros Hle HI'. destruct (Hinv) as (Hpec & Hn & Hok & _). left.
  apply (hg_inv_intro N g pec n'); try done; [lia|]. by eapply dag_ok_mono.
Qed.

(** The event, its coordinates set, is stored. *)
Lemma hoare_store_event fuel e3 la :
  eb_public (ev_Body e3) = eb_public (ev_Body e) → ev_topologicalIndex e3 = n →
  well_parented g e →
  (∃ items, window pec (Creator e) = Some items ∧
     (lastIndex items = -1 ∨ Index e = lastIndex items + 1)) →
  la_merged g e la → ev_lastAncestors e3 = <[Creator e := mkCoord (Hex e) (Index e)]> la →
  ev_firstDescendants e3 = <[Creator e := mkCoord (Hex e) (Index e)]> ∅ →
  hoare (Ist N g pec (n + 1)) (
      wrap "SetEvent" (onStore (SetEvent e3)) ;;;
      wrap "UpdateAncestorFirstDescendant" (updateAncestorFirstDescendant fuel e3) ;;;
      modify (λ h, set_UndeterminedEvents (UndeterminedEvents h ++ [Hex e3]) h) ;;;
      (if IsLoaded e3 then modify (add_PendingLoadedEvents 1) else ret tt) ;;;
      forM (BlockSignatures e3) (λ bs,
          modify (λ h, set_PendingSignatures (SP_Add (PendingSignatures h) bs) h)) ;;;
      ret e3)
    (λ e' h, e' = e3 ∧ grown h0 e h) insert_failed.
Proof.
  intros Hpub Htopo Hwp Hwin Hla Hela Hefd. destruct (Hinv) as (Hpec & Hn & Hok & _).
  destruct (public_fields _ _ Hpub) as (Hhex & Hcr & Hix & Hsp3 & Hop3).
  destruct (SetEvent_new N g pec n e3 la) as (pec' & Hpec' & Hok' & Hset); try done.
  { by rewrite Hhex. }
  { unfold well_parented. by rewrite Hsp3, Hop3, Hcr, Hix. }
  { rewrite Hix. apply Hwi. }
  { by rewrite Hcr, Hix. }
  { unfold la_merged in *. by rewrite Hsp3, Hop3. }
  { by rewrite Hela, Hcr, Hhex, Hix. }
  { by rewrite Hefd, Hcr, Hhex, Hix. }
  set (g' := <[Hex e3 := skeleton e3]> g) in *.
  assert (∀ h, Ist N g' pec' (n + 1) h → grown h0 e h) as Hgrown.
  { intros h HI'. destruct (hg_inv_intro N g' pec' (n + 1) h) as (? & ? & ?); try done; [lia|].
    split; [done|]. split; [done|]. exists e3. by rewrite <-Hhex. }
  apply (hoare_bind _ (λ _, Ist N g' pec' (n + 1))).
  { apply hoare_wrap. intros h HI. by destruct (Hset h HI) as (h' & -> & ? & _). }
  intros []. intros h HI'.
  pose proof (stable_after_store N g' pec' (n + 1) fuel e3 Hok' (lookup_insert_eq _ _ _) h HI')
    as HI''.
  match goal with |- match ?m h with _ => _ end => destruct (m h) as [r h'] eqn:Hrun end.
  unfold insert_failed. simpl in HI''. destruct r as [e'|err| |]; auto.
  split; [|by apply Hgrown]. repeat (apply bind_Ok in Hrun as (? & ? & _ & Hrun)).
  by apply ret_Ok in Hrun as [<- _].
Qed.

Lemma hoare_insert_checked fuel w :
  well_parented g e →
  (∃ items, window pec (Creator e) = Some items ∧
     (lastIndex items = -1 ∨ Index e = lastIndex items + 1)) →
  hoare (Ist N g pec n) (insert_checked fuel e w)
    (λ e' h, eb_public (ev_Body e') = eb_public (ev_Body e) ∧ grown h0 e h) insert_failed.
Proof.
  intros Hwp Hwin. destruct (Hinv) as (Hpec & Hn & Hok & _). unfold insert_checked.
  assert (dag_ok g pec (n + 1)) as Hok1 by (eapply dag_ok_mono; [done|lia]).
  assert (∀ h, Ist N g pec (n + 1) h → insert_failed h) as HF
    by (intros; apply (failed_same (n + 1)); [lia|done]).
  apply (hoare_bind _ (λ ti h, Ist N g pec n h ∧ ti = n)).
  { apply hoare_gets. intros h (? & ? & ? & ? & Ht & ?). split; done. }
  intros ti. apply hoare_pure. intros ->. cbv zeta.
  apply (hoare_bind _ (λ _, Ist N g pec (n + 1))).
  { apply hoare_modify. intros h (? & ? & ? & ? & Ht & ?). done. }
  intros []. set (e1 := set_topologicalIndex e n).
  apply (hoare_bind _ (λ e2 h, Ist N g pec (n + 1) h ∧ ev_like e1 e2)).
  { destruct w; [|by apply hoare_ret]. apply hoare_wrap. eapply hoare_fail; [|exact HF].
    by apply hoare_SetWireInfo. }
  intros e2. apply hoare_pure. intros (Hpub2 & Htopo2 & _).
  eapply hoare_bind.
  { apply hoare_wrap. eapply hoare_fail; [by apply hoare_initEventCoordinates|exact HF]. }
  intros e3. simpl. apply hoare_pure. intros ((Hpub3 & Htopo3 & _) & la & Hla & Hela & Hefd).
  destruct (public_fields _ _ Hpub2) as (Hhex2 & Hcr2 & Hix2 & Hsp2 & Hop2).
  assert (eb_public (ev_Body e3) = eb_public (ev_Body e)) as Hpub
    by (rewrite Hpub3, Hpub2; done).
  eapply hoare_conseq; [apply (hoare_store_event fuel e3 la); try done|done| |done].
  - by rewrite Htopo3, Htopo2.
  - unfold la_merged in *. by rewrite Hsp2, Hop2 in Hla.
  - rewrite Hela, Hcr2, Hhex2, Hix2. done.
  - rewrite Hefd, Hcr2, Hhex2, Hix2. done.
  - intros e' h [-> ?]. done.
Qed.

Lemma InsertEvent_graph fuel w :
  hoare (λ h, h = h0) (InsertEvent fuel e w)
    (λ e' h, eb_public (ev_Body e') = eb_public (ev_Body e) ∧ grown h0 e h) insert_failed.
Proof.
  destruct (Hinv) as (Hpec & Hn & Hok & HI).
  assert (∀ h, Ist N g pec n h → insert_failed h) as HF
    by (intros; apply (failed_same n); [lia|done]).
  apply (hoare_pre_eq (Ist N g pec n)); [done|]. unfold InsertEvent.
  eapply hoare_bind; [apply (hoare_lift _ (λ _, Ist N g pec n)); [by auto|exact HF]|].
  intros ok. eapply (hoare_bind _ (λ _, Ist N g pec n)).
  { destruct ok; [by apply hoare_ret|by apply hoare_throw]. }
  intros []. eapply hoare_bind; [eapply hoare_fail; [apply hoare_checkSelfParent|exact HF]|].
  intros []. simpl. apply hoare_pure. intros Hsp.
  eapply hoare_bind; [eapply hoare_fail; [apply hoare_checkOtherParent|exact HF]|].
  intros []. simpl. apply hoare_pure. intros Hop.
  destruct (checked_well_parented g pec n Hok Hpec e Hsp Hwi Hop) as [Hwp Hwin].
  by apply hoare_insert_checked.
Qed.
End insertion.
End insert.
