(* ===== verification/Ledger.v ===== *)
(** * The rounds that a graph determines

    [round_of] is the round of an event and whether it is a witness, as a
    function of the graph of events and of the rounds of the event's
    ancestors: the reference for what [round] and [witness] compute from
    coordinates, caches and recorded rounds. [ledger g L] says that [L] gives
    every event of [g] the round it has by that function.

    [round_of_ancestors]: the round of an event only depends on its ancestors,
    so two graphs that both have the event give it the same round
    ([ledgers_agree]), and a graph keeps the rounds of its events when it
    grows ([ledger_insert]). *)
From S2P Require Export Insert.

Section ledger.
Context {KP : Keys} {CP : Codec} {RO : RangeOrder}.
Context (ps : PeerSet).
Implicit Types (g : gmap string Event) (L : gmap string (Z * bool)) (e : Event).

(** The comparison of [_ancestor]. *)
Definition sees ex ey : bool :=
  match ev_lastAncestors ex !! Creator ey with
  | Some c => Index ey <=? ec_Index c
  | None => false
  end.
Definition rnd L (p : string) : Z :=
  if decide (p = "") then -1 else default 0 (fst <$> L !! p).
Definition wit L (v : string) : bool := default false (snd <$> L !! v).

(** The insertion of [ek] records itself as first descendant of [ey]: it sees
    [ey], and none of the witnesses that its creator made after it. *)
Definition marks g L ek ey : bool :=
  sees ek ey &&
  (bool_decide (Hex ek = Hex ey) || bool_decide (Creator ek ≠ Creator ey)) &&
  bool_decide (map_Forall (λ v ev,
    Creator ev = Creator ey → Index ey < Index ev → sees ek ev = true → wit L v = false) g).

(** [p] has a recorded event between [ex] and [ey]. *)
Definition counted g L ex ey (p : string) : bool :=
  existsb (λ '(_, ek), bool_decide (Creator ek = p) && marks g L ek ey && sees ex ek)
    (map_to_list g).
Definition ss_of g L ex ey : bool :=
  SuperMajority ps <=? Z.of_nat (size (filter (λ p, counted g L ex ey p) (dom (ByPubKey ps)))).

(** The witnesses of round [r] that [x] strongly sees. *)
Definition seen_witnesses g L (x : string) ex (r : Z) : gset string :=
  dom (filter (λ '(w, ew), w ≠ x ∧ L !! w = Some (r, true) ∧ ss_of g L ex ew = true) g).

Definition round_of g L (x : string) ex : Z * bool :=
  let sp := rnd L (SelfParent ex) in
  let pr := Z.max sp (rnd L (OtherParent ex)) in
  let r := if pr =? -1 then 0
           else if SuperMajority ps <=? Z.of_nat (size (seen_witnesses g L x ex pr)) then pr + 1
           else pr in
  (r, bool_decide (is_Some (ByPubKey ps !! Creator ex)) && (sp <? r)).

Definition ledger g L : Prop :=
  (∀ x, is_Some (L !! x) ↔ is_Some (g !! x)) ∧
  (∀ x r w, L !! x = Some (r, w) → 0 ≤ r) ∧
  ∀ x ex, g !! x = Some ex → L !! x = Some (round_of g L x ex).

(** ** Only ancestors count *)
Lemma sees_reach g pec n x y ex ey :
  dag_ok g pec n → g !! x = Some ex → g !! y = Some ey → sees ex ey = true ↔ reach g x y.
Proof.
  intros Hok Hx Hy. rewrite (lastAncestors_reach _ _ _ Hok x y ex ey Hx Hy). unfold sees.
  destruct (ev_lastAncestors ex !! Creator ey) as [c|]; [|naive_solver].
  rewrite Z.leb_le. naive_solver.
Qed.
Lemma counted_spec g L ex ey p : counted g L ex ey p = true ↔
  ∃ k ek, g !! k = Some ek ∧ Creator ek = p ∧ marks g L ek ey = true ∧ sees ex ek = true.
Proof.
  unfold counted. rewrite existsb_exists. split.
  - intros ([k ek] & Hin & Hb). apply list_elem_of_In, elem_of_map_to_list in Hin.
    rewrite !andb_true_iff, bool_decide_eq_true in Hb. naive_solver.
  - intros (k & ek & Hk & Hc & Hm & Hs). exists (k, ek). split.
    + by apply list_elem_of_In, elem_of_map_to_list.
    + by rewrite Hm, Hs, bool_decide_eq_true_2.
Qed.
Lemma marks_spec g L ek ey : marks g L ek ey = true ↔
  sees ek ey = true ∧ (Hex ek = Hex ey ∨ Creator ek ≠ Creator ey) ∧
  ∀ v ev, g !! v = Some ev → Creator ev = Creator ey → Index ey < Index ev →
    sees ek ev = true → wit L v = false.
Proof.
  unfold marks. rewrite !andb_true_iff, orb_true_iff, !bool_decide_eq_true. unfold map_Forall.
  naive_solver.
Qed.

Lemma SuperMajority_pos : 1 ≤ SuperMajority ps.
Proof.
  unfold SuperMajority. pose proof (PS_Len_nonneg ps).
  assert (0 ≤ Z.quot (2 * PS_Len ps) 3) by (apply Z.quot_pos; lia). lia.
Qed.

(** What is strongly seen is an ancestor, through a peer. *)
Lemma ss_of_counted g L ex ey : ss_of g L ex ey = true → ∃ p, counted g L ex ey p = true.
Proof.
  unfold ss_of. intros Hs. apply Z.leb_le in Hs.
  assert (filter (λ p, counted g L ex ey p) (dom (ByPubKey ps)) ≠ ∅) as Hne.
  { intros Heq. rewrite Heq, size_empty in Hs. pose proof SuperMajority_pos. lia. }
  apply set_choose_L in Hne as [p Hp]. apply elem_of_filter in Hp as [Hp _]. exists p.
  by apply Is_true_true.
Qed.

(** Only one peer is on a path from an event to itself. *)
Lemma ss_of_self (Hsm : 2 ≤ SuperMajority ps) g pec n L (Hok : dag_ok g pec n) x ex :
  g !! x = Some ex → ss_of g L ex ex = false.
Proof.
  intros Hx. apply Z.leb_gt.
  assert (filter (λ p, counted g L ex ex p) (dom (ByPubKey ps)) ⊆ {[Creator ex]}) as Hsub.
  { intros p [Hp _]%elem_of_filter. apply Is_true_true, counted_spec in Hp as (k & ek & Hk & Hc & Hm & Hs).
    apply marks_spec in Hm as [Hm _]. apply (sees_reach g pec n k x ek ex) in Hm; [|done..].
    apply (sees_reach g pec n x k ex ek) in Hs; [|done..].
    assert (k = x) as -> by (by eapply (reach_antisym _ _ _ Hok k x)).
    assert (ek = ex) as -> by congruence. apply elem_of_singleton. congruence. }
  apply subseteq_size in Hsub. rewrite size_singleton in Hsub. lia.
Qed.

(** The same hash is the same event. *)
Definition same_events g g' : Prop :=
  ∀ k e e', g !! k = Some e → g' !! k = Some e' → eb_public (ev_Body e) = eb_public (ev_Body e').
Lemma same_events_sym g g' : same_events g g' → same_events g' g.
Proof. intros Hs k e e' He He'. symmetry. by eapply Hs. Qed.

Section reach.
Context g1 pec1 n1 g2 pec2 n2 (Hok1 : dag_ok g1 pec1 n1) (Hok2 : dag_ok g2 pec2 n2).
Context (Hsame : same_events g1 g2).

Lemma same_fields k e1 e2 : g1 !! k = Some e1 → g2 !! k = Some e2 →
  Hex e1 = Hex e2 ∧ Creator e1 = Creator e2 ∧ Index e1 = Index e2 ∧
  SelfParent e1 = SelfParent e2 ∧ OtherParent e1 = OtherParent e2.
Proof. intros H1 H2. apply public_fields. by apply (Hsame k). Qed.

Lemma reach_transfer x y : is_Some (g2 !! x) → reach g1 x y → is_Some (g2 !! y) ∧ reach g2 x y.
Proof.
  intros Hx Hr. induction Hr as [x|x z y (e1 & He1 & Hp & Hz) Hr IH]; [done|].
  destruct Hx as [e2 He2]. destruct (same_fields x e1 e2 He1 He2) as (_ & _ & _ & Hsp & Hop).
  assert (is_Some (g2 !! z)) as Hz2.
  { assert (z ≠ "") as Hne.
    { intros ->. rewrite (dag_empty_key _ _ _ Hok1) in Hz. by destruct Hz. }
    destruct Hp as [Hp|Hp].
    - destruct (dag_self _ _ _ Hok2 x e2 He2) as [?|(p & ? & _)]; [congruence|].
      exists p. congruence.
    - destruct (dag_other _ _ _ Hok2 x e2 He2) as [?|?]; congruence. }
  destruct (IH Hz2) as [Hy Hr2]. split; [done|]. eapply rtc_l; [|exact Hr2].
  exists e2. split; [done|]. split; [|done]. destruct Hp; [left|right]; congruence.
Qed.
End reach.

Section transfer.
Context g1 pec1 n1 L1 g2 pec2 n2 L2 (Hok1 : dag_ok g1 pec1 n1) (Hok2 : dag_ok g2 pec2 n2).
Context (Hsame : same_events g1 g2).

Lemma sees_transfer x y ex1 ey1 ex2 ey2 :
  g1 !! x = Some ex1 → g1 !! y = Some ey1 → g2 !! x = Some ex2 → g2 !! y = Some ey2 →
  sees ex1 ey1 = sees ex2 ey2.
Proof.
  intros Hx1 Hy1 Hx2 Hy2. apply eq_iff_eq_true.
  rewrite (sees_reach g1 pec1 n1 x y), (sees_reach g2 pec2 n2 x y) by done. split; intros Hr.
  - by apply (reach_transfer g1 pec1 n1 g2 pec2 n2).
  - apply (reach_transfer g2 pec2 n2 g1 pec1 n1); eauto using same_events_sym.
Qed.
Lemma sees_known x y ex1 ey1 ex2 :
  g1 !! x = Some ex1 → g1 !! y = Some ey1 → g2 !! x = Some ex2 → sees ex1 ey1 = true →
  ∃ ey2, g2 !! y = Some ey2 ∧ sees ex2 ey2 = true.
Proof.
  intros Hx1 Hy1 Hx2 Hs. destruct (reach_transfer g1 pec1 n1 g2 pec2 n2 Hok1 Hok2 Hsame x y)
    as [[ey2 Hy2] _]; [eauto|by apply (sees_reach g1 pec1 n1 x y ex1 ey1)|].
  exists ey2. split; [done|]. by rewrite <-(sees_transfer x y ex1 ey1).
Qed.

(** The event at hand, in both graphs, and its strict ancestors, which have
    the same rounds. *)
Context (x : string) (ex1 ex2 : Event) (Hx1 : g1 !! x = Some ex1) (Hx2 : g2 !! x = Some ex2).
Context (Hbelow : ∀ y, y ≠ x → reach g1 x y → L1 !! y = L2 !! y).

Lemma marks_transfer k w ek1 ek2 ew1 ew2 :
  g1 !! k = Some ek1 → g2 !! k = Some ek2 → g1 !! w = Some ew1 → g2 !! w = Some ew2 →
  reach g1 x k → (k = x → w ≠ x) → marks g1 L1 ek1 ew1 = true → marks g2 L2 ek2 ew2 = true.
Proof.
  intros Hk1 Hk2 Hw1 Hw2 Hxk Hne. rewrite !marks_spec. intros (Hs & Hor & Hv).
  destruct (same_fields _ _ Hsame k ek1 ek2 Hk1 Hk2) as (Hh & Hc & _).
  destruct (same_fields _ _ Hsame w ew1 ew2 Hw1 Hw2) as (Hh' & Hc' & Hi' & _).
  split; [by rewrite <-(sees_transfer k w ek1 ew1)|].
  split; [rewrite <-Hh, <-Hh', <-Hc, <-Hc'; done|].
  intros v ev2 Hv2 Hcv Hiv Hsv.
  destruct (reach_transfer g2 pec2 n2 g1 pec1 n1 Hok2 Hok1 (same_events_sym _ _ Hsame) k v)
    as [[ev1 Hv1] Hkv]; [eauto|by apply (sees_reach g2 pec2 n2 k v ek2 ev2)|].
  destruct (same_fields _ _ Hsame v ev1 ev2 Hv1 Hv2) as (_ & Hcv' & Hiv' & _).
  assert (v ≠ x) as Hvx.
  { intros ->. assert (k = x) as -> by (by eapply (reach_antisym _ _ _ Hok1 k x)).
    rewrite Hk1 in Hv1. injection Hv1 as ->. destruct Hor as [Heq|Hneq]; [|congruence].
    rewrite (dag_hex _ _ _ Hok1 _ _ Hk1), (dag_hex _ _ _ Hok1 _ _ Hw1) in Heq. by apply Hne. }
  unfold wit. rewrite <-(Hbelow v Hvx) by (by etrans).
  apply (Hv v ev1 Hv1); [congruence|lia|]. by rewrite (sees_transfer k v ek1 ev1 ek2 ev2).
Qed.
Lemma counted_transfer w ew1 ew2 p :
  g1 !! w = Some ew1 → g2 !! w = Some ew2 → w ≠ x →
  counted g1 L1 ex1 ew1 p = true → counted g2 L2 ex2 ew2 p = true.
Proof.
  intros Hw1 Hw2 Hne. rewrite !counted_spec. intros (k & ek1 & Hk1 & Hc & Hm & Hs).
  destruct (sees_known x k ex1 ek1 ex2 Hx1 Hk1 Hx2 Hs) as (ek2 & Hk2 & Hs2).
  exists k, ek2. split; [done|].
  destruct (same_fields _ _ Hsame k ek1 ek2 Hk1 Hk2) as (_ & Hc' & _).
  split; [congruence|]. split; [|done]. apply (marks_transfer k w ek1 ek2 ew1 ew2); try done.
  by apply (sees_reach g1 pec1 n1 x k ex1 ek1).
Qed.
Lemma counted_reach w ew1 p : g1 !! w = Some ew1 → counted g1 L1 ex1 ew1 p = true → reach g1 x w.
Proof.
  intros Hw1. rewrite counted_spec. intros (k & ek1 & Hk1 & _ & Hm & Hs).
  apply marks_spec in Hm as [Hm _]. etrans.
  - by apply (sees_reach g1 pec1 n1 x k ex1 ek1).
  - by apply (sees_reach g1 pec1 n1 k w ek1 ew1).
Qed.
End transfer.

(** The strict ancestors of an event have the same rounds in both. *)
Definition same_below g1 L1 g2 L2 (x : string) : Prop :=
  ∀ y, y ≠ x → reach g1 x y ∨ reach g2 x y → L1 !! y = L2 !! y.
Lemma same_below_sym g1 L1 g2 L2 x : same_below g1 L1 g2 L2 x → same_below g2 L2 g1 L1 x.
Proof. intros Hs y Hne Hr. symmetry. apply Hs; tauto. Qed.

Lemma ss_of_le g1 pec1 n1 L1 g2 pec2 n2 L2 x ex1 ex2 w ew1 ew2 :
  dag_ok g1 pec1 n1 → dag_ok g2 pec2 n2 → same_events g1 g2 → same_below g1 L1 g2 L2 x →
  g1 !! x = Some ex1 → g2 !! x = Some ex2 → g1 !! w = Some ew1 → g2 !! w = Some ew2 → w ≠ x →
  ss_of g1 L1 ex1 ew1 = true → ss_of g2 L2 ex2 ew2 = true.
Proof.
  intros Hok1 Hok2 Hs Hb Hx1 Hx2 Hw1 Hw2 Hne. unfold ss_of. rewrite !Z.leb_le. intros Hle.
  etrans; [exact Hle|]. apply inj_le, subseteq_size. intros p. rewrite !elem_of_filter.
  intros [Hp Hd]. split; [|done]. apply Is_true_true in Hp. apply Is_true_true.
  apply (counted_transfer g1 pec1 n1 L1 g2 pec2 n2 L2 Hok1 Hok2 Hs x ex1 ex2 Hx1 Hx2) with w ew1;
    auto.
Qed.
Lemma seen_witnesses_le g1 pec1 n1 L1 g2 pec2 n2 L2 x ex1 ex2 r :
  dag_ok g1 pec1 n1 → dag_ok g2 pec2 n2 → same_events g1 g2 → same_below g1 L1 g2 L2 x →
  g1 !! x = Some ex1 → g2 !! x = Some ex2 →
  seen_witnesses g1 L1 x ex1 r ⊆ seen_witnesses g2 L2 x ex2 r.
Proof.
  intros Hok1 Hok2 Hs Hb Hx1 Hx2 w. unfold seen_witnesses. rewrite !elem_of_dom.
  intros [ew1 (Hw1 & Hne & HL & Hss)%map_lookup_filter_Some].
  destruct (ss_of_counted _ _ _ _ Hss) as [p Hp].
  pose proof (counted_reach g1 pec1 n1 L1 Hok1 x ex1 Hx1 w ew1 p Hw1 Hp) as Hr.
  destruct (reach_transfer g1 pec1 n1 g2 pec2 n2 Hok1 Hok2 Hs x w) as [[ew2 Hw2] _]; [eauto|done|].
  exists ew2. apply map_lookup_filter_Some. split; [done|]. split; [done|].
  split; [by rewrite <-(Hb w Hne (or_introl Hr))|].
  by apply (ss_of_le g1 pec1 n1 L1 g2 pec2 n2 L2 x ex1 ex2 w ew1 ew2).
Qed.

Lemma parent_strict g pec n x ex p :
  dag_ok g pec n → g !! x = Some ex → SelfParent ex = p ∨ OtherParent ex = p → p ≠ "" →
  p ≠ x ∧ reach g x p ∧ is_Some (g !! p).
Proof.
  intros Hok Hx Hp Hne.
  assert (is_Some (g !! p)) as [ep Hep].
  { destruct Hp as [<-|<-].
    - destruct (dag_self _ _ _ Hok x ex Hx) as [?|(q & ? & _)]; [done|eauto].
    - by destruct (dag_other _ _ _ Hok x ex Hx). }
  destruct (dag_topo _ _ _ Hok x ex Hx) as [_ Ht]. specialize (Ht p ep Hp Hep).
  split; [|split; [|eauto]].
  - intros ->. rewrite Hx in Hep. injection Hep as ->. lia.
  - apply rtc_once. exists ex. eauto.
Qed.

(** The round of an event only depends on its ancestors. *)
Lemma round_of_ancestors g1 pec1 n1 L1 g2 pec2 n2 L2 x ex1 ex2 :
  dag_ok g1 pec1 n1 → dag_ok g2 pec2 n2 → same_events g1 g2 → same_below g1 L1 g2 L2 x →
  g1 !! x = Some ex1 → g2 !! x = Some ex2 →
  round_of g1 L1 x ex1 = round_of g2 L2 x ex2.
Proof.
  intros Hok1 Hok2 Hs Hb Hx1 Hx2.
  destruct (same_fields _ _ Hs x ex1 ex2 Hx1 Hx2) as (_ & Hc & _ & Hsp & Hop).
  assert (∀ p, SelfParent ex1 = p ∨ OtherParent ex1 = p → rnd L1 p = rnd L2 p) as Hr.
  { intros p Hp. unfold rnd. case_decide as Hd; [done|].
    destruct (parent_strict g1 pec1 n1 x ex1 p Hok1 Hx1 Hp Hd) as (Hne & Hreach & _).
    by rewrite (Hb p Hne (or_introl Hreach)). }
  assert (∀ r, seen_witnesses g1 L1 x ex1 r = seen_witnesses g2 L2 x ex2 r) as Hw.
  { intros r. apply set_eq, set_equiv_subseteq. split.
    - by apply (seen_witnesses_le g1 pec1 n1 L1 g2 pec2 n2 L2).
    - apply (seen_witnesses_le g2 pec2 n2 L2 g1 pec1 n1 L1);
        auto using same_events_sym, same_below_sym. }
  unfold round_of. rewrite <-Hsp, <-Hop, <-Hc, !Hr by auto. by rewrite Hw.
Qed.

(** ** Two graphs agree *)
Lemma ledgers_agree g1 pec1 n1 L1 g2 pec2 n2 L2 :
  dag_ok g1 pec1 n1 → dag_ok g2 pec2 n2 → same_events g1 g2 → ledger g1 L1 → ledger g2 L2 →
  ∀ x, is_Some (g1 !! x) → is_Some (g2 !! x) → L1 !! x = L2 !! x.
Proof.
  intros Hok1 Hok2 Hs (Hd1 & _ & Hl1) (Hd2 & _ & Hl2) x [ex1 Hx1] Hx2.
  remember (Z.to_nat (ev_topologicalIndex ex1)) as d eqn:Hd.
  revert x ex1 Hx1 Hx2 Hd. induction (lt_wf d) as [d _ IH]. intros x ex1 Hx1 [ex2 Hx2] Hd.
  rewrite (Hl1 x ex1 Hx1), (Hl2 x ex2 Hx2). f_equal.
  apply (round_of_ancestors g1 pec1 n1 L1 g2 pec2 n2 L2); try done. intros y Hne Hr.
  assert (reach g1 x y ∧ is_Some (g2 !! y)) as [Hr1 Hy2].
  { destruct Hr as [Hr|Hr].
    - split; [done|]. by destruct (reach_transfer g1 pec1 n1 g2 pec2 n2 Hok1 Hok2 Hs x y); eauto.
    - split; [|by eapply (reach_known _ _ _ _ Hx2)].
      apply (reach_transfer g2 pec2 n2 g1 pec1 n1); eauto using same_events_sym. }
  destruct (reach_known _ _ _ _ Hx1 Hr1) as [ey1 Hy1].
  pose proof (reach_topo _ _ _ Hok1 x y ex1 ey1 Hx1 Hy1 Hr1 (not_eq_sym Hne)) as Ht.
  destruct (dag_topo _ _ _ Hok1 y ey1 Hy1) as [Hpos _].
  apply (IH (Z.to_nat (ev_topologicalIndex ey1))) with (ex1 := ey1); [lia|done|done|done].
Qed.

(** ** A graph that grows *)
Lemma ledger_insert g pec n pec' L e :
  dag_ok g pec n → dag_ok (<[Hex e := e]> g) pec' (n + 1) → g !! Hex e = None → ledger g L →
  let g' := <[Hex e := e]> g in
  ledger g' (<[Hex e := round_of g' L (Hex e) e]> L).
Proof.
  intros Hok Hok' Hfresh (Hdom & Hpos & HL) g'. set (v := round_of g' L (Hex e) e).
  assert (L !! Hex e = None) as HLe.
  { destruct (L !! Hex e) eqn:Hl; [|done]. destruct (proj1 (Hdom (Hex e))); [eauto|congruence]. }
  assert (same_events g' g') as Hrefl by (intros k e1 e2 H1 H2; congruence).
  split; [|split].
  - intros x. unfold g'. rewrite !lookup_insert_is_Some'. by rewrite Hdom.
  - intros x r w. destruct (decide (x = Hex e)) as [->|Hne].
    + rewrite lookup_insert_eq. intros Hv. apply (inj Some) in Hv. unfold v, round_of in Hv.
      assert (∀ p, -1 ≤ rnd L p) as Hrnd.
      { intros p. unfold rnd. case_decide; [lia|].
        destruct (L !! p) as [[r' w']|] eqn:Hp; simpl; [specialize (Hpos _ _ _ Hp)|]; lia. }
      injection Hv as <- _. pose proof (Hrnd (SelfParent e)). pose proof (Hrnd (OtherParent e)).
      destruct (_ =? -1) eqn:Hm; [lia|]. destruct (_ <=? _); lia.
    + rewrite lookup_insert_ne by done. apply Hpos.
  - intros x ex Hx. destruct (decide (x = Hex e)) as [->|Hne].
    + unfold g' in Hx. rewrite lookup_insert_eq in Hx. injection Hx as <-.
      rewrite lookup_insert_eq. f_equal. unfold v.
      apply (round_of_ancestors g' pec' (n + 1) L g' pec' (n + 1)); try done.
      * intros y Hy _. by rewrite lookup_insert_ne.
      * apply lookup_insert_eq.
      * apply lookup_insert_eq.
    + unfold g' in Hx. rewrite lookup_insert_ne in Hx by done. rewrite lookup_insert_ne by done.
      rewrite (HL x ex Hx). f_equal.
      apply (round_of_ancestors g pec n L g' pec' (n + 1)); try done.
      * intros k e1 e2 H1 H2. unfold g' in H2. rewrite lookup_insert_ne in H2 by congruence. congruence.
      * intros y Hy Hr. assert (reach g x y) as Hr'.
        { destruct Hr as [Hr|Hr]; [done|]. by apply (reach_old g pec n Hok e Hfresh x y); eauto. }
        destruct (reach_known _ _ _ _ Hx Hr') as [ey Hey]. rewrite lookup_insert_ne; [done|].
        congruence.
      * unfold g'. by rewrite lookup_insert_ne.
Qed.
End ledger.
