(* ===== verification/Votes.v ===== *)
(** * The votes that a graph determines

    [ballot r x d y] is the vote of [y], a witness of round [r + d], on
    whether [x], a witness of round [r], is famous: the reference for the
    votes that [DecideFame] computes. [decided r x v] says that some witness
    of the graph collects enough votes to settle the fame of [x] on [v].

    [fames_agree]: two graphs in which fewer than a third of the validators
    equivocate do not decide on different values. No graph is known to hold
    the events of both: an equivocating creator may have shown different
    events to the two. *)
From S2P Require Export Ledger.

(** ** Counting *)
Section counting.
Context {A : Type} `{EqDecision A}.
Implicit Types (l ws : list A).

Definition count (P : A → bool) l : Z := zlen (filter P l).

Lemma count_cons P a l : count P (a :: l) = (if P a then 1 else 0) + count P l.
Proof.
  unfold count, zlen. rewrite filter_cons.
  destruct (decide (P a)); destruct (P a); simpl in *; try done; lia.
Qed.
End counting.

Section tallies.
Implicit Types (votes : Votes) (ws : list string).

Lemma count_votes_from votes x ws y n :
  foldl (λ '(yays, nays) w, if getVote votes w x then (yays + 1, nays) else (yays, nays + 1))
    (y, n) ws =
  (y + count (λ w, getVote votes w x) ws, n + count (λ w, negb (getVote votes w x)) ws).
Proof.
  revert y n. induction ws as [|w ws IH]; intros y n; simpl.
  { by rewrite !Z.add_0_r. }
  rewrite !count_cons. destruct (getVote votes w x); simpl; rewrite IH; f_equal; lia.
Qed.

(** The two counters are the numbers of voters for and against. *)
Lemma count_votes_spec votes x ws :
  count_votes votes x ws =
  (count (λ w, getVote votes w x) ws, count (λ w, negb (getVote votes w x)) ws).
Proof. apply count_votes_from. Qed.
End tallies.

(** ** Sets of strings *)
Lemma inj_size (f : string → string) (A B : gset string) :
  (∀ a, a ∈ A → f a ∈ B) → (∀ a a', a ∈ A → a' ∈ A → f a = f a' → a = a') →
  (size A ≤ size B)%nat.
Proof.
  revert B. induction A as [|a A Ha IH] using set_ind_L; intros B Hf Hinj.
  { rewrite size_empty. lia. }
  assert (size A ≤ size (B ∖ {[f a]}))%nat as Hle.
  { apply IH; [|set_solver]. intros a' Ha'. apply elem_of_difference. split; [set_solver|].
    rewrite elem_of_singleton. intros Heq. apply Ha.
    by rewrite <-(Hinj a' a ltac:(set_solver) ltac:(set_solver) Heq). }
  assert ({[f a]} ⊆ B) as Hsub by set_solver.
  rewrite size_union, size_singleton by set_solver.
  rewrite size_difference, size_singleton in Hle by done.
  apply subseteq_size in Hsub. rewrite size_singleton in Hsub. lia.
Qed.
Lemma size_split (P : string → bool) (A : gset string) :
  (size (filter (λ a, P a) A) + size (filter (λ a, negb (P a)) A))%nat = size A.
Proof.
  rewrite <-size_union.
  - f_equal. apply set_eq. intros a. rewrite elem_of_union, !elem_of_filter. destruct (P a); simpl; tauto.
  - intros a. rewrite !elem_of_filter. destruct (P a); simpl; tauto.
Qed.

Section votes.
Context {KP : Keys} {CP : Codec} {RO : RangeOrder}.
Context (ps : PeerSet).
Implicit Types (g : gmap string Event) (L : gmap string (Z * bool)) (e : Event).

(** The votes of the witnesses [ws], for and against. *)
Definition votes_of (b : string → bool) (ws : gset string) : Z * Z :=
  (Z.of_nat (size (filter (λ w, b w) ws)), Z.of_nat (size (filter (λ w, negb (b w)) ws))).
Definition coin (y : string) : bool := match middleBit y with Ok b => b | _ => false end.
Definition cast (d : nat) (y : string) (c : Z * Z) : bool :=
  if negb (Z.of_nat d mod COIN_ROUND_FREQ =? 0) then majority c
  else if SuperMajority ps <=? tally c then majority c else coin y.

Fixpoint ballot g L (r : Z) (x : string) (d : nat) (y : string) : bool :=
  match d, g !! y, g !! x with
  | S O, Some ey, Some ex => sees ey ex
  | S d', Some ey, _ =>
      cast d y (votes_of (ballot g L r x d') (seen_witnesses ps g L y ey (r + Z.of_nat d')))
  | _, _, _ => false
  end.
Definition collected g L (r : Z) (x : string) (d : nat) (y : string) ey : Z * Z :=
  votes_of (ballot g L r x d) (seen_witnesses ps g L y ey (r + Z.of_nat d)).
Definition decided g L (r : Z) (x : string) (v : bool) : Prop :=
  ∃ d y ey, (1 ≤ d)%nat ∧ g !! y = Some ey ∧ L !! y = Some (r + Z.of_nat (S d), true) ∧
    Z.of_nat (S d) mod COIN_ROUND_FREQ ≠ 0 ∧
    SuperMajority ps ≤ tally (collected g L r x d y ey) ∧
    majority (collected g L r x d y ey) = v.

Lemma ballot_step g L r x d y ey : (1 ≤ d)%nat → g !! y = Some ey →
  ballot g L r x (S d) y = cast (S d) y (collected g L r x d y ey).
Proof. intros Hd Hy. destruct d as [|d]; [lia|]. cbn [ballot]. rewrite Hy. done. Qed.
Lemma votes_of_ext b1 b2 ws : (∀ w, w ∈ ws → b1 w = b2 w) → votes_of b1 ws = votes_of b2 ws.
Proof.
  intros Hb. unfold votes_of.
  assert (filter (λ w, b1 w) ws = filter (λ w, b2 w) ws) as ->.
  { apply set_eq. intros w. rewrite !elem_of_filter. split; intros [H1 H2]; split; try done;
      [rewrite <-Hb|rewrite Hb]; done. }
  assert (filter (λ w, negb (b1 w)) ws = filter (λ w, negb (b2 w)) ws) as ->; [|done].
  apply set_eq. intros w. rewrite !elem_of_filter. split; intros [H1 H2]; split; try done;
    [rewrite <-Hb|rewrite Hb]; done.
Qed.
(** A list without duplicates is counted like the set. *)
Lemma count_set (b : string → bool) l : NoDup l →
  count b l = Z.of_nat (size (filter (λ w, b w) (list_to_set l : gset string))).
Proof.
  intros Hnd. unfold count, zlen. f_equal.
  rewrite <-(size_list_to_set (C:=gset string)) by (by apply NoDup_filter).
  f_equal. apply set_eq. intros w. rewrite elem_of_filter, !elem_of_list_to_set, list_elem_of_filter.
  done.
Qed.
Lemma count_votes_set votes x b l : NoDup l → (∀ w, w ∈ l → getVote votes w x = b w) →
  count_votes votes x l = votes_of b (list_to_set l).
Proof.
  intros Hnd Hb. rewrite count_votes_spec, !count_set by done.
  change (votes_of (λ w, getVote votes w x) (list_to_set l) = votes_of b (list_to_set l)).
  apply votes_of_ext. intros w Hw. apply Hb. by apply elem_of_list_to_set in Hw.
Qed.
Lemma elem_of_seen g L y ey r w : w ∈ seen_witnesses ps g L y ey r ↔
  ∃ ew, g !! w = Some ew ∧ w ≠ y ∧ L !! w = Some (r, true) ∧ ss_of ps g L ey ew = true.
Proof.
  unfold seen_witnesses. rewrite elem_of_dom. split.
  - intros [ew (? & ? & ? & ?)%map_lookup_filter_Some]. eauto.
  - intros (ew & ? & ? & ? & ?). exists ew. by apply map_lookup_filter_Some.
Qed.

(** ** Rounds in one graph *)
Section one.
Context g pec n L (Hok : dag_ok g pec n) (HL : ledger ps g L).

Lemma ledger_round x ex r w : g !! x = Some ex → L !! x = Some (r, w) →
  let pr := Z.max (rnd L (SelfParent ex)) (rnd L (OtherParent ex)) in
  r = (if pr =? -1 then 0
       else if SuperMajority ps <=? Z.of_nat (size (seen_witnesses ps g L x ex pr)) then pr + 1
       else pr) ∧
  w = bool_decide (is_Some (ByPubKey ps !! Creator ex)) && (rnd L (SelfParent ex) <? r).
Proof.
  intros Hx HLx pr. rewrite (proj2 (proj2 HL) x ex Hx) in HLx. apply (inj Some) in HLx.
  unfold round_of in HLx. fold pr in HLx. injection HLx as <- <-. done.
Qed.
Lemma rnd_known p r w : p ≠ "" → L !! p = Some (r, w) → rnd L p = r.
Proof. intros Hp HLp. unfold rnd. by rewrite decide_False, HLp. Qed.
Lemma rnd_parent x ex p : g !! x = Some ex → SelfParent ex = p ∨ OtherParent ex = p →
  p ≠ "" → ∃ r w, L !! p = Some (r, w) ∧ rnd L p = r.
Proof.
  intros Hx Hp Hne. destruct (parent_strict g pec n x ex p Hok Hx Hp Hne) as (_ & _ & Hkn).
  apply HL in Hkn as [[r w] HLp]. exists r, w. split; [done|]. by eapply rnd_known.
Qed.
Lemma parent_round x ex p r w r' w' : g !! x = Some ex → SelfParent ex = p ∨ OtherParent ex = p →
  L !! x = Some (r, w) → L !! p = Some (r', w') → r' ≤ r.
Proof.
  intros Hx Hp HLx HLp. destruct (ledger_round x ex r w Hx HLx) as [Hr _].
  assert (p ≠ "") as Hne.
  { intros ->. assert (is_Some (g !! "")) as [? Hs] by (apply HL; eauto).
    by rewrite (dag_empty_key _ _ _ Hok) in Hs. }
  pose proof (rnd_known p r' w' Hne HLp) as Hrp. pose proof (proj1 (proj2 HL) p r' w' HLp).
  assert (r' ≤ Z.max (rnd L (SelfParent ex)) (rnd L (OtherParent ex))) by (destruct Hp as [-> | ->]; lia).
  destruct (_ =? -1) eqn:Hm in Hr; [lia|]. destruct (_ <=? _) in Hr; lia.
Qed.
Lemma reach_round x y r w r' w' : reach g x y →
  L !! x = Some (r, w) → L !! y = Some (r', w') → r' ≤ r.
Proof.
  intros Hr. revert r w. induction Hr as [x|x z y (e & He & Hp & Hz) Hr IH]; intros r w Hx Hy.
  { rewrite Hx in Hy. injection Hy as -> _. lia. }
  apply HL in Hz as [[rz wz] Hz]. pose proof (parent_round x e z r w rz wz He Hp Hx Hz).
  specialize (IH rz wz Hz Hy). lia.
Qed.

(** A creator has one witness in a round. *)
Lemma unique_witness_le x y ex ey r : g !! x = Some ex → g !! y = Some ey →
  L !! x = Some (r, true) → L !! y = Some (r, true) → Creator ex = Creator ey →
  Index ey ≤ Index ex → x = y.
Proof.
  intros Hx Hy HLx HLy Hc Hi. destruct (decide (Index ex = Index ey)) as [Heq|Hne].
  { by apply (dag_unique _ _ _ Hok x y ex ey). }
  destruct (ledger_round x ex r true Hx HLx) as [_ Hw]. symmetry in Hw.
  apply andb_true_iff in Hw as [_ Hw]. exfalso.
  destruct (dag_self _ _ _ Hok x ex Hx) as [Hsp|(p & Hp & Hcp & Hip)].
  { pose proof (dag_first _ _ _ Hok x y ex ey Hx Hy Hsp Hc). lia. }
  assert (SelfParent ex ≠ "") as Hnp.
  { intros He. rewrite He, (dag_empty_key _ _ _ Hok) in Hp. done. }
  destruct (rnd_parent x ex (SelfParent ex) Hx (or_introl eq_refl) Hnp) as (rp & wp & HLp & Hrp).
  assert (reach g (SelfParent ex) y) as Hr.
  { apply (chain_reach g pec n Hok _ _ p ey); [done|done|congruence|lia]. }
  pose proof (reach_round _ _ _ _ _ _ Hr HLp HLy). lia.
Qed.
Lemma unique_witness x y ex ey r : g !! x = Some ex → g !! y = Some ey →
  L !! x = Some (r, true) → L !! y = Some (r, true) → Creator ex = Creator ey → x = y.
Proof.
  intros Hx Hy HLx HLy Hc. destruct (decide (Index ey ≤ Index ex)).
  - by apply (unique_witness_le x y ex ey r).
  - symmetry. apply (unique_witness_le y x ey ex r); [done..|lia].
Qed.
Lemma witness_peer x ex r : g !! x = Some ex → L !! x = Some (r, true) →
  Creator ex ∈ dom (ByPubKey ps).
Proof.
  intros Hx HLx. destruct (ledger_round x ex r true Hx HLx) as [_ Hw]. symmetry in Hw.
  apply andb_true_iff in Hw as [Hw _]. apply bool_decide_eq_true in Hw. by apply elem_of_dom.
Qed.

(** What an ancestor strongly sees is strongly seen. *)
Lemma ss_of_mono x y w ex ey ew : g !! x = Some ex → g !! y = Some ey → g !! w = Some ew →
  reach g x y → ss_of ps g L ey ew = true → ss_of ps g L ex ew = true.
Proof.
  intros Hx Hy Hw Hr Hs. unfold ss_of in *. apply Z.leb_le in Hs. apply Z.leb_le.
  etrans; [exact Hs|]. apply inj_le, subseteq_size. intros p. rewrite !elem_of_filter.
  intros [Hp Hd]. split; [|done]. apply Is_true_true in Hp. apply Is_true_true.
  apply counted_spec in Hp as (k & ek & Hk & Hc & Hm & Hsk). apply counted_spec. exists k, ek.
  do 3 (split; [done|]). apply (sees_reach g pec n x k); [done..|]. etrans; [exact Hr|].
  by apply (sees_reach g pec n y k ey ek).
Qed.

(** An event of a round strongly sees a super-majority of the witnesses of the
    round before. *)
Lemma round_quorum y ey r w : g !! y = Some ey → L !! y = Some (r, w) → 1 ≤ r →
  SuperMajority ps ≤ Z.of_nat (size (seen_witnesses ps g L y ey (r - 1))).
Proof.
  intros Hy HLy Hr1. remember (Z.to_nat (ev_topologicalIndex ey)) as d eqn:Hd.
  revert y ey w Hy HLy Hd. induction (lt_wf d) as [d _ IH]. intros y ey w Hy HLy Hd.
  destruct (ledger_round y ey r w Hy HLy) as [Hr _].
  set (pr := Z.max _ _) in Hr. destruct (pr =? -1) eqn:Hm; [lia|].
  destruct (SuperMajority ps <=? _) eqn:Hsm.
  { apply Z.leb_le in Hsm. by replace (r - 1) with pr by lia. }
  assert (∃ p, (SelfParent ey = p ∨ OtherParent ey = p) ∧ p ≠ "" ∧ rnd L p = pr) as (p & Hp & Hne & Hrp).
  { assert (rnd L "" = -1) as Hempty by done.
    destruct (Z.max_spec (rnd L (SelfParent ey)) (rnd L (OtherParent ey))) as [[_ Hmx]|[_ Hmx]];
      fold pr in Hmx; [exists (OtherParent ey)|exists (SelfParent ey)]; (split; [auto|]);
      (split; [intros Heq; rewrite Heq in Hmx; lia|done]). }
  destruct (parent_strict g pec n y ey p Hok Hy Hp Hne) as (_ & Hreach & [ep Hep]).
  destruct (rnd_parent y ey p Hy Hp Hne) as (rp & wp & HLp & Hrnd).
  assert (rp = r) as -> by congruence.
  destruct (dag_topo _ _ _ Hok y ey Hy) as [Hpos Ht]. specialize (Ht p ep Hp Hep).
  destruct (dag_topo _ _ _ Hok p ep Hep) as [Hpos' _].
  specialize (IH (Z.to_nat (ev_topologicalIndex ep)) ltac:(lia) p ep wp Hep HLp eq_refl).
  etrans; [exact IH|]. apply inj_le, subseteq_size. intros v.
  rewrite !elem_of_seen. intros (ev & Hv & _ & HLv & Hs). exists ev. split; [done|].
  split; [intros ->; rewrite HLy in HLv; injection HLv; lia|]. split; [done|].
  by apply (ss_of_mono y p v ey ep ev).
Qed.

Lemma chain_first k e : g !! k = Some e →
  ∃ f ef, g !! f = Some ef ∧ Creator ef = Creator e ∧ SelfParent ef = "".
Proof.
  intros Hk. remember (Z.to_nat (Index e)) as d eqn:Hd. revert k e Hk Hd.
  induction (lt_wf d) as [d _ IH]. intros k e Hk Hd.
  destruct (dag_self _ _ _ Hok k e Hk) as [Hsp|(p & Hp & Hcp & Hip)]; [by exists k, e|].
  destruct (dag_last _ _ _ Hok _ p Hp) as [H0 _].
  destruct (IH (Z.to_nat (Index p)) ltac:(lia) _ p Hp eq_refl) as (f & ef & ? & ? & ?).
  exists f, ef. split; [done|]. split; [congruence|done].
Qed.
Lemma chain_next k e p ep : g !! k = Some e → g !! p = Some ep → Creator ep = Creator e →
  Index ep < Index e → ∃ k' e', g !! k' = Some e' ∧ Creator e' = Creator e ∧ SelfParent e' = p.
Proof.
  intros Hk Hp Hc Hi. remember (Z.to_nat (Index e)) as d eqn:Hd. revert k e Hk Hc Hi Hd.
  induction (lt_wf d) as [d _ IH]. intros k e Hk Hc Hi Hd.
  destruct (dag_self _ _ _ Hok k e Hk) as [Hsp|(q & Hq & Hcq & Hiq)].
  { pose proof (dag_first _ _ _ Hok k p e ep Hk Hp Hsp (eq_sym Hc)). lia. }
  destruct (decide (Index q = Index ep)) as [Heq|Hne].
  - exists k, e. split; [done|]. split; [done|].
    apply (dag_unique _ _ _ Hok (SelfParent e) p q ep); congruence.
  - destruct (dag_last _ _ _ Hok p ep Hp) as [H0 _].
    destruct (IH (Z.to_nat (Index q)) ltac:(lia) _ q Hq) as (k' & e' & ? & ? & ?);
      [congruence|lia|done|]. exists k', e'. split; [done|]. split; [congruence|done].
Qed.
End one.

(** ** Two graphs *)
(** [q] did not show two different events with the same self-parent. *)
Definition honest g1 g2 (q : string) : Prop :=
  ∀ k1 k2 e1 e2, g1 !! k1 = Some e1 → g2 !! k2 = Some e2 → Creator e1 = q → Creator e2 = q →
    SelfParent e1 = SelfParent e2 → k1 = k2.
(** Fewer than a third of the validators equivocated. *)
Definition few_forks g1 g2 : Prop :=
  ∃ bad : gset string, 3 * Z.of_nat (size bad) < PS_Len ps ∧
    ∀ q, q ∈ dom (ByPubKey ps) → q ∉ bad → honest g1 g2 q.
Lemma few_forks_sym g1 g2 : few_forks g1 g2 → few_forks g2 g1.
Proof.
  intros (bad & Hb & Hh). exists bad. split; [done|]. intros q Hq Hnb k1 k2 e1 e2 H1 H2 Hc1 Hc2 Hsp.
  symmetry. by apply (Hh q Hq Hnb k2 k1 e2 e1).
Qed.

Section two.
Context g1 pec1 n1 L1 (Hok1 : dag_ok g1 pec1 n1) (HL1 : ledger ps g1 L1).
Context g2 pec2 n2 L2 (Hok2 : dag_ok g2 pec2 n2) (HL2 : ledger ps g2 L2).
Context (Hsame : same_events g1 g2).

Lemma agree_below x : is_Some (g1 !! x) → is_Some (g2 !! x) → same_below g1 L1 g2 L2 x.
Proof.
  intros [ex1 Hx1] [ex2 Hx2] y _ Hr. apply (ledgers_agree ps g1 pec1 n1 L1 g2 pec2 n2 L2); try done.
  - destruct Hr as [Hr|Hr]; [by eapply (reach_known g1 x)|].
    by apply (reach_transfer g2 pec2 n2 g1 pec1 n1 Hok2 Hok1 (same_events_sym _ _ Hsame) x y); eauto.
  - destruct Hr as [Hr|Hr]; [|by eapply (reach_known g2 x)].
    by apply (reach_transfer g1 pec1 n1 g2 pec2 n2 Hok1 Hok2 Hsame x y); eauto.
Qed.
Lemma seen_agree y ey1 ey2 r : g1 !! y = Some ey1 → g2 !! y = Some ey2 →
  seen_witnesses ps g1 L1 y ey1 r = seen_witnesses ps g2 L2 y ey2 r.
Proof.
  intros H1 H2. assert (same_below g1 L1 g2 L2 y) as Hb by (apply agree_below; eauto).
  apply set_eq, set_equiv_subseteq. split.
  - by apply (seen_witnesses_le ps g1 pec1 n1 L1 g2 pec2 n2 L2).
  - apply (seen_witnesses_le ps g2 pec2 n2 L2 g1 pec1 n1 L1); auto using same_events_sym, same_below_sym.
Qed.
Lemma seen_both y ey1 ey2 r w : g1 !! y = Some ey1 → g2 !! y = Some ey2 →
  w ∈ seen_witnesses ps g1 L1 y ey1 r → is_Some (g1 !! w) ∧ is_Some (g2 !! w).
Proof.
  intros H1 H2 Hw. split; [apply elem_of_seen in Hw as (? & ? & _); eauto|].
  rewrite (seen_agree y ey1 ey2) in Hw by done. apply elem_of_seen in Hw as (? & ? & _). eauto.
Qed.

(** A vote only depends on the ancestors of the voter. *)
Lemma ballot_agree r x d y : is_Some (g1 !! x) → is_Some (g2 !! x) →
  is_Some (g1 !! y) → is_Some (g2 !! y) → ballot g1 L1 r x d y = ballot g2 L2 r x d y.
Proof.
  intros [ex1 Hx1] [ex2 Hx2]. revert y. induction d as [|d IH]; intros y [ey1 Hy1] [ey2 Hy2]; [done|].
  destruct d as [|d].
  { cbn [ballot]. rewrite Hx1, Hx2, Hy1, Hy2.
    by apply (sees_transfer g1 pec1 n1 g2 pec2 n2 Hok1 Hok2 Hsame y x). }
  rewrite (ballot_step g1 L1 r x (S d) y ey1), (ballot_step g2 L2 r x (S d) y ey2) by (try done; lia).
  f_equal. unfold collected. rewrite <-(seen_agree y ey1 ey2) by done. apply votes_of_ext.
  intros w Hw. by apply IH; apply (seen_both y ey1 ey2 (r + Z.of_nat (S d)) w).
Qed.
Lemma collected_agree r x d y ey1 ey2 : is_Some (g1 !! x) → is_Some (g2 !! x) →
  g1 !! y = Some ey1 → g2 !! y = Some ey2 →
  collected g1 L1 r x d y ey1 = collected g2 L2 r x d y ey2.
Proof.
  intros Hx1 Hx2 Hy1 Hy2. unfold collected. rewrite <-(seen_agree y ey1 ey2) by done.
  apply votes_of_ext. intros w Hw.
  destruct (seen_both y ey1 ey2 (r + Z.of_nat d) w Hy1 Hy2 Hw). by apply ballot_agree.
Qed.

(** An honest creator's events are one chain: the graph that has the newer
    event has the older one. *)
Lemma honest_chain q k1 k2 e1 e2 : honest g1 g2 q → g1 !! k1 = Some e1 → g2 !! k2 = Some e2 →
  Creator e1 = q → Creator e2 = q → Index e1 ≤ Index e2 → is_Some (g2 !! k1).
Proof.
  intros Hh Hk1 Hk2 Hc1 Hc2 Hi. remember (Z.to_nat (Index e1)) as d eqn:Hd.
  revert k1 e1 Hk1 Hc1 Hi Hd. induction (lt_wf d) as [d _ IH]. intros k1 e1 Hk1 Hc1 Hi Hd.
  destruct (dag_self _ _ _ Hok1 k1 e1 Hk1) as [Hsp|(p & Hp & Hcp & Hip)].
  - destruct (chain_first g2 pec2 n2 Hok2 k2 e2 Hk2) as (f & ef & Hf & Hcf & Hspf).
    rewrite (Hh k1 f e1 ef); [eauto|done|done|done|congruence|congruence].
  - destruct (dag_last _ _ _ Hok1 _ p Hp) as [H0 _].
    destruct (IH (Z.to_nat (Index p)) ltac:(lia) (SelfParent e1) p Hp) as [p2 Hp2];
      [congruence|lia|done|].
    destruct (same_fields g1 g2 Hsame _ p p2 Hp Hp2) as (_ & Hcp2 & Hip2 & _).
    destruct (chain_next g2 pec2 n2 Hok2 k2 e2 (SelfParent e1) p2 Hk2 Hp2) as (k' & e' & Hk' & Hc' & Hsp');
      [congruence|lia|].
    rewrite (Hh k1 k' e1 e'); [eauto|done|done|done|congruence|congruence].
Qed.
Lemma honest_sees q k1 k2 e1 e2 w1 w2 ew1 ew2 r : honest g1 g2 q →
  g1 !! k1 = Some e1 → g2 !! k2 = Some e2 → Creator e1 = q → Creator e2 = q →
  g1 !! w1 = Some ew1 → g2 !! w2 = Some ew2 → sees e1 ew1 = true → Index e1 ≤ Index e2 →
  L1 !! w1 = Some (r, true) → L2 !! w2 = Some (r, true) → Creator ew1 = Creator ew2 → w1 = w2.
Proof.
  intros Hh Hk1 Hk2 Hc1 Hc2 Hw1 Hw2 Hs Hi HLw1 HLw2 Hcw.
  pose proof (honest_chain q k1 k2 e1 e2 Hh Hk1 Hk2 Hc1 Hc2 Hi) as Hk12.
  apply (sees_reach g1 pec1 n1 k1 w1 e1 ew1) in Hs; [|done..].
  destruct (reach_transfer g1 pec1 n1 g2 pec2 n2 Hok1 Hok2 Hsame k1 w1 Hk12 Hs) as [[ew Hw] _].
  destruct (same_fields g1 g2 Hsame w1 ew1 ew Hw1 Hw) as (_ & Hcw' & _).
  apply (unique_witness g2 pec2 n2 L2 Hok2 HL2 w1 w2 ew ew2 r); try done; [|congruence].
  rewrite <-HLw1. symmetry. apply (ledgers_agree ps g1 pec1 n1 L1 g2 pec2 n2 L2); eauto.
Qed.
End two.

Section agree.
Context g1 pec1 n1 L1 (Hok1 : dag_ok g1 pec1 n1) (HL1 : ledger ps g1 L1).
Context g2 pec2 n2 L2 (Hok2 : dag_ok g2 pec2 n2) (HL2 : ledger ps g2 L2).
Context (Hsame : same_events g1 g2) (Hforks : few_forks g1 g2).

(** Of the witnesses that an equivocating creator made in a round, one at most
    is strongly seen, by whatever events of the two graphs. *)
Lemma seen_unique y1 y2 ey1 ey2 w1 w2 ew1 ew2 r :
  g1 !! y1 = Some ey1 → g2 !! y2 = Some ey2 → g1 !! w1 = Some ew1 → g2 !! w2 = Some ew2 →
  ss_of ps g1 L1 ey1 ew1 = true → ss_of ps g2 L2 ey2 ew2 = true →
  L1 !! w1 = Some (r, true) → L2 !! w2 = Some (r, true) → Creator ew1 = Creator ew2 → w1 = w2.
Proof.
  intros Hy1 Hy2 Hw1 Hw2 Hs1 Hs2 HLw1 HLw2 Hc. destruct Hforks as (bad & Hbad & Hh).
  unfold ss_of in Hs1, Hs2. apply Z.leb_le in Hs1, Hs2.
  set (X := filter _ _) in Hs1. set (Y := filter _ _) in Hs2.
  assert (X ⊆ dom (ByPubKey ps)) as HX by (intros p; unfold X; rewrite elem_of_filter; tauto).
  assert (Y ⊆ dom (ByPubKey ps)) as HY by (intros p; unfold Y; rewrite elem_of_filter; tauto).
  pose proof (supermajority_intersection ps X Y HX HY Hs1 Hs2) as Hxy.
  assert (¬ X ∩ Y ⊆ bad) as Hne by (intros Hsub%subseteq_size; lia).
  assert (∃ q, q ∈ X ∩ Y ∧ q ∉ bad) as (q & [HqX HqY]%elem_of_intersection & Hqb).
  { destruct (decide (∃ q, q ∈ X ∩ Y ∧ q ∉ bad)) as [|Hno]; [done|]. destruct Hne.
    intros q Hq. destruct (decide (q ∈ bad)); [done|]. destruct Hno. eauto. }
  pose proof (Hh q (HX q HqX) Hqb) as Hq.
  apply elem_of_filter in HqX as [HqX%Is_true_true _], HqY as [HqY%Is_true_true _].
  apply counted_spec in HqX as (k1 & e1 & Hk1 & Hc1 & Hm1 & _), HqY as (k2 & e2 & Hk2 & Hc2 & Hm2 & _).
  apply marks_spec in Hm1 as [Hm1 _], Hm2 as [Hm2 _].
  destruct (decide (Index e1 ≤ Index e2)) as [Hle|Hgt].
  - by apply (honest_sees g1 pec1 n1 L1 Hok1 HL1 g2 pec2 n2 L2 Hok2 HL2 Hsame q k1 k2 e1 e2 w1 w2 ew1 ew2 r).
  - symmetry. assert (honest g2 g1 q) as Hq'.
    { intros a b ea eb Ha Hb Hca Hcb Hsp. symmetry. by apply (Hq b a eb ea). }
    apply (honest_sees g2 pec2 n2 L2 Hok2 HL2 g1 pec1 n1 L1 Hok1 HL1 (same_events_sym _ _ Hsame)
      q k2 k1 e2 e1 w2 w1 ew2 ew1 r); try done. lia.
Qed.

(** The votes that decide leave no majority for the other value. *)
Lemma quorum_votes y1 y2 ey1 ey2 r (b1 b2 : string → bool) v :
  g1 !! y1 = Some ey1 → g2 !! y2 = Some ey2 →
  (∀ w, is_Some (g1 !! w) → is_Some (g2 !! w) → b1 w = b2 w) →
  let ws1 := seen_witnesses ps g1 L1 y1 ey1 r in
  let ws2 := seen_witnesses ps g2 L2 y2 ey2 r in
  SuperMajority ps ≤ tally (votes_of b1 ws1) → majority (votes_of b1 ws1) = v →
  SuperMajority ps ≤ Z.of_nat (size ws2) → majority (votes_of b2 ws2) = v.
Proof.
  intros Hy1 Hy2 Hb ws1 ws2 Ht Hm Hq.
  set (A := filter (λ w, Bool.eqb (b1 w) v) ws1). set (B := filter (λ w, negb (Bool.eqb (b2 w) v)) ws2).
  assert (∀ b ws, filter (λ w, Bool.eqb (b w) v) ws =
    if v then filter (λ w, b w) ws else filter (λ w, negb (b w)) (ws : gset string)) as Hfil.
  { intros b ws. destruct v; apply set_eq; intros w; rewrite !elem_of_filter; by destruct (b w). }
  assert (SuperMajority ps ≤ Z.of_nat (size A)) as HA.
  { unfold A. rewrite Hfil. unfold tally in Ht. rewrite Hm in Ht. by destruct v. }
  set (creator w := match g1 !! w with Some e => Creator e | None =>
    match g2 !! w with Some e => Creator e | None => "" end end).
  assert (∀ w e, g1 !! w = Some e → creator w = Creator e) as Hcr1.
  { intros w e Hw. unfold creator. by rewrite Hw. }
  assert (∀ w e, g2 !! w = Some e → creator w = Creator e) as Hcr2.
  { intros w e Hw. unfold creator. rewrite Hw. destruct (g1 !! w) as [e1|] eqn:Hw1; [|done].
    by destruct (same_fields g1 g2 Hsame w e1 e Hw1 Hw) as (_ & ? & _). }
  assert (size (A ∪ B) ≤ size (dom (ByPubKey ps)))%nat as Hle.
  { apply (inj_size creator).
    - intros w [Hw|Hw]%elem_of_union; apply elem_of_filter in Hw as [_ Hw];
        apply elem_of_seen in Hw as (ew & Hw & _ & HLw & _).
      + rewrite (Hcr1 w ew Hw). by apply (witness_peer g1 L1 HL1 w ew r).
      + rewrite (Hcr2 w ew Hw). by apply (witness_peer g2 L2 HL2 w ew r).
    - intros w w' [Hw|Hw]%elem_of_union [Hw'|Hw']%elem_of_union;
        apply elem_of_filter in Hw as [_ Hw], Hw' as [_ Hw'];
        apply elem_of_seen in Hw as (ew & Hw & _ & HLw & Hs), Hw' as (ew' & Hw' & _ & HLw' & Hs').
      + rewrite (Hcr1 w ew Hw), (Hcr1 w' ew' Hw'). by apply (unique_witness g1 pec1 n1 L1 Hok1 HL1 _ _ _ _ r).
      + rewrite (Hcr1 w ew Hw), (Hcr2 w' ew' Hw'). by apply (seen_unique y1 y2 ey1 ey2 _ _ _ _ r).
      + rewrite (Hcr2 w ew Hw), (Hcr1 w' ew' Hw'). intros Hc. symmetry.
        by apply (seen_unique y1 y2 ey1 ey2 _ _ ew' ew r).
      + rewrite (Hcr2 w ew Hw), (Hcr2 w' ew' Hw'). by apply (unique_witness g2 pec2 n2 L2 Hok2 HL2 _ _ _ _ r). }
  assert (A ## B) as Hdisj.
  { intros w Ha Hw. apply elem_of_filter in Ha as [Ha Ha'], Hw as [Hw Hw'].
    apply elem_of_seen in Ha' as (ea & Hga & _), Hw' as (ew & Hgw & _).
    rewrite (Hb w) in Ha by eauto. by destruct (Bool.eqb (b2 w) v). }
  rewrite size_union in Hle by done.
  pose proof (size_split b2 ws2) as Hsplit.
  assert (B = if v then filter (λ w, negb (b2 w)) ws2 else filter (λ w, b2 w) ws2) as HB.
  { destruct v; apply set_eq; intros w; unfold B; rewrite !elem_of_filter; by destruct (b2 w). }
  rewrite HB in Hle. destruct (supermajority_bounds ps) as [Hbd _]. unfold PS_Len in Hbd.
  rewrite size_dom in Hle. unfold majority, votes_of. simpl. destruct v; lia.
Qed.
End agree.

(** Once all the witnesses of a round vote the same, so do the later ones. *)
Section unanimous.
Context g pec n L (Hok : dag_ok g pec n) (HL : ledger ps g L) (r : Z) (x : string) (v : bool).
Definition unanimous (d : nat) : Prop :=
  ∀ y ey, g !! y = Some ey → L !! y = Some (r + Z.of_nat d, true) → ballot g L r x d y = v.
Lemma unanimous_collected d y ey : 0 ≤ r → unanimous d →
  g !! y = Some ey → L !! y = Some (r + Z.of_nat (S d), true) →
  SuperMajority ps ≤ tally (collected g L r x d y ey) ∧ majority (collected g L r x d y ey) = v.
Proof.
  intros Hr Hu Hy HLy. pose proof (round_quorum g pec n L Hok HL y ey _ _ Hy HLy ltac:(lia)) as Hq.
  replace (r + Z.of_nat (S d) - 1) with (r + Z.of_nat d) in Hq by lia.
  unfold collected. rewrite (votes_of_ext _ (λ _, v)).
  - pose proof (size_split (λ _, v) (seen_witnesses ps g L y ey (r + Z.of_nat d))) as Hsplit.
    pose proof (SuperMajority_pos ps). unfold tally, majority, votes_of. cbn [fst snd].
    assert (∀ A : gset string, filter (λ _, false) A = ∅) as Hno.
    { intros A. apply set_eq. intros a. rewrite elem_of_filter. set_solver. }
    destruct v; cbn [negb] in *; rewrite Hno, size_empty in *; destruct (_ <=? _) eqn:Hle; lia.
  - intros w (ew & Hw & _ & HLw & _)%elem_of_seen. by apply (Hu w ew).
Qed.
Lemma unanimous_step d : 0 ≤ r → (1 ≤ d)%nat → unanimous d → unanimous (S d).
Proof.
  intros Hr Hd Hu y ey Hy HLy. rewrite (ballot_step g L r x d y ey Hd Hy).
  destruct (unanimous_collected d y ey Hr Hu Hy HLy) as [Ht Hm]. unfold cast.
  apply Z.leb_le in Ht. rewrite Ht, Hm. by destruct (negb _).
Qed.
Lemma unanimous_later d d' : 0 ≤ r → (1 ≤ d)%nat → (d ≤ d')%nat → unanimous d → unanimous d'.
Proof.
  intros Hr Hd Hle Hu. induction Hle as [|d' Hle IH]; [done|]. apply unanimous_step; [done|lia|done].
Qed.
End unanimous.

(** ** Agreement *)
Lemma decided_earlier g1 pec1 n1 L1 g2 pec2 n2 L2 r x v1 d1 y1 ey1 d2 y2 ey2 :
  dag_ok g1 pec1 n1 → ledger ps g1 L1 → dag_ok g2 pec2 n2 → ledger ps g2 L2 →
  same_events g1 g2 → few_forks g1 g2 → is_Some (g1 !! x) → is_Some (g2 !! x) → 0 ≤ r →
  (1 ≤ d1)%nat → (d1 ≤ d2)%nat → Z.of_nat (S d1) mod COIN_ROUND_FREQ ≠ 0 →
  g1 !! y1 = Some ey1 → L1 !! y1 = Some (r + Z.of_nat (S d1), true) →
  SuperMajority ps ≤ tally (collected g1 L1 r x d1 y1 ey1) →
  majority (collected g1 L1 r x d1 y1 ey1) = v1 →
  g2 !! y2 = Some ey2 → L2 !! y2 = Some (r + Z.of_nat (S d2), true) →
  majority (collected g2 L2 r x d2 y2 ey2) = v1.
Proof.
  intros Hok1 HL1 Hok2 HL2 Hsame Hforks Hx1 Hx2 Hr Hd1 Hle Hcoin Hy1 HLy1 Ht Hm Hy2 HLy2.
  assert (∀ y ey, g2 !! y = Some ey → L2 !! y = Some (r + Z.of_nat (S d1), true) →
    majority (collected g2 L2 r x d1 y ey) = v1) as Hmaj.
  { intros y ey Hy HLy. apply (quorum_votes g1 pec1 n1 L1 Hok1 HL1 g2 pec2 n2 L2 Hok2 HL2 Hsame Hforks
      y1 y ey1 ey _ (ballot g1 L1 r x d1)); try done.
    - intros w Hw1 Hw2. by apply (ballot_agree g1 pec1 n1 L1 Hok1 HL1 g2 pec2 n2 L2).
    - pose proof (round_quorum g2 pec2 n2 L2 Hok2 HL2 y ey _ _ Hy HLy ltac:(lia)) as Hq.
      by replace (r + Z.of_nat (S d1) - 1) with (r + Z.of_nat d1) in Hq by lia. }
  destruct (decide (d1 = d2)) as [<-|Hne]; [by apply Hmaj|].
  assert (unanimous g2 L2 r x v1 (S d1)) as Hu.
  { intros y ey Hy HLy. rewrite (ballot_step g2 L2 r x d1 y ey Hd1 Hy). unfold cast.
    destruct (Z.eqb_spec (Z.of_nat (S d1) mod COIN_ROUND_FREQ) 0); [done|]. by apply Hmaj. }
  apply (unanimous_collected g2 pec2 n2 L2 Hok2 HL2 r x v1 d2 y2 ey2 Hr); [|done..].
  apply (unanimous_later g2 pec2 n2 L2 Hok2 HL2 r x v1 (S d1)); [done|lia|lia|done].
Qed.
Lemma fames_agree g1 pec1 n1 L1 g2 pec2 n2 L2 r x v1 v2 :
  dag_ok g1 pec1 n1 → ledger ps g1 L1 → dag_ok g2 pec2 n2 → ledger ps g2 L2 →
  same_events g1 g2 → few_forks g1 g2 → is_Some (g1 !! x) → is_Some (g2 !! x) → 0 ≤ r →
  decided g1 L1 r x v1 → decided g2 L2 r x v2 → v1 = v2.
Proof.
  intros Hok1 HL1 Hok2 HL2 Hsame Hforks Hx1 Hx2 Hr
    (d1 & y1 & ey1 & Hd1 & Hy1 & HLy1 & Hc1 & Ht1 & Hm1) (d2 & y2 & ey2 & Hd2 & Hy2 & HLy2 & Hc2 & Ht2 & Hm2).
  destruct (decide (d1 ≤ d2)%nat) as [Hle|Hgt].
  - rewrite <-Hm2. symmetry.
    by apply (decided_earlier g1 pec1 n1 L1 g2 pec2 n2 L2 r x v1 d1 y1 ey1 d2 y2 ey2).
  - rewrite <-Hm1. apply (decided_earlier g2 pec2 n2 L2 g1 pec1 n1 L1 r x v2 d2 y2 ey2 d1 y1 ey1);
      auto using same_events_sym, few_forks_sym. lia.
Qed.
(** A decision stays one as the graph grows. *)
Lemma decided_agree g1 pec1 n1 L1 g2 pec2 n2 L2 r x v :
  dag_ok g1 pec1 n1 → ledger ps g1 L1 → dag_ok g2 pec2 n2 → ledger ps g2 L2 →
  same_events g1 g2 → dom g1 ⊆ dom g2 → is_Some (g1 !! x) →
  decided g1 L1 r x v → decided g2 L2 r x v.
Proof.
  intros Hok1 HL1 Hok2 HL2 Hsame Hsub Hx (d & y & ey1 & Hd & Hy & HLy & Hc & Ht & Hm).
  assert (∀ z, is_Some (g1 !! z) → is_Some (g2 !! z)) as Hin.
  { intros z Hz. apply elem_of_dom, Hsub, elem_of_dom, Hz. }
  destruct (Hin y) as [ey2 Hy2]; [eauto|].
  pose proof (collected_agree g1 pec1 n1 L1 Hok1 HL1 g2 pec2 n2 L2 Hok2 HL2 Hsame r x d y ey1 ey2
    Hx (Hin x Hx) Hy Hy2) as Hcol.
  exists d, y, ey2. split; [done|]. split; [done|].
  split; [|by rewrite <-Hcol].
  rewrite <-HLy. symmetry. apply (ledgers_agree ps g1 pec1 n1 L1 g2 pec2 n2 L2); eauto.
Qed.
End votes.
