(* ===== verification/Received.v ===== *)
(** * The round in which a graph receives an event

    [famous r x]: the graph has decided that [x] is a famous witness of round
    [r]. [round_settled r]: at some point the graph had decided on all the
    witnesses of round [r] that it knew. From then on the famous witnesses of
    the round do not change, in this graph or in any other that has settled
    the round: a witness that comes late is not famous ([famous_agree]).
    Hence [received], the round in which an event is received, is the same in
    all of them ([received_agree]). *)
From S2P Require Export Votes.

Section received.
Context {KP : Keys} {CP : Codec} {RO : RangeOrder}.
Context (ps : PeerSet) (Hsm : 2 ≤ SuperMajority ps).
Implicit Types (g : gmap string Event) (L : gmap string (Z * bool)) (F S : gset string).

Definition closed g S : Prop := ∀ a b, a ∈ S → reach g a b → b ∈ S.
(** [S] is what the graph was when the round was decided. *)
Definition round_settled g L (r : Z) : Prop :=
  ∃ S, S ⊆ dom g ∧ closed g S ∧
    (∀ x, x ∈ S → L !! x = Some (r, true) → ∃ v, decided ps g L r x v) ∧
    ∃ z, z ∈ S ∧ L !! z = Some (r + 2, true).
Definition famous g L (r : Z) (x : string) : Prop :=
  L !! x = Some (r, true) ∧ decided ps g L r x true.
Definition famous_set g L (r : Z) F : Prop := ∀ w, w ∈ F ↔ famous g L r w.

(** All the famous witnesses of round [i] descend from [x], and they are
    enough; or not. *)
Definition receives g L (x : string) (i : Z) (b : bool) : Prop :=
  round_settled g L i ∧ ∃ F, famous_set g L i F ∧
    (b = true ↔ SuperMajority ps ≤ Z.of_nat (size F) ∧ ∀ w, w ∈ F → reach g w x).
Definition received g L (x : string) (i : Z) : Prop :=
  ∃ r w, L !! x = Some (r, w) ∧ r < i ∧ receives g L x i true ∧
    ∀ i', r < i' < i → receives g L x i' false.

Lemma famous_known g L r x : ledger ps g L → famous g L r x → is_Some (g !! x).
Proof. intros HL [HLx _]. apply HL. eauto. Qed.

Section two.
Context g1 pec1 n1 L1 (Hok1 : dag_ok g1 pec1 n1) (HL1 : ledger ps g1 L1).
Context g2 pec2 n2 L2 (Hok2 : dag_ok g2 pec2 n2) (HL2 : ledger ps g2 L2).
Context (Hsame : same_events g1 g2) (Hforks : few_forks ps g1 g2).

(** A witness that was not known when the round was decided elsewhere is not
    famous: the next round there does not descend from it. *)
Lemma late_not_famous S z r x v : S ⊆ dom g2 → closed g2 S → z ∈ S → L2 !! z = Some (r + 2, true) →
  0 ≤ r → L1 !! x = Some (r, true) → x ∉ S → decided ps g1 L1 r x v → v = false.
Proof.
  intros HS Hcl Hz HLz Hr HLx Hx (d & y & ey & Hd & Hy & HLy & Hc & Ht & Hm).
  assert (is_Some (g2 !! z)) as [ez Hez] by (apply elem_of_dom; auto).
  assert (is_Some (g1 !! x)) as [ex Hex1] by (apply HL1; eauto).
  set (A := seen_witnesses ps g2 L2 z ez (r + 1)).
  assert (SuperMajority ps ≤ Z.of_nat (size A)) as HA.
  { pose proof (round_quorum ps g2 pec2 n2 L2 Hok2 HL2 z ez _ _ Hez HLz ltac:(lia)) as Hq.
    by replace (r + 2 - 1) with (r + 1) in Hq by lia. }
  set (b w := negb (bool_decide (w ∈ A)) && ballot ps g1 L1 r x 1 w).
  assert (∀ w, is_Some (g2 !! w) → is_Some (g1 !! w) → b w = ballot ps g1 L1 r x 1 w) as Hb.
  { intros w Hw2 [ew1 Hw1]. unfold b. case_bool_decide as HwA; [|done]. simpl. symmetry.
    apply elem_of_seen in HwA as (ew2 & Hew2 & _ & _ & Hss). rewrite Hw1, Hex1.
    apply not_true_is_false. intros Hs. apply (sees_reach g1 pec1 n1 w x) in Hs; [|done..].
    destruct (reach_transfer g1 pec1 n1 g2 pec2 n2 Hok1 Hok2 Hsame w x Hw2 Hs) as [_ Hwx].
    destruct (ss_of_counted ps _ _ _ _ Hss) as [p Hp].
    pose proof (counted_reach g2 pec2 n2 L2 Hok2 z ez Hez w ew2 p Hew2 Hp) as Hzw.
    apply Hx, (Hcl z x Hz). by etrans. }
  assert (∀ y' ey', g1 !! y' = Some ey' → L1 !! y' = Some (r + 2, true) →
    majority (collected ps g1 L1 r x 1 y' ey') = false) as Hmaj.
  { intros y' ey' Hy' HLy'.
    assert (votes_of b A = (0, Z.of_nat (size A))) as Hvotes.
    { rewrite (votes_of_ext b (λ _, false)).
      - unfold votes_of. f_equal.
        + assert (filter (λ _ : string, false) A = ∅) as ->; [|by rewrite size_empty].
          apply set_eq. intros a. rewrite elem_of_filter. set_solver.
        + do 2 f_equal. apply set_eq. intros a. rewrite elem_of_filter. simpl. naive_solver.
      - intros w Hw. unfold b. by rewrite bool_decide_eq_true_2. }
    pose proof (SuperMajority_pos ps).
    apply (quorum_votes ps g2 pec2 n2 L2 Hok2 HL2 g1 pec1 n1 L1 Hok1 HL1 (same_events_sym _ _ Hsame)
      (few_forks_sym ps _ _ Hforks) z y' ez ey' (r + 1) b (ballot ps g1 L1 r x 1) false Hez Hy' Hb).
    - fold A. rewrite Hvotes. unfold tally, majority. simpl. destruct (_ <=? _) eqn:Hle; lia.
    - fold A. rewrite Hvotes. unfold majority. simpl. lia.
    - pose proof (round_quorum ps g1 pec1 n1 L1 Hok1 HL1 y' ey' _ _ Hy' HLy' ltac:(lia)) as Hq.
      by replace (r + 2 - 1) with (r + 1) in Hq by lia. }
  destruct d as [|[|d]]; [lia| |].
  { rewrite <-Hm. apply Hmaj; [done|]. by replace (r + 2) with (r + Z.of_nat 2) by lia. }
  assert (unanimous ps g1 L1 r x false 2) as Hu.
  { intros y' ey' Hy' HLy'. rewrite (ballot_step ps g1 L1 r x 1 y' ey') by (try done; lia).
    unfold cast. simpl. apply Hmaj; [done|]. by replace (r + 2) with (r + Z.of_nat 2) by lia. }
  rewrite <-Hm. apply (unanimous_collected ps g1 pec1 n1 L1 Hok1 HL1 r x false _ y ey Hr); [|done..].
  apply (unanimous_later ps g1 pec1 n1 L1 Hok1 HL1 r x false 2); [done|lia|lia|done].
Qed.
Lemma famous_agree r x : round_settled g2 L2 r → famous g1 L1 r x → famous g2 L2 r x.
Proof.
  intros (S & HS & Hcl & Hdec & z & Hz & HLz) [HLx Hd].
  pose proof (proj1 (proj2 HL1) x _ _ HLx) as Hr.
  assert (is_Some (g1 !! x)) as Hx1 by (apply HL1; eauto).
  destruct (decide (x ∈ S)) as [HxS|HxS].
  - assert (is_Some (g2 !! x)) as Hx2 by (apply elem_of_dom; auto).
    assert (L2 !! x = Some (r, true)) as HLx2.
    { rewrite <-HLx. symmetry. by apply (ledgers_agree ps g1 pec1 n1 L1 g2 pec2 n2 L2). }
    split; [done|]. destruct (Hdec x HxS HLx2) as [v Hv].
    by rewrite (fames_agree ps g1 pec1 n1 L1 g2 pec2 n2 L2 r x true v Hok1 HL1 Hok2 HL2 Hsame Hforks
      Hx1 Hx2 Hr Hd Hv).
  - by pose proof (late_not_famous S z r x true HS Hcl Hz HLz Hr HLx HxS Hd).
Qed.
End two.

Section agree.
Context g1 pec1 n1 L1 (Hok1 : dag_ok g1 pec1 n1) (HL1 : ledger ps g1 L1).
Context g2 pec2 n2 L2 (Hok2 : dag_ok g2 pec2 n2) (HL2 : ledger ps g2 L2).
Context (Hsame : same_events g1 g2) (Hforks : few_forks ps g1 g2).

Lemma famous_sets_agree r F1 F2 : round_settled g1 L1 r → round_settled g2 L2 r →
  famous_set g1 L1 r F1 → famous_set g2 L2 r F2 → F1 = F2.
Proof.
  intros Hs1 Hs2 HF1 HF2. apply set_eq. intros w. rewrite (HF1 w), (HF2 w). split.
  - by apply (famous_agree g1 pec1 n1 L1 Hok1 HL1 g2 pec2 n2 L2).
  - apply (famous_agree g2 pec2 n2 L2 Hok2 HL2 g1 pec1 n1 L1); auto using same_events_sym, few_forks_sym.
Qed.
Lemma receives_agree x i b1 b2 : is_Some (g1 !! x) → is_Some (g2 !! x) →
  receives g1 L1 x i b1 → receives g2 L2 x i b2 → b1 = b2.
Proof.
  intros Hx1 Hx2 (Hs1 & F1 & HF1 & Hb1) (Hs2 & F2 & HF2 & Hb2).
  pose proof (famous_sets_agree i F1 F2 Hs1 Hs2 HF1 HF2) as <-.
  apply eq_iff_eq_true. rewrite Hb1, Hb2.
  assert (∀ w, w ∈ F1 → reach g1 w x ↔ reach g2 w x) as Hr.
  { intros w Hw. pose proof (famous_known g1 L1 i w HL1 (proj1 (HF1 w) Hw)) as Hw1.
    pose proof (famous_known g2 L2 i w HL2 (proj1 (HF2 w) Hw)) as Hw2. split.
    - by apply (reach_transfer g1 pec1 n1 g2 pec2 n2).
    - apply (reach_transfer g2 pec2 n2 g1 pec1 n1); auto using same_events_sym. }
  split; intros [Hq Hall]; (split; [done|]); intros w Hw; by apply Hr; [|apply Hall].
Qed.
Lemma received_le x i1 i2 : received g1 L1 x i1 → received g2 L2 x i2 → i2 ≤ i1.
Proof.
  intros (r1 & w1 & HLx1 & Hi1 & Hr1 & _) (r2 & w2 & HLx2 & _ & _ & Hp2).
  assert (is_Some (g1 !! x)) as Hx1 by (apply HL1; eauto).
  assert (is_Some (g2 !! x)) as Hx2 by (apply HL2; eauto).
  pose proof (ledgers_agree ps _ _ _ L1 _ _ _ L2 Hok1 Hok2 Hsame HL1 HL2 x Hx1 Hx2) as Heq.
  assert (r2 = r1) as -> by congruence.
  destruct (decide (i2 ≤ i1)) as [|Hgt]; [done|].
  by pose proof (receives_agree x i1 true false Hx1 Hx2 Hr1 (Hp2 i1 ltac:(lia))).
Qed.
End agree.
Lemma received_agree g1 pec1 n1 L1 g2 pec2 n2 L2 x i1 i2 :
  dag_ok g1 pec1 n1 → ledger ps g1 L1 → dag_ok g2 pec2 n2 → ledger ps g2 L2 →
  same_events g1 g2 → few_forks ps g1 g2 →
  received g1 L1 x i1 → received g2 L2 x i2 → i1 = i2.
Proof.
  intros Hok1 HL1 Hok2 HL2 Hsame Hforks H1 H2. apply Z.le_antisymm.
  - apply (received_le g2 pec2 n2 L2 Hok2 HL2 g1 pec1 n1 L1 Hok1 HL1 (same_events_sym _ _ Hsame)
      (few_forks_sym ps _ _ Hforks) x i2 i1 H2 H1).
  - apply (received_le g1 pec1 n1 L1 Hok1 HL1 g2 pec2 n2 L2 Hok2 HL2 Hsame Hforks x i1 i2 H1 H2).
Qed.

(** ** A graph that grows *)
Section grow.
Context g1 pec1 n1 L1 (Hok1 : dag_ok g1 pec1 n1) (HL1 : ledger ps g1 L1).
Context g2 pec2 n2 L2 (Hok2 : dag_ok g2 pec2 n2) (HL2 : ledger ps g2 L2).
Context (Hsame : same_events g1 g2) (Hsub : dom g1 ⊆ dom g2).

Lemma grow_in x : is_Some (g1 !! x) → is_Some (g2 !! x).
Proof. intros Hx. apply elem_of_dom, Hsub, elem_of_dom, Hx. Qed.
Lemma grow_ledger x : is_Some (g1 !! x) → L2 !! x = L1 !! x.
Proof.
  intros Hx. symmetry. apply (ledgers_agree ps g1 pec1 n1 L1 g2 pec2 n2 L2); try done. by apply grow_in.
Qed.
Lemma grow_forks : few_forks ps g1 g2.
Proof.
  exists ∅. split.
  - rewrite size_empty. unfold SuperMajority in Hsm. pose proof (PS_Len_nonneg ps).
    assert (PS_Len ps ≠ 0); [|lia]. intros H0. rewrite H0 in Hsm. done.
  - intros q _ _ k1 k2 e1 e2 Hk1 Hk2 Hc1 Hc2 Hsp.
    destruct (grow_in k1) as [e1' Hk1']; [eauto|].
    destruct (same_fields g1 g2 Hsame k1 e1 e1' Hk1 Hk1') as (_ & Hc' & _ & Hsp' & _).
    apply (dag_unique _ _ _ Hok2 k1 k2 e1' e2 Hk1' Hk2); [congruence|].
    destruct (dag_self _ _ _ Hok2 k1 e1' Hk1') as [H0|(p & Hp & _ & Hi)],
      (dag_self _ _ _ Hok2 k2 e2 Hk2) as [H0'|(p' & Hp' & _ & Hi')].
    + pose proof (dag_first _ _ _ Hok2 k1 k2 e1' e2 Hk1' Hk2 H0 ltac:(congruence)).
      pose proof (dag_first _ _ _ Hok2 k2 k1 e2 e1' Hk2 Hk1' H0' ltac:(congruence)). lia.
    + rewrite <-Hsp, Hsp', H0, (dag_empty_key _ _ _ Hok2) in Hp'. done.
    + rewrite <-Hsp', Hsp, H0', (dag_empty_key _ _ _ Hok2) in Hp. done.
    + assert (p = p') as -> by congruence. lia.
Qed.
Lemma grow_settled r : round_settled g1 L1 r → round_settled g2 L2 r.
Proof.
  intros (S & HS & Hcl & Hdec & z & Hz & HLz). exists S. split; [set_solver|].
  assert (∀ a, a ∈ S → is_Some (g1 !! a)) as Hin by (intros a Ha; apply elem_of_dom; auto).
  split; [|split].
  - intros a b Ha Hr. apply (Hcl a b Ha).
    apply (reach_transfer g2 pec2 n2 g1 pec1 n1); auto using same_events_sym.
  - intros x Hx HLx. rewrite grow_ledger in HLx by auto. destruct (Hdec x Hx HLx) as [v Hv].
    exists v. apply (decided_agree ps g1 pec1 n1 L1 g2 pec2 n2 L2); auto.
  - exists z. split; [done|]. by rewrite grow_ledger by auto.
Qed.
Lemma grow_famous r F : round_settled g1 L1 r → famous_set g1 L1 r F → famous_set g2 L2 r F.
Proof.
  intros Hs HF w. rewrite (HF w). split.
  - intros [HLw Hd]. assert (is_Some (g1 !! w)) as Hw by (apply HL1; eauto).
    split; [by rewrite grow_ledger|]. by apply (decided_agree ps g1 pec1 n1 L1 g2 pec2 n2 L2).
  - apply (famous_agree g2 pec2 n2 L2 Hok2 HL2 g1 pec1 n1 L1 Hok1 HL1);
      auto using same_events_sym, few_forks_sym, grow_forks.
Qed.
Lemma grow_receives x i b : is_Some (g1 !! x) → receives g1 L1 x i b → receives g2 L2 x i b.
Proof.
  intros Hx (Hs & F & HF & Hb). split; [by apply grow_settled|]. exists F.
  split; [by apply grow_famous|]. rewrite Hb.
  assert (∀ w, w ∈ F → reach g1 w x ↔ reach g2 w x) as Hr.
  { intros w Hw. pose proof (famous_known g1 L1 i w HL1 (proj1 (HF w) Hw)) as Hw1. split.
    - apply (reach_transfer g1 pec1 n1 g2 pec2 n2); auto using grow_in.
    - apply (reach_transfer g2 pec2 n2 g1 pec1 n1); auto using same_events_sym. }
  split; intros [Hq Hall]; (split; [done|]); intros w Hw; by apply Hr; [|apply Hall].
Qed.
Lemma grow_received x i : received g1 L1 x i → received g2 L2 x i.
Proof.
  intros (r & w & HLx & Hi & Hr & Hp). assert (is_Some (g1 !! x)) as Hx by (apply HL1; eauto).
  exists r, w. split; [by rewrite grow_ledger|]. split; [done|].
  split; [by apply grow_receives|]. intros i' Hi'. by apply grow_receives; [|apply Hp].
Qed.
(** and what it receives in a round that was settled before was received
    before. *)
Lemma famous_back r w : round_settled g1 L1 r → famous g2 L2 r w → famous g1 L1 r w.
Proof.
  apply (famous_agree g2 pec2 n2 L2 Hok2 HL2 g1 pec1 n1 L1 Hok1 HL1);
    auto using same_events_sym, few_forks_sym, grow_forks.
Qed.
Lemma receives_back x i b : is_Some (g1 !! x) → round_settled g1 L1 i →
  receives g2 L2 x i b → receives g1 L1 x i b.
Proof.
  intros Hx Hs (_ & F & HF & Hb). assert (famous_set g1 L1 i F) as HF1.
  { intros w. rewrite (HF w). split; [by apply famous_back|]. intros [HLw Hd].
    assert (is_Some (g1 !! w)) as Hw by (apply HL1; eauto).
    split; [by rewrite grow_ledger|]. by apply (decided_agree ps g1 pec1 n1 L1 g2 pec2 n2 L2). }
  split; [done|]. exists F. split; [done|]. rewrite Hb.
  assert (∀ w, w ∈ F → reach g1 w x ↔ reach g2 w x) as Hr.
  { intros w Hw. pose proof (famous_known g1 L1 i w HL1 (proj1 (HF1 w) Hw)) as Hw1. split.
    - apply (reach_transfer g1 pec1 n1 g2 pec2 n2); auto using grow_in.
    - apply (reach_transfer g2 pec2 n2 g1 pec1 n1); auto using same_events_sym. }
  split; intros [Hq Hall]; (split; [done|]); intros w Hw; by apply Hr; [|apply Hall].
Qed.
Lemma received_back x i : (∀ j, 0 ≤ j ≤ i → round_settled g1 L1 j) →
  received g2 L2 x i → received g1 L1 x i.
Proof.
  intros Hs (r & w & HLx & Hi & Hr & Hp). pose proof (proj1 (proj2 HL2) x _ _ HLx) as Hr0.
  assert (is_Some (g1 !! x)) as Hx.
  { destruct Hr as (_ & F & HF & Hb). destruct (proj1 Hb eq_refl) as [Hq Hall].
    destruct (set_choose_or_empty F) as [[v Hv]|He]; [|apply size_empty_iff in He; lia].
    pose proof (famous_back i v (Hs i ltac:(lia)) (proj1 (HF v) Hv)) as Hv1.
    apply (reach_transfer g2 pec2 n2 g1 pec1 n1 Hok2 Hok1 (same_events_sym _ _ Hsame) v x); [|by apply Hall].
    by apply (famous_known g1 L1 i v). }
  exists r, w. split; [by rewrite <-grow_ledger|]. split; [done|].
  split; [apply receives_back; auto with lia|].
  intros i' Hi'. apply receives_back; [done|apply Hs; lia|]. by apply Hp.
Qed.
End grow.

(** ** A settled round is decided for good

    Whatever came after the events [S] by which the round was settled: a
    witness that is not among them has the votes of the next round against
    it. *)
Section settled.
Context g pec n L (Hok : dag_ok g pec n) (HL : ledger ps g L).

Lemma unseen_against S z ez r x ex : g !! x = Some ex → closed g S → z ∈ S → g !! z = Some ez → L !! z = Some (r + 2, true) →
  0 ≤ r → x ∉ S → decided ps g L r x false.
Proof.
  intros Hgx Hcl Hz Hez HLz Hr Hx. set (A := seen_witnesses ps g L z ez (r + 1)).
  pose proof (round_quorum ps g pec n L Hok HL z ez _ _ Hez HLz ltac:(lia)) as HA.
  replace (r + 2 - 1) with (r + 1) in HA by lia. fold A in HA.
  assert (collected ps g L r x 1 z ez = (0, Z.of_nat (size A))) as Hc.
  { unfold collected. change (r + Z.of_nat 1) with (r + 1). fold A.
    rewrite (votes_of_ext _ (λ _, false)).
    - unfold votes_of. f_equal.
      + assert (filter (λ _ : string, false) A = ∅) as ->; [|by rewrite size_empty].
        apply set_eq. intros a. rewrite elem_of_filter. set_solver.
      + do 2 f_equal. apply set_eq. intros a. rewrite elem_of_filter. simpl. naive_solver.
    - intros w Hw. apply elem_of_seen in Hw as (ew & Hew & _ & _ & Hss). cbn [ballot]. rewrite Hew, Hgx.
      apply not_true_is_false. intros Hs.
      apply (sees_reach g pec n w x) in Hs; [|done..].
      destruct (ss_of_counted ps _ _ _ _ Hss) as [p Hp].
      apply Hx, (Hcl z x Hz). etrans; [|exact Hs]. by apply (counted_reach g pec n L Hok z ez Hez w ew p). }
  exists 1%nat, z, ez. split; [done|]. split; [done|]. split; [by replace (r + Z.of_nat 2) with (r + 2) by lia|].
  split; [by vm_compute|]. rewrite Hc. unfold tally, majority. simpl.
  destruct (Z.leb_spec (Z.of_nat (size A)) 0); [lia|]. split; [lia|done].
Qed.
Lemma settled_decides r x : round_settled g L r → L !! x = Some (r, true) → ∃ v, decided ps g L r x v.
Proof.
  intros (S & HS & Hcl & Hdec & z & Hz & HLz) HLx. destruct (decide (x ∈ S)) as [|HxS]; [auto|].
  assert (is_Some (g !! z)) as [ez Hez] by (apply elem_of_dom; auto).
  assert (is_Some (g !! x)) as [ex Hex] by (apply HL; eauto).
  exists false. apply (unseen_against S z ez r x ex); try done. by apply (proj1 (proj2 HL) x _ _ HLx).
Qed.
(** It has enough witnesses. *)
Lemma settled_witnesses r : 0 ≤ r → round_settled g L r →
  ∃ W : gset string, SuperMajority ps ≤ Z.of_nat (size W) ∧ ∀ w, w ∈ W → L !! w = Some (r, true).
Proof.
  intros Hr (S & _ & _ & _ & z & _ & HLz).
  assert (is_Some (g !! z)) as [ez Hez] by (apply HL; eauto).
  pose proof (round_quorum ps g pec n L Hok HL z ez _ _ Hez HLz ltac:(lia)) as HA.
  destruct (set_choose_or_empty (seen_witnesses ps g L z ez (r + 2 - 1))) as [[y Hy]|He];
    [|apply size_empty_iff in He; lia].
  apply elem_of_seen in Hy as (ey & Hey & _ & HLy & _). replace (r + 2 - 1) with (r + 1) in HLy by lia.
  pose proof (round_quorum ps g pec n L Hok HL y ey _ _ Hey HLy ltac:(lia)) as HB.
  replace (r + 1 - 1) with r in HB by lia. exists (seen_witnesses ps g L y ey r). split; [done|].
  intros w (ew & _ & _ & HLw & _)%elem_of_seen. done.
Qed.
End settled.
End received.
