(* ===== verification/Content.v ===== *)
(** * What the graph determines of a frame

    [frame_ok i f]: the rounds up to [i] are settled, the events of the frame
    [f] are those that the graph receives in round [i], each once, sorted, and
    the timestamp is the median of those of the famous witnesses. Two graphs
    have the same frames ([frames_agree]), as far as the blocks that are made
    of them are concerned, provided that the signatures of an event are the
    same in both and that they differ from event to event: signatures break
    the ties between Lamport timestamps, and are not part of what is hashed. *)
From S2P Require Export Received.

Section content.
Context {KP : Keys} {CP : Codec} {RO : RangeOrder}.
Context (ps : PeerSet) (Hsm : 2 ≤ SuperMajority ps).
Implicit Types (g : gmap string Event) (L : gmap string (Z * bool)).

Definition fe_hex (fe : FrameEvent) : string := Hex (fe_Core fe).
Definition fe_ok g (fe : FrameEvent) : Prop :=
  g !! fe_hex fe = Some (skeleton (fe_Core fe)) ∧ lamport g (fe_hex fe) (fe_LamportTimestamp fe).
Definition events_of g L (i : Z) (evs : list FrameEvent) : Prop :=
  Sorted fe_le evs ∧ NoDup (fe_hex <$> evs) ∧ Forall (fe_ok g) evs ∧
  ∀ x, x ∈ fe_hex <$> evs ↔ received ps g L x i.
Definition stamp g (w : string) : Z := from_option Timestamp 0 (g !! w).
Definition stamped g L (i t : Z) : Prop :=
  ∃ ws, NoDup ws ∧ famous_set ps g L i (list_to_set ws) ∧ t = Median (stamp g <$> ws).
Definition frame_ok g L (i : Z) (f : Frame) : Prop :=
  (∀ j, 0 ≤ j ≤ i → round_settled ps g L j) ∧ 0 ≤ i ∧ fr_Round f = i ∧ fr_Peers f = Peers ps ∧
  events_of g L i (fr_Events f) ∧ stamped g L i (fr_Timestamp f).

(** ** Growing *)
Lemma lamport_grow g g' x v : g ⊆ g' → lamport g x v → lamport g' x v.
Proof.
  intros Hsub Hl. rewrite map_subseteq_spec in Hsub.
  induction Hl using lamport_ind2 with (P0 := λ p v _, lamport_parent g' p v).
  - by econstructor; [apply Hsub| |].
  - constructor.
  - by constructor.
Qed.
Section grow.
Context g pec n L (Hok : dag_ok g pec n) (HL : ledger ps g L).
Context g' pec' n' L' (Hok' : dag_ok g' pec' n') (HL' : ledger ps g' L') (Hsub : g ⊆ g').
Lemma sub_same : same_events g g'.
Proof. intros k e1 e2 H1 H2. rewrite map_subseteq_spec in Hsub. apply Hsub in H1. congruence. Qed.
Lemma sub_dom : dom g ⊆ dom g'.
Proof. by apply subseteq_dom. Qed.
Lemma frame_ok_grow i f : frame_ok g L i f → frame_ok g' L' i f.
Proof.
  pose proof sub_same as Hsame. pose proof sub_dom as Hdom.
  intros (Hs & Hi & Hr & Hp & (Hsort & Hnd & Hev & Hin) & ws & Hws & HF & Ht).
  split; [|split; [done|]; split; [done|]; split; [done|]; split].
  - intros j Hj. apply (grow_settled ps Hsm g pec n L Hok HL g' pec' n' L' Hok' HL'); auto.
  - split; [done|]. split; [done|]. split.
    + eapply Forall_impl; [exact Hev|]. intros fe [Hg Hl]. split; [|by apply (lamport_grow g)].
      rewrite map_subseteq_spec in Hsub. by apply Hsub.
    + intros x. rewrite Hin. split.
      * by apply (grow_received ps Hsm g pec n L Hok HL g' pec' n' L' Hok' HL').
      * by apply (received_back ps Hsm g pec n L Hok HL g' pec' n' L' Hok' HL').
  - exists ws. split; [done|]. split.
    + apply (grow_famous ps Hsm g pec n L Hok HL g' pec' n' L' Hok' HL'); auto. apply Hs. lia.
    + rewrite Ht. f_equal. apply list_fmap_ext. intros k w Hw. unfold stamp.
      assert (is_Some (g !! w)) as [ew Hw'].
      { apply (famous_known ps g L i w HL), HF. apply elem_of_list_to_set. by eapply list_elem_of_lookup_2. }
      rewrite map_subseteq_spec in Hsub. by rewrite Hw', (Hsub _ _ Hw').
Qed.
End grow.

(** ** Agreement *)
Lemma Median_perm l l' : l ≡ₚ l' → Median l = Median l'.
Proof.
  intros Hp. unfold Median. assert (merge_sort Z.le l = merge_sort Z.le l') as ->; [|done].
  apply (StronglySorted_unique Z.le).
  - apply (StronglySorted_merge_sort Z.le).
  - apply (StronglySorted_merge_sort Z.le).
  - by rewrite !merge_sort_Permutation.
Qed.
Section agree.
Context g1 pec1 n1 L1 (Hok1 : dag_ok g1 pec1 n1) (HL1 : ledger ps g1 L1).
Context g2 pec2 n2 L2 (Hok2 : dag_ok g2 pec2 n2) (HL2 : ledger ps g2 L2).
Context (Hsame : same_events g1 g2) (Hforks : few_forks ps g1 g2).

Lemma lamport_agree x v1 v2 : lamport g1 x v1 → lamport g2 x v2 → v1 = v2.
Proof.
  intros H1. revert v2. induction H1 as [x e v w He _ IHv _ IHw| |p v Hp _ IH] using lamport_ind2 with
    (P0 := λ p v _, ∀ v2, lamport_parent g2 p v2 → v = v2); intros v2 H2.
  - destruct H2 as [x e2 v' w' He2 Hv Hw].
    destruct (same_fields g1 g2 Hsame x e e2 He He2) as (_ & _ & _ & Hsp & Hop).
    rewrite <-Hsp in Hv. rewrite <-Hop in Hw. rewrite (IHv _ Hv), (IHw _ Hw). done.
  - by inversion H2.
  - inversion H2; subst; [done|]. auto.
Qed.

(** The signatures of an event are the same in both graphs, and tell events
    apart. *)
Definition same_signatures : Prop :=
  ∀ x e1 e2, g1 !! x = Some e1 → g2 !! x = Some e2 → ev_Signature e1 = ev_Signature e2.
Definition distinct_signatures : Prop :=
  ∀ x y ex ey, g1 !! x = Some ex → g1 !! y = Some ey →
    default 0 (sig_r ex) = default 0 (sig_r ey) → x = y.
Context (Hsig : same_signatures) (Hdist : distinct_signatures).

Definition fe_key (fe : FrameEvent) : string * (Z * Z) := (fe_hex fe, fe_sort_key fe).
Definition key_le (a b : string * (Z * Z)) : Prop :=
  a.2.1 < b.2.1 ∨ (a.2.1 = b.2.1 ∧ a.2.2 ≤ b.2.2).
#[local] Instance key_le_trans : Transitive key_le.
Proof. intros a b c. unfold key_le. lia. Qed.
Lemma keys_sorted evs : Sorted fe_le evs → StronglySorted key_le (fe_key <$> evs).
Proof.
  intros Hs. apply Sorted_StronglySorted; [apply _|].
  induction Hs as [|fe evs _ IH Hhd]; csimpl; constructor; [done|]. by destruct Hhd; csimpl; constructor.
Qed.
Lemma keys_agree i evs1 evs2 : events_of g1 L1 i evs1 → events_of g2 L2 i evs2 →
  (∀ x, received ps g1 L1 x i ↔ received ps g2 L2 x i) → fe_key <$> evs1 = fe_key <$> evs2.
Proof.
  intros (Hs1 & Hnd1 & Hev1 & Hin1) (Hs2 & Hnd2 & Hev2 & Hin2) Hiff. rewrite Forall_forall in Hev1, Hev2.
  assert (∀ fe1 fe2, fe1 ∈ evs1 → fe2 ∈ evs2 → fe_hex fe1 = fe_hex fe2 → fe_key fe1 = fe_key fe2) as Hkey.
  { intros fe1 fe2 H1 H2 Hhx. destruct (Hev1 fe1 H1) as [Hg1 Hl1], (Hev2 fe2 H2) as [Hg2 Hl2].
    rewrite <-Hhx in Hg2, Hl2. unfold fe_key, fe_sort_key. rewrite (lamport_agree _ _ _ Hl1 Hl2), Hhx.
    unfold sig_r. pose proof (Hsig _ _ _ Hg1 Hg2) as Heq. simpl in Heq. by rewrite Heq. }
  assert (∀ evs, NoDup (fe_hex <$> evs) → NoDup (fe_key <$> evs)) as HND.
  { intros evs Hnd. apply (NoDup_fmap_1 fst). by rewrite <-list_fmap_compose. }
  apply (StronglySorted_unique_strong key_le); [|by apply keys_sorted..|].
  - intros k1 k2 (fe1 & -> & H1)%list_elem_of_fmap (fe2 & -> & H2)%list_elem_of_fmap Hle Hge.
    apply Hkey; [done|done|]. destruct (Hev1 fe1 H1) as [Hg1 _].
    assert (fe_hex fe2 ∈ fe_hex <$> evs1) as (fe3 & Hhx & H3)%list_elem_of_fmap.
    { apply Hin1, Hiff, Hin2, list_elem_of_fmap. eauto. }
    destruct (Hev1 fe3 H3) as [Hg3 _]. rewrite Hhx.
    apply (Hdist _ _ _ _ Hg1 Hg3).
    change (default 0 (sig_r (fe_Core fe1)) = default 0 (sig_r (fe_Core fe3))).
    pose proof (Hkey fe3 fe2 H3 H2 (eq_sym Hhx)) as [= _ _ ->].
    unfold key_le in Hle, Hge. simpl in Hle, Hge. lia.
  - apply NoDup_Permutation; [by apply HND..|]. intros k. rewrite !list_elem_of_fmap. split.
    + intros (fe1 & -> & H1). assert (fe_hex fe1 ∈ fe_hex <$> evs2) as (fe2 & Hhx & H2)%list_elem_of_fmap.
      { apply Hin2, Hiff, Hin1, list_elem_of_fmap. eauto. }
      exists fe2. split; [by apply Hkey|done].
    + intros (fe2 & -> & H2). assert (fe_hex fe2 ∈ fe_hex <$> evs1) as (fe1 & Hhx & H1)%list_elem_of_fmap.
      { apply Hin1, Hiff, Hin2, list_elem_of_fmap. eauto. }
      exists fe1. split; [symmetry; by apply Hkey|done].
Qed.

(** The rounds that both have settled receive the same events. *)
Lemma received_same i x : (∀ j, 0 ≤ j ≤ i → round_settled ps g1 L1 j) →
  (∀ j, 0 ≤ j ≤ i → round_settled ps g2 L2 j) → received ps g1 L1 x i → received ps g2 L2 x i.
Proof.
  intros Hs1 Hs2 (r & w & HLx & Hi & Hr & Hp). pose proof (proj1 (proj2 HL1) x _ _ HLx) as Hr0.
  assert (is_Some (g1 !! x)) as Hx1 by (apply HL1; eauto).
  assert (∀ j F, 0 ≤ j ≤ i → famous_set ps g1 L1 j F → famous_set ps g2 L2 j F) as HFs.
  { intros j F Hj HF v. rewrite (HF v). split.
    - by apply (famous_agree ps Hsm g1 pec1 n1 L1 Hok1 HL1 g2 pec2 n2 L2 Hok2 HL2 Hsame Hforks), Hs2.
    - apply (famous_agree ps Hsm g2 pec2 n2 L2 Hok2 HL2 g1 pec1 n1 L1 Hok1 HL1);
        auto using same_events_sym, few_forks_sym. }
  assert (is_Some (g2 !! x)) as Hx2.
  { destruct Hr as (_ & F & HF & Hb). destruct (proj1 Hb eq_refl) as [Hq Hall].
    destruct (set_choose_or_empty F) as [[v Hv]|He]; [|apply size_empty_iff in He; lia].
    apply (reach_transfer g1 pec1 n1 g2 pec2 n2 Hok1 Hok2 Hsame v x); [|by apply Hall].
    apply (famous_known ps g2 L2 i v HL2). by apply (HFs i F ltac:(lia) HF). }
  assert (∀ j b, 0 ≤ j ≤ i → receives ps g1 L1 x j b → receives ps g2 L2 x j b) as Hrec.
  { intros j b Hj (_ & F & HF & Hb). split; [by apply Hs2|]. exists F. split; [by apply HFs|].
    rewrite Hb. assert (∀ v, v ∈ F → reach g1 v x ↔ reach g2 v x) as Hreach.
    { intros v Hv. pose proof (famous_known ps g1 L1 j v HL1 (proj1 (HF v) Hv)).
      pose proof (famous_known ps g2 L2 j v HL2 (proj1 (HFs j F Hj HF v) Hv)). split.
      - by apply (reach_transfer g1 pec1 n1 g2 pec2 n2).
      - apply (reach_transfer g2 pec2 n2 g1 pec1 n1); auto using same_events_sym. }
    split; intros [Hq Hall]; (split; [done|]); intros v Hv; by apply Hreach; [|apply Hall]. }
  exists r, w. split; [|split; [done|]; split; [apply Hrec; [lia|done]|]].
  - by rewrite <-(ledgers_agree ps g1 pec1 n1 L1 g2 pec2 n2 L2 Hok1 Hok2 Hsame HL1 HL2 x Hx1 Hx2).
  - intros i' Hi'. apply Hrec; [lia|]. by apply Hp.
Qed.
End agree.

(** What a block takes from its frame. *)
Definition frame_txs (f : Frame) : list bytes := concat ((λ e, Transactions (fe_Core e)) <$> fr_Events f).
Definition frame_itxs (f : Frame) : list InternalTransaction :=
  concat ((λ e, InternalTransactions (fe_Core e)) <$> fr_Events f).
Lemma map_by_hex {A} g (F : Event → A) evs : (∀ e, F (skeleton e) = F e) → Forall (fe_ok g) evs →
  (λ fe, Some (F (fe_Core fe))) <$> evs = (λ x, F <$> g !! x) <$> (fe_hex <$> evs).
Proof.
  intros HF Hev. rewrite <-list_fmap_compose. apply list_fmap_ext. intros k fe Hk. simpl.
  rewrite Forall_lookup in Hev. destruct (Hev k fe Hk) as [-> _]. simpl. by rewrite HF.
Qed.
Section frames.
Context g1 pec1 n1 L1 (Hok1 : dag_ok g1 pec1 n1) (HL1 : ledger ps g1 L1).
Context g2 pec2 n2 L2 (Hok2 : dag_ok g2 pec2 n2) (HL2 : ledger ps g2 L2).
Context (Hsame : same_events g1 g2) (Hforks : few_forks ps g1 g2).
Context (Hsig : same_signatures g1 g2) (Hdist : distinct_signatures g1).

Lemma field_agree {A} (F : Event → A) evs1 evs2 : (∀ e, F (skeleton e) = F e) →
  (∀ e1 e2, eb_public (ev_Body e1) = eb_public (ev_Body e2) → F e1 = F e2) →
  Forall (fe_ok g1) evs1 → Forall (fe_ok g2) evs2 → fe_hex <$> evs1 = fe_hex <$> evs2 →
  (λ fe, F (fe_Core fe)) <$> evs1 = (λ fe, F (fe_Core fe)) <$> evs2.
Proof.
  intros Hsk HF H1 H2 Hhex. apply (inj (fmap Some)). rewrite <-!list_fmap_compose.
  change (Some ∘ (λ fe, F (fe_Core fe))) with (λ fe, Some (F (fe_Core fe))).
  rewrite (map_by_hex g1 F evs1 Hsk H1), (map_by_hex g2 F evs2 Hsk H2), Hhex.
  apply list_fmap_ext. intros k x Hk.
  assert (is_Some (g1 !! x) ∧ is_Some (g2 !! x)) as [[e1 He1] [e2 He2]].
  { split.
    - rewrite <-Hhex in Hk. apply list_lookup_fmap_Some in Hk as (fe & -> & Hk).
      rewrite Forall_lookup in H1. destruct (H1 k fe Hk). eauto.
    - apply list_lookup_fmap_Some in Hk as (fe & -> & Hk).
      rewrite Forall_lookup in H2. destruct (H2 k fe Hk). eauto. }
  rewrite He1, He2. simpl. f_equal. apply HF. by apply (Hsame x).
Qed.
Lemma frames_agree i f1 f2 : frame_ok g1 L1 i f1 → frame_ok g2 L2 i f2 →
  fe_hex <$> fr_Events f1 = fe_hex <$> fr_Events f2 ∧ frame_txs f1 = frame_txs f2 ∧
  frame_itxs f1 = frame_itxs f2 ∧ fr_Timestamp f1 = fr_Timestamp f2.
Proof.
  intros (Hs1 & Hi & _ & _ & Hev1 & ws1 & Hnd1 & HF1 & ->) (Hs2 & _ & _ & _ & Hev2 & ws2 & Hnd2 & HF2 & ->).
  assert (∀ x, received ps g1 L1 x i ↔ received ps g2 L2 x i) as Hiff.
  { intros x. split.
    - by apply (received_same g1 pec1 n1 L1 Hok1 HL1 g2 pec2 n2 L2).
    - apply (received_same g2 pec2 n2 L2 Hok2 HL2 g1 pec1 n1 L1 Hok1 HL1);
        auto using same_events_sym, few_forks_sym. }
  pose proof (keys_agree g1 L1 g2 L2 Hsame Hsig Hdist i _ _ Hev1 Hev2 Hiff) as Hkeys.
  assert (fe_hex <$> fr_Events f1 = fe_hex <$> fr_Events f2) as Hhex.
  { change fe_hex with (fst ∘ fe_key). by rewrite !list_fmap_compose, Hkeys. }
  destruct Hev1 as (_ & _ & Hev1 & _), Hev2 as (_ & _ & Hev2 & _). split; [done|].
  split; [|split].
  - unfold frame_txs. f_equal. apply (field_agree Transactions); try done.
    intros e1 e2 Heq. unfold eb_public in Heq. unfold Transactions. congruence.
  - unfold frame_itxs. f_equal. apply (field_agree InternalTransactions); try done.
    intros e1 e2 Heq. unfold eb_public in Heq. unfold InternalTransactions. congruence.
  - pose proof (famous_sets_agree ps Hsm g1 pec1 n1 L1 Hok1 HL1 g2 pec2 n2 L2 Hok2 HL2 Hsame Hforks i _ _
      (Hs1 i ltac:(lia)) (Hs2 i ltac:(lia)) HF1 HF2) as Hws.
    assert (stamp g1 <$> ws1 = stamp g2 <$> ws1) as ->.
    { apply list_fmap_ext. intros k w Hk%list_elem_of_lookup_2. unfold stamp.
      destruct (famous_known ps g1 L1 i w HL1) as [e1 He1]; [apply HF1; set_solver|].
      destruct (famous_known ps g2 L2 i w HL2) as [e2 He2]; [apply HF2; rewrite <-Hws; set_solver|].
      rewrite He1, He2. simpl. pose proof (Hsame w e1 e2 He1 He2) as Heq. unfold eb_public in Heq.
      unfold Timestamp. congruence. }
    apply Median_perm, fmap_Permutation, NoDup_Permutation; [done..|]. intros w. set_solver.
Qed.
End frames.
End content.
