(* ===== verification/Consensus.v ===== *)
(** * The consensus pipeline keeps the graph

    Every method that runs after an insertion, whatever it answers, leaves the
    graph and its invariant as they were: it only fills in the fields that
    consensus computes. Together with [InsertEvent_graph] this gives the
    invariant of [InsertEventAndRunConsensus], the entry point of the
    package. *)
From S2P Require Export Insert.

Section consensus.
Context {KP : Keys} {CP : Codec} {RO : RangeOrder}.
Context {St : Type} {STO : Store St} {LAW : StoreLaws St}.
Abbreviation H := (GoM error (Hashgraph St)).
Implicit Types (h : Hashgraph St) (e : Event).

Section stable.
Context (N : Z) (g : gmap string Event) (pec : ParticipantEventsCache) (n : Z).
Context (Hok : dag_ok g pec n) (fuel : nat).
Abbreviation I := (Ist N g pec n).
Abbreviation stable := (respects (E:=error) (keeps (Ist N g pec n))).
Hint Resolve stable_ancestor stable_lamport stable_stronglySee stable_round stable_witness
  : respects.
Hint Extern 4 (respects _ (modify _)) =>
  first [apply stable_fields; done | apply stable_mutEvent; done] : respects.

Lemma stable_getOrNewRound r : stable (getOrNewRound r).
Proof. unfold getOrNewRound. respects_go. Qed.
Hint Resolve stable_getOrNewRound : respects.

(** The event is read, its round and timestamp are filled in, and it is
    written back. *)
Lemma stable_divideRound hash : stable (divideRound_event fuel hash).
Proof.
  apply (keeps_of_hoare _ (λ _, I)); [|done]. unfold divideRound_event.
  eapply hoare_bind; [apply hoare_GetEvent|]. intros ev. simpl. apply hoare_pure. intros [Hev Hfd].
  assert (Hex ev = hash) as Hhash by (rewrite <-skeleton_Hex; by eapply dag_hex).
  apply (hoare_bind _ (λ r h, I h ∧ skeleton r.2 = skeleton ev ∧
                   ev_firstDescendants r.2 = ev_firstDescendants ev)).
  { destruct (ev_round ev); [by apply hoare_ret|].
    repeat (eapply hoare_bind; [apply hoare_of_keeps; respects_go|intros ?]).
    by apply hoare_ret. }
  intros [b1 ev1]. simpl. apply hoare_pure. intros [H1 F1].
  apply (hoare_bind _ (λ r h, I h ∧ skeleton r.2 = skeleton ev ∧
                   ev_firstDescendants r.2 = ev_firstDescendants ev)).
  { destruct (ev_lamportTimestamp ev1); [by apply hoare_ret|].
    repeat (eapply hoare_bind; [apply hoare_of_keeps; respects_go|intros ?]).
    by apply hoare_ret. }
  intros [b2 ev2]. simpl. apply hoare_pure. intros [H2 F2].
  assert (Hex ev2 = hash) as Hhash2 by (by rewrite <-skeleton_Hex, H2, skeleton_Hex).
  apply hoare_of_keeps. respects_go. apply (stable_SetEvent _ _ _ _ ev2); rewrite Hhash2.
  - by rewrite H2.
  - by rewrite F2.
Qed.

Lemma stable_DivideRounds : stable (DivideRounds fuel).
Proof. unfold DivideRounds. respects_go. apply stable_divideRound. Qed.

(** *** Fame *)
Lemma stable_fame_vote r j ps x st y : stable (fame_vote r j ps x st y).
Proof. unfold fame_vote, ss_witnesses, see. respects_go. Qed.

Lemma stable_fame_round r x st j : stable (fame_round r x st j).
Proof.
  unfold fame_round. apply (respects_bind _); [auto with respects|]. intros ri.
  apply (respects_bind _); [auto with respects|]. intros ps.
  revert st. induction (Witnesses ri) as [|y ys IH]; intros st; [apply respects_ret, _|].
  apply (respects_bind _); [apply stable_fame_vote|]. intros [st'|st']; [apply IH|].
  apply respects_ret, _.
Qed.

Lemma stable_DecideFame : stable DecideFame.
Proof.
  unfold DecideFame, decideFame_round, fame_witness. respects_go. apply stable_fame_round.
Qed.

(** *** Round received *)
Lemma stable_receive_at x b i : stable (receive_at x b i).
Proof.
  unfold receive_at, see_all, see. apply (respects_bind _); [respects_go|]. intros [tr|]; [|respects_go].
  apply (respects_bind _); [respects_go|]. intros tPeers.
  destruct (WitnessesDecided tr tPeers) as [decided tr'].
  apply (respects_bind _); [respects_go|]. intros [].
  apply (respects_bind _); [respects_go|]. intros lb.
  destruct (negb decided); [respects_go|].
  apply (respects_bind _); [respects_go|]. intros s.
  destruct (_ && _); [|respects_go].
  apply (keeps_of_hoare _ (λ _, I)); [|done].
  eapply hoare_bind; [apply hoare_GetEvent|]. intros ex. simpl. apply hoare_pure. intros [Hgx Hfd].
  assert (Hex ex = x) as Hx by (rewrite <-skeleton_Hex; by eapply dag_hex).
  apply hoare_of_keeps. respects_go. apply (stable_SetEvent _ _ _ _ (SetRoundReceived ex i));
    change (Hex (SetRoundReceived ex i)) with (Hex ex); by rewrite Hx.
Qed.

Lemma stable_DecideRoundReceived : stable (DecideRoundReceived fuel).
Proof. unfold DecideRoundReceived, receive_event. respects_go. apply stable_receive_at. Qed.

(** *** Frames, blocks and signatures *)
Lemma stable_createFrameEvent x : stable (createFrameEvent fuel x).
Proof. unfold createFrameEvent. respects_go. Qed.
Hint Resolve stable_createFrameEvent : respects.

Lemma stable_root_events k p i l : stable (root_events fuel k p i l).
Proof. revert i l. induction k as [|k IH]; intros i l; simpl; respects_go; auto. Qed.
Hint Resolve stable_root_events : respects.

Lemma stable_createRoot p hd : stable (createRoot fuel p hd).
Proof. unfold createRoot. respects_go. Qed.
Hint Resolve stable_createRoot : respects.

Lemma stable_HG_GetFrame rr : stable (HG_GetFrame fuel rr).
Proof.
  unfold HG_GetFrame, frame_events, frame_roots_own, frame_roots_others, frame_timestamp.
  respects_go.
Qed.

Lemma stable_SetAnchorBlock b : stable (SetAnchorBlock b).
Proof. unfold SetAnchorBlock, setAnchorBlock. respects_go. Qed.
Hint Resolve stable_SetAnchorBlock : respects.

Lemma stable_ProcessSigPool : stable ProcessSigPool.
Proof. unfold ProcessSigPool, process_signature. respects_go. Qed.

Lemma stable_commit_event fe : stable (commit_event fe).
Proof. unfold commit_event. respects_go. Qed.
End stable.

(** ** From fixed graphs to the invariant *)
Definition graph_stable {A} (m : H A) : Prop :=
  ∀ N g pec n, dag_ok g pec n → respects (keeps (Ist N g pec n)) m.

Lemma graph_stable_same {A} (m : H A) h0 : graph_stable m → respects (keeps (same_graph h0)) m.
Proof.
  intros Hm h ((Hpec & Hn & Hok & HI) & HN & Hg).
  specialize (Hm _ _ _ _ Hok h HI). destruct (hg_inv_intro _ _ _ _ _ Hpec Hn Hok Hm) as (? & ? & ?).
  split; [done|]. split; congruence.
Qed.

Section commit.
Context {X : Type} (cb : Block → GoM error (Hashgraph St * X) unit) (fuel : nat).
Abbreviation HX := (GoM error (Hashgraph St * X)).

(** A callback may change its own state and the hashgraph, but not the
    graph. *)
Definition cb_ok : Prop := ∀ b h0, respects (keeps (λ hx, same_graph h0 hx.1)) (cb b).
Context (Hcb : cb_ok) (h0 : Hashgraph St).
Abbreviation J := (keeps (λ hx : Hashgraph St * X, same_graph h0 hx.1)).

Lemma J_onHG {A} (m : H A) : graph_stable m → respects J (onHG m).
Proof.
  intros Hm. apply (respects_zoom _ (keeps (same_graph h0))); [by apply graph_stable_same|].
  intros [h x] h' Hh. exact Hh.
Qed.

Lemma graph_stable_fields (f : Hashgraph St → Hashgraph St) :
  (∀ h, hg_Store (f h) = hg_Store h ∧ topologicalIndex (f h) = topologicalIndex h ∧
        memo (f h) = memo h) → graph_stable (modify (E:=error) f).
Proof. intros Hf N g pec n _. by apply stable_fields. Qed.

Lemma J_process_round i : respects J (process_round fuel cb i).
Proof.
  unfold process_round.
  respects_go; first [apply Hcb | apply J_onHG; intros N g pec n Hok];
    unfold setLastConsensusRound; respects_go;
    first [apply respects_wrap; by apply stable_HG_GetFrame | apply stable_commit_event
          | by apply stable_fields].
Qed.

Lemma J_process_rounds l rs : respects J (process_rounds fuel cb l rs).
Proof.
  revert l. induction rs as [|r rs IH]; intros l; simpl; respects_go; auto using J_process_round.
Qed.

Lemma J_ProcessDecidedRounds : respects J (ProcessDecidedRounds fuel cb).
Proof.
  unfold ProcessDecidedRounds. respects_go; auto using J_process_rounds; apply J_onHG;
    intros N g pec n _; respects_go. by apply stable_fields.
Qed.

(** What follows the insertion. *)
Lemma J_run_consensus e :
  respects J (onHG (X:=X) (DivideRounds fuel) ;;; onHG DecideFame ;;;
              onHG (DecideRoundReceived fuel) ;;; ProcessDecidedRounds fuel cb ;;; ret e).
Proof.
  respects_go; auto using J_ProcessDecidedRounds; apply J_onHG; intros N g pec n Hok.
  - by apply stable_DivideRounds.
  - by apply stable_DecideFame.
  - by apply stable_DecideRoundReceived.
Qed.

Lemma grown_same h1 h2 h3 e : grown h1 e h2 → same_graph h2 h3 → grown h1 e h3.
Proof.
  intros (_ & HN & e' & Hpub & Hg) (Hinv & HN' & Hg'). split; [done|].
  split; [congruence|]. exists e'. split; [done|congruence].
Qed.
End commit.

(** The entry point: insertion followed by the consensus methods. *)
Lemma InsertEventAndRunConsensus_graph {X} (cb : Block → GoM error (Hashgraph St * X) unit)
    fuel e w hx :
  cb_ok cb → hg_inv hx.1 → graph hx.1 !! Hex e = None → well_indexed (graph hx.1) e →
  Z.of_nat (size (graph hx.1)) < v_size (hv hx.1) →
  let out := InsertEventAndRunConsensus fuel cb e w hx in
  match out.1 with
  | Ok e' => eb_public (ev_Body e') = eb_public (ev_Body e) ∧ grown hx.1 e out.2.1
  | _ => insert_failed hx.1 e out.2.1
  end.
Proof.
  intros Hcb Hinv Hfresh Hwi Hroom out.
  pose proof (InsertEvent_graph hx.1 e Hinv Hfresh Hwi Hroom fuel w hx.1 eq_refl) as Hins.
  subst out. destruct (InsertEventAndRunConsensus fuel cb e w hx) as [r hx'] eqn:Hout. simpl.
  unfold InsertEventAndRunConsensus in Hout. unfold bind at 1 in Hout.
  unfold onHG at 1, zoom at 1 in Hout.
  destruct (InsertEvent fuel e w hx.1) as [[e'|err| |] h1];
    [|injection Hout as <- <-; exact Hins..].
  destruct Hins as [Hpub Hgr].
  pose proof (J_run_consensus cb fuel Hcb h1 e' (h1, hx.2)) as HJ. unfold keeps in HJ.
  rewrite Hout in HJ. simpl in HJ.
  assert (grown hx.1 e hx'.1) as Hgr'.
  { eapply grown_same; [exact Hgr|]. apply HJ. split; [apply Hgr|done]. }
  destruct r as [u|err| |]; [|right; exact Hgr'..].
  repeat (apply bind_Ok in Hout as (? & ? & _ & Hout)).
  apply ret_Ok in Hout as [<- _]. done.
Qed.

(** ** Peer-sets and the empty graph *)
Lemma dag_ok_extends g pec pec' n :
  pec_ok pec → dag_ok g pec n → pec_extends pec pec' → dag_ok g pec' n.
Proof.
  intros Hpec Hok Hext. destruct (Hext Hpec) as (_ & Hkeep & Hnew).
  destruct Hok as [? ? ? ? ? ? Hlast Hwin ? ?]. split; try done.
  - intros k e He. destruct (Hlast k e He) as (H0 & items & Hw & Hle). eauto.
  - intros c items Hc Hne. destruct (Hnew c items Hc) as [Hc'|]; [|done]. by apply Hwin.
Qed.

Lemma SetPeerSet_same r ps h0 : respects (keeps (same_graph h0)) (onStore (SetPeerSet r ps)).
Proof.
  intros h ((Hpec & Hn & Hok & HI) & HN & Hg).
  destruct (HI) as (Hs & _ & _ & _ & _ & Hmo & Hfds).
  destruct (SetPeerSet_law r ps (hg_Store h) Hs) as (Hs' & Hst & _).
  unfold onStore, zoom. destruct (SetPeerSet r ps (hg_Store h)) as [rr s']. simpl in *.
  destruct Hst as (Hsz & Hev & _ & _ & _ & _ & _ & Hext).
  set (h' := set_Store s' h).
  assert (graph h' = graph h) as Hg' by (unfold graph, hv, h'; simpl; by rewrite Hev).
  assert (v_size (hv h') = v_size (hv h)) as HN' by done.
  assert (hg_inv h') as Hinv.
  { apply (hg_inv_intro (v_size (hv h)) (graph h) (v_pec (hv h')) (topologicalIndex h)).
    - by apply Hext.
    - done.
    - by eapply dag_ok_extends.
    - do 6 (split; [done|]). unfold hv. simpl. by rewrite Hev. }
  split; [done|]. split; congruence.
Qed.

Lemma new_hashgraph_inv (s : St) :
  st_ok s → v_events (store_view s) = ∅ → pec_ok (v_pec (store_view s)) →
  (∀ c items, window (v_pec (store_view s)) c = Some items → lastIndex items = -1) →
  1 ≤ CacheSize s →
  hg_inv (NewHashgraph s) ∧ graph (NewHashgraph s) = ∅.
Proof.
  intros Hs Hev Hpec Hwin Hsz.
  assert (graph (NewHashgraph s) = ∅) as Hg
    by (unfold graph, hv; simpl; by rewrite Hev, fmap_empty).
  split; [|done].
  apply (hg_inv_intro (v_size (store_view s)) ∅ (v_pec (store_view s)) 0); [done|lia| |].
  - by apply dag_ok_empty.
  - do 5 (split; [done|]). split.
    + split; [|split]; (split; [by apply NewLRU_wf|]); intros k v; simpl;
        by rewrite NewLRU_view, lookup_empty.
    + intros y e. unfold hv. simpl. by rewrite Hev, lookup_empty.
Qed.
End consensus.
