(* ===== verification/Frames.v ===== *)
(** * What the operations leave alone

    [untouched f m]: the call [m], whatever its outcome, keeps the store
    well-formed and does not change the part [f] of the store's view. Proved
    for every operation of the consensus pipeline, for any [f] that does not
    look at what the operation writes. *)
From S2P Require Export Consensus.

Section untouched.
Context {KP : Keys} {CP : Codec} {RO : RangeOrder}.
Context {St : Type} {STO : Store St} {LAW : StoreLaws St}.
Abbreviation H := (GoM error (Hashgraph St)).
Implicit Types (h : Hashgraph St).

Definition same {T} (f : StoreView → T) (h h' : Hashgraph St) : Prop :=
  st_ok (hg_Store h) → st_ok (hg_Store h') ∧ f (hv h') = f (hv h).

#[export] Instance same_preorder {T} (f : StoreView → T) : PreOrder (same f).
Proof.
  split; [by intros h|]. intros h1 h2 h3 H12 H23 H1. destruct (H12 H1) as [H2 E2].
  destruct (H23 H2) as [H3 E3]. split; [done|]. congruence.
Qed.

Abbreviation untouched f := (respects (E:=error) (same f)).

Section calls.
Context {T : Type} (f : StoreView → T).

Lemma untouched_store {A} (m : M St A) :
  (∀ s, st_ok s → st_ok (m s).2 ∧ f (store_view (m s).2) = f (store_view s)) →
  untouched f (onStore m).
Proof.
  intros Hm h Hok. specialize (Hm (hg_Store h) Hok). unfold onStore, zoom, hv.
  by destruct (m (hg_Store h)).
Qed.
Lemma untouched_fields (g : Hashgraph St → Hashgraph St) :
  (∀ h, hg_Store (g h) = hg_Store h) → untouched f (modify g).
Proof. intros Hg h Hok. unfold modify, hv. simpl. by rewrite Hg. Qed.

Lemma untouched_GetEvent k : untouched f (onStore (GetEvent k)).
Proof. apply untouched_store. intros s Hs. destruct (GetEvent_law k s Hs) as (? & -> & _). done. Qed.
Lemma untouched_GetRound r : untouched f (onStore (GetRoundInfo r)).
Proof. apply untouched_store. intros s Hs. destruct (GetRound_law r s Hs) as (? & -> & _). done. Qed.
Lemma untouched_GetBlock i : untouched f (onStore (GetBlock i)).
Proof. apply untouched_store. intros s Hs. destruct (GetBlock_law i s Hs) as (? & -> & _). done. Qed.
Lemma untouched_GetFrame i : untouched f (onStore (GetFrame i)).
Proof. apply untouched_store. intros s Hs. destruct (GetFrame_law i s Hs) as (? & -> & _). done. Qed.
Lemma untouched_readStore {A} (g : St → A) : untouched f (readStore g).
Proof. intros h Hok. done. Qed.
Lemma untouched_readStoreR {A} (g : St → res A) : untouched f (readStoreR g).
Proof. intros h Hok. done. Qed.
Lemma untouched_AddConsensusEvent e : untouched f (onStore (AddConsensusEvent e)).
Proof.
  apply untouched_store. intros s Hs. destruct (AddConsensusEvent_law e s Hs) as (? & ->). done.
Qed.
Lemma untouched_memo {A} (g : MemoCaches → res A * MemoCaches) :
  untouched f (zoom memo set_memo g).
Proof. intros h Hok. unfold zoom. by destruct (g (memo h)). Qed.
Lemma untouched_memoised {K V} `{Countable K} (proj : MemoCaches → LRU K V) put (key : K)
    (compute : H V) : untouched f compute → untouched f (memoised proj put key compute).
Proof.
  intros Hc. unfold memoised. apply (respects_bind _); [apply untouched_memo|].
  intros [v|]; [apply respects_ret, _|]. apply (respects_bind _); [done|]. intros v.
  apply (respects_bind _); [by apply untouched_fields|]. intros []. apply respects_ret, _.
Qed.
End calls.
Hint Resolve untouched_GetEvent untouched_GetRound untouched_GetBlock untouched_GetFrame
  untouched_readStore untouched_readStoreR untouched_AddConsensusEvent untouched_memoised
  : respects.
Hint Extern 4 (respects _ (modify _)) => apply untouched_fields; done : respects.

(** ** Queries *)
Section queries.
Context {T : Type} (f : StoreView → T) (fuel : nat).

Lemma untouched_ancestor x y : untouched f (ancestor x y).
Proof. apply untouched_memoised. unfold _ancestor. respects_go. Qed.
Lemma untouched_stronglySee x y ps : untouched f (stronglySee x y ps).
Proof.
  unfold stronglySee. apply (respects_bind _); [auto with respects typeclass_instances|].
  intros hex. apply untouched_memoised. unfold _stronglySee. respects_go.
Qed.
Hint Resolve untouched_ancestor untouched_stronglySee : respects.
Lemma untouched_round n x : untouched f (round n x).
Proof.
  revert x. induction n as [|n IH]; intros x; simpl; [apply respects_diverge, _|].
  apply untouched_memoised. unfold _round. respects_go; auto.
Qed.
Lemma untouched_lamport n x : untouched f (lamportTimestamp n x).
Proof.
  revert x. induction n as [|n IH]; intros x; simpl; [apply respects_diverge, _|].
  apply untouched_memoised. unfold _lamportTimestamp. respects_go; auto.
Qed.
Hint Resolve untouched_round untouched_lamport : respects.
Lemma untouched_witness x : untouched f (witness fuel x).
Proof. apply untouched_memoised. unfold _witness. respects_go. Qed.
Hint Resolve untouched_witness : respects.
Lemma untouched_getOrNewRound r : untouched f (getOrNewRound r).
Proof. unfold getOrNewRound. respects_go. Qed.
Lemma untouched_createFrameEvent x : untouched f (createFrameEvent fuel x).
Proof. unfold createFrameEvent. respects_go. Qed.
Hint Resolve untouched_createFrameEvent : respects.
Lemma untouched_root_events k p i l : untouched f (root_events fuel k p i l).
Proof. revert i l. induction k as [|k IH]; intros i l; simpl; respects_go; auto. Qed.
Hint Resolve untouched_root_events : respects.
Lemma untouched_createRoot p hd : untouched f (createRoot fuel p hd).
Proof. unfold createRoot. respects_go. Qed.
Hint Resolve untouched_createRoot : respects.
Lemma untouched_commit_event fe : untouched f (commit_event fe).
Proof. unfold commit_event. respects_go. Qed.

(** ** Writes of events *)
Context (Hev : ∀ m v, f (with_events m v) = f v).

Lemma untouched_mutEvent k g : untouched f (modify (λ h, set_Store (mutEvent k g (hg_Store h)) h)).
Proof.
  intros h Hok. destruct (mutEvent_law k g (hg_Store h) Hok) as (? & Hv). unfold hv. simpl.
  by rewrite Hv, Hev.
Qed.

Context (Hpec : ∀ c v, f (with_pec c v) = f v).
Lemma untouched_SetEvent e : untouched f (onStore (SetEvent e)).
Proof.
  apply untouched_store. intros s Hs. destruct (v_events (store_view s) !! Hex e) as [e0|] eqn:He.
  - destruct (SetEvent_known_law e s Hs) as (_ & ? & ->); [eauto|]. by rewrite Hev.
  - destruct (PEC_Set (Creator e) (Hex e) (Index e) (v_pec (store_view s))) as [r pec] eqn:Hset.
    destruct (SetEvent_new_law e s r pec Hs He Hset) as (_ & ? & Hv).
    split; [done|]. destruct r; [destruct Hv as (evs & _ & ->)|rewrite Hv..].
    + by rewrite Hev, Hpec.
    + by rewrite Hpec.
    + by rewrite Hpec.
    + by rewrite Hpec.
Qed.
Hint Resolve untouched_mutEvent untouched_SetEvent : respects.

Lemma untouched_walk k event ah : untouched f (walk_descendants fuel k event ah).
Proof. revert ah. induction k as [|k IH]; intros ah; simpl; respects_go; auto. Qed.
Hint Resolve untouched_walk : respects.
Lemma untouched_SetWireInfo e : untouched f (SetWireInfo e).
Proof. unfold SetWireInfo. respects_go. Qed.
Lemma untouched_initEventCoordinates e : untouched f (initEventCoordinates e).
Proof. unfold initEventCoordinates. respects_go. Qed.
Lemma untouched_updateAncestor e : untouched f (updateAncestorFirstDescendant fuel e).
Proof. unfold updateAncestorFirstDescendant. respects_go. Qed.
Hint Resolve untouched_SetWireInfo untouched_initEventCoordinates untouched_updateAncestor
  : respects.
Lemma untouched_InsertEvent e w : untouched f (InsertEvent fuel e w).
Proof.
  unfold InsertEvent, checkSelfParent, checkOtherParent, insert_checked. respects_go.
Qed.
End queries.
End untouched.

Section frames.
Context {KP : Keys} {CP : Codec} {RO : RangeOrder}.
Context {St : Type} {STO : Store St} {LAW : StoreLaws St}.
Context {T : Type} (f : StoreView → T) (fuel : nat).
Abbreviation untouched := (respects (E:=error) (same (St:=St) f)).
Hint Resolve untouched_GetEvent untouched_GetRound untouched_GetBlock untouched_GetFrame
  untouched_readStore untouched_readStoreR untouched_AddConsensusEvent untouched_ancestor
  untouched_stronglySee untouched_round untouched_lamport untouched_witness
  untouched_getOrNewRound untouched_createFrameEvent untouched_createRoot untouched_mutEvent
  untouched_SetEvent : respects.
Hint Extern 4 (respects _ (modify _)) => apply untouched_fields; done : respects.

(** ** Writes of frames *)
Lemma untouched_HG_GetFrame rr : (∀ m v, f (with_frames m v) = f v) → untouched (HG_GetFrame fuel rr).
Proof.
  intros Hfr. assert (∀ fr, untouched (onStore (SetFrame fr))) as HSet.
  { intros fr. apply untouched_store. intros s Hs.
    destruct (SetFrame_law fr s Hs) as (_ & ? & frs & _ & ->). by rewrite Hfr. }
  unfold HG_GetFrame, frame_events, frame_roots_own, frame_roots_others, frame_timestamp.
  respects_go; auto.
Qed.

(** ** Writes of rounds *)
Context (Hev : ∀ m v, f (with_events m v) = f v) (Hpec : ∀ c v, f (with_pec c v) = f v).
Context (Hrd : ∀ m v, f (with_rounds m v) = f v) (Hlr : ∀ r v, f (with_lastRound r v) = f v).

Lemma untouched_SetRound r ri : untouched (onStore (SetRoundInfo r ri)).
Proof.
  apply untouched_store. intros s Hs. destruct (SetRound_law r ri s Hs) as (_ & ? & rds & _ & ->).
  by rewrite Hlr, Hrd.
Qed.
Lemma untouched_mutRound r g : untouched (modify (λ h, set_Store (mutRound r g (hg_Store h)) h)).
Proof.
  intros h Hok. destruct (mutRound_law r g (hg_Store h) Hok) as (? & Hv). unfold hv. simpl.
  by rewrite Hv, Hrd.
Qed.
Hint Resolve untouched_SetRound untouched_mutRound : respects.

Lemma untouched_DivideRounds : untouched (DivideRounds fuel).
Proof. unfold DivideRounds, divideRound_event. respects_go. Qed.
Lemma untouched_fame_round r x st j : untouched (fame_round r x st j).
Proof.
  unfold fame_round. apply (respects_bind _); [auto with respects|]. intros ri.
  apply (respects_bind _); [auto with respects|]. intros ps.
  revert st. induction (Witnesses ri) as [|y ys IH]; intros st; [apply respects_ret, _|].
  apply (respects_bind _); [unfold fame_vote, ss_witnesses, see; respects_go|].
  intros [st'|st']; [apply IH|]. apply respects_ret, _.
Qed.
Lemma untouched_DecideFame : untouched DecideFame.
Proof.
  unfold DecideFame, decideFame_round, fame_witness. respects_go. apply untouched_fame_round.
Qed.
Lemma untouched_DecideRoundReceived : untouched (DecideRoundReceived fuel).
Proof.
  unfold DecideRoundReceived, receive_event, receive_at, see_all, see. respects_go.
Qed.
End frames.

(** ** Committing *)
Section commit.
Context {KP : Keys} {CP : Codec} {RO : RangeOrder}.
Context {St : Type} {STO : Store St} {LAW : StoreLaws St}.
Context {X T : Type} (f : StoreView → T).

(** The relation beside the state of the callback's owner. *)
Definition same1 (hx hx' : Hashgraph St * X) : Prop := same f hx.1 hx'.1.
#[export] Instance same1_preorder : PreOrder same1.
Proof. split; [by intros hx|]. intros a b c Hab Hbc. unfold same1 in *. by etrans. Qed.

Lemma same1_onHG {A} (m : GoM error (Hashgraph St) A) :
  respects (same f) m → respects same1 (onHG (X:=X) m).
Proof.
  intros Hm. apply (respects_zoom _ (same f)); [done|]. intros [h x] h' Hh. exact Hh.
Qed.

(** A callback that does not change the part [f]. *)
Definition cb_untouched (cb : Block → GoM error (Hashgraph St * X) unit) : Prop :=
  ∀ b, respects same1 (cb b).

Context (fuel : nat) (cb : Block → GoM error (Hashgraph St * X) unit) (Hcb : cb_untouched cb).
Context (Hfr : ∀ m v, f (with_frames m v) = f v) (Hbl : ∀ m v, f (with_blocks m v) = f v).
Context (Hlb : ∀ b v, f (with_lastBlock b v) = f v).

Lemma untouched_SetBlock b : respects (E:=error) (same (St:=St) f) (onStore (SetBlock b)).
Proof.
  apply untouched_store. intros s Hs. destruct (SetBlock_law b s Hs) as (_ & ? & bls & _ & ->).
  by rewrite Hlb, Hbl.
Qed.

Hint Resolve untouched_GetRound untouched_readStore untouched_commit_event untouched_SetBlock
  untouched_HG_GetFrame : respects.
Hint Extern 4 (respects _ (modify _)) => apply untouched_fields; done : respects.
Lemma untouched_process_round i : respects same1 (process_round fuel cb i).
Proof.
  unfold process_round. respects_go; first [apply Hcb | apply same1_onHG];
    unfold setLastConsensusRound; respects_go.
Qed.
Lemma untouched_process_rounds l rs : respects same1 (process_rounds fuel cb l rs).
Proof.
  revert l. induction rs as [|r rs IH]; intros l; simpl; respects_go;
    auto using untouched_process_round.
Qed.
Lemma untouched_ProcessDecidedRounds : respects same1 (ProcessDecidedRounds fuel cb).
Proof.
  unfold ProcessDecidedRounds. respects_go; auto using untouched_process_rounds;
    apply same1_onHG; respects_go.
Qed.
End commit.

(** The relation, for statements. *)
Notation untouched f := (respects (E:=error) (same f)) (only parsing).

#[export] Hint Resolve untouched_GetEvent untouched_GetRound untouched_GetBlock untouched_GetFrame
  untouched_readStore untouched_readStoreR untouched_AddConsensusEvent untouched_memoised
  untouched_ancestor untouched_stronglySee untouched_round untouched_lamport untouched_witness
  untouched_getOrNewRound untouched_createFrameEvent untouched_createRoot untouched_commit_event
  untouched_mutEvent untouched_SetEvent : respects.
