(* ===== verification/Rounds.v ===== *)
(** * Decisions about rounds are final

    [ri_le] orders the states of a round: created events keep their witness
    flag, a witness whose fame is decided keeps it, received events are only
    appended, and a decided round stays decided. The pipeline that follows an
    insertion only moves every stored round up in this order, as long as the
    cache of rounds is not full. *)
From S2P Require Export Frames.

Definition ri_le (r r' : RoundInfo) : Prop :=
  (ri_decided r = true → ri_decided r' = true) ∧
  ReceivedEvents r `prefix_of` ReceivedEvents r' ∧
  ∀ x e, CreatedEvents r !! x = Some e →
    ∃ e', CreatedEvents r' !! x = Some e' ∧ re_Witness e' = re_Witness e ∧
      (re_Witness e = true → re_Famous e ≠ Undefined → re_Famous e' = re_Famous e).

#[export] Instance ri_le_preorder : PreOrder ri_le.
Proof.
  split.
  - intros r. split; [done|]. split; [done|]. intros x e He. by exists e.
  - intros r1 r2 r3 (D12 & P12 & C12) (D23 & P23 & C23). split; [auto|].
    split; [by etrans|]. intros x e He. destruct (C12 x e He) as (e2 & He2 & Hw2 & Hf2).
    destruct (C23 x e2 He2) as (e3 & He3 & Hw3 & Hf3). exists e3. split; [done|].
    split; [congruence|]. intros Hw Hf. specialize (Hf2 Hw Hf).
    rewrite Hf3; congruence.
Qed.

Definition rounds_le (m m' : gmap Z RoundInfo) : Prop :=
  ∀ r ri, m !! r = Some ri → ∃ ri', m' !! r = Some ri' ∧ ri_le ri ri'.

#[export] Instance rounds_le_preorder : PreOrder rounds_le.
Proof.
  split.
  - intros m r ri Hr. by exists ri.
  - intros m1 m2 m3 H12 H23 r ri Hr. destruct (H12 r ri Hr) as (r2 & Hr2 & Hle2).
    destruct (H23 r r2 Hr2) as (r3 & Hr3 & Hle3). exists r3. split; [done|]. by etrans.
Qed.

Lemma rounds_le_size m m' : rounds_le m m' → (size m ≤ size m')%nat.
Proof.
  intros Hle. rewrite <-!(size_dom (D:=gset Z)). apply subseteq_size.
  intros r [ri Hr]%elem_of_dom. destruct (Hle r ri Hr) as (ri' & Hr' & _).
  apply elem_of_dom. eauto.
Qed.

Lemma rounds_le_write m r ri :
  (∀ r0, m !! r = Some r0 → ri_le r0 ri) → rounds_le m (<[r := ri]> m).
Proof.
  intros Hr k ri0 Hk. destruct (decide (k = r)) as [->|Hne].
  - rewrite lookup_insert_eq. eauto.
  - rewrite lookup_insert_ne by done. by exists ri0.
Qed.

Lemma rounds_le_alter m r g :
  (∀ r0, m !! r = Some r0 → ri_le r0 (g r0)) → rounds_le m (alter g r m).
Proof.
  intros Hr k ri0 Hk. destruct (decide (k = r)) as [->|Hne].
  - rewrite lookup_alter_eq, Hk. simpl. eauto.
  - rewrite lookup_alter_ne by done. by exists ri0.
Qed.

(** ** The operations of a round *)
Section ops.
Context {RO : RangeOrder}.

Lemma AddCreatedEvent_le r x w : ri_le r (AddCreatedEvent r x w).
Proof.
  unfold AddCreatedEvent. destruct (CreatedEvents r !! x) eqn:Hx; [reflexivity|].
  split; [done|]. split; [done|]. intros y e Hy. exists e. split; [|done]. simpl.
  rewrite lookup_insert_ne; [done|]. intros ->. congruence.
Qed.
Lemma AddReceivedEvent_le r x : ri_le r (AddReceivedEvent r x).
Proof.
  split; [done|]. split; [simpl; by apply prefix_app_r|]. intros y e Hy. by exists e.
Qed.
Lemma WitnessesDecided_le r ps : ri_le r (WitnessesDecided r ps).2.
Proof.
  unfold WitnessesDecided. destruct (ri_decided r) eqn:Hd; [reflexivity|].
  destruct (count_decided _ 0); [|reflexivity]. split; [simpl; congruence|].
  split; [done|]. intros y e Hy. by exists e.
Qed.
Lemma SetFame_le r x f : IsDecided r x = false → ri_le r (SetFame r x f).
Proof.
  intros Hd. split; [done|]. split; [done|]. intros y e Hy. unfold SetFame. simpl.
  destruct (decide (y = x)) as [->|Hne].
  - rewrite lookup_insert_eq, Hy. eexists. split; [done|]. simpl. split; [done|].
    intros Hw Hf. unfold IsDecided in Hd. rewrite Hy, Hw in Hd. simpl in Hd.
    by apply bool_decide_eq_false in Hd.
  - rewrite lookup_insert_ne by done. by exists e.
Qed.
End ops.

Section finality.
Context {KP : Keys} {CP : Codec} {RO : RangeOrder}.
Context {St : Type} {STO : Store St} {LAW : StoreLaws St}.
Context (fuel : nat) (h0 : Hashgraph St).
Abbreviation H := (GoM error (Hashgraph St)).
Implicit Types (h : Hashgraph St).

(** What the rounds were at the start is still there and has only moved up,
    unless the cache of rounds has filled. *)
Definition moved h : Prop :=
  st_ok (hg_Store h) ∧ v_size (hv h) = v_size (hv h0) ∧
  (Z.of_nat (size (v_rounds (hv h))) < v_size (hv h) →
   rounds_le (v_rounds (hv h0)) (v_rounds (hv h))).

(** The local copy [ri] is the object that the store holds for [r]. *)
Definition local r ri h : Prop := ∀ r0, v_rounds (hv h) !! r = Some r0 → r0 = ri.

Definition rd (v : StoreView) := (v_size v, v_rounds v).

Lemma moved_same h h' : same rd h h' → moved h → moved h'.
Proof.
  intros Hs (Hok & HN & Hle). destruct (Hs Hok) as [Hok' [= H1 H2]].
  split; [done|]. unfold hv in *. rewrite H1, H2. done.
Qed.
Lemma local_same r ri h h' : same rd h h' → moved h → local r ri h → local r ri h'.
Proof.
  intros Hs (Hok & _) Hl. destruct (Hs Hok) as [_ [= H1 H2]]. unfold local, hv in *. by rewrite H2.
Qed.

Lemma hoare_untouched {A} (m : H A) : untouched rd m → hoare moved m (λ _, moved) moved.
Proof.
  intros Hm h Hh. pose proof (moved_same h _ (Hm h) Hh) as H'. by destruct (m h) as [[]].
Qed.
Lemma hoare_untouched_local {A} r ri (m : H A) : untouched rd m →
  hoare (λ h, moved h ∧ local r ri h) m (λ _ h, moved h ∧ local r ri h) moved.
Proof.
  intros Hm h [Hh Hl]. pose proof (moved_same h _ (Hm h) Hh) as H'.
  pose proof (local_same r ri h _ (Hm h) Hh Hl) as Hl'. by destruct (m h) as [[]].
Qed.

(** *** Writing a round *)
Lemma hoare_SetRound r ri ri' : ri_le ri ri' →
  hoare (λ h, moved h ∧ local r ri h) (onStore (SetRoundInfo r ri')) (λ _, moved) moved.
Proof.
  intros Hri h ((Hok & HN & Hle) & Hl).
  destruct (SetRound_law r ri' (hg_Store h) Hok) as (_ & Hok' & rds & (_ & _ & _ & Hfull) & Hv).
  unfold onStore, zoom. destruct (SetRoundInfo r ri' (hg_Store h)) as [res s']. simpl in *.
  assert (moved (set_Store s' h)) as Hm; [|by destruct res].
  split; [done|]. unfold hv in *. simpl in *. rewrite Hv. simpl. split; [done|].
  intros Hroom. pose proof (Hfull Hroom) as ->.
  assert (rounds_le (v_rounds (store_view (hg_Store h)))
            (<[r := ri']> (v_rounds (store_view (hg_Store h))))) as Hstep.
  { apply rounds_le_write. intros r0 ->%Hl. done. }
  etrans; [apply Hle|exact Hstep]. apply rounds_le_size in Hstep. lia.
Qed.
Lemma hoare_mutRound r ri g : ri_le ri (g ri) →
  hoare (E:=error) (λ h, moved h ∧ local r ri h)
    (modify (λ h, set_Store (mutRound r g (hg_Store h)) h))
    (λ _ h, moved h ∧ local r (g ri) h) moved.
Proof.
  intros Hri h ((Hok & HN & Hle) & Hl).
  destruct (mutRound_law r g (hg_Store h) Hok) as (Hok' & Hv).
  unfold modify, moved, local, hv in *. simpl in *. rewrite Hv. simpl.
  assert (rounds_le (v_rounds (store_view (hg_Store h)))
            (alter g r (v_rounds (store_view (hg_Store h))))) as Hstep.
  { apply rounds_le_alter. intros r0 ->%Hl. done. }
  split; [split; [done|]; split; [done|]|].
  - intros Hroom. etrans; [apply Hle|exact Hstep]. apply rounds_le_size in Hstep. lia.
  - intros r0. rewrite lookup_alter_eq. intros (r1 & ->%Hl & ->)%fmap_Some. done.
Qed.

(** *** Reading a round *)
Lemma GetRound_moved r h : moved h →
  ∃ res h', onStore (GetRoundInfo r) h = (res, h') ∧ moved h' ∧
    match res with
    | Ok ri => local r ri h'
    | Err e => local r NewRoundInfo h'
    | _ => False
    end.
Proof.
  intros Hm. pose proof (moved_same h _ (untouched_GetRound rd r h) Hm) as Hm'.
  destruct (Hm) as (Hok & _). destruct (GetRound_law r (hg_Store h) Hok) as (_ & Hv & Hf).
  unfold onStore, zoom in *. destruct (GetRoundInfo r (hg_Store h)) as [res s']. simpl in *.
  exists res, (set_Store s' h). split; [done|]. split; [done|]. unfold local, hv. simpl. rewrite Hv.
  destruct (v_rounds (store_view (hg_Store h)) !! r) as [r0|] eqn:Hr; simpl in Hf.
  - subst res. by intros ? [= <-].
  - destruct Hf as (err & -> & _). done.
Qed.
Lemma hoare_GetRound r :
  hoare moved (onStore (GetRoundInfo r)) (λ ri h, moved h ∧ local r ri h) moved.
Proof.
  intros h Hm. destruct (GetRound_moved r h Hm) as (res & h' & -> & ? & ?). by destruct res.
Qed.
Lemma hoare_getOrNewRound r :
  hoare moved (getOrNewRound r) (λ ri h, moved h ∧ local r ri.2 h) moved.
Proof.
  intros h Hm. unfold getOrNewRound, bind, try.
  destruct (GetRound_moved r h Hm) as (res & h' & -> & Hm' & Hl).
  destruct res as [ri|err| |]; [done| |done|done]. simpl. by destruct (IsStore err KeyNotFound).
Qed.
Lemma hoare_try_GetRound r :
  hoare moved (try (onStore (GetRoundInfo r)))
    (λ o h, moved h ∧ match o with inl ri => local r ri h | inr _ => True end) moved.
Proof.
  intros h Hm. unfold try. destruct (GetRound_moved r h Hm) as (res & h' & -> & ? & ?).
  by destruct res.
Qed.

Hint Extern 4 (respects _ (modify _)) => apply untouched_fields; done : respects.
Ltac reads := unfold see_all, see, ss_witnesses; respects_go; try (by auto with respects).
Ltac keep := eapply hoare_bind; [apply hoare_untouched; reads|].
Ltac keep_local := eapply hoare_bind; [apply hoare_untouched_local; reads|].

(** *** The passes *)
Lemma moved_divideRound hash : hoare moved (divideRound_event fuel hash) (λ _, moved) moved.
Proof.
  unfold divideRound_event. keep. intros ev.
  apply (hoare_bind _ (λ _, moved)).
  { destruct (ev_round ev); [by apply hoare_ret|]. keep. intros n.
    eapply hoare_bind; [apply hoare_untouched; by apply untouched_mutEvent|]. intros [].
    eapply hoare_bind; [apply hoare_getOrNewRound|]. intros [b ri]. simpl.
    keep_local. intros h'. keep_local. intros []. keep_local. intros w.
    eapply hoare_bind; [apply hoare_SetRound, AddCreatedEvent_le|]. intros []. by apply hoare_ret. }
  intros [u ev']. apply hoare_untouched. respects_go.
Qed.

Section fame.
Context (r : Z).
(** While [x] is being decided, the round is the one the store holds and [x]
    is undecided in it. *)
Definition voting (x : string) (st : Votes * RoundInfo) h : Prop :=
  (moved h ∧ local r st.2 h) ∧ IsDecided st.2 x = false.
Definition voted (st : Votes * RoundInfo) h : Prop := moved h ∧ local r st.2 h.
Definition vote_post x (c : ctl (Votes * RoundInfo)) h : Prop :=
  match c with Continue st => voting x st h | Break st => voted st h end.

Lemma voting_untouched {A} x st (m : H A) : untouched rd m →
  hoare (voting x st) m (λ _, voting x st) moved.
Proof.
  intros Hm h [Hh Hd]. pose proof (hoare_untouched_local r st.2 m Hm h Hh) as H'.
  unfold voting. by destruct (m h) as [[]].
Qed.
Lemma voting_continue x st votes : hoare (E:=error) (voting x st)
  (ret (Continue (votes, st.2))) (vote_post x) moved.
Proof. by apply hoare_ret. Qed.

Lemma moved_fame_vote j ps x st y :
  hoare (voting x st) (fame_vote r j ps x st y) (vote_post x) moved.
Proof.
  unfold fame_vote. destruct st as [votes ri]. case_match.
  { eapply hoare_bind; [apply voting_untouched; reads|]. intros b.
    apply (voting_continue x (votes, ri)). }
  eapply hoare_bind; [apply voting_untouched; reads|]. intros prev.
  eapply hoare_bind; [apply voting_untouched; reads|]. intros prevps.
  eapply hoare_bind; [apply voting_untouched; reads|]. intros ws. cbv zeta.
  repeat case_match; try apply (voting_continue x (votes, ri)).
  - eapply (hoare_bind _ (λ _ h, moved h ∧ local r (SetFame ri x (majority (count_votes votes x ws))) h)).
    + apply hoare_pure. intros Hd. apply (hoare_mutRound r ri (λ ri, SetFame ri x _)).
      by apply SetFame_le.
    + intros []. by apply hoare_ret.
  - eapply hoare_bind; [apply voting_untouched; reads|]. intros coin.
    apply (voting_continue x (votes, ri)).
Qed.

Lemma moved_fame_round x st j :
  hoare (voting x st) (fame_round r x st j) (vote_post x) moved.
Proof.
  unfold fame_round. eapply hoare_bind; [apply voting_untouched; reads|]. intros ji.
  eapply hoare_bind; [apply voting_untouched; reads|]. intros jps.
  revert st. induction (Witnesses ji) as [|y ys IH]; intros st; [by apply hoare_ret|].
  eapply hoare_bind; [apply moved_fame_vote|]. intros [st'|st']; simpl; [apply IH|by apply hoare_ret].
Qed.

Lemma moved_fame_rounds x st js :
  hoare (voting x st) (foldM_ctl (fame_round r x) st js) voted moved.
Proof.
  revert st. induction js as [|j js IH]; intros st; simpl.
  - apply hoare_ret. by intros h [? _].
  - eapply hoare_bind; [apply moved_fame_round|]. intros [st'|st']; simpl; [apply IH|by apply hoare_ret].
Qed.

Lemma moved_fame_witness st x : hoare (voted st) (fame_witness r st x) voted moved.
Proof.
  unfold fame_witness. destruct (IsDecided st.2 x) eqn:Hd; [by apply hoare_ret|].
  apply (hoare_conseq _ (voting x st) _ voted _ moved); [|done..].
  eapply hoare_bind; [apply voting_untouched; reads|]. intros last. apply moved_fame_rounds.
Qed.
End fame.

Lemma moved_decideFame_round st r : hoare moved (decideFame_round st r) (λ _, moved) moved.
Proof.
  unfold decideFame_round. destruct st as [votes decided].
  eapply hoare_bind; [apply hoare_GetRound|]. intros ri. keep_local. intros ps.
  eapply hoare_bind.
  { apply (hoare_conseq _ (voted (pr_Index r) (votes, ri)) _ (voted (pr_Index r)) _ moved);
      [|done..]. apply (hoare_foldM (voted (pr_Index r))). intros st x _. apply moved_fame_witness. }
  intros [votes' ri']. pose proof (WitnessesDecided_le ri' ps) as Hle.
  destruct (WitnessesDecided ri' ps) as [d ri'']. simpl in Hle.
  eapply hoare_bind; [by apply (hoare_SetRound _ ri')|]. intros []. by apply hoare_ret.
Qed.
Lemma moved_DecideFame : hoare moved DecideFame (λ _, moved) moved.
Proof.
  unfold DecideFame. keep. intros rs. apply (hoare_bind _ (λ _, moved)).
  - apply (hoare_foldM (λ _, moved)). intros st r _. apply moved_decideFame_round.
  - intros st. apply hoare_untouched. reads.
Qed.

Lemma moved_receive_at x b i : hoare moved (receive_at x b i) (λ _, moved) moved.
Proof.
  unfold receive_at. eapply hoare_bind; [apply hoare_try_GetRound|].
  intros [tr|err]; simpl; [|apply hoare_ret; tauto]. keep_local. intros tps.
  pose proof (WitnessesDecided_le tr tps) as Hle.
  destruct (WitnessesDecided tr tps) as [d tr']. simpl in Hle.
  eapply hoare_bind; [by apply (hoare_mutRound i tr (λ _, tr'))|]. intros [].
  keep_local. intros lb. destruct d; simpl; [|apply hoare_ret; tauto].
  keep_local. intros s. case_match; [|apply hoare_ret; tauto].
  keep_local. intros ev.
  eapply hoare_bind; [apply hoare_untouched_local; by apply untouched_mutEvent|]. intros [].
  eapply hoare_bind; [apply hoare_untouched_local; by apply untouched_SetEvent|]. intros [].
  eapply hoare_bind; [apply hoare_SetRound, AddReceivedEvent_le|]. intros []. by apply hoare_ret.
Qed.
Lemma moved_DecideRoundReceived : hoare moved (DecideRoundReceived fuel) (λ _, moved) moved.
Proof.
  unfold DecideRoundReceived. keep. intros xs. apply (hoare_bind _ (λ _, moved)).
  - apply (hoare_foldM (λ _, moved)). intros l x _. unfold receive_event. keep. intros n.
    keep. intros last. apply (hoare_bind _ (λ _, moved)).
    + apply (hoare_foldM_ctl (λ _, moved)). intros b i _. apply moved_receive_at.
    + intros b. by apply hoare_ret.
  - intros l. apply hoare_untouched. reads.
Qed.
Lemma moved_DivideRounds : hoare moved (DivideRounds fuel) (λ _, moved) moved.
Proof.
  unfold DivideRounds. keep. intros hs. apply (hoare_forM moved). intros x _.
  apply moved_divideRound.
Qed.

(** *** The pipeline *)
Context {X : Type} (cb : Block → GoM error (Hashgraph St * X) unit) (Hcb : cb_untouched rd cb).

Lemma moved_onHG {A} (m : H A) :
  hoare moved m (λ _, moved) moved →
  hoare (λ hx, moved hx.1) (onHG (X:=X) m) (λ _ hx, moved hx.1) (λ hx, moved hx.1).
Proof. intros Hm. by eapply hoare_zoom. Qed.

Lemma moved_pipeline e w :
  hoare (λ hx, moved hx.1) (InsertEventAndRunConsensus fuel cb e w) (λ _ hx, moved hx.1)
    (λ hx, moved hx.1).
Proof.
  unfold InsertEventAndRunConsensus.
  eapply hoare_bind; [apply moved_onHG, hoare_untouched, untouched_InsertEvent; done|]. intros e'.
  eapply hoare_bind; [apply moved_onHG, moved_DivideRounds|]. intros [].
  eapply hoare_bind; [apply moved_onHG, moved_DecideFame|]. intros [].
  eapply hoare_bind; [apply moved_onHG, moved_DecideRoundReceived|]. intros [].
  eapply (hoare_bind _ (λ _ hx, moved hx.1)); [|intros []; by apply hoare_ret].
  intros hx Hm. pose proof (untouched_ProcessDecidedRounds rd fuel cb Hcb) as Hp.
  specialize (Hp ltac:(done) ltac:(done) ltac:(done) hx).
  apply (moved_same _ _ Hp) in Hm. by destruct (ProcessDecidedRounds fuel cb hx) as [[]].
Qed.
End finality.

(** The pipeline moves every stored round up. *)
Lemma pipeline_final {KP : Keys} {CP : Codec} {RO : RangeOrder} {St : Type} {STO : Store St}
    {LAW : StoreLaws St} {X} fuel (cb : Block → GoM error (Hashgraph St * X) unit) e w hx :
  cb_untouched rd cb → st_ok (hg_Store hx.1) →
  moved hx.1 (InsertEventAndRunConsensus fuel cb e w hx).2.1.
Proof.
  intros Hcb Hok. pose proof (moved_pipeline fuel hx.1 cb Hcb e w hx) as Hp.
  assert (moved hx.1 hx.1) as H0 by (split; [done|]; split; [done|]; intros _; reflexivity).
  specialize (Hp H0). by destruct (InsertEventAndRunConsensus fuel cb e w hx) as [[]].
Qed.
