(* ===== verification/Blocks.v ===== *)
(** * Block signatures and the anchor block

    The signatures that [ProcessSigPool] attaches to blocks verify and belong
    to the validators of the block's round; the anchor block, which nodes
    fast-forward from, moves forward only and carries signatures of more than
    a third of its validators. *)
From S2P Require Export Frames.

Section blocks.
Context {KP : Keys} {CP : Codec} {RO : RangeOrder}.
Implicit Types (b : Block) (bs : BlockSignature) (psc : PeerSetCache).

(** A signature recorded in a block: by a validator of the peer-set of the
    block's round, and valid for the block's body. *)
Definition sig_ok psc b (k sig : string) : Prop :=
  ∃ ps bs, PSC_Get psc (Block_RoundReceived b) = Ok ps ∧ is_Some (ByPubKey ps !! k) ∧
    ValidatorHex bs = k ∧ bs_Signature bs = sig ∧ Block_Verify b bs = Ok true.

Definition block_ok psc b : Prop := ∀ k sig, bl_Signatures b !! k = Some sig → sig_ok psc b k sig.

(** Enough signatures for an anchor. *)
Definition endorsed psc b : Prop :=
  ∃ ps, PSC_Get psc (Block_RoundReceived b) = Ok ps ∧
    TrustCount ps < Z.of_nat (size (bl_Signatures b)).

Lemma Verify_SetSignature b bs bs' : Block_Verify (SetSignature b bs) bs' = Block_Verify b bs'.
Proof. done. Qed.

Lemma block_ok_SetSignature psc b bs ps :
  block_ok psc b → PSC_Get psc (Block_RoundReceived b) = Ok ps →
  is_Some (ByPubKey ps !! ValidatorHex bs) → Block_Verify b bs = Ok true →
  block_ok psc (SetSignature b bs).
Proof.
  intros Hb Hps Hv Hver k sig. simpl. destruct (decide (k = ValidatorHex bs)) as [->|Hne].
  - rewrite lookup_insert_eq. intros [= <-]. exists ps, bs. done.
  - rewrite lookup_insert_ne by done. apply Hb.
Qed.
Lemma endorsed_SetSignature psc b bs : endorsed psc b → endorsed psc (SetSignature b bs).
Proof.
  intros (ps & Hps & Hlt). exists ps. split; [done|]. simpl.
  destruct (bl_Signatures b !! ValidatorHex bs) eqn:Hk.
  - rewrite map_size_insert_Some by eauto. done.
  - rewrite map_size_insert_None by done. lia.
Qed.

(** An endorsed block whose signatures are right has been signed by more than
    a third of the peer-set. *)
Lemma endorsed_third psc b :
  block_ok psc b → endorsed psc b →
  ∃ ps, PSC_Get psc (Block_RoundReceived b) = Ok ps ∧
    (ps_wf ps → 1 ≤ PS_Len ps →
     dom (bl_Signatures b) ⊆ dom (ByPubKey ps) ∧
     PS_Len ps < 3 * Z.of_nat (size (dom (bl_Signatures b)))).
Proof.
  intros Hb (ps & Hps & Hlt). exists ps. split; [done|]. intros Hwf Hlen. split.
  - intros k [sig Hk]%elem_of_dom. destruct (Hb k sig Hk) as (ps' & bs & Hps' & Hin & _).
    apply elem_of_dom. congruence.
  - rewrite size_dom. apply trust_third; [|rewrite ps_wf_Len by done; lia|done].
    by rewrite <-ps_wf_Len.
Qed.
End blocks.

Section signatures.
Context {KP : Keys} {CP : Codec} {RO : RangeOrder}.
Context {St : Type} {STO : Store St} {LAW : StoreLaws St}.
Abbreviation H := (GoM error (Hashgraph St)).
Implicit Types (h : Hashgraph St).

Definition anchor_le (a a' : option Z) : Prop :=
  match a with None => True | Some i => ∃ i', a' = Some i' ∧ i ≤ i' end.
#[export] Instance anchor_le_preorder : PreOrder anchor_le.
Proof.
  split.
  - intros [i|]; [exists i; by split|done].
  - intros [i|] b c; [|done]. intros (i' & -> & Hle) (i'' & -> & Hle'). exists i''. by split; [|lia].
Qed.

(** The blocks are filed under their index, their signatures are right, and
    the anchor, if the store still has it, is endorsed. *)
Definition sig_inv h : Prop :=
  st_ok (hg_Store h) ∧
  (∀ i b, v_blocks (hv h) !! i = Some b → Block_Index b = i ∧ block_ok (v_psc (hv h)) b) ∧
  (∀ a b, AnchorBlock h = Some a → v_blocks (hv h) !! a = Some b → endorsed (v_psc (hv h)) b).

Section from.
Context (h0 : Hashgraph St).
Definition signed h : Prop :=
  sig_inv h ∧ v_psc (hv h) = v_psc (hv h0) ∧ anchor_le (AnchorBlock h0) (AnchorBlock h).

Definition bl (v : StoreView) := (v_blocks v, v_psc v).

(** A step that changes neither blocks, peer-sets nor the anchor. *)
Lemma signed_untouched {A} (m : H A) (P : Prop) :
  untouched bl m → (∀ h, AnchorBlock (m h).2 = AnchorBlock h) →
  hoare (λ h, signed h ∧ P) m (λ _ h, signed h ∧ P) signed.
Proof.
  intros Hm Ha h [((Hok & Hb & He) & Hp & Hle) HP]. destruct (Hm h Hok) as [Hok' [= H1 H2]].
  specialize (Ha h).
  assert (signed (m h).2) as Hs.
  { unfold signed, sig_inv, hv in *. rewrite H1, H2, Ha. done. }
  by destruct (m h) as [[]].
Qed.

Lemma GetBlock_signed i :
  hoare signed (try (onStore (GetBlock i)))
    (λ r h, signed h ∧
       match r with inl b => v_blocks (hv h) !! i = Some b | inr _ => True end) signed.
Proof.
  intros h Hs. pose proof (signed_untouched (onStore (GetBlock i)) True) as Hu.
  specialize (Hu ltac:(auto with respects)).
  assert (∀ h, AnchorBlock (onStore (GetBlock i) h).2 = AnchorBlock h) as Ha.
  { intros h'. unfold onStore, zoom. by destruct (GetBlock i (hg_Store h')). }
  specialize (Hu Ha h (conj Hs I)). destruct (Hs) as ((Hok & _) & _).
  destruct (GetBlock_law i (hg_Store h) Hok) as (_ & Hv & Hf).
  unfold try, onStore, zoom in *. destruct (GetBlock i (hg_Store h)) as [r s']. simpl in *.
  destruct r as [b|err| |]; simpl in *; [|tauto..]. destruct Hu as [Hu _].
  split; [done|]. unfold hv. simpl. rewrite Hv.
  destruct (v_blocks (store_view (hg_Store h)) !! i); simpl in Hf; [congruence|naive_solver].
Qed.

(** Writing a signature through the pointer. *)
Lemma mutBlock_signed i b bs ps :
  PSC_Get (v_psc (hv h0)) (Block_RoundReceived b) = Ok ps →
  is_Some (ByPubKey ps !! ValidatorHex bs) → Block_Verify b bs = Ok true →
  hoare (E:=error) (λ h, signed h ∧ v_blocks (hv h) !! i = Some b)
    (modify (λ h, set_Store (mutBlock i (λ b, SetSignature b bs) (hg_Store h)) h))
    (λ _ h, signed h ∧ v_blocks (hv h) !! i = Some (SetSignature b bs)) signed.
Proof.
  intros Hps Hv Hver h (((Hok & Hb & He) & Hp & Hle) & Hi).
  destruct (mutBlock_law i (λ b, SetSignature b bs) (hg_Store h) Hok) as (Hok' & Hview).
  unfold modify, signed, sig_inv, hv in *. simpl in *. rewrite Hview. simpl. rewrite Hp in *.
  split; [|by rewrite lookup_alter_eq, Hi]. split; [|done]. split; [done|].
  assert (∀ j b', alter (λ b, SetSignature b bs) i (v_blocks (store_view (hg_Store h))) !! j = Some b' →
    (j = i ∧ b' = SetSignature b bs) ∨ v_blocks (store_view (hg_Store h)) !! j = Some b') as Hcases.
  { intros j b'. destruct (decide (j = i)) as [->|Hne].
    - rewrite lookup_alter_eq, Hi. intros [= <-]. auto.
    - rewrite lookup_alter_ne by done. auto. }
  destruct (Hb i b Hi) as [Hidx Hbok]. split.
  - intros j b' [[-> ->]|Hj]%Hcases; [|by apply Hb]. split; [done|].
    by eapply block_ok_SetSignature.
  - intros a b' Ha [[-> ->]|Hj]%Hcases; [|by eapply He].
    apply endorsed_SetSignature. by eapply He.
Qed.

(** Storing the block that the store already holds. *)
Lemma SetBlock_signed i b :
  hoare (λ h, signed h ∧ v_blocks (hv h) !! i = Some b) (try (onStore (SetBlock b)))
    (λ _ h, signed h ∧ v_blocks (hv h) !! Block_Index b = Some b) signed.
Proof.
  intros h (((Hok & Hb & He) & Hp & Hle) & Hi). destruct (Hb i b Hi) as [Hidx Hbok].
  destruct (SetBlock_law b (hg_Store h) Hok) as (Hr & Hok' & bls & (Hsub & Hk & _ & _) & Hv).
  unfold try, onStore, zoom. destruct (SetBlock b (hg_Store h)) as [r s']. simpl in *. subst r.
  unfold signed, sig_inv, hv in *. simpl. rewrite Hv. simpl. rewrite Hp in *.
  split; [|done]. split; [|done]. split; [done|]. subst i.
  assert (∀ j b', bls !! j = Some b' → v_blocks (store_view (hg_Store h)) !! j = Some b') as Hold.
  { intros j b' Hj. rewrite map_subseteq_spec in Hsub. apply Hsub in Hj.
    destruct (decide (j = Block_Index b)) as [->|Hne].
    - rewrite lookup_insert_eq in Hj. congruence.
    - by rewrite lookup_insert_ne in Hj. }
  split; [intros j b' Hj%Hold; by apply Hb|]. intros a b' Ha Hj%Hold. by eapply He.
Qed.

Lemma SetAnchorBlock_signed b :
  hoare (λ h, signed h ∧ v_blocks (hv h) !! Block_Index b = Some b) (SetAnchorBlock b)
    (λ _, signed) signed.
Proof.
  intros h (((Hok & Hb & He) & Hp & Hle) & Hi).
  unfold SetAnchorBlock, bind, readStoreR, gets, lift.
  assert (signed h) as Hs by done. simpl. rewrite GetPeerSet_law.
  destruct (PSC_Get (v_psc (store_view (hg_Store h))) (Block_RoundReceived b)) as [ps| | |] eqn:Hps;
    [|done..].
  destruct (TrustCount ps <? Z.of_nat (size (bl_Signatures b))) eqn:Ht; simpl; [|done].
  destruct (match AnchorBlock h with Some a => a <? Block_Index b | None => true end) eqn:Hlt; [|done].
  unfold setAnchorBlock, modify, signed, sig_inv, hv in *. simpl. split.
  - split; [done|]. split; [done|]. intros a b' [= <-] Hj. assert (b' = b) as -> by congruence.
    exists ps. split; [done|lia].
  - split; [done|]. destruct (AnchorBlock h0) as [a0|]; [|done].
    destruct Hle as (a & Ha & Hle). rewrite Ha in Hlt. eexists. split; [done|]. lia.
Qed.

Lemma process_signature_signed bs : hoare signed (process_signature bs) (λ _, signed) signed.
Proof.
  unfold process_signature. eapply hoare_bind; [apply GetBlock_signed|].
  intros [b|err]; simpl; [|apply hoare_ret; tauto].
  apply (hoare_bind _ (λ o h, (signed h ∧ v_blocks (hv h) !! bs_Index bs = Some b) ∧
    match o with
    | inl ps => PSC_Get (v_psc (hv h0)) (Block_RoundReceived b) = Ok ps
    | inr _ => True
    end)).
  { intros h [Hs Hi]. unfold try, readStoreR, bind, gets, lift. simpl.
    rewrite GetPeerSet_law. destruct (Hs) as (_ & Hp & _). unfold hv in Hp. rewrite Hp.
    destruct (PSC_Get (v_psc (store_view (hg_Store h0))) (Block_RoundReceived b)) eqn:Hps; done. }
  intros [ps|err]; [|apply hoare_ret; tauto]. apply hoare_pure. intros Hps.
  destruct (ByPubKey ps !! ValidatorHex bs) eqn:Hval; [|apply hoare_ret; tauto].
  eapply (hoare_bind _ (λ v h, (signed h ∧ v_blocks (hv h) !! bs_Index bs = Some b) ∧
                                 Block_Verify b bs = Ok v)).
  { apply hoare_lift; tauto. }
  intros v. apply hoare_pure. intros Hver. destruct v; simpl; [|apply hoare_ret; tauto].
  eapply hoare_bind; [eapply mutBlock_signed; eauto|]. intros [].
  eapply hoare_bind; [apply SetBlock_signed|]. intros u.
  eapply hoare_bind; [apply SetAnchorBlock_signed|]. intros [].
  apply hoare_modify. intros h Hs. exact Hs.
Qed.

Lemma ProcessSigPool_signed : hoare signed ProcessSigPool (λ _, signed) signed.
Proof.
  unfold ProcessSigPool. eapply (hoare_bind _ (λ _, signed)); [by apply hoare_gets|]. intros items.
  apply (hoare_forM signed). intros [k bs] _. apply process_signature_signed.
Qed.
End from.

Lemma ProcessSigPool_sig_inv h : sig_inv h →
  let h' := (ProcessSigPool h).2 in
  sig_inv h' ∧ v_psc (hv h') = v_psc (hv h) ∧ anchor_le (AnchorBlock h) (AnchorBlock h').
Proof.
  intros Hinv. assert (signed h h) as H0 by (split; [done|]; split; [done|]; reflexivity).
  pose proof (ProcessSigPool_signed h h H0) as Hp. cbv zeta.
  by destruct (ProcessSigPool h) as [[]].
Qed.
End signatures.
