(* ===== verification/Commit.v ===== *)
(** * The order of commits

    [ProcessDecidedRounds] hands blocks to the commit callback in a total
    order: consecutive indexes, strictly increasing rounds, one block at most
    per decided round, taken from the front of the queue of pending rounds. The
    queue itself is strictly increasing at all times. *)
From S2P Require Export Frames.

Section commit.
Context {KP : Keys} {CP : Codec} {RO : RangeOrder}.
Context {St : Type} {STO : Store St} {LAW : StoreLaws St}.
Context {X : Type}.
Abbreviation H := (GoM error (Hashgraph St)).
Implicit Types (h : Hashgraph St) (b : Block).

(** A frame is filed under its round. *)
Definition frames_keyed h : Prop := ∀ i f, v_frames (hv h) !! i = Some f → fr_Round f = i.

(** What the commit of blocks relies on and keeps. *)
Definition commit_inv (last : Z) h : Prop :=
  st_ok (hg_Store h) ∧ frames_keyed h ∧ v_lastBlock (hv h) = last.

(** A callback that may store the block it is given, or others already
    stored, but adds no block and no frame. *)
Definition cb_commits (cb : Block → GoM error (Hashgraph St * X) unit) : Prop :=
  ∀ last b, Block_Index b ≤ last → respects (keeps (λ hx, commit_inv last hx.1)) (cb b).

(** ** Frames *)
Definition fl (v : StoreView) := (v_frames v, v_lastBlock v).

Lemma commit_inv_same last h h' : same fl h h' → commit_inv last h → commit_inv last h'.
Proof.
  intros Hs (Hok & Hf & Hl). destruct (Hs Hok) as [Hok' [= H1 H2]].
  split; [done|]. unfold frames_keyed, hv in *. by rewrite H1, H2.
Qed.
Lemma commit_untouched {A} last (m : H A) : untouched fl m →
  hoare (commit_inv last) m (λ _, commit_inv last) (commit_inv last).
Proof.
  intros Hm h Hh. apply (commit_inv_same last h _ (Hm h)) in Hh. by destruct (m h) as [[]].
Qed.

Lemma SetFrame_commit last f :
  hoare (commit_inv last) (onStore (SetFrame f)) (λ _, commit_inv last) (commit_inv last).
Proof.
  intros h (Hok & Hf & Hl). destruct (SetFrame_law f (hg_Store h) Hok) as (_ & Hok' & frs & (Hsub & _) & Hv).
  unfold onStore, zoom. destruct (SetFrame f (hg_Store h)) as [r s']. simpl in *.
  assert (commit_inv last (set_Store s' h)) as Hc; [|by destruct r].
  split; [done|]. unfold frames_keyed, hv in *. simpl. rewrite Hv. simpl. split; [|done].
  intros i f' Hi. rewrite map_subseteq_spec in Hsub. apply Hsub in Hi.
  destruct (decide (i = fr_Round f)) as [->|Hne].
  - rewrite lookup_insert_eq in Hi. by injection Hi as ->.
  - rewrite lookup_insert_ne in Hi by done. by apply Hf.
Qed.

Lemma try_GetFrame_commit last i :
  hoare (commit_inv last) (try (onStore (GetFrame i)))
    (λ r h, commit_inv last h ∧ match r with inl f => fr_Round f = i | inr _ => True end)
    (commit_inv last).
Proof.
  intros h Hc. pose proof (commit_inv_same last h _ (untouched_GetFrame fl i h) Hc) as Hc'.
  destruct (Hc) as (Hok & Hf & _). destruct (GetFrame_law i (hg_Store h) Hok) as (_ & _ & Hfound).
  unfold try, onStore, zoom in *. destruct (GetFrame i (hg_Store h)) as [r s']. simpl in *.
  destruct r as [f|err| |]; [|done..]. split; [done|]. apply Hf. unfold hv.
  destruct (v_frames (store_view (hg_Store h)) !! i); simpl in Hfound; [congruence|naive_solver].
Qed.

Lemma HG_GetFrame_commit fuel last rr :
  hoare (commit_inv last) (HG_GetFrame fuel rr)
    (λ f h, commit_inv last h ∧ fr_Round f = rr) (commit_inv last).
Proof.
  unfold HG_GetFrame. eapply hoare_bind; [apply try_GetFrame_commit|].
  intros [f|err]; [by apply hoare_ret|].
  destruct (negb (IsStore err KeyNotFound)); [apply hoare_throw; tauto|].
  apply (hoare_conseq _ (commit_inv last) _ (λ f h, commit_inv last h ∧ fr_Round f = rr) _
           (commit_inv last)); [|tauto|tauto|tauto].
  eapply hoare_bind; [apply commit_untouched; auto with respects|]. intros round.
  eapply hoare_bind; [apply commit_untouched; auto with respects|]. intros ps.
  eapply hoare_bind; [apply commit_untouched; unfold frame_events; respects_go|]. intros events.
  eapply hoare_bind; [apply commit_untouched; unfold frame_roots_own; respects_go|]. intros roots.
  eapply hoare_bind; [apply commit_untouched; unfold frame_roots_others; respects_go|]. intros roots'.
  eapply hoare_bind; [apply commit_untouched; auto with respects|]. intros all.
  eapply hoare_bind; [apply commit_untouched; unfold frame_timestamp; respects_go|]. intros ts.
  cbv zeta. eapply hoare_bind; [apply SetFrame_commit|]. intros []. by apply hoare_ret.
Qed.

Lemma NewBlockFromFrame_spec i frame b : NewBlockFromFrame i frame = Ok b →
  Block_Index b = i ∧ Block_RoundReceived b = fr_Round frame ∧
  Block_Transactions b = concat ((λ e, Transactions (fe_Core e)) <$> fr_Events frame) ∧
  Block_InternalTransactions b =
    concat ((λ e, InternalTransactions (fe_Core e)) <$> fr_Events frame) ∧
  Block_Timestamp b = fr_Timestamp frame ∧ Frame_Hash frame = Ok (Block_FrameHash b) ∧
  (∃ ps, NewPeerSet (fr_Peers frame) = Ok ps ∧ PS_Hash ps = Ok (Block_PeersHash b)) ∧
  bl_Signatures b = ∅.
Proof.
  unfold NewBlockFromFrame. intros (fh & Hfh & H)%res_bind_Ok.
  assert (∀ l txs itxs, foldl (λ '(txs, itxs) e,
        (txs ++ Transactions (fe_Core e), itxs ++ InternalTransactions (fe_Core e)))
      (txs, itxs) l =
    (txs ++ concat ((λ e, Transactions (fe_Core e)) <$> l),
     itxs ++ concat ((λ e, InternalTransactions (fe_Core e)) <$> l))) as Hfold.
  { induction l as [|e l IH]; intros txs itxs; csimpl; [by rewrite !app_nil_r|].
    rewrite IH. by rewrite <-!app_assoc. }
  rewrite Hfold in H. unfold NewBlock in H.
  apply res_bind_Ok in H as (ps & Hps & H). apply res_bind_Ok in H as (ph & Hph & [= <-]).
  repeat (split; [done|]). split; [eauto|done].
Qed.

(** ** The log of commits

    The callback, instrumented: [logged cb] also records the blocks it is
    called with. *)
Definition logged (cb : Block → GoM error (Hashgraph St * X) unit) (b : Block) :
    GoM error (Hashgraph St * (X * list Block)) unit :=
  modify (λ s, (s.1, (s.2.1, s.2.2 ++ [b]))) ;;;
  zoom (λ s, (s.1, s.2.1)) (λ t s, (t.1, (t.2, s.2.2))) (cb b).

Lemma logged_run cb b h x log :
  logged cb b (h, (x, log)) =
  ((cb b (h, x)).1, ((cb b (h, x)).2.1, ((cb b (h, x)).2.2, log ++ [b]))).
Proof. unfold logged, bind, modify, zoom. simpl. by destruct (cb b (h, x)). Qed.

Section order.
Context (fuel : nat) (cb : Block → GoM error (Hashgraph St * X) unit) (Hcb : cb_commits cb).
Context (last0 : Z) (log0 : list Block).
Abbreviation HX := (GoM error (Hashgraph St * (X * list Block))).

(** The new blocks, all of rounds below [bound]. *)
Definition ordered (bound : option Z) (new : list Block) : Prop :=
  (∀ i b, new !! i = Some b → Block_Index b = last0 + 1 + Z.of_nat i) ∧
  StronglySorted Z.lt (Block_RoundReceived <$> new) ∧
  match bound with
  | None => True
  | Some r => ∀ b, b ∈ new → Block_RoundReceived b < r
  end.
Definition log_inv (bound : option Z) (s : Hashgraph St * (X * list Block)) : Prop :=
  ∃ new, s.2.2 = log0 ++ new ∧ commit_inv (last0 + zlen new) s.1 ∧ ordered bound new.

Lemma log_inv_None bound s : log_inv bound s → log_inv None s.
Proof. intros (new & Hl & Hc & H1 & H2 & _). exists new. done. Qed.
Lemma log_inv_lt r r' s : r ≤ r' → log_inv (Some r) s → log_inv (Some r') s.
Proof.
  intros Hr (new & Hl & Hc & H1 & H2 & H3). exists new. split; [done|]. split; [done|].
  split; [done|]. split; [done|]. intros b Hb. specialize (H3 b Hb). lia.
Qed.

(** A method of the hashgraph that adds no block. *)
Lemma log_onHG {A} bound (m : H A) (φ : A → Prop) :
  (∀ last, hoare (commit_inv last) m (λ a h, commit_inv last h ∧ φ a) (commit_inv last)) →
  hoare (log_inv bound) (onHG m) (λ a s, log_inv bound s ∧ φ a) (log_inv None).
Proof.
  intros Hm [h [x log]] (new & Hlog & Hc & Hord). simpl in *. specialize (Hm _ h Hc).
  assert (∀ h', commit_inv (last0 + zlen new) h' → log_inv bound (h', (x, log))) as Hi
    by (intros h' Hc'; exists new; done).
  unfold onHG, zoom. simpl. destruct (m h) as [[a|e| |] h']; simpl; cycle 1.
  1-3: eapply log_inv_None, Hi, Hm.
  destruct Hm as [Hc' Ha]. split; [by apply Hi|done].
Qed.
Lemma log_untouched {A} bound (m : H A) : untouched fl m →
  hoare (log_inv bound) (onHG m) (λ _, log_inv bound) (log_inv None).
Proof.
  intros Hm. eapply hoare_conseq; [apply (log_onHG bound m (λ _, True))|done|by intros ??[]|done].
  intros last h Hh. pose proof (commit_untouched last m Hm h Hh) as H'. by destruct (m h) as [[]].
Qed.

(** A block is added, then handed to the callback. *)
Lemma log_commit r frame b :
  fr_Round frame = r →
  hoare (λ s, log_inv (Some r) s ∧
              NewBlockFromFrame (v_lastBlock (hv s.1) + 1) frame = Ok b)
    (onHG (onStore (SetBlock b)) ;;; _ <- try (logged cb b) ;; ret tt)
    (λ _, log_inv (Some (r + 1))) (log_inv None).
Proof.
  intros Hr [h [x log]] ((new & Hlog & (Hok & Hf & Hl) & Hidx & Hsort & Hlt) & Hb).
  simpl in *. apply NewBlockFromFrame_spec in Hb as (Hbi & Hbr & _). rewrite Hl in Hbi. rewrite Hr in Hbr.
  destruct (SetBlock_law b (hg_Store h) Hok) as (Hset & Hok' & bls & _ & Hv).
  unfold bind at 1, onHG, zoom, onStore. simpl. unfold zoom.
  destruct (SetBlock b (hg_Store h)) as [res s']. simpl in *. subst res.
  set (h1 := set_Store s' h).
  assert (commit_inv (last0 + zlen (new ++ [b])) h1) as Hc1.
  { split; [done|]. unfold frames_keyed, hv in *. simpl. rewrite Hv. simpl. split; [done|].
    rewrite Hl, Hbi. unfold zlen. rewrite length_app. simpl. lia. }
  unfold bind, try, ret. simpl. rewrite logged_run.
  assert (Block_Index b ≤ last0 + zlen (new ++ [b])) as Hle.
  { rewrite Hbi. unfold zlen. rewrite length_app. simpl. lia. }
  pose proof (Hcb (last0 + zlen (new ++ [b])) b Hle (h1, x) Hc1) as Hc2. simpl in Hc2.
  assert (∀ hx', commit_inv (last0 + zlen (new ++ [b])) hx'.1 →
            log_inv (Some (r + 1)) (hx'.1, (hx'.2 : X, log ++ [b]))) as Hfin.
  { intros hx' Hc'. exists (new ++ [b]). simpl. split; [by rewrite Hlog, app_assoc|].
    split; [done|]. split; [|split].
    - intros i b' [Hi|[Hi Hb']]%lookup_app_Some; [by apply Hidx|].
      apply list_lookup_singleton_Some in Hb' as [Hi0 <-]. rewrite Hbi. unfold zlen. lia.
    - rewrite fmap_app. csimpl. clear -Hsort Hlt Hbr.
      induction new as [|b0 l IH]; csimpl; [repeat constructor|].
      apply StronglySorted_inv in Hsort as [Hs Hb0]. constructor.
      + apply IH; [done|]. intros b' Hb'. apply Hlt. set_solver.
      + apply Forall_app. split; [done|]. constructor; [|done]. rewrite Hbr. apply Hlt. set_solver.
    - intros b' [Hb'| ->%list_elem_of_singleton]%elem_of_app; [specialize (Hlt b' Hb')|]; lia. }
  destruct (cb b (h1, x)) as [[[]|e| |] hx']; simpl in *; [by apply Hfin|by apply Hfin| |];
    eapply log_inv_None; by apply Hfin.
Qed.

Lemma log_process_round r :
  hoare (log_inv (Some r)) (process_round fuel (logged cb) r)
    (λ _, log_inv (Some (r + 1))) (log_inv None).
Proof.
  unfold process_round.
  eapply hoare_bind; [apply log_untouched; auto with respects|]. intros ri.
  eapply hoare_bind.
  { apply (log_onHG _ _ (λ f, fr_Round f = r)). intros last.
    intros h Hh. pose proof (HG_GetFrame_commit fuel last r h Hh) as H'. unfold wrap.
    by destruct (HG_GetFrame fuel r h) as [[]]. }
  intros frame. simpl. apply hoare_pure. intros Hr.
  apply (hoare_bind _ (λ _, log_inv (Some (r + 1)))).
  - destruct (0 <? zlen (fr_Events frame)); [|apply hoare_ret; intros s; by apply log_inv_lt; lia].
    eapply hoare_bind; [apply log_untouched; respects_go|]. intros [].
    apply (hoare_bind _ (λ lb s, log_inv (Some r) s ∧ lb = v_lastBlock (hv s.1))).
    { intros [h [x log]] Hs. unfold onHG, zoom, readStore, gets. simpl.
      rewrite LastBlockIndex_law. done. }
    intros lb. apply (hoare_bind _ (λ b s, log_inv (Some r) s ∧
        NewBlockFromFrame (v_lastBlock (hv s.1) + 1) frame = Ok b)).
    { apply hoare_lift; [by intros b s Hb [Hs ->]|]. intros s [Hs _]. by eapply log_inv_None. }
    intros b. apply (hoare_bind _ (λ _, log_inv (Some (r + 1)))).
    + destruct (_ || _); [by apply log_commit|]. apply hoare_ret. intros s [Hs _].
      by eapply log_inv_lt; [|exact Hs]; lia.
    + intros []. apply log_untouched. by apply untouched_fields.
  - intros []. apply log_untouched. unfold setLastConsensusRound. respects_go;
      by apply untouched_fields.
Qed.

Lemma log_process_rounds rs bound processed :
  StronglySorted Z.lt (pr_Index <$> rs) → (∀ pr, pr ∈ rs → bound ≤ pr_Index pr) →
  hoare (log_inv (Some bound)) (process_rounds fuel (logged cb) processed rs)
    (λ _, log_inv None) (log_inv None).
Proof.
  revert bound processed. induction rs as [|pr rs IH]; intros bound processed Hs Hb; simpl.
  { apply hoare_ret. intros s. by apply log_inv_None. }
  destruct (pr_Decided pr); simpl; [|apply hoare_ret; intros s; by apply log_inv_None].
  csimpl in Hs. apply StronglySorted_inv in Hs as [Hs Hlt].
  apply (hoare_bind _ (λ o s, match o with
           | inl _ => log_inv (Some (pr_Index pr + 1)) s | inr _ => log_inv None s end)).
  - eapply hoare_conseq; [apply hoare_try, log_process_round| |by intros [[]|]|done].
    intros s. apply log_inv_lt. apply Hb. set_solver.
  - intros [u|err]; [|by apply hoare_ret]. apply IH; [done|]. intros pr' Hpr'.
    rewrite Forall_fmap, Forall_forall in Hlt. specialize (Hlt pr' Hpr'). simpl in Hlt. lia.
Qed.

Lemma log_ProcessDecidedRounds :
  hoare (λ s, log_inv None s ∧ s.2.2 = log0 ∧ prc_wf (PendingRounds s.1))
    (ProcessDecidedRounds fuel (logged cb)) (λ _, log_inv None) (log_inv None).
Proof.
  unfold ProcessDecidedRounds.
  apply (hoare_bind _ (λ rs s, log_inv (Some (default 0 (head (pr_Index <$> rs)))) s ∧
                                StronglySorted Z.lt (pr_Index <$> rs))).
  { intros [h [x log]] ((new & Hlog & Hc & Hord) & Heq & (Hs & _)). simpl in *. subst log.
    assert (new = []) as ->.
    { destruct new; [done|]. apply (f_equal length) in Heq. rewrite length_app in Heq. simpl in Heq. lia. }
    split; [|done]. exists []. simpl. split; [done|]. split; [done|]. split; [done|].
    split; [constructor|]. set_solver. }
  intros rs. apply hoare_pure. intros Hs.
  eapply hoare_bind.
  { apply log_process_rounds; [done|]. destruct rs as [|pr rs]; [set_solver|]. csimpl in *.
    apply StronglySorted_inv in Hs as [_ Hlt]. rewrite Forall_fmap, Forall_forall in Hlt.
    intros pr' [->|Hpr']%elem_of_cons; [done|]. specialize (Hlt pr' Hpr'). simpl in Hlt. lia. }
  intros [processed err]. eapply hoare_bind; [apply log_untouched; by apply untouched_fields|].
  intros []. simpl. destruct err; [by apply hoare_throw|by apply hoare_ret].
Qed.
End order.
End commit.

(** ** The queue of pending rounds *)
Section queue.
Context {KP : Keys} {CP : Codec} {RO : RangeOrder}.
Context {St : Type} {STO : Store St}.
Context (fuel : nat).
Abbreviation H := (GoM error (Hashgraph St)).

(** The step does not touch the queue. *)
Definition calm (h h' : Hashgraph St) : Prop := PendingRounds h' = PendingRounds h.
#[export] Instance calm_preorder : PreOrder calm.
Proof. split; [done|]. intros a b c Hab Hbc. unfold calm in *. congruence. Qed.
Abbreviation calmly := (respects (E:=error) calm).

Lemma calm_onStore {A} (m : M St A) : calmly (onStore m).
Proof. intros h. unfold onStore, zoom. by destruct (m (hg_Store h)). Qed.
Lemma calm_readStore {A} (f : St → A) : calmly (readStore f).
Proof. done. Qed.
Lemma calm_readStoreR {A} (f : St → res A) : calmly (readStoreR f).
Proof. done. Qed.
Hint Resolve calm_onStore calm_readStore calm_readStoreR : respects.
Hint Extern 4 (respects _ (modify _)) => by intros ? : respects.
Lemma calm_memoised {K V} `{Countable K} (proj : MemoCaches → LRU K V) put (key : K)
    (compute : H V) : calmly compute → calmly (memoised proj put key compute).
Proof.
  intros Hc. unfold memoised. apply (respects_bind _).
  - intros h. unfold zoom. by destruct (Get key (proj (memo h))).
  - intros [v|]; respects_go; done.
Qed.
Lemma calm_ancestor x y : calmly (ancestor x y).
Proof. apply calm_memoised. unfold _ancestor. respects_go. Qed.
Lemma calm_stronglySee x y ps : calmly (stronglySee x y ps).
Proof.
  unfold stronglySee. apply (respects_bind _); [auto with respects typeclass_instances|].
  intros hex. apply calm_memoised. unfold _stronglySee. respects_go.
Qed.
Hint Resolve calm_ancestor calm_stronglySee : respects.
Lemma calm_round n x : calmly (round n x).
Proof.
  revert x. induction n as [|n IH]; intros x; simpl; [apply respects_diverge, _|].
  apply calm_memoised. unfold _round. respects_go; auto.
Qed.
Lemma calm_lamport n x : calmly (lamportTimestamp n x).
Proof.
  revert x. induction n as [|n IH]; intros x; simpl; [apply respects_diverge, _|].
  apply calm_memoised. unfold _lamportTimestamp. respects_go; auto.
Qed.
Hint Resolve calm_round calm_lamport : respects.
Lemma calm_witness x : calmly (witness fuel x).
Proof. apply calm_memoised. unfold _witness. respects_go. Qed.
Hint Resolve calm_witness : respects.
Lemma calm_getOrNewRound r : calmly (getOrNewRound r).
Proof. unfold getOrNewRound. respects_go. Qed.
Lemma calm_walk k event ah : calmly (walk_descendants fuel k event ah).
Proof. revert ah. induction k as [|k IH]; intros ah; simpl; respects_go; auto. Qed.
Lemma calm_SetWireInfo e : calmly (SetWireInfo e).
Proof. unfold SetWireInfo. respects_go. Qed.
Lemma calm_initEventCoordinates e : calmly (initEventCoordinates e).
Proof. unfold initEventCoordinates. respects_go. Qed.
Hint Resolve calm_getOrNewRound calm_walk calm_SetWireInfo calm_initEventCoordinates : respects.
Lemma calm_updateAncestor e : calmly (updateAncestorFirstDescendant fuel e).
Proof. unfold updateAncestorFirstDescendant. respects_go. Qed.
Hint Resolve calm_updateAncestor : respects.
Lemma calm_InsertEvent e w : calmly (InsertEvent fuel e w).
Proof. unfold InsertEvent, checkSelfParent, checkOtherParent, insert_checked. respects_go. Qed.
Lemma calm_DecideRoundReceived : calmly (DecideRoundReceived fuel).
Proof. unfold DecideRoundReceived, receive_event, receive_at, see_all, see. respects_go. Qed.
Lemma calm_createFrameEvent x : calmly (createFrameEvent fuel x).
Proof. unfold createFrameEvent. respects_go. Qed.
Hint Resolve calm_createFrameEvent : respects.
Lemma calm_root_events k p i l : calmly (root_events fuel k p i l).
Proof. revert i l. induction k as [|k IH]; intros i l; simpl; respects_go; auto. Qed.
Hint Resolve calm_root_events : respects.
Lemma calm_createRoot p hd : calmly (createRoot fuel p hd).
Proof. unfold createRoot. respects_go. Qed.
Hint Resolve calm_createRoot : respects.
Lemma calm_HG_GetFrame rr : calmly (HG_GetFrame fuel rr).
Proof.
  unfold HG_GetFrame, frame_events, frame_roots_own, frame_roots_others, frame_timestamp.
  respects_go.
Qed.

(** The queue stays well-formed. *)
Definition queue_ok (h : Hashgraph St) : Prop := prc_wf (PendingRounds h).
Abbreviation queued := (respects (E:=error) (keeps queue_ok)).
Lemma queued_calm {A} (m : H A) : calmly m → queued m.
Proof. intros Hm h Hq. unfold queue_ok. by rewrite Hm. Qed.

Lemma queued_divideRound hash : queued (divideRound_event fuel hash).
Proof.
  unfold divideRound_event. apply (respects_bind _); [apply queued_calm; respects_go|]. intros ev.
  apply (respects_bind _); [|intros [u ev']; apply queued_calm; respects_go].
  destruct (ev_round ev); [apply respects_ret, _|].
  apply (respects_bind _); [apply queued_calm; respects_go|]. intros n.
  apply (respects_bind _); [apply queued_calm; respects_go|]. intros [].
  apply (respects_bind _); [apply queued_calm; respects_go|]. intros ri. cbv zeta.
  intros h Hq. unfold bind at 1, get. cbn [fst snd].
  assert (queue_ok (if negb (Queued (PendingRounds h) n)
    then set_PendingRounds (PRC_Set (PendingRounds h) (mkPR n false)) h else h)) as Hset.
  { destruct (Queued (PendingRounds h) n) eqn:Hn; [done|]. by apply PRC_Set_wf. }
  destruct (Queued (PendingRounds h) n); simpl in *.
  - apply (respects_bind (E:=error) (keeps queue_ok)); [apply queued_calm; respects_go| |exact Hset].
    intros []. apply queued_calm. respects_go.
  - apply (respects_bind (E:=error) (keeps queue_ok) (if _ : bool then _ else _)); [| |done].
    + intros h' Hq'. by destruct (_ && _).
    + intros []. apply queued_calm. respects_go.
Qed.
Lemma queued_DivideRounds : queued (DivideRounds fuel).
Proof.
  unfold DivideRounds. apply (respects_bind _); [apply queued_calm; respects_go|]. intros hs.
  apply (respects_forM _). intros x. apply queued_divideRound.
Qed.
Lemma calm_fame_round r x st j : calmly (fame_round r x st j).
Proof.
  unfold fame_round. apply (respects_bind _); [auto with respects|]. intros ri.
  apply (respects_bind _); [auto with respects|]. intros ps.
  revert st. induction (Witnesses ri) as [|y ys IH]; intros st; [apply respects_ret, _|].
  apply (respects_bind _); [unfold fame_vote, ss_witnesses, see; respects_go|].
  intros [st'|st']; [apply IH|]. apply respects_ret, _.
Qed.
Lemma queued_DecideFame : queued DecideFame.
Proof.
  unfold DecideFame. apply (respects_bind _); [apply queued_calm; respects_go|]. intros rs.
  apply (respects_bind _).
  - apply queued_calm. unfold decideFame_round, fame_witness. respects_go. apply calm_fame_round.
  - intros st. apply respects_modify. intros h Hq. by apply PRC_Update_wf.
Qed.

Context {X : Type} (cb : Block → GoM error (Hashgraph St * X) unit).
Definition cb_queue : Prop := ∀ b, respects (keeps (λ hx, queue_ok hx.1)) (cb b).
Context (Hcb : cb_queue).
Abbreviation Q := (keeps (λ hx : Hashgraph St * X, queue_ok hx.1)).

Lemma queued_onHG {A} (m : H A) : queued m → respects Q (onHG m).
Proof.
  intros Hm. apply (respects_zoom _ (keeps queue_ok)); [done|]. intros [h x] h' Hh. exact Hh.
Qed.
Lemma queued_process_round i : respects Q (process_round fuel cb i).
Proof.
  unfold process_round, setLastConsensusRound, commit_event.
  respects_go; first [apply Hcb | apply queued_onHG, queued_calm]; respects_go.
  apply respects_wrap, calm_HG_GetFrame.
Qed.
Lemma queued_ProcessDecidedRounds : respects Q (ProcessDecidedRounds fuel cb).
Proof.
  assert (∀ rs l, respects Q (process_rounds fuel cb l rs)) as Hrs.
  { induction rs as [|r rs IH]; intros l; simpl; respects_go; auto using queued_process_round. }
  unfold ProcessDecidedRounds. apply (respects_bind _); [apply queued_onHG, queued_calm; respects_go|].
  intros rs. apply (respects_bind _); [apply Hrs|]. intros [processed err].
  apply (respects_bind _); [|intros []; respects_go].
  apply queued_onHG, respects_modify. intros h Hq. by apply PRC_Clean_spec.
Qed.
Lemma queued_pipeline e w : respects Q (InsertEventAndRunConsensus fuel cb e w).
Proof.
  unfold InsertEventAndRunConsensus.
  apply (respects_bind _); [apply queued_onHG, queued_calm, calm_InsertEvent|]. intros e'.
  apply (respects_bind _); [apply queued_onHG, queued_DivideRounds|]. intros [].
  apply (respects_bind _); [apply queued_onHG, queued_DecideFame|]. intros [].
  apply (respects_bind _); [apply queued_onHG, queued_calm, calm_DecideRoundReceived|]. intros [].
  apply (respects_bind _); [apply queued_ProcessDecidedRounds|]. intros []. apply respects_ret, _.
Qed.
End queue.

(** ** The whole pipeline *)
Section pipeline.
Context {KP : Keys} {CP : Codec} {RO : RangeOrder}.
Context {St : Type} {STO : Store St} {LAW : StoreLaws St} {X : Type}.
Context (fuel : nat) (cb : Block → GoM error (Hashgraph St * X) unit).
Context (Hcb : cb_commits cb) (Hq : cb_queue cb).
Context (last0 : Z) (log0 : list Block).

Lemma cb_queue_logged : cb_queue (logged cb).
Proof.
  intros b [h [x log]] Hok. rewrite logged_run. simpl. specialize (Hq b (h, x) Hok). exact Hq.
Qed.

(** Nothing has been committed yet. *)
Definition ready (s : Hashgraph St * (X * list Block)) : Prop :=
  commit_inv last0 s.1 ∧ s.2.2 = log0 ∧ queue_ok s.1.

Lemma ready_log s : ready s → log_inv last0 log0 None s.
Proof.
  intros (Hc & Hl & _). exists []. rewrite app_nil_r. unfold zlen. simpl. rewrite Z.add_0_r.
  split; [done|]. split; [done|]. split; [done|]. split; [constructor|done].
Qed.

Lemma ready_onHG {A} (m : GoM error (Hashgraph St) A) :
  untouched fl m → respects (keeps queue_ok) m →
  hoare ready (onHG m) (λ _, ready) (log_inv last0 log0 None).
Proof.
  intros Hm Hqm [h [x log]] (Hc & Hl & Hqh). simpl in *.
  pose proof (commit_inv_same last0 h _ (Hm h) Hc) as Hc'. specialize (Hqm h Hqh).
  assert (ready ((m h).2, (x, log))) as Hr by done.
  unfold onHG, zoom. simpl. apply ready_log in Hr as Hlog. by destruct (m h) as [[]].
Qed.

Lemma log_pipeline e w :
  hoare ready (InsertEventAndRunConsensus fuel (logged cb) e w)
    (λ _, log_inv last0 log0 None) (log_inv last0 log0 None).
Proof.
  unfold InsertEventAndRunConsensus.
  eapply hoare_bind; [apply ready_onHG|intros e'].
  { by apply untouched_InsertEvent. }
  { apply queued_calm, calm_InsertEvent. }
  eapply hoare_bind; [apply ready_onHG|intros []].
  { by apply untouched_DivideRounds. }
  { apply queued_DivideRounds. }
  eapply hoare_bind; [apply ready_onHG|intros []].
  { by apply untouched_DecideFame. }
  { apply queued_DecideFame. }
  eapply hoare_bind; [apply ready_onHG|intros []].
  { by apply untouched_DecideRoundReceived. }
  { apply queued_calm, calm_DecideRoundReceived. }
  apply (hoare_bind _ (λ _, log_inv last0 log0 None)); [|intros []; by apply hoare_ret].
  eapply hoare_conseq; [by apply (log_ProcessDecidedRounds fuel cb Hcb last0 log0)| |by auto|by auto].
  intros s Hr. split; [by apply ready_log|]. by destruct Hr as (_ & ? & ?).
Qed.

Lemma pipeline_commits e w h x :
  commit_inv last0 h → queue_ok h →
  let out := (InsertEventAndRunConsensus fuel (logged cb) e w (h, (x, log0))).2 in
  queue_ok out.1 ∧
  ∃ new, out.2.2 = log0 ++ new ∧ commit_inv (last0 + zlen new) out.1 ∧
    (∀ i b, new !! i = Some b → Block_Index b = last0 + 1 + Z.of_nat i) ∧
    StronglySorted Z.lt (Block_RoundReceived <$> new).
Proof.
  intros Hc Hqh out. split.
  - exact (queued_pipeline fuel (logged cb) cb_queue_logged e w (h, (x, log0)) Hqh).
  - assert (log_inv last0 log0 None out) as (new & Hl & Hc' & Hi & Hs & _); [|by exists new].
    pose proof (log_pipeline e w (h, (x, log0)) (conj Hc (conj eq_refl Hqh))) as Hp. subst out.
    by destruct (InsertEventAndRunConsensus fuel (logged cb) e w (h, (x, log0))) as [[]].
Qed.
End pipeline.
