(* ===== verification/CommitCallback.v ===== *)
(** * The commit callback of the core

    [core.commit] satisfies what the hashgraph's theorems ask of a commit
    callback: it leaves the graph, the rounds and the queue of pending rounds
    alone, and adds no block. So those theorems hold of the hashgraph that a
    node runs, whatever the application answers. *)
From S2P Require Export Core Rounds Blocks Commit.

Section callback.
Context {KP : Keys} {CP : Codec} {RO : RangeOrder}.
Context {St : Type} {STO : Store St} {LAW : StoreLaws St}.
Context {P : Type} (app : Block → GoM error P CommitResponse).
Abbreviation core := (Hashgraph St * (coreState * P))%type.

(** ** A relation on the hashgraph, carried through the methods of the core *)
Section lifted.
Context (R : Hashgraph St → Hashgraph St → Prop) {HR : PreOrder R}.
Definition on_h (s s' : core) : Prop := R s.1 s'.1.
#[export] Instance on_h_preorder : PreOrder on_h.
Proof. split; [intros s; unfold on_h; reflexivity|]. intros a b c Hab Hbc. unfold on_h in *. by etrans. Qed.

Lemma on_h_getsC {A} (f : coreState → A) : respects (E:=error) on_h (getsC (St:=St) (P:=P) f).
Proof. intros s. unfold on_h. simpl. reflexivity. Qed.
Lemma on_h_modifyC f : respects (E:=error) on_h (modifyC (St:=St) (P:=P) f).
Proof. intros s. unfold on_h. simpl. reflexivity. Qed.
Lemma on_h_onApp {A} (m : GoM error P A) : respects on_h (onApp (St:=St) m).
Proof. intros s. unfold on_h, onApp, zoom. destruct (m s.2.2). simpl. reflexivity. Qed.
Lemma on_h_onH {A} (m : GoM error (Hashgraph St) A) : respects R m → respects on_h (onH (P:=P) m).
Proof.
  intros Hm s. unfold on_h, onH, onHG, zoom. specialize (Hm s.1). by destruct (m s.1).
Qed.
Hint Resolve on_h_getsC on_h_modifyC on_h_onApp on_h_onH : respects.

(** What [commit] does to the hashgraph: a read of the peer-sets, writes to
    the block, the anchor and a new peer-set. *)
Context (Hget : ∀ r, respects (E:=error) R (readStoreR (λ s, GetPeerSet s r))).
Context (Hmut : ∀ i f, (∀ b, Block_Index (f b) = Block_Index b) →
  respects (E:=error) R (modify (λ h, set_Store (mutBlock i f (hg_Store h)) h))).
Context (Hanchor : ∀ b, respects R (SetAnchorBlock b)).
Context (Hpeers : ∀ r ps, respects R (onStore (SetPeerSet r ps))).

Lemma on_h_respond p resp : respects on_h (respond p resp).
Proof. unfold respond. respects_go. Qed.
Hint Resolve on_h_respond : respects.
Lemma on_h_setPeers ps : respects on_h (setPeers ps).
Proof. unfold setPeers. respects_go. Qed.
Hint Resolve on_h_setPeers : respects.
Lemma on_h_processAccepted rr l : respects on_h (processAcceptedInternalTransactions rr l).
Proof.
  unfold processAcceptedInternalTransactions, process_receipt, answer_promise. respects_go.
Qed.

Context (block : Block) (Hset : ∀ b, Block_Index b = Block_Index block →
  respects R (onStore (SetBlock b))).
Lemma on_h_commit : respects on_h (commit app block).
Proof.
  unfold commit, signBlock, mutateBlock.
  respects_go; first [apply on_h_onH | apply on_h_processAccepted]; auto.
Qed.
End lifted.

Lemma mutBlock_untouched {T} (f : StoreView → T) i g : (∀ m v, f (with_blocks m v) = f v) →
  respects (E:=error) (same f) (modify (λ h, set_Store (mutBlock i g (hg_Store h)) h)).
Proof.
  intros Hbl h Hok. destruct (mutBlock_law i g (hg_Store h) Hok) as (? & Hv). unfold hv. simpl.
  by rewrite Hv, Hbl.
Qed.
Lemma SetAnchorBlock_untouched {T} (f : StoreView → T) b : respects (same f) (SetAnchorBlock b).
Proof.
  unfold SetAnchorBlock, setAnchorBlock. respects_go. by apply untouched_fields.
Qed.

(** ** The graph *)
Lemma commit_cb_ok : cb_ok (commit app).
Proof.
  intros b h0 s Hs.
  apply (on_h_commit (keeps (same_graph h0)) (HR:=keeps_preorder _)); [| | | | |exact Hs];
    clear s Hs; intros; try apply SetPeerSet_same; apply graph_stable_same; intros N g pec n Hok;
    respects_go.
  by apply stable_SetAnchorBlock.
Qed.

(** ** The rounds *)
Lemma commit_cb_rounds : cb_untouched rd (commit app).
Proof.
  intros b. apply (on_h_commit (same rd)).
  - intros r. auto with respects.
  - intros i f _. by apply mutBlock_untouched.
  - apply SetAnchorBlock_untouched.
  - intros r ps. apply untouched_store. intros s Hs.
    destruct (SetPeerSet_law r ps s Hs) as (? & (Hsz & _ & Hr & _) & _).
    unfold rd. by rewrite Hsz, Hr.
  - intros b' _. by apply untouched_SetBlock.
Qed.

(** ** The queue of pending rounds *)
Lemma commit_cb_queue : cb_queue (commit app).
Proof.
  intros b. apply (on_h_commit (keeps queue_ok)); intros; apply queued_calm; try apply calm_onStore;
    try done.
  unfold SetAnchorBlock, setAnchorBlock. respects_go; done.
Qed.

(** ** The blocks *)
Lemma commit_cb_commits : cb_commits (commit app).
Proof.
  intros last b Hle. apply (on_h_commit (keeps (commit_inv last))).
  - intros r h Hh. exact Hh.
  - intros i f _ h Hh. by apply (commit_inv_same last h _ (mutBlock_untouched fl i f ltac:(done) h)) in Hh.
  - intros b' h Hh. by apply (commit_inv_same last h _ (SetAnchorBlock_untouched fl b' h)) in Hh.
  - intros r ps h (Hok & Hf & Hl).
    destruct (SetPeerSet_law r ps (hg_Store h) Hok) as (Hok' & (_ & _ & _ & _ & _ & Hlb & Hfr & _) & _).
    unfold onStore, zoom. destruct (SetPeerSet r ps (hg_Store h)) as [res s']. simpl in *.
    split; [done|]. unfold hv in *. simpl. split; [|congruence]. intros i f' Hi. simpl in Hi.
    apply (f_equal (λ m, m !! i)) in Hfr. rewrite !lookup_fmap in Hfr. unfold hv in Hi. simpl in Hi.
    rewrite Hi in Hfr. simpl in Hfr.
    destruct (v_frames (store_view (hg_Store h)) !! i) as [f0|] eqn:Hf0; simpl in Hfr; [|done].
    injection Hfr as Hfr. rewrite Hfr. by apply Hf.
  - intros b' Hb' h (Hok & Hf & Hl).
    destruct (SetBlock_law b' (hg_Store h) Hok) as (_ & Hok' & bls & _ & Hv).
    unfold onStore, zoom. destruct (SetBlock b' (hg_Store h)) as [res s']. simpl in *.
    split; [done|]. unfold frames_keyed, hv in *. simpl. rewrite Hv. simpl. split; [done|]. lia.
Qed.
End callback.
