(* ===== verification/StoreFrame.v ===== *)
(** * What the hashgraph does to its store

    The hashgraph changes its store through the interface only, and the
    events it writes back are events it read, with private fields changed.
    So an invariant [I] of the store that the operations keep
    ([StoreFrame]) is kept by every method of the hashgraph; [ev] is what the
    invariant says of an event read from the store. The insertion of a new
    event is a premise ([hoare_InsertEvent]), as is [Reset]'s ([kept_Reset]). *)
From S2P Require Export CommitCallback.

Class StoreFrame {KP : Keys} {CP : Codec} {St : Type} {STO : Store St} (I : St → Prop)
    (ev : Event → Prop) := {
  sf_GetEvent : ∀ k, hoare I (GetEvent k) (λ e s, I s ∧ ev e) I;
  sf_same_body : ∀ e e', ev_Body e' = ev_Body e → ev e → ev e';
  sf_SetEvent : ∀ e, ev e → respects (keeps I) (SetEvent e);
  sf_GetRoundInfo : ∀ r, respects (keeps I) (GetRoundInfo r);
  sf_SetRoundInfo : ∀ r ri, respects (keeps I) (SetRoundInfo r ri);
  sf_GetBlock : ∀ i, respects (keeps I) (GetBlock i);
  sf_SetBlock : ∀ b, respects (keeps I) (SetBlock b);
  sf_GetFrame : ∀ i, respects (keeps I) (GetFrame i);
  sf_SetFrame : ∀ f, respects (keeps I) (SetFrame f);
  sf_SetPeerSet : ∀ r ps, respects (keeps I) (SetPeerSet r ps);
  sf_AddConsensusEvent : ∀ e, respects (keeps I) (AddConsensusEvent e);
  sf_mutEvent : ∀ k f s, (∀ e, ev_Body (f e) = ev_Body e) → I s → I (mutEvent k f s);
  sf_mutRound : ∀ k f s, I s → I (mutRound k f s);
  sf_mutBlock : ∀ k f s, I s → I (mutBlock k f s);
}.

Section frame.
Context {KP : Keys} {CP : Codec} {RO : RangeOrder}.
Context {St : Type} {STO : Store St} (I : St → Prop) (ev : Event → Prop).
Context {SF : StoreFrame I ev} (fuel : nat).
Abbreviation H := (GoM error (Hashgraph St)).

(** The invariant is kept, and no topological index is handed out. *)
Definition framed (h h' : Hashgraph St) : Prop :=
  I (hg_Store h) → I (hg_Store h') ∧ topologicalIndex h' = topologicalIndex h.
#[export] Instance framed_preorder : PreOrder framed.
Proof.
  split; [intros h; by unfold framed|]. intros a b c Hab Hbc Ha.
  destruct (Hab Ha) as [Hb ?]. destruct (Hbc Hb). split; [done|congruence].
Qed.
Abbreviation steady := (respects (E:=error) framed).

Lemma framed_onStore {A} (m : M St A) : respects (keeps I) m → steady (onStore m).
Proof.
  intros Hm h Hi. unfold onStore, zoom. specialize (Hm _ Hi).
  by destruct (m (hg_Store h)).
Qed.
Lemma framed_GetEvent k : respects (keeps I) (GetEvent k).
Proof. intros s Hs. apply (hoare_state _ _ _ _ _ (sf_GetEvent k) Hs). by intros e s' [? _]. Qed.
Lemma framed_readStore {A} (f : St → A) : steady (readStore f).
Proof. intros h. simpl. reflexivity. Qed.
Lemma framed_readStoreR {A} (f : St → res A) : steady (readStoreR f).
Proof. intros h. simpl. reflexivity. Qed.
Lemma framed_modify f :
  (∀ h, hg_Store (f h) = hg_Store h ∧ topologicalIndex (f h) = topologicalIndex h) →
  steady (modify f).
Proof. intros Hf h Hi. simpl. by destruct (Hf h) as [-> ->]. Qed.
Lemma framed_put f : (∀ s, I s → I (f s)) → steady (modify (λ h, set_Store (f (hg_Store h)) h)).
Proof. intros Hf h Hi. simpl. auto. Qed.

(** An event that was read satisfies [ev] in what follows. *)
Lemma framed_bind_GetEvent {A} k (cont : Event → H A) :
  (∀ e, ev e → steady (cont e)) → steady (bind (onStore (GetEvent k)) cont).
Proof.
  intros Hc h Hi. unfold bind, onStore, zoom. pose proof (sf_GetEvent k _ Hi) as Hg.
  destruct (GetEvent k (hg_Store h)) as [[e|err| |] s]; simpl; try (by split).
  destruct Hg as [Hs He]. exact (Hc e He (set_Store s h) Hs).
Qed.
Lemma framed_try_GetEvent {A} k (cont : Event + error → H A) :
  (∀ e, ev e → steady (cont (inl e))) → (∀ err, steady (cont (inr err))) →
  steady (bind (try (onStore (GetEvent k))) cont).
Proof.
  intros Hc Herr h Hi. unfold bind, try, onStore, zoom. pose proof (sf_GetEvent k _ Hi) as Hg.
  destruct (GetEvent k (hg_Store h)) as [[e|err| |] s]; simpl; try (by split).
  - destruct Hg as [Hs He]. exact (Hc e He (set_Store s h) Hs).
  - exact (Herr err (set_Store s h) Hg).
Qed.

Lemma framed_SetEvent e e' : ev e' → ev_Body e = ev_Body e' → steady (onStore (SetEvent e)).
Proof. intros He Hb. apply framed_onStore, sf_SetEvent. by apply (sf_same_body e'). Qed.

Hint Resolve framed_onStore framed_GetEvent framed_readStore framed_readStoreR : respects.
Hint Extern 3 (respects (keeps I) _) =>
  (first [ apply (sf_GetRoundInfo (ev:=ev)) | apply (sf_SetRoundInfo (ev:=ev))
         | apply (sf_GetBlock (ev:=ev)) | apply (sf_SetBlock (ev:=ev))
         | apply (sf_GetFrame (ev:=ev)) | apply (sf_SetFrame (ev:=ev))
         | apply (sf_SetPeerSet (ev:=ev)) | apply (sf_AddConsensusEvent (ev:=ev)) ]) : respects.
Hint Extern 4 (respects _ (modify (λ h, set_Store (mutEvent _ _ _) _))) =>
  (apply framed_put; intros; by apply sf_mutEvent) : respects.
Hint Extern 4 (respects _ (modify (λ h, set_Store (mutRound _ _ _) _))) =>
  (apply framed_put; intros; by apply sf_mutRound) : respects.
Hint Extern 4 (respects _ (modify (λ h, set_Store (mutBlock _ _ _) _))) =>
  (apply framed_put; intros; by apply sf_mutBlock) : respects.
Hint Extern 5 (respects _ (modify _)) => (by apply framed_modify) : respects.
Hint Extern 4 (respects _ (onStore (SetEvent _))) =>
  (by eapply framed_SetEvent) : respects.

Ltac frame_go :=
  repeat first
    [ progress cbv zeta
    | match goal with
      | |- respects _ (bind (onStore (GetEvent _)) _) =>
          apply framed_bind_GetEvent; intros ? ?
      | |- respects _ (bind (try (onStore (GetEvent _))) _) =>
          apply framed_try_GetEvent; [intros ? ?|intros ?]
      | |- respects _ (bind _ _) => apply (respects_bind _); [ | intros ? ]
      | |- respects _ (try _) => apply respects_try
      | |- respects _ (foldM _ _ _) => apply (respects_foldM _); intros ? ?
      | |- respects _ (forM _ _) => apply (respects_forM _); intros ?
      | |- respects _ (foldM_ctl _ _ _) => apply (respects_foldM_ctl _); intros ? ?
      | |- respects _ (match ?x with _ => _ end) => destruct x
      end ];
  try solve [ auto with respects typeclass_instances ].

Lemma framed_memoised {K V} `{Countable K} (proj : MemoCaches → LRU K V) put (key : K)
    (compute : H V) : steady compute → steady (memoised proj put key compute).
Proof.
  intros Hc. unfold memoised. apply (respects_bind _).
  - intros h Hi. unfold zoom. by destruct (Get key (proj (memo h))).
  - intros [v|]; frame_go.
Qed.
Lemma framed_ancestor x y : steady (ancestor x y).
Proof. apply framed_memoised. unfold _ancestor. frame_go. Qed.
Lemma framed_stronglySee x y ps : steady (stronglySee x y ps).
Proof.
  unfold stronglySee. apply (respects_bind _); [auto with respects typeclass_instances|].
  intros hex. apply framed_memoised. unfold _stronglySee. frame_go.
Qed.
Hint Resolve framed_ancestor framed_stronglySee : respects.
Lemma framed_round n x : steady (round n x).
Proof.
  revert x. induction n as [|n IH]; intros x; simpl; [apply respects_diverge, _|].
  apply framed_memoised. unfold _round. frame_go; auto.
Qed.
Lemma framed_lamport n x : steady (lamportTimestamp n x).
Proof.
  revert x. induction n as [|n IH]; intros x; simpl; [apply respects_diverge, _|].
  apply framed_memoised. unfold _lamportTimestamp. frame_go; auto.
Qed.
Hint Resolve framed_round framed_lamport : respects.
Lemma framed_witness x : steady (witness fuel x).
Proof. apply framed_memoised. unfold _witness. frame_go. Qed.
Hint Resolve framed_witness : respects.
Lemma framed_getOrNewRound r : steady (getOrNewRound r).
Proof. unfold getOrNewRound. frame_go. Qed.
Lemma framed_walk k event ah : steady (walk_descendants fuel k event ah).
Proof. revert ah. induction k as [|k IH]; intros ah; simpl; frame_go; auto. Qed.
Lemma framed_SetWireInfo e : steady (SetWireInfo e).
Proof. unfold SetWireInfo. frame_go. Qed.
Lemma framed_initEventCoordinates e : steady (initEventCoordinates e).
Proof. unfold initEventCoordinates. frame_go. Qed.
Hint Resolve framed_getOrNewRound framed_walk framed_SetWireInfo framed_initEventCoordinates
  : respects.
Lemma framed_updateAncestor e : steady (updateAncestorFirstDescendant fuel e).
Proof. unfold updateAncestorFirstDescendant. frame_go. Qed.
Hint Resolve framed_updateAncestor : respects.

(** ** The consensus methods *)
Lemma framed_divideRound hash : steady (divideRound_event fuel hash).
Proof.
  unfold divideRound_event. apply framed_bind_GetEvent. intros e He.
  apply (respects_bind_val _ (λ ue, ev ue.2)); [destruct (ev_round e); frame_go| |].
  { destruct (ev_round e); returns_go. by apply (sf_same_body e). }
  intros [u e1] He1. simpl in He1.
  apply (respects_bind_val _ (λ ue, ev ue.2)); [destruct (ev_lamportTimestamp e1); frame_go| |].
  { destruct (ev_lamportTimestamp e1); returns_go. by apply (sf_same_body e1). }
  intros [u2 e2] He2. simpl in He2. frame_go.
Qed.
Lemma framed_DivideRounds : steady (DivideRounds fuel).
Proof. unfold DivideRounds. frame_go. apply framed_divideRound. Qed.
Lemma framed_fame_round r x st j : steady (fame_round r x st j).
Proof.
  unfold fame_round. apply (respects_bind _); [auto with respects|]. intros ri.
  apply (respects_bind _); [auto with respects|]. intros ps.
  revert st. induction (Witnesses ri) as [|y ys IH]; intros st; [apply respects_ret, _|].
  apply (respects_bind _); [unfold fame_vote, ss_witnesses, see; frame_go|].
  intros [st'|st']; [apply IH|]. apply respects_ret, _.
Qed.
Lemma framed_DecideFame : steady DecideFame.
Proof.
  unfold DecideFame, decideFame_round, fame_witness. frame_go. apply framed_fame_round.
Qed.
Lemma framed_DecideRoundReceived : steady (DecideRoundReceived fuel).
Proof. unfold DecideRoundReceived, receive_event, receive_at, see_all, see. frame_go. Qed.

(** ** Frames, signatures *)
Lemma framed_createFrameEvent x : steady (createFrameEvent fuel x).
Proof. unfold createFrameEvent. frame_go. Qed.
Hint Resolve framed_createFrameEvent : respects.
Lemma framed_root_events k p i l : steady (root_events fuel k p i l).
Proof. revert i l. induction k as [|k IH]; intros i l; simpl; frame_go; auto. Qed.
Hint Resolve framed_root_events : respects.
Lemma framed_createRoot p hd : steady (createRoot fuel p hd).
Proof. unfold createRoot. frame_go. Qed.
Hint Resolve framed_createRoot : respects.
Lemma framed_HG_GetFrame rr : steady (HG_GetFrame fuel rr).
Proof.
  unfold HG_GetFrame, frame_events, frame_roots_own, frame_roots_others, frame_timestamp.
  frame_go.
Qed.
Hint Resolve framed_HG_GetFrame : respects.
Lemma framed_SetAnchorBlock b : steady (SetAnchorBlock b).
Proof. unfold SetAnchorBlock, setAnchorBlock. frame_go. Qed.
Hint Resolve framed_SetAnchorBlock : respects.
Lemma framed_ProcessSigPool : steady ProcessSigPool.
Proof. unfold ProcessSigPool, process_signature. frame_go. Qed.

(** ** Insertion

    Inserting an event keeps the invariant if storing it does: it is stored
    with the body it has, but for its wire information. *)
Definition storable (e : Event) : Prop :=
  ∀ e', eb_public (ev_Body e') = eb_public (ev_Body e) → respects (keeps I) (SetEvent e').

Definition kept : Hashgraph St → Hashgraph St → Prop := keeps (λ h, I (hg_Store h)).
Lemma kept_framed {A} (m : H A) : steady m → respects kept m.
Proof. intros Hm. apply (respects_impl _ _ _ Hm). intros h h' Hf Hi. apply (Hf Hi). Qed.

Lemma SetWireInfo_body e :
  returns (λ e', eb_public (ev_Body e') = eb_public (ev_Body e)) (SetWireInfo e).
Proof. unfold SetWireInfo. returns_go. Qed.
Lemma initEventCoordinates_body e :
  returns (λ e', ev_Body e' = ev_Body e) (initEventCoordinates e).
Proof. unfold initEventCoordinates. returns_go. Qed.

Lemma framed_verify (ok : bool) e :
  steady (if ok then ret tt else throw (EMsg ("Invalid Event signature " +:+ Hex e))).
Proof. frame_go. Qed.
Lemma framed_checkSelfParent e : steady (checkSelfParent e).
Proof. unfold checkSelfParent. frame_go. Qed.
Lemma framed_checkOtherParent e : steady (checkOtherParent e).
Proof. unfold checkOtherParent. frame_go. Qed.
Lemma framed_wired (w : bool) e :
  steady (if w then wrap "SetWireInfo" (SetWireInfo e) else ret e).
Proof. frame_go. Qed.
(** What [insert_checked] does once the event is stored. *)
Lemma framed_after_store e :
  steady (wrap "UpdateAncestorFirstDescendant" (updateAncestorFirstDescendant fuel e) ;;;
    modify (λ h, set_UndeterminedEvents (UndeterminedEvents h ++ [Hex e]) h) ;;;
    (if IsLoaded e then modify (add_PendingLoadedEvents 1) else ret tt) ;;;
    forM (BlockSignatures e) (λ bs,
        modify (λ h, set_PendingSignatures (SP_Add (PendingSignatures h) bs) h)) ;;;
    ret e).
Proof. frame_go. Qed.
Lemma kept_InsertFrameEvent fe :
  storable (fe_Core fe) → respects kept (InsertFrameEvent fuel fe).
Proof.
  intros He. unfold InsertFrameEvent, cache_add. cbv zeta.
  do 5 (apply (respects_bind _); [apply kept_framed; frame_go|intros ?]).
  apply (respects_bind_val _ (λ e', ev_Body e' = ev_Body (fe_Core fe)));
    [apply kept_framed, respects_wrap, framed_initEventCoordinates
    |apply returns_wrap;
     exact (initEventCoordinates_body (SetLamportTimestamp (SetRound (fe_Core fe) _) _))|]. intros e2 He2.
  apply (respects_bind _).
  { apply respects_wrap, (respects_zoom _ (keeps I)); [apply He; by rewrite He2|].
    by intros h s Hk. }
  intros []. apply kept_framed. frame_go.
Qed.

(** Fast-forwarding: every event of the frame is inserted. *)
Lemma kept_Reset block frame :
  (∀ e, storable e) → respects (keeps I) (Store_Reset frame) →
  respects kept (Reset fuel block frame).
Proof.
  intros He Hr. unfold Reset.
  apply (respects_bind _); [intros h Hi; exact Hi|]. intros [].
  apply (respects_bind _); [by apply (respects_zoom _ (keeps I))|]. intros [].
  apply (respects_bind _); [apply kept_framed; frame_go|]. intros l.
  apply (respects_bind _); [apply (respects_forM _); intros fe; apply kept_InsertFrameEvent, He|].
  intros []. apply kept_framed. unfold setLastConsensusRound, setRoundLowerBound. frame_go.
Qed.

(** ** The pipeline, beside the owner of the callback *)
Section pipeline.
Context {X : Type} (cb : Block → GoM error (Hashgraph St * X) unit).
Definition framedX (s s' : Hashgraph St * X) : Prop := framed s.1 s'.1.
Definition keptX (s s' : Hashgraph St * X) : Prop := kept s.1 s'.1.
#[export] Instance framedX_preorder : PreOrder framedX.
Proof. split; [intros s; unfold framedX; reflexivity|]. intros a b c Hab Hbc. unfold framedX in *. by etrans. Qed.
#[export] Instance keptX_preorder : PreOrder keptX.
Proof. split; [intros s; unfold keptX; reflexivity|]. intros a b c Hab Hbc. unfold keptX in *. by etrans. Qed.
Lemma framedX_onHG {A} (m : H A) : steady m → respects framedX (onHG m).
Proof. intros Hm s. unfold onHG, zoom, framedX. specialize (Hm s.1). by destruct (m s.1). Qed.
Lemma keptX_onHG {A} (m : H A) : respects kept m → respects keptX (onHG m).
Proof. intros Hm s. unfold onHG, zoom, keptX. specialize (Hm s.1). by destruct (m s.1). Qed.
Lemma keptX_framed {A} (m : GoM error (Hashgraph St * X) A) :
  respects framedX m → respects keptX m.
Proof. intros Hm. apply (respects_impl _ _ _ Hm). intros s s' Hf Hi. apply (Hf Hi). Qed.

Context (Hcb : ∀ b, respects framedX (cb b)).
Lemma framed_process_round i : respects framedX (process_round fuel cb i).
Proof.
  unfold process_round, setLastConsensusRound, commit_event.
  frame_go; first [apply Hcb | apply framedX_onHG]; frame_go.
Qed.
Lemma framed_ProcessDecidedRounds : respects framedX (ProcessDecidedRounds fuel cb).
Proof.
  assert (∀ rs l, respects framedX (process_rounds fuel cb l rs)) as Hrs.
  { induction rs as [|r rs IH]; intros l; simpl; frame_go; auto using framed_process_round. }
  unfold ProcessDecidedRounds. frame_go; try apply Hrs; apply framedX_onHG; frame_go.
Qed.
(** What follows the insertion. *)
Lemma framed_run_consensus {A} (k : A) :
  respects framedX (onHG (DivideRounds fuel) ;;; onHG DecideFame ;;;
    onHG (DecideRoundReceived fuel) ;;; ProcessDecidedRounds fuel cb ;;; ret k).
Proof.
  frame_go; try apply framedX_onHG; auto using framed_DivideRounds, framed_DecideFame,
    framed_DecideRoundReceived, framed_ProcessDecidedRounds.
Qed.
End pipeline.

(** The callback of the core is one. *)
Lemma framed_commit {P : Type} (app : Block → GoM error P CommitResponse) b :
  respects framedX (commit app b).
Proof.
  apply (on_h_commit app framed); intros; frame_go.
Qed.
End frame.

(** ** Insertion

    Storing the new event may establish something: [I] holds before it and
    [J] after it. *)
Section insertion.
Context {KP : Keys} {CP : Codec} {RO : RangeOrder}.
Context {St : Type} {STO : Store St} (I J : St → Prop) (ev ev' : Event → Prop).
Context {SFI : StoreFrame I ev} {SFJ : StoreFrame J ev'} (fuel : nat).
Abbreviation at_store P := (λ h : Hashgraph St, P (hg_Store h)).
Definition either (h : Hashgraph St) : Prop := I (hg_Store h) ∨ J (hg_Store h).

Lemma hoare_steady {A} (m : GoM error (Hashgraph St) A) (Φ : A → Prop) :
  respects (framed I) m → returns Φ m → hoare (at_store I) m (λ a h, at_store I h ∧ Φ a) either.
Proof.
  intros Hm HΦ h Hi. specialize (Hm h Hi). destruct Hm as [Hm _]. specialize (HΦ h).
  destruct (m h) as [[a|e| |] h']; simpl in *; [|by left..]. split; [done|]. by eapply HΦ.
Qed.
Lemma hoare_steady' {A} (m : GoM error (Hashgraph St) A) :
  respects (framed I) m → hoare (at_store I) m (λ _, at_store I) either.
Proof.
  intros Hm h Hi. specialize (Hm h Hi). destruct Hm as [Hm _].
  by destruct (m h) as [[a|e| |] h']; simpl in *; [|left..].
Qed.

Lemma hoare_InsertEvent e w :
  (∀ e', eb_public (ev_Body e') = eb_public (ev_Body e) →
    hoare I (SetEvent e') (λ _, J) (λ s, I s ∨ J s)) →
  hoare (at_store I) (InsertEvent fuel e w) (λ _, at_store J) either.
Proof.
  intros He. unfold InsertEvent.
  eapply hoare_bind; [apply hoare_steady'; apply respects_lift, _|intros ok].
  eapply hoare_bind; [apply hoare_steady'; by eapply framed_verify|intros []].
  eapply hoare_bind; [apply hoare_steady'; by eapply framed_checkSelfParent|intros []].
  eapply hoare_bind; [apply hoare_steady'; by eapply framed_checkOtherParent|intros []].
  unfold insert_checked.
  eapply hoare_bind; [apply hoare_steady'; apply respects_gets, _|intros ti]. cbv zeta.
  apply (hoare_bind _ (λ _, at_store I)); [by intros h Hi|intros []].
  eapply hoare_bind; [apply (hoare_steady _ (λ e', eb_public (ev_Body e') = eb_public (ev_Body e)));
    [by eapply framed_wired|]|intros e1].
  { destruct w; [|returns_go]. apply returns_wrap, (SetWireInfo_body (set_topologicalIndex e ti)). }
  apply hoare_pure. intros He1.
  eapply hoare_bind; [apply (hoare_steady _ (λ e', ev_Body e' = ev_Body e1));
    [by eapply respects_wrap, framed_initEventCoordinates
    |apply returns_wrap, initEventCoordinates_body]|intros e2].
  apply hoare_pure. intros He2.
  apply (hoare_bind _ (λ _, at_store J)).
  - intros h Hi. pose proof (He e2 ltac:(by rewrite He2) _ Hi) as Hs. unfold wrap, onStore, zoom.
    by destruct (SetEvent e2 (hg_Store h)) as [[] s].
  - intros _ h Hj. pose proof (framed_after_store J ev' fuel e2 h Hj) as [Hf _].
    destruct (bind _ _ h) as [[] h']; [done|by right..].
Qed.
End insertion.

Section pipeline.
Context {KP : Keys} {CP : Codec} {RO : RangeOrder}.
Context {St : Type} {STO : Store St} (I : St → Prop) (ev : Event → Prop).
Context {SF : StoreFrame I ev} (fuel : nat).
Lemma kept_InsertEvent e w : storable I e → respects (kept I) (InsertEvent fuel e w).
Proof.
  intros He h Hi.
  assert (either I I (InsertEvent fuel e w h).2) as [?|?]; [|done..].
  apply (hoare_state (λ h, I (hg_Store h)) (λ _ h, I (hg_Store h))); [|exact Hi|by left].
  eapply (hoare_InsertEvent I I ev ev). intros e' Hb s Hs. specialize (He e' Hb s Hs).
  by destruct (SetEvent e' s) as [[] s']; [|left..].
Qed.

Context {X : Type} (cb : Block → GoM error (Hashgraph St * X) unit).
Context (Hcb : ∀ b, respects (framedX I) (cb b)).
Lemma kept_pipeline e w : storable I e →
  respects (keptX I) (InsertEventAndRunConsensus fuel cb e w).
Proof.
  intros He. unfold InsertEventAndRunConsensus.
  apply (respects_bind _); [by apply keptX_onHG, kept_InsertEvent|]. intros e'.
  by eapply keptX_framed, framed_run_consensus.
Qed.
End pipeline.
