(* ===== verification/Database.v ===== *)
(** * The database behind the store: keys and writes

    The keys of the different kinds of values do not collide, whatever the
    names of the participants: the hash of an event starts with [0] and has no
    underscore, a topological key has one, the key of a participant's event
    has two or more, the key of a root ends with a letter. So no write of a
    round, a block, a frame, a root or a peer-set touches an event or the
    topological sequence ([db_put_aside]), and the number in a topological key
    determines it ([topologicalEventKey_inj]). *)
From S2P Require Export Badger StoreFrame.

(** ** Strings *)
Fixpoint underscores (s : string) : nat :=
  match s with
  | EmptyString => 0
  | String c s => (if decide (c = "_"%char) then 1 else 0) + underscores s
  end.
Lemma underscores_app s t : underscores (s +:+ t) = (underscores s + underscores t)%nat.
Proof. induction s as [|c s IH]; [done|]. simpl. rewrite IH. lia. Qed.

Fixpoint last_char (s : string) : option ascii :=
  match s with
  | EmptyString => None
  | String c EmptyString => Some c
  | String _ s => last_char s
  end.
Lemma last_char_cons d s : s ≠ "" → last_char (String d s) = last_char s.
Proof. by destruct s. Qed.
Lemma last_char_app s c t : last_char (s +:+ String c t) = last_char (String c t).
Proof.
  induction s as [|d s IH]; [done|]. change (String d s +:+ String c t) with (String d (s +:+ String c t)).
  rewrite last_char_cons; [done|]. by destruct s.
Qed.

(** ** Decimal numbers *)
Definition digit_val (c : ascii) : N := (N_of_ascii c - 48)%N.
Fixpoint dec_val (a : N) (s : string) : N :=
  match s with EmptyString => a | String c s => dec_val (10 * a + digit_val c) s end.

Lemma digit_cases n : (n < 10)%N →
  (n = 0 ∨ n = 1 ∨ n = 2 ∨ n = 3 ∨ n = 4 ∨ n = 5 ∨ n = 6 ∨ n = 7 ∨ n = 8 ∨ n = 9)%N.
Proof. lia. Qed.
Lemma digit_val_char n : (n < 10)%N → digit_val (pretty_N_char n) = n.
Proof. intros Hn%digit_cases. by destruct_or? Hn; subst. Qed.

Section digits.
Context (P : ascii → Prop) (HP : ∀ n, P (pretty_N_char n)).
Fixpoint all_chars (s : string) : Prop :=
  match s with EmptyString => True | String c s => P c ∧ all_chars s end.
Lemma all_chars_go x s : all_chars s → all_chars (pretty_N_go x s).
Proof.
  revert s. induction (N.lt_wf_0 x) as [x _ IH]. intros s Hs.
  assert (x = 0 ∨ 0 < x)%N as [->|Hx] by lia; [by rewrite pretty_N_go_0|].
  rewrite pretty_N_go_step by done. apply IH; [by apply N.div_lt|]. by split.
Qed.
Lemma all_chars_pretty (x : N) : all_chars (pretty x).
Proof.
  unfold pretty, pretty_N. destruct (decide (x = 0%N)).
  - split; [|done]. exact (HP 0%N).
  - by apply all_chars_go.
Qed.
Lemma all_chars_zeros n s : all_chars s → all_chars (zeros n s).
Proof. intros Hs. induction n as [|n IH]; [done|]. split; [|done]. exact (HP 0%N). Qed.
End digits.

Lemma dec_val_go x s : dec_val 0 (pretty_N_go x s) = dec_val x s.
Proof.
  revert s. induction (N.lt_wf_0 x) as [x _ IH]. intros s.
  assert (x = 0 ∨ 0 < x)%N as [->|Hx] by lia; [by rewrite pretty_N_go_0|].
  rewrite pretty_N_go_step by done. rewrite IH by (by apply N.div_lt). simpl.
  rewrite digit_val_char by (by apply N.mod_lt). by rewrite <-N.div_mod.
Qed.
Lemma dec_val_pretty (x : N) : dec_val 0 (pretty x) = x.
Proof.
  unfold pretty, pretty_N. destruct (decide (x = 0%N)) as [->|]; [done|]. apply dec_val_go.
Qed.
Lemma dec_val_zeros n s : dec_val 0 (zeros n s) = dec_val 0 s.
Proof. induction n as [|n IH]; [done|]. exact IH. Qed.

(** Two numbers have the same text only if they are the same. *)
Lemma fmt09d_inj i j : 0 ≤ i → 0 ≤ j → fmt09d i = fmt09d j → i = j.
Proof.
  intros Hi Hj. unfold fmt09d, pad.
  rewrite (proj2 (Z.ltb_ge i 0)), (proj2 (Z.ltb_ge j 0)) by done. intros Heq.
  apply (f_equal (dec_val 0)) in Heq. rewrite !dec_val_zeros, !dec_val_pretty in Heq. lia.
Qed.

Definition plain (c : ascii) : Prop := c ≠ "_"%char ∧ c ≠ "t"%char.
Lemma plain_digit n : plain (pretty_N_char n).
Proof. unfold pretty_N_char, plain. by repeat case_match. Qed.
Lemma fmt09d_plain i : all_chars plain (fmt09d i).
Proof.
  unfold fmt09d, pad. case_match; [split; [by split|]|];
    apply all_chars_zeros, all_chars_pretty; apply plain_digit.
Qed.
Lemma plain_underscores s : all_chars plain s → underscores s = 0%nat.
Proof.
  induction s as [|c s IH]; [done|]. intros [[Hc _] Hs]. simpl. rewrite IH by done.
  by rewrite decide_False.
Qed.
Lemma plain_last s c : all_chars plain s → last_char s = Some c → plain c.
Proof.
  induction s as [|d s IH]; [done|]. intros [Hd Hs]. destruct s as [|d' s]; [by intros [= <-]|].
  exact (IH Hs).
Qed.

(** ** The keys *)
Definition first_is (c : ascii) (s : string) : Prop := String.get 0 s = Some c.

Lemma hex_plain bs : all_chars plain (hex_of_bytes bs).
Proof.
  induction bs as [|b bs IH]; [done|].
  change (hex_of_bytes (b :: bs)) with (hex_of_byte b (hex_of_bytes bs)).
  by destruct b; repeat split.
Qed.
(** What the text of a hash looks like. *)
Definition hash_text (k : string) : Prop := ∃ bs, k = EncodeToString bs.
Lemma hash_text_underscores k : hash_text k → underscores k = 0%nat.
Proof. intros [bs ->]. unfold EncodeToString. simpl. apply plain_underscores, hex_plain. Qed.
Lemma hash_text_first k : hash_text k → first_is "0" k.
Proof. by intros [bs ->]. Qed.
Lemma Hex_text {KP : Keys} {CP : Codec} e : hash_text (Hex e).
Proof. unfold Hex. destruct (EventBody_Hash _); by eexists. Qed.

Lemma topologicalEventKey_inj i j :
  0 ≤ i → 0 ≤ j → topologicalEventKey i = topologicalEventKey j → i = j.
Proof. intros Hi Hj Heq. simplify_eq/=. by apply fmt09d_inj. Qed.
Lemma topo_underscores i : underscores (topologicalEventKey i) = 1%nat.
Proof. simpl. by rewrite plain_underscores by apply fmt09d_plain. Qed.
Lemma participant_underscores p i : (2 ≤ underscores (participantEventKey p i))%nat.
Proof. unfold participantEventKey. rewrite !underscores_app. simpl. lia. Qed.

(** A key that is neither an event's nor of the topological sequence. *)
Definition apart (k : string) : Prop :=
  k ≠ "" ∧ (∀ h, hash_text h → k ≠ h) ∧ (∀ i, k ≠ topologicalEventKey i).
Lemma apart_first c k : c ≠ "0"%char → c ≠ "t"%char → first_is c k → apart k.
Proof.
  intros H0 Ht Hk. split_and!; [by intros ->| |].
  - intros h Hh%hash_text_first ->. unfold first_is in *. congruence.
  - intros i ->. unfold first_is in Hk. simpl in Hk. congruence.
Qed.
Lemma apart_underscores k : (2 ≤ underscores k)%nat → apart k.
Proof.
  intros Hk. split_and!.
  - intros ->. simpl in Hk. lia.
  - intros h Hh%hash_text_underscores ->. lia.
  - intros i ->. rewrite topo_underscores in Hk. lia.
Qed.
Lemma apart_root p : apart (participantRootKey p).
Proof.
  unfold participantRootKey. change ("_" +:+ rootSuffix) with "_root". split_and!.
  - by destruct p.
  - intros h Hh%hash_text_underscores Heq. rewrite <-Heq, underscores_app in Hh. simpl in Hh. lia.
  - intros i Heq. apply (f_equal last_char) in Heq. rewrite last_char_app in Heq.
    unfold topologicalEventKey in Heq. destruct (fmt09d i) as [|c s] eqn:Hf; [done|].
    change (topoPrefix +:+ "_" +:+ String c s) with ("topo_" +:+ String c s) in Heq.
    rewrite last_char_app in Heq. pose proof (fmt09d_plain i) as Hp. rewrite Hf in Hp.
    by destruct (plain_last _ "t" Hp (eq_sym Heq)) as [_ Ht].
Qed.
Lemma apart_participant p i : apart (participantEventKey p i).
Proof. apply apart_underscores, participant_underscores. Qed.
Lemma apart_other i k :
  k = peerSetKey i ∨ k = roundKey i ∨ k = blockKey i ∨ k = frameKey i → apart k.
Proof. intros Hk. destruct_or! Hk; subst; (eapply apart_first; [| |reflexivity]; done). Qed.
Lemma apart_repertoire p : apart (repertoireKey p).
Proof. (eapply apart_first; [| |reflexivity]; done). Qed.
Lemma topo_not_hash i h : hash_text h → topologicalEventKey i ≠ h.
Proof. intros Hh%hash_text_first Heq. rewrite <-Heq in Hh. done. Qed.

(** ** What an operation does to the database *)
Section database.
Context {KP : Keys} {CP : Codec} {RO : RangeOrder} {DC : DBCodec}.
Context {DB : Type} {KVD : KV DB} {LAW : KVLaws DB} {CL : DBCodecLaws}.
Abbreviation BS := (BadgerStore DB).
Implicit Types (s : BadgerStore DB) (d : DB) (m : gmap string bytes).

Definition content s : gmap string bytes := kv_content (badger_db s).

(** The value under [k] is an event with that hash. *)
Definition holds_event m (k : string) : Prop :=
  ∃ v e, m !! k = Some v ∧ Event_UnmarshalDB v = Ok e ∧ Hex e = k.

Lemma unmarshal_marshal e v : Event_MarshalDB e = Ok v →
  ∃ e', Event_UnmarshalDB v = Ok e' ∧ Hex e' = Hex e ∧ Creator e' = Creator e ∧
    Index e' = Index e ∧ ev_topologicalIndex e' = ev_topologicalIndex e.
Proof.
  intros (w & Hw & Hb & Hc & Hi & Ht)%eventWrapper_roundtrip.
  exists (UnmarshalDB w). unfold Event_UnmarshalDB. rewrite Hw. split; [done|]. split_and!.
  - unfold Hex, EventBody_Hash, UnmarshalDB. simpl in *.
    destruct w as [[]]; simpl in *. unfold eb_public. simpl. by rewrite Hb.
  - unfold Creator. simpl in *. by rewrite Hc.
  - done.
  - done.
Qed.

Lemma isDBKeyNotFound_refl : isDBKeyNotFound ErrKeyNotFound = true.
Proof. unfold isDBKeyNotFound. by apply bool_decide_eq_true. Qed.
Lemma isDBKeyNotFound_absent d w k : k ≠ "" → apply_writes w (kv_content d) !! k = None →
  kv_Get d w k = Err ErrKeyNotFound.
Proof. intros Hk Hn. pose proof (kv_Get_law d w k Hk) as Hl. by rewrite Hn in Hl. Qed.
Lemma db_view_Some d k v : k ≠ "" → kv_content d !! k = Some v → db_view d k = Ok v.
Proof.
  intros Hk Hv. pose proof (kv_Get_law d [] k Hk) as Hl. simpl in Hl. rewrite Hv in Hl.
  destruct Hl as (it & Hg & Hc). unfold db_view. by rewrite Hg.
Qed.
Lemma db_view_None d k : k ≠ "" → kv_content d !! k = None → db_view d k = Err ErrKeyNotFound.
Proof. intros Hk Hv. unfold db_view. by rewrite isDBKeyNotFound_absent. Qed.
Lemma hash_text_ne k : hash_text k → k ≠ "".
Proof. by intros [bs ->]. Qed.

(** The writes of [dbSetEvents [e]]: the event, and the two indexes if it is
    new. *)
Definition event_writes m (e : Event) (v : bytes) : gmap string bytes :=
  let h := String.list_byte_of_string (Hex e) in
  let m' := <[Hex e := v]> m in
  match m !! Hex e with
  | Some _ => m'
  | None => <[participantEventKey (Creator e) (Index e) := h]>
              (<[topologicalEventKey (ev_topologicalIndex e) := h]> m')
  end.

Lemma tx_SetEvent_spec d e w : tx_SetEvent d [] e = Ok w →
  ∃ v, Event_MarshalDB e = Ok v ∧
    apply_writes w (kv_content d) = event_writes (kv_content d) e v.
Proof.
  unfold tx_SetEvent. intros (v & Hv & Hw)%res_bind_Ok. exists v. split; [done|].
  unfold event_writes. pose proof (kv_Get_law d [] (Hex e) (hash_text_ne _ (Hex_text e))) as Hl.
  simpl in Hl. destruct (kv_content d !! Hex e) as [v0|] eqn:Hold.
  - destruct Hl as (it & Hg & _). rewrite Hg in Hw. simpl in Hw.
    apply res_bind_Ok in Hw as (w1 & Hw1%kv_Set_law & [= <-]). by subst.
  - rewrite Hl, isDBKeyNotFound_refl in Hw. simpl in Hw.
    apply res_bind_Ok in Hw as (w1 & Hw1%kv_Set_law & Hw).
    apply res_bind_Ok in Hw as (w2 & Hw2%kv_Set_law & Hw3%kv_Set_law). by subst.
Qed.

Lemma commit_writes (w : list (string * bytes)) s :
  let out := zoom badger_db set_badger_db (kv_Commit w) s in
  inmemStore out.2 = inmemStore s ∧
  badger_maintenanceMode out.2 = badger_maintenanceMode s ∧
  content out.2 = (if is_ok out.1 then apply_writes w (content s) else content s).
Proof.
  unfold zoom, content. pose proof (kv_Commit_law w (badger_db s)) as Hc.
  by destruct (kv_Commit w (badger_db s)) as [[] d'].
Qed.

Lemma db_put_spec key val s :
  let out := db_put key val s in
  inmemStore out.2 = inmemStore s ∧
  badger_maintenanceMode out.2 = badger_maintenanceMode s ∧
  (content out.2 = content s ∨ ∃ v, val = Ok v ∧ content out.2 = <[key := v]> (content s)).
Proof.
  unfold db_put, bind, lift. destruct val as [v|e| |]; [|simpl; by auto..].
  destruct (kv_Set [] key v) as [w|e| |] eqn:Hs; [|simpl; by auto..].
  apply kv_Set_law in Hs as ->. destruct (commit_writes [(key, v)] s) as (? & ? & Hc).
  split_and!; [done..|].
  cbv zeta in Hc. change ([] ++ ?l) with l. rewrite Hc. destruct (is_ok _); [right|by left]. by exists v.
Qed.

Lemma dbSetEvents_spec e s :
  let out := dbSetEvents [e] s in
  inmemStore out.2 = inmemStore s ∧
  badger_maintenanceMode out.2 = badger_maintenanceMode s ∧
  if is_ok out.1
  then ∃ v, Event_MarshalDB e = Ok v ∧ content out.2 = event_writes (content s) e v
  else content out.2 = content s.
Proof.
  unfold dbSetEvents, bind, gets, lift. cbn [res_foldM res_bind].
  destruct (tx_SetEvent (badger_db s) [] e) as [w|err| |] eqn:Htx; [|simpl; by auto..].
  apply tx_SetEvent_spec in Htx as (v & Hv & Hw).
  cbn [res_bind]. destruct (commit_writes w s) as (? & ? & Hc). split_and!; [done..|].
  destruct (is_ok _); [|done]. exists v. split; [done|]. by rewrite Hc.
Qed.

(** ** Operations that leave the events alone

    [aside]: the events and the topological sequence are the same. A store
    operation other than [SetEvent] leaves them so, keeps the mode, and in
    maintenance mode does not touch the database at all. *)
Definition aside m m' : Prop :=
  ∀ k, hash_text k ∨ (∃ i, k = topologicalEventKey i) → m' !! k = m !! k.
Definition beside s s' : Prop :=
  badger_maintenanceMode s' = badger_maintenanceMode s ∧ aside (content s) (content s') ∧
  (badger_maintenanceMode s = true → badger_db s' = badger_db s).
#[export] Instance beside_preorder : PreOrder beside.
Proof.
  split; [by intros s|]. intros a b c (Hm & Hc & Hd) (Hm' & Hc' & Hd'). split_and!.
  - congruence.
  - intros k Hk. by rewrite Hc', Hc.
  - intros Ha. rewrite Hd' by congruence. auto.
Qed.
Lemma beside_onInmem {A} (m : M InmemStore A) : respects beside (onInmem (DB:=DB) m).
Proof. intros s. unfold onInmem, zoom. by destruct (m (inmemStore s)). Qed.
Lemma aside_insert m k v : apart k → aside m (<[k := v]> m).
Proof.
  intros (_ & Hh & Ht) k' Hk'. rewrite lookup_insert_ne; [done|].
  destruct Hk' as [Hk'|[i ->]]; [by apply Hh|apply Ht].
Qed.

(** In normal mode; [unless_maintenance] adds the other. *)
Definition writes_aside s s' : Prop :=
  badger_maintenanceMode s' = badger_maintenanceMode s ∧ aside (content s) (content s').
#[export] Instance writes_aside_preorder : PreOrder writes_aside.
Proof.
  split; [by intros s|]. intros a b c (Hm & Hc) (Hm' & Hc'). split; [congruence|].
  intros k Hk. by rewrite Hc', Hc.
Qed.
Lemma db_put_aside key val : apart key → respects writes_aside (db_put key val).
Proof.
  intros Hk s. destruct (db_put_spec key val s) as (_ & Hm & Hc). split; [done|].
  destruct Hc as [->|(v & _ & ->)]; [done|by apply aside_insert].
Qed.
Lemma unless_maintenance_beside (w : M BS unit) :
  respects writes_aside w → respects beside (unless_maintenance w).
Proof.
  intros Hm s. unfold unless_maintenance, bind, gets. specialize (Hm s).
  destruct (badger_maintenanceMode s) eqn:Hmode; [by simpl|].
  destruct Hm as [? ?]. split_and!; [done..|]. congruence.
Qed.
Hint Resolve beside_onInmem unless_maintenance_beside : respects.
Hint Extern 3 (respects writes_aside (db_put _ _)) =>
  (apply db_put_aside; first [apply apart_root | apply apart_repertoire
     | eapply apart_other; by auto]) : respects.

Lemma beside_SetPeerSet r ps : respects beside (Badger_SetPeerSet r ps).
Proof.
  unfold Badger_SetPeerSet, Badger_addParticipant, dbSetPeerSet, dbSetRepertoire, dbSetRoot.
  respects_go; apply unless_maintenance_beside; respects_go.
Qed.
Lemma beside_SetRound r ri : respects beside (Badger_SetRound r ri).
Proof. unfold Badger_SetRound, dbSetRound. respects_go. Qed.
Lemma beside_SetBlock b : respects beside (Badger_SetBlock b).
Proof. unfold Badger_SetBlock, dbSetBlock. respects_go. Qed.
Lemma beside_SetFrame f : respects beside (Badger_SetFrame f).
Proof. unfold Badger_SetFrame, dbSetFrame. respects_go. Qed.
Lemma beside_Reset f : respects beside (Badger_Reset f).
Proof.
  unfold Badger_Reset, dbSetFrame, dbSetRoot, dbSetPeerSet.
  respects_go; apply unless_maintenance_beside; respects_go.
Qed.
Lemma beside_cached {A} (m : M InmemStore A) f name key :
  respects beside (cached (DB:=DB) m f name key).
Proof. unfold cached. respects_go. Qed.
End database.
