(* ===== verification/Termination.v ===== *)
(** * The recursions terminate

    [round], [lamportTimestamp] and the walk down the self-parents are bounded
    by [fuel] in the model. Under the invariant of the graph, a fuel larger
    than the topological index of the hashgraph is enough: no method answers
    [OutOfFuel]. *)
From S2P Require Export Consensus.

(** [total P m]: from a state satisfying [P], [m] does not run out of fuel, and
    leaves a state satisfying [P]. *)
Definition total {E S A} (P : S → Prop) (m : GoM E S A) : Prop :=
  ∀ s, P s → (m s).1 ≠ OutOfFuel ∧ P (m s).2.

Create HintDb total.
Section total.
Context {E S : Type} (P : S → Prop).

Lemma total_bind {A B} (m : GoM E S A) (k : A → GoM E S B) :
  total P m → (∀ a, total P (k a)) → total P (bind m k).
Proof.
  intros Hm Hk s Hs. destruct (Hm s Hs) as [H1 H2]. unfold bind.
  destruct (m s) as [[a|e| |] s']; simpl in *; [by apply Hk|done..].
Qed.
Lemma total_ret {A} (a : A) : total P (ret (E:=E) a).
Proof. done. Qed.
Lemma total_throw {A} e : total P (throw (E:=E) (A:=A) e).
Proof. done. Qed.
Lemma total_gets {A} (f : S → A) : total P (gets (E:=E) f).
Proof. done. Qed.
Lemma total_get : total P (get (E:=E)).
Proof. done. Qed.
Lemma total_lift {A} (r : result E A) : r ≠ OutOfFuel → total P (lift r).
Proof. intros Hr s Hs. done. Qed.
Lemma total_try {A} (m : GoM E S A) : total P m → total P (try m).
Proof. intros Hm s Hs. destruct (Hm s Hs). unfold try. by destruct (m s) as [[]]. Qed.
Lemma total_foldM {A B} (f : A → B → GoM E S A) a l :
  (∀ a b, total P (f a b)) → total P (foldM f a l).
Proof.
  intros Hf. revert a. induction l as [|b l IH]; intros a; simpl; [done|].
  apply total_bind; auto.
Qed.
Lemma total_forM {B} (l : list B) (f : B → GoM E S unit) :
  (∀ b, b ∈ l → total P (f b)) → total P (forM l f).
Proof.
  unfold forM. induction l as [|b l IH]; intros Hf; simpl; [done|].
  apply total_bind; [apply Hf; set_solver|]. intros []. apply IH. intros; apply Hf; set_solver.
Qed.
Lemma total_foldM_ctl {A B} (f : A → B → GoM E S (ctl A)) a l :
  (∀ a b, total P (f a b)) → total P (foldM_ctl f a l).
Proof.
  intros Hf. revert a. induction l as [|b l IH]; intros a; simpl; [done|].
  apply total_bind; [auto|]. intros []; [auto|done].
Qed.
Lemma total_keeps {A} (m : GoM E S A) :
  respects (keeps P) m → (∀ s, (m s).1 ≠ OutOfFuel) → total P m.
Proof. intros Hr Hf s Hs. split; [done|]. by apply Hr. Qed.
End total.
Lemma total_wrap {S A} (P : S → Prop) prefix (m : M S A) : total P m → total P (wrap prefix m).
Proof. intros Hm s Hs. destruct (Hm s Hs). unfold wrap. by destruct (m s) as [[]]. Qed.

#[export] Hint Resolve total_ret total_throw total_gets total_get total_wrap : total.
Ltac total_go :=
  repeat first
    [ progress cbv zeta
    | match goal with
      | |- total _ (bind _ _) => apply total_bind; [ | intros ? ]
      | |- total _ (try _) => apply total_try
      | |- total _ (foldM _ _ _) => apply total_foldM; intros ? ?
      | |- total _ (forM _ _) => apply total_forM; intros ? ?
      | |- total _ (foldM_ctl _ _ _) => apply total_foldM_ctl; intros ? ?
      | |- total _ (match ?x with _ => _ end) => destruct x
      end ];
  try solve [ auto with total ].

Section termination.
Context {KP : Keys} {CP : Codec} {RO : RangeOrder}.
Context {St : Type} {STO : Store St} {LAW : StoreLaws St}.
Abbreviation H := (GoM error (Hashgraph St)).
Context (N : Z) (g : gmap string Event) (pec : ParticipantEventsCache) (n : Z).
Context (Hok : dag_ok g pec n).
Implicit Types (h : Hashgraph St).
Abbreviation I := (Ist N g pec n).

(** Hashing a peer-set and reading it do not need fuel. *)
Lemma res_foldM_fuel {E A B} (f : A → B → result E A) a l :
  (∀ a b, f a b ≠ OutOfFuel) → res_foldM f a l ≠ OutOfFuel.
Proof.
  intros Hf. revert a. induction l as [|b l IH]; intros a; simpl; [done|].
  destruct (f a b) eqn:Hfab; simpl; try done. by destruct (Hf a b).
Qed.
Lemma PubKeyBytes_fuel p : PubKeyBytes p ≠ OutOfFuel.
Proof. unfold PubKeyBytes, DecodeFromString. by repeat case_match. Qed.
Lemma PS_Hex_fuel ps : PS_Hex ps ≠ OutOfFuel.
Proof.
  unfold PS_Hex, PS_Hash.
  assert (res_foldM (λ hash p, pk <-- PubKeyBytes p ;; Ok (SimpleHashFromTwoHashes hash pk))
    ([] : bytes) (Peers ps) ≠ OutOfFuel) as Hf.
  { apply res_foldM_fuel. intros a p. pose proof (PubKeyBytes_fuel p).
    by destruct (PubKeyBytes p). }
  by destruct (res_foldM _ _ _).
Qed.
Lemma PSC_Get_fuel c r : PSC_Get c r ≠ OutOfFuel.
Proof.
  assert (∀ r, PSC_at c r ≠ OutOfFuel) as Hat by (intros r'; unfold PSC_at; by case_match).
  unfold PSC_Get. destruct (psc_peerSets c !! r); [done|].
  destruct (psc_rounds c) as [|r0 rs] eqn:Hrs; [done|]. case_match; [apply Hat|].
  clear Hrs. generalize (r0 :: rs) as l. intros l. induction l as [|x l IH]; [done|].
  destruct l as [|y l]; [apply Hat|]. cbn [PSC_search]. destruct (_ && _); [apply Hat|exact IH].
Qed.

Lemma total_GetEvent k : total I (onStore (GetEvent k)).
Proof.
  intros h HI. destruct (GetEvent_cases N g pec n k h HI) as (r & h' & -> & ? & Hr).
  by destruct r.
Qed.
Lemma total_store {A} (m : M St A) :
  (∀ s, st_ok s → (m s).1 ≠ OutOfFuel) → respects (keeps I) (onStore m) → total I (onStore m).
Proof.
  intros Hm Hr h HI. split; [|by apply Hr]. destruct HI as (Hs & _). specialize (Hm _ Hs).
  unfold onStore, zoom. by destruct (m (hg_Store h)).
Qed.
Lemma total_GetRound r : total I (onStore (GetRoundInfo r)).
Proof.
  apply total_store; [|auto with respects]. intros s Hs.
  destruct (GetRound_law r s Hs) as (_ & _ & Hf). destruct (_ !! r); simpl in Hf; [by rewrite Hf|].
  by destruct Hf as (? & -> & _).
Qed.
Lemma total_readStore {A} (f : St → A) : total I (readStore f).
Proof. done. Qed.
Lemma total_GetPeerSet r : total I (readStoreR (λ s, GetPeerSet s r)).
Proof.
  apply total_keeps; [auto with respects|]. intros h. unfold readStoreR, bind, gets, lift. simpl.
  rewrite GetPeerSet_law. apply PSC_Get_fuel.
Qed.
Hint Resolve total_GetEvent total_GetRound total_readStore total_GetPeerSet : total.

Lemma total_memoised {K V} `{Countable K} (proj : MemoCaches → LRU K V) put (key : K)
    (compute : H V) :
  other_table put → total I compute → total I (memoised proj put key compute).
Proof.
  intros Hput Hc h HI. split; [|apply stable_memoised; try done; intros h' HI'; by apply Hc].
  unfold memoised, bind, zoom.
  destruct (Get key (proj (memo h))) as [[v|] c]; [done|].
  destruct (Hc _ (other_put N g pec n put c h Hput HI)) as [Hf _].
  by destruct (compute _) as [[]].
Qed.

Lemma total_stronglySee x y ps : total I (stronglySee x y ps).
Proof.
  intros h HI. split; [|by apply stable_stronglySee].
  destruct (stronglySee_cases N g pec n Hok x y ps h HI) as [Hp|(r & h' & -> & _ & Hr)].
  - unfold stronglySee, bind, lift. pose proof (PS_Hex_fuel ps). by destruct Hp as [->|[?|[? ->]]].
  - by destruct r.
Qed.
Hint Resolve total_stronglySee : total.

(** Enough fuel for a key: more than its topological index. *)
Definition fueled (fuel : nat) (x : string) : Prop :=
  match g !! x with
  | Some e => ev_topologicalIndex e < Z.of_nat fuel
  | None => (0 < fuel)%nat
  end.

Lemma total_bind_GetEvent {A} k (f : Event → H A) :
  (∀ e, g !! k = Some (skeleton e) → total I (f e)) → total I (bind (onStore (GetEvent k)) f).
Proof.
  intros Hf h HI. unfold bind.
  destruct (GetEvent_cases N g pec n k h HI) as (r & h' & -> & HI' & Hr).
  destruct r as [e|err| |]; [|done..]. destruct Hr. by apply Hf.
Qed.

Lemma total_bind_try_GetEvent {A} k (f : Event + error → H A) :
  (∀ e, g !! k = Some (skeleton e) → fd_sound g k (ev_firstDescendants e) →
     total I (f (inl e))) → (∀ err, total I (f (inr err))) →
  total I (bind (try (onStore (GetEvent k))) f).
Proof.
  intros Hf Hf' h HI. unfold bind, try.
  destruct (GetEvent_cases N g pec n k h HI) as (r & h' & -> & HI' & Hr).
  destruct r as [e|err| |]; [destruct Hr; by apply Hf|by apply Hf'|done..].
Qed.

Lemma fueled_parent fuel x e p :
  fueled (S fuel) x → g !! x = Some e → SelfParent e = p ∨ OtherParent e = p → p ≠ "" →
  fueled fuel p.
Proof.
  unfold fueled. intros Hx He Hp Hne. rewrite He in Hx.
  assert (is_Some (g !! p)) as [ep Hep].
  { destruct Hp as [<-|<-].
    - destruct (dag_self _ _ _ Hok _ _ He) as [?|(q & ? & _)]; [done|eauto].
    - by destruct (dag_other _ _ _ Hok _ _ He). }
  rewrite Hep. destruct (dag_topo _ _ _ Hok _ _ He) as [_ Ht]. specialize (Ht p ep Hp Hep). lia.
Qed.

Lemma fueled_pos fuel x : fueled fuel x → (0 < fuel)%nat.
Proof.
  unfold fueled. destruct (g !! x) as [e|] eqn:He; [|done].
  destruct (dag_topo _ _ _ Hok _ _ He) as [? _]. lia.
Qed.

Lemma total_round fuel x : fueled fuel x → total I (round fuel x).
Proof.
  revert x. induction fuel as [|fuel IH]; intros x Hx; [by apply fueled_pos in Hx; lia|].
  apply total_memoised; [done|]. unfold _round. apply total_bind_GetEvent. intros e He.
  pose proof (fueled_parent fuel x _ (SelfParent e) Hx He (or_introl eq_refl)) as Hsp.
  pose proof (fueled_parent fuel x _ (OtherParent e) Hx He (or_intror eq_refl)) as Hop.
  apply total_bind; [case_decide; [apply total_ret|auto]|]. intros pr.
  apply total_bind; [case_decide; [apply total_ret|]|].
  { apply total_bind; [auto|]. intros. apply total_ret. }
  intros pr'. total_go.
Qed.

Lemma total_timestamps (key : string) (compute : H Z) :
  (∀ h, I h → (compute h).1 ≠ OutOfFuel) →
  ∀ h, I h →
  (memoised timestampCache set_timestampCache key compute h).1 ≠ OutOfFuel.
Proof.
  intros Hc h HI. destruct (get_tables N g pec n h HI) as (_ & [Hwf Hok'] & _).
  destruct (Get_view key (timestampCache (memo h))) as [_ Hv].
  pose proof (Get_wf key _ Hwf) as Hwf'. unfold memoised, bind, zoom.
  destruct (Get key (timestampCache (memo h))) as [[v|] c]; [done|]. simpl in *.
  specialize (Hc (set_memo (set_timestampCache c (memo h)) h)).
  destruct (compute _) as [[]]; try done. apply Hc, put_timestamp; [done|].
  split; [done|]. by rewrite Hv.
Qed.

Lemma lamport_fuel fuel x h : fueled fuel x → I h → (lamportTimestamp fuel x h).1 ≠ OutOfFuel.
Proof.
  revert x h. induction fuel as [|fuel IH]; intros x h Hx HI; [by apply fueled_pos in Hx; lia|].
  apply total_timestamps; [|done]. clear h HI. unfold _lamportTimestamp.
  assert (∀ y, fueled fuel y → total I (lamportTimestamp fuel y)) as Hrec.
  { intros y Hy h HI. split; [by apply IH|by apply stable_lamport]. }
  intros h HI. revert h HI.
  assert (total I (_lamportTimestamp (lamportTimestamp fuel) x)) as Ht; [|intros h HI; by apply Ht].
  unfold _lamportTimestamp. apply total_bind_GetEvent. intros e He.
  pose proof (fueled_parent fuel x _ (SelfParent e) Hx He (or_introl eq_refl)) as Hsp.
  pose proof (fueled_parent fuel x _ (OtherParent e) Hx He (or_intror eq_refl)) as Hop.
  apply total_bind; [case_decide; [apply total_ret|auto]|]. intros pr.
  apply total_bind; [case_decide; [apply total_ret|]|]; [|intros; apply total_ret].
  apply total_bind; [total_go|]. intros op. apply total_bind; [|intros; apply total_ret].
  destruct op; [auto|apply total_ret].
Qed.

Lemma total_lamport fuel x : fueled fuel x → total I (lamportTimestamp fuel x).
Proof. intros Hx h HI. split; [by apply lamport_fuel|by apply stable_lamport]. Qed.

(** ** A fuel that is enough for every key *)
Context (fuel : nat) (Hfuel : n < Z.of_nat fuel) (Hn : 0 ≤ n).

Lemma fueled_all x : fueled fuel x.
Proof.
  unfold fueled. destruct (g !! x) as [e|] eqn:He; [|lia].
  destruct (dag_topo _ _ _ Hok _ _ He) as [? _]. lia.
Qed.
Hint Resolve total_round total_lamport fueled_all : total.

Lemma total_witness x : total I (witness fuel x).
Proof. apply total_memoised; [done|]. unfold _witness. total_go. Qed.
Hint Resolve total_witness : total.

Lemma total_SetEvent e : g !! Hex e = Some (skeleton e) →
  fd_sound g (Hex e) (ev_firstDescendants e) → total I (onStore (SetEvent e)).
Proof.
  intros He Hfd h HI. split; [|by apply stable_SetEvent]. destruct HI as (Hs & _ & Hg & _).
  assert (is_Some (v_events (store_view (hg_Store h)) !! Hex e)) as Hk.
  { rewrite <-Hg in He. unfold graph, hv in He. rewrite lookup_fmap in He.
    destruct (v_events _ !! Hex e); [eauto|done]. }
  destruct (SetEvent_known_law e (hg_Store h) Hs Hk) as (Hr & _).
  unfold onStore, zoom. destruct (SetEvent e (hg_Store h)). simpl in *. by rewrite Hr.
Qed.

Lemma total_modify f : respects (E:=error) (keeps I) (modify f) → total I (modify (E:=error) f).
Proof. intros Hf. by apply total_keeps. Qed.

(** The walk may take one more step, to the missing parent of a first
    event. *)
Definition walk_fueled (k : nat) (x : string) : Prop :=
  match g !! x with
  | Some e => ev_topologicalIndex e + 1 < Z.of_nat k
  | None => (0 < k)%nat
  end.

Lemma walk_fueled_parent k x e :
  walk_fueled (S k) x → g !! x = Some e → walk_fueled k (SelfParent e).
Proof.
  unfold walk_fueled. intros Hx He. rewrite He in Hx.
  destruct (dag_topo _ _ _ Hok _ _ He) as [? Ht].
  destruct (g !! SelfParent e) as [p|] eqn:Hp; [|lia].
  specialize (Ht _ p (or_introl eq_refl) Hp). lia.
Qed.

Lemma total_walk k event ah : walk_fueled k ah → walks g event ah →
  total I (walk_descendants fuel k event ah).
Proof.
  revert ah. induction k as [|k IH]; intros ah Hah Hw.
  { exfalso. unfold walk_fueled in Hah. destruct (g !! ah) as [e|] eqn:He; [|lia].
    destruct (dag_topo _ _ _ Hok _ _ He). lia. }
  cbn [walk_descendants]. apply total_bind_try_GetEvent; [|intros; apply total_ret].
  intros a Hr Hfd. destruct (ev_firstDescendants a !! Creator event); [apply total_ret|].
  assert (Hex a = ah) as Hhex by (rewrite <-skeleton_Hex; by eapply dag_hex).
  pose proof (IH _ (walk_fueled_parent _ _ _ Hah Hr) (walks_parent _ _ _ _ Hw Hr)) as Hrec.
  destruct Hw as (Hk & Hs & Hreach).
  assert (∀ a', fd_sound g ah (ev_firstDescendants a') →
    fd_sound g ah (ev_firstDescendants (put_firstDescendant event a'))) as Hput.
  { intros a'. apply put_fd_sound; eauto. }
  apply total_bind; [by apply total_modify, stable_mutEvent|]. intros [].
  apply total_bind.
  { apply total_SetEvent; change (Hex (put_firstDescendant event a)) with (Hex a);
      rewrite Hhex; [done|by apply Hput]. }
  intros []. apply total_bind; [total_go|]. intros [[]|]; [apply total_ret|done..].
Qed.

Lemma total_updateAncestor event :
  g !! Hex event = Some (skeleton event) → n + 1 < Z.of_nat fuel →
  total I (updateAncestorFirstDescendant fuel event).
Proof.
  intros He Hf. apply total_forM. intros [p c] Hin. apply total_walk.
  - unfold walk_fueled. destruct (g !! ec_Hash c) as [e|] eqn:Hec; [|lia].
    destruct (dag_topo _ _ _ Hok _ _ Hec) as [? _]. lia.
  - split; [eauto|]. split; [rewrite He; by intros z [= <-]|]. intros _.
    rewrite (range_perm (ev_lastAncestors event)) in Hin. apply elem_of_map_to_list in Hin.
    by destruct (dag_la_sound _ _ _ Hok _ _ _ _ He Hin) as (z & _ & _ & _ & ?).
Qed.
End termination.
