(* ===== verification/Recorded.v ===== *)
(** * The hashgraph computes the rounds that its graph determines

    [Rst] ties the state of a hashgraph to the ledger of its graph: the memo
    tables, the recorded rounds and the first descendants all agree with it.
    Under it [round], [witness] and [stronglySee] answer what the ledger
    says, and the passes of consensus keep it. [T] says which first
    descendants have been recorded, [D] which events have been divided into
    rounds: both are partial while an event is inserted. *)
From S2P Require Export Received Consensus Termination Rounds.

Lemma bind_assoc {E S A B C} (m : GoM E S A) (k : A → GoM E S B) (k' : B → GoM E S C) s :
  bind m (λ a, bind (k a) k') s = bind (bind m k) k' s.
Proof. unfold bind. by destruct (m s) as [[]]. Qed.
Lemma hoare_assoc {E S A B C} (m : GoM E S A) (k : A → GoM E S B) (k' : B → GoM E S C) P Q F :
  hoare P (bind (bind m k) k') Q F → hoare P (bind m (λ a, bind (k a) k')) Q F.
Proof. intros Hm s Hs. rewrite bind_assoc. by apply Hm. Qed.

(** All first descendants are recorded. *)
Definition all (k y : string) : Prop := True.

(** What the passes of consensus keep, beside the rounds of the events: the
    received events of every round, the events that wait to be received, the
    queue of rounds and the frames, as they are, and rounds that are
    decided. *)
Record Book := mkBook {
  bk_received : Z → list string;
  bk_waiting : list string;
  bk_queue : PendingRoundsCache;
  bk_frames : gmap Z Frame;
  bk_decided : gset Z;
}.

Section recorded.
Context {KP : Keys} {CP : Codec} {RO : RangeOrder}.
Context {St : Type} {STO : Store St} {LAW : StoreLaws St}.
Abbreviation H := (GoM error (Hashgraph St)).
Context (ps : PeerSet) (hex : string) (Hhex : PS_Hex ps = Ok hex) (Hsm : 2 ≤ SuperMajority ps).
Implicit Types (h : Hashgraph St) (L : gmap string (Z * bool)) (D : gset string).

(** A callback that does not touch the events, rounds and peer-sets of the
    store, nor what the hashgraph has computed. *)
Definition quiet h h' : Prop :=
  st_ok (hg_Store h') ∧ v_events (hv h') = v_events (hv h) ∧ v_rounds (hv h') = v_rounds (hv h) ∧
  v_psc (hv h') = v_psc (hv h) ∧ v_pec (hv h') = v_pec (hv h) ∧ v_size (hv h') = v_size (hv h) ∧
  memo h' = memo h ∧ topologicalIndex h' = topologicalIndex h ∧
  UndeterminedEvents h' = UndeterminedEvents h ∧ roundLowerBound h' = roundLowerBound h ∧
  PendingRounds h' = PendingRounds h ∧ v_frames (hv h') = v_frames (hv h) ∧
  v_lastRound (hv h') = v_lastRound (hv h).
Definition cb_quiet {X} (cb : Block → GoM error (Hashgraph St * X) unit) : Prop :=
  ∀ b hx, st_ok (hg_Store hx.1) → quiet hx.1 (cb b hx).2.1.

Section state.
Context (bk : Book) (N : Z) (g : gmap string Event) (pec : ParticipantEventsCache) (n : Z).
Context (L : gmap string (Z * bool)) (T : string → string → Prop) (D E : gset string).

(** The first descendants of [y]: events that mark it and are recorded by [T],
    and, of every creator that has such events, one of the first. *)
Definition fd_exact (y : string) (ey : Event) : Prop :=
  (∀ p c, ev_firstDescendants ey !! p = Some c →
     ∃ k ek, g !! k = Some ek ∧ Creator ek = p ∧ Index ek = ec_Index c ∧ T k y ∧ marks g L ek ey = true) ∧
  (∀ k ek, g !! k = Some ek → T k y → marks g L ek ey = true →
     ∃ c, ev_firstDescendants ey !! Creator ek = Some c ∧ ec_Index c ≤ Index ek).
Definition event_ok (y : string) (ey : Event) : Prop :=
  fd_exact y ey ∧ (is_Some (ev_round ey) ↔ y ∈ E) ∧
  (∀ i, ev_roundReceived ey = Some i → received ps g L y i).
Definition events_ok (evs : gmap string Event) : Prop := map_Forall event_ok evs.

(** The recorded rounds hold the events of [D], with their flags; a fame that
    is recorded was decided. *)
Definition fame_ok (r : Z) (x : string) (re : roundEvent) : Prop :=
  match re_Famous re with
  | Undefined => True
  | TTrue => decided ps g L r x true
  | TFalse => decided ps g L r x false
  end.
(** A round that is decided: [S] is what the graph was then. *)
Definition settled_by (r : Z) (ri : RoundInfo) : Prop :=
  ∃ S, S ⊆ dom g ∧ closed g S ∧
    (∀ x, x ∈ S → L !! x = Some (r, true) →
       ∃ re, CreatedEvents ri !! x = Some re ∧ re_Famous re ≠ Undefined) ∧
    ∃ z, z ∈ S ∧ L !! z = Some (r + 2, true).
Definition rounds_ok (m : gmap Z RoundInfo) : Prop :=
  (∀ r ri x re, m !! r = Some ri → CreatedEvents ri !! x = Some re →
     x ∈ D ∧ L !! x = Some (r, re_Witness re)) ∧
  (∀ x r w, x ∈ D → L !! x = Some (r, w) →
     ∃ ri re, m !! r = Some ri ∧ CreatedEvents ri !! x = Some re ∧ re_Witness re = w) ∧
  (∀ r ri, m !! r = Some ri → CreatedEvents ri ≠ ∅) ∧
  (∀ r ri x re, m !! r = Some ri → CreatedEvents ri !! x = Some re → fame_ok r x re) ∧
  (∀ r ri, m !! r = Some ri → ri_decided ri = true → settled_by r ri) ∧
  (∀ r ri x, m !! r = Some ri → x ∈ ReceivedEvents ri → received ps g L x r).

Definition ss_entry (k : string * string * string) (b : bool) : Prop :=
  k.2 = hex ∧ ∃ ex ey, g !! k.1.1 = Some ex ∧ g !! k.1.2 = Some ey ∧ b = ss_of ps g L ex ey.
Definition tables_ok (m : MemoCaches) : Prop :=
  table_ok (λ x v, fst <$> L !! x = Some v) (roundCache m) ∧
  table_ok (λ x b, snd <$> L !! x = Some b) (witnessCache m) ∧
  table_ok ss_entry (stronglySeeCache m).

Definition booked h : Prop :=
  (∀ r, bk_received bk r = default [] (ReceivedEvents <$> v_rounds (hv h) !! r)) ∧
  UndeterminedEvents h = bk_waiting bk ∧ PendingRounds h = bk_queue bk ∧
  v_frames (hv h) = bk_frames bk ∧
  (∀ r, r ∈ bk_decided bk → ∃ ri, v_rounds (hv h) !! r = Some ri ∧ ri_decided ri = true) ∧
  (∀ r, is_Some (v_rounds (hv h) !! r) → r ≤ v_lastRound (hv h)).
Definition ext h : Prop :=
  (∀ r, PSC_Get (v_psc (hv h)) r = Ok ps) ∧ tables_ok (memo h) ∧
  events_ok (v_events (hv h)) ∧ rounds_ok (v_rounds (hv h)) ∧
  booked h ∧ roundLowerBound h = None.
Definition Rst h : Prop := Ist N g pec n h ∧ ext h.
Abbreviation steady := (respects (E:=error) (keeps Rst)).

(** ** Steps that leave all of it alone *)
Lemma steady_store {A} (m : M St A) :
  (∀ s, st_ok s → st_ok (m s).2 ∧
     v_events (store_view (m s).2) = v_events (store_view s) ∧
     v_rounds (store_view (m s).2) = v_rounds (store_view s) ∧
     v_psc (store_view (m s).2) = v_psc (store_view s) ∧
     v_pec (store_view (m s).2) = v_pec (store_view s) ∧
     v_size (store_view (m s).2) = v_size (store_view s) ∧
     v_frames (store_view (m s).2) = v_frames (store_view s) ∧
     v_lastRound (store_view (m s).2) = v_lastRound (store_view s)) →
  steady (onStore m).
Proof.
  intros Hm h [HI HE]. split.
  - revert HI. apply stable_store. intros s Hs. destruct (Hm s Hs) as (? & -> & _ & _ & -> & -> & _). done.
  - destruct (HI) as (Hs & _). specialize (Hm _ Hs). unfold ext, booked, onStore, zoom, hv in *.
    destruct (m (hg_Store h)) as [r s']. simpl in *. destruct Hm as (_ & -> & -> & -> & _ & _ & -> & ->). done.
Qed.
Lemma steady_GetEvent k : steady (onStore (GetEvent k)).
Proof. apply steady_store. intros s Hs. destruct (GetEvent_law k s Hs) as (? & -> & _). done. Qed.
Lemma steady_GetRound r : steady (onStore (GetRoundInfo r)).
Proof. apply steady_store. intros s Hs. destruct (GetRound_law r s Hs) as (? & -> & _). done. Qed.
Lemma steady_GetBlock i : steady (onStore (GetBlock i)).
Proof. apply steady_store. intros s Hs. destruct (GetBlock_law i s Hs) as (? & -> & _). done. Qed.
Lemma steady_GetFrame i : steady (onStore (GetFrame i)).
Proof. apply steady_store. intros s Hs. destruct (GetFrame_law i s Hs) as (? & -> & _). done. Qed.
Lemma steady_SetBlock b : steady (onStore (SetBlock b)).
Proof.
  apply steady_store. intros s Hs. by destruct (SetBlock_law b s Hs) as (_ & ? & m & _ & ->).
Qed.
Lemma steady_AddConsensusEvent e : steady (onStore (AddConsensusEvent e)).
Proof. apply steady_store. intros s Hs. by destruct (AddConsensusEvent_law e s Hs) as (? & ->). Qed.
Lemma steady_mutBlock r f : steady (modify (λ h, set_Store (mutBlock r f (hg_Store h)) h)).
Proof.
  apply (steady_store (A:=unit) (λ s, (Ok tt, mutBlock r f s))). intros s Hs. simpl.
  by destruct (mutBlock_law r f s Hs) as (? & ->).
Qed.
Lemma steady_readStore {A} (f : St → A) : steady (readStore f).
Proof. apply respects_pure; [apply _|]. done. Qed.
Lemma steady_readStoreR {A} (f : St → res A) : steady (readStoreR f).
Proof. apply respects_pure; [apply _|]. done. Qed.
Lemma steady_fields (f : Hashgraph St → Hashgraph St) :
  (∀ h, hg_Store (f h) = hg_Store h ∧ topologicalIndex (f h) = topologicalIndex h ∧
        memo (f h) = memo h ∧
        UndeterminedEvents (f h) = UndeterminedEvents h ∧ PendingRounds (f h) = PendingRounds h ∧
        roundLowerBound (f h) = roundLowerBound h) →
  steady (modify f).
Proof.
  intros Hf. apply respects_modify. intros h. destruct (Hf h) as (H1 & H2 & H3 & H4 & H5 & H6).
  unfold keeps, Rst, ext, booked, Ist, graph, hv. by rewrite H1, H2, H3, H4, H5, H6.
Qed.

(** ** Writing an event back *)
Lemma steady_mutEvent k f :
  (∀ e, skeleton (f e) = skeleton e) →
  (∀ e, ev_firstDescendants (f e) = ev_firstDescendants e ∧ ev_round (f e) = ev_round e ∧
     ∀ i, ev_roundReceived (f e) = Some i → ev_roundReceived e = Some i ∨ received ps g L k i) →
  steady (modify (λ h, set_Store (mutEvent k f (hg_Store h)) h)).
Proof.
  intros Hsk Hf h [HI (? & ? & Hev & ?)]. split.
  - revert HI. apply stable_mutEvent; [done|]. intros e. by rewrite (proj1 (Hf e)).
  - destruct (mutEvent_law k f (hg_Store h) (proj1 HI)) as (_ & Hv).
    unfold ext, booked, hv in *. simpl. rewrite Hv. simpl. split; [done|]. split; [done|]. split; [|done].
    intros y ey. destruct (decide (y = k)) as [->|Hne]; [|rewrite lookup_alter_ne by done; apply Hev].
    rewrite lookup_alter_eq. intros (e & He & ->)%fmap_Some. destruct (Hev k e He) as (Hfd & Hr & Hrr).
    destruct (Hf e) as (Hf1 & Hf2 & Hf3). unfold event_ok, fd_exact. rewrite Hf1, Hf2.
    assert (∀ ek, marks g L ek (f e) = marks g L ek e) as Hm.
    { intros ek. change (marks g L ek (f e)) with (marks g L ek (skeleton (f e))). by rewrite Hsk. }
    split; [|split; [done|]; intros i Hi; destruct (Hf3 i Hi); auto].
    destruct Hfd as [HA HB]. split.
    + intros p c Hc. destruct (HA p c Hc) as (k' & ek & ? & ? & ? & ? & ?). exists k', ek. by rewrite Hm.
    + intros k' ek Hk HT. rewrite Hm. by apply (HB k').
Qed.
Lemma steady_SetEvent e : g !! Hex e = Some (skeleton e) → event_ok (Hex e) e →
  fd_sound g (Hex e) (ev_firstDescendants e) → steady (onStore (SetEvent e)).
Proof.
  intros He Hok Hfd h [HI (? & ? & Hev & ?)]. split; [revert HI; by apply stable_SetEvent|].
  destruct (HI) as (Hs & _ & Hg & _).
  assert (is_Some (v_events (store_view (hg_Store h)) !! Hex e)) as Hk.
  { rewrite <-Hg in He. unfold graph, hv in He. rewrite lookup_fmap in He.
    destruct (v_events _ !! Hex e); [eauto|done]. }
  destruct (SetEvent_known_law e (hg_Store h) Hs Hk) as (_ & Hs' & Hv').
  unfold onStore, zoom. destruct (SetEvent e (hg_Store h)) as [r s']. simpl in *.
  unfold ext, booked, hv in *. simpl. rewrite Hv'. simpl. split; [done|]. split; [done|]. split; [|done].
  by apply map_Forall_insert_2.
Qed.

Lemma SetEvent_runs e : g !! Hex e = Some (skeleton e) → event_ok (Hex e) e →
  fd_sound g (Hex e) (ev_firstDescendants e) →
  hoare Rst (onStore (SetEvent e)) (λ _, Rst) (λ _, False).
Proof.
  intros He Hok Hfd h HR. pose proof (steady_SetEvent e He Hok Hfd h HR) as HR'.
  destruct HR as [(Hs & _ & Hg & _) _].
  assert (is_Some (v_events (store_view (hg_Store h)) !! Hex e)) as Hk.
  { rewrite <-Hg in He. unfold graph, hv in He. rewrite lookup_fmap in He.
    destruct (v_events _ !! Hex e); [eauto|done]. }
  destruct (SetEvent_known_law e (hg_Store h) Hs Hk) as (Hr & _). unfold onStore, zoom in *.
  destruct (SetEvent e (hg_Store h)) as [r s']. simpl in *. by subst r.
Qed.

(** ** Writing a round back *)
Definition created_same (r : Z) (ri ri' : RoundInfo) : Prop :=
  (∀ x, re_Witness <$> CreatedEvents ri' !! x = re_Witness <$> CreatedEvents ri !! x ∧
    (∀ re', CreatedEvents ri' !! x = Some re' → CreatedEvents ri !! x = Some re' ∨ fame_ok r x re') ∧
    ∀ re, CreatedEvents ri !! x = Some re → re_Famous re ≠ Undefined →
      ∃ re', CreatedEvents ri' !! x = Some re' ∧ re_Famous re' ≠ Undefined) ∧
  (ri_decided ri' = true → ri_decided ri = true ∨ settled_by r ri') ∧
  (ri_decided ri = true → ri_decided ri' = true) ∧
  (∀ x, x ∈ ReceivedEvents ri' → x ∈ ReceivedEvents ri ∨ received ps g L x r).
Lemma settled_by_same r ri ri' : created_same r ri ri' → settled_by r ri → settled_by r ri'.
Proof.
  intros [Hc _] (S & HS & Hcl & Hd & Hz). exists S. split; [done|]. split; [done|]. split; [|done].
  intros x Hx HLx. destruct (Hd x Hx HLx) as (re & Hre & Hf). by apply (Hc x) in Hre.
Qed.
#[export] Instance created_same_preorder r : PreOrder (created_same r).
Proof.
  split; [intros ri; split; [intros x; eauto 10|auto]|].
  intros r1 r2 r3 H12 H23. pose proof (settled_by_same r r2 r3 H23) as Hs.
  destruct H12 as (C12 & D12 & M12 & R12), H23 as (C23 & D23 & M23 & R23).
  split; [|split; [|split; [by auto|]]].
  - intros x. destruct (C12 x) as (W12 & F12 & U12), (C23 x) as (W23 & F23 & U23).
    split; [by rewrite W23, W12|]. split.
    + intros re Hre. destruct (F23 re Hre); auto.
    + intros re Hre Hf. destruct (U12 re Hre Hf) as (re2 & Hre2 & Hf2). eauto.
  - intros Hd. destruct (D23 Hd) as [Hd'|]; [|auto]. destruct (D12 Hd'); auto.
  - intros x Hx. destruct (R23 x Hx); auto.
Qed.
Lemma rounds_ok_write m r ri ri' : rounds_ok m → m !! r = Some ri → created_same r ri ri' →
  rounds_ok (<[r := ri']> m).
Proof.
  intros (H1 & H2 & H3 & H4 & H5 & H6) Hr Hs. pose proof Hs as (Hc & Hd & _ & Hrec).
  assert (∀ r0 ri0, <[r := ri']> m !! r0 = Some ri0 → (r0 = r ∧ ri0 = ri') ∨ m !! r0 = Some ri0) as Hcase.
  { intros r0 ri0 [[<- <-]|[_ ?]]%lookup_insert_Some; auto. }
  split; [|split; [|split; [|split; [|split]]]].
  - intros r0 ri0 x re Hr0. destruct (Hcase r0 ri0 Hr0) as [[-> ->]|?]; [intros Hx|by apply H1].
    destruct (Hc x) as [Hw _]. rewrite Hx in Hw.
    destruct (CreatedEvents ri !! x) as [re0|] eqn:Hx0; [|done]. injection Hw as Hw.
    rewrite Hw. by apply (H1 r ri).
  - intros x r0 w HxD HLx. destruct (H2 x r0 w HxD HLx) as (ri0 & re & Hr0 & Hre & Hw).
    destruct (decide (r0 = r)) as [->|Hne].
    + rewrite lookup_insert_eq. rewrite Hr in Hr0. injection Hr0 as <-. destruct (Hc x) as [Hsw _].
      rewrite Hre in Hsw. destruct (CreatedEvents ri' !! x) as [re'|] eqn:Hx'; [|done].
      injection Hsw as Hsw. exists ri', re'. split; [done|]. split; [done|]. congruence.
    + rewrite lookup_insert_ne by done. eauto.
  - intros r0 ri0 Hr0. destruct (Hcase r0 ri0 Hr0) as [[-> ->]|?]; [intros He|by apply (H3 r0)].
    destruct (map_choose _ (H3 r ri Hr)) as (x & re & Hx).
    destruct (Hc x) as [Hw _]. by rewrite He, Hx, lookup_empty in Hw.
  - intros r0 ri0 x re Hr0. destruct (Hcase r0 ri0 Hr0) as [[-> ->]|?]; [intros Hx|by apply H4].
    destruct (Hc x) as (_ & Hf & _). destruct (Hf re Hx) as [Hre|]; [by apply (H4 r ri)|done].
  - intros r0 ri0 Hr0. destruct (Hcase r0 ri0 Hr0) as [[-> ->]|?]; [intros Hdec|by apply H5].
    destruct (Hd Hdec); [|done]. apply (settled_by_same r ri); auto.
  - intros r0 ri0 x Hr0. destruct (Hcase r0 ri0 Hr0) as [[-> ->]|?]; [intros Hx|by apply H6].
    destruct (Hrec x Hx); [by apply (H6 r ri)|done].
Qed.
Definition holds r ri h : Prop := v_rounds (hv h) !! r = Some ri.
Definition holding r ri h : Prop := Rst h ∧ holds r ri h.
Lemma booked_write h h' r ri ri' : booked h → holds r ri h →
  ReceivedEvents ri' = ReceivedEvents ri → (ri_decided ri = true → ri_decided ri' = true) →
  v_rounds (hv h') = <[r := ri']> (v_rounds (hv h)) →
  UndeterminedEvents h' = UndeterminedEvents h → PendingRounds h' = PendingRounds h →
  v_frames (hv h') = v_frames (hv h) → v_lastRound (hv h) ≤ v_lastRound (hv h') → booked h'.
Proof.
  intros (H1 & H2 & H3 & H4 & H5 & H6) Hr Hrec Hd Hrds Hu Hp Hf Hl. unfold booked, holds in *.
  rewrite Hrds, Hu, Hp, Hf. split; [|do 3 (split; [done|]); split].
  - intros r0. rewrite H1. destruct (decide (r0 = r)) as [->|Hne].
    + by rewrite lookup_insert_eq, Hr; simpl; rewrite Hrec.
    + by rewrite lookup_insert_ne.
  - intros r0 Hr0. destruct (H5 r0 Hr0) as (ri0 & Hri0 & Hd0). destruct (decide (r0 = r)) as [->|Hne].
    + rewrite lookup_insert_eq. exists ri'. split; [done|]. apply Hd. congruence.
    + rewrite lookup_insert_ne by done. eauto.
  - intros r0 Hr0. etrans; [|exact Hl]. apply H6. destruct (decide (r0 = r)) as [->|Hne]; [eauto|].
    by rewrite lookup_insert_ne in Hr0.
Qed.
(** A round as it was, but for fame and the mark of decided rounds. *)
Definition same_round r ri ri' : Prop :=
  created_same r ri ri' ∧ ReceivedEvents ri' = ReceivedEvents ri.
#[export] Instance same_round_preorder r : PreOrder (same_round r).
Proof.
  split; [by split|]. intros r1 r2 r3 [H12 E12] [H23 E23]. split; [by etrans|congruence].
Qed.
Lemma holding_SetRound r ri ri' : (∀ h, holding r ri h → same_round r ri ri') →
  hoare (holding r ri) (onStore (SetRoundInfo r ri')) (λ _, holding r ri') (λ _, False).
Proof.
  intros Hs h Hh. destruct (Hs h Hh) as [Hs' Hrec]. destruct Hh as [[HI (? & ? & ? & Hm & Hbk & ?)] Hr].
  pose proof (stable_SetRound N g pec n r ri' h HI) as HI'.
  destruct (SetRound_law r ri' (hg_Store h) (proj1 HI)) as (Hres & _ & rds & (_ & _ & Hb & _) & Hv).
  unfold onStore, zoom in *. destruct (SetRoundInfo r ri' (hg_Store h)) as [res s']. simpl in *. subst res.
  rewrite Hb in Hv by (left; eauto).
  assert (v_rounds (hv (set_Store s' h)) = <[r := ri']> (v_rounds (hv h))) as Hrds
    by (unfold hv; simpl; by rewrite Hv).
  split; [|unfold holds; rewrite Hrds; apply lookup_insert_eq].
  split; [done|]. pose proof (booked_write h (set_Store s' h) r ri ri' Hbk Hr Hrec) as Hbk'.
  unfold ext. rewrite Hrds. unfold hv in *. simpl in *. rewrite Hv in *. simpl in *.
  do 3 (split; [done|]). split; [by eapply rounds_ok_write|]. split; [|done].
  apply Hbk'; [apply Hs'|done..|lia].
Qed.
Lemma holding_mutRound r ri f : (∀ h, holding r ri h → same_round r ri (f ri)) →
  hoare (E:=error) (holding r ri) (modify (λ h, set_Store (mutRound r f (hg_Store h)) h))
    (λ _, holding r (f ri)) (λ _, False).
Proof.
  intros Hs h Hh. destruct (Hs h Hh) as [Hs' Hrec]. destruct Hh as [[HI (? & ? & ? & Hm & Hbk & ?)] Hr].
  pose proof (stable_mutRound N g pec n r f h HI) as HI'.
  destruct (mutRound_law r f (hg_Store h) (proj1 HI)) as (_ & Hv).
  assert (v_rounds (hv (set_Store (mutRound r f (hg_Store h)) h)) = <[r := f ri]> (v_rounds (hv h))) as Hrds.
  { unfold hv. simpl. rewrite Hv. simpl. apply map_eq. intros i. unfold holds, hv in Hr.
    destruct (decide (i = r)) as [->|Hne].
    - by rewrite lookup_alter_eq, lookup_insert_eq, Hr.
    - by rewrite lookup_alter_ne, lookup_insert_ne. }
  unfold modify. split; [|unfold holds; rewrite Hrds; apply lookup_insert_eq].
  split; [done|].
  pose proof (booked_write h (set_Store (mutRound r f (hg_Store h)) h) r ri (f ri) Hbk Hr Hrec) as Hbk'.
  unfold ext. rewrite Hrds. unfold hv in *. simpl in *. rewrite Hv in *. simpl in *.
  do 3 (split; [done|]). split; [by eapply rounds_ok_write|]. split; [|done].
  apply Hbk'; [apply Hs'|done..].
Qed.
Lemma holding_untouched {A} r ri (m : H A) : untouched rd m → steady m →
  hoare (holding r ri) m (λ _, holding r ri) Rst.
Proof.
  intros Hu Hm h [HR Hr]. pose proof (Hm h HR) as HR'. destruct (Hu h (proj1 (proj1 HR))) as [_ Heq].
  assert (holding r ri (m h).2) as Hh.
  { split; [done|]. unfold holds, hv in *. unfold rd in Heq. congruence. }
  by destruct (m h) as [[]].
Qed.
Lemma holding_GetRound r : hoare Rst (onStore (GetRoundInfo r)) (λ ri, holding r ri) Rst.
Proof.
  intros h HR. pose proof (steady_GetRound r h HR) as HR'.
  destruct (GetRound_law r (hg_Store h) (proj1 (proj1 HR))) as (_ & Hv & Hf).
  unfold onStore, zoom in *. destruct (GetRoundInfo r (hg_Store h)) as [res s']. simpl in *.
  destruct res as [ri|err| |]; [|done..]. split; [done|]. unfold holds, hv. simpl. rewrite Hv.
  destruct (v_rounds _ !! r); simpl in Hf; [congruence|]. by destruct Hf as (? & ? & _).
Qed.

(** ** The memo tables *)
Lemma put_round h c : Rst h → table_ok (λ x v, fst <$> L !! x = Some v) c →
  Rst (set_memo (set_roundCache c (memo h)) h).
Proof.
  intros [HI (? & (? & ? & ?) & ?)] Hc. split; [by apply other_put|]. split; [done|].
  split; [|done]. done.
Qed.
Lemma put_witness h c : Rst h → table_ok (λ x b, snd <$> L !! x = Some b) c →
  Rst (set_memo (set_witnessCache c (memo h)) h).
Proof.
  intros [HI (? & (? & ? & ?) & ?)] Hc. split; [by apply other_put|]. split; [done|].
  split; [|done]. done.
Qed.
Lemma put_ancestor_table h c : Rst h → table_ok (ancestor_ok g) c →
  Rst (set_memo (set_ancestorCache c (memo h)) h).
Proof. intros [HI (? & (? & ? & ?) & ?)] Hc. split; [by apply put_ancestor|]. by split. Qed.
Lemma put_timestamp_table h c : Rst h → table_ok (lamport g) c →
  Rst (set_memo (set_timestampCache c (memo h)) h).
Proof. intros [HI (? & (? & ? & ?) & ?)] Hc. split; [by apply put_timestamp|]. by split. Qed.

(** ** What the methods answer *)
Context (Hok : dag_ok g pec n) (HL : ledger ps g L).
Hint Resolve steady_GetEvent steady_GetRound steady_GetBlock steady_GetFrame steady_SetBlock
  steady_AddConsensusEvent steady_mutBlock steady_readStore steady_readStoreR
  : respects.

Lemma GetEvent_exact k h : Rst h →
  ∃ r h', onStore (GetEvent k) h = (r, h') ∧ Rst h' ∧
    match r with
    | Ok e => g !! k = Some (skeleton e) ∧ event_ok k e ∧ fd_sound g k (ev_firstDescendants e)
    | Err err => g !! k = None
    | _ => False
    end.
Proof.
  intros HR. pose proof (steady_GetEvent k h HR) as HR'.
  destruct HR as [HI (_ & _ & Hev & _)]. destruct (HI) as (Hs & _ & Hg & _ & _ & _ & Hfds).
  destruct (GetEvent_law k (hg_Store h) Hs) as (_ & Hv & Hf).
  unfold onStore, zoom in *. destruct (GetEvent k (hg_Store h)) as [r s']. simpl in *.
  exists r, (set_Store s' h). split; [done|]. split; [done|].
  assert (g !! k = skeleton <$> (v_events (store_view (hg_Store h)) !! k)) as Hgk.
  { rewrite <-Hg. unfold graph, hv. by rewrite lookup_fmap. }
  destruct (v_events _ !! k) as [e|] eqn:He; simpl in *.
  - subst r. split; [done|]. split; [by apply Hev|by apply Hfds].
  - destruct Hf as (err & -> & _). done.
Qed.

Lemma ss_of_strongly x y ex ey : g !! x = Some ex → g !! y = Some ey →
  ss_of ps g L ex ey = true → strongly_sees g x y ps.
Proof.
  intros Hx Hy Hs. apply Z.leb_le in Hs. eexists. split; [|split; [exact Hs|]].
  - intros p [_ Hp]%elem_of_filter. exact Hp.
  - intros p [Hp _]%elem_of_filter. apply Is_true_true, counted_spec in Hp as (k & ek & Hk & Hc & Hm & Hsk).
    apply marks_spec in Hm as [Hm _]. exists k, ek. split; [done|]. split; [done|].
    split; [by apply (sees_reach g pec n x k ex ek)|by apply (sees_reach g pec n k y ek ey)].
Qed.
Lemma put_ss_table h c : Rst h → table_ok ss_entry c →
  Rst (set_memo (set_stronglySeeCache c (memo h)) h).
Proof.
  intros [HI (? & (? & ? & ?) & ?)] Hc. split; [|split; [done|split; [|done]]; done].
  apply put_stronglySee; [done|]. destruct Hc as [Hwf Hc]. split; [done|].
  intros k b Hk Hb. destruct (Hc k b Hk) as (Hh & ex & ey & Hx & Hy & ->).
  exists ps. split; [by rewrite Hhex, Hh|]. by apply (ss_of_strongly _ _ ex ey).
Qed.

Lemma ss_peer_counted x y ex ey p :
  g !! x = Some (skeleton ex) → fd_exact y ey → (∀ k, reach g x k → T k y) →
  ss_peer ex ey p = counted g L (skeleton ex) (skeleton ey) p.
Proof.
  intros Hx [HA HB] HT. apply eq_iff_eq_true. rewrite counted_spec. unfold ss_peer. split.
  - destruct (ev_lastAncestors ex !! p) as [a|] eqn:Ha; [|done].
    destruct (ev_firstDescendants ey !! p) as [b|] eqn:Hb; [|done]. intros Hle%Z.leb_le.
    destruct (HA p b Hb) as (k & ek & Hk & Hc & Hi & _ & Hm). exists k, ek.
    split; [done|]. split; [done|]. split; [done|]. unfold sees. simpl. rewrite Hc, Ha.
    apply Z.leb_le. lia.
  - intros (k & ek & Hk & Hc & Hm & Hs).
    assert (reach g x k) as Hr by (by apply (sees_reach g pec n x k (skeleton ex) ek)).
    destruct (HB k ek Hk (HT k Hr) Hm) as (c & Hfd & Hle). rewrite Hc in Hfd. rewrite Hfd.
    unfold sees in Hs. simpl in Hs. rewrite Hc in Hs.
    destruct (ev_lastAncestors ex !! p) as [a|]; [|done]. apply Z.leb_le in Hs.
    apply Z.leb_le. lia.
Qed.
Lemma _stronglySee_exact x y ex ey h : Rst h → g !! x = Some ex → g !! y = Some ey →
  (∀ k, reach g x k → T k y) →
  ∃ h', _stronglySee x y ps h = (Ok (ss_of ps g L ex ey), h') ∧ Rst h'.
Proof.
  intros HR Hx Hy HT. unfold _stronglySee, bind.
  destruct (GetEvent_exact x h HR) as (rx & h1 & -> & HR1 & Hrx).
  destruct rx as [ex'|err| |]; [|congruence|done..]. destruct Hrx as (Hx' & _ & _).
  destruct (GetEvent_exact y h1 HR1) as (ry & h2 & -> & HR2 & Hry).
  destruct ry as [ey'|err| |]; [|congruence|done..]. destruct Hry as (Hy' & [Hfd _] & _).
  assert (ex = skeleton ex') as -> by congruence. assert (ey = skeleton ey') as -> by congruence.
  exists h2. split; [|done]. unfold ret. do 2 f_equal. unfold ss_of. do 2 f_equal.
  rewrite ss_count_set. do 2 f_equal. apply set_eq. intros p.
  rewrite elem_of_list_to_set, list_elem_of_filter, elem_of_filter, elem_of_dom.
  rewrite (ss_peer_counted x y ex' ey' p Hx' Hfd HT).
  rewrite (range_perm (ByPubKey ps)), list_elem_of_fmap. split.
  - intros [Hp ([p' q] & -> & Hq)]. apply elem_of_map_to_list in Hq. eauto.
  - intros [Hp [q Hq]]. split; [done|]. exists (p, q). split; [done|]. by apply elem_of_map_to_list.
Qed.
Lemma stronglySee_exact x y ex ey h : Rst h → g !! x = Some ex → g !! y = Some ey →
  (∀ k, reach g x k → T k y) →
  ∃ h', stronglySee x y ps h = (Ok (ss_of ps g L ex ey), h') ∧ Rst h'.
Proof.
  intros HR Hx Hy HT. unfold stronglySee, bind, lift. rewrite Hhex.
  destruct (memoised_inv Rst stronglySeeCache set_stronglySeeCache ss_entry (x, y, hex)
    (_stronglySee x y ps) (λ r, r = Ok (ss_of ps g L ex ey)) h) as (r & h' & Hr & HR' & ->);
    [..|done|by exists h'].
  - intros h1 [_ (_ & (_ & _ & ?) & _)]. done.
  - apply put_ss_table.
  - intros v. unfold ss_entry. simpl. split.
    + intros [= ->]. eauto 10.
    + intros (_ & ex' & ey' & Hx' & Hy' & ->). simplify_eq. done.
  - intros h1 HR1. destruct (_stronglySee_exact x y ex ey h1) as (h2 & -> & HR2); eauto.
Qed.

(** An event whose ancestors have all been recorded. *)
Definition ready (x : string) : Prop :=
  is_Some (g !! x) ∧ (∀ k y, reach g x k → T k y) ∧ (∀ y, reach g x y → y ≠ x → y ∈ D).
Lemma ready_below x y : ready x → reach g x y → ready y.
Proof.
  intros ([ex Hx] & HT & HD) Hr. split; [by eapply reach_known|]. split.
  - intros k z Hk. apply HT. by etrans.
  - intros z Hz Hne. apply HD; [by etrans|]. intros ->.
    apply Hne. by eapply (reach_antisym _ _ _ Hok x y).
Qed.
Lemma ledger_at x ex : g !! x = Some ex → L !! x = Some (round_of ps g L x ex).
Proof. apply HL. Qed.

(** The witnesses recorded for a round, and those of them that are strongly
    seen. *)
Definition picked (p : roundEvent → bool) (ri : RoundInfo) : list string :=
  omap (λ '(x, e), if p e then Some x else None) (range (CreatedEvents ri)).
Lemma elem_of_picked p ri w :
  w ∈ picked p ri ↔ ∃ re, CreatedEvents ri !! w = Some re ∧ p re = true.
Proof.
  unfold picked. rewrite list_elem_of_omap. split.
  - intros ([x re] & Hin & Hre). rewrite (range_perm (CreatedEvents ri)) in Hin.
    apply elem_of_map_to_list in Hin. simpl in Hre. destruct (p re) eqn:Hw; [|done].
    simplify_eq. eauto.
  - intros (re & Hre & Hw). exists (w, re). rewrite (range_perm (CreatedEvents ri)).
    split; [by apply elem_of_map_to_list|]. simpl. by rewrite Hw.
Qed.
Lemma NoDup_picked p ri : NoDup (picked p ri).
Proof.
  assert (NoDup (range (CreatedEvents ri)).*1) as Hnd
    by (rewrite (range_perm (CreatedEvents ri)); apply NoDup_fst_map_to_list).
  unfold picked. induction (range (CreatedEvents ri)) as [|[x re] l IH]; [constructor|].
  csimpl in *. apply NoDup_cons in Hnd as [Hx Hnd]. destruct (p re); [|by apply IH].
  constructor; [|by apply IH]. rewrite list_elem_of_omap. intros ([y re'] & Hin & Hre).
  apply Hx, list_elem_of_fmap. exists (y, re'). split; [|done]. simpl in Hre.
  by destruct (p re'); simplify_eq.
Qed.
Lemma elem_of_Witnesses ri w :
  w ∈ Witnesses ri ↔ ∃ re, CreatedEvents ri !! w = Some re ∧ re_Witness re = true.
Proof. apply (elem_of_picked re_Witness). Qed.
Lemma NoDup_Witnesses ri : NoDup (Witnesses ri).
Proof. apply (NoDup_picked re_Witness). Qed.
Lemma elem_of_FamousWitnesses ri w : w ∈ FamousWitnesses ri ↔
  ∃ re, CreatedEvents ri !! w = Some re ∧ re_Witness re = true ∧ re_Famous re = TTrue.
Proof.
  setoid_rewrite (elem_of_picked (λ e, re_Witness e && bool_decide (re_Famous e = TTrue)) ri w).
  setoid_rewrite andb_true_iff. by setoid_rewrite bool_decide_eq_true.
Qed.
Lemma NoDup_FamousWitnesses ri : NoDup (FamousWitnesses ri).
Proof. apply (NoDup_picked (λ e, re_Witness e && bool_decide (re_Famous e = TTrue))). Qed.
Definition seen_by ex (w : string) : bool :=
  match g !! w with Some ew => ss_of ps g L ex ew | None => false end.
Lemma seen_witnesses_recorded x ex r ri m :
  ready x → g !! x = Some ex → rounds_ok m → m !! r = Some ri →
  seen_witnesses ps g L x ex r =
    list_to_set (filter (λ w, seen_by ex w) (Witnesses ri)).
Proof.
  intros (_ & _ & HD) Hx (Hm1 & Hm2 & _) Hri. apply set_eq. intros w. unfold seen_witnesses.
  rewrite elem_of_dom, elem_of_list_to_set, list_elem_of_filter, elem_of_Witnesses. split.
  - intros [ew (Hw & Hne & HLw & Hss)%map_lookup_filter_Some].
    split; [unfold seen_by; by rewrite Hw, Hss|]. destruct (ss_of_counted ps _ _ _ _ Hss) as [p Hp].
    pose proof (counted_reach g pec n L Hok x ex Hx w ew p Hw Hp) as Hr.
    destruct (Hm2 w r true (HD w Hr Hne) HLw) as (ri' & re & Hri' & Hre & Hwit).
    simplify_eq. eauto.
  - intros [Hss (re & Hre & Hwit)]. unfold seen_by in Hss. destruct (g !! w) as [ew|] eqn:Hw; [|done].
    apply Is_true_true in Hss. exists ew. apply map_lookup_filter_Some.
    split; [done|]. destruct (Hm1 r ri w re Hri Hre) as [_ HLw]. rewrite Hwit in HLw.
    split; [|done]. intros ->. assert (ew = ex) as -> by congruence.
    by rewrite (ss_of_self ps Hsm g pec n L Hok x ex Hx) in Hss.
Qed.

Lemma count_exact x ex ws c h : Rst h → ready x → g !! x = Some ex →
  Forall (λ w, is_Some (g !! w)) ws →
  ∃ h', foldM (λ c w, ss <- stronglySee x w ps ;; ret (if (ss : bool) then c + 1 else c)) c ws h =
          (Ok (c + Z.of_nat (length (filter (λ w, seen_by ex w) ws))), h') ∧ Rst h'.
Proof.
  intros HR (_ & HT & _) Hx Hall. revert c h HR. induction Hall as [|w ws [ew Hw] _ IH]; intros c h HR.
  { exists h. simpl. by rewrite Z.add_0_r. }
  destruct (stronglySee_exact x w ex ew h HR Hx Hw) as (h1 & Hss & HR1); [eauto|].
  cbn [foldM]. unfold bind at 1. unfold bind at 1. rewrite Hss. unfold ret at 1.
  destruct (IH (if ss_of ps g L ex ew then c + 1 else c) h1 HR1) as (h2 & -> & HR2).
  exists h2. split; [|done]. do 2 f_equal. rewrite filter_cons.
  assert (seen_by ex w = ss_of ps g L ex ew) as -> by (unfold seen_by; by rewrite Hw).
  destruct (ss_of ps g L ex ew); simpl; lia.
Qed.

(** The answer is the ledger's, unless the fuel runs out. *)
Definition answers {A} (f : Z * bool → A) (x : string) (r : res A) : Prop :=
  r = OutOfFuel ∨ ∃ v, r = Ok v ∧ f <$> L !! x = Some v.
Lemma rnd_at p v : p ≠ "" → fst <$> L !! p = Some v → rnd L p = v.
Proof. intros Hp Hv. unfold rnd. rewrite decide_False by done. by rewrite Hv. Qed.
Lemma rnd_bound p : -1 ≤ rnd L p ∧ (p ≠ "" → is_Some (L !! p) → 0 ≤ rnd L p).
Proof.
  unfold rnd. case_decide; [split; [lia|done]|].
  destruct (L !! p) as [[v w]|] eqn:Hp; simpl; [|split; [lia|lia]].
  pose proof (proj1 (proj2 HL) p v w Hp). split; lia.
Qed.

(** The rounds of the parents. *)
Lemma parents_exact (rec : string → H Z) x ex h :
  (∀ y h, Rst h → ready y → ∃ r h', rec y h = (r, h') ∧ Rst h' ∧ answers fst y r) →
  ready x → g !! x = Some ex → Rst h →
  ∃ r h', (parentRound <- (if decide (SelfParent ex = "") then ret (-1) else rec (SelfParent ex)) ;;
           (if decide (OtherParent ex = "") then ret parentRound
            else opRound <- rec (OtherParent ex) ;;
                 ret (if parentRound <? opRound then opRound else parentRound))) h = (r, h') ∧ Rst h' ∧
    (r = OutOfFuel ∨ r = Ok (Z.max (rnd L (SelfParent ex)) (rnd L (OtherParent ex)))).
Proof.
  intros Hrec Hrd Hx HR.
  assert (∀ p, SelfParent ex = p ∨ OtherParent ex = p → p ≠ "" → ready p) as Hp.
  { intros p Hp Hne. apply (ready_below x p Hrd). by eapply (parent_strict g pec n x ex p). }
  assert (∃ r h1, (if decide (SelfParent ex = "") then ret (-1) else rec (SelfParent ex)) h = (r, h1)
    ∧ Rst h1 ∧ (r = OutOfFuel ∨ r = Ok (rnd L (SelfParent ex)))) as (r1 & h1 & Hr1 & HR1 & Ha1).
  { case_decide as Hd.
    - eexists _, h. split; [done|]. split; [done|]. right. by rewrite Hd.
    - destruct (Hrec (SelfParent ex) h HR) as (r & h1 & -> & HR1 & Ha); [auto|].
      eexists _, h1. split; [done|]. split; [done|]. destruct Ha as [->|(v & -> & Hv)]; [by left|].
      right. by rewrite (rnd_at _ v). }
  unfold bind at 1. rewrite Hr1. destruct Ha1 as [->| ->]; [eexists _, h1; auto|].
  pose proof (proj1 (rnd_bound (SelfParent ex))) as Hb.
  destruct (decide (OtherParent ex = "")) as [Hd|Hd].
  - eexists _, h1. split; [done|]. split; [done|]. right. rewrite Hd. unfold rnd at 3. simpl.
    f_equal. lia.
  - destruct (Hrec (OtherParent ex) h1 HR1) as (r & h2 & Hr2 & HR2 & Ha); [auto|].
    unfold bind. rewrite Hr2. destruct Ha as [->|(v & -> & Hv)]; [eexists _, h2; auto|].
    eexists _, h2. split; [done|]. split; [done|]. right. rewrite (rnd_at _ v Hd Hv). f_equal.
    destruct (Z.ltb_spec (rnd L (SelfParent ex)) v); lia.
Qed.

Lemma _round_exact (rec : string → H Z) x h :
  (∀ y h, Rst h → ready y → ∃ r h', rec y h = (r, h') ∧ Rst h' ∧ answers fst y r) →
  ready x → Rst h → ∃ r h', _round rec x h = (r, h') ∧ Rst h' ∧ answers fst x r.
Proof.
  intros Hrec Hrd HR. pose proof Hrd as ([ex Hx] & HT & HD). unfold _round.
  destruct (GetEvent_exact x h HR) as (rx & h1 & Hg & HR1 & Hrx). unfold bind at 1. rewrite Hg.
  destruct rx as [e|err| |]; [|congruence|done..]. destruct Hrx as (Hx' & _ & _).
  destruct (parents_exact rec x (skeleton e) h1 Hrec Hrd Hx' HR1) as (r2 & h2 & Hp & HR2 & Ha).
  change (SelfParent (skeleton e)) with (SelfParent e) in *.
  change (OtherParent (skeleton e)) with (OtherParent e) in *.
  rewrite bind_assoc. unfold bind at 1. rewrite Hp.
  destruct Ha as [->| ->]; [eexists _, h2; split; [done|]; split; [done|]; by left|].
  pose proof (ledger_at x _ Hx') as HLx. set (pr := Z.max _ _) in *.
  assert (fst <$> L !! x = Some (if pr =? -1 then 0 else
    if SuperMajority ps <=? Z.of_nat (size (seen_witnesses ps g L x (skeleton e) pr)) then pr + 1
    else pr)) as Hval by (rewrite HLx; reflexivity).
  destruct (pr =? -1) eqn:Hpr.
  { eexists _, h2. split; [done|]. split; [done|]. right. eauto. }
  (** the parent that has the round is recorded in it *)
  assert (∃ p, (SelfParent e = p ∨ OtherParent e = p) ∧ p ≠ "" ∧ rnd L p = pr) as (p & Hp' & Hne & Hprp).
  { assert (rnd L "" = -1) as Hempty by done.
    destruct (Z.max_spec (rnd L (SelfParent e)) (rnd L (OtherParent e))) as [[_ Hm]|[_ Hm]];
      fold pr in Hm; [exists (OtherParent e)|exists (SelfParent e)]; (split; [auto|]);
      (split; [intros Heq; rewrite Heq in Hm; lia|done]). }
  destruct (parent_strict g pec n x _ p Hok Hx' Hp' Hne) as (Hpx & Hreach & [ep Hep]).
  destruct (HR2) as [HI2 (Hpsc & _ & _ & Hrounds & _)].
  destruct (proj1 (proj2 Hrounds) p (rnd L p) (wit L p) (HD p Hreach Hpx)) as (ri & re & Hri & _ & _).
  { pose proof (ledger_at p ep Hep) as HLp. unfold rnd, wit. rewrite decide_False by done.
    rewrite HLp. cbn [fmap option_fmap option_map default]. by destruct (round_of ps g L p ep). }
  rewrite Hprp in Hri.
  destruct (GetRound_law pr (hg_Store h2) (proj1 HI2)) as (_ & Hv3 & Hf).
  pose proof (steady_GetRound pr h2 HR2) as HR3. unfold bind at 1. unfold onStore, zoom in *.
  destruct (GetRoundInfo pr (hg_Store h2)) as [r3 s3]. simpl in Hf, Hv3, HR3.
  change (v_rounds (store_view (hg_Store h2)) !! pr = Some ri) in Hri. rewrite Hri in Hf.
  simpl in Hf. subst r3. unfold bind at 1, readStoreR, bind at 1, gets, lift.
  change (hg_Store (set_Store s3 h2)) with s3. rewrite GetPeerSet_law, Hv3.
  change (store_view (hg_Store h2)) with (hv h2). rewrite (Hpsc pr).
  destruct (count_exact x (skeleton e) (Witnesses ri) 0 _ HR3 Hrd Hx') as (h4 & Hc & HR4).
  { apply Forall_forall. intros w (re' & Hre' & _)%elem_of_Witnesses.
    destruct (proj1 Hrounds pr ri w re' Hri Hre') as [_ HLw]. apply (proj1 HL w). eauto. }
  unfold bind at 1. rewrite Hc. eexists _, h4. split; [done|]. split; [done|]. right.
  eexists. split; [done|]. rewrite Hval.
  rewrite (seen_witnesses_recorded x (skeleton e) pr ri _ Hrd Hx' Hrounds Hri).
  rewrite size_list_to_set by (by apply NoDup_filter, NoDup_Witnesses). done.
Qed.
Lemma round_exact fuel x h : Rst h → ready x →
  ∃ r h', round fuel x h = (r, h') ∧ Rst h' ∧ answers fst x r.
Proof.
  revert x h. induction fuel as [|fuel IH]; intros x h HR Hrd.
  { eexists _, h. split; [done|]. split; [done|]. by left. }
  apply (memoised_inv Rst roundCache set_roundCache (λ x v, fst <$> L !! x = Some v) x); try done.
  - intros h1 [_ (_ & (? & _ & _) & _)]. done.
  - apply put_round.
  - intros v. unfold answers. naive_solver.
  - intros h1 HR1. by apply _round_exact.
Qed.
Lemma witness_exact fuel x h : Rst h → ready x →
  ∃ r h', witness fuel x h = (r, h') ∧ Rst h' ∧ answers snd x r.
Proof.
  intros HR Hrd.
  apply (memoised_inv Rst witnessCache set_witnessCache (λ x b, snd <$> L !! x = Some b) x); try done.
  - intros h1 [_ (_ & (_ & ? & _) & _)]. done.
  - apply put_witness.
  - intros v. unfold answers. naive_solver.
  - clear h HR. intros h HR. pose proof Hrd as ([ex Hx] & _). unfold _witness.
    destruct (GetEvent_exact x h HR) as (rx & h1 & Hg & HR1 & Hrx). unfold bind at 1. rewrite Hg.
    destruct rx as [e|err| |]; [|congruence|done..]. destruct Hrx as (Hx' & _ & _).
    destruct (round_exact fuel x h1 HR1 Hrd) as (r2 & h2 & Hr & HR2 & Ha).
    unfold bind at 1. rewrite Hr.
    destruct Ha as [->|(r & -> & HLr)]; [eexists _, h2; split; [done|]; split; [done|]; by left|].
    pose proof (ledger_at x _ Hx') as HLx. rewrite HLx in HLr.
    change (Some (round_of ps g L x (skeleton e)).1 = Some r) in HLr. apply (inj Some) in HLr.
    unfold bind at 1, readStoreR, bind at 1, gets, lift. rewrite GetPeerSet_law.
    destruct (HR2) as [_ (Hpsc & _)]. change (store_view (hg_Store h2)) with (hv h2).
    rewrite (Hpsc r).
    assert (snd <$> L !! x = Some
      (bool_decide (is_Some (ByPubKey ps !! Creator e)) && (rnd L (SelfParent e) <? r))) as Hw.
    { rewrite HLx, <-HLr. done. }
    destruct (ByPubKey ps !! Creator e) as [q|] eqn:Hq.
    2:{ eexists _, h2. split; [done|]. split; [done|]. right. eexists. split; [done|]. exact Hw. }
    assert (∃ r3 h3, (if decide (SelfParent e = "") then ret (-1) else round fuel (SelfParent e)) h2
      = (r3, h3) ∧ Rst h3 ∧ (r3 = OutOfFuel ∨ r3 = Ok (rnd L (SelfParent e)))) as (r3 & h3 & Hsp & HR3 & Ha3).
    { case_decide as Hd.
      - eexists _, h2. split; [done|]. split; [done|]. right. by rewrite Hd.
      - destruct (round_exact fuel (SelfParent e) h2 HR2) as (r3 & h3 & -> & HR3 & Ha).
        { apply (ready_below x _ Hrd). by eapply (parent_strict g pec n x _ _ Hok Hx'); [left|]. }
        eexists _, h3. split; [done|]. split; [done|]. destruct Ha as [->|(v & -> & Hv)]; [by left|].
        right. by rewrite (rnd_at _ v). }
    unfold bind at 1. rewrite Hsp.
    destruct Ha3 as [->| ->]; (eexists _, h3; split; [done|]; split; [done|]); [by left|].
    right. eexists. split; [done|]. exact Hw.
Qed.

(** ** The methods, once the insertion is complete *)
Section complete.
Context (Hall : ∀ x, is_Some (g !! x) → ready x) (fuel : nat).

Lemma memo_steady {K V} `{Countable K} (proj : MemoCaches → LRU K V) put (ok : K → V → Prop)
    (key : K) (compute : H V) :
  (∀ h, Rst h → table_ok ok (proj (memo h))) →
  (∀ h c, Rst h → table_ok ok c → Rst (set_memo (put c (memo h)) h)) →
  steady compute → (∀ h v, Rst h → (compute h).1 = Ok v → ok key v) →
  steady (memoised proj put key compute).
Proof.
  intros Hproj Hput Hc Hv h HR.
  destruct (memoised_inv Rst proj put ok key compute (λ r, ∀ v, r = Ok v → ok key v) h)
    as (r & h' & -> & ? & _); try done.
  - intros v. split; [by auto|by intros ? ? [= <-]].
  - intros h1 HR1. pose proof (Hc h1 HR1) as HR2. specialize (Hv h1).
    destruct (compute h1) as [r h2]. eexists _, h2. split; [done|]. split; [done|]. eauto.
Qed.
Lemma steady_ancestor x y : steady (ancestor x y).
Proof.
  apply (memo_steady ancestorCache set_ancestorCache (ancestor_ok g) (x, y)).
  - intros h [HI _]. by apply get_tables in HI as (? & _).
  - apply put_ancestor_table.
  - unfold _ancestor. respects_go.
  - intros h v [HI _] Hv. destruct (_ancestor_cases N g pec n Hok x y h HI) as (r & h' & Hr & _ & Hres).
    rewrite Hr in Hv. simpl in Hv. by subst r.
Qed.
Lemma steady_lamport f x : steady (lamportTimestamp f x).
Proof.
  revert x. induction f as [|f IH]; intros x; simpl; [apply respects_diverge, _|].
  apply (memo_steady timestampCache set_timestampCache (lamport g) x).
  - intros h [HI _]. by apply get_tables in HI as (_ & ? & _).
  - apply put_timestamp_table.
  - unfold _lamportTimestamp. respects_go.
  - intros h v [HI _] Hv.
    destruct (lamport_body_cases N g pec n Hok (lamportTimestamp f) x h) as (r & h' & Hr & _ & Hres);
      [by apply lamport_cases|done|]. rewrite Hr in Hv. simpl in Hv. by subst r.
Qed.
Lemma steady_stronglySee x y : steady (stronglySee x y ps).
Proof.
  intros h. unfold stronglySee, bind, lift. rewrite Hhex. revert h.
  apply (memo_steady stronglySeeCache set_stronglySeeCache ss_entry (x, y, hex)).
  - intros h1 [_ (_ & (_ & _ & ?) & _)]. done.
  - apply put_ss_table.
  - unfold _stronglySee. respects_go.
  - intros h1 v HR1 Hv. unfold _stronglySee, bind in Hv.
    destruct (GetEvent_exact x h1 HR1) as (rx & h2 & Hx & HR2 & Hrx). rewrite Hx in Hv.
    destruct rx as [ex|err| |]; [|done..]. destruct Hrx as (Hgx & _).
    destruct (GetEvent_exact y h2 HR2) as (ry & h3 & Hy & _ & Hry). rewrite Hy in Hv.
    destruct ry as [ey|err| |]; [|done..]. destruct Hry as (Hgy & _).
    destruct (Hall x) as (_ & HT & _); [eauto|].
    destruct (_stronglySee_exact x y _ _ h1 HR1 Hgx Hgy) as (h4 & He & _); [eauto|].
    unfold _stronglySee, bind in He. rewrite Hx, Hy in He. rewrite He in Hv.
    change (Ok (ss_of ps g L (skeleton ex) (skeleton ey)) = Ok (E:=error) v) in Hv.
    split; [done|]. exists (skeleton ex), (skeleton ey). split; [done|]. split; [done|]. congruence.
Qed.
(** Outside the graph the methods answer an error. *)
Lemma steady_round x : steady (round fuel x).
Proof.
  destruct (g !! x) as [ex|] eqn:Hx.
  - intros h HR. destruct (round_exact fuel x h HR) as (r & h' & -> & ? & _); [|done].
    apply Hall. eauto.
  - destruct fuel as [|f]; [apply respects_diverge, _|]. simpl.
    apply (memo_steady roundCache set_roundCache (λ x v, fst <$> L !! x = Some v) x).
    + intros h1 [_ (_ & (? & _ & _) & _)]. done.
    + apply put_round.
    + intros h HR. unfold _round, bind at 1.
      destruct (GetEvent_exact x h HR) as (r & h1 & -> & HR1 & Hr).
      destruct r as [e|err| |]; [|done..]. destruct Hr. congruence.
    + intros h v HR. unfold _round, bind at 1.
      destruct (GetEvent_exact x h HR) as (r & h1 & -> & HR1 & Hr).
      destruct r as [e|err| |]; [|done..]. destruct Hr. congruence.
Qed.
Lemma steady_witness x : steady (witness fuel x).
Proof.
  destruct (g !! x) as [ex|] eqn:Hx.
  - intros h HR. destruct (witness_exact fuel x h HR) as (r & h' & -> & ? & _); [|done].
    apply Hall. eauto.
  - apply (memo_steady witnessCache set_witnessCache (λ x b, snd <$> L !! x = Some b) x).
    + intros h1 [_ (_ & (_ & ? & _) & _)]. done.
    + apply put_witness.
    + intros h HR. unfold _witness, bind at 1.
      destruct (GetEvent_exact x h HR) as (r & h1 & -> & HR1 & Hr).
      destruct r as [e|err| |]; [|done..]. destruct Hr. congruence.
    + intros h v HR. unfold _witness, bind at 1.
      destruct (GetEvent_exact x h HR) as (r & h1 & -> & HR1 & Hr).
      destruct r as [e|err| |]; [|done..]. destruct Hr. congruence.
Qed.
(** Every peer-set that is read is [ps]. *)
Lemma steady_peers {A} r (k : PeerSet → H A) :
  steady (k ps) → steady (bind (readStoreR (λ s, GetPeerSet s r)) k).
Proof.
  intros Hk h HR. unfold bind at 1, readStoreR, bind at 1, gets, lift. rewrite GetPeerSet_law.
  destruct (HR) as [_ (Hpsc & _)]. change (store_view (hg_Store h)) with (hv h).
  rewrite Hpsc. by apply Hk.
Qed.
Lemma hoare_peers {A} (P : Hashgraph St → Prop) r (k : PeerSet → H A) Q F :
  (∀ h, P h → Rst h) → hoare P (k ps) Q F → hoare P (bind (readStoreR (λ s, GetPeerSet s r)) k) Q F.
Proof.
  intros HP Hk h Hh. specialize (Hk h Hh).
  unfold bind at 1, readStoreR, bind at 1, gets, lift. rewrite GetPeerSet_law.
  destruct (HP h Hh) as [_ (Hpsc & _)]. change (store_view (hg_Store h)) with (hv h). by rewrite Hpsc.
Qed.
Lemma hoare_Rst {A} (m : H A) : steady m → hoare Rst m (λ _, Rst) Rst.
Proof. intros Hm h Hh. specialize (Hm h Hh). by destruct (m h) as [[]]. Qed.
End complete.
End state.
End recorded.
