(* ===== verification/Divide.v ===== *)
(** * Dividing an event into rounds

    [divideRound_event] computes the round of an event whose ancestors are all
    recorded, and records it: with the event, and in the round. It does not
    fail, and the cache of rounds does not overflow before that of events. *)
From S2P Require Export Recorded.

Section divide_rounds.
Context {KP : Keys} {CP : Codec} {RO : RangeOrder}.
Context {St : Type} {STO : Store St} {LAW : StoreLaws St}.
Abbreviation H := (GoM error (Hashgraph St)).
Context (ps : PeerSet) (hex : string) (Hhex : PS_Hex ps = Ok hex) (Hsm : 2 ≤ SuperMajority ps).
Implicit Types (h : Hashgraph St) (D O : gset string).

Lemma size_le_image {A} (f : string → Z) (m : gmap Z A) D :
  (∀ r, is_Some (m !! r) → ∃ x, x ∈ D ∧ f x = r) → (size m ≤ size D)%nat.
Proof.
  revert D. induction m as [|r ri m Hr IH] using map_ind; intros D Hf; [rewrite map_size_empty; lia|].
  destruct (Hf r) as (x & Hx & Hfx); [rewrite lookup_insert_eq; eauto|].
  assert (size m ≤ size (D ∖ {[x]}))%nat as Hle.
  { apply IH. intros r' Hr'. assert (r' ≠ r) as Hne by (intros ->; rewrite Hr in Hr'; by destruct Hr').
    destruct (Hf r') as (x' & Hx' & Hfx'); [by rewrite lookup_insert_ne|]. exists x'.
    split; [|done]. apply elem_of_difference. split; [done|]. rewrite elem_of_singleton. congruence. }
  rewrite map_size_insert_None by done. rewrite size_difference, size_singleton in Hle by set_solver.
  assert (size {[x]} ≤ size D)%nat as H1 by (apply subseteq_size; set_solver).
  rewrite size_singleton in H1. lia.
Qed.
Lemma rounds_small g L D m : rounds_ok ps g L D m → (size m ≤ size D)%nat.
Proof.
  intros (H1 & _ & H3 & _). apply (size_le_image (λ x, default 0 (fst <$> L !! x))).
  intros r [ri Hri]. destruct (map_choose _ (H3 r ri Hri)) as (x & re & Hx). exists x.
  destruct (H1 r ri x re Hri Hx) as [? HLx]. split; [done|]. by rewrite HLx.
Qed.

Section divide.
Context (N : Z) (g : gmap string Event) (pec : ParticipantEventsCache) (n : Z).
Context (L : gmap string (Z * bool)) (Hok : dag_ok g pec n) (HL : ledger ps g L).
Context (Hn : 0 ≤ n) (fuel : nat) (Hfuel : n < Z.of_nat fuel) (HN : Z.of_nat (size g) ≤ N).
Abbreviation R bk := (Rst ps hex bk N g pec n L all).

Lemma round_runs bk D E x : ready g all D x →
  hoare (R bk D E) (round fuel x) (λ r h, R bk D E h ∧ fst <$> L !! x = Some r) (λ _, False).
Proof.
  intros Hx h HR. destruct (round_exact ps hex Hhex Hsm bk N g pec n L all D E Hok HL fuel x h HR Hx)
    as (r & h' & Hr & HR' & Ha).
  destruct (total_round N g pec n Hok fuel x (fueled_all g pec n Hok fuel Hfuel Hn x) h (proj1 HR))
    as [Hf _].
  rewrite Hr in *. by destruct Ha as [->|(v & -> & Hv)].
Qed.
Lemma witness_runs bk D E x : ready g all D x →
  hoare (R bk D E) (witness fuel x) (λ b h, R bk D E h ∧ snd <$> L !! x = Some b) (λ _, False).
Proof.
  intros Hx h HR. destruct (witness_exact ps hex Hhex Hsm bk N g pec n L all D E Hok HL fuel x h HR Hx)
    as (r & h' & Hr & HR' & Ha).
  destruct (total_witness N g pec n Hok fuel Hfuel Hn x h (proj1 HR)) as [Hf _].
  rewrite Hr in *. by destruct Ha as [->|(v & -> & Hv)].
Qed.
Lemma lamport_runs bk D E x : is_Some (g !! x) →
  hoare (R bk D E) (lamportTimestamp fuel x) (λ _, R bk D E) (λ _, False).
Proof.
  intros [ex Hx] h HR.
  destruct (lamport_cases N g pec n Hok fuel x h (proj1 HR)) as (r & h' & Hr & _ & Hres).
  pose proof (lamport_fuel N g pec n Hok fuel x h (fueled_all g pec n Hok fuel Hfuel Hn x) (proj1 HR))
    as Hf.
  pose proof (steady_lamport ps hex bk N g pec n L all D E Hok fuel x h HR) as HR'.
  rewrite Hr in *. simpl in *. destruct r; simpl in *; congruence || done.
Qed.

(** The round of an event is written in the event, *)
Lemma mut_round bk D E x r h : R bk D E h →
  R bk D (E ∪ {[x]}) (set_Store (mutEvent x (λ ev, SetRound ev r) (hg_Store h)) h).
Proof.
  intros [HI (Hps & Htab & Hev & Hrest)]. split.
  { revert h HI Hps Htab Hev Hrest. intros h HI _ _ _ _. revert HI.
    by apply (stable_mutEvent N g pec n x (λ ev, SetRound ev r)). }
  destruct (mutEvent_law x (λ ev, SetRound ev r) (hg_Store h) (proj1 HI)) as (_ & Hv).
  unfold ext, booked, hv in *. simpl. rewrite Hv. simpl. do 2 (split; [done|]). split; [|done].
  intros y ey. destruct (decide (y = x)) as [->|Hne].
  - rewrite lookup_alter_eq. intros (ev & He & ->)%fmap_Some. destruct (Hev x ev He) as (Hfd & _ & Hrr).
    split; [done|]. split; [|exact Hrr]. simpl. split; [set_solver|eauto].
  - rewrite lookup_alter_ne by done. intros Hy. destruct (Hev y ey Hy) as (Hfd & Hr & Hrr).
    split; [done|]. split; [|done]. rewrite Hr. set_solver.
Qed.

(** and then in the round. *)
Definition slot bk D E r o h : Prop := R bk D E h ∧ v_rounds (hv h) !! r = o.
Lemma AddCreatedEvent_at ri x w y : CreatedEvents ri !! x = None →
  CreatedEvents (AddCreatedEvent ri x w) !! y =
    if decide (y = x) then Some (mkRE w Undefined) else CreatedEvents ri !! y.
Proof.
  intros Hx. unfold AddCreatedEvent. rewrite Hx. simpl. case_decide as Hd.
  - rewrite Hd. apply lookup_insert_eq.
  - by rewrite lookup_insert_ne.
Qed.
Lemma AddCreatedEvent_rest ri x w : CreatedEvents ri !! x = None →
  ri_decided (AddCreatedEvent ri x w) = ri_decided ri ∧
  ReceivedEvents (AddCreatedEvent ri x w) = ReceivedEvents ri.
Proof. intros Hx. unfold AddCreatedEvent. by rewrite Hx. Qed.
Lemma rounds_ok_add D m r ri x w :
  rounds_ok ps g L D m → default NewRoundInfo (m !! r) = ri → x ∉ D → L !! x = Some (r, w) →
  rounds_ok ps g L (D ∪ {[x]}) (<[r := AddCreatedEvent ri x w]> m).
Proof.
  intros (H1 & H2 & H3 & H4 & H5 & H6) Hri Hx HLx.
  assert (∀ y re, CreatedEvents ri !! y = Some re → m !! r = Some ri) as Hin.
  { intros y re Hy. destruct (m !! r) as [ri0|]; simpl in Hri; [congruence|]. subst ri. done. }
  assert (CreatedEvents ri !! x = None) as Hnone.
  { destruct (CreatedEvents ri !! x) as [re|] eqn:Hre; [|done].
    destruct (H1 r ri x re (Hin _ _ Hre) Hre). done. }
  split; [|split; [|split; [|split; [|split]]]].
  - intros r0 ri0 y re. destruct (decide (r0 = r)) as [->|Hne].
    + rewrite lookup_insert_eq. intros Heq. apply (inj Some) in Heq as <-.
      rewrite (AddCreatedEvent_at ri x w y Hnone). case_decide as Hd.
      * intros [= <-]. subst y. split; [set_solver|done].
      * intros Hy. destruct (H1 r ri y re (Hin _ _ Hy) Hy). split; [set_solver|done].
    + rewrite lookup_insert_ne by done. intros Hr0 Hy. destruct (H1 r0 ri0 y re Hr0 Hy).
      split; [set_solver|done].
  - intros y r0 w0 Hy HLy. destruct (decide (y = x)) as [->|Hyx].
    + rewrite HLx in HLy. injection HLy as <- <-. eexists _, _. rewrite lookup_insert_eq.
      split; [done|]. rewrite (AddCreatedEvent_at ri x w x Hnone). by case_decide.
    + destruct (H2 y r0 w0) as (ri0 & re & Hr0 & Hre & Hw); [set_solver|done|].
      destruct (decide (r0 = r)) as [->|Hne].
      * eexists _, re. rewrite lookup_insert_eq. split; [done|].
        rewrite (AddCreatedEvent_at ri x w y Hnone), decide_False by done.
        rewrite Hr0 in Hri. simpl in Hri. by subst ri0.
      * rewrite lookup_insert_ne by done. eauto.
  - intros r0 ri0. destruct (decide (r0 = r)) as [->|Hne].
    + rewrite lookup_insert_eq. intros Heq. apply (inj Some) in Heq as <-. intros He.
      pose proof (AddCreatedEvent_at ri x w x Hnone) as Hat. rewrite He, lookup_empty in Hat.
      by case_decide.
    + rewrite lookup_insert_ne by done. apply H3.
  - intros r0 ri0 y re. destruct (decide (r0 = r)) as [->|Hne].
    + rewrite lookup_insert_eq. intros Heq. apply (inj Some) in Heq as <-.
      rewrite (AddCreatedEvent_at ri x w y Hnone). case_decide as Hd; [by intros [= <-]|].
      intros Hy. by apply (H4 r ri); [apply (Hin y re)|].
    + rewrite lookup_insert_ne by done. apply H4.
  - intros r0 ri0. destruct (decide (r0 = r)) as [->|Hne]; [|rewrite lookup_insert_ne by done; apply H5].
    rewrite lookup_insert_eq. intros Heq. apply (inj Some) in Heq as <-.
    rewrite (proj1 (AddCreatedEvent_rest ri x w Hnone)). intros Hd. assert (m !! r = Some ri) as Hmr.
    { destruct (m !! r) as [ri0|]; simpl in Hri; [congruence|]. by subst ri. }
    destruct (H5 r ri Hmr Hd) as (S & HS & Hcl & Hdec & Hz). exists S. do 2 (split; [done|]).
    split; [|done]. intros y Hy HLy. destruct (Hdec y Hy HLy) as (re & Hre & Hf). exists re.
    split; [|done]. rewrite (AddCreatedEvent_at ri x w y Hnone), decide_False; congruence.
  - intros r0 ri0 y. destruct (decide (r0 = r)) as [->|Hne]; [|rewrite lookup_insert_ne by done; apply H6].
    rewrite lookup_insert_eq. intros Heq. apply (inj Some) in Heq as <-.
    rewrite (proj2 (AddCreatedEvent_rest ri x w Hnone)). intros Hy. apply (H6 r ri); [|done].
    destruct (m !! r) as [ri0|]; simpl in Hri; [congruence|]. subst ri. set_solver.
Qed.
Lemma slot_SetRound bk D E r o x w : x ∉ D → D ∪ {[x]} ⊆ dom g → L !! x = Some (r, w) →
  hoare (slot bk D E r o) (onStore (SetRoundInfo r (AddCreatedEvent (default NewRoundInfo o) x w)))
    (λ _, R bk (D ∪ {[x]}) E) (λ _, False).
Proof.
  intros Hx Hsub HLx h [[HI (Hps & Htab & Hev & Hrd & Hbk & Hlb)] Ho].
  set (ri := AddCreatedEvent (default NewRoundInfo o) x w).
  pose proof (stable_SetRound N g pec n r ri h HI) as HI'.
  destruct (SetRound_law r ri (hg_Store h) (proj1 HI)) as (Hr & _ & rds & (_ & _ & Hb & _) & Hv).
  rewrite Hb in Hv.
  2:{ right. apply rounds_small in Hrd. destruct HI as (_ & HNv & _). unfold hv in HNv.
    rewrite HNv. apply subseteq_size in Hsub.
    rewrite size_dom, size_union, size_singleton in Hsub by set_solver. unfold hv in Hrd. lia. }
  assert (CreatedEvents (default NewRoundInfo o) !! x = None) as Hnone.
  { destruct o as [ri0|]; [|done]. simpl. destruct (CreatedEvents ri0 !! x) as [re|] eqn:Hre; [|done].
    destruct (proj1 Hrd r ri0 x re Ho Hre). done. }
  unfold onStore, zoom in *. destruct (SetRoundInfo r ri (hg_Store h)) as [res s']. simpl in *.
  subst res. split; [done|]. unfold ext, hv in *. simpl. rewrite Hv. simpl.
  split; [done|]. split; [done|]. split; [done|].
  split; [apply rounds_ok_add; [done|by rewrite Ho|done..]|]. split; [|done].
  destruct (AddCreatedEvent_rest (default NewRoundInfo o) x w Hnone) as [Hd Hrec].
  destruct Hbk as (H1 & H2 & H3 & H4 & H5 & H6). unfold booked, hv in *. simpl. rewrite Hv. simpl.
  split; [|do 3 (split; [done|]); split].
  - intros r0. rewrite H1. destruct (decide (r0 = r)) as [->|Hne]; [|by rewrite lookup_insert_ne].
    rewrite lookup_insert_eq, Ho. simpl. unfold ri. rewrite Hrec. by destruct o.
  - intros r0 Hr0. destruct (H5 r0 Hr0) as (ri0 & Hri0 & Hd0). destruct (decide (r0 = r)) as [->|Hne].
    + rewrite lookup_insert_eq. exists ri. split; [done|]. unfold ri. rewrite Hd, <-Ho, Hri0. done.
    + rewrite lookup_insert_ne by done. eauto.
  - intros r0 Hr0. destruct (decide (r0 = r)) as [->|Hne]; [lia|].
    rewrite lookup_insert_ne in Hr0 by done. specialize (H6 r0 Hr0). lia.
Qed.
Lemma slot_untouched {A} bk D E r o (m : H A) (Q : A → Hashgraph St → Prop) :
  untouched rd m → hoare (R bk D E) m (λ a h, R bk D E h ∧ Q a h) (λ _, False) →
  hoare (slot bk D E r o) m (λ a h, slot bk D E r o h ∧ Q a h) (λ _, False).
Proof.
  intros Hu Hm h [HR Hr]. specialize (Hm h HR). destruct (Hu h (proj1 (proj1 HR))) as [_ Heq].
  assert (v_rounds (hv (m h).2) !! r = o) as Hr'.
  { unfold hv in *. unfold rd in Heq. congruence. }
  unfold slot. destruct (m h) as [[] h']; [|done..]. destruct Hm. done.
Qed.
Lemma slot_getOrNewRound bk D E r :
  hoare (R bk D E) (getOrNewRound r)
    (λ bri h, ∃ o, bri.2 = default NewRoundInfo o ∧ slot bk D E r o h) (λ _, False).
Proof.
  intros h HR. pose proof (steady_GetRound ps hex bk N g pec n L all D E r h HR) as HR'.
  destruct (GetRound_law r (hg_Store h) (proj1 (proj1 HR))) as (_ & Hv & Hf).
  unfold getOrNewRound, bind, try. unfold onStore, zoom in *.
  destruct (GetRoundInfo r (hg_Store h)) as [res s']. simpl in *.
  destruct (v_rounds (store_view (hg_Store h)) !! r) as [ri|] eqn:Hri; simpl in Hf.
  - subst res. simpl. exists (Some ri). split; [done|]. split; [done|]. unfold hv. simpl. by rewrite Hv.
  - destruct Hf as (err & -> & ->). simpl. exists None. split; [done|]. split; [done|].
    unfold hv. simpl. by rewrite Hv.
Qed.

(** ** The queue of rounds

    Rounds below [k] have been processed, and are decided; the others are
    queued, and marked in the queue only if they are decided. *)
Definition set_queue (q : PendingRoundsCache) (bk : Book) : Book :=
  mkBook (bk_received bk) (bk_waiting bk) q (bk_frames bk) (bk_decided bk).
Definition lined_up (k : Z) D bk : Prop :=
  prc_wf (bk_queue bk) ∧
  (∀ r, Queued (bk_queue bk) r = true ↔ k ≤ r ∧ ∃ x w, x ∈ D ∧ L !! x = Some (r, w)) ∧
  (∀ r, 0 ≤ r < k → r ∈ bk_decided bk) ∧
  (∀ pr, pr ∈ sortedItems (bk_queue bk) → pr_Decided pr = true → pr_Index pr ∈ bk_decided bk).

Lemma Queued_Set c pr r : Queued (PRC_Set c pr) r = bool_decide (r = pr_Index pr) || Queued c r.
Proof.
  unfold Queued, PRC_Set. simpl. case_bool_decide as Hr.
  - by rewrite Hr, lookup_insert_eq.
  - by rewrite lookup_insert_ne.
Qed.
Lemma elem_of_Set c pr pr' : pr' ∈ sortedItems (PRC_Set c pr) ↔ pr' ∈ sortedItems c ∨ pr' = pr.
Proof. simpl. rewrite merge_sort_Permutation, elem_of_app, list_elem_of_singleton. done. Qed.

(** Queueing the round of a new event. *)
Definition queue_round (r : Z) (decided : bool) bk : Book :=
  if negb (Queued (bk_queue bk) r) && negb decided
  then set_queue (PRC_Set (bk_queue bk) (mkPR r false)) bk else bk.
Lemma lined_up_add k D bk E r o x w h :
  lined_up k D bk → slot bk D E r o h → L !! x = Some (r, w) →
  lined_up k (D ∪ {[x]}) (queue_round r (ri_decided (default NewRoundInfo o)) bk).
Proof.
  intros (Hwf & Hq & Hk & Hdec) [[_ (_ & _ & _ & Hrd & Hbk & _)] Ho] HLx.
  assert (∀ r0, (∃ y v, y ∈ D ∪ {[x]} ∧ L !! y = Some (r0, v)) ↔
    r0 = r ∨ ∃ y v, y ∈ D ∧ L !! y = Some (r0, v)) as Hrec.
  { intros r0. split.
    - intros (y & v & [Hy|Hy%elem_of_singleton]%elem_of_union & HLy); [eauto|]. left. congruence.
    - intros [->|(y & v & Hy & HLy)]; [exists x, w|exists y, v]; (split; [set_solver|done]). }
  assert (∀ ri, o = Some ri → ∃ y v, y ∈ D ∧ L !! y = Some (r, v)) as Hold.
  { intros ri ->. destruct (map_choose _ (proj1 (proj2 (proj2 Hrd)) r ri Ho)) as (y & re & Hy).
    destruct (proj1 Hrd r ri y re Ho Hy). eauto. }
  unfold queue_round. destruct (Queued (bk_queue bk) r) eqn:Hqr; simpl.
  { split; [done|]. split; [|done]. intros r0. rewrite Hq, Hrec. apply Hq in Hqr. naive_solver. }
  destruct (ri_decided (default NewRoundInfo o)) eqn:Hd; simpl.
  { split; [done|]. split; [|done]. intros r0. rewrite Hq, Hrec.
    destruct o as [ri|]; [|done]. specialize (Hold ri eq_refl). naive_solver. }
  assert (k ≤ r) as Hkr.
  { destruct (decide (k ≤ r)) as [|Hlt]; [done|]. exfalso.
    assert (r ∈ bk_decided bk) as Hin.
    { apply Hk. pose proof (proj1 (proj2 HL) x _ _ HLx). lia. }
    destruct Hbk as (_ & _ & _ & _ & H5 & _). destruct (H5 r Hin) as (ri & Hri & Hdi).
    assert (o = Some ri) as -> by congruence. simpl in Hd. congruence. }
  split; [by apply PRC_Set_wf|]. split; [|split; [done|]].
  - intros r0. simpl. rewrite Queued_Set, orb_true_iff, bool_decide_eq_true, Hq, Hrec. simpl.
    split; [intros [->|[? ?]]; auto|]. intros [? [->|?]]; auto.
  - intros pr. simpl bk_queue. rewrite elem_of_Set. intros [Hpr| ->]; [by apply Hdec|done].
Qed.

Definition RQ bk k D h : Prop :=
  ∃ q, R (set_queue q bk) D D h ∧ lined_up k D (set_queue q bk).

(** The round of [x], recorded in the round and with the event. *)
Lemma divide_new bk k D x (ev : Event) : x ∉ D → D ∪ {[x]} ⊆ dom g → ready g all D x →
  lined_up k D bk →
  hoare (R bk D D)
    (roundNumber <- round fuel x ;;
     modify (λ h, set_Store (mutEvent x (λ e, SetRound e roundNumber) (hg_Store h)) h) ;;;
     ri <- getOrNewRound roundNumber ;;
     let roundInfo := ri.2 in
     h <- get ;;
     (if negb (Queued (PendingRounds h) roundNumber) && negb (ri_decided roundInfo) &&
         (match roundLowerBound h with None => true | Some lb => lb <? roundNumber end)
      then modify (set_PendingRounds (PRC_Set (PendingRounds h) (mkPR roundNumber false)))
      else ret tt) ;;;
     w <- witness fuel x ;;
     onStore (SetRoundInfo roundNumber (AddCreatedEvent roundInfo x w)) ;;;
     ret (true, SetRound ev roundNumber))
    (λ r h, RQ bk k (D ∪ {[x]}) h ∧ ∃ rn, r.2 = SetRound ev rn) (λ _, False).
Proof.
  intros Hx Hsub Hrd Hline. eapply hoare_bind; [by apply (round_runs bk D D x)|]. intros r. simpl.
  apply hoare_pure. intros Hr.
  apply (hoare_bind _ (λ _, R bk D (D ∪ {[x]}))); [apply hoare_modify; intros h; apply mut_round|].
  intros []. eapply hoare_bind; [apply slot_getOrNewRound|]. intros [known ri]. simpl.
  assert (∃ w, L !! x = Some (r, w)) as [w0 HLx].
  { destruct (L !! x) as [[r0 w0]|]; simpl in *; [|done]. exists w0. congruence. }
  intros h (o & -> & Hh). pose proof (lined_up_add k D bk (D ∪ {[x]}) r o x w0 h Hline Hh HLx) as Hline'.
  set (d := ri_decided (default NewRoundInfo o)) in *.
  unfold bind at 1, get. destruct (Hh) as [[_ (_ & _ & _ & _ & (_ & _ & Hq & _) & Hlb)] _].
  rewrite Hq, Hlb, andb_true_r. set (bk' := queue_round r d bk) in *.
  assert (hoare (E:=error) (slot bk D (D ∪ {[x]}) r o)
    (if negb (Queued (bk_queue bk) r) && negb d
     then modify (set_PendingRounds (PRC_Set (bk_queue bk) (mkPR r false))) else ret tt)
    (λ _, slot bk' D (D ∪ {[x]}) r o) (λ _, False)) as Hqueue.
  { unfold bk', queue_round. destruct (_ && _); [|by apply hoare_ret].
    apply hoare_modify. intros h1 [[HI (? & ? & ? & ? & (? & ? & _ & ?) & ?)] Ho].
    split; [|exact Ho]. split; [exact HI|]. do 4 (split; [done|]). split; [|done]. done. }
  revert h Hh Hq Hlb. intros h Hh _ _. revert h Hh.
  eapply hoare_bind; [exact Hqueue|]. intros []. eapply hoare_bind.
  { apply slot_untouched; [apply untouched_witness|]. by apply witness_runs. }
  intros w. simpl. apply hoare_pure. intros Hw.
  eapply hoare_bind; [apply slot_SetRound; [done|done|]|].
  { rewrite HLx in *. simpl in Hw. congruence. }
  intros []. apply hoare_ret. intros h HR. split; [|by exists r].
  unfold bk', queue_round in *. destruct (_ && _); [eexists; done|]. exists (bk_queue bk).
  by destruct bk.
Qed.

Lemma divide_event bk k D x : is_Some (g !! x) → D ⊆ dom g → ready g all D x →
  hoare (RQ bk k D) (divideRound_event fuel x) (λ _, RQ bk k (D ∪ {[x]})) (λ _, False).
Proof.
  intros Hx HD Hrd h0 (q & HR0 & Hline). revert h0 HR0. set (bkq := set_queue q bk).
  unfold divideRound_event.
  apply (hoare_bind _ (λ ev h, R bkq D D h ∧ g !! x = Some (skeleton ev) ∧ event_ok ps g L all D x ev ∧
    fd_sound g x (ev_firstDescendants ev))).
  { intros h HR.
    destruct (GetEvent_exact ps hex bkq N g pec n L all D D x h HR) as (r & h' & -> & HR' & Hr).
    destruct r as [ev|err| |]; [done| |done..]. rewrite Hr in Hx. by destruct Hx. }
  intros ev. apply hoare_pure. intros (Hgx & (Hfd & Hround & Hrr) & Hsound).
  assert (Hex ev = x) as Hhx by (rewrite <-skeleton_Hex; by eapply (dag_hex _ _ _ Hok)).
  set (D' := D ∪ {[x]}).
  apply (hoare_bind _ (λ r h, RQ bk k D' h ∧ ∃ rn, ev_round r.2 = Some rn ∧ skeleton r.2 = skeleton ev ∧
    ev_firstDescendants r.2 = ev_firstDescendants ev ∧ ev_roundReceived r.2 = ev_roundReceived ev)).
  { destruct (ev_round ev) as [rn|] eqn:Hrn.
    - assert (D' = D) as -> by (assert (x ∈ D) by (apply Hround; eauto); apply set_eq; set_solver).
      apply hoare_ret. intros h HR. split; [by exists q|]. by exists rn.
    - assert (x ∉ D) as Hnx by (intros Hin; apply Hround in Hin; by destruct Hin).
      eapply hoare_conseq; [apply (divide_new bkq k D x ev)|..]; try done.
      + intros y [Hy|Hy]%elem_of_union; [auto|].
        apply elem_of_singleton in Hy as ->. by apply elem_of_dom.
      + intros [b ev1] h [(q' & HR & Hl) [rn Hev1]]. split; [by exists q'|]. exists rn. simpl in *.
        by subst ev1. }
  intros [b1 ev1]. simpl. apply hoare_pure. intros (rn & Hrn & Hsk & Hfd1 & Hrr1).
  intros h (q' & HR & Hline'). revert h HR. set (bk' := set_queue q' bk).
  apply (hoare_conseq _ (R bk' D' D') _ (λ _, R bk' D' D') _ (λ _, False)); [|done|by exists q'|done].
  apply (hoare_bind _ (λ r h, R bk' D' D' h ∧ ev_round r.2 = Some rn ∧ skeleton r.2 = skeleton ev ∧
    ev_firstDescendants r.2 = ev_firstDescendants ev ∧ ev_roundReceived r.2 = ev_roundReceived ev)).
  { destruct (ev_lamportTimestamp ev1); [by apply hoare_ret|].
    eapply hoare_bind; [by apply lamport_runs|]. intros lt.
    apply (hoare_bind _ (λ _, R bk' D' D')); [|intros []; by apply hoare_ret].
    apply hoare_modify. intros h HR.
    by apply (steady_mutEvent ps hex bk' N g pec n L all D' D' x (λ e, SetLamportTimestamp e lt)); [|auto|]. }
  intros [b2 ev2]. simpl. apply hoare_pure. intros (Hrn2 & Hsk2 & Hfd2 & Hrr2).
  assert (Hex ev2 = x) as Hhx2 by (by rewrite <-skeleton_Hex, Hsk2, skeleton_Hex).
  destruct b2; [|by apply hoare_ret].
  apply (hoare_bind _ (λ _, R bk' D' D')); [|intros ?; by apply hoare_ret].
  eapply hoare_conseq; [apply (hoare_try _ (λ _, R bk' D' D') (λ _, False)),
    (SetEvent_runs ps hex bk' N g pec n L all D' D' ev2)|done|by intros []|done];
    rewrite ?Hhx2; [by rewrite Hsk2| |by rewrite Hfd2].
  split; [|split; [rewrite Hrn2; unfold D'; split; [set_solver|eauto]|by rewrite Hrr2]].
  unfold fd_exact in *. rewrite Hfd2.
  assert (∀ ek, marks g L ek ev2 = marks g L ek ev) as Hm.
  { intros ek. change (marks g L ek ev2) with (marks g L ek (skeleton ev2)). by rewrite Hsk2. }
  by setoid_rewrite Hm.
Qed.
End divide.
End divide_rounds.

(** ** Rounds that are decided are marked in the queue *)
Definition mark (ds : gset Z) (bk : Book) : Book :=
  mkBook (bk_received bk) (bk_waiting bk) (bk_queue bk) (bk_frames bk) (bk_decided bk ∪ ds).
Lemma Queued_Update c ds r : Queued (PRC_Update c ds) r = Queued c r.
Proof.
  unfold PRC_Update. revert c. induction ds as [|d ds IH]; intros c; simpl; [done|]. rewrite IH.
  unfold mark_decided. destruct (prc_items c !! d) as [pr|] eqn:Hd; [|done].
  unfold Queued. simpl. destruct (decide (r = d)) as [->|Hne].
  - by rewrite lookup_insert_eq, Hd.
  - by rewrite lookup_insert_ne.
Qed.
Lemma Decided_Update c ds pr : pr ∈ sortedItems (PRC_Update c ds) → pr_Decided pr = true →
  pr ∈ sortedItems c ∨ pr_Index pr ∈ ds.
Proof.
  unfold PRC_Update. revert c. induction ds as [|d ds IH]; intros c; simpl; [by left|].
  intros Hin Hd. destruct (IH _ Hin Hd) as [Hin'|]; [|right; set_solver].
  unfold mark_decided in Hin'. destruct (prc_items c !! d); [|by left].
  simpl in Hin'. apply list_elem_of_fmap in Hin' as (pr0 & -> & Hpr0).
  destruct (Z.eqb_spec (pr_Index pr0) d) as [Heq|Hne]; [right; simpl; set_solver|by left].
Qed.
Lemma lined_up_decide L k D bk ds : lined_up L k D bk →
  lined_up L k D (set_queue (PRC_Update (bk_queue bk) ds) (mark (list_to_set ds) bk)).
Proof.
  intros (Hwf & Hq & Hk & Hd). split; [by apply PRC_Update_wf|].
  split; [intros r; simpl; by rewrite Queued_Update|]. split; [simpl; set_solver|].
  intros pr Hin Hdec. simpl. destruct (Decided_Update _ _ _ Hin Hdec) as [Hin'|]; set_solver.
Qed.
Lemma lined_up_mark L k D bk ds : lined_up L k D bk → lined_up L k D (mark ds bk).
Proof.
  intros (Hwf & Hq & Hk & Hd). split; [done|]. split; [done|]. simpl.
  split; [intros r Hr; specialize (Hk r Hr)|intros pr Hin Hdec; specialize (Hd pr Hin Hdec)]; set_solver.
Qed.
