(* ===== verification/Walk.v ===== *)
(** * Recording the first descendants of a new event

    An event has been stored and its ancestors are about to learn of it.
    [but O] says that the new event has yet to be recorded with the events of
    [O]; the walk over its ancestors empties [O]: it stops where an older
    event of the same creator is recorded, or below a witness, and there is
    nothing left to record below. *)
From S2P Require Export Recorded.

Section walk_ancestors.
Context {KP : Keys} {CP : Codec} {RO : RangeOrder}.
Context {St : Type} {STO : Store St} {LAW : StoreLaws St}.
Abbreviation H := (GoM error (Hashgraph St)).
Context (ps : PeerSet) (hex : string) (Hhex : PS_Hex ps = Ok hex) (Hsm : 2 ≤ SuperMajority ps).
Implicit Types (h : Hashgraph St) (D O : gset string).

Section insertion.
Context (bk : Book) (N : Z) (g : gmap string Event) (pec : ParticipantEventsCache) (n : Z).
Context (L : gmap string (Z * bool)) (Hok : dag_ok g pec n) (HL : ledger ps g L).
Context (e : Event) (Hfresh : g !! Hex e = None) (pec' : ParticipantEventsCache).
Abbreviation g' := (<[Hex e := skeleton e]> g).
Abbreviation L' := (<[Hex e := round_of ps g' L (Hex e) (skeleton e)]> L).
Context (Hok' : dag_ok g' pec' (n + 1)).

Lemma ledger_new : ledger ps g' L'.
Proof. by apply (ledger_insert ps g pec n pec' L (skeleton e)). Qed.
Lemma L_old x : x ≠ Hex e → L' !! x = L !! x.
Proof. intros Hne. by rewrite lookup_insert_ne. Qed.
Lemma g_old x ex : g !! x = Some ex → x ≠ Hex e ∧ g' !! x = Some ex.
Proof. intros Hx. assert (x ≠ Hex e) by congruence. split; [done|]. by rewrite lookup_insert_ne. Qed.
Lemma known_old x : is_Some (L !! x) → x ≠ Hex e.
Proof. intros Hx ->. apply (proj1 HL) in Hx as [? ?]. congruence. Qed.
Lemma old_not_new k ek : g !! k = Some ek → sees ek (skeleton e) = false.
Proof.
  intros Hk. apply not_true_is_false. intros Hs.
  apply (sees_reach g' pec' (n + 1) k (Hex e)) in Hs;
    [|done|by apply g_old|apply lookup_insert_eq].
  apply (reach_old g pec n Hok (skeleton e) Hfresh) in Hs; [|eauto].
  destruct (reach_known g k (Hex e) ek Hk Hs). congruence.
Qed.
Lemma marks_old k ek ey : g !! k = Some ek → marks g' L' ek ey = marks g L ek ey.
Proof.
  intros Hk. apply eq_iff_eq_true. rewrite !marks_spec.
  split; (intros (Hs & Ho & Hv); split; [done|]; split; [done|]; intros v ev Hev Hc Hi Hse).
  - destruct (g_old v ev Hev) as [Hne Hev']. specialize (Hv v ev Hev' Hc Hi Hse).
    unfold wit in *. by rewrite L_old in Hv.
  - destruct (decide (v = Hex e)) as [->|Hne].
    + rewrite lookup_insert_eq in Hev. injection Hev as <-. by rewrite (old_not_new k ek Hk) in Hse.
    + rewrite lookup_insert_ne in Hev by done. unfold wit. rewrite L_old by done. by apply (Hv v ev).
Qed.
Lemma same_old : same_events g g'.
Proof. intros k e1 e2 H1 H2. destruct (g_old k e1 H1). congruence. Qed.
Lemma ss_old x y ex ey : g !! x = Some ex → g !! y = Some ey →
  ss_of ps g' L' ex ey = ss_of ps g L ex ey.
Proof.
  intros Hx Hy. destruct (g_old x ex Hx) as [Hxe Hx'], (g_old y ey Hy) as [_ Hy'].
  destruct (decide (y = x)) as [->|Hne].
  { assert (ey = ex) as -> by congruence.
    rewrite (ss_of_self ps Hsm g pec n L Hok x ex Hx).
    by apply (ss_of_self ps Hsm g' pec' (n + 1) L' Hok' x ex). }
  assert (same_below g L g' L' x) as Hb.
  { intros z Hz Hr. assert (reach g x z) as Hr'.
    { destruct Hr as [|Hr]; [done|].
      apply (reach_old g pec n Hok (skeleton e) Hfresh) in Hr; eauto. }
    destruct (reach_known _ _ _ _ Hx Hr') as [ez Hez]. rewrite L_old; [done|]. congruence. }
  apply eq_iff_eq_true. split.
  - apply (ss_of_le ps g' pec' (n + 1) L' g pec n L x ex ex y ey ey);
      auto using same_events_sym, same_old, same_below_sym.
  - apply (ss_of_le ps g pec n L g' pec' (n + 1) L' x ex ex y ey ey); auto using same_old.
Qed.

(** The new event, not yet recorded with the events of [O]. *)
Definition but O (k y : string) : Prop := k ≠ Hex e ∨ y ∉ O.
Abbreviation W O := (Rst ps hex bk N g' pec' (n + 1) L' (but O) (dom g) (dom g)).
Context (Hround : ev_round e = None) (Hrr : ev_roundReceived e = None).
Context (Hefd : ev_firstDescendants e = <[Creator e := mkCoord (Hex e) (Index e)]> ∅).

Lemma marks_self : marks g' L' (skeleton e) (skeleton e) = true.
Proof.
  pose proof (lookup_insert_eq g (Hex e) (skeleton e)) as He. apply marks_spec.
  split; [by apply (sees_reach g' pec' (n + 1) (Hex e) (Hex e))|]. split; [by left|].
  intros v ev Hv Hc Hi Hs. exfalso.
  apply (sees_reach g' pec' (n + 1) (Hex e) v) in Hs; [|done..].
  assert (v = Hex e) as ->.
  { eapply (reach_antisym g' pec' (n + 1) Hok' v (Hex e)); [done| |done].
    apply (chain_reach g' pec' (n + 1) Hok' v (Hex e) ev (skeleton e)); [done..|lia]. }
  assert (ev = skeleton e) as -> by congruence. lia.
Qed.
Lemma received_new x i : received ps g L x i → received ps g' L' x i.
Proof.
  apply (grow_received ps Hsm g pec n L Hok HL g' pec' (n + 1) L' Hok' ledger_new same_old).
  rewrite dom_insert. set_solver.
Qed.
Lemma events_new evs : skeleton <$> evs = g → events_ok ps g L all (dom g) evs →
  events_ok ps g' L' (but (dom g)) (dom g) (<[Hex e := e]> evs).
Proof.
  intros Hg Hev. apply map_Forall_insert_2.
  - split; [|split; [rewrite Hround, elem_of_dom, Hfresh; by split; intros []|by rewrite Hrr]].
    unfold fd_exact. rewrite Hefd. assert (Hex e ∉ dom g) as Hd by (by apply not_elem_of_dom). split.
    + intros p c. rewrite lookup_insert_Some, lookup_empty. intros [[<- <-]|[_ ?]]; [|done].
      exists (Hex e), (skeleton e). rewrite lookup_insert_eq. do 3 (split; [done|]).
      split; [by right|]. apply marks_self.
    + intros k ek Hk _ Hm. destruct (decide (k = Hex e)) as [->|Hne].
      * rewrite lookup_insert_eq in Hk. injection Hk as <-.
        eexists. rewrite lookup_insert_eq. split; [done|]. simpl. done.
      * rewrite lookup_insert_ne in Hk by done. apply marks_spec in Hm as [Hs _].
        change (sees ek (skeleton e) = true) in Hs. by rewrite (old_not_new k ek Hk) in Hs.
  - intros y ey Hy. destruct (Hev y ey Hy) as ([HA HB] & Hr & Hri).
    split; [|split; [done|intros i Hi; by apply received_new, Hri]]. split.
    + intros p c Hc. destruct (HA p c Hc) as (k & ek & Hk & ? & ? & _ & Hm). exists k, ek.
      destruct (g_old k ek Hk) as [Hne Hk']. do 3 (split; [done|]). split; [by left|].
      by rewrite (marks_old k).
    + intros k ek Hk HT Hm. destruct (decide (k = Hex e)) as [->|Hne].
      * destruct HT as [?|Hny]; [done|]. destruct Hny. apply elem_of_dom.
        rewrite <-Hg, lookup_fmap, Hy. eauto.
      * rewrite lookup_insert_ne in Hk by done. rewrite (marks_old k) in Hm by done. by apply (HB k).
Qed.
Lemma decided_new r x v : is_Some (g !! x) → decided ps g L r x v → decided ps g' L' r x v.
Proof.
  intros Hx. apply (decided_agree ps g pec n L g' pec' (n + 1) L'); try done.
  - apply ledger_new.
  - apply same_old.
  - rewrite dom_insert. set_solver.
Qed.
Lemma rounds_new m : rounds_ok ps g L (dom g) m → rounds_ok ps g' L' (dom g) m.
Proof.
  intros (H1 & H2 & H3 & H4 & H5 & H6). split; [|split; [|split; [done|split; [|split]]]].
  - intros r ri x re Hr Hx. destruct (H1 r ri x re Hr Hx) as [Hd HLx]. split; [done|].
    rewrite L_old; [done|]. apply known_old. eauto.
  - intros x r w [ex Hx]%elem_of_dom. rewrite L_old by (by apply (g_old x ex)).
    apply H2. apply elem_of_dom. eauto.
  - intros r ri x re Hr Hx. destruct (H1 r ri x re Hr Hx) as [Hd%elem_of_dom _].
    specialize (H4 r ri x re Hr Hx). unfold fame_ok in *.
    destruct (re_Famous re); [done|by apply decided_new..].
  - intros r ri Hr Hd. destruct (H5 r ri Hr Hd) as (S & HS & Hcl & Hdec & z & Hz & HLz).
    assert (∀ a, a ∈ S → is_Some (g !! a)) as HSg by (intros a Ha; by apply elem_of_dom, HS).
    exists S. split; [rewrite dom_insert; set_solver|]. split; [|split].
    + intros a b Ha Hab. apply (Hcl a b Ha), (reach_old g pec n Hok (skeleton e) Hfresh); auto.
    + intros x Hx. destruct (HSg x Hx) as [ex Hgx]. rewrite L_old by (by apply (g_old x ex)). auto.
    + exists z. split; [done|]. rewrite L_old; [done|]. apply known_old. eauto.
  - intros r ri x Hr Hx. by apply received_new, (H6 r ri).
Qed.
Lemma tables_new m : tables_ok ps hex g L m → tables_ok ps hex g' L' m.
Proof.
  assert (∀ {B} (f : Z * bool → B) x v, f <$> L !! x = Some v → f <$> L' !! x = Some v) as HLx.
  { intros B f x v Hv. rewrite L_old; [done|]. apply known_old. by destruct (L !! x). }
  intros ([? H1] & [? H2] & [? H3]). split; [split|split; split]; [done| |done| |done|].
  - intros x v Hx. by apply HLx, H1.
  - intros x v Hx. by apply HLx, H2.
  - intros k b Hk. destruct (H3 k b Hk) as (Hh & ex & ey & Hx & Hy & ->). split; [done|].
    exists ex, ey. split; [by apply g_old|]. split; [by apply g_old|].
    by rewrite (ss_old k.1.1 k.1.2).
Qed.
Lemma stored h h' : Rst ps hex bk N g pec (n + 1) L all (dom g) (dom g) h →
  Ist N g' pec' (n + 1) h' →
  (∃ s, h' = set_Store s h ∧
     hv h' = with_events (<[Hex e := e]> (v_events (hv h))) (with_pec pec' (hv h))) →
  W (dom g) h'.
Proof.
  intros [HI (Hps & Htab & Hev & Hrd & Hbk & Hlb)] HI' (s & -> & Hv). split; [done|].
  unfold ext. rewrite Hv. simpl. split; [done|]. split; [by apply tables_new|].
  split; [apply events_new; [apply HI|done]|]. split; [by apply rounds_new|].
  split; [|exact Hlb]. unfold booked in *. rewrite Hv. exact Hbk.
Qed.

(** ** Recording the new event with its ancestors *)
Lemma close O O' h : W O h → O' ⊆ O →
  (∀ y ey, y ∈ O → y ∉ O' → v_events (hv h) !! y = Some ey →
     marks g' L' (skeleton e) ey = true →
     ∃ c, ev_firstDescendants ey !! Creator e = Some c ∧ ec_Index c ≤ Index e) →
  W O' h.
Proof.
  intros [HI (Hps & Htab & Hev & Hrest)] Hsub Hnew. split; [done|]. do 2 (split; [done|]).
  split; [|done]. intros y ey Hy. destruct (Hev y ey Hy) as [[HA HB] Hr]. split; [|done]. split.
  - intros p c Hc. destruct (HA p c Hc) as (k & ek & ? & ? & ? & HT & ?). exists k, ek.
    do 3 (split; [done|]). split; [|done]. destruct HT; [by left|right; set_solver].
  - intros k ek Hk HT Hm. destruct (decide (k = Hex e)) as [->|Hne]; [|apply (HB k); [done|by left|done]].
    destruct HT as [?|Hny]; [done|]. rewrite lookup_insert_eq in Hk. injection Hk as <-.
    destruct (decide (y ∈ O)) as [Hin|Hout]; [by apply (Hnew y)|].
    apply (HB (Hex e) (skeleton e)); [apply lookup_insert_eq|by right|done].
Qed.

Lemma put_ok O ah a :
  event_ok ps g' L' (but O) (dom g) ah a → ev_firstDescendants a !! Creator e = None →
  marks g' L' (skeleton e) a = true →
  event_ok ps g' L' (but (O ∖ {[ah]})) (dom g) ah (put_firstDescendant e a).
Proof.
  intros [[HA HB] Hr] Hnone Hm. split; [|done]. split.
  - intros p c. simpl. rewrite lookup_insert_Some. intros [[<- <-]|[Hne Hc]].
    + exists (Hex e), (skeleton e). rewrite lookup_insert_eq. do 3 (split; [done|]).
      split; [right; set_solver|done].
    + destruct (HA p c Hc) as (k & ek & ? & ? & ? & _ & ?). exists k, ek.
      do 3 (split; [done|]). split; [right; set_solver|done].
  - intros k ek Hk _ Hmk. change (marks g' L' ek a = true) in Hmk. simpl.
    destruct (decide (k = Hex e)) as [->|Hne].
    + rewrite lookup_insert_eq in Hk. injection Hk as <-. eexists. rewrite lookup_insert_eq. done.
    + destruct (HB k ek Hk (or_introl Hne) Hmk) as (c & Hc & Hle). exists c. split; [|done].
      rewrite lookup_insert_ne; [done|]. intros Heq. congruence.
Qed.

Lemma GetEvent_at k h a h' : st_ok (hg_Store h) → onStore (GetEvent k) h = (Ok a, h') →
  v_events (hv h') !! k = Some a.
Proof.
  intros Hs Hrun. destruct (GetEvent_law k (hg_Store h) Hs) as (_ & Hv & Hf).
  unfold onStore, zoom in Hrun. destruct (GetEvent k (hg_Store h)) as [r s']. simpl in *.
  injection Hrun as -> <-. unfold hv. simpl. rewrite Hv.
  destruct (v_events _ !! k); simpl in Hf; [congruence|]. by destruct Hf as (? & ? & _).
Qed.

(** Writing the new first descendant, in the store and in the copy. *)
Lemma put_records O ah a : Hex a = ah → g' !! ah = Some (skeleton a) → reach g' (Hex e) ah →
  ev_firstDescendants a !! Creator e = None → marks g' L' (skeleton e) a = true →
  hoare (λ h, W O h ∧ v_events (hv h) !! ah = Some a ∧ event_ok ps g' L' (but O) (dom g) ah a ∧
              fd_sound g' ah (ev_firstDescendants a))
    (modify (λ h, set_Store (mutEvent ah (put_firstDescendant e) (hg_Store h)) h) ;;;
     onStore (SetEvent (put_firstDescendant e a)))
    (λ _, W (O ∖ {[ah]})) (λ _, False).
Proof.
  intros Hah Hga Hreach Hnone Hm h ([HI (Hps & Htab & Hev & Hrd & Hu)] & Hat & Hoka & Hfda).
  pose proof (put_ok O ah a Hoka Hnone Hm) as Hoka'.
  assert (∀ a', fd_sound g' ah (ev_firstDescendants a') →
    fd_sound g' ah (ev_firstDescendants (put_firstDescendant e a'))) as Hfd.
  { intros a'. apply put_fd_sound; [|done|]; rewrite lookup_insert_eq; [eauto|]. by intros z [= <-]. }
  destruct (mutEvent_law ah (put_firstDescendant e) (hg_Store h) (proj1 HI)) as (_ & Hv).
  pose proof (stable_mutEvent N g' pec' (n + 1) ah (put_firstDescendant e) (λ _, eq_refl) Hfd h HI)
    as HI1.
  set (h1 := set_Store (mutEvent ah (put_firstDescendant e) (hg_Store h)) h).
  assert (W (O ∖ {[ah]}) h1) as HW1.
  { split; [exact HI1|]. unfold ext, booked, h1, hv in *. simpl. rewrite Hv. simpl.
    split; [done|]. split; [done|]. split; [|done].
    intros y ey. destruct (decide (y = ah)) as [->|Hne].
    - rewrite lookup_alter_eq, Hat. intros [= <-]. done.
    - rewrite lookup_alter_ne by done. intros Hy. destruct (Hev y ey Hy) as [[HA HB] Hr].
      split; [|done]. split.
      + intros p c Hc. destruct (HA p c Hc) as (k & ek & ? & ? & ? & HT & ?). exists k, ek.
        do 3 (split; [done|]). split; [|done]. destruct HT; [by left|right; set_solver].
      + intros k ek Hk HT. apply (HB k ek Hk). destruct HT; [by left|right; set_solver]. }
  change ((modify _ ;;; onStore (SetEvent (put_firstDescendant e a))) h) with
    (onStore (SetEvent (put_firstDescendant e a)) h1).
  assert (Hex (put_firstDescendant e a) = ah) as Hhp by done.
  by apply (SetEvent_runs ps hex bk N g' pec' (n + 1) L' (but (O ∖ {[ah]})) (dom g) (dom g));
    rewrite ?Hhp; [..|apply Hfd|].
Qed.

Context (Hn : 0 ≤ n) (fuel : nat) (Hfuel : n + 2 < Z.of_nat fuel).
Lemma e_new : g' !! Hex e = Some (skeleton e).
Proof. apply lookup_insert_eq. Qed.
Lemma ready_old O x ex : g !! x = Some ex → ready g' (but O) (dom g) x.
Proof.
  intros Hx. destruct (g_old x ex Hx) as [_ Hx'].
  assert (∀ k, reach g' x k → k ∈ dom g) as Hr.
  { intros k Hk. apply (reach_old g pec n Hok (skeleton e) Hfresh) in Hk; [|eauto].
    apply elem_of_dom. by eapply reach_known. }
  split; [eauto|]. split; [|by auto]. intros k y Hk. left. intros ->.
  specialize (Hr _ Hk). apply elem_of_dom in Hr as [? ?]. congruence.
Qed.
Lemma witness_old O x ex : g !! x = Some ex →
  hoare (W O) (witness fuel x) (λ b h, W O h ∧ b = wit L' x) (λ _, False).
Proof.
  intros Hx h HW.
  destruct (witness_exact ps hex Hhex Hsm bk N g' pec' (n + 1) L' (but O) (dom g) (dom g) Hok' ledger_new
    fuel x h HW (ready_old O x ex Hx)) as (r & h' & Hr & HW' & Ha).
  destruct (total_witness N g' pec' (n + 1) Hok' fuel ltac:(lia) ltac:(lia) x h (proj1 HW)) as [Hf _].
  rewrite Hr in *. destruct Ha as [->|(v & -> & Hv)]; [done|]. split; [done|].
  unfold wit. by rewrite Hv.
Qed.

(** The events of one creator. *)
Definition chain (q : string) : gset string := dom (filter (λ '(_, ey), Creator ey = q) g').
Lemma elem_of_chain q y ey : g' !! y = Some ey → y ∈ chain q ↔ Creator ey = q.
Proof.
  intros Hy. unfold chain. rewrite elem_of_dom. split.
  - intros [ey' [Hy' Hc]%map_lookup_filter_Some]. congruence.
  - intros Hc. exists ey. by apply map_lookup_filter_Some.
Qed.
Lemma W_event O y ey h : W O h → v_events (hv h) !! y = Some ey → g' !! y = Some (skeleton ey).
Proof. intros [(_ & _ & <- & _) _] Hy. unfold graph. by rewrite lookup_fmap, Hy. Qed.

(** An older event of the creator, if it is recorded with [a], is recorded
    with all that the new event marks below [a]. *)
Lemma stops_at_recorded O ah a k ek y ey h :
  W O h → g' !! ah = Some a → Creator a ≠ Creator e → g' !! k = Some ek → Creator ek = Creator e →
  k ≠ Hex e → marks g' L' ek a = true → v_events (hv h) !! y = Some ey → Creator ey = Creator a →
  Index ey ≤ Index a → marks g' L' (skeleton e) ey = true →
  ∃ c, ev_firstDescendants ey !! Creator e = Some c ∧ ec_Index c ≤ Index e.
Proof.
  intros HW Ha Hca Hk Hck Hne Hm Hy Hcy Hiy Hme. pose proof (W_event _ _ _ _ HW Hy) as Hgy.
  assert (g !! k = Some ek) as Hk0 by (by rewrite lookup_insert_ne in Hk).
  assert (Index ek ≤ Index e) as Hik.
  { destruct (decide (Index ek ≤ Index e)) as [|Hgt]; [done|].
    assert (sees ek (skeleton e) = true) as Hs; [|by rewrite (old_not_new k ek Hk0) in Hs].
    apply (sees_reach g' pec' (n + 1) k (Hex e)); [done..|apply e_new|].
    apply (chain_reach g' pec' (n + 1) Hok' k (Hex e) ek (skeleton e)); [done|apply e_new|done|].
    change (Index (skeleton e)) with (Index e). lia. }
  assert (reach g' (Hex e) k) as Hek.
  { by apply (chain_reach g' pec' (n + 1) Hok' (Hex e) k (skeleton e) ek); [apply e_new|..]. }
  assert (marks g' L' ek ey = true) as Hmy.
  { apply marks_spec in Hm as (Hs & _ & _), Hme as (_ & _ & Hv). apply marks_spec. split; [|split].
    - apply (sees_reach g' pec' (n + 1) k y ek (skeleton ey)); [done..|].
      transitivity ah; [by apply (sees_reach g' pec' (n + 1) k ah ek a)|].
      by apply (chain_reach g' pec' (n + 1) Hok' ah y a (skeleton ey)).
    - right. congruence.
    - intros v ev Hev Hc Hi Hse. apply (Hv v ev); try done.
      apply (sees_reach g' pec' (n + 1) (Hex e) v); [done|apply e_new|done|].
      etrans; [exact Hek|]. by apply (sees_reach g' pec' (n + 1) k v ek ev). }
  destruct HW as [_ (_ & _ & Hev & _)]. destruct (Hev y ey Hy) as [[_ HB] _].
  destruct (HB k ek Hk (or_introl Hne) Hmy) as (c & Hc & Hle). exists c. rewrite Hck in Hc.
  split; [done|lia].
Qed.

(** The walk down the events of [q]: it has reached [ah], and no witness was
    met. *)
Section walk.
Context (q : string) (c : EventCoordinates) (Hq : q ≠ Creator e).
Context (Hc : ev_lastAncestors e !! q = Some c).
Definition above O (i : Z) : Prop :=
  (∀ y ey, g' !! y = Some ey → Creator ey = q → y ∈ O ↔ Index ey ≤ i) ∧
  (∀ v ev, g' !! v = Some ev → Creator ev = q → i < Index ev ≤ ec_Index c → wit L' v = false).
Definition reached O (ah : string) : Prop :=
  match g' !! ah with
  | Some a => Creator a = q ∧ Index a ≤ ec_Index c ∧ above O (Index a)
  | None => O ## chain q
  end.
Lemma e_sees ey : Creator ey = q → sees (skeleton e) ey = true ↔ Index ey ≤ ec_Index c.
Proof.
  intros <-. unfold sees. change (ev_lastAncestors (skeleton e)) with (ev_lastAncestors e).
  rewrite Hc. apply Z.leb_le.
Qed.
Lemma reached_marks O ah a : g' !! ah = Some a → reached O ah →
  reach g' (Hex e) ah ∧ marks g' L' (skeleton e) a = true ∧ ah ∈ O ∧ is_Some (g !! ah).
Proof.
  unfold reached. intros Ha Hr. rewrite Ha in Hr. destruct Hr as (Hcq & Hi & HO & Hw).
  assert (sees (skeleton e) a = true) as Hs by (by apply e_sees).
  split; [apply (sees_reach g' pec' (n + 1) (Hex e) ah (skeleton e) a); [done|apply e_new|done..]|].
  split; [|split; [by apply (HO ah a)|]].
  - apply marks_spec. split; [done|]. split; [right; rewrite Hcq; exact (not_eq_sym Hq)|].
    intros v ev Hv Hcv Hiv Hsv. apply (Hw v ev Hv); [congruence|]. split; [done|].
    apply e_sees; [congruence|done].
  - rewrite lookup_insert_ne in Ha; [eauto|]. intros <-. rewrite lookup_insert_eq in Ha.
    injection Ha as <-. by apply Hq.
Qed.
Lemma reached_parent O ah a : g' !! ah = Some a → reached O ah → wit L' ah = false →
  reached (O ∖ {[ah]}) (SelfParent a).
Proof.
  unfold reached. intros Ha Hr Hwa. rewrite Ha in Hr. destruct Hr as (Hcq & Hi & HO & Hw).
  assert (∀ y ey, g' !! y = Some ey → Creator ey = q → Index ey = Index a → y = ah) as Huniq.
  { intros y ey Hy Hcy Hiy. by apply (dag_unique _ _ _ Hok' y ah ey a); [..|congruence|]. }
  destruct (dag_self _ _ _ Hok' ah a Ha) as [Hsp|(p & Hp & Hcp & Hip)].
  - rewrite Hsp, (dag_empty_key _ _ _ Hok'). intros y Hy Hych. unfold chain in Hych.
    apply elem_of_dom in Hych as [ey [Hey Hcy]%map_lookup_filter_Some].
    apply elem_of_difference in Hy as [HyO Hyah]. apply (HO y ey Hey Hcy) in HyO.
    pose proof (dag_first _ _ _ Hok' ah y a ey Ha Hey Hsp ltac:(congruence)).
    apply Hyah, elem_of_singleton, (Huniq y ey); [done..|lia].
  - rewrite Hp. split; [congruence|]. split; [lia|]. split.
    + intros y ey Hy Hcy. rewrite elem_of_difference, elem_of_singleton, (HO y ey Hy Hcy). split.
      * intros [Hle Hne]. assert (Index ey ≠ Index a) by (intros ?; by apply Hne, (Huniq y ey)). lia.
      * intros Hle. split; [lia|]. intros ->. assert (ey = a) as -> by congruence. lia.
    + intros v ev Hv Hcv Hiv. destruct (decide (Index ev = Index a)) as [Heq|Hne].
      * by rewrite (Huniq v ev Hv Hcv Heq).
      * apply (Hw v ev Hv Hcv). lia.
Qed.

Lemma walk_records k ah : walk_fueled g' k ah → ∀ O, reached O ah →
  hoare (W O) (walk_descendants fuel k e ah) (λ _, W (O ∖ chain q)) (λ _, False).
Proof.
  revert ah. induction k as [|k IH]; intros ah Hf O Hr.
  { exfalso. unfold walk_fueled in Hf. destruct (g' !! ah) as [ea|] eqn:Hea; [|lia].
    destruct (dag_topo _ _ _ Hok' _ _ Hea). lia. }
  cbn [walk_descendants].
  apply (hoare_bind _ (λ r h, W O h ∧ match r with
    | inl a => g' !! ah = Some (skeleton a) ∧ v_events (hv h) !! ah = Some a ∧
        event_ok ps g' L' (but O) (dom g) ah a ∧ fd_sound g' ah (ev_firstDescendants a)
    | inr _ => g' !! ah = None end)).
  { intros h HW. unfold try.
    destruct (GetEvent_exact ps hex bk N g' pec' (n + 1) L' (but O) (dom g) (dom g) ah h HW)
      as (r & h' & Hrun & HW' & Hres).
    rewrite Hrun. destruct r as [a|err| |]; [|done..]. split; [done|]. destruct Hres as (? & ? & ?).
    split; [done|]. split; [|done]. by apply (GetEvent_at ah h a h'); [apply HW|]. }
  intros [a|err]; simpl.
  2:{ apply hoare_ret. intros h [HW Hnone]. unfold reached in Hr. rewrite Hnone in Hr.
      replace (O ∖ chain q) with O; [done|]. apply set_eq. set_solver. }
  assert (g' !! ah = Some (skeleton a) →
    hoare (λ h, W O h ∧ v_events (hv h) !! ah = Some a ∧ event_ok ps g' L' (but O) (dom g) ah a ∧
              fd_sound g' ah (ev_firstDescendants a))
      (match ev_firstDescendants a !! Creator e with
       | Some _ => ret tt
       | None =>
           modify (λ h, set_Store (mutEvent ah (put_firstDescendant e) (hg_Store h)) h) ;;;
           onStore (SetEvent (put_firstDescendant e a)) ;;;
           w <- try (witness fuel ah) ;;
           match w with
           | inl true => ret tt
           | _ => walk_descendants fuel k e (SelfParent (put_firstDescendant e a))
           end
       end) (λ _, W (O ∖ chain q)) (λ _, False)) as Hbody.
  2:{ intros h (HW & Ha & Hat & Hoka & Hfda). by apply (Hbody Ha). }
  intros Ha. pose proof (reached_marks O ah _ Ha Hr) as (Hreach & Hm & HahO & [a0 Ha0]).
  pose proof Hr as Hr'. unfold reached in Hr'. rewrite Ha in Hr'. destruct Hr' as (Hcq & _ & HO & _).
  assert (Hex a = ah) as Hah by (rewrite <-skeleton_Hex; by eapply (dag_hex _ _ _ Hok')).
  destruct (ev_firstDescendants a !! Creator e) as [c0|] eqn:Hfd.
  - apply hoare_ret. intros h (HW & Hat & [[HA _] _] & _).
    destruct (HA _ _ Hfd) as (k0 & ek & Hk0 & Hck & _ & [Hne|?] & Hmk); [|done].
    apply (close O); [done|set_solver|]. intros y ey HyO Hych Hey Hme.
    pose proof (W_event _ _ _ _ HW Hey) as Hgy.
    assert (Creator ey = q) as Hcy.
    { apply (elem_of_chain q y (skeleton ey) Hgy). set_solver. }
    apply (stops_at_recorded O ah (skeleton a) k0 ek y ey h); try done.
    + rewrite Hcq. done.
    + by rewrite Hcy, Hcq.
    + by apply (HO y (skeleton ey) Hgy Hcy).
  - apply hoare_assoc. eapply hoare_bind; [by apply (put_records O ah a)|]. intros []. simpl.
    apply (hoare_bind _ (λ b h, W (O ∖ {[ah]}) h ∧ b = inl (wit L' ah))).
    { intros h HW. pose proof (witness_old _ ah a0 Ha0 h HW) as Hw. unfold try.
      destruct (witness fuel ah h) as [[b| | |] h']; [|done..]. destruct Hw as [? ->]. done. }
    intros b. apply hoare_pure. intros ->. destruct (wit L' ah) eqn:Hwit.
    + apply hoare_ret. intros h HW. apply (close (O ∖ {[ah]})); [done| |].
      { assert (ah ∈ chain q) by (by apply (elem_of_chain q ah _ Ha)). set_solver. }
      intros y ey HyO Hych Hey Hme. pose proof (W_event _ _ _ _ HW Hey) as Hgy. exfalso.
      assert (Creator ey = q) as Hcy.
      { apply (elem_of_chain q y (skeleton ey) Hgy). set_solver. }
      apply elem_of_difference in HyO as [HyO Hyah]. apply (HO y (skeleton ey) Hgy Hcy) in HyO.
      apply marks_spec in Hme as (_ & _ & Hv).
      rewrite (Hv ah (skeleton a) Ha) in Hwit; [done|by rewrite Hcy| |].
      * destruct (decide (Index ey = Index a)) as [Heq|?]; [|change (Index ey < Index a);
          change (Index ey ≤ Index a) in HyO; lia].
        destruct Hyah. apply elem_of_singleton.
        by apply (dag_unique _ _ _ Hok' y ah (skeleton ey) (skeleton a)); [..|by rewrite Hcq|].
      * apply (sees_reach g' pec' (n + 1) (Hex e) ah); [done|apply e_new|done..].
    + assert (O ∖ chain q = (O ∖ {[ah]}) ∖ chain q) as ->.
      { assert (ah ∈ chain q) by (by apply (elem_of_chain q ah _ Ha)). apply set_eq. set_solver. }
      apply IH.
      * by apply (walk_fueled_parent g' pec' (n + 1) Hok' fuel k ah (skeleton a)).
      * by apply (reached_parent O ah (skeleton a)).
Qed.
End walk.

Lemma walk_start q c k O : ev_lastAncestors e !! q = Some c → walk_fueled g' (S k) (ec_Hash c) →
  Hex e ∉ O →
  (∀ y ey, g' !! y = Some ey → Creator ey = q → y ∈ O ↔ y ≠ Hex e ∧ sees (skeleton e) ey = true) →
  hoare (W O) (walk_descendants fuel (S k) e (ec_Hash c)) (λ _, W (O ∖ chain q)) (λ _, False).
Proof.
  intros Hc Hf HeO HO.
  destruct (dag_la_sound _ _ _ Hok' (Hex e) (skeleton e) q c e_new Hc) as (z & Hz & Hcz & Hiz & Hr).
  destruct (decide (q = Creator e)) as [->|Hq].
  - assert (ec_Hash c = Hex e) as Hhc.
    { apply (dag_unique _ _ _ Hok' (ec_Hash c) (Hex e) z (skeleton e) Hz e_new Hcz).
      change (Index (skeleton e)) with (Index e). rewrite Hiz.
      destruct (dag_la _ _ _ Hok' (Hex e) (Hex e) _ _ e_new e_new (rtc_refl _ _)) as (c' & Hc' & Hle).
      change (ev_lastAncestors e !! Creator e = Some c') in Hc'.
      assert (c' = c) as -> by congruence.
      change (Index e ≤ ec_Index c) in Hle.
      destruct (decide (Index e = ec_Index c)) as [|Hne]; [done|]. exfalso.
      assert (reach g' (ec_Hash c) (Hex e)) as Hr'.
      { apply (chain_reach g' pec' (n + 1) Hok' (ec_Hash c) (Hex e) z (skeleton e));
          [exact Hz|apply e_new|exact Hcz|]. change (Index (skeleton e)) with (Index e). lia. }
      assert (ec_Hash c = Hex e) as Heq by (by eapply (reach_antisym _ _ _ Hok' (ec_Hash c))).
      rewrite Heq, e_new in Hz. injection Hz as <-. by apply Hne. }
    rewrite Hhc. cbn [walk_descendants]. intros h HW. unfold bind at 1, try.
    destruct (GetEvent_exact ps hex bk N g' pec' (n + 1) L' (but O) (dom g) (dom g) (Hex e) h HW)
      as (r & h' & Hrun & HW' & Hres).
    rewrite Hrun. destruct r as [a|err| |]; [|by rewrite e_new in Hres|done..].
    destruct Hres as (Ha & [[_ HB] _] & _). rewrite e_new in Ha. apply (inj Some) in Ha.
    destruct (HB (Hex e) (skeleton e) e_new) as (c' & Hfd & _); [by right| |].
    { change (marks g' L' (skeleton e) (skeleton a) = true). rewrite <-Ha. apply marks_self. }
    change (ev_firstDescendants a !! Creator e = Some c') in Hfd. rewrite Hfd. simpl.
    apply (close O); [done|set_solver|]. intros y ey HyO Hych Hey Hme. exfalso.
    pose proof (W_event _ _ _ _ HW' Hey) as Hgy.
    apply marks_spec in Hme as (_ & [Hh|Hh] & _).
    + change (Hex e = Hex (skeleton ey)) in Hh. rewrite (dag_hex _ _ _ Hok' y _ Hgy) in Hh. congruence.
    + apply Hh. symmetry. apply (elem_of_chain (Creator e) y (skeleton ey) Hgy). set_solver.
  - apply (walk_records q c Hq Hc (S k)); [done|]. unfold reached. rewrite Hz.
    split; [done|]. split; [lia|]. split.
    + intros y ey Hy Hcy. rewrite (HO y ey Hy Hcy), (e_sees q c Hq Hc ey Hcy), Hiz.
      split; [tauto|]. intros Hle. split; [|done]. intros ->. rewrite e_new in Hy.
      injection Hy as <-. by apply Hq.
    + lia.
Qed.

Lemma walks_record l O : (∀ q c, (q, c) ∈ l → ev_lastAncestors e !! q = Some c) → NoDup l.*1 →
  Hex e ∉ O →
  (∀ q c y ey, (q, c) ∈ l → g' !! y = Some ey → Creator ey = q →
     y ∈ O ↔ y ≠ Hex e ∧ sees (skeleton e) ey = true) →
  hoare (W O) (forM l (λ '(_, c), walk_descendants fuel fuel e (ec_Hash c)))
    (λ _ h, ∃ O', W O' h ∧ O' ⊆ O ∧
       ∀ y ey, y ∈ O' → g' !! y = Some ey → Creator ey ∉ l.*1) (λ _, False).
Proof.
  revert O. induction l as [|[q c] l IH]; intros O Hl Hnd HeO HO.
  { apply hoare_ret. intros h HW. exists O. split; [done|]. split; [done|].
    intros y ey _ _. apply not_elem_of_nil. }
  unfold forM. cbn [foldM].
  csimpl in Hnd. apply NoDup_cons in Hnd as [Hql Hnd].
  apply (hoare_bind _ (λ _, W (O ∖ chain q))).
  { assert (∃ k, fuel = S k) as [k Hk] by (exists (pred fuel); lia). rewrite Hk at 2.
    apply walk_start; [apply Hl; set_solver| |done|].
    - unfold walk_fueled. destruct (g' !! ec_Hash c) as [ez|] eqn:Hez; [|lia].
      destruct (dag_topo _ _ _ Hok' _ _ Hez). lia.
    - intros y ey. apply (HO q c). set_solver. }
  intros []. change (foldM _ tt l) with
    (forM l (λ '(_, c), walk_descendants (St:=St) fuel fuel e (ec_Hash c))).
  eapply hoare_conseq; [apply (IH (O ∖ chain q))|..]; try done.
  - intros q' c' Hin. apply Hl. set_solver.
  - set_solver.
  - intros q' c' y ey Hin Hy Hcy. rewrite <-(HO q' c' y ey) by (try done; set_solver).
    rewrite elem_of_difference, (elem_of_chain q y ey Hy). split; [tauto|]. intros Hy'.
    split; [done|]. intros Heq. apply Hql, list_elem_of_fmap. exists (q', c'). split; [|done].
    simpl. congruence.
  - intros [] h (O' & HW & Hsub & HO'). exists O'. split; [done|]. split; [set_solver|].
    intros y ey Hy Hgy. csimpl. rewrite not_elem_of_cons. split; [|by apply (HO' y)].
    intros Heq. apply Hsub in Hy. apply elem_of_difference in Hy as [_ Hy]. apply Hy.
    by apply (elem_of_chain q y ey).
Qed.

(** All first descendants are recorded. *)
Lemma updateAncestor_records :
  hoare (W (dom g)) (updateAncestorFirstDescendant fuel e)
    (λ _, Rst ps hex bk N g' pec' (n + 1) L' all (dom g) (dom g)) (λ _, False).
Proof.
  set (O := dom (filter (λ '(_, ey), sees (skeleton e) ey = true) g)).
  assert (∀ y, y ∈ O ↔ ∃ ey, g !! y = Some ey ∧ sees (skeleton e) ey = true) as HO.
  { intros y. unfold O. rewrite elem_of_dom. split.
    - intros [ey ?%map_lookup_filter_Some]. eauto.
    - intros (ey & ?). exists ey. by apply map_lookup_filter_Some. }
  assert (∀ h, W (dom g) h → W O h) as Hstart.
  { intros h HW. apply (close (dom g)); [done| |].
    - intros y (ey & Hy & _)%HO. apply elem_of_dom. eauto.
    - intros y ey [ey' Hg]%elem_of_dom HnO Hey Hm. destruct HnO. apply HO.
      apply marks_spec in Hm as [Hs _]. exists (skeleton ey). split; [|done].
      pose proof (W_event _ _ _ _ HW Hey) as Hgy. by destruct (g_old y ey' Hg); simplify_eq. }
  eapply hoare_conseq; [apply (walks_record (range (ev_lastAncestors e)) O)|exact Hstart|..|done].
  - intros q c Hin. rewrite (range_perm (ev_lastAncestors e)) in Hin.
    by apply elem_of_map_to_list in Hin.
  - rewrite (range_perm (ev_lastAncestors e)). apply NoDup_fst_map_to_list.
  - intros (ey & Hy & _)%HO. congruence.
  - intros q c y ey _ Hy _. rewrite HO. split.
    + intros (ey' & Hg & Hs). destruct (g_old y ey' Hg). split; [done|]. congruence.
    + intros [Hne Hs]. rewrite lookup_insert_ne in Hy by done. eauto.
  - intros [] h (O' & HW & Hsub & HO'). 
    assert (O' = ∅) as ->.
    { apply set_eq. intros y. split; [|set_solver]. intros Hy.
      destruct (proj1 (HO y) (Hsub y Hy)) as (ey & Hg & Hs). destruct (g_old y ey Hg) as [_ Hy'].
      destruct (HO' y ey Hy Hy'). unfold sees in Hs.
      destruct (ev_lastAncestors (skeleton e) !! Creator ey) as [c|] eqn:Hc; [|done].
      rewrite (range_perm (ev_lastAncestors e)). apply list_elem_of_fmap. exists (Creator ey, c).
      split; [done|]. by apply elem_of_map_to_list. }
    destruct HW as [HI (Hps & Htab & Hev & Hrest)]. split; [done|]. do 2 (split; [done|]).
    split; [|done]. intros y ey Hy. destruct (Hev y ey Hy) as [[HA HB] Hr]. split; [|done]. split.
    + intros p c Hc. destruct (HA p c Hc) as (k & ek & ? & ? & ? & _ & ?). by exists k, ek.
    + intros k ek Hk _. apply (HB k ek Hk). right. set_solver.
Qed.
End insertion.
End walk_ancestors.
