(* ===== verification/Decisions.v ===== *)
(** * Decisions on fame and on the round received are those of the graph

    Once all events are recorded and divided into rounds, [DecideFame] records
    fames that the graph decides, a round whose witnesses are decided is
    settled, and [DecideRoundReceived] gives an event the round in which the
    graph receives it. *)
From S2P Require Export Divide.

Section decisions.
Context {KP : Keys} {CP : Codec} {RO : RangeOrder}.
Context {St : Type} {STO : Store St} {LAW : StoreLaws St}.
Abbreviation H := (GoM error (Hashgraph St)).
Context (ps : PeerSet) (hex : string) (Hhex : PS_Hex ps = Ok hex) (Hsm : 2 ≤ SuperMajority ps).
Context (N : Z) (g : gmap string Event) (pec : ParticipantEventsCache) (n : Z).
Context (L : gmap string (Z * bool)) (Hok : dag_ok g pec n) (HL : ledger ps g L) (fuel : nat).
Context (Hn : 0 ≤ n) (Hfuel : n < Z.of_nat fuel).
Implicit Types (h : Hashgraph St) (ri : RoundInfo) (bk : Book).

Lemma ready_all x : is_Some (g !! x) → ready g all (dom g) x.
Proof.
  intros Hx. split; [done|]. split; [done|]. intros y Hr _. destruct Hx as [ex Hx].
  apply elem_of_dom. by eapply reach_known.
Qed.

Hint Resolve ready_all : respects.
Hint Resolve steady_GetEvent steady_GetRound steady_GetBlock steady_GetFrame steady_SetBlock
  steady_AddConsensusEvent steady_mutBlock steady_readStore steady_readStoreR
  : respects.
Hint Extern 1 (respects _ (ancestor _ _)) => by apply steady_ancestor : respects.
Hint Extern 1 (respects _ (lamportTimestamp _ _)) => by apply steady_lamport : respects.
Hint Extern 1 (respects _ (stronglySee _ _ _)) =>
  by apply steady_stronglySee; auto using ready_all : respects.
Hint Extern 1 (respects _ (round _ _)) => by apply steady_round; auto using ready_all : respects.
Hint Extern 1 (respects _ (witness _ _)) => by apply steady_witness; auto using ready_all : respects.
Hint Extern 4 (respects _ (modify _)) =>
  first [apply steady_fields; done | apply steady_mutEvent; done | apply untouched_fields; done]
  : respects.
Ltac reads := unfold see_all, see, ss_witnesses; respects_go; try (by auto with respects).
Ltac hold := eapply hoare_bind; [apply holding_untouched; reads|].
Ltac keep := eapply hoare_bind; [apply hoare_Rst; reads|].

(** ** With one book *)
Section one_book.
Context (bk : Book).
Abbreviation Rst := (Recorded.Rst ps hex bk N g pec n L all (dom g) (dom g)).
Abbreviation steady := (respects (E:=error) (keeps Rst)).
Abbreviation holding := (Recorded.holding ps hex bk N g pec n L all (dom g) (dom g)).
Abbreviation same_round := (Recorded.same_round ps g L).
Abbreviation holding_SetRound := (Recorded.holding_SetRound ps hex bk N g pec n L all (dom g) (dom g)).
Abbreviation holding_mutRound := (Recorded.holding_mutRound ps hex bk N g pec n L all (dom g) (dom g)).
Abbreviation holding_untouched := (Recorded.holding_untouched ps hex bk N g pec n L all (dom g) (dom g)).
Abbreviation holding_GetRound := (Recorded.holding_GetRound ps hex bk N g pec n L all (dom g) (dom g)).
Abbreviation hoare_peers := (Recorded.hoare_peers ps hex bk N g pec n L all (dom g) (dom g)).

(** *** What the operations do to a round *)
Lemma SetFame_created r ri x f : is_Some (CreatedEvents ri !! x) → decided ps g L r x f →
  same_round r ri (SetFame ri x f).
Proof.
  intros [re Hre] Hd. split; [|done]. split; [|split; [by left|split; [done|by left]]].
  intros y. unfold SetFame. simpl.
  destruct (decide (y = x)) as [->|Hne].
  - rewrite lookup_insert_eq, Hre. split; [done|]. split.
    + intros re' [= <-]. right. unfold fame_ok. by destruct f.
    + intros _ _ _. eexists. split; [done|]. by destruct f.
  - rewrite lookup_insert_ne by done. eauto 10.
Qed.
Lemma count_decided_spec l c c' : count_decided l c = Some c' →
  (∀ x re, (x, re) ∈ l → re_Witness re = true → re_Famous re ≠ Undefined) ∧
  (c < c' → ∃ x re, (x, re) ∈ l ∧ re_Witness re = true ∧ re_Famous re ≠ Undefined).
Proof.
  revert c. induction l as [|[y e] l IH]; intros c; simpl.
  { intros [= ->]. split; [set_solver|lia]. }
  destruct (re_Witness e) eqn:Hw; simpl.
  - destruct (decide (re_Famous e = Undefined)) as [Hf|Hf].
    { by rewrite (bool_decide_eq_false_2 (_ ≠ _)), (bool_decide_eq_true_2 (_ = _)) by auto. }
    rewrite bool_decide_eq_true_2 by done. intros Hc. apply IH in Hc as [H1 _]. split; [|intros _; exists y, e; set_solver].
    intros x re [[= -> ->]|Hin]%elem_of_cons; [done|by apply (H1 x)].
  - intros Hc. apply IH in Hc as [H1 H2]. split.
    + intros x re [[= -> ->]|Hin]%elem_of_cons; [congruence|by apply (H1 x)].
    + intros Hlt. destruct (H2 Hlt) as (x & re & ? & ?). exists x, re. set_solver.
Qed.
(** There are witnesses in all the rounds below that of an event. *)
Lemma round_below y r w i : L !! y = Some (r, w) → 0 ≤ i < r → ∃ z, L !! z = Some (i, true).
Proof.
  clear Hn Hfuel. intros HLy Hi. remember (Z.to_nat (r - i)) as d eqn:Hd. revert y r w HLy Hi Hd.
  induction d as [|d IH]; intros y r w HLy Hi Hd; [lia|].
  assert (is_Some (g !! y)) as [ey Hy] by (apply HL; eauto).
  pose proof (round_quorum ps g pec n L Hok HL y ey r w Hy HLy ltac:(lia)) as Hq.
  destruct (set_choose_or_empty (seen_witnesses ps g L y ey (r - 1))) as [[z Hz]|He].
  - apply elem_of_seen in Hz as (ez & _ & _ & HLz & _).
    destruct (decide (i = r - 1)) as [->|Hne]; [eauto|]. apply (IH z (r - 1) true); [done|lia|lia].
  - apply size_empty_iff in He. lia.
Qed.
Lemma decided_above r x v : 0 ≤ r → decided ps g L r x v → ∃ z, L !! z = Some (r + 2, true).
Proof.
  clear Hn Hfuel. intros Hr (d & y & ey & Hd & _ & HLy & _). destruct (decide (d = 1%nat)) as [->|Hne]; [by exists y|].
  apply (round_below y _ true _ HLy). lia.
Qed.
(** A recorded fame was decided. *)
Lemma fame_decided r ri x re h : Rst h → holds r ri h → CreatedEvents ri !! x = Some re →
  re_Famous re ≠ Undefined →
  decided ps g L r x (bool_decide (re_Famous re = TTrue)) ∧ L !! x = Some (r, re_Witness re).
Proof.
  intros [_ (_ & _ & _ & (H1 & _ & _ & H4 & _) & _)] Hri Hre Hf.
  specialize (H1 r ri x re Hri Hre). specialize (H4 r ri x re Hri Hre). unfold fame_ok in H4.
  split; [|apply H1]. by destruct (re_Famous re).
Qed.
Lemma count_settles r ri c h : Rst h → holds r ri h →
  count_decided (range (CreatedEvents ri)) 0 = Some c → SuperMajority ps ≤ c → settled_by g L r ri.
Proof.
  intros HR Hri Hc Hle. destruct (count_decided_spec _ _ _ Hc) as [Hall Hex].
  assert (∀ x re, (x, re) ∈ range (CreatedEvents ri) ↔ CreatedEvents ri !! x = Some re) as Hin.
  { intros x re. rewrite (range_perm (CreatedEvents ri)). apply elem_of_map_to_list. }
  exists (dom g). split; [done|]. split; [|split].
  - intros a b [ea Ha]%elem_of_dom Hr. apply elem_of_dom. by eapply reach_known.
  - intros x Hx HLx. destruct HR as [_ (_ & _ & _ & (_ & H2 & _) & _)].
    destruct (H2 x r true Hx HLx) as (ri' & re & Hri' & Hre & Hw).
    unfold holds in Hri. assert (ri' = ri) as -> by congruence.
    exists re. split; [done|]. by apply (Hall x), Hw; apply Hin.
  - destruct (Hex ltac:(lia)) as (x & re & Hx%Hin & _ & Hf).
    destruct (fame_decided r ri x re h HR Hri Hx Hf) as [Hd HLx].
    destruct (decided_above r x _ (proj1 (proj2 HL) x _ _ HLx) Hd) as [z Hz].
    exists z. split; [|done]. apply elem_of_dom, HL. eauto.
Qed.
Lemma WitnessesDecided_created r ri h : holding r ri h → same_round r ri (WitnessesDecided ri ps).2.
Proof.
  intros [HR Hri]. unfold WitnessesDecided. destruct (ri_decided ri) eqn:Hd; [reflexivity|].
  destruct (count_decided _ 0) as [c|] eqn:Hc; [|reflexivity]. simpl.
  split; [|done]. split; [intros x; eauto 10|]. split; [|split; [simpl; congruence|by left]].
  intros Hle%Z.leb_le. right.
  by apply (count_settles r ri c h).
Qed.
Lemma WitnessesDecided_flag ri : ri_decided (WitnessesDecided ri ps).2 = (WitnessesDecided ri ps).1.
Proof. unfold WitnessesDecided. destruct (ri_decided ri) eqn:Hd; [done|]. by destruct (count_decided _ 0). Qed.
Lemma created_known r ri ri' x :
  same_round r ri ri' → is_Some (CreatedEvents ri !! x) → is_Some (CreatedEvents ri' !! x).
Proof.
  intros [[Hs _] _] [re Hre]. destruct (Hs x) as [Hw _]. rewrite Hre in Hw. by destruct (CreatedEvents ri' !! x).
Qed.

Lemma hoare_and {A} (P : Hashgraph St → Prop) (m : H A) Q1 Q2 F F' :
  hoare P m Q1 F → hoare P m Q2 F' → hoare P m (λ a h, Q1 a h ∧ Q2 a h) F.
Proof. intros H1 H2 h Hh. specialize (H1 h Hh). specialize (H2 h Hh). by destruct (m h) as [[]]. Qed.
(** Whether [y] sees [x]. *)
Definition looks (x y : string) : bool :=
  match g !! y, g !! x with Some ey, Some ex => sees ey ex | _, _ => false end.
Lemma see_looks x y : is_Some (g !! x) → is_Some (g !! y) →
  hoare Rst (see y x) (λ b h, Rst h ∧ b = looks x y) (λ _, False).
Proof.
  intros [ex Hgx] [ey Hy] h HR. pose proof (steady_ancestor ps hex bk N g pec n L all _ _ Hok y x h HR) as HR'.
  destruct (ancestor_cases N g pec n Hok y x h (proj1 HR)) as (res & h' & Hrun & _ & Hres).
  unfold see, looks. rewrite Hrun in *. destruct res as [b| | |]; [|simpl in Hres; naive_solver..].
  split; [exact HR'|]. rewrite Hy, Hgx. apply eq_iff_eq_true. rewrite (sees_reach g pec n y x ey ex Hok Hy Hgx).
  destruct Hres as [[Heq ->]|(_ & _ & Hb)]; [|done]. simpl in Heq. subst. split; [|done].
  intros _. apply rtc_refl.
Qed.

(** ** Fame *)
Section fame.
Context (r : Z) (x : string) (ri0 : RoundInfo) (Hx : is_Some (CreatedEvents ri0 !! x)).
Context (Hxg : is_Some (g !! x)).
Definition voting' (st : Votes * RoundInfo) h : Prop := holding r st.2 h ∧ same_round r ri0 st.2.
(** The vote of [w], as recorded while round [j] is scanned. *)
Definition vote_ok (j : Z) (votes : Votes) (w : string) : Prop :=
  getVote votes w x = ballot ps g L r x (Z.to_nat (j - r)) w.
Definition votes_ok (j : Z) (votes : Votes) : Prop :=
  r < j → ∀ w, w ∈ dom g → L !! w = Some (j, true) → vote_ok j votes w.
Lemma voting_keep {A} st (m : H A) : untouched rd m → steady m →
  hoare (voting' st) m (λ _, voting' st) Rst.
Proof.
  intros Hu Hm h [Hh Hs]. pose proof (holding_untouched r st.2 m Hu Hm h Hh) as H'.
  unfold voting'. by destruct (m h) as [[]].
Qed.
Lemma getVote_set (votes : gmap string (gmap string bool)) y b w :
  getVote (setVote votes y x b) w x = if decide (w = y) then b else getVote votes w x.
Proof.
  unfold getVote, setVote, Votes. case_decide as Hd.
  - rewrite Hd, lookup_insert_eq. cbn [from_option id]. by rewrite lookup_insert_eq.
  - by rewrite lookup_insert_ne.
Qed.

(** [y], a witness of round [j], does not decide on [x]. *)
Definition silent (j : Z) (y : string) : Prop :=
  ∀ d ey, (1 ≤ d)%nat → j = r + Z.of_nat (S d) → g !! y = Some ey →
    Z.of_nat (S d) mod COIN_ROUND_FREQ ≠ 0 → tally (collected ps g L r x d y ey) < SuperMajority ps.
Definition silent_round (j : Z) : Prop := ∀ w, L !! w = Some (j, true) → silent j w.
Lemma silent_undecided v : (∀ j, r < j → silent_round j) → ¬ decided ps g L r x v.
Proof.
  intros Hs (d & y & ey & Hd & Hy & HLy & Hm & Ht & _). 
  specialize (Hs (r + Z.of_nat (S d)) ltac:(lia) y HLy d ey Hd eq_refl Hy Hm). lia.
Qed.
Definition famed (ri : RoundInfo) (x : string) : Prop :=
  ∃ re, CreatedEvents ri !! x = Some re ∧ re_Famous re ≠ Undefined.
(** What a vote leaves: the vote itself and those of the round before; or a
    decision. *)
Definition vote_post (j : Z) (votes : Votes) (y : string) (c : ctl (Votes * RoundInfo)) h : Prop :=
  match c with
  | Continue st => voting' st h ∧ vote_ok j st.1 y ∧ silent j y ∧
      ∀ w, w ≠ y → getVote st.1 w x = getVote votes w x
  | Break st => voting' st h ∧ famed st.2 x
  end.
Lemma vote_cast j votes ri y b h : voting' (votes, ri) h →
  b = ballot ps g L r x (Z.to_nat (j - r)) y → silent j y →
  vote_post j votes y (Continue (setVote votes y x b, ri)) h.
Proof.
  intros Hh Hb Hs. split; [done|]. split; [unfold vote_ok; simpl; by rewrite getVote_set, decide_True|].
  split; [done|]. intros w Hw. simpl. by rewrite getVote_set, decide_False.
Qed.

(** The witnesses that a voter strongly sees. *)
Lemma ss_witnesses_exact y ey ws h : Rst h → ready g all (dom g) y → g !! y = Some ey →
  Forall (λ w, is_Some (g !! w)) ws →
  ∃ h', ss_witnesses y ws ps h = (Ok (filter (λ w, seen_by ps g L ey w) ws), h') ∧ Rst h'.
Proof.
  intros HR (_ & HT & _) Hy Hws. unfold ss_witnesses.
  assert (∀ acc h, Rst h → ∃ h', foldM (λ l w, ss <- stronglySee y w ps ;;
      ret (if (ss : bool) then l ++ [w] else l)) acc ws h =
    (Ok (acc ++ filter (λ w, seen_by ps g L ey w) ws), h') ∧ Rst h') as Hgo; [|by apply (Hgo [])].
  clear h HR. induction Hws as [|w ws [ew Hw] _ IH]; intros acc h HR.
  { exists h. simpl. by rewrite app_nil_r. }
  destruct (stronglySee_exact ps hex Hhex bk N g pec n L all (dom g) (dom g) Hok y w ey ew h HR Hy Hw) as (h1 & Hss & HR1); [eauto|].
  cbn [foldM]. unfold bind at 1. unfold bind at 1. rewrite Hss. unfold ret at 1.
  destruct (IH (if ss_of ps g L ey ew then acc ++ [w] else acc) h1 HR1) as (h2 & -> & HR2).
  exists h2. split; [|done]. do 2 f_equal. rewrite filter_cons.
  assert (seen_by ps g L ey w = ss_of ps g L ey ew) as -> by (unfold seen_by; by rewrite Hw).
  destruct (ss_of ps g L ey ew); simpl; [by rewrite <-app_assoc|done].
Qed.
Lemma collected_exact (j : Z) (votes : Votes) y ey ri h :
  r + 2 ≤ j → Rst h → holds (j - 1) ri h → y ∈ dom g → g !! y = Some ey → votes_ok (j - 1) votes →
  ∃ l h', ss_witnesses y (Witnesses ri) ps h = (Ok l, h') ∧ Rst h' ∧
    count_votes votes x l = collected ps g L r x (Z.to_nat (j - 1 - r)) y ey.
Proof.
  intros Hj HR Hri HyD Hy Hv. pose proof HR as [_ (_ & _ & _ & Hrounds & _)].
  destruct (ss_witnesses_exact y ey (Witnesses ri) h HR) as (h' & Hrun & HR'); [by apply ready_all; eauto|done| |].
  { apply Forall_forall. intros w (re & Hre & _)%elem_of_Witnesses.
    destruct (proj1 Hrounds (j - 1) ri w re Hri Hre) as [_ HLw]. apply (proj1 HL w). eauto. }
  eexists _, h'. split; [exact Hrun|]. split; [done|]. unfold collected.
  replace (r + Z.of_nat (Z.to_nat (j - 1 - r))) with (j - 1) by lia.
  rewrite (seen_witnesses_recorded ps Hsm g pec n L all (dom g) Hok y ey (j - 1) ri _ (ready_all y ltac:(eauto)) Hy Hrounds Hri).
  apply count_votes_set; [by apply NoDup_filter, NoDup_Witnesses|].
  intros w [_ (re & Hre & Hw)%elem_of_Witnesses]%list_elem_of_filter.
  destruct (proj1 Hrounds (j - 1) ri w re Hri Hre) as [HwD HLw]. rewrite Hw in HLw.
  apply Hv; [lia|done|done].
Qed.

Lemma voting_Rst st h : voting' st h → Rst h.
Proof. by intros [[? _] _]. Qed.

(** The first votes are what the voters see. *)
Lemma see_exact st y ey : g !! y = Some ey →
  hoare (voting' st) (see y x) (λ b h, voting' st h ∧ b = ballot ps g L r x 1 y) Rst.
Proof.
  intros Hy. apply (hoare_and _ _ _ _ _ Rst); [apply voting_keep; reads|].
  eapply hoare_conseq; [apply (see_looks x y Hxg); eauto|intros h; apply voting_Rst| |by intros h []].
  intros b h [_ ->]. unfold looks. simpl. destruct Hxg as [ex ->]. by rewrite Hy.
Qed.
Lemma SetFame_famed ri v : famed (SetFame ri x v) x.
Proof. eexists. split; [apply lookup_insert_eq|]. by destruct v. Qed.
Lemma fame_vote_exact j votes ri y : r < j → y ∈ dom g → L !! y = Some (j, true) →
  votes_ok (j - 1) votes →
  hoare (voting' (votes, ri)) (fame_vote r j ps x (votes, ri) y) (vote_post j votes y) Rst.
Proof.
  intros Hj HyD HLy Hv. assert (is_Some (g !! y)) as [ey Hy] by (apply HL; eauto).
  unfold fame_vote. destruct (Z.eqb_spec (j - r) 1) as [Hd|Hd].
  { eapply hoare_bind; [by apply (see_exact (votes, ri) y ey)|]. intros b. simpl. apply hoare_pure.
    intros ->. apply hoare_ret. intros h Hh. apply vote_cast; [done|by rewrite Hd|].
    intros d ey' Hd1 Hj'. lia. }
  apply (hoare_bind _ (λ prev h, voting' (votes, ri) h ∧ holds (j - 1) prev h)).
  { apply (hoare_and _ _ _ _ _ Rst); [apply voting_keep; reads|].
    eapply hoare_conseq; [apply (holding_GetRound (j - 1))|intros h; apply voting_Rst| |done].
    by intros prev h [_ ?]. }
  intros prev. apply hoare_peers; [intros h [Hh _]; by eapply voting_Rst|].
  set (d := Z.to_nat (j - 1 - r)).
  apply (hoare_bind _ (λ l h, voting' (votes, ri) h ∧
    count_votes votes x l = collected ps g L r x d y ey)).
  { apply (hoare_and _ _ _ _ _ (λ _, True)).
    - eapply hoare_conseq; [apply (voting_keep (votes, ri) (ss_witnesses y (Witnesses prev) ps)); reads
        |by intros h [? _]|done..].
    - intros h [Hh Hp]. destruct (collected_exact j votes y ey prev h) as (l & h' & -> & _ & Hc);
        [lia|by eapply voting_Rst|done..]. }
  intros l. apply hoare_pure. intros Hc. cbv zeta. rewrite Hc.
  assert (Z.to_nat (j - r) = S d) as Hsd by lia. assert (1 ≤ d)%nat as Hd1 by lia.
  assert (Z.of_nat (S d) = j - r) as Hzd by lia.
  pose proof (ballot_step ps g L r x d y ey Hd1 Hy) as Hb. rewrite <-Hsd in Hb.
  unfold cast in Hb. rewrite Hsd, Hzd in Hb.
  assert (((j - r) mod COIN_ROUND_FREQ = 0 ∨ (SuperMajority ps <=? tally (collected ps g L r x d y ey)) = false) →
    silent j y) as Hsil.
  { intros Hor d' ey' Hd' Hj' Hy' Hm'. assert (d' = d) as -> by lia. assert (ey' = ey) as -> by congruence.
    rewrite Hzd in Hm'. destruct Hor as [|Hlt]; [done|lia]. }
  destruct (Z.eqb_spec ((j - r) mod COIN_ROUND_FREQ) 0) as [Hmod|Hmod]; simpl in Hb |- *.
  - destruct (SuperMajority ps <=? tally _) eqn:Ht.
    + apply hoare_ret. intros h Hh. apply vote_cast; [done|by rewrite Hsd|auto].
    + eapply (hoare_bind _ (λ c h, voting' (votes, ri) h ∧ c = coin y)).
      { apply (hoare_lift _ (λ c h, voting' (votes, ri) h ∧ c = coin y)).
        - intros c h Hm Hh. split; [done|]. unfold coin. by rewrite Hm.
        - intros h. apply voting_Rst. }
      intros c. apply hoare_pure. intros ->. apply hoare_ret. intros h Hh.
      apply vote_cast; [done|by rewrite Hsd|auto].
  - destruct (SuperMajority ps <=? tally _) eqn:Ht.
    + set (v := majority _).
      assert (decided ps g L r x v) as Hdec.
      { exists d, y, ey. split; [done|]. split; [done|]. split; [rewrite HLy; do 2 f_equal; lia|].
        split; [by rewrite Hzd|]. split; [lia|done]. }
      apply (hoare_bind _ (λ _, voting' (votes, SetFame ri x v))).
      * intros h [Hh Hs].
        assert (is_Some (CreatedEvents ri !! x)) as Hx' by (by apply (created_known r ri0)).
        pose proof (holding_mutRound r ri (λ ri, SetFame ri x v)
          (λ _ _, SetFame_created r ri x v Hx' Hdec) h Hh) as H'.
        split; [exact H'|]. simpl. etrans; [exact Hs|]. by apply SetFame_created.
      * intros []. apply hoare_ret. intros h Hh. split; [done|]. apply SetFame_famed.
    + apply hoare_ret. intros h Hh. apply vote_cast; [done|by rewrite Hsd|auto].
Qed.

(** All the witnesses of a round vote. *)
Definition round_post (j : Z) (c : ctl (Votes * RoundInfo)) h : Prop :=
  match c with
  | Continue st => voting' st h ∧ votes_ok j st.1 ∧ silent_round j
  | Break st => voting' st h ∧ famed st.2 x
  end.
Lemma fame_round_exact st j : r < j → votes_ok (j - 1) st.1 →
  hoare (voting' st) (fame_round r x st j) (round_post j) Rst.
Proof.
  intros Hj Hprev. unfold fame_round.
  apply (hoare_bind _ (λ ji h, voting' st h ∧ (∀ w, w ∈ Witnesses ji → w ∈ dom g ∧ L !! w = Some (j, true)) ∧
    ∀ w, w ∈ dom g → L !! w = Some (j, true) → w ∈ Witnesses ji)).
  { apply (hoare_and _ _ _ _ _ Rst); [apply voting_keep; reads|].
    eapply hoare_conseq; [apply (holding_GetRound j)|intros h; apply voting_Rst| |done].
    intros ji h [[_ (_ & _ & _ & (H1 & H2 & _) & _)] Hji]. split.
    - intros w (re & Hre & Hw)%elem_of_Witnesses. rewrite <-Hw. by apply (H1 j ji w re).
    - intros w HwD HLw. destruct (H2 w j true HwD HLw) as (ri & re & Hri & Hre & Hw).
      unfold holds in Hji. rewrite Hji in Hri. injection Hri as <-. apply elem_of_Witnesses. eauto. }
  intros ji. apply hoare_pure. intros [Hin Hcov]. apply hoare_peers; [intros h; apply voting_Rst|].
  assert (∀ w, w ∈ dom g → L !! w = Some (j, true) → w ∈ Witnesses ji ∨ (vote_ok j st.1 w ∧ silent j w)) as Hleft
    by auto.
  clear Hcov. revert st Hprev Hleft. induction (Witnesses ji) as [|y ys IH]; intros st Hprev Hleft.
  { assert (∀ w, w ∈ dom g → L !! w = Some (j, true) → vote_ok j st.1 w ∧ silent j w) as Hall.
    { intros w HwD HLw. destruct (Hleft w HwD HLw) as [Hw|]; [by apply not_elem_of_nil in Hw|done]. }
    apply hoare_ret. intros h Hh. split; [done|]. split; [intros _ w HwD HLw; by apply Hall|].
    intros w HLw. apply Hall; [apply elem_of_dom, HL; eauto|done]. }
  destruct (Hin y) as [HyD HLy]; [set_solver|]. destruct st as [votes ri].
  eapply hoare_bind; [by apply fame_vote_exact|]. intros [st'|st']; simpl; [|by apply hoare_ret].
  intros h (Hh & Hy & Hsil & Hothers). revert h Hh. apply IH; [set_solver|..].
  - intros Hr w HwD HLw. unfold vote_ok. rewrite Hothers; [by apply Hprev|].
    intros ->. rewrite HLy in HLw. injection HLw. lia.
  - intros w HwD HLw. destruct (decide (w = y)) as [->|Hne]; [by right|].
    destruct (Hleft w HwD HLw) as [Hw|[Hw Hsw]]; [left; set_solver|right].
    split; [|done]. unfold vote_ok. by rewrite Hothers.
Qed.
Definition scanned (last : Z) (st : Votes * RoundInfo) h : Prop :=
  voting' st h ∧ (famed st.2 x ∨ ∀ j, r < j ≤ last → silent_round j).
Lemma fame_rounds_exact k i st : votes_ok (r + Z.of_nat i) st.1 →
  (∀ j, r < j ≤ r + Z.of_nat i → silent_round j) →
  hoare (voting' st) (foldM_ctl (fame_round r x) st ((λ i, r + 1 + Z.of_nat i) <$> seq i k))
    (scanned (r + Z.of_nat (i + k))) Rst.
Proof.
  revert i st. induction k as [|k IH]; intros i st Hv Hsil.
  { apply hoare_ret. intros h Hh. split; [done|]. right. by rewrite Nat.add_0_r. }
  cbn [seq fmap list_fmap foldM_ctl]. eapply hoare_bind.
  { apply fame_round_exact; [lia|]. by replace (r + 1 + Z.of_nat i - 1) with (r + Z.of_nat i) by lia. }
  intros [st'|st']; simpl; [|apply hoare_ret; intros h [Hh Hf]; split; auto].
  apply hoare_pure. intros [Hv' Hs']. replace (i + S k)%nat with (S i + k)%nat by lia. apply IH.
  - by replace (r + Z.of_nat (S i)) with (r + 1 + Z.of_nat i) by lia.
  - intros j Hj. destruct (decide (j = r + 1 + Z.of_nat i)) as [->|Hne]; [done|]. apply Hsil. lia.
Qed.
Lemma IsDecided_famed ri : IsDecided ri x = true → famed ri x.
Proof.
  unfold IsDecided, famed. destruct (CreatedEvents ri !! x) as [re|]; [|done].
  intros [_ Hd%bool_decide_eq_true]%andb_true_iff. by exists re.
Qed.
(** What the graph decides is recorded. *)
Lemma fame_witness_exact st : hoare (voting' st) (fame_witness r st x)
  (λ st' h, voting' st' h ∧ ∀ v, decided ps g L r x v → famed st'.2 x) Rst.
Proof.
  unfold fame_witness. destruct (IsDecided st.2 x) eqn:Hd.
  { apply hoare_ret. intros h Hh. split; [done|]. intros v _. by apply IsDecided_famed. }
  apply (hoare_bind _ (λ last h, voting' st h ∧ ∀ w j, L !! w = Some (j, true) → j ≤ last)).
  { intros h Hh. pose proof (voting_keep st (readStore LastRound) ltac:(reads) ltac:(reads) h Hh) as Hh'.
    split; [exact Hh'|]. intros w j HLw. rewrite LastRound_law.
    destruct (voting_Rst st h Hh) as [_ (_ & _ & _ & (_ & H2 & _) & (_ & _ & _ & _ & _ & H6) & _)].
    apply H6. destruct (H2 w j true) as (ri & re & Hri & _); [apply elem_of_dom, HL; eauto|done|eauto]. }
  intros last. apply hoare_pure. intros Hlast.
  eapply hoare_conseq; [apply (fame_rounds_exact _ 0); [intros Hlt; lia|intros j Hj; lia]|done| |done].
  intros st' h [Hh [Hf|Hs]]; (split; [done|]); intros v Hv; [done|].
  destruct (silent_undecided v); [|done]. intros j Hj w HLw. apply Hs; [|done].
  specialize (Hlast w j HLw). lia.
Qed.
End fame.
Lemma famed_later r ri ri' x : same_round r ri ri' → famed ri x → famed ri' x.
Proof. intros [[Hs _] _] (re & Hre & Hf). exact (proj2 (proj2 (Hs x)) re Hre Hf). Qed.
Lemma Witnesses_same r ri ri' x : same_round r ri ri' → x ∈ Witnesses ri' → x ∈ Witnesses ri.
Proof.
  intros [[Hs _] _]. rewrite !elem_of_Witnesses. intros (re & Hre & Hw). destruct (Hs x) as [Hsw _].
  rewrite Hre in Hsw. destruct (CreatedEvents ri !! x) as [re0|]; [|done]. exists re0. simpl in Hsw. split; congruence.
Qed.
Lemma fame_witnesses_exact r ws st : Forall (λ x, is_Some (g !! x)) ws →
  Forall (λ x, is_Some (CreatedEvents st.2 !! x)) ws →
  hoare (holding r st.2) (foldM (fame_witness r) st ws)
    (λ st' h, voting' r st.2 st' h ∧ ∀ x v, x ∈ ws → decided ps g L r x v → famed st'.2 x) Rst.
Proof.
  intros Hknown. revert st. induction Hknown as [|x ws Hxg _ IH]; intros st Hcr.
  { apply hoare_ret. intros h Hh. split; [by split|]. set_solver. }
  apply Forall_cons in Hcr as [Hx Hcr]. cbn [foldM].
  apply (hoare_bind _ (λ st' h, voting' r st.2 st' h ∧ ∀ v, decided ps g L r x v → famed st'.2 x)).
  { eapply hoare_conseq; [apply (fame_witness_exact r x st.2 Hx Hxg st)|by intros h Hh; split|done|done]. }
  intros st' h [[Hh Hs] Hx']. assert (Forall (λ x, is_Some (CreatedEvents st'.2 !! x)) ws) as Hcr'.
  { eapply Forall_impl; [exact Hcr|]. intros y. by apply (created_known r). }
  specialize (IH st' Hcr' h Hh). destruct (foldM _ st' ws h) as [[st''|e| |] h']; [|done..].
  destruct IH as [[Hh' Hs'] Hws]. split; [split; [done|by etrans]|].
  intros y v [->|Hy]%elem_of_cons Hv; [|by eapply Hws]. eapply famed_later; [exact Hs'|]. by eapply Hx'.
Qed.
Lemma count_decided_all l c :
  (∀ x re, (x, re) ∈ l → re_Witness re = true → re_Famous re ≠ Undefined) →
  count_decided l c = Some (c + zlen (omap (λ '(x, e), if re_Witness e then Some x else None) l)).
Proof.
  revert c. induction l as [|[x re] l IH]; intros c Hall; cbn [count_decided].
  { unfold zlen. simpl. f_equal. lia. }
  specialize (IH (c + if re_Witness re then 1 else 0) ltac:(set_solver)).
  destruct (re_Witness re) eqn:Hw; csimpl; rewrite Hw; simpl in *.
  - rewrite bool_decide_eq_true_2 by (apply (Hall x re); [set_solver|done]).
    rewrite IH. f_equal. unfold zlen. simpl. lia.
  - by rewrite Z.add_0_r in IH.
Qed.
(** A round that the graph has settled is marked. *)
Lemma settled_marked r ri h : 0 ≤ r → holding r ri h → round_settled ps g L r →
  (∀ x v, x ∈ Witnesses ri → decided ps g L r x v → famed ri x) → (WitnessesDecided ri ps).1 = true.
Proof.
  intros Hr [HR Hri] Hset Hall. destruct HR as [_ (_ & _ & _ & (H1 & H2 & _) & _)].
  unfold WitnessesDecided. destruct (ri_decided ri) eqn:Hd; [done|].
  assert (∀ x, x ∈ Witnesses ri ↔ L !! x = Some (r, true)) as Hws.
  { intros x. rewrite elem_of_Witnesses. split.
    - intros (re & Hre & Hw). rewrite <-Hw. by apply (H1 r ri x re).
    - intros HLx. destruct (H2 x r true) as (ri' & re & Hri' & Hre & Hw);
        [apply elem_of_dom, HL; eauto|done|]. unfold holds in Hri. assert (ri' = ri) as -> by congruence. eauto. }
  rewrite count_decided_all.
  2:{ intros x re Hin Hw.
    assert (CreatedEvents ri !! x = Some re) as Hre.
    { rewrite (range_perm (CreatedEvents ri)) in Hin. by apply elem_of_map_to_list in Hin. }
    assert (x ∈ Witnesses ri) as Hx by (apply elem_of_Witnesses; eauto).
    destruct (settled_decides ps Hsm g pec n L Hok HL r x Hset) as [v Hv]; [by apply Hws|].
    destruct (Hall x v Hx Hv) as (re' & Hre' & Hf). congruence. }
  fold (Witnesses ri). simpl. apply Z.leb_le.
  destruct (settled_witnesses ps Hsm g pec n L Hok HL r Hr Hset) as (W & HW & HWr).
  etrans; [exact HW|]. unfold zlen. apply inj_le.
  rewrite <-(size_list_to_set (C:=gset string) (Witnesses ri)) by apply NoDup_Witnesses.
  apply subseteq_size. intros w Hw. apply elem_of_list_to_set, Hws. auto.
Qed.
Lemma decideFame_round_exact votes ds r : 0 ≤ pr_Index r →
  hoare Rst (decideFame_round (votes, ds) r)
    (λ st h, ∃ ri, holding (pr_Index r) ri h ∧
       st.2 = (if ri_decided ri then ds ++ [pr_Index r] else ds) ∧
       (round_settled ps g L (pr_Index r) → ri_decided ri = true)) Rst.
Proof.
  intros Hr.
  unfold decideFame_round.
  apply (hoare_bind _ (λ ri h, holding (pr_Index r) ri h ∧ ∀ x, x ∈ Witnesses ri → is_Some (g !! x))).
  { intros h HR. pose proof (holding_GetRound (pr_Index r) h HR) as Hg.
    destruct (onStore (GetRoundInfo (pr_Index r)) h) as [[ri| | |] h']; [|done..]. split; [done|].
    destruct Hg as [[_ (_ & _ & _ & (H1 & _) & _)] Hri]. intros x (re & Hre & _)%elem_of_Witnesses.
    apply HL. destruct (H1 _ _ x re Hri Hre) as [_ ->]. eauto. }
  intros ri. apply hoare_pure. intros Hknown.
  apply hoare_peers; [by intros h [? _]|].
  eapply hoare_bind.
  { apply (fame_witnesses_exact (pr_Index r) (Witnesses ri) (votes, ri)); apply Forall_forall; [done|].
    intros x (re & Hre & _)%elem_of_Witnesses. eauto. }
  intros [votes' ri'] h0 [[Hh0 Hs0] Hall]. simpl in *.
  assert (round_settled ps g L (pr_Index r) → (WitnessesDecided ri' ps).1 = true) as Hmark.
  { intros Hset. apply (settled_marked (pr_Index r) ri' h0 Hr Hh0 Hset).
    intros x v Hx. apply Hall. by apply (Witnesses_same (pr_Index r) ri ri'). }
  clear Hall Hs0. revert h0 Hh0. pose proof (WitnessesDecided_created (pr_Index r) ri') as Hs.
  pose proof (WitnessesDecided_flag ri') as Hflag.
  destruct (WitnessesDecided ri' ps) as [d ri'']. simpl in Hs, Hflag, Hmark.
  apply (hoare_bind _ (λ _, holding (pr_Index r) ri'')).
  - eapply hoare_conseq; [by apply (holding_SetRound _ ri')|done..].
  - intros []. apply hoare_ret. intros h Hh. exists ri''. split; [done|]. by rewrite Hflag.
Qed.

(** ** Round received *)
Lemma holding_settled r ri h : holding r ri h → ri_decided ri = true →
  round_settled ps g L r ∧ famous_set ps g L r (list_to_set (FamousWitnesses ri)).
Proof.
  intros [HR Hri] Hd. pose proof HR as [_ (_ & _ & _ & (_ & _ & _ & _ & H5 & _) & _)].
  destruct (H5 r ri Hri Hd) as (S & HS & Hcl & Hdec & z & Hz & HLz).
  pose proof (λ x re, fame_decided r ri x re h HR Hri) as Hf.
  split.
  { exists S. split; [done|]. split; [done|]. split; [|eauto]. intros x Hx HLx.
    destruct (Hdec x Hx HLx) as (re & Hre & Hre'). destruct (Hf x re Hre Hre'). eauto. }
  intros w. rewrite elem_of_list_to_set, elem_of_FamousWitnesses. split.
  - intros (re & Hre & Hw & Ht). destruct (Hf w re Hre) as [Hdw HLw]; [by rewrite Ht|].
    rewrite bool_decide_eq_true_2 in Hdw by done. rewrite Hw in HLw. done.
  - intros [HLw Hdw]. pose proof (proj1 (proj2 HL) w _ _ HLw) as Hr.
    assert (is_Some (g !! w)) as Hwg by (apply HL; eauto).
    pose proof (grow_forks ps Hsm g g pec n Hok ltac:(congruence) ltac:(done)) as Hforks.
    assert (same_events g g) as Hsame by (intros ? ? ?; congruence).
    destruct (decide (w ∈ S)) as [HwS|HwS].
    + destruct (Hdec w HwS HLw) as (re & Hre & Hre'). destruct (Hf w re Hre Hre') as [Hd' HLw'].
      exists re. split; [done|]. split; [congruence|].
      pose proof (fames_agree ps g pec n L g pec n L r w _ _ Hok HL Hok HL Hsame Hforks Hwg Hwg Hr Hdw Hd')
        as Heq. symmetry in Heq. by apply bool_decide_eq_true in Heq.
    + by pose proof (late_not_famous ps Hsm g pec n L Hok HL g pec n L Hok HL Hsame Hforks S z r w true
        HS Hcl Hz HLz Hr HLw HwS Hdw).
Qed.
Lemma see_all_exact r ri x ws : is_Some (g !! x) → Forall (λ w, is_Some (g !! w)) ws →
  hoare (holding r ri) (see_all ws x)
    (λ s h, s = filter (λ w, looks x w) ws ∧ holding r ri h) (λ _, False).
Proof.
  intros Hx Hws. apply (hoare_and _ _ _ _ _ Rst); [|apply holding_untouched; reads].
  unfold see_all. assert (∀ acc, hoare Rst
    (foldM (λ s w, b <- see w x ;; ret (if (b : bool) then s ++ [w] else s)) acc ws)
    (λ s h, s = acc ++ filter (λ w, looks x w) ws) (λ _, False)) as Hgo.
  { induction Hws as [|w ws Hw _ IH]; intros acc.
    { apply hoare_ret. intros h _. by rewrite app_nil_r. }
    cbn [foldM]. apply (hoare_bind _ (λ acc' h, Rst h ∧ acc' = if looks x w then acc ++ [w] else acc)).
    - eapply hoare_bind; [by apply see_looks|]. intros b. simpl. apply hoare_pure. intros ->.
      by apply hoare_ret.
    - intros acc'. apply hoare_pure. intros ->. rewrite filter_cons.
      eapply hoare_conseq; [apply IH|done| |done]. intros s h ->.
      destruct (looks x w); simpl; [by rewrite <-app_assoc|done]. }
  intros h [HR _]. exact (Hgo [] h HR).
Qed.
Lemma filter_all {A} (P : A → bool) (l : list A) :
  length (filter P l) = length l ↔ ∀ a, a ∈ l → P a = true.
Proof.
  induction l as [|a l IH]; [simpl; set_solver|]. rewrite filter_cons.
  pose proof (length_filter (λ a, P a) l). setoid_rewrite elem_of_cons. split.
  - intros Hlen b [->|Hb]; destruct (P a) eqn:Ha; simpl in Hlen; try done; try lia.
    apply IH; [lia|done].
  - intros Hall. rewrite decide_True by (rewrite Hall; auto). simpl. f_equal. apply IH. auto.
Qed.
(** All famous witnesses see [x], and there are enough of them: the graph
    receives [x]. *)
Lemma receives_exact x i ri s h : is_Some (g !! x) → holding i ri h → ri_decided ri = true →
  s = filter (λ w, looks x w) (FamousWitnesses ri) →
  receives ps g L x i ((zlen s =? zlen (FamousWitnesses ri)) && (SuperMajority ps <=? zlen s)).
Proof.
  intros [ex Hx] Hh Hd ->. destruct (holding_settled i ri h Hh Hd) as [Hs HF].
  split; [done|]. exists (list_to_set (FamousWitnesses ri)). split; [done|].
  rewrite size_list_to_set by apply NoDup_FamousWitnesses.
  rewrite andb_true_iff, Z.eqb_eq, Z.leb_le. unfold zlen.
  assert (∀ w, w ∈ FamousWitnesses ri → looks x w = true ↔ reach g w x) as Hl.
  { intros w Hw. assert (famous ps g L i w) as Hfw by (apply HF; set_solver).
    destruct (famous_known ps g L i w HL Hfw) as [ew Hew]. unfold looks. rewrite Hew, Hx.
    by apply (sees_reach g pec n). }
  assert (length (filter (λ w, looks x w) (FamousWitnesses ri)) = length (FamousWitnesses ri) ↔
    ∀ w, w ∈ (list_to_set (FamousWitnesses ri) : gset string) → reach g w x) as Hiff.
  { rewrite (filter_all (looks x)). split; intros Hall w Hw.
    - apply Hl, Hall; set_solver.
    - apply Hl; [done|]. apply Hall. set_solver. }
  rewrite <-Hiff. split; intros [H1 H2]; split; lia.
Qed.

Lemma undecided_not_in i : ∀ h, Rst h →
  (∀ ri, holds i ri h → ri_decided ri = false) → i ∉ bk_decided bk.
Proof.
  intros h [_ (_ & _ & _ & _ & (_ & _ & _ & _ & H5 & _) & _)] Hnd Hin.
  destruct (H5 i Hin) as (ri & Hri & Hd). specialize (Hnd ri Hri). congruence.
Qed.
End one_book.

(** ** Marking rounds as decided *)
Abbreviation Rst bk := (Recorded.Rst ps hex bk N g pec n L all (dom g) (dom g)).
Abbreviation holding bk := (Recorded.holding ps hex bk N g pec n L all (dom g) (dom g)).
Lemma holding_mark bk r ri h : holding bk r ri h → ri_decided ri = true → Rst (mark {[r]} bk) h.
Proof.
  intros [[HI (? & ? & ? & ? & (? & ? & ? & ? & H5 & ?) & ?)] Hr] Hd. split; [done|].
  do 4 (split; [done|]). split; [|done]. do 4 (split; [done|]). split; [|done].
  intros r0 [Hr0| ->%elem_of_singleton]%elem_of_union; [by apply H5|]. by exists ri.
Qed.
Lemma decideFame_rounds_exact bk rs votes ds : Forall (λ pr, 0 ≤ pr_Index pr) rs →
  hoare (Rst (mark (list_to_set ds) bk)) (foldM decideFame_round (votes, ds) rs)
    (λ st h, Rst (mark (list_to_set st.2) bk) h ∧ ds ⊆ st.2 ∧
       ∀ pr, pr ∈ rs → round_settled ps g L (pr_Index pr) → pr_Index pr ∈ st.2)
    (λ h, ∃ ds, Rst (mark ds bk) h).
Proof.
  intros Hrs. revert votes ds. induction Hrs as [|r rs Hr _ IH]; intros votes ds.
  { apply hoare_ret. intros h Hh. split; [done|]. set_solver. }
  cbn [foldM]. eapply hoare_bind.
  { eapply hoare_conseq; [by apply decideFame_round_exact|done|intros st h Hh; exact Hh|by eauto]. }
  intros [votes' ds'] h (ri & Hh & Hds & Hset). simpl in Hds.
  assert (Rst (mark (list_to_set ds') bk) h) as HR.
  { destruct (ri_decided ri) eqn:Hd; rewrite Hds; [|apply Hh].
    pose proof (holding_mark _ _ _ _ Hh Hd) as HR. unfold mark in *. simpl in *.
    replace (bk_decided bk ∪ list_to_set (ds ++ [pr_Index r])) with
      (bk_decided bk ∪ list_to_set ds ∪ {[pr_Index r]} : gset Z) by set_solver. done. }
  assert (ds ⊆ ds' ∧ (round_settled ps g L (pr_Index r) → pr_Index r ∈ ds')) as [Hsub Hin].
  { destruct (ri_decided ri) eqn:Hd; rewrite Hds; [set_solver|]. split; [done|]. intros Hs. by apply Hset in Hs. }
  specialize (IH votes' ds' h HR). destruct (foldM _ _ rs h) as [[st|e| |] h']; [|done..].
  destruct IH as (HR' & Hsub' & Hrest). split; [done|]. split; [set_solver|].
  intros pr [->|Hpr]%elem_of_cons Hs; [set_solver|auto].
Qed.
Lemma DecideFame_exact bk : (∀ pr, pr ∈ sortedItems (bk_queue bk) → 0 ≤ pr_Index pr) →
  hoare (Rst bk) DecideFame
    (λ _ h, ∃ ds, Rst (set_queue (PRC_Update (bk_queue bk) ds) (mark (list_to_set ds) bk)) h ∧
       ∀ pr, pr ∈ sortedItems (bk_queue bk) → round_settled ps g L (pr_Index pr) → pr_Index pr ∈ ds)
    (λ h, ∃ ds, Rst (mark ds bk) h).
Proof.
  intros Hge. unfold DecideFame.
  apply (hoare_bind _ (λ rs h, Rst bk h ∧ rs = sortedItems (bk_queue bk))).
  { apply hoare_gets. intros h HR. split; [done|].
    destruct HR as [_ (_ & _ & _ & _ & (_ & _ & Hq & _) & _)]. unfold GetOrderedPendingRounds. by rewrite Hq. }
  intros rs. apply hoare_pure. intros ->.
  apply (hoare_bind _ (λ st h, Rst (mark (list_to_set st.2) bk) h ∧
    ∀ pr, pr ∈ sortedItems (bk_queue bk) → round_settled ps g L (pr_Index pr) → pr_Index pr ∈ st.2)).
  - eapply hoare_conseq; [apply (decideFame_rounds_exact bk _ ∅ []); by apply Forall_forall|..].
    + intros h HR. unfold mark. simpl. rewrite union_empty_r_L. by destruct bk.
    + by intros st h (? & _ & ?).
    + done.
  - intros [votes ds]. simpl.
    intros h [[HI (? & ? & ? & ? & (? & ? & Hq & ?) & ?)] Hall]. exists ds. split; [|done]. split; [exact HI|].
    do 4 (split; [done|]). split; [|done]. do 2 (split; [done|]). split; [|done]. simpl in *.
    by rewrite Hq.
Qed.

(** ** Receiving an event *)
Definition receive (i : Z) (x : string) bk : Book :=
  mkBook (λ r, if decide (r = i) then bk_received bk r ++ [x] else bk_received bk r)
    (bk_waiting bk) (bk_queue bk) (bk_frames bk) (bk_decided bk).
Lemma holding_receive bk i ri x : received ps g L x i →
  hoare (holding bk i ri) (onStore (SetRoundInfo i (AddReceivedEvent ri x)))
    (λ _, Rst (receive i x bk)) (λ _, False).
Proof.
  intros Hx h [[HI (? & ? & ? & Hm & Hbk & ?)] Hr]. set (ri' := AddReceivedEvent ri x).
  pose proof (stable_SetRound N g pec n i ri' h HI) as HI'.
  destruct (SetRound_law i ri' (hg_Store h) (proj1 HI)) as (Hres & _ & rds & (_ & _ & Hb & _) & Hv).
  unfold onStore, zoom in *. destruct (SetRoundInfo i ri' (hg_Store h)) as [res s']. simpl in *. subst res.
  rewrite Hb in Hv by (left; eauto). split; [done|].
  destruct Hbk as (B1 & B2 & B3 & B4 & B5 & B6).
  unfold ext, booked, holds, hv in *. simpl. rewrite Hv. simpl.
  do 3 (split; [done|]). split; [|split; [|done]].
  - eapply rounds_ok_write; [exact Hm|exact Hr|]. split; [intros y; eauto 10|].
    split; [by left|]. split; [done|]. simpl. intros y [Hy|Hy%list_elem_of_singleton]%elem_of_app; [by left|].
    right. by rewrite Hy.
  - split; [|do 3 (split; [done|]); split].
    + intros r. rewrite B1. case_decide as Hri.
      * by rewrite Hri, lookup_insert_eq, Hr.
      * by rewrite lookup_insert_ne.
    + intros r Hrd. destruct (B5 r Hrd) as (ri0 & Hri0 & Hd0). destruct (decide (r = i)) as [->|Hne].
      * rewrite lookup_insert_eq. exists ri'. split; [done|]. simpl. congruence.
      * rewrite lookup_insert_ne by done. eauto.
    + intros r Hrs. destruct (decide (r = i)) as [->|Hne]; [lia|].
      rewrite lookup_insert_ne in Hrs by done. specialize (B6 r Hrs). lia.
Qed.

Section receive.
Context (x : string) (r : Z) (w : bool) (HLx : L !! x = Some (r, w)) (bk : Book).
Definition not_before (i : Z) : Prop := ∀ i', r < i' < i → receives ps g L x i' false.
Definition receive_post (i : Z) (c : ctl bool) h : Prop :=
  match c with
  | Continue b => Rst bk h ∧ b = false ∧ receives ps g L x i false
  | Break true => Rst (receive i x bk) h ∧ received ps g L x i
  | Break false => Rst bk h ∧ i ∉ bk_decided bk
  end.
Lemma receive_at_exact b i : r < i → not_before i →
  hoare (Rst bk) (receive_at x b i) (receive_post i) (λ _, False).
Proof.
  intros Hi Hnot. assert (is_Some (g !! x)) as Hx by (apply HL; eauto). unfold receive_at.
  apply (hoare_bind _ (λ o h, Rst bk h ∧
    match o with inl ri => holds i ri h | inr _ => i ∉ bk_decided bk end)).
  { intros h HR. pose proof (holding_GetRound ps hex bk N g pec n L all _ _ i h HR) as Hg. unfold try.
    destruct (GetRound_law i (hg_Store h) (proj1 (proj1 HR))) as (_ & _ & Hf).
    unfold onStore, zoom in *. destruct (GetRoundInfo i (hg_Store h)) as [res s']. simpl in *.
    destruct (v_rounds (store_view (hg_Store h)) !! i) as [ri|] eqn:Hri; simpl in Hf.
    - subst res. exact Hg.
    - destruct Hf as (err & -> & _). split; [exact Hg|].
      apply (undecided_not_in bk i h HR). intros ri Hri'. unfold holds, hv in Hri'. congruence. }
  intros [tr|err]; simpl; [|by apply hoare_ret].
  apply (hoare_peers ps hex bk N g pec n L all (dom g) (dom g)); [by intros h [? _]|].
  pose proof (WitnessesDecided_created bk i tr) as Hs. pose proof (WitnessesDecided_flag tr) as Hflag.
  destruct (WitnessesDecided tr ps) as [d tr']. simpl in Hs, Hflag.
  eapply hoare_bind; [by apply (holding_mutRound ps hex bk N g pec n L all _ _ i tr (λ _, tr'))|]. intros [].
  apply (hoare_bind _ (λ lb h, holding bk i tr' h ∧ lb = None)).
  { apply hoare_gets. intros h Hh. split; [done|]. apply Hh. }
  intros lb. apply hoare_pure. intros ->. destruct d; simpl.
  2:{ apply hoare_ret. intros h [HR Htr]. split; [done|]. apply (undecided_not_in bk i h HR).
    intros ri Hri. unfold holds in *. congruence. }
  apply (hoare_bind _ (λ s h, holding bk i tr' h ∧
    receives ps g L x i ((zlen s =? zlen (FamousWitnesses tr')) && (SuperMajority ps <=? zlen s)))).
  { intros h Hh. assert (Forall (λ v, is_Some (g !! v)) (FamousWitnesses tr')) as Hknown.
    { apply Forall_forall. intros v (re & Hre & _)%elem_of_FamousWitnesses. apply HL.
      destruct Hh as [[_ (_ & _ & _ & (H1 & _) & _)] Htr]. destruct (H1 i tr' v re Htr Hre). eauto. }
    pose proof (see_all_exact bk i tr' x _ Hx Hknown h Hh) as Hsee.
    destruct (see_all _ x h) as [[s| | |] h']; [|exact Hsee..]. destruct Hsee as [Hs' Hh'].
    split; [exact Hh'|]. by apply (receives_exact bk x i tr' s h'). }
  intros s. apply hoare_pure. intros Hrec.
  destruct (_ && _); [|apply hoare_ret; by intros h [? _]].
  assert (received ps g L x i) as Hri by (by exists r, w).
  apply (hoare_bind _ (λ ex h, holding bk i tr' h ∧ g !! x = Some (skeleton ex) ∧
    event_ok ps g L all (dom g) x ex ∧ fd_sound g x (ev_firstDescendants ex))).
  { intros h Hh.
    pose proof (holding_untouched ps hex bk N g pec n L all _ _ i tr' (onStore (GetEvent x))
      ltac:(reads) ltac:(reads) h Hh) as Hh'. destruct Hh as [HR _].
    destruct (GetEvent_exact ps hex bk N g pec n L all (dom g) (dom g) x h HR) as (re & h' & Hr & HR' & Hrr).
    rewrite Hr in *. destruct re; [done|destruct Hx; congruence|done..]. }
  intros ex. simpl. apply hoare_pure. intros (Hgx & (Hfd & Hev & _) & Hsound).
  assert (Hex ex = x) as Hhx by (rewrite <-skeleton_Hex; by eapply dag_hex).
  apply (hoare_bind _ (λ _, holding bk i tr')).
  { apply hoare_modify. intros h Hh.
    refine (holding_untouched ps hex bk N g pec n L all _ _ i tr'
      (modify (λ h, set_Store (mutEvent x (λ e, SetRoundReceived e i) (hg_Store h)) h)) _ _ h Hh).
    - by apply untouched_mutEvent.
    - apply steady_mutEvent; [done|]. intros e. split; [done|]. split; [done|]. intros i' [= <-]. by right. }
  intros []. apply (hoare_bind _ (λ _, holding bk i tr')).
  { assert (Hex (SetRoundReceived ex i) = x) as Hhx' by done.
    assert (event_ok ps g L all (dom g) x (SetRoundReceived ex i)) as Hev'.
    { split; [exact Hfd|]. split; [done|]. by intros i' [= <-]. }
    eapply hoare_conseq; [apply (hoare_and _ _ (λ _, Rst bk) (λ _, holding bk i tr') (λ _, False) (Rst bk))
      |exact (λ h Hh, Hh)|by intros u h [_ ?]|done].
    - intros h Hh. apply (SetEvent_runs ps hex bk N g pec n L all (dom g) (dom g)); rewrite ?Hhx'; try done.
      by destruct Hh.
    - apply holding_untouched; [by apply untouched_SetEvent|].
      by apply steady_SetEvent; rewrite ?Hhx'. }
  intros []. apply (hoare_bind _ (λ _, Rst (receive i x bk))); [by apply holding_receive|].
  intros []. by apply hoare_ret.
Qed.
(** The rounds after that of [x], in order. *)
Definition loop_post (b : bool) h : Prop :=
  if b then ∃ i, Rst (receive i x bk) h ∧ received ps g L x i
  else Rst bk h ∧ ∃ i, r < i ∧ not_before i ∧ i ∉ bk_decided bk.
Lemma receive_loop last k m : (∀ i, i ∈ bk_decided bk → i ≤ last) →
  last < r + 1 + Z.of_nat (k + m) → not_before (r + 1 + Z.of_nat k) →
  hoare (Rst bk) (foldM_ctl (receive_at x) false ((λ k, r + 1 + Z.of_nat k) <$> seq k m))
    loop_post (λ _, False).
Proof.
  intros Hdec. revert k. induction m as [|m IH]; intros k Hlast Hnot.
  { apply hoare_ret. intros h HR. split; [done|]. exists (r + 1 + Z.of_nat k). split; [lia|].
    split; [done|]. intros Hin%Hdec. lia. }
  cbn [seq fmap list_fmap foldM_ctl]. eapply hoare_bind; [apply receive_at_exact; [lia|done]|].
  intros [b|[]]; simpl.
  - intros h (HR & -> & Hrec). revert h HR. apply IH; [lia|].
    intros i' Hi'. destruct (decide (i' = r + 1 + Z.of_nat k)) as [->|Hne]; [done|]. apply Hnot. lia.
  - apply hoare_ret. intros h [HR Hrec]. by exists (r + 1 + Z.of_nat k).
  - apply hoare_ret. intros h [HR Hnd]. split; [done|]. exists (r + 1 + Z.of_nat k). split; [lia|done].
Qed.
End receive.

(** An event that is not received yet, because a round that is needed has not
    been decided. *)
Definition stuck bk x : Prop :=
  ∀ i, received ps g L x i → ∃ j, 0 ≤ j ≤ i ∧ j ∉ bk_decided bk.
Lemma receives_unique x i b1 b2 : is_Some (g !! x) →
  receives ps g L x i b1 → receives ps g L x i b2 → b1 = b2.
Proof.
  assert (same_events g g) as Hsame by (intros ? ? ?; congruence).
  intros Hx. apply (receives_agree ps Hsm g pec n L Hok HL g pec n L Hok HL Hsame
    (grow_forks ps Hsm g g pec n Hok Hsame ltac:(done))); done.
Qed.
Lemma received_unique x i1 i2 : received ps g L x i1 → received ps g L x i2 → i1 = i2.
Proof.
  assert (same_events g g) as Hsame by (intros ? ? ?; congruence).
  apply (received_agree ps Hsm g pec n L g pec n L x i1 i2 Hok HL Hok HL Hsame
    (grow_forks ps Hsm g g pec n Hok Hsame ltac:(done))).
Qed.
Lemma receive_event_exact bk l x : is_Some (g !! x) →
  hoare (Rst bk) (receive_event fuel l x)
    (λ l' h, (l' = l ∧ ∃ i, Rst (receive i x bk) h ∧ received ps g L x i) ∨
             (l' = l ++ [x] ∧ Rst bk h ∧ stuck bk x)) (λ _, False).
Proof.
  intros Hx. unfold receive_event.
  eapply hoare_bind; [apply (round_runs ps hex Hhex Hsm N g pec n L Hok HL Hn fuel Hfuel bk (dom g) (dom g) x
    (ready_all x Hx))|].
  intros r. simpl. apply hoare_pure. intros Hr.
  destruct (L !! x) as [[r' w]|] eqn:HLx; simpl in Hr; [|done]. injection Hr as ->.
  apply (hoare_bind _ (λ last h, Rst bk h ∧ ∀ i, i ∈ bk_decided bk → i ≤ last)).
  { apply hoare_gets. intros h HR. split; [done|]. rewrite LastRound_law.
    destruct HR as [_ (_ & _ & _ & _ & (_ & _ & _ & _ & H5 & H6) & _)].
    intros i Hi. apply H6. destruct (H5 i Hi) as (ri & -> & _). eauto. }
  intros last. apply hoare_pure. intros Hlast.
  eapply hoare_bind.
  - apply (receive_loop x r w HLx bk last 0); [done|lia|]. intros i' Hi'. lia.
  - intros b. apply hoare_ret. destruct b; intros h Hb; [by left|]. right. split; [done|].
    destruct Hb as [HR (i0 & Hi0 & Hnot & Hnd)]. split; [done|]. intros i Hri. exists i0.
    pose proof (proj1 (proj2 HL) x _ _ HLx). split; [|done].
    destruct (decide (i0 ≤ i)) as [|Hgt]; [lia|]. exfalso.
    destruct Hri as (r2 & w2 & HLx2 & Hi & Hrec & _). assert (r2 = r) as -> by congruence.
    by pose proof (receives_unique x i true false Hx Hrec (Hnot i ltac:(lia))).
Qed.

(** ** All the events that wait

    [shelved bk l]: the events of [l] wait to be received, each other event is
    among the received events of one round, the one that the graph says. *)
Definition shelved bk (l : list string) : Prop :=
  NoDup l ∧ (∀ x, x ∈ l ↔ is_Some (g !! x) ∧ ∀ r, x ∉ bk_received bk r) ∧
  (∀ r, NoDup (bk_received bk r)) ∧ (∀ r x, x ∈ bk_received bk r → received ps g L x r).
(** The received events grow, the rest stays. *)
Definition grows bk bk' : Prop :=
  bk_waiting bk' = bk_waiting bk ∧ bk_queue bk' = bk_queue bk ∧ bk_frames bk' = bk_frames bk ∧
  bk_decided bk' = bk_decided bk ∧ ∀ r x, x ∈ bk_received bk r → x ∈ bk_received bk' r.
(** Nothing is left to receive in the rounds that are decided, with all those
    before them. *)
Definition caught_up bk : Prop :=
  ∀ i, (∀ j, 0 ≤ j ≤ i → j ∈ bk_decided bk) → ∀ x, received ps g L x i → x ∈ bk_received bk i.
Definition set_waiting (l : list string) bk : Book :=
  mkBook (bk_received bk) l (bk_queue bk) (bk_frames bk) (bk_decided bk).

Lemma elem_of_receive i x bk r y :
  y ∈ bk_received (receive i x bk) r ↔ y ∈ bk_received bk r ∨ (r = i ∧ y = x).
Proof.
  simpl. case_decide as Hd; [|naive_solver]. rewrite elem_of_app, list_elem_of_singleton. naive_solver.
Qed.
Lemma shelved_receive i x bk l xs : shelved bk (l ++ x :: xs) → received ps g L x i →
  shelved (receive i x bk) (l ++ xs).
Proof.
  intros (Hnd & Hin & Hnr & Hrec) Hx.
  assert (NoDup (x :: l ++ xs)) as [Hx' Hnd']%NoDup_cons by (by rewrite Permutation_middle).
  assert (∀ y, y ∈ l ++ x :: xs ↔ y = x ∨ y ∈ l ++ xs) as Hmid by (intros y; set_solver).
  destruct (proj1 (Hin x) ltac:(set_solver)) as [_ Hxr].
  split; [done|]. split; [|split].
  - intros y. setoid_rewrite elem_of_receive. specialize (Hin y). rewrite Hmid in Hin.
    destruct (decide (y = x)) as [->|Hne]; [naive_solver|]. naive_solver.
  - intros r. simpl. case_decide; [|done]. apply NoDup_app. split; [done|]. split; [|apply NoDup_singleton].
    intros y Hy ->%list_elem_of_singleton. by apply (Hxr r).
  - intros r y [Hy|[-> ->]]%elem_of_receive; auto.
Qed.
Lemma receive_all bk0 xs l bk : shelved bk (l ++ xs) → Forall (stuck bk0) l → grows bk0 bk →
  hoare (Rst bk) (foldM (receive_event fuel) l xs)
    (λ l' h, ∃ bk', Rst bk' h ∧ shelved bk' l' ∧ Forall (stuck bk0) l' ∧ grows bk0 bk') (λ _, False).
Proof.
  revert l bk. induction xs as [|x xs IH]; intros l bk Hs Hl Hg.
  { apply hoare_ret. intros h HR. rewrite app_nil_r in Hs. by exists bk. }
  cbn [foldM]. eapply hoare_bind.
  { apply receive_event_exact. apply Hs. set_solver. }
  intros l' h [(-> & i & HR & Hx)|(-> & HR & Hx)]; revert h HR.
  - apply IH; [by apply shelved_receive|done|]. destruct Hg as (? & ? & ? & ? & Hr).
    do 4 (split; [done|]). intros r y Hy. apply elem_of_receive. auto.
  - apply IH; [by rewrite <-app_assoc|apply Forall_app; split; [done|]|done].
    constructor; [|constructor]. unfold stuck in *. destruct Hg as (_ & _ & _ & <- & _). done.
Qed.
Lemma DecideRoundReceived_exact bk : shelved bk (bk_waiting bk) →
  hoare (Rst bk) (DecideRoundReceived fuel)
    (λ _ h, ∃ bk' l, Rst (set_waiting l bk') h ∧ shelved bk' l ∧ caught_up bk' ∧ grows bk bk') (λ _, False).
Proof.
  intros Hs. unfold DecideRoundReceived.
  apply (hoare_bind _ (λ xs h, Rst bk h ∧ xs = bk_waiting bk)).
  { apply hoare_gets. intros h HR. split; [done|]. apply HR. }
  intros xs. apply hoare_pure. intros ->. eapply hoare_bind.
  { apply (receive_all bk _ [] bk); [done|constructor|]. by repeat split. }
  intros l h (bk' & [HI (? & ? & ? & ? & (? & _ & ?) & ?)] & Hs' & Hl & Hg). exists bk', l. split; [|split; [done|split; [|done]]].
  - split; [exact HI|]. do 4 (split; [done|]). split; [|done]. done.
  - intros i Hdec x Hx. destruct Hg as (_ & _ & _ & Hd & _). rewrite Hd in Hdec.
    destruct Hs' as (_ & Hin & _ & Hrec). rewrite Forall_forall in Hl.
    destruct (decide (x ∈ l)) as [Hxl|Hxl].
    + destruct (Hl x Hxl i Hx) as (j & Hj & Hnd). by destruct Hnd; apply Hdec.
    + destruct (decide (x ∈ bk_received bk' i)) as [|Hxi]; [done|]. destruct Hxl. apply Hin.
      split; [destruct Hx as (r & w & HLx & _); apply HL; eauto|].
      intros r Hxr. pose proof (received_unique x r i (Hrec r x Hxr) Hx) as ->. done.
Qed.
End decisions.
