(* ===== verification/Committed.v ===== *)
(** * The blocks that a hashgraph commits are those of its graph

    When the rounds up to [i] are decided and the events that wait have been
    looked at, the frame of round [i] has the events that the graph receives
    in that round ([HG_GetFrame_exact]); [ProcessDecidedRounds] commits a
    block for each round of the front of the queue, in order, but for the
    rounds without transactions ([ProcessDecidedRounds_exact]). *)
From S2P Require Export Content Commit Decisions.

#[export] Instance fe_le_total : Total fe_le.
Proof. intros a b. unfold fe_le. lia. Qed.

Section committed.
Context {KP : Keys} {CP : Codec} {RO : RangeOrder}.
Context {St : Type} {STO : Store St} {LAW : StoreLaws St}.
Abbreviation H := (GoM error (Hashgraph St)).
Context (ps : PeerSet) (hex : string) (Hhex : PS_Hex ps = Ok hex) (Hsm : 2 ≤ SuperMajority ps).
Context (N : Z) (g : gmap string Event) (pec : ParticipantEventsCache) (n : Z).
Context (L : gmap string (Z * bool)) (Hok : dag_ok g pec n) (HL : ledger ps g L) (fuel : nat).
Implicit Types (h : Hashgraph St) (bk : Book).
Abbreviation Rst bk := (Recorded.Rst ps hex bk N g pec n L all (dom g) (dom g)).
Abbreviation steady bk := (respects (E:=error) (keeps (Rst bk))).
Abbreviation holding bk := (Recorded.holding ps hex bk N g pec n L all (dom g) (dom g)).

Hint Resolve steady_GetEvent steady_GetRound steady_GetBlock steady_GetFrame steady_SetBlock
  steady_AddConsensusEvent steady_mutBlock steady_readStore steady_readStoreR : respects.
Hint Extern 1 (respects _ (lamportTimestamp _ _)) => by apply steady_lamport : respects.
Hint Extern 1 (respects _ (round _ _)) => by apply steady_round; auto using ready_all : respects.
Hint Extern 4 (respects _ (modify _)) => apply steady_fields; done : respects.

Lemma steady_createFrameEvent bk x : steady bk (createFrameEvent fuel x).
Proof. unfold createFrameEvent. respects_go. Qed.
Hint Resolve steady_createFrameEvent : respects.
Lemma steady_root_events bk k p i l : steady bk (root_events fuel k p i l).
Proof. revert i l. induction k as [|k IH]; intros i l; simpl; respects_go; auto. Qed.
Hint Resolve steady_root_events : respects.
Lemma steady_createRoot bk p hd : steady bk (createRoot fuel p hd).
Proof. unfold createRoot. respects_go. Qed.
Hint Resolve steady_createRoot : respects.
Lemma steady_SetAnchorBlock bk b : steady bk (SetAnchorBlock b).
Proof. unfold SetAnchorBlock, setAnchorBlock. respects_go. Qed.
Hint Resolve steady_SetAnchorBlock : respects.
Lemma steady_ProcessSigPool bk : steady bk ProcessSigPool.
Proof. unfold ProcessSigPool, process_signature. respects_go. Qed.
Lemma steady_commit_event bk fe : steady bk (commit_event fe).
Proof. unfold commit_event. respects_go. Qed.
Hint Resolve steady_commit_event : respects.

(** ** Frames *)
Definition set_frames (frs : gmap Z Frame) bk : Book :=
  mkBook (bk_received bk) (bk_waiting bk) (bk_queue bk) frs (bk_decided bk).
Definition frames_ok (frs : gmap Z Frame) : Prop := map_Forall (frame_ok ps g L) frs.

Lemma createFrameEvent_exact bk x : is_Some (g !! x) →
  hoare (Rst bk) (createFrameEvent fuel x) (λ fe h, Rst bk h ∧ fe_hex fe = x ∧ fe_ok g fe) (Rst bk).
Proof.
  intros Hx. unfold createFrameEvent.
  apply (hoare_bind _ (λ o h, Rst bk h ∧ match o with inl ev => g !! x = Some (skeleton ev) | inr _ => True end)).
  { intros h HR. destruct (GetEvent_exact ps hex bk N g pec n L all _ _ x h HR) as (r & h' & Hr & HR' & Hrr).
    unfold try. rewrite Hr. destruct r; [|done..]. split; [done|]. apply Hrr. }
  intros [ev|err]; [|apply hoare_throw; tauto]. apply hoare_pure. intros Hev.
  assert (Hex ev = x) as Hhx by (rewrite <-skeleton_Hex; by eapply dag_hex).
  eapply hoare_bind; [apply hoare_Rst; respects_go|]. intros rd.
  eapply hoare_bind; [apply hoare_Rst; respects_go|]. intros ri.
  destruct (CreatedEvents ri !! x) as [te|]; [|by apply hoare_throw].
  apply (hoare_bind _ (λ lt h, Rst bk h ∧ lamport g x lt)).
  { intros h HR. pose proof (steady_lamport ps hex bk N g pec n L all _ _ Hok fuel x h HR) as HR'.
    destruct (lamport_cases N g pec n Hok fuel x h (proj1 HR)) as (r & h' & Hr & _ & Hres).
    rewrite Hr in *. by destruct r. }
  intros lt. apply hoare_pure. intros Hlt. apply hoare_ret. intros h HR. split; [done|].
  unfold fe_ok, fe_hex. simpl. by rewrite Hhx.
Qed.
Lemma frame_events_exact bk l : Forall (λ x, is_Some (g !! x)) l →
  hoare (Rst bk) (frame_events fuel l)
    (λ evs h, Rst bk h ∧ Sorted fe_le evs ∧ fe_hex <$> evs ≡ₚ l ∧ Forall (fe_ok g) evs) (Rst bk).
Proof.
  intros Hl. unfold frame_events.
  apply (hoare_bind _ (λ evs h, Rst bk h ∧ fe_hex <$> evs = l ∧ Forall (fe_ok g) evs)).
  - assert (∀ acc, Forall (fe_ok g) acc → hoare (Rst bk)
      (foldM (λ events eh, re <- createFrameEvent fuel eh ;; ret (events ++ [re])) acc l)
      (λ evs h, Rst bk h ∧ fe_hex <$> evs = (fe_hex <$> acc) ++ l ∧ Forall (fe_ok g) evs) (Rst bk)) as Hgo.
    { induction Hl as [|x l Hx _ IH]; intros acc Hacc.
      { apply hoare_ret. intros h HR. by rewrite app_nil_r. }
      cbn [foldM]. apply (hoare_bind _ (λ acc' h, Rst bk h ∧ fe_hex <$> acc' = (fe_hex <$> acc) ++ [x] ∧
        Forall (fe_ok g) acc')).
      - eapply hoare_bind; [by apply createFrameEvent_exact|]. intros fe. simpl. apply hoare_pure.
        intros [Hfe Hfo]. apply hoare_ret. intros h HR. split; [done|].
        rewrite fmap_app. csimpl. rewrite Hfe. split; [done|]. apply Forall_app. split; [done|]. by apply Forall_singleton.
      - intros acc'. apply hoare_pure. intros [Hhx Hacc'].
        eapply hoare_conseq; [by apply IH|done| |done]. intros evs h (? & -> & ?).
        rewrite Hhx, <-app_assoc. done. }
    by apply (Hgo []).
  - intros evs. apply hoare_pure. intros [Hhx Hfo].
    apply hoare_lift; [|done]. intros evs' h Hsort HR. unfold Sort_FrameEvents in Hsort.
    destruct (fe_sortable evs); [|done]. injection Hsort as <-. split; [done|].
    split; [apply (Sorted_merge_sort fe_le)|]. rewrite merge_sort_Permutation, Hhx.
    done.
Qed.
Lemma frame_timestamp_exact bk ws : Forall (λ x, is_Some (g !! x)) ws →
  hoare (Rst bk) (frame_timestamp ws) (λ t h, Rst bk h ∧ t = Median (stamp g <$> ws)) (Rst bk).
Proof.
  intros Hws. unfold frame_timestamp.
  apply (hoare_bind _ (λ ts h, Rst bk h ∧ ts = stamp g <$> ws));
    [|intros ts; apply hoare_pure; intros ->; by apply hoare_ret].
  assert (∀ acc, hoare (Rst bk)
    (foldM (λ ts fw, ev <- onStore (GetEvent fw) ;; ret (ts ++ [Timestamp ev])) acc ws)
    (λ ts h, Rst bk h ∧ ts = acc ++ (stamp g <$> ws)) (Rst bk)) as Hgo; [|by apply (Hgo [])].
  induction Hws as [|w ws Hw _ IH]; intros acc.
  { apply hoare_ret. intros h HR. by rewrite app_nil_r. }
  cbn [foldM]. apply (hoare_bind _ (λ acc' h, Rst bk h ∧ acc' = acc ++ [stamp g w])).
  - apply (hoare_bind _ (λ ev h, Rst bk h ∧ Timestamp ev = stamp g w)).
    + intros h HR. destruct (GetEvent_exact ps hex bk N g pec n L all _ _ w h HR) as (r & h' & -> & HR' & Hrr).
      destruct r as [ev| | |]; [|done..]. split; [done|]. destruct Hrr as [Hg _]. unfold stamp. by rewrite Hg.
    + intros ev. apply hoare_pure. intros ->. by apply hoare_ret.
  - intros acc'. apply hoare_pure. intros ->. eapply hoare_conseq; [by apply IH|done| |done].
    intros ts h [? ->]. csimpl. by rewrite <-app_assoc.
Qed.

Lemma Rst_settled bk j h : Rst bk h → j ∈ bk_decided bk → round_settled ps g L j.
Proof.
  intros HR Hj. pose proof HR as [_ (_ & _ & _ & _ & (_ & _ & _ & _ & H5 & _) & _)].
  destruct (H5 j Hj) as (ri & Hri & Hd).
  exact (proj1 (holding_settled ps hex Hsm N g pec n L Hok HL bk j ri h (conj HR Hri) Hd)).
Qed.
Lemma SetFrame_exact bk f : frames_ok (bk_frames bk) → frame_ok ps g L (fr_Round f) f →
  hoare (Rst bk) (onStore (SetFrame f))
    (λ _ h, ∃ frs, frames_ok frs ∧ Rst (set_frames frs bk) h) (λ _, False).
Proof.
  intros Hfrs Hf h HR. pose proof HR as [HI (? & ? & ? & ? & (? & ? & ? & Hfr & ? & ?) & ?)].
  pose proof (stable_SetFrame N g pec n f h HI) as HI'.
  destruct (SetFrame_law f (hg_Store h) (proj1 HI)) as (Hres & _ & frs & (Hsub & _) & Hv).
  unfold onStore, zoom in *. destruct (SetFrame f (hg_Store h)) as [res s']. simpl in *. subst res.
  exists frs. split.
  - intros i f' Hi. rewrite map_subseteq_spec in Hsub. apply Hsub in Hi.
    apply lookup_insert_Some in Hi as [[<- <-]|[_ Hi]]; [done|]. apply Hfrs. unfold hv in Hfr. congruence.
  - split; [done|]. unfold ext, booked, hv in *. simpl. rewrite Hv. simpl. done.
Qed.

Section frame.
Context (bk : Book) (i : Z) (Hi : 0 ≤ i) (Hdec : ∀ j, 0 ≤ j ≤ i → j ∈ bk_decided bk).
Context (Hup : caught_up ps g L bk) (Hsh : shelved ps g L bk (bk_waiting bk)).
Context (Hfrs : frames_ok (bk_frames bk)).
Definition framed h : Prop := ∃ frs, frames_ok frs ∧ Rst (set_frames frs bk) h.
Lemma framed_Rst h : Rst bk h → framed h.
Proof. intros HR. exists (bk_frames bk). split; [done|]. by destruct bk. Qed.
Lemma HG_GetFrame_exact :
  hoare (Rst bk) (HG_GetFrame fuel i) (λ f h, framed h ∧ frame_ok ps g L i f) framed.
Proof.
  unfold HG_GetFrame.
  apply (hoare_bind _ (λ o h, Rst bk h ∧ match o with inl f => frame_ok ps g L i f | inr _ => True end)).
  { intros h HR. pose proof (steady_GetFrame ps hex bk N g pec n L all _ _ i h HR) as HR'.
    destruct (GetFrame_law i (hg_Store h) (proj1 (proj1 HR))) as (_ & _ & Hf).
    unfold try, onStore, zoom in *. destruct (GetFrame i (hg_Store h)) as [res s']. simpl in *.
    destruct HR as [_ (_ & _ & _ & _ & (_ & _ & _ & Hfr & _) & _)]. unfold hv in Hfr. rewrite Hfr in Hf.
    destruct (bk_frames bk !! i) as [f|] eqn:Hfi; simpl in Hf.
    - subst res. split; [done|]. by apply Hfrs.
    - destruct Hf as (err & -> & _). done. }
  intros [f|err]; [apply hoare_ret; intros h [HR Hf]; split; [by apply framed_Rst|done]|].
  destruct (negb (IsStore err KeyNotFound)); [apply hoare_throw; intros h [HR _]; by apply framed_Rst|].
  eapply hoare_fail; [|apply framed_Rst]. apply hoare_pure. intros _.
  apply (hoare_bind _ (λ ri h, Rst bk h ∧ ReceivedEvents ri = bk_received bk i ∧
    (∀ j, 0 ≤ j ≤ i → round_settled ps g L j) ∧
    famous_set ps g L i (list_to_set (FamousWitnesses ri)))).
  { eapply hoare_conseq; [apply (holding_GetRound ps hex bk N g pec n L all (dom g) (dom g) i)|done| |done].
    intros ri h Hh. pose proof Hh as [HR Hri]. split; [done|].
    pose proof HR as [_ (_ & _ & _ & _ & (H1 & _ & _ & _ & H5 & _) & _)].
    split; [by rewrite H1, Hri|]. split; [intros j Hj; by eapply Rst_settled; [|apply Hdec]|].
    destruct (H5 i (Hdec i ltac:(lia))) as (ri' & Hri' & Hd). unfold holds in Hri.
    assert (ri' = ri) as -> by congruence.
    exact (proj2 (holding_settled ps hex Hsm N g pec n L Hok HL bk i ri h Hh Hd)). }
  intros ri. apply hoare_pure. intros (Hrec & Hset & HF).
  assert (Forall (λ x, is_Some (g !! x)) (ReceivedEvents ri)) as Hknown.
  { rewrite Hrec, Forall_forall. intros x Hx. destruct Hsh as (_ & _ & _ & Hr).
    destruct (Hr i x Hx) as (r & w & HLx & _). apply HL. eauto. }
  assert (Forall (λ x, is_Some (g !! x)) (FamousWitnesses ri)) as Hwits.
  { rewrite Forall_forall. intros x Hx. apply (famous_known ps g L i x HL), HF. by apply elem_of_list_to_set. }
  apply (hoare_peers ps hex bk N g pec n L all (dom g) (dom g)); [done|].
  eapply hoare_bind; [by apply frame_events_exact|]. intros evs. simpl. apply hoare_pure. intros (Hsort & Hperm & Hev).
  eapply hoare_bind; [apply hoare_Rst; unfold frame_roots_own; respects_go|]. intros roots.
  eapply hoare_bind; [apply hoare_Rst; unfold frame_roots_others; respects_go|]. intros roots'.
  eapply hoare_bind; [apply hoare_Rst; respects_go|]. intros allPeerSets.
  eapply hoare_bind; [by apply frame_timestamp_exact|]. intros t. simpl. apply hoare_pure. intros ->.
  cbv zeta. set (f := mkFrame _ _ _ _ _ _).
  assert (frame_ok ps g L i f) as Hf.
  { destruct Hsh as (_ & _ & Hnd & Hr). split; [done|]. split; [done|]. split; [done|]. split; [done|]. split.
    - change (fr_Events f) with evs.
      split; [done|]. split; [rewrite Hperm, Hrec; apply Hnd|]. split; [done|]. intros x. rewrite Hperm, Hrec. split; [apply Hr|]. apply Hup. done.
    - exists (FamousWitnesses ri). split; [apply NoDup_FamousWitnesses|done]. }
  eapply hoare_bind; [eapply hoare_fail; [by apply (SetFrame_exact bk f)|done]|].
  intros []. apply hoare_ret. intros h Hh. by split.
Qed.
End frame.

(** ** Blocks *)
Definition peers_hash (peers : list Peer) : bytes :=
  match NewPeerSet peers with
  | Ok ps' => match PS_Hash ps' with Ok h => h | _ => [] end
  | _ => []
  end.
(** What is said of a block: all of its body but the index, which is its
    place among the blocks, the hash of the frame and what the application
    answers. *)
Definition block_body (b : Block) : Z * list bytes * list InternalTransaction * Z * bytes :=
  (Block_RoundReceived b, Block_Transactions b, Block_InternalTransactions b, Block_Timestamp b,
   Block_PeersHash b).
Definition frame_body (f : Frame) : option (Z * list bytes * list InternalTransaction * Z * bytes) :=
  if (0 <? zlen (frame_txs f)) || (0 <? zlen (frame_itxs f))
  then Some (fr_Round f, frame_txs f, frame_itxs f, fr_Timestamp f, peers_hash (fr_Peers f))
  else None.
(** The blocks of the frames [fs] of the rounds from [k] on. *)
Definition told (k : Z) (fs : list Frame) (new : list Block) : Prop :=
  block_body <$> new = omap frame_body fs ∧
  ∀ r f, fs !! r = Some f → frame_ok ps g L (k + Z.of_nat r) f.
Lemma told_snoc k fs f new : told k fs new → frame_ok ps g L (k + zlen fs) f →
  (frame_body f = None → told k (fs ++ [f]) new) ∧
  (∀ b, frame_body f = Some (block_body b) → told k (fs ++ [f]) (new ++ [b])).
Proof.
  intros [Hb Hfs] Hf.
  assert (∀ r f', (fs ++ [f]) !! r = Some f' → frame_ok ps g L (k + Z.of_nat r) f') as Hfs'.
  { intros r f' [Hr|[Hr Hf']]%lookup_app_Some; [by apply Hfs|].
    apply list_lookup_singleton_Some in Hf' as [H0 <-]. replace r with (length fs) by lia. done. }
  split.
  - intros Hn. split; [|done]. rewrite omap_app, Hb. simpl. by rewrite Hn, app_nil_r.
  - intros b Hs. split; [|done]. rewrite omap_app, fmap_app, Hb. simpl. by rewrite Hs.
Qed.
Lemma block_body_of_frame j f b : NewBlockFromFrame j f = Ok b →
  block_body b = (fr_Round f, frame_txs f, frame_itxs f, fr_Timestamp f, peers_hash (fr_Peers f)).
Proof.
  intros (_ & Hr & Ht & Hi & Hts & _ & (ps' & Hps & Hph) & _)%NewBlockFromFrame_spec.
  unfold block_body, peers_hash. by rewrite Hps, Hph, Hr, Ht, Hi, Hts.
Qed.

Lemma quiet_Rst bk h h' : (st_ok (hg_Store h) → quiet h h') → Rst bk h → Rst bk h'.
Proof.
  intros Hq [HI He].
  destruct (Hq (proj1 HI)) as (Hs & Hev & Hrd & Hps & Hpe & Hsz & Hm & Ht & Hu & Hlb & Hp & Hf & Hlr).
  unfold Recorded.Rst, Ist, ext, booked, graph in *.
  rewrite Hev, Hrd, Hps, Hpe, Hsz, Hm, Ht, Hu, Hlb, Hp, Hf, Hlr. tauto.
Qed.

(** A round that is marked as decided stays so. *)
Lemma Update_from c ds pr : pr ∈ sortedItems (PRC_Update c ds) →
  ∃ pr0, pr0 ∈ sortedItems c ∧ pr_Index pr0 = pr_Index pr ∧ (pr_Decided pr0 = true → pr_Decided pr = true).
Proof.
  unfold PRC_Update. revert c. induction ds as [|d ds IH]; intros c; simpl; [by exists pr|].
  intros Hin. destruct (IH _ Hin) as (pr1 & Hpr1 & Hi1 & Hd1). unfold mark_decided in Hpr1.
  destruct (prc_items c !! d); [|by exists pr1]. simpl in Hpr1.
  apply list_elem_of_fmap in Hpr1 as (pr0 & -> & Hpr0). exists pr0. split; [done|].
  destruct (Z.eqb_spec (pr_Index pr0) d); simpl in *; auto.
Qed.
Lemma Update_marks c ds pr : prc_wf c → pr ∈ sortedItems (PRC_Update c ds) → pr_Index pr ∈ ds →
  pr_Decided pr = true.
Proof.
  unfold PRC_Update. revert c. induction ds as [|d ds IH]; intros c Hwf Hin; simpl in *; [set_solver|].
  intros Hd. destruct (decide (pr_Index pr ∈ ds)) as [|Hnot].
  { apply (IH (mark_decided d c)); [by apply mark_decided_wf|done..]. }
  assert (pr_Index pr = d) as <- by set_solver.
  destruct (Update_from _ _ _ Hin) as (pr1 & Hpr1 & Hi1 & Hd1). apply Hd1. unfold mark_decided in Hpr1.
  destruct Hwf as (_ & Hitems & _). destruct (prc_items c !! pr_Index pr) as [dr|] eqn:Hdr.
  - simpl in Hpr1. apply list_elem_of_fmap in Hpr1 as (pr0 & -> & Hpr0).
    destruct (Z.eqb_spec (pr_Index pr0) (pr_Index pr)); [done|]. by simpl in *.
  - apply Hitems in Hpr1. congruence.
Qed.

Section commit.
Context {Y : Type} (cb : Block → GoM error (Hashgraph St * Y) unit) (Hcb : cb_quiet cb).
(** [T y new]: the callbacks for the blocks [new] have led to [y]. *)
Context (T : Y → list Block → Prop).
Context (HT : ∀ b hx new, T hx.2 new → T (cb b hx).2.2 (new ++ [b])).

Section round.
Context (bk : Book) (k : Z).
Definition J (fs : list Frame) (s : Hashgraph St * Y) : Prop :=
  framed bk s.1 ∧ ∃ new, T s.2 new ∧ told k fs new.
Abbreviation C := (λ s : Hashgraph St * Y, framed bk s.1).
Lemma J_held {A} fs (m : H A) (φ : A → Prop) :
  hoare (framed bk) m (λ a h, framed bk h ∧ φ a) (framed bk) →
  hoare3 (J fs) (onHG m) (λ a s, J fs s ∧ φ a) (J fs) C.
Proof.
  intros Hm [h y] [Hh Hnew]. simpl in *. specialize (Hm h Hh). unfold onHG, zoom. simpl.
  destruct (m h) as [[a|e| |] h']; simpl; [|done..]. destruct Hm. done.
Qed.
Lemma J_steady {A} fs (m : H A) : (∀ frs, steady (set_frames frs bk) m) →
  hoare3 (J fs) (onHG m) (λ _, J fs) (J fs) C.
Proof.
  intros Hm [h y] [(frs & Hfrs & HR) Hnew]. specialize (Hm frs h HR). unfold onHG, zoom. simpl in *.
  assert (framed bk (m h).2) as Hf by (by exists frs). by destruct (m h) as [[]].
Qed.
(** The same, of a method that does not fail. *)
Lemma J_runs {A} fs (m : H A) F C' : (∀ frs, steady (set_frames frs bk) m) → (∀ h, ∃ a, (m h).1 = Ok a) →
  hoare3 (J fs) (onHG m) (λ _, J fs) F C'.
Proof.
  intros Hm Hrun s Hs. pose proof (J_steady fs m Hm s Hs) as H'. unfold onHG, zoom in *.
  destruct (Hrun s.1) as [a Ha]. destruct (m s.1) as [r h']. simpl in Ha. by subst r.
Qed.

Context (Hup : caught_up ps g L bk) (Hsh : shelved ps g L bk (bk_waiting bk)).
Lemma framed_GetFrame i : 0 ≤ i → (∀ j, 0 ≤ j ≤ i → j ∈ bk_decided bk) →
  hoare (framed bk) (HG_GetFrame fuel i) (λ f h, framed bk h ∧ frame_ok ps g L i f) (framed bk).
Proof.
  intros Hi Hdec h (frs & Hfrs & HR).
  exact (HG_GetFrame_exact (set_frames frs bk) i Hi Hdec Hup Hsh Hfrs h HR).
Qed.
Lemma commit_block fs frame b : frame_ok ps g L (k + zlen fs) frame → frame_body frame = Some (block_body b) →
  hoare3 (J fs) (onHG (onStore (SetBlock b)) ;;; _ <- try (cb b) ;; ret tt) (λ _, J (fs ++ [frame]))
    (J fs) C.
Proof.
  intros Hf Hb. eapply hoare3_bind; [apply J_steady; intros; apply steady_SetBlock|]. intros [].
  intros [h y] [(frs & Hfrs & HR) (new & HTn & Htold)]. simpl in *.
  assert (framed bk (cb b (h, y)).2.1) as Hh.
  { exists frs. split; [done|]. apply (quiet_Rst _ h _ (Hcb b (h, y)) HR). }
  assert (T (cb b (h, y)).2.2 (new ++ [b])) as HT' by (by apply (HT b (h, y))).
  assert (J (fs ++ [frame]) (cb b (h, y)).2) as HJ.
  { split; [done|]. exists (new ++ [b]). split; [done|]. by apply (told_snoc k fs frame new). }
  unfold bind, try. by destruct (cb b (h, y)) as [[]].
Qed.
Lemma process_round_exact fs : 0 ≤ k → (∀ j, 0 ≤ j ≤ k + zlen fs → j ∈ bk_decided bk) →
  hoare3 (J fs) (process_round fuel cb (k + zlen fs)) (λ _ s, ∃ f, J (fs ++ [f]) s) (J fs) C.
Proof.
  intros Hk Hdec. set (i := k + zlen fs) in *. assert (0 ≤ i) as Hi by (unfold i, zlen; lia).
  unfold process_round. eapply hoare3_bind; [apply J_steady; intros; apply steady_GetRound|]. intros ri0.
  eapply hoare3_bind.
  { apply (J_held fs _ (frame_ok ps g L i)). intros h Hh.
    pose proof (framed_GetFrame i Hi Hdec h Hh) as H'. unfold wrap. by destruct (HG_GetFrame fuel i h) as [[]]. }
  intros frame. simpl. apply hoare3_pure. intros Hf.
  apply (hoare3_bind _ (λ _, J (fs ++ [frame]))).
  2:{ intros [] s Hs. pose proof (J_runs (fs ++ [frame]) (lcr <- gets LastConsensusRound ;;
      if (match lcr with None => true | Some l => l <? i end) then setLastConsensusRound i else ret tt)
      (J fs) C) as Hlast. unfold setLastConsensusRound in *.
    specialize (Hlast ltac:(intros frs; respects_go)
      ltac:(intros h; unfold bind, gets; simpl; case_match; by eexists) s Hs).
    by destruct (onHG _ s) as [[]]; [exists frame|..]. }
  assert (∀ s, J fs s → frame_body frame = None → J (fs ++ [frame]) s) as Hnone.
  { intros s [Hh (new & HTn & Htold)] Hb. split; [done|]. exists new. split; [done|].
    by apply (told_snoc k fs frame new). }
  destruct (0 <? zlen (fr_Events frame)) eqn:Hlen.
  2:{ apply hoare3_ret. intros s Hs. apply Hnone; [done|]. unfold frame_body, frame_txs, frame_itxs.
    apply Z.ltb_ge in Hlen. unfold zlen in Hlen. by destruct (fr_Events frame); [|simpl in Hlen; lia]. }
  eapply hoare3_bind; [apply J_steady; intros; respects_go|]. intros [].
  eapply hoare3_bind; [apply J_steady; intros; apply steady_readStore|]. intros lb.
  apply (hoare3_bind _ (λ b s, J fs s ∧ NewBlockFromFrame (lb + 1) frame = Ok b)).
  { eapply hoare3_of; [apply (hoare_lift (J fs) (λ b s, J fs s ∧ NewBlockFromFrame (lb + 1) frame = Ok b) (J fs))|].
    - done.
    - done.
    - intros s Hs. split; [done|apply Hs]. }
  intros b. apply hoare3_pure. intros Hb. apply block_body_of_frame in Hb as Hbody.
  apply NewBlockFromFrame_spec in Hb as (_ & _ & Htx & Hitx & _).
  apply (hoare3_bind _ (λ _, J (fs ++ [frame]))).
  - rewrite Htx, Hitx. fold (frame_txs frame) (frame_itxs frame).
    destruct ((0 <? zlen (frame_txs frame)) || (0 <? zlen (frame_itxs frame))) eqn:Hne.
    + apply commit_block; [done|]. unfold frame_body. by rewrite Hne, Hbody.
    + apply hoare3_ret. intros s Hs. apply Hnone; [done|]. unfold frame_body. by rewrite Hne.
  - intros []. apply J_runs; [intros; respects_go|]. intros h. by eexists.
Qed.

(** The round [j], if it is there, is not decided. *)
Definition drained (rs : list PendingRound) (j : Z) : Prop :=
  ∀ pr, pr ∈ rs → pr_Index pr = j → pr_Decided pr = false.
(** Rounds of the front of the queue. *)
Lemma process_rounds_exact rs fs processed : 0 ≤ k →
  pr_Index <$> rs = seqZ (k + zlen fs) (zlen rs) →
  (∀ pr, pr ∈ rs → pr_Decided pr = true → pr_Index pr ∈ bk_decided bk) →
  (∀ j, 0 ≤ j < k + zlen fs → j ∈ bk_decided bk) →
  hoare3 (J fs) (process_rounds fuel cb processed rs)
    (λ out s, ∃ fs', J (fs ++ fs') s ∧ out.1 = processed ++ seqZ (k + zlen fs) (zlen fs') ∧
       (∀ j, 0 ≤ j < k + zlen (fs ++ fs') → j ∈ bk_decided bk) ∧
       (out.2 = None → drained rs (k + zlen (fs ++ fs')))) (λ _, False) C.
Proof.
  intros Hk. assert (∀ rs fs processed (e : option error) s, J fs s →
    (∀ j, 0 ≤ j < k + zlen fs → j ∈ bk_decided bk) → (e = None → drained rs (k + zlen fs)) →
    ∃ fs', J (fs ++ fs') s ∧ (processed, e).1 = processed ++ seqZ (k + zlen fs) (zlen fs') ∧
      (∀ j, 0 ≤ j < k + zlen (fs ++ fs') → j ∈ bk_decided bk) ∧
      ((processed, e).2 = None → drained rs (k + zlen (fs ++ fs')))) as Hstop.
  { intros rs1 fs1 p1 e s Hs Hd He. exists []. rewrite !app_nil_r. done. }
  revert fs processed. induction rs as [|pr rs IH]; intros fs processed Hix Hpr Hdec.
  { apply hoare3_ret. intros s Hs. apply Hstop; [done..|]. intros _ pr Hin. set_solver. }
  csimpl in Hix. unfold zlen in Hix at 2. simpl in Hix. rewrite seqZ_cons in Hix by lia.
  injection Hix as Hix Hix'.
  assert (∀ pr', pr' ∈ rs → k + zlen fs < pr_Index pr') as Hlater.
  { intros pr' Hin. assert (pr_Index pr' ∈ pr_Index <$> rs) as Hin' by (apply list_elem_of_fmap; eauto).
    rewrite Hix' in Hin'. apply elem_of_seqZ in Hin'. lia. }
  simpl. destruct (pr_Decided pr) eqn:Hd; simpl.
  2:{ apply hoare3_ret. intros s Hs. apply Hstop; [done..|].
    intros _ pr' [->|Hin]%elem_of_cons Hidx; [done|]. specialize (Hlater pr' Hin). lia. }
  assert (pr_Index pr ∈ bk_decided bk) as Hin by (apply Hpr; set_solver).
  assert (∀ j, 0 ≤ j ≤ k + zlen fs → j ∈ bk_decided bk) as Hdec'.
  { intros j Hj. destruct (decide (j = pr_Index pr)) as [->|Hne]; [done|]. apply Hdec. lia. }
  assert (∀ f, zlen (fs ++ [f]) = zlen fs + 1) as Hlen
    by (intros f; unfold zlen; rewrite length_app; simpl; lia).
  rewrite Hix. eapply hoare3_bind; [by apply hoare3_try, process_round_exact|].
  intros [u|err]; [|apply hoare3_ret; intros s Hs; by apply Hstop]. intros s (f & HJ).
  assert (pr_Index <$> rs = seqZ (k + zlen (fs ++ [f])) (zlen rs)) as Hix''.
  { rewrite Hix', Hlen. f_equal; unfold zlen; lia. }
  pose proof (IH (fs ++ [f]) (processed ++ [k + zlen fs]) Hix'' ltac:(set_solver)
    ltac:(intros j; rewrite Hlen; intros ?; apply Hdec'; lia) s HJ) as Hrest.
  destruct (process_rounds fuel cb (processed ++ [k + zlen fs]) rs s) as [[out|e| |] s']; [|done..].
  destruct Hrest as (fs' & HJ' & Hout & Hdec'' & Hdr). exists (f :: fs').
  rewrite (cons_middle f fs fs'), app_assoc. split; [done|]. split; [|split; [done|]].
  2:{ intros He pr' [->|Hin2]%elem_of_cons Hidx; [|by apply (Hdr He)].
    rewrite Hix in Hidx. unfold zlen in Hidx. rewrite !length_app in Hidx. simpl in Hidx. lia. }
  rewrite Hout, <-app_assoc, Hlen. f_equal. simpl. unfold zlen. simpl.
  rewrite (seqZ_cons (k + Z.of_nat (length fs)) (Z.of_nat (S (length fs')))) by lia.
  f_equal. f_equal; lia.
Qed.
End round.

Lemma consecutive k l : StronglySorted Z.lt l → (∀ r, r ∈ l → k ≤ r) →
  (∀ r j, r ∈ l → k ≤ j < r → j ∈ l) → l = seqZ k (zlen l).
Proof.
  intros Hs. revert k. induction Hs as [|a l _ IH Hlt]; intros k Hge Hcl; [done|].
  rewrite Forall_forall in Hlt.
  assert (a = k) as ->.
  { pose proof (Hge a ltac:(set_solver)). destruct (decide (a = k)) as [|Hne]; [done|].
    destruct (proj1 (elem_of_cons l k a) (Hcl a k ltac:(set_solver) ltac:(lia))) as [|Hin]; [done|].
    specialize (Hlt k Hin). lia. }
  unfold zlen. simpl length. rewrite seqZ_cons by lia. f_equal.
  rewrite (IH (k + 1)) at 1.
  - f_equal; unfold zlen; lia.
  - intros r Hr. specialize (Hlt r Hr). lia.
  - intros r j Hr Hj. destruct (proj1 (elem_of_cons l j k) (Hcl r j ltac:(set_solver) ltac:(lia))); [lia|done].
Qed.
Lemma Queued_items c r : prc_wf c → Queued c r = true ↔ ∃ pr, pr ∈ sortedItems c ∧ pr_Index pr = r.
Proof.
  intros (_ & Hin & Hkey). unfold Queued. split.
  - destruct (prc_items c !! r) as [pr|] eqn:Hr; [|done]. intros _. exists pr.
    pose proof (Hkey r pr Hr) as Hix. split; [|done]. apply Hin. by rewrite Hix.
  - intros (pr & Hpr & <-). apply Hin in Hpr. by rewrite Hpr.
Qed.
Lemma queue_consecutive k bk : 0 ≤ k → lined_up L k (dom g) bk →
  pr_Index <$> sortedItems (bk_queue bk) = seqZ k (zlen (sortedItems (bk_queue bk))).
Proof.
  intros Hk (Hwf & Hq & _). rewrite (consecutive k (pr_Index <$> _)) at 1.
  - unfold zlen. by rewrite length_fmap.
  - apply Hwf.
  - intros r (pr & -> & Hpr)%list_elem_of_fmap. apply Hq, Queued_items; [done|]. eauto.
  - intros r j Hr Hj. assert (Queued (bk_queue bk) r = true) as (_ & x & w & Hx & HLx)%Hq.
    { apply Queued_items; [done|]. apply list_elem_of_fmap in Hr as (pr & -> & ?). eauto. }
    destruct (round_below ps Hsm g pec n L Hok HL x r w j HLx ltac:(lia)) as [z Hz].
    assert (Queued (bk_queue bk) j = true) as Hqj.
    { apply Hq. split; [lia|]. exists z, true. split; [|done]. apply elem_of_dom, HL. eauto. }
    apply (Queued_items _ _ Hwf) in Hqj as (pr & Hpr & <-).
    apply list_elem_of_fmap. eauto.
Qed.
Definition clean (k : Z) (fs : list Frame) bk : Book :=
  set_queue (PRC_Clean (bk_queue bk) (seqZ k (zlen fs))) bk.
Lemma lined_up_clean k fs bk : lined_up L k (dom g) bk →
  (∀ j, 0 ≤ j < k + zlen fs → j ∈ bk_decided bk) → lined_up L (k + zlen fs) (dom g) (clean k fs bk).
Proof.
  intros (Hwf & Hq & Hk & Hd) Hdec. destruct (PRC_Clean_spec (bk_queue bk) (seqZ k (zlen fs)) Hwf) as [Hwf' Hin].
  split; [done|]. split; [|split; [done|]].
  - intros r. simpl bk_queue. rewrite Queued_items by done. setoid_rewrite Hin.
    setoid_rewrite elem_of_seqZ. split.
    + intros (pr & [Hpr Hnot] & <-).
      destruct (proj1 (Hq (pr_Index pr)) ltac:(apply Queued_items; eauto)) as [Hge Hx].
      split; [lia|done].
    + intros [Hge Hx]. assert (Queued (bk_queue bk) r = true) as Hqr.
      { apply Hq. split; [unfold zlen in Hge; lia|done]. }
      apply (Queued_items _ _ Hwf) in Hqr as (pr & Hpr & <-).
      exists pr. split; [|done]. split; [done|lia].
  - intros pr Hpr Hdc. apply Hin in Hpr as [Hpr _]. by apply Hd.
Qed.

(** After the rounds that are ready have been processed. *)
Definition processed k bk (P : list Frame → Prop) (s : Hashgraph St * Y) : Prop :=
  ∃ fs, P fs ∧ framed (clean k fs bk) s.1 ∧ lined_up L (k + zlen fs) (dom g) (clean k fs bk) ∧
    ∃ new, T s.2 new ∧ told k fs new.
Lemma ProcessDecidedRounds_exact k bk : 0 ≤ k → lined_up L k (dom g) bk →
  caught_up ps g L bk → shelved ps g L bk (bk_waiting bk) →
  hoare3 (λ s, framed bk s.1 ∧ T s.2 []) (ProcessDecidedRounds fuel cb)
    (λ _, processed k bk (λ fs, drained (sortedItems (bk_queue bk)) (k + zlen fs)))
    (processed k bk (λ _, True)) (λ s, framed bk s.1).
Proof.
  intros Hk Hline Hup Hsh. pose proof Hline as (Hwf & Hq & Hdec & Hd). unfold ProcessDecidedRounds.
  apply (hoare3_bind _ (λ rs s, J bk k [] s ∧ rs = sortedItems (bk_queue bk))).
  { intros [h y] [(frs & Hfrs & HR) HTy]. unfold onHG, zoom, gets. simpl in *.
    destruct (HR) as [_ (_ & _ & _ & _ & (_ & _ & Hpq & _) & _)]. simpl in Hpq.
    unfold GetOrderedPendingRounds. rewrite Hpq. split; [|done]. split; [by exists frs|]. exists [].
    split; [done|]. by split. }
  intros rs. apply hoare3_pure. intros ->.
  eapply hoare3_bind.
  { intros s HJ. pose proof (process_rounds_exact bk k Hup Hsh (sortedItems (bk_queue bk)) [] [] Hk
      ltac:(unfold zlen at 1; simpl; rewrite Z.add_0_r; by apply queue_consecutive) Hd
      ltac:(unfold zlen; simpl; intros j Hj; apply Hdec; lia) s HJ) as Hrun.
    destruct (process_rounds fuel cb [] _ s) as [[out|e| |] s']; [exact Hrun|done|exact Hrun..]. }
  intros out [h y] (fs & [(frs & Hfrs & HR) Hnew] & Hout & Hdec' & Hdr). simpl in *.
  assert (out.1 = seqZ k (zlen fs)) as Hout' by (rewrite Hout; f_equal; unfold zlen; simpl; lia).
  assert (∀ P : list Frame → Prop, P fs →
    processed k bk P (set_PendingRounds (PRC_Clean (PendingRounds h) out.1) h, y)) as Hdone.
  { intros P HP. exists fs. split; [done|]. split; [|split; [by apply lined_up_clean|done]]. exists frs. split; [done|]. simpl.
    destruct HR as [HI (? & ? & ? & ? & (? & ? & Hpq & ?) & ?)]. rewrite Hpq, Hout'.
    split; [exact HI|]. do 4 (split; [done|]). split; [|done]. done. }
  unfold bind, onHG, zoom, modify. simpl.
  destruct out.2; apply Hdone; [done|by apply Hdr].
Qed.

(** ** After the rounds are divided

    [rest k]: the state between two insertions, [k] rounds processed. *)
Definition rest (k : Z) h : Prop :=
  ∃ bk, Rst bk h ∧ shelved ps g L bk (bk_waiting bk) ∧ lined_up L k (dom g) bk ∧ frames_ok (bk_frames bk).
Definition rested (k : Z) (P : Z → Prop) (s : Hashgraph St * Y) : Prop :=
  ∃ fs new, P (k + zlen fs) ∧ rest (k + zlen fs) s.1 ∧ T s.2 new ∧ told k fs new.
Lemma rested_nil k s : rest k s.1 → T s.2 [] → rested k (λ _, True) s.
Proof.
  intros Hr HTy. exists [], []. unfold zlen. simpl. rewrite Z.add_0_r. split; [done|]. split; [done|].
  split; [done|]. by split.
Qed.
(** The next round is not settled: nothing is left to commit. *)
Definition waits (k : Z) : Prop := ¬ round_settled ps g L k.
Definition marked (q : PendingRoundsCache) : Prop :=
  ∀ pr, pr ∈ sortedItems q → round_settled ps g L (pr_Index pr) → pr_Decided pr = true.
Lemma drained_waits k bk j : 0 ≤ k ≤ j → lined_up L k (dom g) bk → marked (bk_queue bk) →
  drained (sortedItems (bk_queue bk)) j → waits j.
Proof.
  intros Hj (Hwf & Hq & _) Hm Hdr Hs.
  destruct (settled_witnesses ps Hsm g pec n L Hok HL j ltac:(lia) Hs) as (W & HW & HWj).
  destruct (set_choose_or_empty W) as [[w Hw]|He]; [|apply size_empty_iff in He; lia].
  specialize (HWj w Hw). assert (Queued (bk_queue bk) j = true) as Hqj.
  { apply Hq. split; [lia|]. exists w, true. split; [|done]. apply elem_of_dom, HL. eauto. }
  apply (Queued_items _ _ Hwf) in Hqj as (pr & Hpr & Hidx).
  specialize (Hdr pr Hpr Hidx). rewrite Hm in Hdr; [done|done|by rewrite Hidx].
Qed.
Context (Hn : 0 ≤ n) (Hfuel : n < Z.of_nat fuel).
Lemma run_consensus k bk (e : Event) : 0 ≤ k → lined_up L k (dom g) bk →
  shelved ps g L bk (bk_waiting bk) → frames_ok (bk_frames bk) →
  hoare3 (λ s, Rst bk s.1 ∧ T s.2 [])
    (onHG DecideFame ;;; onHG (DecideRoundReceived fuel) ;;; ProcessDecidedRounds fuel cb ;;; ret e)
    (λ _, rested k waits) (rested k (λ _, True)) (λ s, rest k s.1).
Proof.
  intros Hk Hline Hsh Hfrs.
  set (Mid (ds : list Z) := set_queue (PRC_Update (bk_queue bk) ds) (mark (list_to_set ds) bk)).
  assert (∀ pr, pr ∈ sortedItems (bk_queue bk) → 0 ≤ pr_Index pr) as Hge.
  { intros pr Hpr. destruct Hline as (Hwf & Hq & _).
    destruct (proj1 (Hq (pr_Index pr)) ltac:(apply Queued_items; eauto)). lia. }
  apply (hoare3_bind _ (λ _ s, T s.2 [] ∧ ∃ ds, Rst (Mid ds) s.1 ∧ marked (bk_queue (Mid ds)))).
  { intros [h y] [HR HTy].
    pose proof (DecideFame_exact ps hex Hhex Hsm N g pec n L Hok HL fuel Hn Hfuel bk Hge h HR) as Hd.
    assert (∀ h', (∃ ds, Rst (mark ds bk) h') → rest k h') as Hf.
    { intros h' [ds HR']. exists (mark ds bk). split; [done|]. split; [done|].
      split; [by apply lined_up_mark|done]. }
    unfold onHG, zoom. simpl in *. destruct (DecideFame h) as [[u|err| |] h']; [| |by apply Hf..].
    { destruct Hd as (ds & HR' & Hall). split; [done|]. exists ds. split; [done|].
      intros pr Hpr Hs. destruct (Update_from _ _ _ Hpr) as (pr0 & Hpr0 & Hidx & _).
      apply (Update_marks (bk_queue bk) ds); [apply Hline|done|]. rewrite <-Hidx. apply Hall; [done|]. by rewrite Hidx. }
    apply rested_nil; [by apply Hf|done]. }
  intros []. apply (hoare3_bind _ (λ _ s, T s.2 [] ∧ ∃ bk', Rst bk' s.1 ∧ shelved ps g L bk' (bk_waiting bk') ∧
    caught_up ps g L bk' ∧ lined_up L k (dom g) bk' ∧ frames_ok (bk_frames bk') ∧ marked (bk_queue bk'))).
  { intros [h y] (HTy & ds & HR & Hm).
    pose proof (DecideRoundReceived_exact ps hex Hhex Hsm N g pec n L Hok HL fuel Hn Hfuel (Mid ds) Hsh h HR)
      as Hd. unfold onHG, zoom. simpl in *.
    destruct (DecideRoundReceived fuel h) as [[u|err| |] h']; [|done..]. split; [done|]. simpl.
    destruct Hd as (bk' & l & HR' & Hsh' & Hup & (_ & Hq & Hf & Hdc & _)).
    exists (set_waiting l bk'). split; [done|]. split; [done|]. split; [done|].
    pose proof (lined_up_decide L k (dom g) bk ds Hline) as Hline'. fold (Mid ds) in Hline'.
    split; [|simpl; rewrite Hf, Hq; by split]. unfold lined_up in *. simpl. by rewrite Hq, Hdc. }
  intros [] s (HTy & bk' & HR & Hsh' & Hup & Hline' & Hfrs' & Hm).
  assert (framed bk' s.1) as Hfr by (exists (bk_frames bk'); split; [done|]; by destruct bk').
  pose proof (ProcessDecidedRounds_exact k bk' Hk Hline' Hup Hsh' s (conj Hfr HTy)) as Hp.
  assert (∀ s' (P : list Frame → Prop) (Q : Z → Prop), (∀ fs, P fs → Q (k + zlen fs)) →
    processed k bk' P s' → rested k Q s') as Hdone.
  { intros s' P Q HPQ (fs & HP & (frs & Hok1 & HR1) & Hl1 & new & HTn & Ht). exists fs, new. split; [auto|].
    split; [|done]. eexists. split; [exact HR1|]. done. }
  unfold bind at 1. destruct (ProcessDecidedRounds fuel cb s) as [[u|err| |] s'];
    [eapply Hdone; [|exact Hp]; intros fs; apply (drained_waits k bk'); [unfold zlen; lia|done..]
    |by eapply Hdone; [|exact Hp]|..];
    destruct Hp as (frs & Hok1 & HR1); eexists; by split; [exact HR1|].
Qed.
End commit.
End committed.
