(* ===== verification/Settled.v ===== *)
(** * Insertion keeps the rounds exact

    [settled h]: every event of the hashgraph has been recorded with its
    ancestors and divided into rounds, the rounds, the memo tables and the
    first descendants are what the graph determines, and so are the decisions
    on fame, the received events and the frames. A call of
    [InsertEventAndRunConsensus] on a new event, whatever its outcome, starts
    and ends in such a state, as long as the peer-set is always the same; and
    if it ends, the blocks that it commits are those of the graph
    ([advances]). *)
From S2P Require Export Walk Committed.

(** ** What survives a new event *)
Section grown.
Context {KP : Keys} {CP : Codec} {RO : RangeOrder}.
Context (ps : PeerSet) (Hsm : 2 ≤ SuperMajority ps).
Context g pec n L (Hok : dag_ok g pec n) (HL : ledger ps g L).
Context g' pec' n' L' (Hok' : dag_ok g' pec' n') (HL' : ledger ps g' L') (Hsub : g ⊆ g').

Lemma ledger_grown y : is_Some (g !! y) → L' !! y = L !! y.
Proof.
  exact (grow_ledger ps g pec n L Hok HL g' pec' n' L' Hok' HL' (sub_same g g' Hsub) (sub_dom g g' Hsub) y).
Qed.
Lemma shelved_grown bk w x : dom g' = dom g ∪ {[x]} → x ∉ dom g →
  shelved ps g L bk w → shelved ps g' L' bk (w ++ [x]).
Proof.
  intros Hdom Hx (Hnd & Hin & Hnr & Hrec).
  assert (∀ r y, y ∈ bk_received bk r → is_Some (g !! y)) as Hknown.
  { intros r y Hy. destruct (Hrec r y Hy) as (r0 & v & HLy & _). apply HL. eauto. }
  assert (∀ y, is_Some (g' !! y) ↔ is_Some (g !! y) ∨ y = x) as Hg'.
  { intros y. rewrite <-!elem_of_dom, Hdom. set_solver. }
  assert (¬ is_Some (g !! x)) as Hx' by (by rewrite <-elem_of_dom).
  split; [|split; [|split; [done|]]].
  - apply NoDup_app. split; [done|]. split; [|apply NoDup_singleton].
    intros y Hy ->%list_elem_of_singleton. apply Hx'. by apply Hin.
  - intros y. rewrite elem_of_app, list_elem_of_singleton, Hin, Hg'. split.
    + intros [[? ?]| ->]; [auto|]. split; [by right|]. intros r Hr. apply Hx'. by eapply Hknown.
    + intros [[?| ->] ?]; auto.
  - intros r y Hy. apply (grow_received ps Hsm g pec n L Hok HL g' pec' n' L' Hok' HL'
      (sub_same g g' Hsub) (sub_dom g g' Hsub)). by apply Hrec.
Qed.
Lemma lined_up_grown k bk : lined_up L k (dom g) bk → lined_up L' k (dom g) bk.
Proof.
  intros (Hwf & Hq & Hk & Hd). split; [done|]. split; [|done]. intros r. rewrite Hq.
  assert (∀ y, y ∈ dom g → L' !! y = L !! y) as Hl by (intros y Hy; by apply ledger_grown, elem_of_dom).
  split; intros [Hr (y & v & Hy & HLy)]; (split; [done|]); exists y, v; (split; [done|]).
  - by rewrite Hl.
  - by rewrite <-Hl.
Qed.
Lemma frames_grown frs : frames_ok ps g L frs → frames_ok ps g' L' frs.
Proof.
  intros Hf i f Hi. apply (frame_ok_grow ps Hsm g pec n L Hok HL g' pec' n' L' Hok' HL' Hsub). by apply Hf.
Qed.
Lemma told_grown k fs new : told ps g L k fs new → told ps g' L' k fs new.
Proof.
  intros [Hb Hf]. split; [done|]. intros r f Hr.
  apply (frame_ok_grow ps Hsm g pec n L Hok HL g' pec' n' L' Hok' HL' Hsub). by apply Hf.
Qed.
End grown.

Section settled.
Context {KP : Keys} {CP : Codec} {RO : RangeOrder}.
Context {St : Type} {STO : Store St} {LAW : StoreLaws St}.
Abbreviation H := (GoM error (Hashgraph St)).
Context (ps : PeerSet) (hex : string) (Hhex : PS_Hex ps = Ok hex) (Hsm : 2 ≤ SuperMajority ps).
Implicit Types (h : Hashgraph St) (bk : Book).

(** [k] rounds have been processed. *)
Definition settled_at (L : gmap string (Z * bool)) (k : Z) h : Prop :=
  hg_inv h ∧ ledger ps (graph h) L ∧ 0 ≤ k ∧
  rest ps hex (v_size (hv h)) (graph h) (v_pec (hv h)) (topologicalIndex h) L k h.
Definition settled h : Prop := ∃ L k, settled_at L k h.
Lemma settled_intro N g pec n L k h : pec_ok pec → 0 ≤ n → dag_ok g pec n → ledger ps g L → 0 ≤ k →
  rest ps hex N g pec n L k h → graph h = g ∧ settled_at L k h.
Proof.
  intros Hpec Hn Hok HL Hk (bk & HR & Hrest).
  destruct (hg_inv_intro N g pec n h Hpec Hn Hok (proj1 HR)) as (Hinv & _ & _).
  destruct (HR) as [(_ & HN & Hg & Hp & Ht & _) _]. split; [done|]. split; [done|].
  unfold settled_at. rewrite HN, Hg, Hp, Ht. split; [done|]. split; [done|]. by exists bk.
Qed.
(** From [h0], where [k] rounds were processed; [P] holds of the number of
    rounds that are processed now. *)
Definition advances {Y} (T : Y → list Block → Prop) (k : Z) h0
    (P : gmap string Event → gmap string (Z * bool) → Z → Prop) (s : Hashgraph St * Y) : Prop :=
  graph h0 ⊆ graph s.1 ∧ ∃ L fs new, P (graph s.1) L (k + zlen fs) ∧ settled_at L (k + zlen fs) s.1 ∧
    T s.2 new ∧ told ps (graph s.1) L k fs new.
Definition anywhere (g : gmap string Event) (L : gmap string (Z * bool)) (k : Z) : Prop := True.

(** ** All events at once *)
Section divide_all.
Context (N : Z) (g : gmap string Event) (pec : ParticipantEventsCache) (n : Z).
Context (L : gmap string (Z * bool)) (Hok : dag_ok g pec n) (HL : ledger ps g L).
Context (Hn : 0 ≤ n) (fuel : nat) (Hfuel : n < Z.of_nat fuel) (HN : Z.of_nat (size g) ≤ N).
Context (D0 : gset string) (Hbelow : ∀ x y, reach g x y → y ≠ x → is_Some (g !! x) → y ∈ D0).
Context (bk : Book) (k : Z).
Abbreviation R D := (RQ ps hex N g pec n L bk k D).

Lemma divide_all l D : Forall (λ x, is_Some (g !! x)) l → D0 ⊆ D → D ⊆ dom g →
  hoare (R D) (forM l (divideRound_event fuel)) (λ _, R (D ∪ list_to_set l)) (λ _, False).
Proof.
  intros Hl. revert D. induction Hl as [|x l Hx Hl IH]; intros D HD HDg.
  { apply hoare_ret. intros h HR. by replace (D ∪ list_to_set []) with D by set_solver. }
  unfold forM. cbn [foldM]. eapply hoare_bind.
  - apply (divide_event ps hex Hhex Hsm N g pec n L Hok HL Hn fuel Hfuel HN bk k D x); [done|done|].
    split; [done|]. split; [done|]. intros y Hr Hne. apply HD. by apply (Hbelow x).
  - intros []. change (foldM _ tt l) with (forM l (divideRound_event (St:=St) fuel)).
    replace (D ∪ list_to_set (x :: l)) with ((D ∪ {[x]}) ∪ list_to_set l) by set_solver.
    apply IH; [set_solver|]. intros y [Hy|Hy]%elem_of_union; [auto|].
    apply elem_of_singleton in Hy as ->. by apply elem_of_dom.
Qed.
Lemma DivideRounds_settles x : dom g = D0 ∪ {[x]} → x ∈ bk_waiting bk →
  Forall (λ x, is_Some (g !! x)) (bk_waiting bk) →
  hoare (R D0) (DivideRounds fuel) (λ _, R (dom g)) (λ _, False).
Proof.
  intros Hdom Hx Hl. unfold DivideRounds.
  apply (hoare_bind _ (λ l h, R D0 h ∧ l = bk_waiting bk)).
  { apply hoare_gets. intros h HR. split; [done|].
    by destruct HR as (q & [_ (_ & _ & _ & _ & (_ & ? & _) & _)] & _). }
  intros l. apply hoare_pure. intros ->.
  replace (dom g) with (D0 ∪ list_to_set (bk_waiting bk)); [apply divide_all; [done|done|set_solver]|].
  rewrite Hdom. apply set_eq. intros y. rewrite !elem_of_union, elem_of_list_to_set, elem_of_singleton.
  split; [|naive_solver]. intros [Hy|Hy]; [auto|]. rewrite Forall_forall in Hl.
  specialize (Hl y Hy). apply elem_of_dom in Hl. rewrite Hdom in Hl. set_solver.
Qed.
End divide_all.

(** ** An insertion *)
Section insertion.
Context (h0 : Hashgraph St) (e : Event) (L : gmap string (Z * bool)) (fuel : nat) (k : Z) (bk : Book).
Abbreviation N := (v_size (hv h0)).
Abbreviation g := (graph h0).
Abbreviation pec := (v_pec (hv h0)).
Abbreviation n := (topologicalIndex h0).
Abbreviation R n := (Rst ps hex bk N g pec n L all (dom g) (dom g)).
Context (Hinv : hg_inv h0) (HL : ledger ps g L) (Hk : 0 ≤ k) (HR0 : R n h0).
Context (Hsh : shelved ps g L bk (bk_waiting bk)) (Hline : lined_up L k (dom g) bk).
Context (Hfrs : frames_ok ps g L (bk_frames bk)).
Context (Hfresh : g !! Hex e = None) (Hwi : well_indexed g e).
Context (Hroom : Z.of_nat (size g) < N) (Hround : ev_round e = None).
Context (Hrr : ev_roundReceived e = None).
Context (Hfuel : n + 2 < Z.of_nat fuel).

(** A failure before the event is stored. *)
Definition failed h : Prop := ∃ n', n ≤ n' ∧ R n' h.
Lemma failed_advances {Y} (T : Y → list Block → Prop) h y : failed h → T y [] →
  advances T k h0 anywhere (h, y).
Proof.
  intros (n' & Hle & HR) HTy. destruct Hinv as (Hpec & Hn & Hok & _).
  destruct (settled_intro N g pec n' L k h) as [Hg Hs]; try done; [lia|by eapply dag_ok_mono|by exists bk|].
  split; [simpl; by rewrite Hg|]. exists L, [], []. unfold zlen. simpl. rewrite Z.add_0_r.
  split; [done|]. split; [done|]. split; [done|]. by split.
Qed.
Lemma hoare_checked {A} n' (m : H A) (φ : A → Prop) F :
  respects (keeps (R n')) m → hoare (Ist N g pec n') m (λ a h, Ist N g pec n' h ∧ φ a) F →
  hoare (R n') m (λ a h, R n' h ∧ φ a) (R n').
Proof.
  intros Hs Hm h HR. specialize (Hs h HR). specialize (Hm h (proj1 HR)).
  destruct (m h) as [[]]; simpl in *; [|done..]. split; [done|]. apply Hm.
Qed.
Hint Resolve steady_GetEvent steady_readStore steady_readStoreR : respects.

(** The event is stored and recorded with its ancestors, and has yet to be
    divided into rounds. *)
Abbreviation bk' x := (set_waiting (bk_waiting bk ++ [x]) bk).
Definition undivided (x : string) h : Prop :=
  ∃ g' pec' L', pec_ok pec' ∧ dag_ok g' pec' (n + 1) ∧ ledger ps g' L' ∧ g ⊆ g' ∧ x ∉ dom g ∧
    Rst ps hex (bk' x) N g' pec' (n + 1) L' all (dom g) (dom g) h ∧
    dom g' = dom g ∪ {[x]} ∧ Z.of_nat (size g') ≤ N ∧
    ∀ y z, reach g' y z → z ≠ y → is_Some (g' !! y) → z ∈ dom g.

Lemma insert_store e3 la :
  eb_public (ev_Body e3) = eb_public (ev_Body e) → ev_topologicalIndex e3 = n → ev_round e3 = None →
  ev_roundReceived e3 = None →
  well_parented g e →
  (∃ items, window pec (Creator e) = Some items ∧
     (lastIndex items = -1 ∨ Index e = lastIndex items + 1)) →
  la_merged g e la → ev_lastAncestors e3 = <[Creator e := mkCoord (Hex e) (Index e)]> la →
  ev_firstDescendants e3 = <[Creator e := mkCoord (Hex e) (Index e)]> ∅ →
  hoare (R (n + 1)) (
      wrap "SetEvent" (onStore (SetEvent e3)) ;;;
      wrap "UpdateAncestorFirstDescendant" (updateAncestorFirstDescendant fuel e3) ;;;
      modify (λ h, set_UndeterminedEvents (UndeterminedEvents h ++ [Hex e3]) h) ;;;
      (if IsLoaded e3 then modify (add_PendingLoadedEvents 1) else ret tt) ;;;
      forM (BlockSignatures e3) (λ bs,
          modify (λ h, set_PendingSignatures (SP_Add (PendingSignatures h) bs) h)) ;;;
      ret e3)
    (λ _, undivided (Hex e)) failed.
Proof.
  intros Hpub Htopo Hr3 Hrr3 Hwp Hwin Hla Hela Hefd. destruct (Hinv) as (Hpec & Hn & Hok & _).
  destruct (public_fields _ _ Hpub) as (Hh3 & Hcr & Hix & Hsp3 & Hop3).
  rewrite <-Hh3, <-Hcr, <-Hix in *. rewrite <-?Hh3 in Hfresh.
  destruct (SetEvent_new N g pec n e3 la) as (pec' & Hpec' & Hok' & Hset); try done.
  { unfold well_parented. by rewrite Hsp3, Hop3, Hcr, Hix. }
  { rewrite Hix. apply Hwi. }
  { unfold la_merged in *. by rewrite Hsp3, Hop3. }
  set (g' := <[Hex e3 := skeleton e3]> g) in *.
  set (L' := <[Hex e3 := round_of ps g' L (Hex e3) (skeleton e3)]> L).
  set (R' bk := Rst ps hex bk N g' pec' (n + 1) L' all (dom g) (dom g)).
  apply (hoare_bind _ (λ _, Rst ps hex bk N g' pec' (n + 1) L' (but e3 (dom g)) (dom g) (dom g))).
  { apply hoare_wrap. intros h HR. destruct (Hset h (proj1 HR)) as (h' & -> & HI' & Hs).
    exact (stored ps hex Hhex Hsm bk N g pec n L Hok HL e3 Hfresh pec' Hok' Hr3 Hrr3 Hefd h h' HR HI' Hs). }
  intros []. apply (hoare_bind _ (λ _, R' bk)).
  { apply hoare_wrap. apply (hoare_fail _ _ (λ _, False)); [|by intros ? []].
    exact (updateAncestor_records ps hex Hhex Hsm bk N g pec n L Hok HL e3 Hfresh pec' Hok' Hr3 Hrr3 Hefd Hn
      fuel Hfuel). }
  intros []. apply (hoare_bind _ (λ _, R' (bk' (Hex e3)))).
  { apply hoare_modify. intros h [HI (? & ? & ? & ? & (? & Hu & ?) & ?)].
    split; [exact HI|]. do 4 (split; [done|]). split; [|done]. split; [done|]. split; [|done].
    simpl. by rewrite Hu. }
  intros []. apply (hoare_bind _ (λ _, R' (bk' (Hex e3)))).
  { destruct (IsLoaded e3); [|by apply hoare_ret]. apply hoare_modify. intros h HR.
    refine (steady_fields ps hex (bk' (Hex e3)) N g' pec' (n + 1) L' all (dom g) (dom g)
      (add_PendingLoadedEvents 1) _ h HR). done. }
  intros []. apply (hoare_bind _ (λ _, R' (bk' (Hex e3)))).
  { apply hoare_forM. intros bs _. apply hoare_modify. intros h HR.
    refine (steady_fields ps hex (bk' (Hex e3)) N g' pec' (n + 1) L' all (dom g) (dom g)
      (λ h, set_PendingSignatures (SP_Add (PendingSignatures h) bs) h) _ h HR). done. }
  intros []. apply hoare_ret. intros h HR. exists g', pec', L'.
  split; [done|]. split; [done|]. split; [exact (ledger_new ps g pec n L Hok HL e3 Hfresh pec' Hok')|].
  split; [by apply insert_subseteq|]. split; [by apply not_elem_of_dom|]. split; [done|]. split; [unfold g'; rewrite dom_insert_L; set_solver|].
  split; [unfold g'; rewrite map_size_insert_None by done; lia|].
  intros y z Hr Hne [ey Hy]. destruct (reach_known g' y z ey Hy Hr) as [ez Hz].
  apply elem_of_dom. destruct (decide (z = Hex e3)) as [->|Hze].
  - exfalso. assert (is_Some (g !! y)) as Hyg.
    { unfold g' in Hy. rewrite lookup_insert_ne in Hy by done. eauto. }
    apply (reach_old g pec n Hok (skeleton e3) Hfresh y (Hex e3) Hyg) in Hr.
    destruct Hyg as [ey' Hyg]. destruct (reach_known g y (Hex e3) ey' Hyg Hr). congruence.
  - unfold g' in Hz. rewrite lookup_insert_ne in Hz by done. eauto.
Qed.

Lemma insert_checked_undivided w :
  well_parented g e →
  (∃ items, window pec (Creator e) = Some items ∧
     (lastIndex items = -1 ∨ Index e = lastIndex items + 1)) →
  hoare (R n) (insert_checked fuel e w) (λ _, undivided (Hex e)) failed.
Proof.
  intros Hwp Hwin. destruct (Hinv) as (Hpec & Hn & Hok & _). unfold insert_checked.
  assert (∀ h, R (n + 1) h → failed h) as HF by (intros h HR; exists (n + 1); split; [lia|done]).
  apply (hoare_bind _ (λ ti h, R n h ∧ ti = n)).
  { apply hoare_gets. intros h HR. split; [done|]. by destruct HR as [(_ & _ & _ & _ & Ht & _) _]. }
  intros ti. apply hoare_pure. intros ->. cbv zeta.
  apply (hoare_bind _ (λ _, R (n + 1))).
  { apply hoare_modify. intros h [(? & ? & ? & ? & ? & ?) HE]. done. }
  intros []. set (e1 := set_topologicalIndex e n).
  apply (hoare_bind _ (λ e2 h, R (n + 1) h ∧ ev_like e1 e2)).
  { destruct w; [|by apply hoare_ret]. apply hoare_wrap. eapply hoare_fail; [|exact HF].
    eapply hoare_checked; [|by apply hoare_SetWireInfo]. unfold SetWireInfo. respects_go. }
  intros e2. apply hoare_pure. intros (Hpub2 & Htopo2 & Hr2 & Hrr2).
  eapply hoare_bind.
  { apply hoare_wrap. eapply hoare_fail; [|exact HF].
    eapply hoare_checked; [|by apply hoare_initEventCoordinates]. unfold initEventCoordinates. respects_go. }
  intros e3. simpl. apply hoare_pure. intros ((Hpub3 & Htopo3 & Hr3 & Hrr3) & la & Hla & Hela & Hefd).
  destruct (public_fields _ _ Hpub2) as (Hhex2 & Hcr2 & Hix2 & Hsp2 & Hop2).
  apply (insert_store e3 la); try done.
  - by rewrite Hpub3, Hpub2.
  - by rewrite Htopo3, Htopo2.
  - by rewrite Hr3, Hr2.
  - by rewrite Hrr3, Hrr2.
  - unfold la_merged in *. by rewrite Hsp2, Hop2 in Hla.
  - rewrite Hela, Hcr2, Hhex2, Hix2. done.
  - rewrite Hefd, Hcr2, Hhex2, Hix2. done.
Qed.

Lemma InsertEvent_undivided w : hoare (R n) (InsertEvent fuel e w) (λ _, undivided (Hex e)) failed.
Proof.
  destruct (Hinv) as (Hpec & Hn & Hok & HI).
  assert (∀ h, R n h → failed h) as HF by (intros h HR; exists n; split; [lia|done]).
  unfold InsertEvent.
  eapply hoare_bind; [apply (hoare_lift _ (λ _, R n)); [by auto|exact HF]|].
  intros ok. eapply (hoare_bind _ (λ _, R n)).
  { destruct ok; [by apply hoare_ret|by apply hoare_throw]. }
  intros []. eapply hoare_bind.
  { eapply hoare_fail; [|exact HF]. eapply hoare_checked; [|by apply hoare_checkSelfParent].
    unfold checkSelfParent. respects_go. }
  intros []. simpl. apply hoare_pure. intros Hsp. eapply hoare_bind.
  { eapply hoare_fail; [|exact HF]. eapply hoare_checked; [|by apply hoare_checkOtherParent].
    unfold checkOtherParent. respects_go. }
  intros []. simpl. apply hoare_pure. intros Hop.
  destruct (checked_well_parented g pec n Hok Hpec e Hsp Hwi Hop) as [Hwp Hwin].
  by apply insert_checked_undivided.
Qed.

(** The consensus methods that follow. *)
Context {Y : Type} (cb : Block → GoM error (Hashgraph St * Y) unit) (Hcb : cb_quiet cb).
Context (T : Y → list Block → Prop).
Context (HT : ∀ b hx new, T hx.2 new → T (cb b hx).2.2 (new ++ [b])).
(** After a success nothing is left to commit; after a panic only the state is
    known. *)
Definition outcome {A} (r : res A) (s : Hashgraph St * Y) : Prop :=
  match r with
  | Ok _ => advances T k h0 (waits ps) s
  | Err _ => advances T k h0 anywhere s
  | _ => settled s.1
  end.
Lemma consensus_outcome (e' : Event) h y : undivided (Hex e) h → T y [] →
  let out := bind (onHG (DivideRounds fuel)) (λ _, onHG DecideFame ;;; onHG (DecideRoundReceived fuel) ;;;
              ProcessDecidedRounds fuel cb ;;; ret e') (h, y) in outcome out.1 out.2.
Proof.
  intros (g' & pec' & L' & Hpec' & Hok' & HL' & Hsub & Hx & HR & Hdom & Hsz & Hbelow) HTy.
  destruct (Hinv) as (_ & Hn & Hok & _).
  pose proof (shelved_grown ps Hsm g pec n L Hok HL g' pec' (n + 1) L' Hok' HL' Hsub bk _ _ Hdom Hx Hsh) as Hsh'.
  pose proof (lined_up_grown ps g pec n L Hok HL g' pec' (n + 1) L' Hok' HL' Hsub k bk Hline) as Hline'.
  pose proof (frames_grown ps Hsm g pec n L Hok HL g' pec' (n + 1) L' Hok' HL' Hsub _ Hfrs) as Hfrs'.
  assert (Forall (λ x, is_Some (g' !! x)) (bk_waiting (bk' (Hex e)))) as Hknown.
  { apply Forall_forall. intros x Hxw. by apply Hsh'. }
  assert (RQ ps hex N g' pec' (n + 1) L' (bk' (Hex e)) k (dom g) h) as HRQ
    by (exists (bk_queue bk); by split).
  pose proof (DivideRounds_settles N g' pec' (n + 1) L' Hok' HL' ltac:(lia) fuel ltac:(lia) Hsz
    (dom g) Hbelow (bk' (Hex e)) k (Hex e) Hdom ltac:(simpl; set_solver) Hknown h HRQ) as Hd.
  destruct (DivideRounds fuel h) as [[u|err| |] h1] eqn:Hrun1; [|done..]. destruct Hd as (q & HR1 & Hline1).
  pose proof (run_consensus ps hex Hhex Hsm N g' pec' (n + 1) L' Hok' HL' fuel cb Hcb T HT ltac:(lia) ltac:(lia)
    k (set_queue q (bk' (Hex e))) e' Hk Hline1 Hsh' Hfrs' (h1, y) (conj HR1 HTy)) as Hrun.
  assert (∀ s (P : gmap string Event → gmap string (Z * bool) → Z → Prop),
    rested ps hex N g' pec' (n + 1) L' T k (P g' L') s → advances T k h0 P s) as Hadv.
  { intros s P (fs & new & HP & Hrest & HTn & Htold).
    destruct (settled_intro N g' pec' (n + 1) L' (k + zlen fs) s.1) as [Hg Hs]; try done; [lia|unfold zlen; lia|].
    split; [by rewrite Hg|]. exists L', fs, new. split; [by rewrite Hg|]. split; [done|]. split; [done|].
    by rewrite Hg. }
  cbv zeta. set (K := λ _ : unit, onHG DecideFame ;;; onHG (DecideRoundReceived fuel) ;;;
    ProcessDecidedRounds fuel cb ;;; ret e').
  assert (bind (onHG (DivideRounds fuel)) K (h, y) = K u (h1, y)) as ->.
  { unfold bind at 1, onHG at 1, zoom at 1. simpl. by rewrite Hrun1. }
  unfold outcome. change (_ (h1, y)) with (K u (h1, y)) in Hrun.
  destruct (K u (h1, y)) as [[a|err| |] s]; simpl; [by apply Hadv|by apply Hadv|..];
    exists L', k; apply (settled_intro N g' pec' (n + 1) L' k s.1); try done; lia.
Qed.
Lemma insertion_outcome w y : T y [] →
  let out := InsertEventAndRunConsensus fuel cb e w (h0, y) in outcome out.1 out.2.
Proof.
  intros HTy. pose proof (InsertEvent_undivided w h0 HR0) as Hins. unfold InsertEventAndRunConsensus.
  set (K := λ e' : Event, onHG (DivideRounds fuel) ;;; onHG DecideFame ;;;
    onHG (DecideRoundReceived fuel) ;;; ProcessDecidedRounds fuel cb ;;; ret e').
  assert (bind (onHG (InsertEvent fuel e w)) K (h0, y) =
    match InsertEvent fuel e w h0 with
    | (Ok e', h1) => K e' (h1, y)
    | (Err err, h1) => (Err err, (h1, y))
    | (Panic, h1) => (Panic, (h1, y))
    | (OutOfFuel, h1) => (OutOfFuel, (h1, y))
    end) as ->.
  { unfold bind at 1, onHG at 1, zoom at 1. simpl. by destruct (InsertEvent fuel e w h0) as [[]]. }
  destruct (InsertEvent fuel e w h0) as [[e'|err| |] h1]; simpl; [by apply consensus_outcome|..].
  - by apply failed_advances.
  - destruct (failed_advances T h1 y Hins HTy) as (_ & L' & fs & new & _ & Hs & _). by exists L', (k + zlen fs).
  - destruct (failed_advances T h1 y Hins HTy) as (_ & L' & fs & new & _ & Hs & _). by exists L', (k + zlen fs).
Qed.
End insertion.
Lemma outcome_settled {Y A} (T : Y → list Block → Prop) k h0 (r : res A) (s : Hashgraph St * Y) :
  outcome h0 k T r s → settled s.1.
Proof.
  assert (∀ P, advances T k h0 P s → settled s.1) as Ha
    by (intros P (_ & L & fs & new & _ & Hs & _); by exists L, (k + zlen fs)).
  destruct r; simpl; eauto.
Qed.
End settled.
