(* ===== verification/Instances.v ===== *)
(** * Concrete instances of the parameters

    Executable instances of [Keys] and [Codec] that satisfy the laws the
    theorems assume, for running the model on examples: a 64-bit FNV-based
    digest for SHA-256, a transparent signature scheme for ECDSA, and a
    length-prefixed text rendering for JSON. *)
From S2P Require Export Hashgraph InmemStore.

Definition str_bytes (s : string) : bytes := String.list_byte_of_string s.

Definition toy_point (d : Z) : Z * Z := (d, d + 1).

#[export] Instance ToyKeys : Keys := {
  sha256 := λ data,
    ((λ n, byte_of_Z (Z.shiftr (hash32 data) (8 * n))) <$> [0; 1; 2; 3]) ++
    ((λ n, byte_of_Z (Z.shiftr (hash32 (x55 :: data)) (8 * n))) <$> [0; 1; 2; 3]);
  elliptic_Unmarshal := λ bs,
    match bs with
    | x04 :: bs' => Some (toy_point (SetBytes bs'))
    | _ => None
    end;
  ScalarBaseMult := λ d, Some (toy_point d);
  elliptic_Marshal := λ p, x04 :: Bytes p.1;
  ecdsa_Verify := λ pub data r s,
    match pub with
    | Some (x, _) => Ok ((s =? x) && (r =? hash32 data))
    | None => Ok false
    end;
  ecdsa_Sign := λ d data, Ok (hash32 data, d);
}.

(** Rendering with explicit lengths. *)
Definition ser_str (s : string) : string := pretty (String.length s) +:+ ":" +:+ s.
Definition ser_Z (z : Z) : string := pretty z +:+ ";".
Definition ser_bytes (b : bytes) : string := ser_str (String.string_of_list_byte b).
Definition ser_list {A} (f : A → string) (l : list A) : string :=
  foldr (λ a s, f a +:+ s) "]" l.
Definition ser_slice {A} (f : A → string) (l : slice A) : string :=
  match l with None => "n" | Some l => "[" +:+ ser_list f l end.
Definition ser_peer (p : Peer) : string :=
  ser_str (NetAddr p) +:+ ser_str (PubKeyHex p) +:+ ser_str (Moniker p).
Definition ser_type (t : TransactionType) : string :=
  match t with PEER_ADD => "A" | PEER_REMOVE => "R" | UnknownTransactionType n => ser_Z n end.
Definition ser_itb (b : InternalTransactionBody) : string :=
  ser_type (itb_Type b) +:+ ser_peer (itb_Peer b).
Definition ser_itx (t : InternalTransaction) : string :=
  ser_itb (itx_Body t) +:+ ser_str (itx_Signature t).
Definition ser_bs (b : BlockSignature) : string :=
  ser_bytes (bs_Validator b) +:+ ser_Z (bs_Index b) +:+ ser_str (bs_Signature b).
Definition ser_event (b : EventBodyJSON) : string :=
  ser_slice ser_bytes (ebj_Transactions b) +:+ ser_slice ser_itx (ebj_InternalTransactions b)
  +:+ ser_str (ebj_Parents b).1 +:+ ser_str (ebj_Parents b).2 +:+ ser_bytes (ebj_Creator b)
  +:+ ser_Z (ebj_Index b) +:+ ser_slice ser_bs (ebj_BlockSignatures b)
  +:+ ser_Z (ebj_Timestamp b).
Definition ser_fe (fe : FrameEventJSON) : string :=
  ser_event (fej_Body fe) +:+ ser_str (fej_Signature fe) +:+ ser_Z (fej_Round fe)
  +:+ ser_Z (fej_LamportTimestamp fe) +:+ (if fej_Witness fe then "t" else "f").
Definition ser_frame (f : FrameJSON) : string :=
  ser_Z (fj_Round f) +:+ ser_list ser_peer (fj_Peers f)
  +:+ ser_list (λ '(k, l), ser_str k +:+ ser_list ser_fe l) (map_to_list (fj_Roots f))
  +:+ ser_list ser_fe (fj_Events f)
  +:+ ser_list (λ '(k, l), ser_Z k +:+ ser_list ser_peer l) (map_to_list (fj_PeerSets f))
  +:+ ser_Z (fj_Timestamp f).
Definition ser_receipt (r : InternalTransactionReceipt) : string :=
  ser_itx (itr_InternalTransaction r) +:+ (if itr_Accepted r then "t" else "f").
Definition ser_block (b : BlockBody) : string :=
  ser_Z (bb_Index b) +:+ ser_Z (bb_RoundReceived b) +:+ ser_Z (bb_Timestamp b)
  +:+ ser_bytes (bb_StateHash b) +:+ ser_bytes (bb_FrameHash b) +:+ ser_bytes (bb_PeersHash b)
  +:+ ser_list ser_bytes (bb_Transactions b) +:+ ser_list ser_itx (bb_InternalTransactions b)
  +:+ ser_list ser_receipt (bb_InternalTransactionReceipts b).

#[export] Instance ToyCodec : Codec := {
  json_EventBody := λ b, Ok (str_bytes (ser_event b));
  json_InternalTransactionBody := λ b, Ok (str_bytes (ser_itb b));
  json_BlockBody := λ b, Ok (str_bytes (ser_block b));
  json_Frame := λ f, Ok (str_bytes (ser_frame f));
}.
#[export] Instance ToyOrder : RangeOrder := map_to_list_order.

(** Participants: private keys 1, 2, 3, ... *)
Definition toy_key (d : Z) : Z * (Z * Z) := (d, toy_point d).
Definition toy_pub (d : Z) : bytes := FromPublicKey (Some (toy_point d)).
Definition toy_pubhex (d : Z) : string := PublicKeyHex (Some (toy_point d)).
Definition toy_peer (d : Z) : Peer := NewPeer (toy_pubhex d) "" "".
Definition res_get {E A} (a : A) (r : result E A) : A := match r with Ok a => a | _ => a end.
Definition toy_peers (ds : list Z) : PeerSet :=
  res_get empty_PeerSet (NewPeerSet (toy_peer <$> ds)).

(** An event of participant [d], signed. *)
Definition toy_event (d index : Z) (sp op : string) (txs : list bytes) : Event :=
  let e := NewEvent (Some txs) (Some []) (Some []) (sp, op) (toy_pub d) index (1000 + index) in
  res_get e (Event_Sign e d).
