(* ===== verification/StoreInstances.v ===== *)
(** * Concrete instances of the database and of its encodings

    A database that is a finite map, whose transactions always succeed, and a
    prefix-free encoding of everything that is stored, with its inverse: they
    satisfy the laws that the theorems on the persistent store assume. *)
From S2P Require Export Badger Instances.

(** ** A database in memory *)
#[export] Instance MapKV : KV (gmap string bytes) := {
  kv_Item := bytes;
  ErrKeyNotFound := EMsg "Key not found";
  kv_Get := λ d w k,
    if decide (k = "") then Err (EMsg "Key cannot be empty")
    else match apply_writes w d !! k with
         | Some v => Ok v
         | None => Err (EMsg "Key not found")
         end;
  kv_ValueCopy := λ v, Ok v;
  kv_Set := λ w k v,
    if decide (k = "") then Err (EMsg "Key cannot be empty") else Ok (w ++ [(k, v)]);
  kv_Commit := λ w d, (Ok tt, apply_writes w d);
  kv_Prefix := λ d p, omap (λ '(k, v), if String.prefix p k then Some v else None) (map_to_list d);
  kv_Close := ret tt;
}.

#[export] Instance MapKV_laws : KVLaws (gmap string bytes).
Proof.
  refine {| kv_content := λ d, d |}; simpl.
  - intros d w k Hk. rewrite decide_False by done. destruct (apply_writes w d !! k); eauto.
  - intros d w. eauto.
  - intros w k v w'. destruct (decide (k = "")); naive_solver.
  - done.
Defined.

(** ** A prefix-free encoding *)
Class Wire (A : Type) := {
  put : A → bytes;
  take_ : bytes → option (A * bytes);
  take_put : ∀ a rest, take_ (put a ++ rest) = Some (a, rest);
}.

Definition wire_iso {A B} `{Wire B} (f : A → B) (g : B → A)
    (Hgf : ∀ a, g (f a) = a) : Wire A.
Proof.
  refine {| put := λ a, put (f a); take_ := λ bs, '(b, rest) ← take_ bs; Some (g b, rest) |}.
  intros a rest. rewrite take_put. simpl. by rewrite Hgf.
Defined.

#[export] Instance wire_bool : Wire bool.
Proof.
  refine {| put := λ b : bool, [if b then x01 else x00];
            take_ := λ bs, match bs with
                           | x01 :: r => Some (true, r)
                           | x00 :: r => Some (false, r)
                           | _ => None
                           end |}.
  by intros [].
Defined.
#[export] Instance wire_byte : Wire byte.
Proof.
  refine {| put := λ b : byte, [b];
            take_ := λ bs, match bs with b :: r => Some (b, r) | [] => None end |}.
  done.
Defined.
#[export] Instance wire_pair {A B} `{Wire A, Wire B} : Wire (A * B).
Proof.
  refine {| put := λ p : A * B, put p.1 ++ put p.2;
            take_ := λ bs, '(a, r) ← take_ bs; '(b, r) ← take_ r; Some ((a, b), r) |}.
  intros [a b] rest. simpl. rewrite <-app_assoc, take_put. simpl. by rewrite take_put.
Defined.

(** Lists: a mark before each element, another one at the end. *)
Fixpoint put_list {A} `{Wire A} (l : list A) : bytes :=
  match l with [] => [x00] | a :: l => x01 :: put a ++ put_list l end.
Fixpoint take_list {A} `{Wire A} (n : nat) (bs : bytes) : option (list A * bytes) :=
  match n, bs with
  | S n, x01 :: r => '(a, r) ← take_ r; '(l, r) ← take_list n r; Some (a :: l, r)
  | _, x00 :: r => Some ([], r)
  | _, _ => None
  end.
Lemma take_list_put {A} `{Wire A} (l : list A) n rest : (length l ≤ n)%nat →
  take_list n (put_list l ++ rest) = Some (l, rest).
Proof.
  revert n. induction l as [|a l IH]; intros n Hn; simpl in *; [by destruct n|].
  destruct n as [|n]; [lia|]. simpl. rewrite <-app_assoc, take_put. simpl. by rewrite IH by lia.
Qed.
Lemma put_list_length {A} `{Wire A} (l : list A) : (length l ≤ length (put_list l))%nat.
Proof. induction l as [|a l IH]; simpl; [lia|]. rewrite length_app. lia. Qed.
#[export] Instance wire_list {A} `{Wire A} : Wire (list A).
Proof.
  refine {| put := put_list; take_ := λ bs, take_list (length bs) bs |}.
  intros l rest. apply take_list_put. rewrite length_app. pose proof (put_list_length l). lia.
Defined.

(** Numbers: the bits, from the least significant. *)
Fixpoint pos_bits (p : positive) : list bool :=
  match p with xH => [] | xO p => false :: pos_bits p | xI p => true :: pos_bits p end.
Fixpoint bits_pos (l : list bool) : positive :=
  match l with [] => xH | false :: l => xO (bits_pos l) | true :: l => xI (bits_pos l) end.
Lemma bits_pos_bits p : bits_pos (pos_bits p) = p.
Proof. induction p as [p IH|p IH|]; simpl; congruence. Qed.
#[export] Instance wire_positive : Wire positive := wire_iso pos_bits bits_pos bits_pos_bits.
Definition Z_tag (z : Z) : bool * bool * positive :=
  match z with Z0 => (false, false, xH) | Zpos p => (true, false, p) | Zneg p => (true, true, p) end.
Definition tag_Z (t : bool * bool * positive) : Z :=
  match t with
  | (false, _, _) => Z0
  | (true, false, p) => Zpos p
  | (true, true, p) => Zneg p
  end.
Lemma tag_Z_tag z : tag_Z (Z_tag z) = z.
Proof. by destruct z. Qed.
#[export] Instance wire_Z : Wire Z := wire_iso Z_tag tag_Z tag_Z_tag.
#[export] Instance wire_string : Wire string :=
  wire_iso String.list_byte_of_string String.string_of_list_byte
    String.string_of_list_byte_of_string.
#[export] Instance wire_slice {A} `{Wire A} : Wire (slice A).
Proof.
  refine (wire_iso (λ s, match s with None => (false, []) | Some l => (true, l) end)
            (λ '(b, l), if (b : bool) then Some l else None) _). by intros [].
Defined.
#[export] Instance wire_map {K V} `{Countable K, Wire K, Wire V} : Wire (gmap K V).
Proof.
  refine (wire_iso (B:=list (K * V)) map_to_list list_to_map _). apply list_to_map_to_list.
Defined.

(** ** What is stored *)
#[export] Instance wire_peer : Wire Peer.
Proof.
  refine (wire_iso (λ p, (NetAddr p, PubKeyHex p, Moniker p)) (λ '(a, k, m), mkPeer a k m) _).
  by intros [].
Defined.
#[export] Instance wire_type : Wire TransactionType.
Proof.
  refine (wire_iso
    (λ t, match t with PEER_ADD => (false, 0) | PEER_REMOVE => (false, 1)
                     | UnknownTransactionType n => (true, n) end)
    (λ '(b, n), if (b : bool) then UnknownTransactionType n
                else if n =? 0 then PEER_ADD else PEER_REMOVE) _). by intros [].
Defined.
#[export] Instance wire_itx : Wire InternalTransaction.
Proof.
  refine (wire_iso (λ t, (itb_Type (itx_Body t), itb_Peer (itx_Body t), itx_Signature t))
            (λ '(ty, p, s), mkITx (mkITBody ty p) s) _). by intros [[]].
Defined.
#[export] Instance wire_receipt : Wire InternalTransactionReceipt.
Proof.
  refine (wire_iso (λ r, (itr_InternalTransaction r, itr_Accepted r)) (λ '(t, a), mkReceipt t a) _).
  by intros [].
Defined.
#[export] Instance wire_bs : Wire BlockSignature.
Proof.
  refine (wire_iso (λ b, (bs_Validator b, bs_Index b, bs_Signature b)) (λ '(v, i, s), mkBS v i s) _).
  by intros [].
Defined.
#[export] Instance wire_body : Wire EventBodyJSON.
Proof.
  refine (wire_iso (λ b, (ebj_Transactions b, ebj_InternalTransactions b, ebj_Parents b,
              ebj_Creator b, ebj_Index b, ebj_BlockSignatures b, ebj_Timestamp b))
            (λ '(t, it, p, c, i, bs, ts), mkEBJ t it p c i bs ts) _). by intros [].
Defined.
#[export] Instance wire_coord : Wire EventCoordinates.
Proof.
  refine (wire_iso (λ c, (ec_Hash c, ec_Index c)) (λ '(h, i), mkCoord h i) _). by intros [].
Defined.
#[export] Instance wire_wrapper : Wire eventWrapper.
Proof.
  refine (wire_iso (λ w, (ew_Body w, ew_Signature w, ew_CreatorID w, ew_OtherParentCreatorID w,
              ew_SelfParentIndex w, ew_OtherParentIndex w, ew_TopologicalIndex w,
              ew_LastAncestors w, ew_FirstDescendants w))
            (λ '(b, s, c, oc, si, oi, ti, la, fd), mkWrapper b s c oc si oi ti la fd) _).
  by intros [].
Defined.
#[export] Instance wire_block : Wire Block.
Proof.
  refine (wire_iso (λ b, let bb := bl_Body b in
              (bb_Index bb, bb_RoundReceived bb, bb_Timestamp bb, bb_StateHash bb, bb_FrameHash bb,
               bb_PeersHash bb, bb_Transactions bb, bb_InternalTransactions bb,
               bb_InternalTransactionReceipts bb, bl_Signatures b))
            (λ '(i, rr, t, sh, fh, ph, tx, it, re, sg),
               mkBlock (mkBlockBody i rr t sh fh ph tx it re) sg) _). by intros [[]].
Defined.
#[export] Instance wire_fe : Wire FrameEventJSON.
Proof.
  refine (wire_iso (λ f, (fej_Body f, fej_Signature f, fej_Round f, fej_LamportTimestamp f,
              fej_Witness f)) (λ '(b, s, r, l, w), mkFEJ b s r l w) _). by intros [].
Defined.
#[export] Instance wire_frame : Wire FrameJSON.
Proof.
  refine (wire_iso (λ f, (fj_Round f, fj_Peers f, fj_Roots f, fj_Events f, fj_PeerSets f,
              fj_Timestamp f)) (λ '(r, p, ro, e, ps, t), mkFJ r p ro e ps t) _). by intros [].
Defined.
#[export] Instance wire_roundEvent : Wire roundEvent.
Proof.
  refine (wire_iso (λ r, (re_Witness r, match re_Famous r with
                            | Undefined => (false, false) | TTrue => (true, false)
                            | TFalse => (true, true) end))
            (λ '(w, t), mkRE w (match t with
                            | (false, _) => Undefined | (true, false) => TTrue
                            | (true, true) => TFalse end)) _). by intros [? []].
Defined.
#[export] Instance wire_roundInfo : Wire RoundInfoJSON.
Proof.
  refine (wire_iso (λ r, (rij_CreatedEvents r, rij_ReceivedEvents r)) (λ '(c, l), mkRIJ c l) _).
  by intros [].
Defined.

Definition encode_ {A} `{Wire A} (a : A) : res bytes := Ok (put a).
Definition decode_ {A} `{Wire A} (bs : bytes) : res A :=
  match take_ bs with Some (a, []) => Ok a | _ => Err (EMsg "invalid encoding") end.
Lemma decode_encode {A} `{Wire A} (a : A) bs : encode_ a = Ok bs → decode_ bs = Ok a.
Proof.
  intros [= <-]. unfold decode_. rewrite <-(app_nil_r (put a)) at 1. by rewrite take_put.
Qed.

#[export] Instance WireCodec : DBCodec := {
  json_eventWrapper := encode_; unjson_eventWrapper := decode_;
  json_Block := encode_; unjson_Block := decode_;
  json_Root := encode_; unjson_Root := decode_;
  json_RoundInfo := encode_; unjson_RoundInfo := decode_;
  unjson_Frame := decode_;
  json_Peer := encode_; unjson_Peer := decode_;
  json_Peers := encode_; unjson_Peers := decode_;
}.
#[export] Instance WireCodec_laws : DBCodecLaws.
Proof. split. intros w b Hw%decode_encode. by exists w. Defined.
