(* ===== verification/GraphTheorems.v ===== *)
(** * The graph: theorems

    The statements about insertion, ancestry, timestamps and strongly seeing,
    over any store with the contract of [StoreLaws], with their instances on
    [InmemStore]. *)
From S2P Require Export Termination InmemStore Instances.

(** ** Reachable hashgraphs

    What a hashgraph goes through between two resets: events are inserted,
    each with the next index of its creator and while the event cache has
    room, peer-sets are recorded, signatures are processed, and it is
    queried. A step is taken whatever the outcome of the call. *)
Section reachable.
Context {KP : Keys} {CP : Codec} {RO : RangeOrder}.
Context {St : Type} {STO : Store St} {LAW : StoreLaws St}.
Context {X : Type} (cb : Block → GoM error (Hashgraph St * X) unit) (fuel : nat).

Definition insertable (h : Hashgraph St) (e : Event) : Prop :=
  graph h !! Hex e = None ∧ well_indexed (graph h) e ∧
  Z.of_nat (size (graph h)) < v_size (hv h).

Inductive hg_step : Hashgraph St * X → Hashgraph St * X → Prop :=
| step_insert e w hx : insertable hx.1 e →
    hg_step hx (InsertEventAndRunConsensus fuel cb e w hx).2
| step_peers r ps hx : hg_step hx ((onStore (SetPeerSet r ps) hx.1).2, hx.2)
| step_signatures hx : hg_step hx ((ProcessSigPool hx.1).2, hx.2)
| step_ancestor x y hx : hg_step hx ((ancestor x y hx.1).2, hx.2)
| step_timestamp x hx : hg_step hx ((lamportTimestamp fuel x hx.1).2, hx.2).

(** The event is in the graph or nothing changed. *)
Lemma hg_step_inv hx hx' : cb_ok cb → hg_step hx hx' → hg_inv hx.1 →
  hg_inv hx'.1 ∧ graph hx.1 ⊆ graph hx'.1.
Proof.
  intros Hcb Hs Hinv.
  assert (∀ A (m : GoM error (Hashgraph St) A), respects (keeps (same_graph hx.1)) m →
    hg_inv (m hx.1).2 ∧ graph hx.1 ⊆ graph (m hx.1).2) as Hsame.
  { intros A m Hm. destruct (Hm hx.1) as (? & ? & ->); [by split|]. done. }
  destruct Hs as [e w hx (Hfresh & Hwi & Hroom)|r ps hx|hx|x y hx|x hx].
  2-5: simpl; apply Hsame.
  2: apply SetPeerSet_same.
  2-4: apply graph_stable_same; intros N g pec n Hok;
    first [by apply stable_ProcessSigPool|by apply stable_ancestor|by apply stable_lamport].
  pose proof (InsertEventAndRunConsensus_graph cb fuel e w hx Hcb Hinv Hfresh Hwi Hroom) as Hout.
  assert (insert_failed hx.1 e (InsertEventAndRunConsensus fuel cb e w hx).2.1) as [Hf|Hf].
  { destruct (InsertEventAndRunConsensus fuel cb e w hx) as [[]]; simpl in *; [|done..].
    right. tauto. }
  - destruct Hf as (? & _ & ->). done.
  - destruct Hf as (? & _ & e' & _ & ->). split; [done|]. by apply insert_subseteq.
Qed.

Lemma hg_steps_inv hx hx' : cb_ok cb → rtc hg_step hx hx' → hg_inv hx.1 →
  hg_inv hx'.1 ∧ graph hx.1 ⊆ graph hx'.1.
Proof.
  intros Hcb Hs. induction Hs as [|hx1 hx2 hx3 H12 _ IH]; [done|]. intros Hinv.
  destruct (hg_step_inv _ _ Hcb H12 Hinv) as [Hinv2 Hsub].
  destruct (IH Hinv2) as [? ?]. split; [done|]. by etrans.
Qed.
End reachable.

Lemma Dummy_cb_ok {KP : Keys} {CP : Codec} {RO : RangeOrder} {St : Type} {STO : Store St}
    {LAW : StoreLaws St} {X} : cb_ok (X:=X) DummyInternalCommitCallback.
Proof. intros b h0 hx Hh. exact Hh. Qed.

(** A new in-memory hashgraph has an empty graph. *)
Lemma NewInmem_inv {KP : Keys} {CP : Codec} {RO : RangeOrder} n :
  2 ≤ n →
  hg_inv (NewHashgraph (NewInmemStore n)) ∧ graph (NewHashgraph (NewInmemStore n)) = ∅.
Proof.
  intros Hn. apply new_hashgraph_inv; try done; simpl.
  - apply NewInmemStore_ok. lia.
  - by apply NewParticipantEventsCache_ok.
  - lia.
Qed.

Lemma Init_inv {KP : Keys} {CP : Codec} {RO : RangeOrder} n ps :
  2 ≤ n →
  let h := (Init ps (NewHashgraph (NewInmemStore n))).2 in
  hg_inv h ∧ graph h = ∅ ∧ v_size (hv h) = n.
Proof.
  intros Hn h. destruct (NewInmem_inv n Hn) as [Hinv Hg].
  assert (same_graph (NewHashgraph (NewInmemStore n)) h) as (? & ? & ?).
  { apply (respects_wrap (keeps (same_graph (NewHashgraph (NewInmemStore n)))));
      [apply SetPeerSet_same|]. done. }
  split; [done|]. split; [congruence|]. by etrans.
Qed.

(** ** A small hashgraph, for the witnesses *)
Definition well_indexedb {KP : Keys} {CP : Codec} (g : gmap string Event) (e : Event) : bool :=
  (0 <=? Index e) &&
  (bool_decide (SelfParent e = "") ||
   match g !! SelfParent e with Some p => Index e =? Index p + 1 | None => true end).

Lemma well_indexedb_ok {KP : Keys} {CP : Codec} g e :
  well_indexedb g e = true → well_indexed g e.
Proof.
  unfold well_indexedb, well_indexed. intros [H0 H]%andb_true_iff. split; [lia|].
  apply orb_true_iff in H as [H|H]; [left; by apply bool_decide_eq_true in H|right].
  intros p Hp. rewrite Hp in H. lia.
Qed.

(** Decides [insertable]. *)
Definition insertableb {KP : Keys} {CP : Codec} {St} {STO : Store St} {LAW : StoreLaws St}
    (h : Hashgraph St) (e : Event) : bool :=
  match graph h !! Hex e with None => true | Some _ => false end &&
  well_indexedb (graph h) e && (Z.of_nat (size (graph h)) <? v_size (hv h)).

Lemma insertableb_ok {KP : Keys} {CP : Codec} {St} {STO : Store St} {LAW : StoreLaws St}
    (h : Hashgraph St) e : insertableb h e = true → insertable h e.
Proof.
  unfold insertableb. intros [[H1 H2]%andb_true_iff H3]%andb_true_iff.
  split; [by destruct (graph h !! Hex e)|]. split; [by apply well_indexedb_ok|lia].
Qed.

Section toy.
Abbreviation cb := (DummyInternalCommitCallback (St:=InmemStore) (X:=unit)).

Definition toy_insert (hx : Hashgraph InmemStore * unit) (e : Event) :=
  (InsertEventAndRunConsensus 20 cb e true hx).2.

Fixpoint toy_runb (hx : Hashgraph InmemStore * unit) (es : list Event) : bool :=
  match es with
  | [] => true
  | e :: es => insertableb hx.1 e && toy_runb (toy_insert hx e) es
  end.

Lemma toy_run_steps hx es : toy_runb hx es = true → rtc (hg_step cb 20) hx (foldl toy_insert hx es).
Proof.
  revert hx. induction es as [|e es IH]; intros hx; simpl; [done|].
  intros [He Hes]%andb_true_iff. eapply rtc_l; [|by apply IH].
  apply (step_insert cb 20 e true hx). by apply insertableb_ok.
Qed.

Definition toy_start : Hashgraph InmemStore * unit :=
  ((Init (toy_peers [1; 2]) (NewHashgraph (NewInmemStore 10))).2, tt).
Definition toy_a0 : Event := toy_event 1 0 "" "" [].
Definition toy_b0 : Event := toy_event 2 0 "" "" [].
Definition toy_a1 : Event := toy_event 1 1 (Hex toy_a0) (Hex toy_b0) [].
Definition toy_b1 : Event := toy_event 2 1 (Hex toy_b0) (Hex toy_a1) [].
Definition toy_events : list Event := [toy_a0; toy_b0; toy_a1; toy_b1].
Definition toy_hg : Hashgraph InmemStore * unit :=
  Eval vm_compute in foldl toy_insert toy_start toy_events.
Lemma toy_hg_run : foldl toy_insert toy_start toy_events = toy_hg.
Proof. vm_compute. reflexivity. Qed.

Lemma toy_hg_steps : rtc (hg_step cb 20) toy_start toy_hg.
Proof. rewrite <-toy_hg_run. apply toy_run_steps. by vm_compute. Qed.

Lemma toy_hg_inv : hg_inv toy_hg.1.
Proof.
  apply (hg_steps_inv cb 20 toy_start); [apply Dummy_cb_ok|apply toy_hg_steps|].
  apply (Init_inv 10). lia.
Qed.
End toy.

(** ** Properties *)
Section theorems.
Context {KP : Keys} {CP : Codec} {RO : RangeOrder}.
Context {St : Type} {STO : Store St} {LAW : StoreLaws St}.

(** C1: from any state that satisfies the graph invariant, every sequence of
    insertions (of events that are not yet known, carry the next index of
    their creator and fit in the cache), peer-set changes, signature
    processing and queries, whatever the outcome of each call and whatever commit callback is installed (as
    long as the callback leaves the graph alone), ends in a state that
    satisfies it, and no event of the graph is lost or changed. *)
Theorem reachable_invariant {X} (cb : Block → GoM error (Hashgraph St * X) unit) fuel hx hx' :
  cb_ok cb → hg_inv hx.1 → rtc (hg_step cb fuel) hx hx' →
  hg_inv hx'.1 ∧ graph hx.1 ⊆ graph hx'.1.
Proof. intros Hcb Hinv Hs. by eapply hg_steps_inv. Qed.

(** C8: inserting an event that is new, carries the next index of its creator
    and fits in the event cache, and running consensus on the result, adds
    exactly that event to the graph when the call succeeds; when it fails the
    graph is either as before or extended by exactly that event. The payload,
    parents, creator and index of the stored event are those of the event
    given. *)
Theorem insertion_extends_graph {X} (cb : Block → GoM error (Hashgraph St * X) unit)
    fuel e setWireInfo hx :
  cb_ok cb → hg_inv hx.1 → insertable hx.1 e →
  let out := InsertEventAndRunConsensus fuel cb e setWireInfo hx in
  match out.1 with
  | Ok e' => eb_public (ev_Body e') = eb_public (ev_Body e) ∧ grown hx.1 e out.2.1
  | _ => same_graph hx.1 out.2.1 ∨ grown hx.1 e out.2.1
  end.
Proof.
  intros Hcb Hinv (Hfresh & Hwi & Hroom). by apply InsertEventAndRunConsensus_graph.
Qed.

(** In a state that satisfies the graph invariant there are no forks: the
    events of a participant form one chain, in which an event reaches exactly
    the events of the same participant that do not have a larger index. *)
Theorem participant_chain h x y ex ey :
  hg_inv h → graph h !! x = Some ex → graph h !! y = Some ey → Creator ex = Creator ey →
  (reach (graph h) x y ↔ Index ey ≤ Index ex) ∧ (Index ex = Index ey → x = y).
Proof.
  intros (_ & _ & Hok & _) Hx Hy Hc.
  split; [|by apply (dag_unique _ _ _ Hok x y ex ey)].
  split; [|by eapply chain_reach]. intros Hr.
  destruct (decide (Index ey ≤ Index ex)) as [|Hlt]; [done|].
  assert (reach (graph h) y x) as Hr' by (eapply chain_reach; [done..|lia]).
  pose proof (reach_antisym _ _ _ Hok _ _ _ Hx Hr Hr') as ->.
  simplify_eq. lia.
Qed.

(** C17: in a state that satisfies the graph invariant, [ancestor] terminates
    without error on two known events, memo table or not, and answers true
    exactly when there is a path of parents from the first to the second; it
    keeps the invariant and the graph. *)
Theorem ancestor_decides_reach h x y :
  hg_inv h → is_Some (graph h !! x) → is_Some (graph h !! y) →
  ∃ b h', ancestor x y h = (Ok b, h') ∧ (b = true ↔ reach (graph h) x y) ∧ same_graph h h'.
Proof.
  intros (Hpec & Hn & Hok & HI) Hx Hy.
  destruct (ancestor_cases _ _ _ _ Hok x y h HI) as (r & h' & Hr & HI' & Hres).
  destruct r as [b|err| |]; [|destruct Hres as [H0|H0]; rewrite H0 in *; by destruct Hx, Hy|done..].
  exists b, h'. split; [done|]. split; [|by eapply hg_inv_intro].
  destruct Hres as [[Heq ->]|(_ & _ & Hb)]; [|done]. simpl in Heq. subst.
  split; [|done]. intros _. apply rtc_refl.
Qed.

(** C37: in a state that satisfies the graph invariant, and with fuel above the
    topological index of the hashgraph, the recursion of [lamportTimestamp]
    ends without error on every known event, its value is the length
    of the longest path below the event, and it is strictly larger than that
    of every event below it. *)
Theorem lamport_happens_before fuel h x :
  hg_inv h → is_Some (graph h !! x) → topologicalIndex h < Z.of_nat fuel →
  ∃ v h', lamportTimestamp fuel x h = (Ok v, h') ∧ lamport (graph h) x v ∧ same_graph h h' ∧
    ∀ y, tc (parent (graph h)) x y →
      ∃ w h'', lamportTimestamp fuel y h' = (Ok w, h'') ∧ w < v.
Proof.
  intros (Hpec & Hn & Hok & HI) [ex Hx] Hf.
  assert (∀ y h1, is_Some (graph h !! y) → Ist (v_size (hv h)) (graph h) (v_pec (hv h)) (topologicalIndex h) h1 →
    ∃ v h', lamportTimestamp fuel y h1 = (Ok v, h') ∧ lamport (graph h) y v ∧
      Ist (v_size (hv h)) (graph h) (v_pec (hv h)) (topologicalIndex h) h') as Hrun.
  { intros y h1 [ey Hy] HI1. destruct (lamport_cases _ _ _ _ Hok fuel y h1 HI1) as (r & h' & Hr & HI' & Hres).
    pose proof (lamport_fuel _ _ _ _ Hok fuel y h1 (fueled_all _ _ _ Hok fuel Hf Hn y) HI1) as Hnf.
    rewrite Hr in Hnf. destruct r as [v|err| |]; simpl in *; [eauto|congruence|done|done]. }
  destruct (Hrun x h) as (v & h' & Hv & Hl & HI'); [eauto|done|].
  exists v, h'. split; [done|]. split; [done|]. split; [by eapply hg_inv_intro|].
  intros y Hxy. destruct (Hrun y h') as (w & h'' & Hw & Hlw & _); [|done|].
  { apply tc_rtc in Hxy. by eapply reach_known. }
  exists w, h''. split; [done|].
  by apply (lamport_below _ _ _ Hok x y).
Qed.

(** When [stronglySee] answers true, from the cache or not, there is a
    peer-set with the hash of the one asked about, and a set of participants
    of it as large as its super-majority, such that every one of them created
    an event on a path from the first event to the second. *)
Theorem stronglySee_sound h x y ps b h' :
  hg_inv h → stronglySee x y ps h = (Ok b, h') →
  same_graph h h' ∧
  (b = true → ∃ ps', PS_Hex ps' = PS_Hex ps ∧ strongly_sees (graph h) x y ps').
Proof.
  intros (Hpec & Hn & Hok & HI) Hrun.
  destruct (stronglySee_cases _ _ _ _ Hok x y ps h HI) as [Hp|(r & h1 & Hr & HI' & Hres)].
  - unfold stronglySee, bind, lift in Hrun. destruct Hp as [Hp|[Hp|[? Hp]]]; by rewrite Hp in Hrun.
  - rewrite Hr in Hrun. injection Hrun as -> ->. split; [by eapply hg_inv_intro|]. exact Hres.
Qed.

(** C18: with fuel above the topological index, computing the round of an event
    and whether it is a witness ends, and so does the walk that records the
    first descendants of a stored event: the recursions of the code terminate
    on every graph that satisfies the invariant. *)
Theorem rounds_terminate fuel h :
  hg_inv h → topologicalIndex h + 1 < Z.of_nat fuel →
  (∀ x, (round fuel x h).1 ≠ OutOfFuel ∧ (witness fuel x h).1 ≠ OutOfFuel) ∧
  (∀ e, graph h !! Hex e = Some (skeleton e) →
     (updateAncestorFirstDescendant fuel e h).1 ≠ OutOfFuel).
Proof.
  intros (Hpec & Hn & Hok & HI) Hf. assert (topologicalIndex h < Z.of_nat fuel) as Hf' by lia.
  split.
  - intros x. pose proof (fueled_all _ _ _ Hok fuel Hf' Hn x) as Hfx.
    split; [by apply (total_round (v_size (hv h)) _ _ _ Hok fuel x Hfx h)|].
    by apply (total_witness (v_size (hv h)) _ _ _ Hok fuel Hf' Hn x h).
  - intros e He. by apply (total_updateAncestor (v_size (hv h)) _ _ _ Hok fuel Hf' Hn e He Hf h).
Qed.
End theorems.

(** ** Witnesses *)
Section witnesses.
Abbreviation cb := (DummyInternalCommitCallback (St:=InmemStore) (X:=unit)).

Definition is_okb {E A} (r : result E A) : bool := match r with Ok _ => true | _ => false end.
Definition toy_stored (k : string) : Event := default toy_a0 (graph toy_hg.1 !! k).
Definition toy_a2 : Event := toy_event 1 2 (Hex toy_a1) (Hex toy_b1) [].

Lemma reachable_invariant_witness :
  hg_inv toy_hg.1 ∧ graph toy_start.1 ⊆ graph toy_hg.1.
Proof.
  apply (reachable_invariant cb 20 toy_start toy_hg).
  - apply Dummy_cb_ok.
  - apply (Init_inv 10). lia.
  - apply toy_hg_steps.
Defined.

Lemma insertion_extends_graph_witness : grown toy_hg.1 toy_a2 (toy_insert toy_hg toy_a2).1.
Proof.
  assert (is_okb (InsertEventAndRunConsensus 20 cb toy_a2 true toy_hg).1 = true) as Hok
    by (vm_compute; reflexivity).
  assert (insertable toy_hg.1 toy_a2) as Hins.
  { apply insertableb_ok. vm_compute. reflexivity. }
  pose proof (insertion_extends_graph cb 20 toy_a2 true toy_hg Dummy_cb_ok toy_hg_inv Hins) as Hout.
  unfold toy_insert. destruct (InsertEventAndRunConsensus 20 cb toy_a2 true toy_hg) as [[] hx];
    [|done..]. by destruct Hout.
Defined.

Lemma participant_chain_witness :
  reach (graph toy_hg.1) (Hex toy_b1) (Hex toy_b0) ∧
  ¬ reach (graph toy_hg.1) (Hex toy_b0) (Hex toy_b1).
Proof.
  split; [|intros Hr].
  - apply (participant_chain toy_hg.1 (Hex toy_b1) (Hex toy_b0) (toy_stored (Hex toy_b1))
             (toy_stored (Hex toy_b0)) toy_hg_inv); vm_compute; [reflexivity..|done].
  - assert (Index (toy_stored (Hex toy_b1)) ≤ Index (toy_stored (Hex toy_b0))) as Hle.
    { apply (participant_chain toy_hg.1 (Hex toy_b0) (Hex toy_b1) (toy_stored (Hex toy_b0))
               (toy_stored (Hex toy_b1)) toy_hg_inv);
        [vm_compute; reflexivity..|exact Hr]. }
    revert Hle. clear Hr. vm_compute. intros Hle. by apply Hle.
Defined.

(** The answers on this graph: the newest event of the second participant
    descends from the first event of the other, and not conversely. *)
Lemma ancestor_decides_reach_witness :
  (∃ b h', ancestor (Hex toy_b1) (Hex toy_a0) toy_hg.1 = (Ok b, h') ∧
     (b = true ↔ reach (graph toy_hg.1) (Hex toy_b1) (Hex toy_a0)) ∧ same_graph toy_hg.1 h') ∧
  (ancestor (Hex toy_b1) (Hex toy_a0) toy_hg.1).1 = Ok true ∧
  (ancestor (Hex toy_a0) (Hex toy_b1) toy_hg.1).1 = Ok false.
Proof.
  split; [|by vm_compute].
  apply (ancestor_decides_reach toy_hg.1 (Hex toy_b1) (Hex toy_a0) toy_hg_inv);
    eexists; vm_compute; reflexivity.
Defined.

Lemma lamport_happens_before_witness :
  ∃ v h', lamportTimestamp 20 (Hex toy_b1) toy_hg.1 = (Ok v, h') ∧
    lamport (graph toy_hg.1) (Hex toy_b1) v ∧ same_graph toy_hg.1 h' ∧
    ∀ y, tc (parent (graph toy_hg.1)) (Hex toy_b1) y →
      ∃ w h'', lamportTimestamp 20 y h' = (Ok w, h'') ∧ w < v.
Proof.
  apply (lamport_happens_before 20 toy_hg.1 (Hex toy_b1) toy_hg_inv).
  - eexists. vm_compute. reflexivity.
  - vm_compute. reflexivity.
Defined.

Lemma stronglySee_sound_witness :
  ∃ ps', PS_Hex ps' = PS_Hex (toy_peers [1; 2]) ∧
    strongly_sees (graph toy_hg.1) (Hex toy_b1) (Hex toy_a0) ps'.
Proof.
  destruct (stronglySee (Hex toy_b1) (Hex toy_a0) (toy_peers [1; 2]) toy_hg.1) as [r h'] eqn:Hr.
  assert (r = Ok true) as ->.
  { change r with (r, h').1. rewrite <-Hr. by vm_compute. }
  by apply (stronglySee_sound toy_hg.1 _ _ _ true h' toy_hg_inv Hr).
Defined.

Lemma rounds_terminate_witness :
  (round 20 (Hex toy_b1) toy_hg.1).1 ≠ OutOfFuel ∧ (round 20 (Hex toy_b1) toy_hg.1).1 = Ok 1.
Proof.
  split; [|by vm_compute].
  apply (rounds_terminate 20 toy_hg.1 toy_hg_inv). by vm_compute.
Defined.
End witnesses.
