(* ===== verification/Agreement.v ===== *)
(** * Replicas agree on rounds and on fame

    Two hashgraphs, over any two stores with the contract [StoreLaws], that
    were fed correctly indexed events in any order under the same constant
    peer-set: an event that both know has the same round in both, and is a
    witness in both or in neither; and if fewer than a third of the validators
    equivocated, a witness whose fame both have decided is famous in both or
    in neither. *)
From S2P Require Export CommitCallback Settled GraphTheorems.

(** ** Runs under one peer-set *)
Section run.
Context {KP : Keys} {CP : Codec} {RO : RangeOrder}.
Context {St : Type} {STO : Store St} {LAW : StoreLaws St}.
Context {X : Type} (cb : Block → GoM error (Hashgraph St * X) unit).
Implicit Types (s : St) (h : Hashgraph St).

(** A store as its constructor returns it. *)
Definition new_store s : Prop :=
  st_ok s ∧ 1 ≤ CacheSize s ∧ v_events (store_view s) = ∅ ∧ v_rounds (store_view s) = ∅ ∧
  v_psc (store_view s) = NewPeerSetCache ∧ pec_ok (v_pec (store_view s)) ∧
  (∀ c items, window (v_pec (store_view s)) c = Some items → lastIndex items = -1) ∧
  v_frames (store_view s) = ∅.

(** Queries, and signatures. *)
Inductive query (ps : PeerSet) : Hashgraph St → Hashgraph St → Prop :=
| query_signatures h : query ps h (ProcessSigPool h).2
| query_stronglySee x y h : query ps h (stronglySee x y ps h).2
| query_round fuel x h : query ps h (round fuel x h).2
| query_witness fuel x h : query ps h (witness fuel x h).2
| query_timestamp fuel x h : query ps h (lamportTimestamp fuel x h).2
| query_ancestor x y h : query ps h (ancestor x y h).2.

(** Events are inserted, each of them new, with the next index of its creator,
    not yet divided into rounds, and while the cache has room; signatures are
    processed, and the hashgraph is queried. *)
Inductive run_step (ps : PeerSet) : Hashgraph St * X → Hashgraph St * X → Prop :=
| run_insert fuel e w hx :
    insertable hx.1 e → ev_round e = None → ev_roundReceived e = None →
    topologicalIndex hx.1 + 2 < Z.of_nat fuel →
    run_step ps hx (InsertEventAndRunConsensus fuel cb e w hx).2
| run_query hx h' : query ps hx.1 h' → run_step ps hx (h', hx.2).

(** What a hashgraph that starts empty with the peers [ps] can become. *)
Definition replica (ps : PeerSet) (hx : Hashgraph St * X) : Prop :=
  ∃ s x, new_store s ∧ rtc (run_step ps) ((Init ps (NewHashgraph s)).2, x) hx.

Lemma new_peers c r ps : psc_peerSets c = ∅ → psc_rounds c = [] →
  PSC_Get (PSC_Set 0 ps c).2 r = Ok ps.
Proof.
  intros H1 H2. destruct (PSC_Set_table 0 ps c) as [Hr Hp]; [by rewrite H1|].
  unfold PSC_Get. rewrite Hr, Hp, H1, H2.
  destruct (<[0 := ps]> ∅ !! r) as [ps'|] eqn:Hl.
  { apply lookup_insert_Some in Hl as [[_ ->]|[_ Hl]]; [done|by rewrite lookup_empty in Hl]. }
  change (merge_sort Z.le ([] ++ [0])) with [0]. simpl.
  unfold PSC_at. rewrite Hp, H1, lookup_insert_eq. by case_match.
Qed.

Section settled.
Context (ps : PeerSet) (hex : string) (Hhex : PS_Hex ps = Ok hex) (Hsm : 2 ≤ SuperMajority ps).

(** An initialised hashgraph over a new store is settled: it has no events. *)
Definition blank : Book := mkBook (λ _, []) [] NewPendingRoundsCache ∅ ∅.
Lemma Init_settled s : new_store s → settled_at ps hex ∅ 0 (Init ps (NewHashgraph s)).2.
Proof.
  intros (Hs & Hsz & Hev & Hrd & Hpsc & Hpec & Hwin & Hfr). set (h := (Init ps (NewHashgraph s)).2).
  destruct (new_hashgraph_inv s Hs Hev Hpec Hwin Hsz) as [Hinv Hg].
  assert (same_graph (NewHashgraph s) h) as (Hinv' & _ & Hg').
  { apply (respects_wrap (keeps (same_graph (NewHashgraph s)))); [apply SetPeerSet_same|]. done. }
  split; [done|]. rewrite Hg', Hg. split.
  { split; [|split]; [split; intros [? ?]; by simplify_map_eq|done|done]. }
  destruct (SetPeerSet_law 0 ps s Hs) as (Hs' & Hstep & Hpsc').
  assert (hg_Store h = (SetPeerSet 0 ps s).2 ∧ memo h = memo (NewHashgraph s) ∧
    UndeterminedEvents h = [] ∧ roundLowerBound h = None ∧ PendingRounds h = NewPendingRoundsCache)
    as (Hst & Hmemo & Hu & Hlb & Hq).
  { unfold h, Init, wrap, onStore, zoom. simpl. by destruct (SetPeerSet 0 ps s) as [[]]. }
  destruct Hinv' as (_ & _ & _ & HI). rewrite Hg', Hg in HI. split; [done|]. exists blank.
  split; [|split; [|split; [|done]]].
  - split; [done|]. destruct Hstep as (_ & Hev' & Hrd' & _ & _ & _ & Hfr' & _).
    assert (v_frames (store_view (SetPeerSet 0 ps s).2) = ∅) as Hfr''.
    { rewrite Hfr, fmap_empty in Hfr'. by apply fmap_empty_inv in Hfr'. }
    unfold ext, booked, hv. rewrite Hst, Hpsc', Hev', Hrd', Hev, Hrd, Hmemo, Hu, Hpsc, Hlb, Hq, Hfr''.
    split; [intros r; by apply new_peers|]. split; [|split; [done|split; [|split; [|done]]]].
    + split; [|split]; (split; [by apply NewLRU_wf|]); intros k v; simpl;
        by rewrite NewLRU_view, lookup_empty.
    + do 5 (split; [done || set_solver|]). done.
    + do 4 (split; [done|]). split; [simpl; set_solver|]. intros r [? Hr]. by rewrite lookup_empty in Hr.
  - split; [constructor|]. split; [|split; [constructor|simpl; set_solver]].
    intros x. split; [set_solver|]. intros [[? Hx] _]. by rewrite lookup_empty in Hx.
  - split; [apply NewPendingRoundsCache_wf|]. split; [|split; [lia|simpl; set_solver]].
    intros r. split; [done|]. intros [_ (x & w & Hx & _)]. set_solver.
Qed.
Lemma steady_settled {A} L k h (m : GoM error (Hashgraph St) A) : settled_at ps hex L k h →
  (∀ bk, respects (keeps (Rst ps hex bk (v_size (hv h)) (graph h) (v_pec (hv h))
      (topologicalIndex h) L all (dom (graph h)) (dom (graph h)))) m) →
  settled_at ps hex L k (m h).2 ∧ graph (m h).2 = graph h.
Proof.
  intros (Hinv & HL & Hk & bk & HR & Hrest) Hm. destruct (Hinv) as (Hpec & Hn & Hok & _).
  destruct (settled_intro ps hex (v_size (hv h)) (graph h) (v_pec (hv h)) (topologicalIndex h) L k (m h).2 Hpec Hn Hok HL Hk) as [Hg Hs]; [|done].
  exists bk. split; [by apply Hm|done].
Qed.
Lemma query_settled L k h h' : query ps h h' → settled_at ps hex L k h →
  settled_at ps hex L k h' ∧ graph h' = graph h.
Proof.
  intros Hq Hs. pose proof Hs as (Hinv & HL & _). destruct (Hinv) as (_ & _ & Hok & _).
  destruct Hq; apply (steady_settled L k h _ Hs); intros bk.
  - apply steady_ProcessSigPool.
  - by apply steady_stronglySee; [..|apply ready_all].
  - by apply steady_round; [..|apply ready_all].
  - by apply steady_witness; [..|apply ready_all].
  - by apply steady_lamport.
  - by apply steady_ancestor.
Qed.
Lemma insert_outcome {T : X → list Block → Prop} L k fuel e w hx : cb_quiet cb →
  (∀ b hx new, T hx.2 new → T (cb b hx).2.2 (new ++ [b])) → T hx.2 [] →
  settled_at ps hex L k hx.1 → insertable hx.1 e → ev_round e = None → ev_roundReceived e = None →
  topologicalIndex hx.1 + 2 < Z.of_nat fuel →
  let out := InsertEventAndRunConsensus fuel cb e w hx in outcome ps hex hx.1 k T out.1 out.2.
Proof.
  intros Hcb HT HTx (Hinv & HL & Hk & bk & HR & Hsh & Hline & Hfrs) (Hfresh & Hwi & Hroom) Hround Hrr Hf.
  destruct hx as [h x].
  by apply (insertion_outcome ps hex Hhex Hsm h e L fuel k bk).
Qed.
Lemma run_step_settled hx hx' :
  cb_quiet cb → run_step ps hx hx' → settled ps hex hx.1 → settled ps hex hx'.1.
Proof.
  intros Hcb Hstep (L & k & Hs). destruct Hstep as [fuel e w hx Hi Hround Hrr Hf|hx h' Hq].
  - apply (outcome_settled ps hex (λ _ _, True) k hx.1 (InsertEventAndRunConsensus fuel cb e w hx).1).
    by apply (insert_outcome L).
  - exists L, k. by apply (query_settled L k hx.1).
Qed.
Lemma replica_settled hx : cb_quiet cb → replica ps hx → settled ps hex hx.1.
Proof.
  intros Hcb (s & x & Hs & Hrun). assert (settled ps hex ((Init ps (NewHashgraph s)).2, x).1) as Hinit
    by (exists ∅, 0; by apply Init_settled).
  induction Hrun as [|hx1 hx2 hx3 H12 _ IH]; [done|]. by apply IH, (run_step_settled hx1).
Qed.

(** In a settled hashgraph the answers are those of its ledger. *)
Lemma settled_answers fuel h L bk N g pec n x : dag_ok g pec n → 0 ≤ n → ledger ps g L →
  Rst ps hex bk N g pec n L all (dom g) (dom g) h → n < Z.of_nat fuel → is_Some (g !! x) →
  ∃ r w, L !! x = Some (r, w) ∧ (round fuel x h).1 = Ok r ∧ (witness fuel x h).1 = Ok w ∧
    ∃ ri re, v_rounds (hv h) !! r = Some ri ∧ CreatedEvents ri !! x = Some re ∧ re_Witness re = w.
Proof.
  intros Hok Hn HL HR Hf [ex Hx].
  assert (ready g all (dom g) x) as Hrd by (apply ready_all; eauto).
  destruct (L !! x) as [[r w]|] eqn:HLx.
  2:{ assert (is_Some (L !! x)) as [? ?] by (apply HL; eauto). congruence. }
  pose proof (round_runs ps hex Hhex Hsm N g pec n L Hok HL Hn fuel Hf bk (dom g) (dom g) x Hrd h HR) as Hr.
  pose proof (witness_runs ps hex Hhex Hsm N g pec n L Hok HL Hn fuel Hf bk (dom g) (dom g) x Hrd h HR) as Hw.
  exists r, w. split; [done|]. rewrite HLx in Hr, Hw.
  destruct (round fuel x h) as [[r'| | |] h1]; [|done..].
  destruct (witness fuel x h) as [[w'| | |] h2]; [|done..]. simpl in *.
  split; [destruct Hr; congruence|]. split; [destruct Hw; congruence|].
  destruct HR as [_ (_ & _ & _ & (_ & H2 & _) & _)]. apply H2; [|done]. apply elem_of_dom. eauto.
Qed.
End settled.

(** The store has [x] among the received events of round [i], or holds [x]
    with round received [i]. *)
Definition received_at h (x : string) (i : Z) : Prop :=
  (∃ ri, v_rounds (hv h) !! i = Some ri ∧ x ∈ ReceivedEvents ri) ∨
  (∃ ex, v_events (hv h) !! x = Some ex ∧ ev_roundReceived ex = Some i).
Lemma received_at_received ps hex bk N g pec n L x i h :
  Rst ps hex bk N g pec n L all (dom g) (dom g) h → received_at h x i → received ps g L x i.
Proof.
  intros [_ (_ & _ & Hev & (_ & _ & _ & _ & _ & H6) & _)] [(ri & Hri & Hx)|(ex & Hex & Hi)].
  - by apply (H6 i ri).
  - destruct (Hev x ex Hex) as (_ & _ & Hrr). auto.
Qed.
End run.

(** ** The callback of the core

    [core.commit] leaves the hashgraph alone, in the sense of the theorems
    below, when the application accepts no change of the peers. *)
Section core_callback.
Context {KP : Keys} {CP : Codec} {RO : RangeOrder}.
Context {St : Type} {STO : Store St} {LAW : StoreLaws St}.
Context {P : Type} (app : Block → GoM error P CommitResponse).

Definition accepts_none : Prop :=
  ∀ b p r p', app b p = (Ok r, p') → Forall (λ x, itr_Accepted x = false) (cr_Receipts r).
Definition undisturbed (h h' : Hashgraph St) : Prop := st_ok (hg_Store h) → Recorded.quiet h h'.
#[local] Instance undisturbed_preorder : PreOrder undisturbed.
Proof.
  split; [intros h Hs; by repeat split|]. intros h1 h2 h3 H12 H23 Hs. specialize (H12 Hs).
  unfold Recorded.quiet in *. destruct H12 as (Hs2 & H12). specialize (H23 Hs2) as (Hs3 & H23).
  split; [done|]. repeat match goal with H : _ ∧ _ |- _ => destruct H end. split_and!; congruence.
Qed.
Lemma undisturbed_store {A} (m : GoM error St A) :
  (∀ s, st_ok s → st_ok (m s).2 ∧ ∃ bls last,
     store_view (m s).2 = with_lastBlock last (with_blocks bls (store_view s))) →
  respects undisturbed (onStore m).
Proof.
  intros Hm h Hs. destruct (Hm (hg_Store h) Hs) as (Hs' & bls & last & Hv).
  unfold onStore, zoom. destruct (m (hg_Store h)) as [r st]. simpl in *.
  unfold Recorded.quiet, hv. simpl. rewrite Hv. by split_and!.
Qed.
Lemma undisturbed_SetBlock b : respects undisturbed (onStore (SetBlock b)).
Proof. apply undisturbed_store. intros s Hs. destruct (SetBlock_law b s Hs) as (_ & Hs' & bls & _ & Hv). eauto. Qed.
Lemma undisturbed_mutBlock i f : respects (E:=error) undisturbed (modify (λ h, set_Store (mutBlock i f (hg_Store h)) h)).
Proof.
  intros h Hs. destruct (mutBlock_law i f (hg_Store h) Hs) as (Hs' & Hv).
  unfold Recorded.quiet, hv. simpl. rewrite Hv. by split_and!.
Qed.
Lemma undisturbed_SetAnchorBlock b : respects undisturbed (SetAnchorBlock b).
Proof. unfold SetAnchorBlock, setAnchorBlock. respects_go; intros h Hs; by split_and!. Qed.
Lemma undisturbed_processAccepted rr l : Forall (λ x, itr_Accepted x = false) l →
  respects (on_h (P:=P) undisturbed) (processAcceptedInternalTransactions rr l).
Proof.
  intros Hl s. unfold processAcceptedInternalTransactions.
  assert (∀ st s, foldM (process_receipt (St:=St) (P:=P) (rr + 6)) st l s = (Ok st, s)) as Hfold.
  { clear s. induction Hl as [|x l Hx _ IH]; intros [[v cp] ch] s; [done|]. cbn [foldM].
    rewrite (bind_Ok_l _ _ s (v, cp, ch) s); [apply IH|]. unfold process_receipt. by rewrite Hx. }
  unfold bind at 1, getsC, gets. cbv zeta. rewrite (bind_Ok_l _ _ _ _ _ (Hfold _ _)).
  cbv iota. revert s. change (respects (on_h (P:=P) undisturbed)
    (ret tt ;;; forM l (answer_promise (St:=St) (P:=P) (rr + 6)))).
  unfold answer_promise.
  respects_go; try apply on_h_getsC; try apply on_h_modifyC; try apply _;
    unfold respond; respects_go; try apply on_h_getsC; try apply on_h_modifyC; apply _.
Qed.
(** The theorems on replicas hold of the hashgraph that a node runs, with
    [core.commit] as the callback, as long as the application accepts no
    join and no leave. *)
Lemma commit_quiet : accepts_none → cb_quiet (commit (St:=St) app).
Proof.
  intros Hno b s Hs. revert Hs. change (on_h (P:=P) undisturbed s (commit app b s).2).
  unfold commit, bind at 1, onApp, zoom.
  destruct (app b s.2.2) as [[r|e| |] p'] eqn:Happ; [|by intros Hs; split_and!..].
  specialize (Hno _ _ _ _ Happ). clear Happ.
  etrans; [|match goal with |- on_h _ _ (?m ?s0).2 => enough (respects (on_h (P:=P) undisturbed) m) as Hm;
    [exact (Hm s0)|] end]; [intros Hs; by split_and!|].
  unfold signBlock, mutateBlock.
  respects_go; first [by apply undisturbed_processAccepted|apply on_h_onH|apply on_h_getsC|apply on_h_modifyC];
    try apply _; auto using undisturbed_mutBlock, undisturbed_SetBlock, undisturbed_SetAnchorBlock.
  all: intros h Hs; by split_and!.
Qed.
End core_callback.

(** ** Agreement

    The runs of the theorems ([run_step], [replica]): a replica starts empty
    with a peer-set that stays the same, and is offered events that it does not
    know yet, each with an index one above that of its self-parent, while its
    event cache has room. The code does not check the index: an event with
    another one can be accepted, and then replicas can differ, as
    [misindexed_forks_diverge] of ReplicaExamples shows. The two replicas may
    range over maps in different orders. *)
Section agreement.
Context {KP : Keys} {CP : Codec} {RO1 RO2 : RangeOrder}.
Context {St1 : Type} {STO1 : Store St1} {LAW1 : StoreLaws St1}.
Context {St2 : Type} {STO2 : Store St2} {LAW2 : StoreLaws St2}.

(** C7: agreement on rounds. Two replicas start empty, each on a store that
    keeps the contract [StoreLaws] (the in-memory store does), with the same
    peer-set of at least two validators, which does not change; their commit
    callbacks leave the hashgraph alone (as [core.commit] does when the
    application accepts no join and no leave, [commit_quiet]). Each is offered
    its own events in its own order, with failures and queries in between. Of
    every event offered it is assumed that it is new to the replica and has
    no round yet, that its index is one above its self-parent's (if the replica has that)
    and not negative, and that the event cache has room; the code does not
    check the index. Then an event that both hold has the same round in both
    and is a witness in both or in neither, as [round] and [witness] answer
    (they do answer, with fuel above the topological index) and as recorded in
    the rounds of both stores. Assumed of the hash: the two graphs do not hold
    different events under one hash. *)
Theorem replicas_agree_on_rounds {X1 X2}
    (cb1 : Block → GoM error (Hashgraph St1 * X1) unit)
    (cb2 : Block → GoM error (Hashgraph St2 * X2) unit) ps hex hx1 hx2 :
  PS_Hex ps = Ok hex → 2 ≤ SuperMajority ps → cb_quiet cb1 → cb_quiet cb2 →
  replica (RO:=RO1) cb1 ps hx1 → replica (RO:=RO2) cb2 ps hx2 → same_events (graph hx1.1) (graph hx2.1) →
  ∀ fuel1 fuel2 x, topologicalIndex hx1.1 < Z.of_nat fuel1 → topologicalIndex hx2.1 < Z.of_nat fuel2 →
  is_Some (graph hx1.1 !! x) → is_Some (graph hx2.1 !! x) →
  ∃ r w, (round (RO:=RO1) fuel1 x hx1.1).1 = Ok r ∧ (round (RO:=RO2) fuel2 x hx2.1).1 = Ok r ∧
    (witness (RO:=RO1) fuel1 x hx1.1).1 = Ok w ∧ (witness (RO:=RO2) fuel2 x hx2.1).1 = Ok w ∧
    (∃ ri re, v_rounds (hv hx1.1) !! r = Some ri ∧ CreatedEvents ri !! x = Some re ∧ re_Witness re = w) ∧
    (∃ ri re, v_rounds (hv hx2.1) !! r = Some ri ∧ CreatedEvents ri !! x = Some re ∧ re_Witness re = w).
Proof.
  intros Hhex Hsm Hcb1 Hcb2 Hrun1 Hrun2 Hsame fuel1 fuel2 x Hf1 Hf2 Hx1 Hx2.
  destruct (replica_settled (RO:=RO1) cb1 ps hex Hhex Hsm hx1 Hcb1 Hrun1) as (L1 & k1 & (_ & Hn1 & Hok1 & _) & HL1 & _ & bk1 & HR1 & _).
  destruct (replica_settled (RO:=RO2) cb2 ps hex Hhex Hsm hx2 Hcb2 Hrun2) as (L2 & k2 & (_ & Hn2 & Hok2 & _) & HL2 & _ & bk2 & HR2 & _).
  pose proof (ledgers_agree ps _ _ _ L1 _ _ _ L2 Hok1 Hok2 Hsame HL1 HL2 x Hx1 Hx2) as Hagree.
  destruct (settled_answers (RO:=RO1) ps hex Hhex Hsm fuel1 hx1.1 L1 _ _ _ _ _ x Hok1 Hn1 HL1 HR1 Hf1 Hx1)
    as (r & w & HLx1 & ? & ? & ?).
  destruct (settled_answers (RO:=RO2) ps hex Hhex Hsm fuel2 hx2.1 L2 _ _ _ _ _ x Hok2 Hn2 HL2 HR2 Hf2 Hx2)
    as (r2 & w2 & HLx2 & ? & ? & ?).
  assert (r2 = r) as -> by congruence. assert (w2 = w) as -> by congruence.
  exists r, w. done.
Qed.

(** C5: agreement on fame with Byzantine validators. Two replicas run under the
    conditions of [replicas_agree_on_rounds]: a constant peer-set of at least
    two validators, stores that keep [StoreLaws], quiet callbacks, events that
    are new, carry the index after their self-parent's and fit in the cache,
    and no two events under one hash. They hold different parts of the
    network's events, received in different orders, and fewer than a third
    of the validators equivocated (showed the two of them different events
    with the same self-parent). If both have recorded a decision on the fame
    of an event, they recorded it in the same round and with the same value. *)
Theorem replicas_agree_on_fame {X1 X2}
    (cb1 : Block → GoM error (Hashgraph St1 * X1) unit)
    (cb2 : Block → GoM error (Hashgraph St2 * X2) unit) ps hex hx1 hx2 :
  PS_Hex ps = Ok hex → 2 ≤ SuperMajority ps → cb_quiet cb1 → cb_quiet cb2 →
  replica (RO:=RO1) cb1 ps hx1 → replica (RO:=RO2) cb2 ps hx2 → same_events (graph hx1.1) (graph hx2.1) →
  few_forks ps (graph hx1.1) (graph hx2.1) →
  ∀ r1 r2 ri1 ri2 x re1 re2,
    v_rounds (hv hx1.1) !! r1 = Some ri1 → CreatedEvents ri1 !! x = Some re1 →
    v_rounds (hv hx2.1) !! r2 = Some ri2 → CreatedEvents ri2 !! x = Some re2 →
    re_Famous re1 ≠ Undefined → re_Famous re2 ≠ Undefined →
    r1 = r2 ∧ re_Famous re1 = re_Famous re2.
Proof.
  intros Hhex Hsm Hcb1 Hcb2 Hrun1 Hrun2 Hsame Hforks r1 r2 ri1 ri2 x re1 re2 Hr1 Hx1 Hr2 Hx2 Hf1 Hf2.
  destruct (replica_settled (RO:=RO1) cb1 ps hex Hhex Hsm hx1 Hcb1 Hrun1) as (L1 & k1 & (_ & Hn1 & Hok1 & _) & HL1 & _ & bk1 & HR1 & _).
  destruct (replica_settled (RO:=RO2) cb2 ps hex Hhex Hsm hx2 Hcb2 Hrun2) as (L2 & k2 & (_ & Hn2 & Hok2 & _) & HL2 & _ & bk2 & HR2 & _).
  destruct HR1 as [_ (_ & _ & _ & (HA1 & _ & _ & HF1 & _) & _)], HR2 as [_ (_ & _ & _ & (HA2 & _ & _ & HF2 & _) & _)].
  destruct (HA1 r1 ri1 x re1 Hr1 Hx1) as [Hd1%elem_of_dom HLx1].
  destruct (HA2 r2 ri2 x re2 Hr2 Hx2) as [Hd2%elem_of_dom HLx2].
  pose proof (ledgers_agree ps _ _ _ L1 _ _ _ L2 Hok1 Hok2 Hsame HL1 HL2 x Hd1 Hd2) as Hagree.
  assert (r2 = r1) as -> by congruence. split; [done|].
  assert (∀ v1 v2, decided ps (graph hx1.1) L1 r1 x v1 → decided ps (graph hx2.1) L2 r1 x v2 → v1 = v2) as Hv.
  { intros v1 v2. apply (fames_agree ps _ _ _ L1 _ _ _ L2 r1 x v1 v2 Hok1 HL1 Hok2 HL2 Hsame Hforks Hd1 Hd2).
    exact (proj1 (proj2 HL1) x _ _ HLx1). }
  specialize (HF1 r1 ri1 x re1 Hr1 Hx1). specialize (HF2 r1 ri2 x re2 Hr2 Hx2). unfold fame_ok in HF1, HF2.
  destruct (re_Famous re1), (re_Famous re2); try done; by specialize (Hv _ _ HF1 HF2).
Qed.

(** C6: agreement on the round received, and so on the round whose block an
    event enters. Two replicas run under the
    conditions of [replicas_agree_on_rounds]: a constant peer-set of at least
    two validators, stores that keep [StoreLaws], quiet callbacks, events that
    are new, carry the index after their self-parent's and fit in the cache,
    and no two events under one hash. They hold different parts of the
    network's events, received in different orders, and fewer than a third
    of the validators equivocated. If both have received an event, they
    received it in the same round, as the received events of the rounds and
    the events themselves have it, in either store. *)
Theorem replicas_agree_on_round_received {X1 X2}
    (cb1 : Block → GoM error (Hashgraph St1 * X1) unit)
    (cb2 : Block → GoM error (Hashgraph St2 * X2) unit) ps hex hx1 hx2 :
  PS_Hex ps = Ok hex → 2 ≤ SuperMajority ps → cb_quiet cb1 → cb_quiet cb2 →
  replica (RO:=RO1) cb1 ps hx1 → replica (RO:=RO2) cb2 ps hx2 → same_events (graph hx1.1) (graph hx2.1) →
  few_forks ps (graph hx1.1) (graph hx2.1) →
  ∀ x i1 i2, received_at hx1.1 x i1 → received_at hx2.1 x i2 → i1 = i2.
Proof.
  intros Hhex Hsm Hcb1 Hcb2 Hrun1 Hrun2 Hsame Hforks x i1 i2 H1 H2.
  destruct (replica_settled (RO:=RO1) cb1 ps hex Hhex Hsm hx1 Hcb1 Hrun1) as (L1 & k1 & (_ & _ & Hok1 & _) & HL1 & _ & bk1 & HR1 & _).
  destruct (replica_settled (RO:=RO2) cb2 ps hex Hhex Hsm hx2 Hcb2 Hrun2) as (L2 & k2 & (_ & _ & Hok2 & _) & HL2 & _ & bk2 & HR2 & _).
  apply (received_agree ps Hsm _ _ _ L1 _ _ _ L2 x i1 i2 Hok1 HL1 Hok2 HL2 Hsame Hforks).
  - exact (received_at_received ps hex _ _ _ _ _ _ x _ _ HR1 H1).
  - exact (received_at_received ps hex _ _ _ _ _ _ x _ _ HR2 H2).
Qed.
End agreement.

(** ** Where the peer-set changes *)
(** The same peer-set is needed. [DecideFame] counts the votes of the
    witnesses of round j-1, which that round's peer-set admits, against the
    super-majority of round j's peer-set. Here seven participants vote in
    round j-1, of whom round j keeps four: two witnesses of round j that
    each collect the votes of five of the seven settle on opposite values. *)
Example fame_conflict_on_peer_change :
  let ps7 := toy_peers [1; 2; 3; 4; 5; 6; 7] in
  let ps := toy_peers [1; 2; 3; 4] in
  let ws := ["1"; "2"; "3"; "4"; "5"; "6"; "7"] in
  let l1 := ["1"; "2"; "3"; "4"; "5"] in
  let l2 := ["3"; "4"; "5"; "6"; "7"] in
  let votes := setVote (setVote (setVote ∅ "1" "x" true) "2" "x" true) "3" "x" true in
  zlen ws = PS_Len ps7 ∧ SuperMajority ps7 = zlen l1 ∧ SuperMajority ps7 = zlen l2 ∧
  SuperMajority ps ≤ tally (count_votes votes "x" l1) ∧
  SuperMajority ps ≤ tally (count_votes votes "x" l2) ∧
  majority (count_votes votes "x" l1) = true ∧ majority (count_votes votes "x" l2) = false.
Proof. vm_compute. repeat split; discriminate. Qed.
