(* ===== verification/SameBlocks.v ===== *)
(** * Replicas commit the same blocks

    The blocks that a replica hands to its commit callback, over a whole run,
    are those of the frames of the rounds 0, 1, ..., in that order, without a
    gap and without a repetition. Frames of one round agree between replicas
    (file Content), so the blocks of two replicas agree as far as both have
    come. *)
From S2P Require Export Agreement.

Section log.
Context {KP : Keys} {CP : Codec} {RO : RangeOrder}.
Context {St : Type} {STO : Store St} {LAW : StoreLaws St}.
Context {X : Type} (cb : Block → GoM error (Hashgraph St * X) unit).

(** Steps as in [run_step] of which the insertions return, with a value or an
    error: after a panic the process is gone. *)
Inductive live_step {Y} (f : Block → GoM error (Hashgraph St * Y) unit) (ps : PeerSet) :
    Hashgraph St * Y → Hashgraph St * Y → Prop :=
| live_insert fuel e w hx :
    insertable hx.1 e → ev_round e = None → ev_roundReceived e = None →
    topologicalIndex hx.1 + 2 < Z.of_nat fuel →
    (InsertEventAndRunConsensus fuel f e w hx).1 ≠ Panic →
    (InsertEventAndRunConsensus fuel f e w hx).1 ≠ OutOfFuel →
    live_step f ps hx (InsertEventAndRunConsensus fuel f e w hx).2
| live_query hx h' : query ps hx.1 h' → live_step f ps hx (h', hx.2).

(** Since the start with the peers [ps], [cb] was called with the blocks [log]. *)
Definition committing (ps : PeerSet) (h : Hashgraph St) (log : list Block) : Prop :=
  ∃ s x0 x, new_store s ∧
    rtc (live_step (logged cb) ps) ((Init ps (NewHashgraph s)).2, (x0, [])) (h, (x, log)).

(** The same, and the last step was an insertion that succeeded. *)
Definition up_to_date (ps : PeerSet) (h : Hashgraph St) (log : list Block) : Prop :=
  ∃ s x0 hx0 fuel e w e' x, new_store s ∧
    rtc (live_step (logged cb) ps) ((Init ps (NewHashgraph s)).2, (x0, [])) hx0 ∧
    insertable hx0.1 e ∧ ev_round e = None ∧ ev_roundReceived e = None ∧
    topologicalIndex hx0.1 + 2 < Z.of_nat fuel ∧
    InsertEventAndRunConsensus fuel (logged cb) e w hx0 = (Ok e', (h, (x, log))).

Lemma quiet_logged : cb_quiet cb → cb_quiet (logged cb).
Proof. intros Hcb b [h [x log]] Hs. rewrite logged_run. by apply (Hcb b (h, x)). Qed.

Section run.
Context (ps : PeerSet) (hex : string) (Hhex : PS_Hex ps = Ok hex) (Hsm : 2 ≤ SuperMajority ps).
Context (Hcb : cb_quiet cb).

Lemma told_app g L k fs fs' log new : told ps g L k fs log → told ps g L (k + zlen fs) fs' new →
  told ps g L k (fs ++ fs') (log ++ new).
Proof.
  intros [Hb Hf] [Hb' Hf']. split; [by rewrite fmap_app, omap_app, Hb, Hb'|].
  intros r f [Hr|[Hr Hf2]]%lookup_app_Some; [by apply Hf|].
  apply Hf' in Hf2. unfold zlen in Hf2. by replace (k + Z.of_nat r) with
    (k + Z.of_nat (length fs) + Z.of_nat (r - length fs)) by lia.
Qed.

(** The rounds below [zlen fs] are processed, and [fs] are their frames. *)
Definition logs (P : gmap string Event → gmap string (Z * bool) → Z → Prop)
    (hx : Hashgraph St * (X * list Block)) : Prop :=
  ∃ L fs, P (graph hx.1) L (zlen fs) ∧ settled_at ps hex L (zlen fs) hx.1 ∧
    told ps (graph hx.1) L 0 fs hx.2.2.

Lemma advances_logs P h0 log0 s L fs :
  settled_at ps hex L (zlen fs) h0 → told ps (graph h0) L 0 fs log0 →
  advances ps hex (λ y new, y.2 = log0 ++ new) (zlen fs) h0 P s → logs P s.
Proof.
  intros (Hinv & HL & _) Ht (Hsub & L' & fs' & new & HP & Hs' & Heq & Ht').
  pose proof Hs' as (Hinv' & HL' & _). destruct Hinv as (_ & _ & Hok & _), Hinv' as (_ & _ & Hok' & _).
  assert (zlen (fs ++ fs') = zlen fs + zlen fs') as Hlen by (unfold zlen; rewrite length_app; lia).
  exists L', (fs ++ fs'). rewrite Hlen. split; [done|]. split; [done|].
  rewrite Heq. apply told_app; [|done].
  exact (told_grown ps Hsm _ _ _ L Hok HL _ _ _ L' Hok' HL' Hsub 0 fs log0 Ht).
Qed.
Lemma insert_logs fuel e w hx : insertable hx.1 e → ev_round e = None → ev_roundReceived e = None →
  topologicalIndex hx.1 + 2 < Z.of_nat fuel → logs anywhere hx →
  match InsertEventAndRunConsensus fuel (logged cb) e w hx with
  | (Ok _, hx') => logs (waits ps) hx'
  | (Err _, hx') => logs anywhere hx'
  | _ => True
  end.
Proof.
  intros Hi Hround Hrr Hf (L & fs & _ & Hs & Ht).
  pose proof (insert_outcome (logged cb) ps hex Hhex Hsm (T := λ y new, y.2 = hx.2.2 ++ new)
    L (zlen fs) fuel e w hx (quiet_logged Hcb)) as Hout. cbv zeta in Hout.
  assert (outcome ps hex hx.1 (zlen fs) (λ y new, y.2 = hx.2.2 ++ new)
    (InsertEventAndRunConsensus fuel (logged cb) e w hx).1
    (InsertEventAndRunConsensus fuel (logged cb) e w hx).2) as Hout'.
  { apply Hout; try done; [|by rewrite app_nil_r].
    intros b [h1 [x1 l1]] new. simpl. intros ->. rewrite logged_run. simpl. by rewrite app_assoc. }
  unfold outcome in Hout'.
  destruct (InsertEventAndRunConsensus fuel (logged cb) e w hx) as [[a|err| |] s]; simpl in Hout'; [..|done|done];
    exact (advances_logs _ hx.1 hx.2.2 s L fs Hs Ht Hout').
Qed.
Lemma logs_anywhere P hx : logs P hx → logs anywhere hx.
Proof. intros (L & fs & _ & H). by exists L, fs. Qed.
Lemma live_step_logs hx hx' : live_step (logged cb) ps hx hx' → logs anywhere hx → logs anywhere hx'.
Proof.
  intros Hstep Hl. destruct Hstep as [fuel e w hx Hi Hround Hrr Hf Hp Ho|hx h' Hq].
  - pose proof (insert_logs fuel e w hx Hi Hround Hrr Hf Hl) as Hout.
    destruct (InsertEventAndRunConsensus fuel (logged cb) e w hx) as [[a|err| |] s]; simpl in *; try done.
    by eapply logs_anywhere.
  - destruct Hl as (L & fs & _ & Hs & Ht).
    destruct (query_settled ps hex Hhex Hsm L (zlen fs) hx.1 h' Hq Hs) as [Hs' Hg].
    exists L, fs. split; [done|]. split; [done|]. simpl. by rewrite Hg.
Qed.
Lemma live_logs s x0 hx : new_store s →
  rtc (live_step (logged cb) ps) ((Init ps (NewHashgraph s)).2, (x0, [])) hx → logs anywhere hx.
Proof.
  intros Hs Hrun.
  assert (logs anywhere ((Init ps (NewHashgraph s)).2, (x0, []))) as Hinit.
  { exists ∅, []. split; [done|]. split; [by apply Init_settled|]. by split. }
  induction Hrun as [|hx1 hx2 hx3 H12 _ IH]; [done|]. by apply IH, (live_step_logs hx1).
Qed.
Lemma committing_logs h log : committing ps h log → ∃ L fs,
  settled_at ps hex L (zlen fs) h ∧ told ps (graph h) L 0 fs log.
Proof.
  intros (s & x0 & x & Hs & Hrun). destruct (live_logs s x0 _ Hs Hrun) as (L & fs & _ & ?). by exists L, fs.
Qed.
Lemma up_to_date_logs h log : up_to_date ps h log → ∃ L fs,
  waits ps (graph h) L (zlen fs) ∧ settled_at ps hex L (zlen fs) h ∧ told ps (graph h) L 0 fs log.
Proof.
  intros (s & x0 & hx0 & fuel & e & w & e' & x & Hs & Hrun & Hi & Hround & Hrr & Hf & Hins).
  pose proof (insert_logs fuel e w hx0 Hi Hround Hrr Hf (live_logs s x0 hx0 Hs Hrun)) as Hout.
  by rewrite Hins in Hout.
Qed.
End run.
End log.

Section commits.
Context {KP : Keys} {CP : Codec} {RO1 RO2 : RangeOrder}.
Context {St1 : Type} {STO1 : Store St1} {LAW1 : StoreLaws St1}.
Context {St2 : Type} {STO2 : Store St2} {LAW2 : StoreLaws St2}.

Lemma fmap_omap_prefix {A B} (F : A → option B) (l1 l2 : list A) :
  (∀ k a1 a2, l1 !! k = Some a1 → l2 !! k = Some a2 → F a1 = F a2) →
  omap F l1 `prefix_of` omap F l2 ∨ omap F l2 `prefix_of` omap F l1.
Proof.
  revert l2. induction l1 as [|a1 l1 IH]; intros l2 HF; [left; apply prefix_nil|].
  destruct l2 as [|a2 l2]; [right; apply prefix_nil|]. simpl.
  rewrite (HF O a1 a2 eq_refl eq_refl).
  destruct (IH l2) as [Hp|Hp]; [intros k ? ?; apply (HF (S k))|left|right];
    destruct (F a2); by try apply prefix_cons.
Qed.

Lemma omap_pointwise {A B} (F : A → option B) (l1 l2 : list A) : length l1 = length l2 →
  (∀ k a1 a2, l1 !! k = Some a1 → l2 !! k = Some a2 → F a1 = F a2) → omap F l1 = omap F l2.
Proof.
  revert l2. induction l1 as [|a1 l1 IH]; intros [|a2 l2] Hlen HF; [done..|]. csimpl.
  rewrite (HF O a1 a2 eq_refl eq_refl), (IH l2); [done|by injection Hlen|intros k ? ?; apply (HF (S k))].
Qed.
Lemma bodies_agree ps : 2 ≤ SuperMajority ps →
  ∀ g1 pec1 n1 L1 (Hok1 : dag_ok g1 pec1 n1) (HL1 : ledger ps g1 L1)
    g2 pec2 n2 L2 (Hok2 : dag_ok g2 pec2 n2) (HL2 : ledger ps g2 L2),
  same_events g1 g2 → few_forks ps g1 g2 → same_signatures g1 g2 → distinct_signatures g1 →
  ∀ i f1 f2, frame_ok ps g1 L1 i f1 → frame_ok ps g2 L2 i f2 → frame_body f1 = frame_body f2.
Proof.
  intros Hsm g1 pec1 n1 L1 Hok1 HL1 g2 pec2 n2 L2 Hok2 HL2 Hsame Hforks Hsig Hdist i f1 f2 Hk1 Hk2.
  destruct (frames_agree ps Hsm _ _ _ L1 Hok1 HL1 _ _ _ L2 Hok2 HL2 Hsame Hforks Hsig Hdist _ f1 f2 Hk1 Hk2)
    as (_ & Htx & Hitx & Hts).
  destruct Hk1 as (_ & _ & Hr1 & Hp1 & _), Hk2 as (_ & _ & Hr2 & Hp2 & _).
  unfold frame_body. by rewrite Htx, Hitx, Hts, Hr1, Hr2, Hp1, Hp2.
Qed.

(** C2: consensus. Two replicas start empty, on stores that keep [StoreLaws]
    (the in-memory store does), with one peer-set of at least two validators,
    which stays the same, and commit callbacks that leave the hashgraph alone
    (as [core.commit] does when the application accepts no join or leave,
    [commit_quiet]). They are offered different parts of the network's events
    in different orders, with queries and failing (not panicking)
    insertions in between. Assumed of every event offered: it is new to the replica
    and has no round yet, its index is one above its self-parent's (the code
    does not check it), and the event cache has room. Fewer than a third of
    the validators equivocated; a hash has one event and one signature, and
    different events have different signature numbers, which break ties. Then
    the blocks one has committed are a prefix of the other's: the same rounds
    received, transactions and internal transactions in order, timestamp and
    hash of the peer-set (not of the frame). *)
Theorem replicas_commit_same_blocks {X1 X2}
    (cb1 : Block → GoM error (Hashgraph St1 * X1) unit)
    (cb2 : Block → GoM error (Hashgraph St2 * X2) unit) ps hex h1 h2 log1 log2 :
  PS_Hex ps = Ok hex → 2 ≤ SuperMajority ps → cb_quiet cb1 → cb_quiet cb2 →
  committing (RO:=RO1) cb1 ps h1 log1 → committing (RO:=RO2) cb2 ps h2 log2 →
  same_events (graph h1) (graph h2) → few_forks ps (graph h1) (graph h2) →
  same_signatures (graph h1) (graph h2) → distinct_signatures (graph h1) →
  (block_body <$> log1) `prefix_of` (block_body <$> log2) ∨
  (block_body <$> log2) `prefix_of` (block_body <$> log1).
Proof.
  intros Hhex Hsm Hcb1 Hcb2 Hrun1 Hrun2 Hsame Hforks Hsig Hdist.
  destruct (committing_logs (RO:=RO1) cb1 ps hex Hhex Hsm Hcb1 h1 log1 Hrun1)
    as (L1 & fs1 & ((_ & _ & Hok1 & _) & HL1 & _) & Hb1 & Hf1).
  destruct (committing_logs (RO:=RO2) cb2 ps hex Hhex Hsm Hcb2 h2 log2 Hrun2)
    as (L2 & fs2 & ((_ & _ & Hok2 & _) & HL2 & _) & Hb2 & Hf2).
  rewrite Hb1, Hb2. apply fmap_omap_prefix. intros k f1 f2 Hk1%Hf1 Hk2%Hf2.
  exact (bodies_agree ps Hsm _ _ _ L1 Hok1 HL1 _ _ _ L2 Hok2 HL2 Hsame Hforks Hsig Hdist _ f1 f2 Hk1 Hk2).
Qed.

(** C3: convergence. Two replicas run under the conditions of
    [replicas_commit_same_blocks] (a constant peer-set of at least two
    validators, stores that keep [StoreLaws], quiet callbacks, events that are
    new, carry the index after their self-parent's and fit in the cache, one
    event and one signature under a hash, signatures that tell events apart).
    If the last step of each was an insertion that succeeded, and they hold
    the same events, received in different orders, then they have committed
    the same blocks, and as many, in the sense of [block_body]. No bound on
    the equivocation is needed: the events are the same. *)
Theorem replicas_converge {X1 X2}
    (cb1 : Block → GoM error (Hashgraph St1 * X1) unit)
    (cb2 : Block → GoM error (Hashgraph St2 * X2) unit) ps hex h1 h2 log1 log2 :
  PS_Hex ps = Ok hex → 2 ≤ SuperMajority ps → cb_quiet cb1 → cb_quiet cb2 →
  up_to_date (RO:=RO1) cb1 ps h1 log1 → up_to_date (RO:=RO2) cb2 ps h2 log2 →
  dom (graph h1) = dom (graph h2) → same_events (graph h1) (graph h2) →
  same_signatures (graph h1) (graph h2) → distinct_signatures (graph h1) →
  block_body <$> log1 = block_body <$> log2.
Proof.
  intros Hhex Hsm Hcb1 Hcb2 Hrun1 Hrun2 Hdom Hsame Hsig Hdist.
  destruct (up_to_date_logs (RO:=RO1) cb1 ps hex Hhex Hsm Hcb1 h1 log1 Hrun1)
    as (L1 & fs1 & Hw1 & ((_ & _ & Hok1 & _) & HL1 & _) & Hb1 & Hf1).
  destruct (up_to_date_logs (RO:=RO2) cb2 ps hex Hhex Hsm Hcb2 h2 log2 Hrun2)
    as (L2 & fs2 & Hw2 & ((_ & _ & Hok2 & _) & HL2 & _) & Hb2 & Hf2).
  assert (dom (graph h1) ⊆ dom (graph h2)) as Hsub by (by rewrite Hdom).
  assert (dom (graph h2) ⊆ dom (graph h1)) as Hsub' by (by rewrite Hdom).
  pose proof (grow_forks ps Hsm _ _ _ _ Hok2 Hsame Hsub) as Hforks.
  assert (∀ k f1 f2, fs1 !! k = Some f1 → fs2 !! k = Some f2 → frame_body f1 = frame_body f2) as Hbodies.
  { intros k f1 f2 Hk1%Hf1 Hk2%Hf2.
    exact (bodies_agree ps Hsm _ _ _ L1 Hok1 HL1 _ _ _ L2 Hok2 HL2 Hsame Hforks Hsig Hdist _ f1 f2 Hk1 Hk2). }
  assert (length fs1 = length fs2) as Hlen.
  { apply Nat.le_antisymm; apply Nat.nlt_ge; intros Hlt.
    - destruct (lookup_lt_is_Some_2 fs1 (length fs2) Hlt) as [f Hf]. destruct (Hf1 _ f Hf) as [Hs _].
      apply Hw2, (grow_settled ps Hsm _ _ _ L1 Hok1 HL1 _ _ _ L2 Hok2 HL2 Hsame Hsub), Hs. unfold zlen. lia.
    - destruct (lookup_lt_is_Some_2 fs2 (length fs1) Hlt) as [f Hf]. destruct (Hf2 _ f Hf) as [Hs _].
      apply Hw1, (grow_settled ps Hsm _ _ _ L2 Hok2 HL2 _ _ _ L1 Hok1 HL1 (same_events_sym _ _ Hsame) Hsub'), Hs.
      unfold zlen. lia. }
  rewrite Hb1, Hb2. by apply omap_pointwise.
Qed.

(** C4: progress. A replica starts empty on a store that keeps [StoreLaws],
    with a peer-set of at least two validators that does not change and a
    commit callback that leaves the hashgraph alone, and is offered events
    that are new to it, carry the index after their self-parent's and fit in
    the cache, with queries and failed insertions in between. When its last
    step was an insertion that succeeded, nothing that its graph has settled
    is held back: an event that the graph receives in a round [i], the rounds
    up to [i] being settled in the graph, has been committed: its
    transactions, if it has any, are in a block of round received [i] that
    was handed to the callback. *)
Theorem received_is_committed {X1} (cb1 : Block → GoM error (Hashgraph St1 * X1) unit) ps hex h log L x e i :
  PS_Hex ps = Ok hex → 2 ≤ SuperMajority ps → cb_quiet cb1 → up_to_date (RO:=RO1) cb1 ps h log →
  ledger ps (graph h) L → graph h !! x = Some e → received ps (graph h) L x i →
  (∀ j, 0 ≤ j ≤ i → round_settled ps (graph h) L j) → Transactions e ≠ [] →
  ∃ b, b ∈ log ∧ Block_RoundReceived b = i ∧ Transactions e ⊆ Block_Transactions b.
Proof.
  intros Hhex Hsm Hcb Hrun HL0 Hx Hrec Hset Htx.
  destruct (up_to_date_logs (RO:=RO1) cb1 ps hex Hhex Hsm Hcb h log Hrun)
    as (L1 & fs & Hw & ((_ & _ & Hok & _) & HL & _) & Hb & Hf).
  assert (same_events (graph h) (graph h)) as Hsame by (intros ? ? ?; congruence).
  assert (L1 = L) as ->.
  { apply map_eq. intros y. destruct (graph h !! y) eqn:Hy.
    - by apply (ledgers_agree ps _ _ _ L1 _ _ _ L Hok Hok Hsame HL HL0).
    - assert (∀ L', ledger ps (graph h) L' → L' !! y = None) as Hn; [|by rewrite !Hn].
      intros L' [HL' _]. apply eq_None_not_Some. intros [? ?]%HL'. congruence. }
  assert (0 ≤ i) as Hi.
  { destruct Hrec as (r & w & HLx & Hlt & _). pose proof (proj1 (proj2 HL) x r w HLx). lia. }
  assert (Z.to_nat i < length fs)%nat as Hlt.
  { apply Nat.nle_gt. intros Hle. apply Hw, Hset. unfold zlen. lia. }
  destruct (lookup_lt_is_Some_2 fs _ Hlt) as [f Hlf].
  destruct (Hf _ f Hlf) as (_ & _ & Hround & _ & (_ & _ & Hok' & Hevs) & _).
  rewrite Z2Nat.id in Hround, Hevs by done. simpl in Hevs.
  apply Hevs, list_elem_of_fmap in Hrec as (fe & -> & Hfe).
  rewrite Forall_forall in Hok'. destruct (Hok' fe Hfe) as [Hg _].
  assert (Transactions e = Transactions (fe_Core fe)) as He.
  { rewrite Hx in Hg. injection Hg as ->. done. }
  assert (Transactions e ⊆ frame_txs f) as Hsub.
  { intros tx Hin. unfold frame_txs. apply list_elem_of_In, in_concat. exists (Transactions (fe_Core fe)).
    rewrite <-He. split; apply list_elem_of_In; [|done]. apply list_elem_of_fmap. rewrite He. eauto. }
  assert (frame_body f = Some (i, frame_txs f, frame_itxs f, fr_Timestamp f, peers_hash (fr_Peers f))) as Hbody.
  { unfold frame_body. rewrite Hround. destruct (Transactions e) as [|tx txs]; [done|].
    assert (tx ∈ frame_txs f) as Hin by (apply Hsub; set_solver). unfold zlen.
    by destruct (frame_txs f); [set_solver|]. }
  assert ((i, frame_txs f, frame_itxs f, fr_Timestamp f, peers_hash (fr_Peers f)) ∈ block_body <$> log) as Hin.
  { rewrite Hb. apply list_elem_of_omap. exists f. split; [by eapply list_elem_of_lookup_2|done]. }
  apply list_elem_of_fmap in Hin as (b & Hbb & Hin). exists b. split; [done|].
  unfold block_body in Hbb. injection Hbb as -> Htxs _ _ _. rewrite <-Htxs. done.
Qed.
End commits.

(** ** Signatures that are not part of the hash *)
(** A signature scheme in which a key has many signatures of a message, as
    in ECDSA: [k] is the number drawn by the signer. *)
Definition NonceKeys (k : Z) : Keys := {|
  sha256 := λ data, data;
  elliptic_Unmarshal := elliptic_Unmarshal;
  ScalarBaseMult := ScalarBaseMult;
  elliptic_Marshal := elliptic_Marshal;
  ecdsa_Verify := λ pub data r s,
    match pub with
    | Some (x, _) => Ok (s =? r + x + SetBytes data)
    | None => Ok false
    end;
  ecdsa_Sign := λ d data, Ok (k, k + d + SetBytes data);
|}.
Definition signed_with (k d : Z) (tx : bytes) : Event :=
  let e := NewEvent (Some [tx]) (Some []) (Some []) ("", "") (toy_pub d) 0 1000 in
  res_get e (Event_Sign (KP:=NonceKeys k) e d).

(** The order of a block depends on more than the hashes. Events with the
    same Lamport timestamp are ordered by their signatures, which are not part
    of the hash: with two signatures of one event, which both verify, the
    transactions of a frame are ordered differently. *)
Example signatures_reorder_frame :
  let a1 := signed_with 1 1 [x61] in
  let a2 := signed_with 9 1 [x61] in
  let b := signed_with 5 2 [x62] in
  let fe e := mkFrameEvent e 0 0 true in
  let txs l := l <-- Sort_FrameEvents l ;; Ok (concat ((λ e, Transactions (fe_Core e)) <$> l)) in
  Hex (KP:=NonceKeys 0) a1 = Hex (KP:=NonceKeys 0) a2 ∧
  Event_Verify (KP:=NonceKeys 0) a1 = Ok true ∧ Event_Verify (KP:=NonceKeys 0) a2 = Ok true ∧
  Event_Verify (KP:=NonceKeys 0) b = Ok true ∧
  txs [fe a1; fe b] = Ok [[x61]; [x62]] ∧ txs [fe a2; fe b] = Ok [[x62]; [x61]].
Proof. vm_compute. repeat split. Qed.
