(* ===== verification/ReplicaExamples.v ===== *)
(** * Two small replicas

    Two validators take turns, each event with a transaction. One replica
    receives nine of the events and the other twelve, with the first two in the
    other order. The theorems of the files Agreement and SameBlocks are applied
    to them. At the end, [misindexed_forks_diverge]: what happens without the
    condition on indexes that those theorems have.

    Digests here are the data itself, and an event is rendered as its creator,
    index and transactions, which tells the events below apart. *)
From S2P Require Export SameBlocks.

(** ** Hypotheses of the theorems, as tests *)
#[local] Instance InternalTransactionBody_eq_dec : EqDecision InternalTransactionBody.
Proof. solve_decision. Defined.
#[local] Instance InternalTransaction_eq_dec : EqDecision InternalTransaction.
Proof. solve_decision. Defined.
#[local] Instance BlockSignature_eq_dec : EqDecision BlockSignature.
Proof. solve_decision. Defined.
#[local] Instance EventBodyJSON_eq_dec : EqDecision EventBodyJSON.
Proof. solve_decision. Defined.

(** A relation between the events of two graphs, decided on their lists. *)
Definition all_pairs (R : string * Event → string * Event → bool) (g1 g2 : gmap string Event) : bool :=
  forallb (λ p1, forallb (R p1) (map_to_list g2)) (map_to_list g1).
Lemma all_pairs_ok R g1 g2 x y e1 e2 : all_pairs R g1 g2 = true → g1 !! x = Some e1 → g2 !! y = Some e2 →
  R (x, e1) (y, e2) = true.
Proof.
  intros Hb Hx Hy. unfold all_pairs in Hb. rewrite forallb_forall in Hb. specialize (Hb (x, e1)).
  rewrite forallb_forall in Hb. apply Hb; by apply list_elem_of_In, elem_of_map_to_list.
Qed.
Definition same_eventsb : gmap string Event → gmap string Event → bool :=
  all_pairs (λ '(k1, e1) '(k2, e2), negb (bool_decide (k1 = k2)) ||
    bool_decide (eb_public (ev_Body e1) = eb_public (ev_Body e2)) && bool_decide (ev_Signature e1 = ev_Signature e2)).
Lemma same_eventsb_ok g1 g2 : same_eventsb g1 g2 = true → same_events g1 g2 ∧ same_signatures g1 g2.
Proof.
  intros Hb. split; intros x e1 e2 H1 H2; pose proof (all_pairs_ok _ _ _ x x e1 e2 Hb H1 H2) as Hp; cbn beta iota in Hp;
    rewrite (bool_decide_eq_true_2 (x = x)) in Hp by done; apply andb_true_iff in Hp as [Ha Hs];
    by eapply bool_decide_eq_true.
Qed.
Definition honestb : gmap string Event → gmap string Event → bool :=
  all_pairs (λ '(k1, e1) '(k2, e2),
    negb (bool_decide (Creator e1 = Creator e2) && bool_decide (SelfParent e1 = SelfParent e2)) ||
    bool_decide (k1 = k2)).
Lemma honestb_ok ps g1 g2 : 0 < PS_Len ps → honestb g1 g2 = true → few_forks ps g1 g2.
Proof.
  intros Hps Hb. exists ∅. split; [by rewrite size_empty|]. intros q _ _ k1 k2 e1 e2 H1 H2 Hc1 Hc2 Hsp.
  pose proof (all_pairs_ok _ _ _ k1 k2 e1 e2 Hb H1 H2) as Hp. cbn beta iota in Hp.
  rewrite (bool_decide_eq_true_2 (Creator e1 = Creator e2)), (bool_decide_eq_true_2 (SelfParent e1 = SelfParent e2))
    in Hp by congruence. simpl in Hp. by apply bool_decide_eq_true in Hp.
Qed.
Definition distinct_signaturesb (g : gmap string Event) : bool :=
  all_pairs (λ '(k1, e1) '(k2, e2),
    negb (default 0 (sig_r e1) =? default 0 (sig_r e2)) || bool_decide (k1 = k2)) g g.
Lemma distinct_signaturesb_ok g : distinct_signaturesb g = true → distinct_signatures g.
Proof.
  intros Hb x y ex ey Hx Hy Heq. pose proof (all_pairs_ok _ _ _ x y ex ey Hb Hx Hy) as Hp. cbn beta iota in Hp.
  apply Z.eqb_eq in Heq. rewrite Heq in Hp. by apply bool_decide_eq_true in Hp.
Qed.

Lemma NewInmem_new {KP : Keys} {CP : Codec} {RO : RangeOrder} n : 2 ≤ n → new_store (NewInmemStore n).
Proof.
  intros Hn. split; [apply NewInmemStore_ok; lia|]. split; [simpl; lia|].
  do 3 (split; [done|]). split; [by apply NewParticipantEventsCache_ok|]. by split.
Qed.
Lemma Dummy_quiet {KP : Keys} {CP : Codec} {RO : RangeOrder} {St : Type} {STO : Store St}
    {LAW : StoreLaws St} {X} : cb_quiet (X:=X) DummyInternalCommitCallback.
Proof. intros b hx Hs. done. Qed.
Lemma live_run {KP : Keys} {CP : Codec} {RO : RangeOrder} {St : Type} {STO : Store St} {LAW : StoreLaws St}
    {X} (cb : Block → GoM error (Hashgraph St * X) unit) ps hx hx' :
  rtc (live_step cb ps) hx hx' → rtc (run_step cb ps) hx hx'.
Proof.
  induction 1 as [|hx1 hx2 hx3 H12 _ IH]; [done|]. eapply rtc_l; [|done].
  destruct H12; by constructor.
Qed.

(** ** The replicas *)
#[local] Instance PlainKeys : Keys := {
  sha256 := λ data, data;
  elliptic_Unmarshal := elliptic_Unmarshal;
  ScalarBaseMult := ScalarBaseMult;
  elliptic_Marshal := elliptic_Marshal;
  ecdsa_Verify := λ pub data r s,
    match pub with
    | Some (x, _) => Ok ((s =? x) && (r =? SetBytes data))
    | None => Ok false
    end;
  ecdsa_Sign := λ d data, Ok (SetBytes data, d);
}.
#[local] Instance PlainCodec : Codec := {
  json_EventBody := λ b, Ok (ebj_Creator b ++ [byte_of_Z (ebj_Index b)] ++ concat (default [] (ebj_Transactions b)));
  json_InternalTransactionBody := λ b, Ok [];
  json_BlockBody := λ b, Ok [byte_of_Z (bb_Index b)];
  json_Frame := λ f, Ok [byte_of_Z (fj_Round f)];
}.
#[local] Abbreviation cb := (DummyInternalCommitCallback (St:=InmemStore) (X:=unit)).
#[local] Abbreviation HX := (Hashgraph InmemStore * (unit * list Block))%type.
#[local] Abbreviation ps := (toy_peers [1; 2]).

Definition returns {E A} (r : result E A) : bool :=
  match r with Ok _ | Err _ => true | _ => false end.
Definition live_ready (hx : HX) (e : Event) : bool :=
  insertableb hx.1 e && match ev_round e, ev_roundReceived e with None, None => true | _, _ => false end &&
  (topologicalIndex hx.1 + 2 <? 25).
Fixpoint live_from (hx : HX) (es : list Event) : option HX :=
  match es with
  | [] => Some hx
  | e :: es => let out := InsertEventAndRunConsensus 25 (logged cb) e true hx in
               if live_ready hx e && returns out.1 then live_from out.2 es else None
  end.
Lemma live_from_steps hx es hx' : live_from hx es = Some hx' → rtc (live_step (logged cb) ps) hx hx'.
Proof.
  revert hx. induction es as [|e es IH]; intros hx; cbn [live_from]; cbv zeta; [by intros [= ->]|].
  destruct (live_ready hx e && _) eqn:Hb; [|done]. intros Hes.
  apply andb_true_iff in Hb as [[[Hi Hr]%andb_true_iff Hf]%andb_true_iff Hret].
  eapply rtc_l; [|by apply IH]. apply (live_insert (logged cb) ps 25 e true hx).
  - by apply insertableb_ok.
  - by destruct (ev_round e).
  - by destruct (ev_round e), (ev_roundReceived e).
  - lia.
  - by intros Heq; rewrite Heq in Hret.
  - by intros Heq; rewrite Heq in Hret.
Qed.

(** Two participants that take turns, each event with a transaction. *)
Definition plain_event (d index : Z) (sp op : string) (tx : bytes) : Event :=
  let e := NewEvent (Some [tx]) (Some []) (Some []) (sp, op) (toy_pub d) index (1000 + index) in
  res_get e (Event_Sign e d).
Fixpoint turns_with_txs (n : nat) (me other i j : Z) (mh oh : string) : list Event :=
  match n with
  | O => []
  | S n => let e := plain_event me i mh oh [byte_of_Z i] in
           e :: turns_with_txs n other me j (i + 1) oh (Hex e)
  end.
Definition toy_x0 : Event := Eval vm_compute in plain_event 1 0 "" "" (str_bytes "x").
Definition toy_y0 : Event := Eval vm_compute in plain_event 2 0 "" "" (str_bytes "y").
Definition toy_talk : list Event := Eval vm_compute in turns_with_txs 10 1 2 1 1 (Hex toy_x0) (Hex toy_y0).
Definition toy_begin : HX := ((Init ps (NewHashgraph (NewInmemStore 50))).2, (tt, [])).
Definition toy_s1 : HX :=
  Eval vm_compute in default toy_begin (live_from toy_begin (toy_x0 :: toy_y0 :: take 7 toy_talk)).
(** All the events, in two orders; the last one apart. *)
Definition toy_last : Event := Eval vm_compute in List.last toy_talk toy_x0.
Definition toy_p2 : HX :=
  Eval vm_compute in default toy_begin (live_from toy_begin (toy_y0 :: toy_x0 :: take 9 toy_talk)).
Definition toy_s2 : HX := Eval vm_compute in (InsertEventAndRunConsensus 25 (logged cb) toy_last true toy_p2).2.
Definition toy_p3 : HX :=
  Eval vm_compute in default toy_begin (live_from toy_begin (toy_x0 :: toy_y0 :: take 9 toy_talk)).
Definition toy_s3 : HX := Eval vm_compute in (InsertEventAndRunConsensus 25 (logged cb) toy_last true toy_p3).2.
Lemma toy_committing es hx : live_from toy_begin es = Some hx → committing cb ps hx.1 hx.2.2.
Proof.
  intros Hr. exists (NewInmemStore 50), tt, hx.2.1. split; [apply NewInmem_new; lia|].
  destruct hx as [h [x log]]. exact (live_from_steps toy_begin es (h, (x, log)) Hr).
Qed.
Lemma toy_committing1 : committing cb ps toy_s1.1 toy_s1.2.2.
Proof. apply (toy_committing (toy_x0 :: toy_y0 :: take 7 toy_talk)); vm_compute; reflexivity. Qed.
Lemma toy_run2 : live_from toy_begin (toy_y0 :: toy_x0 :: take 9 toy_talk) = Some toy_p2.
Proof. vm_compute. reflexivity. Qed.
Lemma toy_run3 : live_from toy_begin (toy_x0 :: toy_y0 :: take 9 toy_talk) = Some toy_p3.
Proof. vm_compute. reflexivity. Qed.
Lemma toy_up_to_date es hx0 hx : live_from toy_begin es = Some hx0 → live_ready hx0 toy_last = true →
  is_ok (InsertEventAndRunConsensus 25 (logged cb) toy_last true hx0).1 = true →
  (InsertEventAndRunConsensus 25 (logged cb) toy_last true hx0).2 = hx →
  up_to_date cb ps hx.1 hx.2.2.
Proof.
  intros Hr Hb Hret Hhx. apply andb_true_iff in Hb as [[Hi Hfresh]%andb_true_iff Hf].
  destruct (InsertEventAndRunConsensus 25 (logged cb) toy_last true hx0) as [[e'| | |] hx'] eqn:Hins; try done.
  simpl in Hhx. subst hx'. exists (NewInmemStore 50), tt, hx0, 25%nat, toy_last, true, e', hx.2.1.
  split; [apply NewInmem_new; lia|]. split; [exact (live_from_steps toy_begin es hx0 Hr)|].
  split; [by apply insertableb_ok|]. split; [done|]. split; [done|]. split; [lia|].
  rewrite Hins. by destruct hx as [h [x log]].
Qed.
Lemma toy_up2 : up_to_date cb ps toy_s2.1 toy_s2.2.2.
Proof. apply (toy_up_to_date _ toy_p2 toy_s2 toy_run2); vm_compute; reflexivity. Qed.
Lemma toy_up3 : up_to_date cb ps toy_s3.1 toy_s3.2.2.
Proof. apply (toy_up_to_date _ toy_p3 toy_s3 toy_run3); vm_compute; reflexivity. Qed.
Lemma up_to_date_committing h log : up_to_date cb ps h log → committing cb ps h log.
Proof.
  intros (s & x0 & hx0 & fuel & e & w & e' & x & Hs & Hrun & Hi & Hround & Hrr & Hf & Hins).
  exists s, x0, x. split; [done|]. eapply rtc_r; [exact Hrun|].
  pose proof (live_insert (logged cb) ps fuel e w hx0 Hi Hround Hrr Hf) as Hstep.
  rewrite Hins in Hstep. by apply Hstep.
Qed.
Lemma toy_committing2 : committing cb ps toy_s2.1 toy_s2.2.2.
Proof. exact (up_to_date_committing _ _ toy_up2). Qed.

Definition plain_hex : string := Eval vm_compute in res_get "" (PS_Hex ps).
Lemma plain_PS_Hex : PS_Hex ps = Ok plain_hex.
Proof. vm_compute. reflexivity. Qed.
Lemma plain_SuperMajority : 2 ≤ SuperMajority ps.
Proof. vm_compute. intros H; discriminate H. Qed.

Lemma committing_replica h log : committing cb ps h log → replica (logged cb) ps (h, (tt, log)).
Proof.
  intros (s & x0 & [] & Hs & Hrun). exists s, (x0, []). split; [done|]. by apply live_run.
Qed.
Lemma toy_replica1 : replica (logged cb) ps toy_s1.
Proof. exact (committing_replica toy_s1.1 toy_s1.2.2 toy_committing1). Qed.
Lemma toy_replica2 : replica (logged cb) ps toy_s2.
Proof. exact (committing_replica toy_s2.1 toy_s2.2.2 toy_committing2). Qed.
Lemma toy_quiet : cb_quiet (logged cb).
Proof. apply quiet_logged, Dummy_quiet. Qed.
Lemma toy_same : same_events (graph toy_s1.1) (graph toy_s2.1) ∧ same_signatures (graph toy_s1.1) (graph toy_s2.1).
Proof. apply same_eventsb_ok. vm_compute. reflexivity. Qed.
Lemma toy_same23 : same_events (graph toy_s2.1) (graph toy_s3.1) ∧ same_signatures (graph toy_s2.1) (graph toy_s3.1).
Proof. apply same_eventsb_ok. vm_compute. reflexivity. Qed.
Lemma toy_distinct2 : distinct_signatures (graph toy_s2.1).
Proof. apply distinct_signaturesb_ok. vm_compute. reflexivity. Qed.
Lemma toy_few_forks : few_forks ps (graph toy_s1.1) (graph toy_s2.1).
Proof. apply honestb_ok; vm_compute; reflexivity. Qed.
Lemma toy_distinct : distinct_signatures (graph toy_s1.1).
Proof. apply distinct_signaturesb_ok. vm_compute. reflexivity. Qed.

(** The first replica has committed one block, and the second three. *)
Lemma replicas_commit_same_blocks_witness :
  length toy_s1.2.2 = 1%nat ∧ length toy_s2.2.2 = 3%nat ∧
  (block_body <$> toy_s1.2.2) `prefix_of` (block_body <$> toy_s2.2.2).
Proof.
  assert (length toy_s1.2.2 = 1%nat) as H1 by reflexivity.
  assert (length toy_s2.2.2 = 3%nat) as H2 by reflexivity.
  split; [exact H1|]. split; [exact H2|].
  destruct (replicas_commit_same_blocks cb cb ps plain_hex toy_s1.1 toy_s2.1 toy_s1.2.2 toy_s2.2.2
    plain_PS_Hex plain_SuperMajority Dummy_quiet Dummy_quiet toy_committing1 toy_committing2
    (proj1 toy_same) toy_few_forks (proj2 toy_same) toy_distinct) as [Hp|Hp].
  - exact Hp.
  - apply prefix_length in Hp. rewrite !length_fmap, H1, H2 in Hp. lia.
Defined.

(** Both know the third event, its round and that it is not a witness. *)
Definition toy_third : Event := Eval vm_compute in List.hd toy_x0 toy_talk.
Lemma replicas_agree_on_rounds_witness :
  ∃ r w, (round 25 (Hex toy_third) toy_s1.1).1 = Ok r ∧ (round 25 (Hex toy_third) toy_s2.1).1 = Ok r ∧
    (witness 25 (Hex toy_third) toy_s1.1).1 = Ok w ∧ (witness 25 (Hex toy_third) toy_s2.1).1 = Ok w.
Proof.
  destruct (replicas_agree_on_rounds (logged cb) (logged cb) ps plain_hex toy_s1 toy_s2 plain_PS_Hex
    plain_SuperMajority toy_quiet toy_quiet toy_replica1 toy_replica2 (proj1 toy_same) 25 25 (Hex toy_third))
    as (r & w & H1 & H2 & H3 & H4 & _).
  - vm_compute. reflexivity.
  - vm_compute. reflexivity.
  - eexists. vm_compute. reflexivity.
  - eexists. vm_compute. reflexivity.
  - exists r, w. exact (conj H1 (conj H2 (conj H3 H4))).
Defined.

(** Both replicas have decided on the first event, as [true]. *)
Definition toy_fame (hx : HX) (x : string) : option Trilean :=
  v_rounds (hv hx.1) !! 0 ≫= λ ri, re_Famous <$> CreatedEvents ri !! x.
Lemma toy_fame_at hx x f : toy_fame hx x = Some f → ∃ ri re,
  v_rounds (hv hx.1) !! 0 = Some ri ∧ CreatedEvents ri !! x = Some re ∧ re_Famous re = f.
Proof.
  unfold toy_fame. destruct (v_rounds (hv hx.1) !! 0) as [ri|]; [|done]. simpl.
  destruct (CreatedEvents ri !! x) as [re|] eqn:Hre; [|done]. intros [= <-]. eauto.
Qed.
Lemma replicas_agree_on_fame_witness :
  toy_fame toy_s1 (Hex toy_x0) = Some TTrue ∧ toy_fame toy_s2 (Hex toy_x0) = Some TTrue ∧
  ∀ ri1 ri2 re1 re2, v_rounds (hv toy_s1.1) !! 0 = Some ri1 → CreatedEvents ri1 !! Hex toy_x0 = Some re1 →
    v_rounds (hv toy_s2.1) !! 0 = Some ri2 → CreatedEvents ri2 !! Hex toy_x0 = Some re2 →
    re_Famous re1 = re_Famous re2.
Proof.
  assert (toy_fame toy_s1 (Hex toy_x0) = Some TTrue) as H1 by (vm_compute; reflexivity).
  assert (toy_fame toy_s2 (Hex toy_x0) = Some TTrue) as H2 by (vm_compute; reflexivity).
  split; [exact H1|]. split; [exact H2|]. intros ri1 ri2 re1 re2 Hr1 Hx1 Hr2 Hx2.
  apply toy_fame_at in H1 as (ri1' & re1' & Hr1' & Hx1' & Hf1), H2 as (ri2' & re2' & Hr2' & Hx2' & Hf2).
  assert (ri1' = ri1) as -> by congruence. assert (ri2' = ri2) as -> by congruence.
  assert (re1' = re1) as -> by congruence. assert (re2' = re2) as -> by congruence.
  destruct (replicas_agree_on_fame (logged cb) (logged cb) ps plain_hex toy_s1 toy_s2 plain_PS_Hex
    plain_SuperMajority toy_quiet toy_quiet toy_replica1 toy_replica2 (proj1 toy_same) toy_few_forks
    0 0 ri1 ri2 (Hex toy_x0) re1 re2 Hr1 Hx1 Hr2 Hx2) as [_ Heq].
  - rewrite Hf1. discriminate.
  - rewrite Hf2. discriminate.
  - exact Heq.
Defined.

(** Both have received the first event, in round 1. *)
Definition toy_received (hx : HX) (x : string) : option Z :=
  v_events (hv hx.1) !! x ≫= ev_roundReceived.
Lemma toy_received_at hx x i : toy_received hx x = Some i → received_at hx.1 x i.
Proof.
  unfold toy_received. destruct (v_events (hv hx.1) !! x) as [ex|] eqn:Hex; [|done].
  intros Hi. right. eauto.
Qed.
Lemma replicas_agree_on_round_received_witness :
  toy_received toy_s1 (Hex toy_x0) = Some 1 ∧ toy_received toy_s2 (Hex toy_x0) = Some 1 ∧
  ∀ i, received_at toy_s2.1 (Hex toy_x0) i → i = 1.
Proof.
  assert (toy_received toy_s1 (Hex toy_x0) = Some 1) as H1 by (vm_compute; reflexivity).
  assert (toy_received toy_s2 (Hex toy_x0) = Some 1) as H2 by (vm_compute; reflexivity).
  split; [exact H1|]. split; [exact H2|]. intros i Hi. apply toy_received_at in H1. symmetry.
  exact (replicas_agree_on_round_received (logged cb) (logged cb) ps plain_hex toy_s1 toy_s2 plain_PS_Hex
    plain_SuperMajority toy_quiet toy_quiet toy_replica1 toy_replica2 (proj1 toy_same) toy_few_forks
    (Hex toy_x0) 1 i H1 Hi).
Defined.

Lemma replicas_converge_witness :
  length toy_s2.2.2 = 3%nat ∧ block_body <$> toy_s2.2.2 = block_body <$> toy_s3.2.2.
Proof.
  split; [reflexivity|].
  refine (replicas_converge cb cb ps plain_hex toy_s2.1 toy_s3.1 toy_s2.2.2 toy_s3.2.2 plain_PS_Hex
    plain_SuperMajority Dummy_quiet Dummy_quiet toy_up2 toy_up3 _ (proj1 toy_same23) (proj2 toy_same23) toy_distinct2).
  vm_compute. reflexivity.
Defined.

Lemma length_omap_le {A B} (F : A → option B) (l : list A) : (length (omap F l) ≤ length l)%nat.
Proof. induction l as [|a l IH]; csimpl; [done|]. destruct (F a); simpl; lia. Qed.
(** The graph receives the first event in round 1. *)
Lemma toy_settled : ∃ L, ledger ps (graph toy_s2.1) L ∧ received ps (graph toy_s2.1) L (Hex toy_x0) 1 ∧
  ∀ j, 0 ≤ j ≤ 1 → round_settled ps (graph toy_s2.1) L j.
Proof.
  assert (toy_received toy_s2 (Hex toy_x0) = Some 1) as Hrec by (vm_compute; reflexivity).
  assert (length toy_s2.2.2 = 3%nat) as Hlen by (vm_compute; reflexivity).
  destruct (up_to_date_logs cb ps plain_hex plain_PS_Hex plain_SuperMajority Dummy_quiet _ _ toy_up2)
    as (L & fs & _ & (_ & HL & _ & bk & HR & _) & Hb & Hf).
  exists L. split; [exact HL|]. split.
  - exact (received_at_received ps plain_hex bk _ _ _ _ L _ _ _ HR (toy_received_at _ _ _ Hrec)).
  - assert (3 ≤ length fs)%nat as Hfs.
    { rewrite <-Hlen, <-(length_fmap block_body), Hb. apply length_omap_le. }
    destruct (lookup_lt_is_Some_2 fs 1 ltac:(lia)) as [f Hlf]. exact (proj1 (Hf 1%nat f Hlf)).
Qed.
Definition toy_known : Event := Eval vm_compute in default toy_x0 (graph toy_s2.1 !! Hex toy_x0).
Lemma received_is_committed_witness :
  ∃ b, b ∈ toy_s2.2.2 ∧ Block_RoundReceived b = 1 ∧ [str_bytes "x"] ⊆ Block_Transactions b.
Proof.
  destruct toy_settled as (L & HL & Hrec & Hset).
  refine (received_is_committed cb ps plain_hex toy_s2.1 toy_s2.2.2 L (Hex toy_x0) toy_known 1
    plain_PS_Hex plain_SuperMajority Dummy_quiet toy_up2 HL _ Hrec Hset _).
  - vm_compute. reflexivity.
  - vm_compute. intros H. discriminate H.
Defined.

(** ** Where an index is not the next one *)
(** [checkSelfParent] compares the self-parent with the creator's last event and
    not the index with that event's, and a rolling index lets an event in the
    place of an older one, which leaves the last event as it was. So one of four
    validators here follows its third event by two others, with indexes 0 and 1,
    that every replica accepts: a fork. *)
Definition fork_events (swap : bool) : list Event :=
  let a0 := plain_event 1 0 "" "" (str_bytes "a0") in
  let b0 := plain_event 2 0 "" "" (str_bytes "b0") in
  let d0 := plain_event 4 0 "" "" (str_bytes "d0") in
  let c0 := plain_event 3 0 "" "" (str_bytes "c0") in
  let c1 := plain_event 3 1 (Hex c0) "" (str_bytes "c1") in
  let c2 := plain_event 3 2 (Hex c1) "" (str_bytes "c2") in
  let a1 := plain_event 1 1 (Hex a0) (Hex d0) (str_bytes "a1") in
  let b1 := plain_event 2 1 (Hex b0) (Hex a1) (str_bytes "b1") in
  let f0 := plain_event 3 0 (Hex c2) (Hex b1) (str_bytes "f0") in
  let f1 := plain_event 3 1 (Hex c2) (Hex b1) (str_bytes "f1") in
  let a2 := plain_event 1 2 (Hex a1) (Hex f0) (str_bytes "a2") in
  [a0; b0; d0; c0; c1; c2; a1; b1] ++ (if swap then [f1; f0] else [f0; f1]) ++ [a2].
Fixpoint insert_all (hx : HX) (es : list Event) : option HX :=
  match es with
  | [] => Some hx
  | e :: es => let out := InsertEventAndRunConsensus 25 (logged cb) e true hx in
               if is_ok out.1 then insert_all out.2 es else None
  end.
Definition fork_run (swap : bool) : option HX :=
  insert_all ((Init (toy_peers [1; 2; 3; 4]) (NewHashgraph (NewInmemStore 50))).2, (tt, [])) (fork_events swap).
Definition fork_round (swap : bool) : option (res Z) :=
  hx ← fork_run swap; e ← last (fork_events swap); Some (round 25 (Hex e) hx.1).1.
(** Two replicas take the same eleven events, all of them accepted, with the two
    events of the fork in the other order. The last event, of a validator that
    follows the protocol, is in round 1 of one replica and in round 0 of the
    other: the theorems of Agreement and SameBlocks need indexes that are the
    next ones. *)
Example misindexed_forks_diverge :
  Permutation (fork_events false) (fork_events true) ∧ last (fork_events false) = last (fork_events true) ∧
  fork_round false = Some (Ok 1) ∧ fork_round true = Some (Ok 0).
Proof.
  split_and!; [|reflexivity|vm_compute; reflexivity|vm_compute; reflexivity].
  unfold fork_events. cbv zeta. apply Permutation_app_head, Permutation_app_tail, Permutation_swap.
Qed.
