(* ===== verification/CoreTheorems.v ===== *)
(** * The core: theorems

    Self-events empty the pools without losing or repeating a transaction;
    accepted internal transactions change the peer-set from six rounds after
    the block on, and not before; an event that went through the wire is the
    event that was sent. *)
From S2P Require Export CommitCallback GraphTheorems.

(** ** The owner's state beside the pipeline *)
Section owner.
Context {KP : Keys} {CP : Codec} {RO : RangeOrder}.
Context {St : Type} {STO : Store St}.
Context {X : Type} (R : X → X → Prop) {HR : PreOrder R}.
Definition on_x (s s' : Hashgraph St * X) : Prop := R s.2 s'.2.
#[export] Instance on_x_preorder : PreOrder on_x.
Proof. split; [intros s; unfold on_x; reflexivity|]. intros a b c ? ?. unfold on_x in *. by etrans. Qed.

Lemma on_x_onHG {A} (m : GoM error (Hashgraph St) A) : respects on_x (onHG m).
Proof. intros s. unfold on_x, onHG, zoom. destruct (m s.1). simpl. reflexivity. Qed.

Context (fuel : nat) (cb : Block → GoM error (Hashgraph St * X) unit).
Context (Hcb : ∀ b, respects on_x (cb b)).
Hint Resolve on_x_onHG : respects.
Lemma on_x_process_round i : respects on_x (process_round fuel cb i).
Proof. unfold process_round. respects_go; auto. Qed.
Lemma on_x_pipeline e w : respects on_x (InsertEventAndRunConsensus fuel cb e w).
Proof.
  assert (∀ rs l, respects on_x (process_rounds fuel cb l rs)) as Hrs.
  { induction rs as [|r rs IH]; intros l; simpl; respects_go; auto using on_x_process_round. }
  unfold InsertEventAndRunConsensus, ProcessDecidedRounds. respects_go; auto.
Qed.
End owner.

(** ** What insertion returns *)
Section inserted.
Context {KP : Keys} {CP : Codec} {RO : RangeOrder}.
Context {St : Type} {STO : Store St}.

Lemma SetWireInfo_public e (h h' : Hashgraph St) e' :
  SetWireInfo e h = (Ok e', h') → eb_public (ev_Body e') = eb_public (ev_Body e).
Proof.
  unfold SetWireInfo. intros (rep & h1 & _ & H)%bind_Ok.
  destruct (rep !! Creator e); [|by apply throw_Ok in H].
  repeat (apply bind_Ok in H as (? & ? & _ & H)). by apply ret_Ok in H as [<- _].
Qed.

Lemma InsertEvent_public fuel e w (h h' : Hashgraph St) e' :
  InsertEvent fuel e w h = (Ok e', h') → eb_public (ev_Body e') = eb_public (ev_Body e).
Proof.
  unfold InsertEvent, insert_checked. intros H.
  do 4 (apply bind_Ok in H as (? & ? & _ & H)).
  apply bind_Ok in H as (ti & h1 & _ & H). cbv zeta in H.
  apply bind_Ok in H as (? & h2 & _ & H).
  apply bind_Ok in H as (e1 & h3 & Hw & H).
  apply bind_Ok in H as (e2 & h4 & Hi & H). apply wrap_Ok in Hi.
  assert (eb_public (ev_Body e1) = eb_public (ev_Body e)) as H1.
  { destruct w; [apply wrap_Ok, SetWireInfo_public in Hw; done|by apply ret_Ok in Hw as [<- _]]. }
  assert (eb_public (ev_Body e2) = eb_public (ev_Body e1)) as H2.
  { unfold initEventCoordinates in Hi. repeat (apply bind_Ok in Hi as (? & ? & _ & Hi)).
    by apply ret_Ok in Hi as [<- _]. }
  repeat (apply bind_Ok in H as (? & ? & _ & H)). apply ret_Ok in H as [<- _]. congruence.
Qed.

Lemma Insert_public {X} fuel (cb : Block → GoM error (Hashgraph St * X) unit) e w s s' e' :
  InsertEventAndRunConsensus fuel cb e w s = (Ok e', s') →
  eb_public (ev_Body e') = eb_public (ev_Body e).
Proof.
  unfold InsertEventAndRunConsensus. intros (e1 & s1 & Hi & H)%bind_Ok.
  repeat (apply bind_Ok in H as (? & ? & _ & H)). apply ret_Ok in H as [<- _].
  apply zoom_Ok in Hi as (h & Hi & _). by eapply InsertEvent_public.
Qed.
End inserted.

Section core.
Context {KP : Keys} {CP : Codec} {RO : RangeOrder} {St : Type} {STO : Store St}.
Context {P : Type} (app : Block → GoM error P CommitResponse) (clock : nat → Z) (fuel : nat).
Abbreviation core := (Hashgraph St * (coreState * P))%type.

(** ** The pools *)
Definition same_pools (x x' : coreState * P) : Prop :=
  transactionPool x'.1 = transactionPool x.1 ∧
  internalTransactionPool x'.1 = internalTransactionPool x.1 ∧
  validator x'.1 = validator x.1.
#[export] Instance same_pools_preorder : PreOrder same_pools.
Proof. split; [done|]. intros a b c (? & ? & ?) (? & ? & ?). unfold same_pools. split_and!; congruence. Qed.
Abbreviation K := (on_x (St:=St) same_pools).

Lemma pools_modifyC f : (∀ c, transactionPool (f c) = transactionPool c ∧
    internalTransactionPool (f c) = internalTransactionPool c ∧ validator (f c) = validator c) →
  respects (E:=error) K (modifyC f).
Proof. intros Hf s. apply Hf. Qed.
Lemma pools_getsC {A} (f : coreState → A) : respects (E:=error) K (getsC f).
Proof. done. Qed.
Lemma pools_onApp {A} (m : GoM error P A) : respects K (onApp m).
Proof. intros s. unfold on_x, onApp, zoom. by destruct (m s.2.2). Qed.
Lemma pools_onH {A} (m : GoM error (Hashgraph St) A) : respects K (onH m).
Proof. apply on_x_onHG, _. Qed.
Hint Resolve pools_getsC pools_onApp pools_onH : respects.
Hint Extern 4 (respects _ (modifyC _)) => apply pools_modifyC; intros ?; by repeat case_match : respects.

(** The callback may add block signatures, but no transaction. *)
Lemma pools_commit b : respects K (commit app b).
Proof.
  unfold commit, signBlock, mutateBlock, processAcceptedInternalTransactions, process_receipt,
    answer_promise, setPeers, respond. respects_go.
Qed.

Lemma pools_insert e w : respects K (insertEventAndRunConsensus app fuel e w).
Proof.
  unfold insertEventAndRunConsensus. apply (respects_bind _); [apply on_x_pipeline; [apply _|]|].
  - apply pools_commit.
  - intros e'. respects_go.
Qed.

(** The event a self-event is made of. *)
Definition self_event (c : coreState) (op : string) (e : Event) : Prop :=
  Transactions e = transactionPool c ∧ InternalTransactions e = internalTransactionPool c ∧
  BlockSignatures e = SP_Slice (selfBlockSignatures c) ∧ SelfParent e = core_head c ∧
  OtherParent e = op ∧ Index e = core_seq c + 1 ∧
  Creator e = Validator_PublicKeyHex (validator c).

Lemma public_payload e e' : eb_public (ev_Body e') = eb_public (ev_Body e) →
  Hex e' = Hex e ∧ Index e' = Index e ∧ Creator e' = Creator e.
Proof. intros Hp. destruct (public_fields e e' Hp) as (? & ? & ? & _). done. Qed.

Lemma insert_sets_head e w (s s' : core) e' :
  insertEventAndRunConsensus app fuel e w s = (Ok e', s') →
  Creator e = Validator_PublicKeyHex (validator s.2.1) →
  core_head s'.2.1 = Hex e ∧ core_seq s'.2.1 = Index e.
Proof.
  unfold insertEventAndRunConsensus. intros (e1 & s1 & Hi & H)%bind_Ok Hc.
  pose proof (on_x_pipeline same_pools fuel (commit app) pools_commit e w s) as Hx.
  rewrite Hi in Hx. destruct Hx as (_ & _ & Hv). simpl in Hv.
  apply Insert_public in Hi. destruct (public_payload e e1 Hi) as (Hh & Hix & Hcr).
  apply bind_Ok in H as (v & s2 & Hg & H). apply gets_Ok in Hg as [Hv' <-].
  apply bind_Ok in H as (u & s3 & Hm & H). apply ret_Ok in H as [_ <-].
  rewrite decide_True in Hm; [|congruence]. apply modify_Ok in Hm as ->. simpl. done.
Qed.

Lemma SP_RemoveSlice_gone sp sigs bs : bs ∈ sigs →
  SP_Items (SP_RemoveSlice sp sigs) !! BS_Key bs = None.
Proof.
  assert (∀ sigs sp k, SP_Items sp !! k = None → SP_Items (SP_RemoveSlice sp sigs) !! k = None) as Hkeep.
  { clear. induction sigs as [|b sigs IH]; intros sp k Hk; [done|]. apply (IH (SP_Remove sp (BS_Key b))).
    apply lookup_delete_None. by right. }
  revert sp. induction sigs as [|b sigs IH]; intros sp Hin; [by apply elem_of_nil in Hin|].
  apply elem_of_cons in Hin as [->|Hin]; [|by apply IH].
  apply (Hkeep sigs (SP_Remove sp (BS_Key b))). apply lookup_delete_eq.
Qed.
(** What was added to the pools since they were measured stays. *)
Lemma forget_pooled_run (c : coreState) (s1 : core) txs itxs :
  transactionPool s1.2.1 = transactionPool c ++ txs →
  internalTransactionPool s1.2.1 = internalTransactionPool c ++ itxs →
  forget_pooled (zlen (transactionPool c)) (zlen (internalTransactionPool c))
    (SP_Slice (selfBlockSignatures c)) s1 =
  (Ok tt, (s1.1, (set_pools txs itxs
     (SP_RemoveSlice (selfBlockSignatures s1.2.1) (SP_Slice (selfBlockSignatures c))) s1.2.1, s1.2.2))).
Proof.
  intros Htx Hitx. unfold forget_pooled, bind, getsC, gets, lift. cbn [fst snd]. unfold id.
  unfold zlen. rewrite Htx, Hitx, !go_from_app. done.
Qed.

Lemma addSelfEvent_cases op (s : core) :
  let out := addSelfEvent app clock fuel op s in
  match out.1 with
  | Ok _ =>
      (LastRound (hg_Store s.1) < acceptedRound s.2.1 ∧ out.2 = s) ∨
      (acceptedRound s.2.1 ≤ LastRound (hg_Store s.1) ∧
       transactionPool out.2.2.1 = [] ∧ internalTransactionPool out.2.2.1 = [] ∧
       (∀ bs, bs ∈ SP_Slice (selfBlockSignatures s.2.1) →
          SP_Items (selfBlockSignatures out.2.2.1) !! BS_Key bs = None) ∧
       ∃ e, self_event s.2.1 op e ∧ core_head out.2.2.1 = Hex e ∧ core_seq out.2.2.1 = Index e)
  | _ => same_pools s.2 out.2.2
  end.
Proof.
  cbv zeta. set (c := s.2.1).
  set (e := NewEvent (Some (transactionPool c)) (Some (internalTransactionPool c))
              (Some (SP_Slice (selfBlockSignatures c))) (core_head c, op)
              (PublicKeyBytes (validator c)) (core_seq c + 1) (clock (ticks c))).
  set (s1 := (s.1, (set_ticks (S (ticks c)) c, s.2.2))).
  set (rest := forget_pooled (St:=St) (P:=P) (zlen (transactionPool c)) (zlen (internalTransactionPool c))
     (SP_Slice (selfBlockSignatures c))).
  assert (addSelfEvent app clock fuel op s =
    if LastRound (hg_Store s.1) <? acceptedRound c then (Ok tt, s)
    else (_ <- signAndInsertSelfEvent app fuel e ;; rest) s1) as ->.
  { unfold addSelfEvent. unfold bind at 1, get. cbv zeta. fold c.
    by destruct (LastRound (hg_Store s.1) <? acceptedRound c). }
  destruct (LastRound (hg_Store s.1) <? acceptedRound c) eqn:Hearly; [left; split; [lia|done]|].
  assert (same_pools s.2 s1.2) as H01 by done.
  assert (signAndInsertSelfEvent app fuel e s1 =
    match Event_Sign e (val_Key (validator c)).1 with
    | Ok es => insertEventAndRunConsensus app fuel es true s1
    | Err x => (Err x, s1) | Panic => (Panic, s1) | OutOfFuel => (OutOfFuel, s1)
    end) as Hsi.
  { unfold signAndInsertSelfEvent, bind at 1, getsC, gets. cbn [fst snd].
    unfold bind, lift. simpl. by destruct (Event_Sign e _). }
  assert ((_ <- signAndInsertSelfEvent app fuel e ;; rest) s1 =
    match signAndInsertSelfEvent app fuel e s1 with
    | (Ok _, s2) => rest s2
    | (Err x, s2) => (Err x, s2) | (Panic, s2) => (Panic, s2) | (OutOfFuel, s2) => (OutOfFuel, s2)
    end) as -> by done.
  rewrite Hsi. clear Hsi.
  destruct (Event_Sign e (val_Key (validator c)).1) as [es|err| |] eqn:Hsign; [|exact H01..].
  pose proof (pools_insert es true s1) as H12.
  destruct (insertEventAndRunConsensus app fuel es true s1) as [r s2] eqn:Hins. simpl in H12.
  destruct r as [e2|err| |]; [|exact (transitivity H01 H12)..].
  assert (ev_Body es = ev_Body e) as Hbody.
  { unfold Event_Sign in Hsign. apply res_bind_Ok in Hsign as (? & _ & Hsign).
    apply res_bind_Ok in Hsign as (? & _ & [= <-]). done. }
  assert (self_event s.2.1 op es) as Hself.
  { unfold self_event, Transactions, InternalTransactions, BlockSignatures, SelfParent, OtherParent,
      Index, Creator. rewrite Hbody. done. }
  apply insert_sets_head in Hins as [Hh Hs]; [|apply Hself].
  destruct (transitivity H01 H12) as (Htx & Hitx & _).
  fold c in Htx, Hitx.
  assert (rest s2 = (Ok tt, (s2.1, (set_pools [] []
       (SP_RemoveSlice (selfBlockSignatures s2.2.1) (SP_Slice (selfBlockSignatures c))) s2.2.1,
       s2.2.2)))) as ->.
  { apply (forget_pooled_run c s2 [] []); by rewrite app_nil_r. }
  right. simpl. split; [lia|]. do 2 (split; [done|]). split; [|by exists es].
  intros bs Hbs. by apply SP_RemoveSlice_gone.
Qed.

(** ** Peer-set changes *)

(** The specification of the first loop: the accepted joins and leaves, in
    order. *)
Definition apply_receipt (st : PeerSet * bool) (r : InternalTransactionReceipt) :
    res (PeerSet * bool) :=
  let body := itx_Body (itr_InternalTransaction r) in
  if itr_Accepted r then
    match itb_Type body with
    | PEER_ADD => ps <-- WithNewPeer st.1 (itb_Peer body) ;; Ok (ps, true)
    | PEER_REMOVE => ps <-- WithRemovedPeer st.1 (itb_Peer body) ;; Ok (ps, true)
    | UnknownTransactionType _ => Ok st
    end
  else Ok st.
Definition apply_receipts (vals : PeerSet) (l : list InternalTransactionReceipt) :=
  res_foldM apply_receipt (vals, false) l.

(** The fields the first loop leaves alone. *)
Definition same_vals (x x' : coreState * P) : Prop :=
  validators x'.1 = validators x.1 ∧ targetRound x'.1 = targetRound x.1.

Lemma process_receipt_spec rr (s s' : core) v cp ch st' r :
  process_receipt rr (v, cp, ch) r s = (Ok st', s') →
  apply_receipt (v, ch) r = Ok (st'.1.1, st'.2) ∧ s'.1 = s.1 ∧ same_vals s.2 s'.2.
Proof.
  unfold process_receipt, apply_receipt. cbn [fst snd]. destruct (itr_Accepted r).
  2:{ intros [<- <-]%ret_Ok. done. }
  destruct (itb_Type (itx_Body (itr_InternalTransaction r))).
  - intros (v' & s1 & [Hv <-]%lift_Ok & H)%bind_Ok.
    apply bind_Ok in H as (cp' & s2 & [_ <-]%lift_Ok & [<- <-]%ret_Ok).
    rewrite Hv. done.
  - intros (v' & s1 & [Hv <-]%lift_Ok & H)%bind_Ok.
    apply bind_Ok in H as (cp' & s2 & [_ <-]%lift_Ok & H).
    apply bind_Ok in H as (id & s3 & [_ <-]%lift_Ok & H).
    apply bind_Ok in H as (vd & s4 & [_ <-]%gets_Ok & H).
    apply bind_Ok in H as (u & s5 & Hm & [<- <-]%ret_Ok). rewrite Hv.
    split; [done|]. case_match; [apply modify_Ok in Hm as ->|apply ret_Ok in Hm as [_ <-]]; done.
  - intros [<- <-]%ret_Ok. done.
Qed.

Lemma process_receipts_spec rr l : ∀ (s s' : core) v cp ch st',
  foldM (process_receipt rr) (v, cp, ch) l s = (Ok st', s') →
  res_foldM apply_receipt (v, ch) l = Ok (st'.1.1, st'.2) ∧ s'.1 = s.1 ∧ same_vals s.2 s'.2.
Proof.
  induction l as [|r l IH]; intros s s' v cp ch st'; simpl.
  { intros [<- <-]%ret_Ok. done. }
  intros ([[v1 cp1] ch1] & s1 & (H1 & H2 & H3)%process_receipt_spec & H)%bind_Ok.
  apply IH in H as (H4 & H5 & H6). simpl in *. rewrite H1. simpl. split; [done|].
  split; [congruence|]. destruct H3, H6. split; congruence.
Qed.

(** Answering promises changes neither the hashgraph nor the validators. *)
Definition quiet (s s' : core) : Prop := s'.1 = s.1 ∧ same_vals s.2 s'.2.
#[export] Instance quiet_preorder : PreOrder quiet.
Proof.
  split; [done|]. intros a b d (E1 & V1 & T1) (E2 & V2 & T2).
  split; [congruence|]. split; congruence.
Qed.
Lemma answer_promise_quiet rr r : respects (E:=error) quiet (answer_promise rr r).
Proof.
  assert (∀ f, (∀ c, validators (f c) = validators c ∧ targetRound (f c) = targetRound c) →
    respects (E:=error) quiet (modifyC f)) as Hm.
  { intros f Hf s. split; [done|]. apply Hf. }
  assert (∀ A (f : coreState → A), respects (E:=error) quiet (getsC f)) as Hg by done.
  unfold answer_promise, respond. respects_go; auto; by apply Hm.
Qed.

Lemma setPeers_quiet ps : respects (E:=error) quiet (setPeers ps).
Proof.
  unfold setPeers. apply (respects_bind _); [done|]. intros v.
  apply (respects_bind _); [done|]. intros sel. done.
Qed.

Lemma processAccepted_spec rr l (s s' : core) :
  processAcceptedInternalTransactions rr l s = (Ok tt, s') →
  ∃ vals changed, apply_receipts (validators s.2.1) l = Ok (vals, changed) ∧
    (if (changed : bool) then
       ∃ h1, onStore (SetPeerSet (rr + 6) vals) s.1 = (Ok tt, h1) ∧ s'.1 = h1 ∧
         validators s'.2.1 = vals ∧ targetRound s'.2.1 = Z.max (targetRound s.2.1) (rr + 6)
     else quiet s s').
Proof using Type.
  clear app clock fuel.
  unfold processAcceptedInternalTransactions.
  intros (c & s1 & [<- <-]%gets_Ok & H)%bind_Ok. cbv zeta in H. unfold id in H.
  apply bind_Ok in H as ([[vals cp] changed] & s2 & (Hap & Hh2 & Hq2)%process_receipts_spec & H).
  exists vals, changed. split; [done|].
  apply bind_Ok in H as (u & s3 & Hmid & Hans).
  assert (quiet s3 s') as [Hh3 [Hv3 Ht3]].
  { assert (respects (E:=error) quiet (forM l (answer_promise (rr + 6)))) as Hq.
    { apply (respects_forM _). intros r. apply answer_promise_quiet. }
    by eapply respects_Ok. }
  destruct Hq2 as [Hv2 Ht2]. destruct changed.
  2:{ apply ret_Ok in Hmid as [_ <-]. split; [congruence|]. split; congruence. }
  apply bind_Ok in Hmid as (? & s4 & ->%modify_Ok & Hmid).
  apply bind_Ok in Hmid as ([] & s5 & Hset%wrap_Ok & Hmid).
  apply zoom_Ok in Hset as (h1 & Hset & ->).
  apply bind_Ok in Hmid as (? & s6 & ->%modify_Ok & Hmid).
  apply bind_Ok in Hmid as (? & s7 & Hsp & ->%modify_Ok).
  apply (respects_Ok quiet) in Hsp; [|apply setPeers_quiet]. destruct Hsp as [Hh7 [Hv7 Ht7]].
  simpl in *. exists h1. rewrite <-Hh2. split; [done|]. split; [congruence|].
  split.
  - rewrite Hv3. case_match; simpl; congruence.
  - rewrite Ht3. destruct (Z.ltb_spec (targetRound s7.2.1) (rr + 6)); simpl; lia.
Qed.
End core.

Lemma apply_receipts_wf vals l vals' ch :
  ps_wf vals → apply_receipts vals l = Ok (vals', ch) → ps_wf vals'.
Proof.
  unfold apply_receipts. generalize false as b. revert vals.
  induction l as [|r l IH]; intros vals b Hwf; simpl; [by intros [= <- _]|].
  intros ([v1 b1] & H1 & H2)%res_bind_Ok. apply (IH v1 b1); [|done].
  unfold apply_receipt in H1. cbn [fst snd] in H1.
  destruct (itr_Accepted r); [|by injection H1 as <- _].
  destruct (itb_Type (itx_Body (itr_InternalTransaction r))).
  - apply res_bind_Ok in H1 as (ps & Hps & [= <- _]).
    assert (∃ id, ID (itb_Peer (itx_Body (itr_InternalTransaction r))) = Ok id) as [id Hid].
    { unfold WithNewPeer in Hps. apply res_bind_Ok in Hps as (id & Hid & _). eauto. }
    by destruct (WithNewPeer_wf _ _ _ _ Hwf Hid Hps).
  - apply res_bind_Ok in H1 as (ps & Hps & [= <- _]). by destruct (WithRemovedPeer_wf _ _ _ Hwf Hps).
  - by injection H1 as <- _.
Qed.

(** ** The wire *)
Section wire.
Context {KP : Keys} {CP : Codec} {RO : RangeOrder} {St : Type} {STO : Store St} {LAW : StoreLaws St}.
Implicit Types (h : Hashgraph St) (e : Event).

(** The receiver [h2] knows the participants of the sender [h1] under the
    same identifiers, and has the parents of the event in its windows. *)
Definition receives h1 h2 e : Prop :=
  (∀ k p id, RepertoireByPubKey (hg_Store h1) !! k = Some p → ID p = Ok id →
     ∃ q, RepertoireByID (hg_Store h2) !! id = Some q ∧ PubKeyString q = k) ∧
  (∀ x ex, x = SelfParent e ∨ x = OtherParent e → x ≠ "" → graph h1 !! x = Some ex →
     0 ≤ Index ex ∧ ParticipantEvent (hg_Store h2) (Creator ex) (Index ex) = Ok x) ∧
  (∀ ex, graph h1 !! SelfParent e = Some ex → Creator ex = Creator e).

(** A creator signs the blocks of its events itself. *)
Definition own_signatures e : Prop :=
  ∀ bs, bs ∈ BlockSignatures e → bs_Validator bs = eb_Creator (ev_Body e).

Lemma GetEvent_graph x h ex h' : st_ok (hg_Store h) →
  onStore (GetEvent x) h = (Ok ex, h') → same (λ v, v) h h' ∧ graph h !! x = Some (skeleton ex).
Proof.
  intros Hok Hget. pose proof (untouched_GetEvent (λ v, v) x h) as Hs. rewrite Hget in Hs.
  split; [done|]. apply zoom_Ok in Hget as (s' & Hget & _).
  destruct (GetEvent_law x (hg_Store h) Hok) as (_ & _ & Hf). rewrite Hget in Hf. simpl in Hf.
  unfold graph, hv. rewrite lookup_fmap. destruct (v_events _ !! x); simpl in Hf; [|naive_solver].
  by injection Hf as ->.
Qed.

Lemma SetWireInfo_spec e h e' h' : st_ok (hg_Store h) → SetWireInfo e h = (Ok e', h') →
  ∃ p id spi opid opi,
    e' = Event_SetWireInfo e spi opid opi id ∧
    RepertoireByPubKey (hg_Store h) !! Creator e = Some p ∧ ID p = Ok id ∧
    (if decide (SelfParent e = "") then spi = -1
     else ∃ sp, graph h !! SelfParent e = Some sp ∧ spi = Index sp) ∧
    (if decide (OtherParent e = "") then opid = 0 ∧ opi = -1
     else ∃ op q, graph h !! OtherParent e = Some op ∧ opi = Index op ∧
            RepertoireByPubKey (hg_Store h) !! Creator op = Some q ∧ ID q = Ok opid).
Proof.
  intros Hok. unfold SetWireInfo. intros (rep & h1 & [<- <-]%gets_Ok & H)%bind_Ok.
  destruct (RepertoireByPubKey (hg_Store h) !! Creator e) as [p|] eqn:Hp; [|by apply throw_Ok in H].
  apply bind_Ok in H as (spi & h1 & Hsp & H).
  assert (same (λ v, v) h h1 ∧ (if decide (SelfParent e = "") then spi = -1
     else ∃ sp, graph h !! SelfParent e = Some sp ∧ spi = Index sp)) as [H01 Hspi].
  { destruct (decide (SelfParent e = "")); [apply ret_Ok in Hsp as [<- <-]; done|].
    apply bind_Ok in Hsp as (sp & h2 & Hget & [<- <-]%ret_Ok).
    apply GetEvent_graph in Hget as [? Hg]; [|done]. split; [done|]. by exists (skeleton sp). }
  destruct (H01 Hok) as [Hok1 Hv1].
  apply bind_Ok in H as (opp & h2 & Hop & H).
  apply bind_Ok in H as (id & h3 & [Hid <-]%lift_Ok & [<- <-]%ret_Ok).
  exists p, id, spi, opp.1, opp.2. split; [done|]. split; [done|]. split; [done|]. split; [done|].
  assert (graph h1 = graph h) as Hg by (unfold graph; by rewrite Hv1).
  destruct (decide (OtherParent e = "")); [apply ret_Ok in Hop as [<- _]; done|].
  apply bind_Ok in Hop as (op & h3 & Hget & Hop). pose proof Hget as Hget'.
  apply GetEvent_graph in Hget as [H13 Hgop]; [|done]. destruct (H13 Hok1) as [Hok3 Hv3].
  apply bind_Ok in Hop as (rep & h4 & [<- <-]%gets_Ok & Hop).
  assert (RepertoireByPubKey (hg_Store h3) = RepertoireByPubKey (hg_Store h)) as Hrep.
  { rewrite !RepertoireByPubKey_law. unfold hv in *. by rewrite Hv3, Hv1. }
  rewrite Hrep in Hop.
  destruct (RepertoireByPubKey (hg_Store h) !! Creator op) as [q|] eqn:Hq; [|by apply throw_Ok in Hop].
  apply bind_Ok in Hop as (oid & h4 & [Hoid <-]%lift_Ok & [<- _]%ret_Ok).
  exists (skeleton op), q. rewrite <-Hg. done.
Qed.

Lemma PubKeyString_decode q b : PubKeyString q = EncodeToString b →
  DecodeFromString (PubKeyString q) = Ok (b, None).
Proof. intros ->. apply hex_roundtrip. Qed.

Lemma WE_BlockSignatures_ToWire e : own_signatures e →
  WE_BlockSignatures (ToWire e) (eb_Creator (ev_Body e)) = eb_BlockSignatures (ev_Body e).
Proof.
  unfold own_signatures, BlockSignatures, WE_BlockSignatures, ToWire, WireBlockSignatures.
  intros Hown. simpl. destruct (eb_BlockSignatures (ev_Body e)) as [sigs|]; [|done]. simpl in *.
  f_equal. rewrite <-list_fmap_compose. rewrite <-(list_fmap_id sigs) at 2.
  apply list_fmap_ext. intros i bs Hbs. simpl. rewrite <-(Hown bs).
  - by destruct bs.
  - by eapply list_elem_of_lookup_2.
Qed.

Lemma ReadWireInfo_SetWireInfo e h1 e1 h1' h2 :
  st_ok (hg_Store h1) → SetWireInfo e h1 = (Ok e1, h1') → receives h1 h2 e → own_signatures e →
  ∃ e2, ReadWireInfo (ToWire e1) h2 = (Ok e2, h2) ∧
    eb_public (ev_Body e2) = eb_public (ev_Body e) ∧ ev_Signature e2 = ev_Signature e.
Proof.
  intros Hok Hset (Hrep & Hpar & Hself) Hown.
  apply SetWireInfo_spec in Hset as (p & id & spi & opid & opi & -> & Hp & Hid & Hspi & Hopi); [|done].
  destruct (Hrep _ _ _ Hp Hid) as (q & Hq & Hqs).
  set (e1 := Event_SetWireInfo e spi opid opi id).
  assert ((if 0 <=? spi then
             readStoreR (λ s, ParticipantEvent s (PubKeyString q) spi)
           else ret "") h2 = (Ok (SelfParent e), h2)) as Hsp.
  { destruct (decide (SelfParent e = "")) as [Hd|Hd]; [subst spi; simpl; by rewrite Hd|]. destruct Hspi as (sp & Hsp & ->).
    destruct (Hpar _ _ (or_introl eq_refl) Hd Hsp) as [H0 Hpe].
    rewrite (proj2 (Z.leb_le _ _)) by done. rewrite Hqs, <-(Hself _ Hsp).
    unfold readStoreR, bind, gets, lift. simpl. by rewrite Hpe. }
  assert ((if 0 <=? opi then
             match RepertoireByID (hg_Store h2) !! opid with
             | None => throw (EMsg ("Participant " +:+ pretty opid +:+ " not found"))
             | Some otherParentCreator =>
                 op <- try (readStoreR (λ s, ParticipantEvent s
                         (PubKeyString otherParentCreator) opi)) ;;
                 match op with
                 | inl op => ret op
                 | inr _ => throw (EMsg "OtherParent not found")
                 end
             end
           else ret "") h2 = (Ok (OtherParent e), h2)) as Hop.
  { destruct (decide (OtherParent e = "")) as [Hd|Hd]; [destruct Hopi as [-> ->]; simpl; by rewrite Hd|].
    destruct Hopi as (op & oq & Hop & -> & Hoq & Hoid).
    destruct (Hrep _ _ _ Hoq Hoid) as (q' & Hq' & Hqs').
    destruct (Hpar _ _ (or_intror eq_refl) Hd Hop) as [H0 Hpe].
    rewrite (proj2 (Z.leb_le _ _)) by done. rewrite Hq', Hqs'.
    unfold readStoreR, bind, try, gets, lift. simpl. by rewrite Hpe. }
  unfold ReadWireInfo. unfold bind at 1, readStore, gets. cbn [fst snd].
  change (wb_CreatorID (we_Body (ToWire e1))) with id.
  change (wb_SelfParentIndex (we_Body (ToWire e1))) with spi.
  change (wb_OtherParentIndex (we_Body (ToWire e1))) with opi.
  change (wb_OtherParentCreatorID (we_Body (ToWire e1))) with opid.
  rewrite Hq. unfold bind at 1, lift. rewrite (PubKeyString_decode q _ Hqs). cbn [fst snd].
  unfold bind at 1. rewrite Hsp. unfold bind at 1. rewrite Hop.
  eexists. split; [done|]. split; [|done]. unfold eb_public. simpl.
  change (eb_Creator (ev_Body e)) with (eb_Creator (ev_Body e1)).
  change (WireBlockSignatures e1) with (wb_BlockSignatures (we_Body (ToWire e1))).
  rewrite (WE_BlockSignatures_ToWire e1) by done. simpl.
  unfold SelfParent, OtherParent. by destruct (eb_Parents (ev_Body e)).
Qed.
End wire.
