(* ===== verification/PipelineTheorems.v ===== *)
(** * The pipeline: theorems

    What inserting an event and running consensus does beyond the graph:
    decisions are final, blocks are handed to the application in order, the
    anchor block carries enough signatures; and what the core makes of it:
    self-events, peer-set changes, events read from the wire. *)
From S2P Require Export CoreTheorems.

(** ** The log is only an observer

    [logged cb] does what [cb] does: a run of the pipeline with the log is,
    without it, the run with [cb]. *)
Create HintDb erases.
Section erase.
Context {KP : Keys} {CP : Codec} {RO : RangeOrder}.
Context {St : Type} {STO : Store St} {X : Type}.
Abbreviation HX := (GoM error (Hashgraph St * X)).
Abbreviation HL := (GoM error (Hashgraph St * (X * list Block))).

Definition erases {A} (ml : HL A) (m : HX A) : Prop :=
  ∀ h x log, ∃ log',
    ml (h, (x, log)) = ((m (h, x)).1, ((m (h, x)).2.1, ((m (h, x)).2.2, log'))).

Lemma erases_onHG {A} (m : GoM error (Hashgraph St) A) : erases (onHG m) (onHG m).
Proof. intros h x log. unfold onHG, zoom. simpl. destruct (m h). eauto. Qed.
Lemma erases_lift {A} (r : res A) : erases (lift r) (lift r).
Proof. intros h x log. unfold lift. eauto. Qed.
Lemma erases_throw {A} e : erases (throw (A:=A) e) (throw e).
Proof. intros h x log. unfold throw. eauto. Qed.
Lemma erases_ret {A} (a : A) : erases (ret a) (ret a).
Proof. intros h x log. unfold ret. eauto. Qed.
Lemma erases_bind {A B} (ml : HL A) m (kl : A → HL B) k :
  erases ml m → (∀ a, erases (kl a) (k a)) → erases (bind ml kl) (bind m k).
Proof.
  intros Hm Hk h x log. unfold bind. destruct (Hm h x log) as [log1 ->].
  destruct (m (h, x)) as [[a|e| |] [h1 x1]]; simpl; eauto. apply Hk.
Qed.
Lemma erases_try {A} (ml : HL A) m : erases ml m → erases (try ml) (try m).
Proof.
  intros Hm h x log. unfold try. destruct (Hm h x log) as [log1 ->].
  destruct (m (h, x)) as [[a|e| |] [h1 x1]]; simpl; eauto.
Qed.

Context (cb : Block → HX unit) (fuel : nat).
Lemma erases_logged b : erases (logged cb b) (cb b).
Proof. intros h x log. rewrite logged_run. eauto. Qed.

Hint Resolve erases_onHG erases_lift erases_throw erases_ret erases_bind erases_try
  erases_logged : erases.
Lemma erases_process_round i : erases (process_round fuel (logged cb) i) (process_round fuel cb i).
Proof.
  unfold process_round. apply erases_bind; [auto with erases|]. intros _.
  apply erases_bind; [auto with erases|]. intros frame.
  apply erases_bind; [|auto with erases].
  destruct (0 <? zlen (fr_Events frame)); [|auto with erases].
  apply erases_bind; [auto with erases|]. intros _. apply erases_bind; [auto with erases|].
  intros last. apply erases_bind; [auto with erases|]. intros b.
  apply erases_bind; [|auto with erases]. destruct (_ || _); auto with erases.
Qed.
Lemma erases_process_rounds rs l :
  erases (process_rounds fuel (logged cb) l rs) (process_rounds fuel cb l rs).
Proof.
  revert l. induction rs as [|r rs IH]; intros l; simpl; [auto with erases|].
  destruct (negb _); [auto with erases|].
  apply erases_bind; [apply erases_try, erases_process_round|]. intros [u|err]; auto with erases.
Qed.
Lemma erases_pipeline e w :
  erases (InsertEventAndRunConsensus fuel (logged cb) e w) (InsertEventAndRunConsensus fuel cb e w).
Proof.
  unfold InsertEventAndRunConsensus, ProcessDecidedRounds.
  do 4 (apply erases_bind; [auto with erases|]; intros ?).
  apply erases_bind; [|auto with erases]. apply erases_bind; [auto with erases|]. intros rs.
  apply erases_bind; [apply erases_process_rounds|]. intros out.
  apply erases_bind; [auto with erases|]. intros _. destruct out.2; auto with erases.
Qed.
End erase.

(** ** Sequences of insertions

    Each event is inserted whatever became of the ones before it. *)
Section runs.
Context {KP : Keys} {CP : Codec} {RO : RangeOrder}.
Context {St : Type} {STO : Store St} {LAW : StoreLaws St}.
Context {X : Type} (cb : Block → GoM error (Hashgraph St * X) unit) (fuel : nat).

Definition insert_all {Y} (cb : Block → GoM error (Hashgraph St * Y) unit) (es : list (Event * bool))
    (s : Hashgraph St * Y) : Hashgraph St * Y :=
  foldl (λ s ew, (InsertEventAndRunConsensus fuel cb ew.1 ew.2 s).2) s es.

Lemma insert_all_erase es h x log :
  (insert_all (logged cb) es (h, (x, log))).1 = (insert_all cb es (h, x)).1 ∧
  (insert_all (logged cb) es (h, (x, log))).2.1 = (insert_all cb es (h, x)).2.
Proof.
  revert h x log. induction es as [|[e w] es IH]; intros h x log; simpl; [done|].
  destruct (erases_pipeline cb fuel e w h x log) as [log' ->]. simpl.
  destruct (InsertEventAndRunConsensus fuel cb e w (h, x)) as [r [h' x']]. apply IH.
Qed.

Lemma insert_all_commits es last0 log0 h x :
  cb_commits cb → cb_queue cb → commit_inv last0 h → queue_ok h →
  let out := insert_all (logged cb) es (h, (x, log0)) in
  queue_ok out.1 ∧
  ∃ new, out.2.2 = log0 ++ new ∧ commit_inv (last0 + zlen new) out.1 ∧
    (∀ i b, new !! i = Some b → Block_Index b = last0 + 1 + Z.of_nat i).
Proof.
  intros Hcb Hq. revert last0 log0 h x.
  induction es as [|[e w] es IH]; intros last0 log0 h x Hc Hok; simpl.
  { split; [done|]. exists []. rewrite app_nil_r, Z.add_0_r. split; [done|]. split; [done|].
    intros i b. by rewrite lookup_nil. }
  destruct (pipeline_commits fuel cb Hcb Hq last0 log0 e w h x Hc Hok)
    as (Hok1 & new1 & Hl1 & Hc1 & Hi1 & _).
  destruct (InsertEventAndRunConsensus fuel (logged cb) e w (h, (x, log0))) as [r [h1 [x1 log1]]].
  simpl in *. destruct (IH _ log1 h1 x1 Hc1 Hok1) as (Hok2 & new2 & Hl2 & Hc2 & Hi2).
  split; [done|]. exists (new1 ++ new2). split; [by rewrite Hl2, Hl1, app_assoc|].
  split. { unfold zlen in *. rewrite length_app, Nat2Z.inj_add, Z.add_assoc. exact Hc2. }
  intros i b [Hi|[Hle Hi]]%lookup_app_Some; [by apply Hi1|].
  rewrite (Hi2 _ _ Hi). unfold zlen. lia.
Qed.
End runs.

(** ** A node alone, for the witnesses

    A single validator, whose events each start a round: a block is committed
    with the fourth event. *)
Section toy_core.
Definition toy_alone : PeerSet := toy_peers [1].
Definition toy_validator : Validator := NewValidator (toy_key 1) "me".
Definition toy_selector : randomPeerSelector :=
  res_get (mkSelector toy_alone 0 ∅ [] 0) (newRandomPeerSelector toy_alone (Validator_ID toy_validator)).
Definition toy_cs : coreState :=
  mkCore toy_validator toy_alone toy_alone toy_alone toy_selector "" (-1) (-1) (-1) (-1) (-1) ∅
    [str_bytes "tx"] [] NewSigPool false ∅ ∅ 0 0.
Definition toy_h0 : Hashgraph InmemStore := (Init toy_alone (NewHashgraph (NewInmemStore 10))).2.
Fixpoint toy_chain (n : nat) : list Event :=
  match n with
  | O => []
  | S n =>
      let l := toy_chain n in
      l ++ [toy_event 1 (Z.of_nat n) (match last l with Some e => Hex e | None => "" end) ""
              [str_bytes (pretty n)]]
  end.
Abbreviation toy_commit := (commit (St:=InmemStore) (P:=unit) DummyCommitCallback).
Definition toy_run (n : nat) : Hashgraph InmemStore * (coreState * unit) :=
  insert_all 20 toy_commit ((λ e, (e, true)) <$> toy_chain n) (toy_h0, (toy_cs, tt)).
(** The states after three and after four events, and the fourth event. *)
Definition toy_core3 : Hashgraph InmemStore * (coreState * unit) := Eval vm_compute in toy_run 3.
Definition toy_core4 : Hashgraph InmemStore * (coreState * unit) := Eval vm_compute in toy_run 4.
Definition toy_next3 : Event := Eval vm_compute in List.last (toy_chain 4) toy_a0.
Lemma toy_core3_run : toy_run 3 = toy_core3.
Proof. vm_compute. reflexivity. Qed.
Lemma toy_core4_run : toy_run 4 = toy_core4.
Proof. vm_compute. reflexivity. Qed.

Lemma toy_h0_ok : commit_inv (-1) toy_h0 ∧ queue_ok toy_h0.
Proof.
  destruct (Init_inv 10 toy_alone) as ((_ & _ & _ & Hok) & _); [lia|].
  split; [|apply NewPendingRoundsCache_wf]. split; [apply Hok|].
  split; [|vm_compute; reflexivity].
  assert (v_frames (hv toy_h0) = ∅) as Hf by (vm_compute; reflexivity).
  intros i f. rewrite Hf, lookup_empty. discriminate.
Qed.
Lemma toy_run_ok n : ∃ last, commit_inv last (toy_run n).1 ∧ queue_ok (toy_run n).1.
Proof.
  destruct toy_h0_ok as [Hc Hq].
  destruct (insert_all_commits toy_commit 20 ((λ e, (e, true)) <$> toy_chain n) (-1) [] toy_h0
    (toy_cs, tt)) as (Hq' & new & _ & Hc' & _);
    [apply commit_cb_commits|apply commit_cb_queue|done|done|].
  destruct (insert_all_erase toy_commit 20 ((λ e, (e, true)) <$> toy_chain n) toy_h0 (toy_cs, tt) [])
    as [He _].
  rewrite He in Hq', Hc'. by exists (-1 + zlen new).
Qed.
Lemma toy_core3_ok : ∃ last, commit_inv last toy_core3.1 ∧ queue_ok toy_core3.1.
Proof. rewrite <-toy_core3_run. apply toy_run_ok. Qed.
Lemma toy_core4_ok : ∃ last, commit_inv last toy_core4.1 ∧ queue_ok toy_core4.1.
Proof. rewrite <-toy_core4_run. apply toy_run_ok. Qed.
Lemma toy_core3_last : commit_inv (-1) toy_core3.1.
Proof.
  assert (v_lastBlock (hv toy_core3.1) = -1) as Hl by (vm_compute; reflexivity).
  destruct toy_core3_ok as (last & (H1 & H2 & H3) & _). rewrite Hl in H3. subst last.
  split; [exact H1|]. split; [exact H2|exact Hl].
Qed.
Lemma toy_core3_stored : st_ok (hg_Store toy_core3.1).
Proof. destruct toy_core3_last as [H _]. exact H. Qed.
Lemma toy_core4_stored : st_ok (hg_Store toy_core4.1).
Proof. destruct toy_core4_ok as (last & (H & _) & _). exact H. Qed.
End toy_core.

(** ** Properties *)
Section theorems.
Context {KP : Keys} {CP : Codec} {RO : RangeOrder}.
Context {St : Type} {STO : Store St} {LAW : StoreLaws St}.
Context {P : Type} (app : Block → GoM error P CommitResponse) (clock : nat → Z) (fuel : nat).
Abbreviation core := (Hashgraph St * (coreState * P))%type.

Lemma insertEvent_hashgraph e w (s : core) :
  (insertEventAndRunConsensus app fuel e w s).2.1 =
  (InsertEventAndRunConsensus fuel (commit app) e w s).2.1.
Proof.
  unfold insertEventAndRunConsensus, bind, getsC, gets.
  destruct (InsertEventAndRunConsensus fuel (commit app) e w s) as [[e'|err| |] s']; [|done..].
  cbn [fst snd]. by destruct (decide _).
Qed.

(** C10: consensus decisions are final. Whatever event a node inserts, and
    whatever the outcome, every round recorded in the store afterwards is at
    least where it was before: a witness whose fame was decided keeps it, an
    event keeps its status of witness, the events received in a round are
    only appended to, and a decided round stays decided. This holds as long
    as the cache of rounds has not filled up, and whatever the application
    answers to the blocks committed on the way. *)
Theorem decisions_final e w (s : core) :
  st_ok (hg_Store s.1) →
  let h' := (insertEventAndRunConsensus app fuel e w s).2.1 in
  Z.of_nat (size (v_rounds (hv h'))) < v_size (hv h') →
  rounds_le (v_rounds (hv s.1)) (v_rounds (hv h')).
Proof.
  intros Hok h' Hroom. subst h'. rewrite insertEvent_hashgraph in *.
  destruct (pipeline_final fuel (commit app) e w s (commit_cb_rounds app) Hok) as (_ & _ & Hle).
  auto.
Qed.

(** C9: blocks are committed in a total order. The blocks that one insertion
    hands to the core's commit callback have consecutive indexes, following
    the last block of the store, and strictly increasing rounds; the queue of
    pending rounds stays sorted and the store's last block is the last one
    handed over, so that the same holds of the next insertion. Recording the
    blocks ([logged]) does not change the run. *)
Theorem commit_order last0 e w h (c : coreState * P) :
  commit_inv last0 h → queue_ok h →
  let out := InsertEventAndRunConsensus fuel (logged (commit app)) e w (h, (c, [])) in
  (∃ new, out.2.2.2 = new ∧ commit_inv (last0 + zlen new) out.2.1 ∧ queue_ok out.2.1 ∧
     (∀ i b, new !! i = Some b → Block_Index b = last0 + 1 + Z.of_nat i) ∧
     StronglySorted Z.lt (Block_RoundReceived <$> new)) ∧
  InsertEventAndRunConsensus fuel (commit app) e w (h, c) = (out.1, (out.2.1, out.2.2.1)).
Proof.
  intros Hc Hq out. split.
  - destruct (pipeline_commits fuel (commit app) (commit_cb_commits app) (commit_cb_queue app)
      last0 [] e w h c Hc Hq) as (Hq' & new & Hl & Hc' & Hi & Hs). exists new. done.
  - destruct (erases_pipeline (commit app) fuel e w h c []) as [log' Hrun]. subst out.
    rewrite Hrun. simpl. by destruct (InsertEventAndRunConsensus fuel (commit app) e w (h, c)) as [? []].
Qed.

(** C11: block indexes have neither gaps nor repetitions over a whole run:
    however many events are inserted, and whichever of the insertions fail,
    the blocks handed to the core's commit callback are numbered from the one
    after the initial last block, one by one. *)
Theorem blocks_numbered es last0 h (c : coreState * P) :
  commit_inv last0 h → queue_ok h →
  let out := insert_all fuel (logged (commit app)) es (h, (c, [])) in
  (∀ i b, out.2.2 !! i = Some b → Block_Index b = last0 + 1 + Z.of_nat i) ∧
  v_lastBlock (hv out.1) = last0 + zlen out.2.2 ∧
  insert_all fuel (commit app) es (h, c) = (out.1, out.2.1).
Proof.
  intros Hc Hq out.
  destruct (insert_all_commits (commit app) fuel es last0 [] h c (commit_cb_commits app)
    (commit_cb_queue app) Hc Hq) as (_ & new & Hl & (_ & _ & Hlast) & Hi).
  destruct (insert_all_erase (commit app) fuel es h c []) as [H1 H2].
  fold out in Hl, Hlast, H1, H2. simpl in Hl. rewrite Hl. split; [done|]. split; [done|].
  rewrite H1, H2. by destruct (insert_all fuel (commit app) es (h, c)).
Qed.

(** C12: the anchor block is endorsed. Processing the pool of signatures
    attaches to blocks only signatures that verify and belong to validators
    of the block's round, moves the anchor forward only, and leaves an anchor
    that has been signed by more than a third of the validators of its round
    (for a non-empty, well-formed peer-set). *)
Theorem anchor_endorsed (h : Hashgraph St) :
  sig_inv h →
  let h' := (ProcessSigPool h).2 in
  sig_inv h' ∧ anchor_le (AnchorBlock h) (AnchorBlock h') ∧
  ∀ a b ps, AnchorBlock h' = Some a → v_blocks (hv h') !! a = Some b →
    PSC_Get (v_psc (hv h')) (Block_RoundReceived b) = Ok ps → ps_wf ps → 1 ≤ PS_Len ps →
    dom (bl_Signatures b) ⊆ dom (ByPubKey ps) ∧
    PS_Len ps < 3 * Z.of_nat (size (dom (bl_Signatures b))).
Proof.
  intros Hinv h'. destruct (ProcessSigPool_sig_inv h Hinv) as (Hinv' & _ & Hle).
  split; [done|]. split; [done|]. intros a b ps Ha Hb Hps Hwf Hlen.
  destruct Hinv' as (_ & Hblocks & Hend). destruct (Hblocks a b Hb) as [_ Hbok].
  destruct (endorsed_third _ _ Hbok (Hend a b Ha Hb)) as (ps' & Hps' & Hthird).
  fold h' in Hps'. rewrite Hps in Hps'. injection Hps' as <-. by apply Hthird.
Qed.

(** C20: a self-event empties the pools. When [addSelfEvent] succeeds, either
    the node is not yet allowed to create events and nothing changes, or an
    event of the node is the new head, whose payload is exactly the pooled
    transactions, internal transactions and block signatures, whose parents
    are the previous head and the given event and whose index is the next
    one; the pools of transactions and internal transactions are then empty,
    and none of the event's signatures is left in the pool of signatures,
    which may hold those that [commit] added meanwhile. When it fails the
    pools of transactions are as before. What is added to the pools between
    the making of the event and the end of the call stays: [forget_pooled],
    the end of the call, removes exactly the payload. *)
Theorem self_event_payload op (s : core) :
  let out := addSelfEvent app clock fuel op s in
  let pool := selfBlockSignatures s.2.1 in
  match out.1 with
  | Ok _ =>
      (LastRound (hg_Store s.1) < acceptedRound s.2.1 ∧ out.2 = s) ∨
      (acceptedRound s.2.1 ≤ LastRound (hg_Store s.1) ∧
       transactionPool out.2.2.1 = [] ∧ internalTransactionPool out.2.2.1 = [] ∧
       (∀ bs, bs ∈ SP_Slice pool → SP_Items (selfBlockSignatures out.2.2.1) !! BS_Key bs = None) ∧
       ∃ e, self_event s.2.1 op e ∧ core_head out.2.2.1 = Hex e ∧ core_seq out.2.2.1 = Index e)
  | _ => same_pools s.2 out.2.2
  end ∧
  ∀ (h : Hashgraph St) c p txs itxs sigs,
    let grown := set_pools (transactionPool s.2.1 ++ txs) (internalTransactionPool s.2.1 ++ itxs) sigs c in
    forget_pooled (zlen (transactionPool s.2.1)) (zlen (internalTransactionPool s.2.1)) (SP_Slice pool)
      (h, (grown, p)) =
    (Ok tt, (h, (set_pools txs itxs (SP_RemoveSlice sigs (SP_Slice pool)) c, p) : coreState * P)).
Proof.
  split; [apply addSelfEvent_cases|]. intros h c p txs itxs sigs grown.
  by rewrite (forget_pooled_run s.2.1 (h, (grown, p)) txs itxs).
Qed.

(** C19: peer-set changes take effect six rounds after the block. When the
    receipts of a block of round [rr] are processed successfully, and all the
    peer-sets recorded before are of rounds below [rr + 6] (blocks come in the
    order of their rounds): if some join or leave was accepted, the node's
    validators become the previous ones with the accepted changes applied in
    order, the store answers them for every round from [rr + 6] on, and the
    peer-set of every earlier round is the one it was; when none was accepted
    neither the validators nor a recorded peer-set changes. *)
Theorem peer_change_effective rr receipts (s s' : core) :
  st_ok (hg_Store s.1) → psc_wf (v_psc (hv s.1)) → psc_rounds (v_psc (hv s.1)) ≠ [] →
  (∀ r, r ∈ psc_rounds (v_psc (hv s.1)) → r < rr + 6) →
  processAcceptedInternalTransactions rr receipts s = (Ok tt, s') →
  ∃ vals changed, apply_receipts (validators s.2.1) receipts = Ok (vals, changed) ∧
    (ps_wf (validators s.2.1) → ps_wf vals) ∧
    validators s'.2.1 = (if (changed : bool) then vals else validators s.2.1) ∧
    ∀ q, GetPeerSet (hg_Store s'.1) q =
      if (changed : bool) && (rr + 6 <=? q) then Ok vals else GetPeerSet (hg_Store s.1) q.
Proof.
  intros Hok Hwf Hne Hlt Hrun.
  destruct (processAccepted_spec rr receipts s s' Hrun) as (vals & changed & Hap & Hch).
  exists vals, changed. split; [done|]. split; [intros Hv; by eapply apply_receipts_wf|].
  destruct changed; [|by destruct Hch as [-> [-> _]]].
  destruct Hch as (h1 & Hset & -> & Hv & _). split; [done|]. intros q. clear Hv. apply zoom_Ok in Hset as (st & Hset & ->). simpl.
  destruct (SetPeerSet_law (rr + 6) vals (hg_Store s.1) Hok) as (_ & _ & Hv).
  rewrite Hset in Hv. simpl in Hv. rewrite !GetPeerSet_law, Hv.
  by apply PSC_Set_later.
Qed.

(** C21: an event survives the wire. The event that a node reads from the wire
    form that the sender computed has the public body and the signature of
    the event sent, if the receiver knows the participants of the sender
    under the same identifiers and still has the event's parents in its
    windows, and the event's block signatures are its creator's. *)
Theorem wire_roundtrip e (h1 h1' h2 : Hashgraph St) e1 :
  st_ok (hg_Store h1) → SetWireInfo e h1 = (Ok e1, h1') → receives h1 h2 e → own_signatures e →
  ∃ e2, ReadWireInfo (ToWire e1) h2 = (Ok e2, h2) ∧
    eb_public (ev_Body e2) = eb_public (ev_Body e) ∧ ev_Signature e2 = ev_Signature e ∧
    Hex e2 = Hex e.
Proof.
  intros Hok Hset Hrec Hown.
  destruct (ReadWireInfo_SetWireInfo e h1 e1 h1' h2 Hok Hset Hrec Hown) as (e2 & Hr & Hp & Hs).
  exists e2. split; [done|]. split; [done|]. split; [done|]. by apply public_payload.
Qed.
End theorems.

(** ** Witnesses *)
Section witnesses.
Abbreviation commit_toy := (commit (St:=InmemStore) (P:=unit) DummyCommitCallback).

(** With three events the first round is decided; the fourth decides the
    next one and keeps the first. *)
Lemma decisions_final_witness :
  rounds_le (v_rounds (hv toy_core3.1))
    (v_rounds (hv (insertEventAndRunConsensus DummyCommitCallback 20 toy_next3 true toy_core3).2.1)) ∧
  (ri_decided <$> v_rounds (hv toy_core3.1) !! 0) = Some true.
Proof.
  split; [|vm_compute; reflexivity].
  apply (decisions_final DummyCommitCallback 20 toy_next3 true toy_core3 toy_core3_stored).
  vm_compute. reflexivity.
Defined.

(** The fourth event commits the first block. *)
Lemma commit_order_witness :
  ∃ new, new = (InsertEventAndRunConsensus 20 (logged commit_toy) toy_next3 true
                  (toy_core3.1, (toy_core3.2, []))).2.2.2 ∧
    (∀ i b, new !! i = Some b → Block_Index b = Z.of_nat i) ∧ length new = 1%nat.
Proof.
  assert (length (InsertEventAndRunConsensus 20 (logged commit_toy) toy_next3 true
    (toy_core3.1, (toy_core3.2, []))).2.2.2 = 1%nat) as Hlen by (vm_compute; reflexivity).
  destruct toy_core3_ok as (_ & _ & Hq).
  destruct (commit_order DummyCommitCallback 20 (-1) toy_next3 true toy_core3.1 toy_core3.2
    toy_core3_last Hq) as ((new & Hnew & _ & _ & Hi & _) & _).
  exists new. split; [symmetry; exact Hnew|]. split; [|rewrite <-Hnew; exact Hlen].
  intros i b Hb. rewrite (Hi i b Hb). lia.
Defined.

Lemma blocks_numbered_witness :
  let out := insert_all 20 (logged commit_toy) ((λ e, (e, true)) <$> toy_chain 5)
               (toy_h0, ((toy_cs, tt), [])) in
  (∀ i b, out.2.2 !! i = Some b → Block_Index b = Z.of_nat i) ∧ length out.2.2 = 2%nat.
Proof.
  intros out. split; [|vm_compute; reflexivity].
  destruct toy_h0_ok as [Hc Hq].
  destruct (blocks_numbered DummyCommitCallback 20 ((λ e, (e, true)) <$> toy_chain 5) (-1) toy_h0
    (toy_cs, tt) Hc Hq) as [Hi _].
  intros i b Hb. rewrite (Hi i b Hb). lia.
Defined.

(** A hashgraph with one block, signed by its only validator, and that
    signature in the pool. *)
Definition toy_signed : Hashgraph InmemStore :=
  set_PendingSignatures (selfBlockSignatures toy_core4.2.1) toy_core4.1.
Definition toy_block : Block := default (mkBlock (mkBlockBody 0 0 0 [] [] [] [] [] []) ∅)
  (v_blocks (hv toy_signed) !! 0).
Definition toy_sig : string := default "" (bl_Signatures toy_block !! toy_pubhex 1).

Lemma toy_block_ok : block_ok (v_psc (hv toy_signed)) toy_block.
Proof.
  assert (bl_Signatures toy_block = {[toy_pubhex 1 := toy_sig]}) as Hs by (vm_compute; reflexivity).
  assert (PSC_Get (v_psc (hv toy_signed)) (Block_RoundReceived toy_block) = Ok toy_alone) as Hp
    by (vm_compute; reflexivity).
  assert (is_Some (ByPubKey toy_alone !! toy_pubhex 1)) as Hk by (eexists; vm_compute; reflexivity).
  assert (Block_Verify toy_block (mkBS (toy_pub 1) 0 toy_sig) = Ok true) as Hv
    by (vm_compute; reflexivity).
  intros k sig. rewrite Hs, lookup_singleton_Some. intros [<- <-].
  exists toy_alone, (mkBS (toy_pub 1) 0 toy_sig).
  split; [exact Hp|]. split; [exact Hk|]. split; [vm_compute; reflexivity|].
  split; [vm_compute; reflexivity|]. exact Hv.
Qed.
Lemma pending_stored (h : Hashgraph InmemStore) p :
  st_ok (hg_Store h) → st_ok (hg_Store (set_PendingSignatures p h)).
Proof. done. Qed.
Lemma toy_signed_inv : sig_inv toy_signed.
Proof.
  assert (v_blocks (hv toy_signed) = {[0 := toy_block]}) as Hb by (vm_compute; reflexivity).
  assert (PSC_Get (v_psc (hv toy_signed)) (Block_RoundReceived toy_block) = Ok toy_alone) as Hp
    by (vm_compute; reflexivity).
  assert (TrustCount toy_alone < Z.of_nat (size (bl_Signatures toy_block))) as Ht
    by (vm_compute; reflexivity).
  split; [exact (pending_stored _ _ toy_core4_stored)|]. rewrite Hb. split.
  - intros i b. rewrite lookup_singleton_Some. intros [<- <-].
    split; [vm_compute; reflexivity|apply toy_block_ok].
  - intros a b _. rewrite lookup_singleton_Some. intros [_ <-]. exists toy_alone. by split.
Qed.
Lemma anchor_endorsed_witness :
  sig_inv (ProcessSigPool toy_signed).2 ∧ AnchorBlock toy_signed = Some 0 ∧
  anchor_le (Some 0) (AnchorBlock (ProcessSigPool toy_signed).2).
Proof.
  assert (AnchorBlock toy_signed = Some 0) as Ha by (vm_compute; reflexivity).
  destruct (anchor_endorsed toy_signed toy_signed_inv) as (Hinv & Hle & _).
  rewrite Ha in Hle. split; [exact Hinv|]. split; [exact Ha|exact Hle].
Defined.

(** A second peer joins with a block of round 1. *)
Definition toy_join : InternalTransactionReceipt :=
  mkReceipt (NewInternalTransactionJoin (toy_peer 2)) true.
Lemma peer_change_effective_witness :
  let s := (toy_h0, (toy_cs, tt)) in
  let s' := (processAcceptedInternalTransactions 1 [toy_join] s).2 in
  ∃ vals changed, apply_receipts (validators toy_cs) [toy_join] = Ok (vals, changed) ∧
    (ps_wf (validators toy_cs) → ps_wf vals) ∧
    validators s'.2.1 = (if (changed : bool) then vals else validators toy_cs) ∧
    ∀ q, GetPeerSet (hg_Store s'.1) q =
      if (changed : bool) && (1 + 6 <=? q) then Ok vals else GetPeerSet (hg_Store toy_h0) q.
Proof.
  intros s s'.
  assert (v_psc (hv toy_h0) = (PSC_Set 0 toy_alone NewPeerSetCache).2) as Hpsc by (vm_compute; reflexivity).
  assert (psc_rounds (v_psc (hv toy_h0)) = [0]) as Hrs by (vm_compute; reflexivity).
  assert ((processAcceptedInternalTransactions 1 [toy_join] s).1 = Ok tt) as Hrun
    by (vm_compute; reflexivity).
  apply (peer_change_effective 1 [toy_join] s s').
  - apply toy_h0_ok.
  - change (psc_wf (v_psc (hv toy_h0))). rewrite Hpsc. apply PSC_Set_wf, NewPeerSetCache_wf.
  - change (psc_rounds (v_psc (hv toy_h0)) ≠ []). rewrite Hrs. discriminate.
  - change (∀ r, r ∈ psc_rounds (v_psc (hv toy_h0)) → r < 1 + 6). rewrite Hrs.
    intros r ->%list_elem_of_singleton. lia.
  - rewrite <-Hrun. subst s'. by destruct (processAcceptedInternalTransactions 1 [toy_join] s).
Defined.

(** The next event of the first participant, sent to a node in the same
    state. *)
Definition toy_h : Hashgraph InmemStore := toy_hg.1.
Definition known_as (rep : gmap Z Peer) (k : string) (p : Peer) : Prop :=
  match ID p with
  | Ok id => (PubKeyString <$> rep !! id) = Some k
  | _ => True
  end.
Instance known_as_dec rep k p : Decision (known_as rep k p).
Proof. unfold known_as. destruct (ID p); apply _. Defined.

Definition parent_windowb (h : Hashgraph InmemStore) (x : string) : bool :=
  match graph h !! x with
  | Some ex => (0 <=? Index ex) &&
      match ParticipantEvent (hg_Store h) (Creator ex) (Index ex) with
      | Ok y => bool_decide (y = x)
      | _ => false
      end
  | None => false
  end.
Lemma receives_check (h : Hashgraph InmemStore) e :
  map_Forall (known_as (RepertoireByID (hg_Store h))) (RepertoireByPubKey (hg_Store h)) →
  parent_windowb h (SelfParent e) = true → parent_windowb h (OtherParent e) = true →
  (Creator <$> graph h !! SelfParent e) = Some (Creator e) → receives h h e.
Proof.
  intros Hrep Hsp Hop Hself. split; [|split].
  - intros k p id Hk Hid. specialize (Hrep k p Hk). unfold known_as in Hrep. rewrite Hid in Hrep.
    destruct (RepertoireByID (hg_Store h) !! id) as [q|]; [|done].
    exists q. split; [done|]. by injection Hrep.
  - intros x ex Hx _ Hg. assert (parent_windowb h x = true) as Hw by (by destruct Hx as [-> | ->]).
    unfold parent_windowb in Hw. rewrite Hg in Hw. apply andb_true_iff in Hw as [H0 H1].
    split; [lia|]. destruct (ParticipantEvent (hg_Store h) (Creator ex) (Index ex)) as [y| | |];
      [|done..]. apply bool_decide_eq_true in H1. by rewrite H1.
  - intros ex Hg. rewrite Hg in Hself. simpl in Hself. congruence.
Qed.
Lemma toy_receives : receives toy_h toy_h toy_a2.
Proof.
  apply receives_check; [apply (bool_decide_unpack _); vm_compute; exact I|vm_compute; reflexivity..].
Qed.

Lemma own_none e : BlockSignatures e = [] → own_signatures e.
Proof. intros Hb bs. rewrite Hb. set_solver. Qed.
Lemma toy_own : own_signatures toy_a2.
Proof. apply own_none. vm_compute. reflexivity. Qed.

Lemma wire_roundtrip_witness :
  ∃ e1, (SetWireInfo toy_a2 toy_h).1 = Ok e1 ∧
  ∃ e2, ReadWireInfo (ToWire e1) toy_h = (Ok e2, toy_h) ∧
    eb_public (ev_Body e2) = eb_public (ev_Body toy_a2) ∧ ev_Signature e2 = ev_Signature toy_a2 ∧
    Hex e2 = Hex toy_a2.
Proof.
  assert (is_okb (SetWireInfo toy_a2 toy_h).1 = true) as Hok by (vm_compute; reflexivity).
  assert (st_ok (hg_Store toy_h)) as Hst by (destruct toy_hg_inv as (_ & _ & _ & Hs); apply Hs).
  destruct (SetWireInfo toy_a2 toy_h) as [r h1] eqn:Hr.
  destruct r as [e1|err| |]; [|discriminate..]. exists e1. split; [reflexivity|].
  exact (wire_roundtrip toy_a2 toy_h h1 toy_h e1 Hst Hr toy_receives toy_own).
Defined.
End witnesses.
