(* ===== verification/NodeTheorems.v ===== *)
(** * The node: theorems

    What a remote request can and cannot change, what an answer to a
    [SyncRequest] contains, how the states of the node follow each other, and
    which peer is caught up with. *)
From S2P Require Export Node PipelineTheorems.

(** ** What a call on the node leaves alone *)
Section confined.
Context {KP : Keys} {CP : Codec} {RO : RangeOrder}.
Context {St : Type} {STO : Store St} {LAW : StoreLaws St}.
Context {P : Type} {APP : AppProxy P} {TR : Transport} (clock : nat → Z) (fuel : nat).
Implicit Types (n : node St P).

(** Nothing but the core has changed: not the state, not the configuration,
    not the timer, not the channels. *)
Definition confined n n' : Prop := n' = set_core (n_core n') n.
#[export] Instance confined_preorder : PreOrder confined.
Proof.
  split; [by intros []|]. intros [] [] [] H1 H2. unfold confined, set_core in *. simpl in *.
  congruence.
Qed.

(** Nothing has changed but what the caches of the store hold ready. *)
Definition idle n n' : Prop :=
  confined n n' ∧ (n_core n').2 = (n_core n).2 ∧
  same (λ v, v) (n_core n).1 (n_core n').1.
#[export] Instance idle_preorder : PreOrder idle.
Proof.
  split; [intros n; by repeat split; [destruct n|]|].
  intros n1 n2 n3 (H1 & H2 & H3) (H1' & H2' & H3'). split; [by etrans|].
  split; [congruence|]. by etrans.
Qed.

Lemma confined_onCore {A} (m : GoM error (Hashgraph St * (coreState * P)) A) :
  respects confined (onCore m).
Proof. intros n. unfold onCore, zoom. by destruct (m (n_core n)). Qed.
Hint Resolve confined_onCore : respects.

Lemma confined_processRPC cmd : respects confined (processRPC clock fuel cmd).
Proof.
  unfold processRPC, processSyncRequest, processEagerSyncRequest, processFastForwardRequest,
    processJoinRequest, node_sync, selfID, conf, onAppN.
  respects_go; auto with respects typeclass_instances.
Qed.

Definition idleC (x x' : Hashgraph St * (coreState * P)) : Prop :=
  same (λ v, v) x.1 x'.1 ∧ x'.2 = x.2.
#[export] Instance idleC_preorder : PreOrder idleC.
Proof.
  split; [by intros x|]. intros x y z [? ?] [? ?]. split; [by etrans|congruence].
Qed.
Lemma idleC_onH {A} (m : GoM error (Hashgraph St) A) :
  untouched (λ v, v) m → respects idleC (onH m).
Proof.
  intros Hm x. specialize (Hm x.1). unfold onH, onHG, zoom. by destruct (m x.1).
Qed.
Lemma idle_onCore {A} (m : GoM error (Hashgraph St * (coreState * P)) A) :
  respects idleC m → respects idle (onCore m).
Proof.
  intros Hm n. specialize (Hm (n_core n)). unfold onCore, zoom.
  destruct (m (n_core n)) as [r x]. destruct Hm. by split.
Qed.
Hint Resolve idleC_onH : respects.

Lemma idle_processSyncRequest r : respects idle (processSyncRequest r).
Proof.
  assert (respects idle (onCore (P:=P) (eventDiff (sq_Known r)))) as Hdiff.
  { apply idle_onCore. unfold eventDiff, knownEvents. respects_go;
      auto with respects typeclass_instances. }
  assert (respects idle (onCore (P:=P) (knownEvents (St:=St)))) as Hknown.
  { apply idle_onCore. unfold knownEvents. auto with respects typeclass_instances. }
  assert (respects idle (selfID (St:=St) (P:=P))) as Hid.
  { apply idle_onCore, respects_gets, _. }
  unfold processSyncRequest, conf. respects_go; auto with respects typeclass_instances.
Qed.
End confined.

Section node_theorems.
Context {KP : Keys} {CP : Codec} {RO : RangeOrder}.
Context {St : Type} {STO : Store St} {LAW : StoreLaws St}.
Context {P : Type} {APP : AppProxy P} {TR : Transport}.
Implicit Types (n : node St P).

Definition refused : (answer + joinPromise) := inl (RNil, Some (EMsg "Not in Babbling state")).

Lemma processRPC_refused clock fuel cmd n :
  accepts (nstate n) cmd = false → processRPC clock fuel cmd n = (Ok refused, n).
Proof. intros Hacc. unfold processRPC, bind, gets. by rewrite Hacc. Qed.

(** ** Transitions *)

(** The application's handler of state changes returns, with or without an
    error. *)
Definition handler_returns : Prop :=
  ∀ s p, ∃ r, (OnStateChanged s p).1 = r ∧ r ≠ Panic ∧ r ≠ OutOfFuel.

Lemma transition_state s n :
  nstate (transition s n).2 = s ∧
  (handler_returns → (transition s n).1 = Ok tt) ∧
  ∃ x, (transition s n).2 = set_core x (set_manager (SetState s (n_manager n)) n).
Proof.
  unfold transition, bind, modify, try, onAppN, onCore, onApp, zoom. simpl.
  destruct (OnStateChanged s (n_core n).2.2) as [r p] eqn:Hr.
  assert (handler_returns → r ≠ Panic ∧ r ≠ OutOfFuel) as Hh.
  { intros H. destruct (H s (n_core n).2.2) as (? & <- & ?). by rewrite Hr in *. }
  unfold nstate. destruct r; simpl; (split; [done|]); (split; [|by eexists]);
    intros H; destruct (Hh H); done.
Qed.

Lemma Node_Shutdown_done n : nstate n = Shutdown → Node_Shutdown n = (Ok tt, n).
Proof. intros Hs. unfold Node_Shutdown, bind, gets. by rewrite Hs. Qed.

Lemma Suspend_done n : nstate n = Shutdown ∨ nstate n = Suspended → Suspend n = (Ok tt, n).
Proof.
  intros Hs. unfold Suspend, bind, gets. destruct (decide _) as [|Hn]; [done|]. tauto.
Qed.

Lemma Node_Shutdown_spec n : handler_returns → nstate n ≠ Shutdown →
  ∃ r n', Node_Shutdown n = (r, n') ∧ nstate n' = Shutdown ∧ n_shutdownClosed n' = true ∧
    if n_shutdownClosed n then r = Panic
    else r = Ok tt ∧ n_transClosed n' = true ∧ n_storeClosed n' = true.
Proof.
  intros Hh Hs. destruct (transition_state Shutdown n) as (Ht & Hok & x & Hx).
  unfold Node_Shutdown. unfold bind at 1, gets at 1. rewrite decide_False by done.
  unfold bind at 1. destruct (transition Shutdown n) as [r n1]. simpl in *.
  rewrite (Hok Hh). subst n1. unfold bind, gets. simpl. destruct (n_shutdownClosed n) eqn:Hc; simpl; eauto 10.
Qed.

(** ** Suspension *)
Definition must_suspend n : Prop :=
  let c := (n_core n).2.1 in
  n_initialUndetermined n + conf_SuspendLimit (n_conf n) * PS_Len (validators c) <
    zlen (UndeterminedEvents (n_core n).1) ∨
  ∃ lcr, LastConsensusRound (n_core n).1 = Some lcr ∧ 0 < removedRound c ∧
    acceptedRound c < removedRound c ∧ removedRound c ≤ lcr.

Lemma checkSuspend_spec n :
  (must_suspend n ∧ checkSuspend n = Suspend n) ∨ (¬ must_suspend n ∧ checkSuspend n = (Ok tt, n)).
Proof.
  unfold checkSuspend, must_suspend. unfold bind, get. cbv zeta.
  destruct (_ <? _) eqn:Hmany; simpl; [left; split; [left; lia|done]|].
  destruct (LastConsensusRound (n_core n).1) as [lcr|] eqn:Hl; simpl;
    [|right; split; [intros [?|(? & [=] & _)]; lia|done]].
  destruct (0 <? removedRound _) eqn:H1; simpl;
    [|right; split; [intros [?|(? & [= <-] & ?)]; lia|done]].
  destruct (acceptedRound _ <? removedRound _) eqn:H2; simpl;
    [|right; split; [intros [?|(? & [= <-] & ?)]; lia|done]].
  destruct (removedRound _ <=? lcr) eqn:H3; simpl;
    [|right; split; [intros [?|(? & [= <-] & ?)]; lia|done]].
  left. split; [right; exists lcr; split; [done|lia]|done].
Qed.

Lemma Suspend_state n : handler_returns → n_suspendClosed n = false →
  ∃ n', Suspend n = (Ok tt, n') ∧
    nstate n' = (if decide (nstate n = Shutdown) then Shutdown else Suspended).
Proof.
  intros Hh Hc. destruct (decide (nstate n = Shutdown)) as [Hs|Hs].
  { exists n. split; [apply Suspend_done; tauto|done]. }
  destruct (decide (nstate n = Suspended)) as [Hp|Hp].
  { exists n. split; [apply Suspend_done; tauto|done]. }
  destruct (transition_state Suspended n) as (Ht & Hok & x & Hx).
  unfold Suspend. unfold bind at 1, gets at 1. rewrite decide_False by tauto.
  unfold bind at 1. destruct (transition Suspended n) as [r n1]. simpl in *.
  rewrite (Hok Hh). subst n1. unfold bind, gets. simpl. rewrite Hc. simpl. eauto.
Qed.

(** ** Gossip

    [eventDiff] answers events of the store, in topological order. *)
Definition stored_all (v : StoreView) (es : list Event) : Prop :=
  ∀ e, e ∈ es → ∃ k, v_events v !! k = Some e.

Abbreviation unchanged v := (λ x : Hashgraph St * (coreState * P),
  st_ok (hg_Store x.1) ∧ hv x.1 = v).

Lemma hoare_read v {A} (m : GoM error (Hashgraph St) A) : untouched (λ v, v) m →
  hoare (unchanged v) (onH m) (λ _, unchanged v) (unchanged v).
Proof.
  intros Hm [h x] [Hok Hv]. specialize (Hm h Hok). unfold onH, onHG, zoom. simpl in *.
  destruct (m h) as [r h']. simpl in *. destruct Hm as [? Hv'].
  destruct r; split; simpl; congruence.
Qed.
Lemma hoare_read_event v k :
  hoare (unchanged v) (onH (onStore (GetEvent k)))
    (λ e x, unchanged v x ∧ v_events v !! k = Some e) (unchanged v).
Proof.
  intros [h x] [Hok Hv]. unfold onH, onHG, onStore, zoom, hv in *. simpl in *.
  destruct (GetEvent_law k (hg_Store h) Hok) as (Hok' & Hv' & Hf).
  destruct (GetEvent k (hg_Store h)) as [r s]. simpl in *. rewrite Hv in *.
  destruct (v_events v !! k) as [e|]; simpl in Hf;
    [subst r; by repeat split|destruct Hf as (? & -> & _); by split].
Qed.

Lemma stored_snoc v es e k : stored_all v es → v_events v !! k = Some e → stored_all v (es ++ [e]).
Proof. intros H He e' [?| ->%list_elem_of_singleton]%elem_of_app; eauto. Qed.

Lemma eventDiff_sound known (x : Hashgraph St * (coreState * P)) :
  st_ok (hg_Store x.1) → hoare (λ y, y = x) (eventDiff known)
    (λ diff _, Sorted ev_topo_le diff ∧ stored_all (hv x.1) diff) (λ _, True).
Proof.
  intros Hok. set (v := hv x.1).
  apply (hoare_conseq _ (unchanged v) _ (λ diff _, Sorted ev_topo_le diff ∧ stored_all v diff)
    _ (unchanged v)); [|by intros ? -> |done..].
  unfold eventDiff, knownEvents.
  eapply hoare_bind; [apply hoare_read; auto with respects typeclass_instances|].
  intros mine. eapply hoare_bind with (Q := λ es y, unchanged v y ∧ stored_all v es).
  { apply (hoare_conseq _ (λ y, unchanged v y ∧ stored_all v []) _
      (λ es y, unchanged v y ∧ stored_all v es) _ (unchanged v));
      [|intros; split; [done|by intros ? ?%not_elem_of_nil]|done..].
    apply (hoare_foldM (λ es y, unchanged v y ∧ stored_all v es)).
    intros es [id ct] _. apply hoare_pure. intros Hes.
    eapply hoare_bind; [apply hoare_read; auto with respects typeclass_instances|].
    intros rep. destruct (rep !! id) as [peer|]; [|by apply hoare_ret].
    eapply hoare_bind; [apply hoare_read; auto with respects typeclass_instances|].
    intros hs. eapply hoare_bind with (Q := λ es y, unchanged v y ∧ stored_all v es).
    - apply (hoare_conseq _ (λ y, unchanged v y ∧ stored_all v []) _
        (λ es y, unchanged v y ∧ stored_all v es) _ (unchanged v));
        [|intros; split; [done|by intros ? ?%not_elem_of_nil]|done..].
      apply (hoare_foldM (λ es y, unchanged v y ∧ stored_all v es)).
      intros evs h _. apply hoare_pure. intros Hevs.
      eapply hoare_bind; [apply hoare_read_event|]. intros e. apply hoare_pure. intros He.
      apply hoare_ret. intros y Hy. split; [done|]. by eapply stored_snoc.
    - intros evs. apply hoare_pure. intros Hevs. apply hoare_ret. intros y Hy. split; [done|].
      intros e [?|?]%elem_of_app; eauto. }
  intros es. apply hoare_pure. intros Hes. apply hoare_ret. intros _ _. split.
  - apply Sorted_merge_sort. intros a b. unfold ev_topo_le. lia.
  - intros e He. apply Hes. by rewrite <-(merge_sort_Permutation ev_topo_le).
Qed.

(** ** Catching up *)
Section best.
Context (req : FastForwardRequest) (ps : list Peer).
Definition ffr_of (p : Peer) : result error FastForwardResponse := trans_FastForward (NetAddr p) req.
Definition ff_best (acc : option FastForwardResponse * Z) (l : list Peer) : Prop :=
  match acc.1 with
  | Some r => acc.2 = Block_Index (ffr_Block r) ∧ 0 < acc.2 ∧ ∃ p, p ∈ l ∧ ffr_of p = Ok r
  | None => acc.2 = 0
  end ∧ ∀ p r, p ∈ l → ffr_of p = Ok r → Block_Index (ffr_Block r) ≤ acc.2.

Lemma ff_best_skip acc seen p :
  ff_best acc seen → (∀ r, ffr_of p = Ok r → Block_Index (ffr_Block r) ≤ acc.2) →
  ff_best acc (seen ++ [p]).
Proof.
  intros [Hb Hm] Hp. split.
  - destruct acc.1 as [rb|]; [|done]. destruct Hb as (? & ? & pb & ? & ?).
    split; [done|]. split; [done|]. exists pb. set_solver.
  - intros p' r' [Hp'| ->%list_elem_of_singleton]%elem_of_app Hr'; eauto.
Qed.
Lemma ff_best_take acc seen p r :
  ff_best acc seen → ffr_of p = Ok r → acc.2 < Block_Index (ffr_Block r) →
  ff_best (Some r, Block_Index (ffr_Block r)) (seen ++ [p]).
Proof.
  intros [Hb Hm] Hr Hlt. split; simpl.
  - split; [done|]. split; [destruct acc.1; lia|]. exists p. set_solver.
  - intros p' r' [Hp'| ->%list_elem_of_singleton]%elem_of_app Hr'.
    + specialize (Hm p' r' Hp' Hr'). lia.
    + rewrite Hr in Hr'. simplify_eq. lia.
Qed.
End best.

Lemma requestFastForward_pure target n :
  requestFastForward target n =
  (trans_FastForward target (mkFFRequest (Validator_ID (validator (n_core n).2.1))), n).
Proof. unfold requestFastForward, selfID, onCore, zoom, bind, getsC, gets, lift. by destruct n. Qed.

(** Each answer returns, with or without an error. *)
Definition requests_return (req : FastForwardRequest) (ps : list Peer) : Prop :=
  ∀ p, p ∈ ps → ffr_of req p ≠ Panic ∧ ffr_of req p ≠ OutOfFuel.

Lemma getBest_spec n :
  let req := mkFFRequest (Validator_ID (validator (n_core n).2.1)) in
  let ps := Peers (rps_peers (peerSelector (n_core n).2.1)) in
  requests_return req ps →
  ∃ best m, getBestFastForwardResponse n = (Ok best, n) ∧ ff_best req (best, m) ps.
Proof.
  intros req ps Hret. unfold getBestFastForwardResponse.
  set (step := λ '(bestResponse, maxBlock) p, _ : GoM error (node St P) _).
  assert (∀ l acc seen, (∀ p, p ∈ l → p ∈ ps) → ff_best req acc seen →
    ∃ acc', foldM step acc l n = (Ok acc', n) ∧ ff_best req acc' (seen ++ l)) as Hloop.
  { intros l. induction l as [|p l IH]; intros acc seen Hin Hacc.
    { exists acc. split; [done|]. by rewrite app_nil_r. }
    destruct (Hret p (Hin p ltac:(set_solver))) as [Hp Hf].
    assert (∃ acc1, step acc p n = (Ok acc1, n) ∧ ff_best req acc1 (seen ++ [p]))
      as (acc1 & Hs1 & Hb1).
    { destruct acc as [best m]. unfold step, bind, try. rewrite requestFastForward_pure.
      fold req. fold (ffr_of req p).
      destruct (ffr_of req p) as [r|err| |] eqn:Hr; [|clear Hp Hf|done|done].
      - eexists. split; [done|]. destruct (m <? Block_Index (ffr_Block r)) eqn:Hlt.
        + apply (ff_best_take req (best, m)); [done..|simpl; lia].
        + apply ff_best_skip; [done|]. intros r' Hr'. rewrite Hr in Hr'. simplify_eq/=. lia.
      - eexists. split; [done|]. apply ff_best_skip; [done|]. intros r' Hr'. congruence. }
    destruct (IH acc1 (seen ++ [p]) ltac:(set_solver) Hb1) as (acc' & Hs' & Hb').
    exists acc'. simpl. unfold bind. rewrite Hs1. split; [done|].
    by rewrite <-app_assoc in Hb'. }
  destruct (Hloop ps (None, 0) [] ltac:(done)) as ([best m] & Hs & Hb).
  { split; [done|]. set_solver. }
  exists best, m. split; [|done].
  unfold bind at 1, onCore, zoom, getsC, gets. simpl. 
  assert (set_core (n_core n) n = n) as -> by (by destruct n).
  fold ps. unfold bind. rewrite Hs. done.
Qed.
End node_theorems.

(** ** Properties *)
Section theorems.
Context {KP : Keys} {CP : Codec} {RO : RangeOrder}.
Context {St : Type} {STO : Store St} {LAW : StoreLaws St}.
Context {P : Type} {APP : AppProxy P} {TR : Transport}.
Implicit Types (n : node St P).

(** C23: what a remote request can change. Whatever the request, it changes
    neither the state of the node nor its configuration, timer or channels,
    only the core. A node that is not babbling answers an error and is left
    exactly as it was, except that a suspended node answers sync requests,
    and that changes neither the contents of the store, nor the core, nor the
    application. *)
Theorem rpc_confined clock fuel cmd n :
  let out := processRPC clock fuel cmd n in
  confined n out.2 ∧
  (nstate n = Babbling ∨
   out = (Ok refused, n) ∨
   nstate n = Suspended ∧ idle n out.2).
Proof.
  intros out. split; [apply confined_processRPC|].
  destruct (accepts (nstate n) cmd) eqn:Hacc.
  - destruct (nstate n) eqn:Hs; try done; [by left|]. right. right. split; [done|].
    destruct cmd as [r| | | |]; try done.
    assert (out = (a <- processSyncRequest r ;; ret (inl a)) n) as ->.
    { subst out. unfold processRPC. unfold bind at 1, gets at 1. by rewrite Hs. }
    apply (respects_bind idle); [apply idle_processSyncRequest|]. intros a. apply respects_ret, _.
  - right. left. by apply processRPC_refused.
Qed.

(** C24: the answer to a sync request. When the difference can be computed and
    neither limit is negative, the answer is sent without error and carries
    at most [min] of the two limits events, the first ones of the difference
    in topological order, every one of them an event of the store, in wire
    form. *)
Theorem sync_answer r n diff x :
  st_ok (hg_Store (n_core n).1) →
  eventDiff (sq_Known r) (n_core n) = (Ok diff, x) →
  0 ≤ sq_SyncLimit r → 0 ≤ conf_SyncLimit (n_conf n) →
  let limit := Z.min (sq_SyncLimit r) (conf_SyncLimit (n_conf n)) in
  let events := take (Z.to_nat limit) diff in
  (∃ n', processSyncRequest r n =
     (Ok (RSync (mkSyncResponse (Validator_ID (validator (n_core n).2.1)) (ToWire <$> events)
                  (KnownEvents (hg_Store x.1))), None), n')) ∧
  Sorted ev_topo_le diff ∧ stored_all (hv (n_core n).1) events ∧ zlen events ≤ limit.
Proof.
  intros Hok Hdiff H1 H2 limit events.
  pose proof (eventDiff_sound (sq_Known r) (n_core n) Hok (n_core n) eq_refl) as Hs.
  rewrite Hdiff in Hs. destruct Hs as [Hsort Hst].
  split; [|split; [done|]; split].
  - assert (Node.min (sq_SyncLimit r) (conf_SyncLimit (n_conf n)) = limit) as Hmin
      by (unfold Node.min; subst limit; destruct (Z.ltb_spec (sq_SyncLimit r) (conf_SyncLimit (n_conf n))); lia).
    assert (go_upto (E:=error) diff limit = Ok events ∨ zlen diff ≤ limit ∧ events = diff) as Hupto.
    { destruct (decide (zlen diff ≤ limit)) as [Hle|Hlt].
      - right. split; [done|]. apply take_ge. unfold zlen in Hle. lia.
      - left. unfold go_upto, zlen in *. rewrite (proj2 (Z.ltb_ge limit 0)) by lia.
        by rewrite (proj2 (Z.ltb_ge _ _)) by lia. }
    unfold processSyncRequest, selfID, conf, onCore, zoom, try, bind, getsC, gets. simpl.
    rewrite Hdiff. simpl. rewrite Hmin.
    destruct (0 <? zlen diff) eqn:Hpos.
    + destruct (limit <? zlen diff) eqn:Hlim; simpl.
      * destruct Hupto as [->|[? _]]; [|lia]. simpl. eexists. unfold toWire. done.
      * assert (events = diff) as -> by (apply take_ge; unfold zlen in *; lia).
        eexists. unfold toWire. done.
    + assert (diff = []) as -> by (destruct diff; [done|unfold zlen in Hpos; simpl in Hpos; lia]).
      subst events. rewrite take_nil. eexists. done.
  - intros e He. apply Hst. apply elem_of_take in He as (i & Hi & _). by eapply list_elem_of_lookup_2.
  - unfold zlen, events. rewrite length_take. lia.
Qed.


(** When a node suspends itself. [checkSuspend] leaves the node alone
    unless there are too many undetermined events for the number of
    validators, or its validator has been removed, after it was last
    accepted, in a round that consensus has reached; in those cases a node
    that has not been suspended or shut down before ends up suspended. *)
Theorem suspend_decision n :
  handler_returns (P:=P) → n_suspendClosed n = false → nstate n ≠ Shutdown →
  (must_suspend n → ∃ n', checkSuspend n = (Ok tt, n') ∧ nstate n' = Suspended) ∧
  (¬ must_suspend n → checkSuspend n = (Ok tt, n)).
Proof.
  intros Hh Hc Hs. destruct (checkSuspend_spec n) as [[Hm ->]|[Hm ->]]; (split; [|done]);
    intros Hm'; [|done]. destruct (Suspend_state n Hh Hc) as (n' & Hrun & Hst).
  exists n'. split; [done|]. by rewrite decide_False in Hst.
Qed.

(** Catching up with the most advanced peer. When every fast-forward
    request returns, [getBestFastForwardResponse] leaves the node unchanged and
    selects an answer whose block index is positive and at least that of
    every answer received; it selects none only if no answer has a positive
    block index. *)
Theorem best_response n :
  let req := mkFFRequest (Validator_ID (validator (n_core n).2.1)) in
  let ps := Peers (rps_peers (peerSelector (n_core n).2.1)) in
  requests_return req ps →
  ∃ best, getBestFastForwardResponse n = (Ok best, n) ∧
    match best with
    | Some r => 0 < Block_Index (ffr_Block r) ∧ (∃ p, p ∈ ps ∧ ffr_of req p = Ok r) ∧
        ∀ p r', p ∈ ps → ffr_of req p = Ok r' → Block_Index (ffr_Block r') ≤ Block_Index (ffr_Block r)
    | None => ∀ p r', p ∈ ps → ffr_of req p = Ok r' → Block_Index (ffr_Block r') ≤ 0
    end.
Proof.
  intros req ps Hret. destruct (getBest_spec n Hret) as (best & m & Hrun & Hb & Hm).
  exists best. split; [done|]. destruct best as [r|]; simpl in *; [|by subst m].
  destruct Hb as (-> & Hpos & Hp). done.
Qed.

(** A tick can be lost. If the loop that received a tick resets the timer
    before the timer's goroutine has cleared [isSet], the reset is skipped and
    the timer ends up neither set nor armed: it does not tick again until
    something else resets it. *)
Theorem tick_lost n t :
  ct_pc (n_timer n) = TimerWaiting → ct_armed (n_timer n) = Some t → ct_isSet (n_timer n) = true →
  ∃ t1 t2, timer_step (n_timer n) TimerTick = Some t1 ∧
    resetTimer (set_timer t1 n) = (Ok tt, set_timer t1 n) ∧
    timer_step t1 TimerClear = Some t2 ∧
    ct_isSet t2 = false ∧ timer_step t2 TimerTick = None.
Proof.
  destruct (n_timer n) as [pc armed isSet] eqn:Ht. simpl. intros -> -> ->.
  do 2 eexists. split; [done|]. split; [|done].
  unfold resetTimer, bind, get. by simpl.
Qed.

(** A shutdown can be undone. A fast-forward whose requests come back
    empty after the node has shut down puts it back in the babbling state:
    the main loop does not end, although transport and store are closed. *)
Theorem catching_up_undoes_shutdown fuel n :
  handler_returns (P:=P) → nstate n = Shutdown →
  ∃ n' err, fastForward_from fuel None n = (Err err, n') ∧ nstate n' = Babbling ∧
    n_transClosed n' = n_transClosed n ∧ n_shutdownClosed n' = n_shutdownClosed n.
Proof.
  intros Hh Hs. destruct (transition_state Babbling n) as (Ht & Hok & x & Hx).
  unfold fastForward_from. unfold bind at 1.
  destruct (transition Babbling n) as [r n1]. simpl in *. rewrite (Hok Hh). subst n1.
  do 2 eexists. done.
Qed.

(** Suspending twice panics. When a request to join that was already under
    way is accepted after the node was suspended, the node babbles or catches
    up again, with the suspend channel closed; the next suspension closes it a
    second time. *)
Theorem suspend_twice_panics n :
  handler_returns (P:=P) → n_suspendClosed n = true → nstate n ≠ Suspended → nstate n ≠ Shutdown →
  (Suspend n).1 = Panic.
Proof.
  intros Hh Hc H1 H2. destruct (transition_state Suspended n) as (Ht & Hok & x & Hx).
  unfold Suspend. unfold bind at 1, gets at 1. rewrite decide_False by tauto.
  unfold bind at 1. destruct (transition Suspended n) as [r n1]. simpl in *.
  rewrite (Hok Hh). subst n1. unfold bind, gets. simpl. by rewrite Hc.
Qed.
End theorems.

(** ** Witnesses *)
Section witnesses.
Instance toy_app : AppProxy unit := {|
  CommitBlock := DummyCommitCallback;
  GetSnapshot := λ _, ret [];
  Restore := λ _, ret tt;
  OnStateChanged := λ _, ret tt;
|}.
(** Every peer is at block 3. *)
Instance toy_trans : Transport := {|
  trans_Sync := λ _ _, Err (EMsg "unreachable");
  trans_EagerSync := λ _ _, Err (EMsg "unreachable");
  trans_FastForward := λ _ _,
    Ok (mkFFResponse 0 (mkBlock (mkBlockBody 3 0 0 [] [] [] [] [] []) ∅) empty_Frame []);
  trans_Join := λ _ _, Err (EMsg "unreachable");
  AdvertiseAddr := "self";
|}.
Definition toy_clock (n : nat) : Z := Z.of_nat n.
Definition toy_conf : Config := mkConfig false false true 2 1 10 1000.
(** A node with three events, in a given state. *)
Definition toy_node (s : NodeState) : node InmemStore unit :=
  mkNode (mkManager s 0 0) toy_conf toy_core3 (timer_run 10 newControlTimer) 0
    false false false false.

Lemma toy_handler : handler_returns (P:=unit).
Proof. intros s p. by exists (Ok tt). Qed.

Lemma sync_answer_witness :
  ∃ diff x, eventDiff ∅ toy_core3 = (Ok diff, x) ∧ length diff = 3%nat ∧
    (∃ n', processSyncRequest (mkSyncRequest 7 ∅ 5) (toy_node Babbling) =
       (Ok (RSync (mkSyncResponse (Validator_ID toy_validator) (ToWire <$> take 2 diff)
          (KnownEvents (hg_Store x.1))), None), n')).
Proof.
  assert (is_okb (eventDiff ∅ toy_core3).1 = true) as Hok by (vm_compute; reflexivity).
  assert (length (match (eventDiff ∅ toy_core3).1 with Ok d => d | _ => [] end) = 3%nat) as Hlen
    by (vm_compute; reflexivity).
  assert (Validator_ID (validator toy_core3.2.1) = Validator_ID toy_validator) as Hid
    by (vm_compute; reflexivity).
  pose proof (sync_answer (mkSyncRequest 7 ∅ 5) (toy_node Babbling)) as Hs.
  destruct (eventDiff ∅ toy_core3) as [r x] eqn:Hd. destruct r as [diff| | |]; [|discriminate Hok..].
  exists diff, x. split; [reflexivity|]. split; [exact Hlen|].
  destruct (Hs diff x toy_core3_stored Hd) as [Hans _]; [apply Z.leb_le; reflexivity..|].
  destruct Hans as [n' Hans]. exists n'. rewrite Hans. rewrite <-Hid. reflexivity.
Defined.


(** Two undetermined events, one validator, limit 1. *)
Lemma suspend_decision_witness :
  ∃ n', checkSuspend (toy_node Babbling) = (Ok tt, n') ∧ nstate n' = Suspended.
Proof.
  assert (nstate (toy_node Babbling) ≠ Shutdown) as Hs by discriminate.
  assert (must_suspend (toy_node Babbling)) as Hm by (left; vm_compute; reflexivity).
  exact (proj1 (suspend_decision (toy_node Babbling) toy_handler eq_refl Hs) Hm).
Defined.

Lemma best_response_witness :
  ∃ r, getBestFastForwardResponse (toy_node CatchingUp) = (Ok (Some r), toy_node CatchingUp) ∧
    Block_Index (ffr_Block r) = 3.
Proof.
  assert ((getBestFastForwardResponse (toy_node CatchingUp)).1 ≠ Ok None) as Hsome
    by (vm_compute; discriminate).
  assert (requests_return (mkFFRequest (Validator_ID (validator (n_core (toy_node CatchingUp)).2.1)))
    (Peers (rps_peers (peerSelector (n_core (toy_node CatchingUp)).2.1)))) as Hret.
  { intros p _. split; discriminate. }
  destruct (best_response (toy_node CatchingUp) Hret) as (best & Hrun & Hb).
  rewrite Hrun in Hsome. destruct best as [r|]; [|destruct Hsome; reflexivity].
  exists r. split; [exact Hrun|]. destruct Hb as (_ & (p & _ & Hp) & _).
  unfold ffr_of in Hp. simpl in Hp. injection Hp as <-. reflexivity.
Defined.

Lemma tick_lost_witness :
  ∃ t1 t2, timer_step (timer_run 10 newControlTimer) TimerTick = Some t1 ∧
    timer_step t1 TimerClear = Some t2 ∧ timer_step t2 TimerTick = None.
Proof.
  destruct (tick_lost (toy_node Babbling) 10 eq_refl eq_refl eq_refl)
    as (t1 & t2 & H1 & _ & H3 & _ & H5).
  exists t1, t2. split; [exact H1|]. split; [exact H3|exact H5].
Defined.

Lemma catching_up_undoes_shutdown_witness :
  ∃ n', (fastForward_from 20 None (toy_node Shutdown)).2 = n' ∧ nstate n' = Babbling.
Proof.
  destruct (catching_up_undoes_shutdown 20 (toy_node Shutdown) toy_handler eq_refl)
    as (n' & err & Hrun & Hs & _).
  exists n'. rewrite Hrun. split; [reflexivity|exact Hs].
Defined.

Lemma suspend_twice_panics_witness :
  (Suspend (set_closed true false false false (toy_node Babbling))).1 = Panic.
Proof.
  apply (suspend_twice_panics (set_closed true false false false (toy_node Babbling)) toy_handler);
    [reflexivity|discriminate..].
Defined.
End witnesses.
