(* ===== verification/ServiceTheorems.v ===== *)
(** * The HTTP service: theorems

    A request changes nothing but what the caches of the store hold ready;
    the pages of blocks, and the request that gets around their limit; numbers
    in paths. *)
From S2P Require Export Service NodeTheorems.

(** ** Numbers *)
Lemma digit_pretty d : (d < 10)%N → digit (pretty_N_char d) = Some (Z.of_N d).
Proof.
  intros Hd.
  assert (d = 0 ∨ d = 1 ∨ d = 2 ∨ d = 3 ∨ d = 4 ∨ d = 5 ∨ d = 6 ∨ d = 7 ∨ d = 8 ∨ d = 9)%N as Hc by lia.
  by destruct_or! Hc; subst d.
Qed.
Lemma ParseUint_pretty s0 (x : N) s : Z.of_N x < 2 ^ 64 →
  ParseUint_go s0 (pretty_N_go x s) 0 = ParseUint_go s0 s (Z.of_N x).
Proof.
  revert s. induction (N.lt_wf_0 x) as [x _ IH]. intros s Hx.
  assert (x = 0 ∨ 0 < x)%N as [->|Hpos] by lia; [done|].
  rewrite pretty_N_go_step by done. rewrite IH; [|by apply N.div_lt|].
  - cbn [ParseUint_go]. rewrite digit_pretty by (by apply N.mod_lt).
    pose proof (N.div_mod x 10 ltac:(done)).
    replace (Z.of_N (x `div` 10) * 10 + Z.of_N (x `mod` 10)) with (Z.of_N x) by lia.
    destruct (Z.leb_spec (2 ^ 64) (Z.of_N x)); [lia|done].
  - pose proof (N.div_le_upper_bound x 10 x ltac:(done) ltac:(lia)). lia.
Qed.
Lemma pretty_head x s c s' : (0 < x)%N → pretty_N_go x s = String c s' → is_Some (digit c).
Proof.
  revert s. induction (N.lt_wf_0 x) as [x _ IH]. intros s Hx. rewrite pretty_N_go_step by done.
  destruct (decide (x `div` 10 = 0)%N) as [Hz|Hz].
  - rewrite Hz, pretty_N_go_0. intros [= <- _]. rewrite digit_pretty by (by apply N.mod_lt). eauto.
  - apply IH; [by apply N.div_lt|lia].
Qed.
Lemma pretty_ne x s : (0 < x)%N → pretty_N_go x s ≠ "".
Proof.
  revert s. induction (N.lt_wf_0 x) as [x _ IH]. intros s Hx. rewrite pretty_N_go_step by done.
  destruct (decide (x `div` 10 = 0)%N) as [Hz|Hz].
  - by rewrite Hz, pretty_N_go_0.
  - apply IH; [by apply N.div_lt|lia].
Qed.
(** What is printed is parsed. *)
Lemma Atoi_pretty z : int64_ok z → Atoi (pretty z) = inr z.
Proof.
  unfold int64_ok. intros Hz. unfold Atoi. destruct z as [|p|p]; [done| |].
  - change (pretty (Z.pos p)) with (pretty_N_go (N.pos p) "").
    pose proof (ParseUint_pretty (pretty_N_go (N.pos p) "") (N.pos p) "" ltac:(lia)) as Hp.
    pose proof (pretty_ne (N.pos p) "" ltac:(lia)) as Hne.
    pose proof (λ c s', pretty_head (N.pos p) "" c s' ltac:(lia)) as Hd.
    destruct (pretty_N_go (N.pos p) "") as [|c s] eqn:Hs; [done|]. specialize (Hd c s eq_refl).
    assert ((match String c s with
             | String "-" u => (true, u)
             | String "+" u => (false, u)
             | _ => (false, String c s)
             end) = (false, String c s)) as ->.
    { destruct Hd as [d Hd]. destruct c as [[] [] [] [] [] [] [] []]; done. }
    rewrite Hp. cbn [ParseUint_go]. destruct (Z.leb_spec (2 ^ 63) (Z.of_N (N.pos p))); [lia|done].
  - change (pretty (Z.neg p)) with (String "-" (pretty_N_go (N.pos p) "")).
    pose proof (pretty_ne (N.pos p) "" ltac:(lia)) as Hne.
    pose proof (ParseUint_pretty (String "-" (pretty_N_go (N.pos p) "")) (N.pos p) "" ltac:(lia)) as Hp.
    destruct (pretty_N_go (N.pos p) "") as [|c s] eqn:Hs; [done|].
    rewrite Hp. cbn [ParseUint_go]. destruct (Z.ltb_spec (2 ^ 63) (Z.of_N (N.pos p))); [lia|done].
Qed.

Lemma pretty_nonempty z : int64_ok z → pretty z ≠ "".
Proof. intros Hz Heq. pose proof (Atoi_pretty z Hz) as Ha. by rewrite Heq in Ha. Qed.
(** ** Requests only read *)
Section reads.
Context {KP : Keys} {CP : Codec} {RO : RangeOrder}.
Context {St : Type} {STO : Store St} {LAW : StoreLaws St} {P : Type}.
Implicit Types (n : node St P) (h : Hashgraph St).
Abbreviation store n := (hg_Store (n_core n).1).

Definition observedH h h' : Prop := h' = set_Store (hg_Store h') h ∧ same (λ v, v) h h'.
#[export] Instance observedH_preorder : PreOrder observedH.
Proof.
  split; [intros []; by split|]. intros h1 h2 h3 [H1 H1'] [H2 H2']. split; [|by etrans].
  rewrite H2, H1. done.
Qed.
Definition observedC (x x' : Hashgraph St * (coreState * P)) : Prop := observedH x.1 x'.1 ∧ x'.2 = x.2.
#[export] Instance observedC_preorder : PreOrder observedC.
Proof. split; [by intros x|]. intros x y z [? ?] [? ?]. split; [by etrans|congruence]. Qed.
(** Nothing has changed but the store, whose content has not. *)
Definition observed n n' : Prop := confined n n' ∧ observedC (n_core n) (n_core n').
#[export] Instance observed_preorder : PreOrder observed.
Proof.
  split; [intros n; split; [by destruct n|done]|].
  intros n1 n2 n3 [H1 H1'] [H2 H2']. split; by etrans.
Qed.
Lemma observed_onCore {A} (m : GoM error (Hashgraph St * (coreState * P)) A) :
  respects observedC m → respects observed (onCore m).
Proof.
  intros Hm n. specialize (Hm (n_core n)). unfold onCore, zoom. by destruct (m (n_core n)) as [r x].
Qed.
Lemma observedC_onH {A} (m : GoM error (Hashgraph St) A) : respects observedH m → respects observedC (onH m).
Proof. intros Hm x. specialize (Hm x.1). unfold onH, onHG, zoom. by destruct (m x.1). Qed.
Lemma observedH_onStore {A} (m : M St A) : untouched (λ v, v) (onStore m) → respects observedH (onStore m).
Proof.
  intros Hm h. specialize (Hm h). unfold onStore, zoom in *. destruct (m (hg_Store h)). by split.
Qed.
Lemma observedH_readStoreR {A} (g : St → res A) : respects observedH (readStoreR g).
Proof. intros h. unfold readStoreR, bind, gets, lift. done. Qed.
Lemma observedC_getsC {A} (f : coreState → A) : respects observedC (getsC (P:=P) f).
Proof. intros x. done. Qed.
Hint Resolve observed_onCore observedC_onH observedH_onStore observedH_readStoreR observedC_getsC : respects.
Hint Resolve untouched_GetEvent untouched_GetRound untouched_GetBlock : respects.
Hint Extern 1 (respects observedH (gets _)) => apply respects_gets; apply _ : respects.
Hint Extern 1 (respects observedH (readStore _)) => apply respects_gets; apply _ : respects.
Hint Extern 1 (respects observed (gets _)) => apply respects_gets; apply _ : respects.

Ltac observe := respects_go; eauto 8 with respects typeclass_instances.
Lemma observed_stats : respects observed (Node_GetStats (St:=St) (P:=P)).
Proof.
  unfold Node_GetStats, GetLastConsensusRoundIndex, getLastConsensusRoundIndex, Node_GetLastBlockIndex,
    getLastBlockIndex, getConsensusEventsCount, getUndeterminedEvents, getConsensusTransactionsCount, GetID.
  observe.
Qed.
Lemma observed_infos : respects observed (GetInfos (St:=St) (P:=P)).
Proof.
  unfold GetInfos, GetParticipantEvents, participant_events, Graph_GetRounds, Graph_GetBlocks, collect. observe.
Qed.
Lemma observed_param p r : respects observed (param (St:=St) (P:=P) p r).
Proof. unfold param. observe. Qed.
Lemma observed_validators r : respects observed (return_validators (St:=St) (P:=P) r).
Proof. unfold return_validators, GetValidatorSet. observe. Qed.
Lemma observed_GetBlock i : respects observed (Node_GetBlock (St:=St) (P:=P) i).
Proof. unfold Node_GetBlock. observe. Qed.
Hint Resolve observed_stats observed_infos observed_param observed_validators observed_GetBlock : respects.
Lemma observed_handlers : Forall (λ ph, ∀ r, respects observed (ph.2 r)) (registerHandlers (St:=St) (P:=P)).
Proof.
  unfold registerHandlers. repeat apply Forall_cons_2; [..|by apply Forall_nil]; intros r; simpl;
    unfold Service_GetStats, Service_GetBlock, Service_GetBlocks, Service_GetGraph, Service_GetPeers,
      Service_GetGenesisPeers, Service_GetValidatorSet, Service_GetAllValidatorSets, fetch_blocks,
      Node_GetLastBlockIndex, getLastBlockIndex, Node_GetPeers, GetLastConsensusRoundIndex,
      getLastConsensusRoundIndex, GetAllValidatorSets; observe.
Qed.

(** C32: the API only reads. Whatever the request, to whichever path, and
    whether it is answered with a value or an error: the node's state, its
    core, its hashgraph and its pools are the same afterwards, and the store
    has the same content. *)
Theorem service_read_only r n : observed n (serve r n).2.
Proof.
  revert n. change (respects observed (serve (St:=St) (P:=P) r)). unfold serve, makeHandler, route.
  destruct (list_find _ registerHandlers) as [[i ph]|] eqn:Hf; simpl; [|observe].
  apply list_find_Some in Hf as (Hl & _). pose proof observed_handlers as Hall.
  rewrite Forall_lookup in Hall. specialize (Hall i ph Hl r). observe.
Qed.

(** ** Pages of blocks *)
Lemma GetBlock_found i b n : st_ok (store n) → v_blocks (hv (n_core n).1) !! i = Some b →
  ∃ n', Node_GetBlock i n = (Ok b, n') ∧ observed n n'.
Proof.
  intros Hs Hb. pose proof (observed_GetBlock i n) as Ho.
  destruct (GetBlock_law i (store n) Hs) as (_ & _ & Hf). unfold hv in Hb. rewrite Hb in Hf. simpl in Hf.
  unfold Node_GetBlock, onCore, onH, onHG, onStore, zoom in *. simpl in *.
  destruct (GetBlock i (store n)) as [res s']. simpl in Hf. subst res. simpl in *. eauto.
Qed.
Section page.
Context (start last : Z) (blk : Z → Block).
Context (Hrange : 0 ≤ start ≤ last) (Hlast : last < 2 ^ 62).
Definition has_blocks n : Prop := st_ok (store n) ∧ v_lastBlock (hv (n_core n).1) = last ∧
  ∀ i, 0 ≤ i ≤ last → v_blocks (hv (n_core n).1) !! i = Some (blk i).
Lemma has_blocks_observed n n' : observed n n' → has_blocks n → has_blocks n'.
Proof.
  intros [_ [[_ Hs] _]] (Hok & Hl & Hb). destruct (Hs Hok) as [Hok' Hv]. unfold has_blocks. rewrite Hv. done.
Qed.
Lemma fetch_run n k m acc : has_blocks n → start + Z.of_nat (k + m) ≤ last + 1 →
  ∃ acc' n', foldM (λ blocks c, block <- Node_GetBlock (wrap64 (start + c)) ;;
      ret (Some (elems blocks ++ [block]))) acc ((λ i, 0 + Z.of_nat i) <$> seq k m) n = (Ok acc', n') ∧
    elems acc' = elems acc ++ ((λ i, blk (start + Z.of_nat i)) <$> seq k m) ∧ (m ≠ O → is_Some acc').
Proof.
  intros Hn. revert n k acc Hn. induction m as [|m IH]; intros n k acc Hn Hle.
  { exists acc, n. simpl. by rewrite app_nil_r. }
  cbn [seq fmap list_fmap foldM]. rewrite Z.add_0_l, wrap64_id by (unfold int64_ok; lia).
  destruct Hn as (Hok & Hl & Hb) eqn:Hnn.
  destruct (GetBlock_found (start + Z.of_nat k) (blk (start + Z.of_nat k)) n Hok) as (n1 & Hrun & Hobs);
    [apply Hb; lia|].
  unfold bind at 1 2. rewrite Hrun. unfold ret at 1.
  destruct (IH n1 (S k) (Some (elems acc ++ [blk (start + Z.of_nat k)]))) as (acc' & n' & Hrun' & Hacc & Hsome).
  { eapply has_blocks_observed; [exact Hobs|]. exact (conj Hok (conj Hl Hb)). }
  { lia. }
  exists acc', n'. split; [exact Hrun'|]. split.
  - rewrite Hacc. simpl. by rewrite <-app_assoc.
  - intros _. destruct m; [|by apply Hsome]. simpl in Hrun'. injection Hrun' as <- _. eauto.
Qed.
Lemma fetch_page n count : has_blocks n → 1 ≤ count ≤ last - start + 1 →
  (fetch_blocks start count n).1 = Ok (Some (blk <$> seqZ start count)).
Proof.
  intros Hn Hc. unfold fetch_blocks, zrange.
  destruct (fetch_run n 0 (Z.to_nat (count - 1 - 0 + 1)) None Hn ltac:(lia)) as (acc & n' & -> & Hacc & Hsome).
  destruct Hsome as [l ->]; [lia|]. simpl in Hacc |- *. subst l. do 2 f_equal. unfold seqZ.
  replace (Z.to_nat (count - 1 - 0 + 1)) with (Z.to_nat count) by lia.
  rewrite <-list_fmap_compose. apply list_fmap_ext. intros i x _. simpl. f_equal. lia.
Qed.
Lemma route_blocks p : route (St:=St) (P:=P) ("/blocks/" +:+ p) = Some Service_GetBlocks.
Proof.
  unfold route, registerHandlers. unfold matches. simpl.
  by rewrite decide_True by (by destruct p).
Qed.
Lemma param_blocks p c : param (St:=St) (P:=P) "/blocks/" (mkRequest ("/blocks/" +:+ p) c) = ret p.
Proof.
  unfold param. simpl. rewrite Nat.sub_0_r. f_equal. change ("" +:+ p) with p.
  induction p as [|a p IH]; simpl; [done|]. by rewrite IH.
Qed.
Lemma serve_blocks n (c : Z) : has_blocks n → int64_ok c → 1 ≤ blocks_count start last c ≤ last - start + 1 →
  (serve (mkRequest ("/blocks/" +:+ pretty start) (pretty c)) n).1 =
  Ok (Some (mkHTTP (Some "*") (JSON (PBlocks (Some (blk <$> seqZ start (blocks_count start last c))))))).
Proof.
  intros Hn Hc Hcount. pose proof Hn as (Hok & Hl & _). unfold serve. cbn [url_Path]. rewrite route_blocks.
  unfold makeHandler, Service_GetBlocks. rewrite param_blocks. unfold bind at 1 2 3, ret at 1.
  rewrite Atoi_pretty by (unfold int64_ok; lia).
  unfold bind at 1, Node_GetLastBlockIndex, getLastBlockIndex, onCore, onH, onHG, zoom, readStore, gets. simpl.
  rewrite LastBlockIndex_law. fold (hv (n_core n).1). rewrite Hl.
  destruct (Z.ltb_spec last start); [lia|].
  rewrite bool_decide_eq_false_2 by (by apply pretty_nonempty). rewrite Atoi_pretty by done.
  unfold bind, try. set (n1 := set_core _ _).
  assert (has_blocks n1) as Hn1.
  { eapply has_blocks_observed; [|exact Hn]. unfold n1. destruct n as [? ? [[] ?]]. by split. }
  pose proof (fetch_page n1 _ Hn1 Hcount) as Hf.
  destruct (fetch_blocks start (blocks_count start last c) n1) as [r n2]. simpl in Hf. by subst r.
Qed.
End page.

(** C33: pages of blocks. A node whose store has the blocks 0 to [last]
    answers [/blocks/start?count=c], for a positive [c], with the blocks from
    [start] on, in order: [c] of them, at most [MAXBLOCKS], and none past the
    last. *)
Theorem blocks_page start last c blk n : 0 ≤ start ≤ last → last < 2 ^ 62 → 0 < c < 2 ^ 63 →
  has_blocks last blk n →
  (serve (mkRequest ("/blocks/" +:+ pretty start) (pretty c)) n).1 =
  Ok (Some (mkHTTP (Some "*") (JSON (PBlocks (Some (blk <$>
    seqZ start (Z.min (Z.min c MAXBLOCKS) (last - start + 1)))))))).
Proof.
  intros Hrange Hlast Hc Hn.
  assert (blocks_count start last c = Z.min (Z.min c MAXBLOCKS) (last - start + 1)) as Hcount.
  { unfold blocks_count, MAXBLOCKS. set (m := if 50 <? c then 50 else c).
    assert (0 < m ≤ 50 ∧ m = Z.min c 50) as [Hm Hmin] by (unfold m; destruct (Z.ltb_spec 50 c); lia).
    rewrite <-Hmin, (wrap64_id (start + m)), (wrap64_id (start + m - 1)), (wrap64_id (last - start)),
      (wrap64_id (last - start + 1)) by (unfold int64_ok; lia).
    destruct (Z.ltb_spec last (start + m - 1)); lia. }
  rewrite <-Hcount. apply serve_blocks; try done; [unfold int64_ok; lia|].
  rewrite Hcount. unfold MAXBLOCKS. lia.
Qed.

(** The limit can be avoided. For the smallest 64-bit number as the count
    the sum that is compared with the last index overflows, and the answer to
    [/blocks/0?count=-9223372036854775808] is all the blocks, however many. *)
Theorem blocks_limit_bypassed last blk n : 0 ≤ last < 2 ^ 62 → has_blocks last blk n →
  (serve (mkRequest "/blocks/0" "-9223372036854775808") n).1 =
  Ok (Some (mkHTTP (Some "*") (JSON (PBlocks (Some (blk <$> seqZ 0 (last + 1))))))).
Proof.
  intros Hlast Hn. assert (blocks_count 0 last (-2 ^ 63) = last + 1) as Hcount.
  { unfold blocks_count, MAXBLOCKS. change (wrap64 (wrap64 (0 + (if 50 <? -2 ^ 63 then 50 else -2 ^ 63)) - 1)) with (2 ^ 63 - 1).
    destruct (Z.ltb_spec last (2 ^ 63 - 1)); [|lia].
    rewrite (wrap64_id (last - 0)), (wrap64_id (last - 0 + 1)) by (unfold int64_ok; lia). lia. }
  rewrite <-Hcount. apply (serve_blocks 0 last blk ltac:(lia) ltac:(lia) n (-2 ^ 63)); [done|unfold int64_ok; lia|].
  rewrite Hcount. lia.
Qed.
End reads.

(** ** A node with sixty blocks *)
Definition toy_blk (i : Z) : Block := mkBlock (mkBlockBody i i 0 [] [] [] [] [] []) ∅.
Definition toy_block_store : InmemStore :=
  foldl (λ s i, (SetBlock (toy_blk i) s).2) (NewInmemStore 100) (seqZ 0 60).
Definition toy_block_node : node InmemStore unit :=
  mkNode (mkManager Babbling 0 0) (mkConfig false false false 100 100 10 1000)
    (NewHashgraph toy_block_store, toy_core3.2) newControlTimer 0 false false false false.
Lemma toy_blocks : has_blocks 59 toy_blk toy_block_node.
Proof.
  assert (st_ok toy_block_store) as Hok.
  { unfold toy_block_store. assert (st_ok (NewInmemStore 100)) as Hs by (apply NewInmemStore_ok; lia).
    revert Hs. generalize (NewInmemStore 100). induction (seqZ 0 60) as [|i l IH]; intros s Hs; [exact Hs|].
    simpl. apply IH. by destruct (SetBlock_law (toy_blk i) s Hs) as (_ & ? & _). }
  split; [exact Hok|]. split; [vm_compute; reflexivity|].
  assert (Forall (λ i, v_blocks (hv (n_core toy_block_node).1) !! i = Some (toy_blk i)) (seqZ 0 60)) as Hall.
  { vm_compute. repeat constructor. }
  rewrite Forall_forall in Hall. intros i Hi. apply Hall, elem_of_seqZ. lia.
Qed.
Lemma blocks_page_witness :
  (serve (mkRequest "/blocks/5" "57") toy_block_node).1 =
  Ok (Some (mkHTTP (Some "*") (JSON (PBlocks (Some (toy_blk <$> seqZ 5 50)))))).
Proof. exact (blocks_page 5 59 57 toy_blk toy_block_node ltac:(lia) ltac:(lia) ltac:(lia) toy_blocks). Defined.
Lemma blocks_limit_bypassed_witness :
  (serve (mkRequest "/blocks/0" "-9223372036854775808") toy_block_node).1 =
  Ok (Some (mkHTTP (Some "*") (JSON (PBlocks (Some (toy_blk <$> seqZ 0 60)))))).
Proof. exact (blocks_limit_bypassed 59 toy_blk toy_block_node ltac:(lia) toy_blocks). Defined.
