(* ===== verification/ProxyTheorems.v ===== *)
(** * The socket proxies: theorems

    Whatever the network does, a call runs the handler at most three times and
    answers with a run of its own; when no request that was delivered is tried
    again, an application behind a socket is an application in the same
    process; and when one is, the application commits the block twice. *)
From S2P Require Export Proxies Instances.

(** ** How often a handler runs *)
Section executions.
Context {NT : Network} {P A : Type} (m : GoM error P A).
Implicit Types (l : Link P) (p : P).

(** What a call of [m] makes the server do: run the handler, leave a run for
    later, or wake one of the late runs, of this call or an earlier one. *)
Inductive deed := Ran (r : res A) | Delayed | Woke.
Inductive deeds : P * list (GoM error P unit) → list deed → P * list (GoM error P unit) → Prop :=
| deeds_nil s : deeds s [] s
| deeds_ran p ms r p1 ds s2 :
    m p = (r, p1) → deeds (p1, ms) ds s2 → deeds (p, ms) (Ran r :: ds) s2
| deeds_delayed p ms ds s2 :
    deeds (p, ms ++ [m ;;; ret tt]) ds s2 → deeds (p, ms) (Delayed :: ds) s2
| deeds_woke p ms i f ds s2 :
    ms !! i = Some f → deeds ((f p).2, delete i ms) ds s2 → deeds (p, ms) (Woke :: ds) s2.
#[local] Hint Constructors deeds : core.
(** The deeds that are runs of this call's handler, now or later. *)
Definition own (d : deed) : bool := match d with Woke => false | _ => true end.
Definition owns (ds : list deed) : nat := length (List.filter own ds).
Definition sv l : P * list (GoM error P unit) := (lk_server l, lk_late l).

Lemma deeds_app s ds1 s1 ds2 s2 : deeds s ds1 s1 → deeds s1 ds2 s2 → deeds s (ds1 ++ ds2) s2.
Proof. induction 1; simpl; eauto. Qed.
Lemma owns_app ds1 ds2 : owns (ds1 ++ ds2) = (owns ds1 + owns ds2)%nat.
Proof. unfold owns. by rewrite List.filter_app, length_app. Qed.

(** What a client that was answered [r] knows of the deeds: a success is the
    result of the last of them, a run of its handler (an error with an empty
    text arrives as a success). *)
Definition tells (zero : A) (r : res A) (ds : list deed) : Prop :=
  match r with
  | Ok a => ∃ x, last ds = Some (Ran x) ∧
      (x = Ok a ∨ a = zero ∧ ∃ e, x = Err e ∧ error_msg e = "")
  | _ => True
  end.
Lemma tells_app zero r ds1 ds2 : tells zero r ds2 → tells zero r (ds1 ++ ds2).
Proof. destruct r; simpl; try done. intros (x & Hx & ?). rewrite last_app, Hx. eauto. Qed.

(** [executes n zero c]: [c] causes at most [n] runs of [m], and tells of them. *)
Definition executes (n : nat) (zero : A) (c : GoM error (Link P) A) : Prop :=
  ∀ l, ∃ ds, deeds (sv l) ds (sv (c l).2) ∧ (owns ds ≤ n)%nat ∧ tells zero (c l).1 ds.

Lemma executes_serve zero l :
  ∃ ds, deeds (sv l) ds (sv ((r <- serve m ;; lift (answer zero r)) l).2) ∧
    (owns ds ≤ 1)%nat ∧ tells zero ((r <- serve m ;; lift (answer zero r)) l).1 ds.
Proof.
  unfold serve, bind, zoom, try, lift. destruct (m (lk_server l)) as [[a|e| |] p'] eqn:Hm; simpl;
    (eexists [_]; split; [exact (deeds_ran _ _ _ _ _ _ Hm (deeds_nil _))|]; split; [done|]); simpl; eauto.
  case_bool_decide; simpl; eauto 10.
Qed.
Lemma executes_lost zero f err l :
  ∃ ds, deeds (sv l) ds (sv ((delivers f m ;;; throw (A:=A) err) l).2) ∧
    (owns ds ≤ 1)%nat ∧ tells zero ((delivers f m ;;; throw err) l).1 ds.
Proof.
  destruct f.
  - exists []. split; [constructor|]. split; [by apply le_S|done].
  - unfold delivers, serve, bind, zoom, try, throw, ret.
    destruct (m (lk_server l)) as [[a|e| |] p'] eqn:Hm; simpl;
      (eexists [_]; split; [exact (deeds_ran _ _ _ _ _ _ Hm (deeds_nil _))|]; split; [done|]); done.
  - exists [Delayed]. split; [|done]. apply deeds_delayed, deeds_nil.
Qed.
Lemma executes_Go zero : executes 1 zero (rpc_Go zero m).
Proof.
  intros l. unfold rpc_Go. rewrite (bind_Ok_l get _ l l l) by done.
  destruct (at_exchange _); auto using executes_serve, executes_lost.
Qed.

(** Late handlers run between the attempts; their errors reach nobody. *)
Lemma wake_deeds i l : ∃ ds, deeds (sv l) ds (sv (wake i l).2) ∧ owns ds = 0%nat ∧
  ∀ err, (wake i l).1 ≠ Err err.
Proof.
  unfold wake. rewrite (bind_Ok_l get _ l l l) by done. destruct (lk_late l !! i) as [f|] eqn:Hf.
  - exists [Woke]. unfold bind, modify, serve, zoom, try, ret. simpl.
    split; [|split; [done|by destruct (f (lk_server l)) as [[] ?]]].
    apply (deeds_woke _ _ i f); [done|]. by destruct (f (lk_server l)) as [[] ?]; constructor.
  - exists []. by split; [constructor|].
Qed.
Lemma wakes_deeds ix l : ∃ ds, deeds (sv l) ds (sv (forM ix wake l).2) ∧ owns ds = 0%nat ∧
  ∀ err, (forM ix wake l).1 ≠ Err err.
Proof.
  revert l. unfold forM. induction ix as [|i ix IH]; intros l; [exists []; by split; [constructor|]|].
  cbn [foldM]. destruct (wake_deeds i l) as (ds1 & H1 & Ho1 & He1).
  unfold bind. destruct (wake i l) as [[[]|err| |] l1]; simpl in *.
  - destruct (IH l1) as (ds2 & H2 & Ho2 & He2). exists (ds1 ++ ds2).
    split; [by eapply deeds_app|]. split; [|done]. rewrite owns_app. lia.
  - by destruct (He1 err).
  - by exists ds1.
  - by exists ds1.
Qed.
Lemma getConnection_sv l : sv (getConnection l).2 = sv l.
Proof.
  unfold getConnection. rewrite (bind_Ok_l get _ l l l) by done.
  destruct (lk_rpc l); [done|]. by destruct (at_dial _).
Qed.
Lemma executes_turn zero n c : executes n zero c → executes n zero (call_turn c).
Proof.
  intros Hc l. unfold call_turn. rewrite (bind_Ok_l get _ l l l) by done.
  destruct (wakes_deeds (at_wakes (attempt_at (lk_next l))) l) as (ds1 & H1 & Ho1 & He1).
  destruct (forM (at_wakes (attempt_at (lk_next l))) wake l) as [[u|err| |] l1] eqn:Hw; simpl in *;
    [|by destruct (He1 err)|exists ds1; unfold bind; rewrite Hw; (split; [done|split; [simpl; lia|done]])..].
  rewrite (bind_Ok_l _ _ l u l1 Hw). pose proof (getConnection_sv l1) as Hsv.
  destruct (getConnection l1) as [r l2] eqn:Hg; simpl in Hsv. rewrite <-Hsv in H1.
  destruct r as [[]|err| |];
    [|exists ds1; unfold bind, try, modify, throw; rewrite Hg; (split; [exact H1|split; [simpl; lia|done]])..].
  rewrite (bind_Ok_l _ _ l1 (inl tt) l2) by (by apply try_Ok).
  destruct (Hc l2) as (ds2 & H2 & Ho2 & Ht2). exists (ds1 ++ ds2).
  unfold bind, try, modify, throw, ret. destruct (c l2) as [r l3]; simpl in *.
  assert (deeds (sv l) (ds1 ++ ds2) (sv l3)) as H12 by (by eapply deeds_app).
  assert (owns (ds1 ++ ds2) ≤ n)%nat as Ho by (rewrite owns_app; lia).
  apply (tells_app _ _ ds1) in Ht2. by destruct r.
Qed.
Lemma executes_turns zero n c more : executes n zero c → executes (n * S more) zero (call_turns c more).
Proof.
  intros Hc. apply executes_turn in Hc. induction more as [|more IH]; intros l; simpl.
  - destruct (Hc l) as (ds & Hd & Ho & Ht). exists ds. unfold bind, try, throw, ret.
    destruct (call_turn c l) as [[a|e| |] l1]; simpl in *; (split; [done|split; [lia|done]]).
  - destruct (Hc l) as (ds & Hd & Ho & Ht). unfold bind, try, throw, ret.
    destruct (call_turn c l) as [[a|e| |] l1]; simpl in *;
      [exists ds; split; [done|split; [lia|done]]| |
       exists ds; split; [done|split; [lia|done]]..].
    destruct (IH l1) as (ds' & Hd' & Ho' & Ht'). exists (ds ++ ds').
    split; [by eapply deeds_app|]. split; [rewrite owns_app; lia|]. by apply tells_app.
Qed.
End executions.
Arguments deeds {P A} m _ _ _.


(** ** A socket that loses no answer *)
Section refinement.
Context {NT : Network} {P : Type}.
Implicit Types (l : Link P).

(** An attempt, by a client that has a connection or not, is answered, or fails
    before the request is delivered. *)
Definition answered (rpc : bool) (a : attempt) : bool :=
  (rpc || bool_decide (at_dial a = None)) &&
  match at_exchange a with Answered => true | _ => false end.
Definition undelivered (rpc : bool) (a : attempt) : bool :=
  negb (rpc || bool_decide (at_dial a = None)) ||
  match at_exchange a with TimedOut Undelivered | Broken Undelivered _ => true | _ => false end.
(** One of the next [n] attempts is answered, and those before it fail before
    the request is delivered. *)
Fixpoint gets_through (n : nat) (rpc : bool) (i : nat) : bool :=
  match n with
  | O => false
  | S n => answered rpc (attempt_at i) ||
           undelivered rpc (attempt_at i) && gets_through n false (S i)
  end.
(** The next [n] attempts are answered, each on a connection of its own but the
    first. *)
Fixpoint all_answered (n : nat) (rpc : bool) (i : nat) : bool :=
  match n with
  | O => true
  | S n => answered rpc (attempt_at i) && all_answered n false (S i)
  end.

(** On a link with no late handlers, [op'] does to the server what [op] does to
    the application when it succeeds; and when it fails and changes nothing,
    and every attempt is answered, [op'] fails with the text of its error. *)
Definition transmits {A} (op : GoM error P A) (op' : GoM error (Link P) A) : Prop :=
  ∀ l, lk_late l = [] →
    (∀ r p', gets_through retries (lk_rpc l) (lk_next l) = true → op (lk_server l) = (Ok r, p') →
       ∃ l', op' l = (Ok r, l') ∧ lk_server l' = p' ∧ lk_late l' = []) ∧
    (∀ e, all_answered retries (lk_rpc l) (lk_next l) = true → op (lk_server l) = (Err e, lk_server l) →
       error_msg e ≠ "" →
       ∃ l', op' l = (Err (EMsg (error_msg e)), l') ∧ lk_server l' = lk_server l ∧ lk_late l' = []).

Lemma no_wakes ix l : lk_late l = [] → forM ix wake l = (Ok tt, l).
Proof.
  intros Hl. unfold forM. induction ix as [|i ix IH]; [done|]. cbn [foldM].
  rewrite (bind_Ok_l _ _ l tt l); [exact IH|]. unfold wake. rewrite (bind_Ok_l get _ l l l) by done.
  by rewrite Hl.
Qed.
(** A turn of a client that has a connection, or gets one. *)
Lemma turn_connected {A} (c : GoM error (Link P) A) l : lk_late l = [] →
  lk_rpc l || bool_decide (at_dial (attempt_at (lk_next l)) = None) = true →
  call_turn c l = (r <- try c ;; modify next_attempt ;;;
     match r with inr err => modify (put_rpc false) ;;; throw err | inl a => ret a end) (put_rpc true l).
Proof.
  intros Hl Hc. unfold call_turn. rewrite (bind_Ok_l get _ l l l) by done.
  rewrite (bind_Ok_l _ _ l tt l) by (by apply no_wakes).
  assert (getConnection l = (Ok tt, put_rpc true l)) as Hg.
  { unfold getConnection. rewrite (bind_Ok_l get _ l l l) by done. destruct (lk_rpc l) eqn:Hr.
    - destruct l; simpl in *. by subst.
    - simpl in Hc. apply bool_decide_eq_true in Hc. by rewrite Hc. }
  rewrite (bind_Ok_l _ _ l (inl tt) (put_rpc true l)); [done|]. apply try_Ok. exact Hg.
Qed.
Lemma turn_answered {A} (zero : A) m l : lk_late l = [] →
  answered (lk_rpc l) (attempt_at (lk_next l)) = true →
  call_turn (rpc_Go zero m) l =
    match m (lk_server l) with
    | (Ok a, p') => (Ok a, mkLink p' [] true (S (lk_next l)))
    | (Err e, p') =>
        if bool_decide (error_msg e = "") then (Ok zero, mkLink p' [] true (S (lk_next l)))
        else (Err (EMsg (error_msg e)), mkLink p' [] false (S (lk_next l)))
    | (Panic, p') => (Panic, mkLink p' [] true (lk_next l))
    | (OutOfFuel, p') => (OutOfFuel, mkLink p' [] true (lk_next l))
    end.
Proof.
  unfold answered. intros Hl [Hc Ha]%andb_true_iff. rewrite (turn_connected _ l Hl Hc).
  destruct (at_exchange (attempt_at (lk_next l))) eqn:He; try done.
  destruct l as [p ms rpc i]. simpl in *. subst ms.
  unfold rpc_Go, serve, bind, try, get, zoom, modify, lift, throw, ret. simpl. rewrite He. simpl.
  destruct (m p) as [[a|e| |] p']; simpl; try done. by destruct (bool_decide (error_msg e = "")).
Qed.
Lemma turn_undelivered {A} (zero : A) m l : lk_late l = [] →
  undelivered (lk_rpc l) (attempt_at (lk_next l)) = true →
  ∃ err, call_turn (rpc_Go zero m) l = (Err err, mkLink (lk_server l) [] false (S (lk_next l))).
Proof.
  intros Hl Hu. destruct (lk_rpc l || bool_decide (at_dial (attempt_at (lk_next l)) = None)) eqn:Hc.
  - rewrite (turn_connected _ l Hl Hc). unfold undelivered in Hu. rewrite Hc in Hu. simpl in Hu.
    unfold rpc_Go, bind, try, get, modify, throw, ret. simpl.
    destruct (at_exchange (attempt_at (lk_next l))) as [|[]|[] err]; try done; simpl;
      unfold next_attempt, put_rpc; simpl; rewrite Hl; eauto.
  - apply orb_false_iff in Hc as [Hr Hd]. apply bool_decide_eq_false in Hd.
    destruct (at_dial (attempt_at (lk_next l))) as [err|] eqn:Hdial; [|done]. exists err.
    unfold call_turn. rewrite (bind_Ok_l get _ l l l) by done.
    rewrite (bind_Ok_l _ _ l tt l) by (by apply no_wakes).
    unfold getConnection, bind, try, get, modify, throw, ret. rewrite Hr, Hdial. simpl.
    unfold next_attempt. by rewrite Hr, Hl.
Qed.
Lemma turns_transmit {A} (zero : A) m more l r p' : lk_late l = [] →
  gets_through (S more) (lk_rpc l) (lk_next l) = true → m (lk_server l) = (Ok r, p') →
  ∃ l', call_turns (rpc_Go zero m) more l = (Ok r, l') ∧ lk_server l' = p' ∧ lk_late l' = [].
Proof.
  revert l. induction more as [|more IH]; intros l Hl Hg Hm.
  all: cbn [gets_through] in Hg; apply orb_true_iff in Hg as [Ha|Hu];
    [pose proof (turn_answered zero m l Hl Ha) as Ht; rewrite Hm in Ht;
     exists (mkLink p' [] true (S (lk_next l))); cbn [call_turns]; unfold bind, try; by rewrite Ht
    |apply andb_true_iff in Hu as [Hu Hg]].
  - done.
  - destruct (turn_undelivered zero m l Hl Hu) as [err Ht].
    destruct (IH (mkLink (lk_server l) [] false (S (lk_next l))) eq_refl Hg Hm) as (l' & Hc & Hl').
    exists l'. split; [|done]. cbn [call_turns]. unfold bind at 1, try. rewrite Ht. exact Hc.
Qed.
Lemma turns_fail {A} (zero : A) m more l e : lk_late l = [] →
  all_answered (S more) (lk_rpc l) (lk_next l) = true → m (lk_server l) = (Err e, lk_server l) →
  error_msg e ≠ "" →
  ∃ l', call_turns (rpc_Go zero m) more l = (Err (EMsg (error_msg e)), l') ∧
    lk_server l' = lk_server l ∧ lk_late l' = [].
Proof.
  revert l. induction more as [|more IH]; intros l Hl Hg Hm Hne.
  all: cbn [all_answered] in Hg; apply andb_true_iff in Hg as [Ha Hg];
    pose proof (turn_answered zero m l Hl Ha) as Ht; rewrite Hm, (bool_decide_eq_false_2 _ Hne) in Ht.
  - eexists. cbn [call_turns]. unfold bind, try. by rewrite Ht.
  - destruct (IH (mkLink (lk_server l) [] false (S (lk_next l))) eq_refl Hg Hm Hne) as (l' & Hc & Hl').
    exists l'. split; [|done]. cbn [call_turns]. unfold bind at 1, try. rewrite Ht. exact Hc.
Qed.
Lemma call_transmits {A} (zero : A) m : transmits m (app_call zero m).
Proof.
  intros l Hl. split.
  - intros r p' Hg Hm. by apply turns_transmit.
  - intros e Hg Hm Hne. by apply turns_fail.
Qed.
Lemma transmits_ext {A} (op1 op2 : GoM error P A) op' :
  (∀ p, op1 p = op2 p) → transmits op2 op' → transmits op1 op'.
Proof. intros Heq H l Hl. setoid_rewrite Heq. by apply H. Qed.
End refinement.

(** C30: Without lost answers the socket proxy is the in-process proxy. Let no
    handler of an earlier call still be running, and let JSON carry the block
    and its response unchanged. When a handler of the application succeeds,
    one of the three attempts is answered and the ones before it fail before
    the request is delivered, the node is answered what the handler answers
    and the application is left as the handler leaves it, whichever of the
    four operations is called. When a handler fails, with a text and without
    changing the application, and all three attempts are answered, the node is
    answered an error of the same text and the application is unchanged. (A
    handler that fails after changing the application is run again:
    [calls_executed].) *)
Theorem socket_refines_inmem `{NT : Network} `{RC : RPCCodec} {P} `{PH : ProxyHandler P} (b : Block) :
  rpc_Block b = Ok b → (∀ p, match (CommitHandler b p).1 with
                             | Ok r => rpc_CommitResponse r = Ok r
                             | _ => True
                             end) →
  transmits (CommitBlock (AppProxy:=InmemProxy) b) (CommitBlock (AppProxy:=SocketAppProxy) b) ∧
  (∀ i, transmits (GetSnapshot (AppProxy:=InmemProxy) i) (GetSnapshot (AppProxy:=SocketAppProxy) i)) ∧
  (∀ s, transmits (Restore (AppProxy:=InmemProxy) s) (Restore (AppProxy:=SocketAppProxy) s)) ∧
  (∀ s, transmits (OnStateChanged (AppProxy:=InmemProxy) s)
                  (OnStateChanged (AppProxy:=SocketAppProxy) s)).
Proof.
  intros Hb Hr. split_and!.
  - apply (transmits_ext _ (State_CommitBlock b)); [|apply call_transmits]. intros p.
    specialize (Hr p). change (CommitHandler b p = State_CommitBlock b p).
    unfold State_CommitBlock, Server_CommitBlock, bind, lift. rewrite Hb.
    destruct (CommitHandler b p) as [[r|e| |] p']; try done. simpl in Hr. by rewrite Hr.
  - intros i. apply call_transmits.
  - intros s l Hl. destruct (call_transmits [] (Server_Restore s) l Hl) as [Hok Herr].
    cbn [Restore SocketAppProxy InmemProxy]. unfold Client_Restore, InmemProxy_Restore. split.
    + intros r p' Hg (h & p1 & Hm & [<- <-]%ret_Ok)%bind_Ok.
      destruct (Hok h p1 Hg Hm) as (l' & Hc & Hl'). exists l'. split; [|done].
      by rewrite (bind_Ok_l _ _ _ _ _ Hc).
    + intros e Hg Hm Hne. assert (Server_Restore s (lk_server l) = (Err e, lk_server l)) as Hm'.
      { unfold bind, ret in Hm. unfold Server_Restore.
        destruct (RestoreHandler s (lk_server l)) as [[] ?]; by simplify_eq. }
      destruct (Herr e Hg Hm' Hne) as (l' & Hc & Hl'). exists l'. split; [|done].
      by rewrite (bind_Err_l _ _ _ _ _ Hc).
  - intros s. apply call_transmits.
Qed.

(** ** Examples *)
Definition PlainRPC : RPCCodec := {| rpc_Block := Ok; rpc_CommitResponse := Ok |}.
(** The first connection is refused, the second request is lost, and the third
    is answered. *)
Definition unreliable : Network := λ i,
  match i with
  | O => mkAttempt [] (Some (EMsg "connection refused")) Answered
  | S O => mkAttempt [] None (Broken Undelivered (EMsg "connection is shut down"))
  | _ => mkAttempt [] None Answered
  end.
(** The first request is delivered, and its answer does not come in time. *)
Definition slow_answer : Network := λ i,
  match i with
  | O => mkAttempt [] None (TimedOut RunsNow)
  | _ => mkAttempt [] None Answered
  end.
Definition small_block (txs : list bytes) : Block :=
  mkBlock (mkBlockBody 0 1 0 [] [] [] txs [] []) ∅.

Lemma socket_refines_inmem_witness :
  let b := small_block [[x01]] in
  let l := NewSocketAppProxyClient NewState in
  ∃ l', CommitBlock (AppProxy:=SocketAppProxy (NT:=unreliable) (RC:=PlainRPC)) b l =
    (Ok (mkCommitResponse (hash_txs [] [[x01]]) []), l') ∧
    committedTxs (lk_server l') = [[x01]].
Proof.
  destruct (socket_refines_inmem (NT:=unreliable) (RC:=PlainRPC) (small_block [[x01]])) as [H _].
  - reflexivity.
  - intros p. reflexivity.
  - destruct (H (NewSocketAppProxyClient NewState) eq_refl) as [Hok _].
    destruct (Hok (mkCommitResponse (hash_txs [] [[x01]]) [])
      (CommitHandler (small_block [[x01]]) NewState).2) as (l' & Hc & Hl & _).
    + reflexivity.
    + reflexivity.
    + exists l'. split; [exact Hc|]. rewrite Hl. reflexivity.
Defined.

(** ** An answer that is lost *)
Section lost.
Context {NT : Network} {P : Type}.
Implicit Types (l : Link P).
(** The request is delivered and its handler runs, but the answer is late or
    the connection breaks. *)
Definition unanswered (rpc : bool) (a : attempt) : bool :=
  (rpc || bool_decide (at_dial a = None)) &&
  match at_exchange a with TimedOut RunsNow | Broken RunsNow _ => true | _ => false end.
Lemma turn_unanswered {A} (zero : A) m l r p' : lk_late l = [] →
  unanswered (lk_rpc l) (attempt_at (lk_next l)) = true → m (lk_server l) = (Ok r, p') →
  ∃ err, call_turn (rpc_Go zero m) l = (Err err, mkLink p' [] false (S (lk_next l))).
Proof.
  unfold unanswered. intros Hl [Hc Hu]%andb_true_iff Hm. rewrite (turn_connected _ l Hl Hc).
  unfold rpc_Go, bind, try, get, modify, throw, ret. simpl.
  destruct (at_exchange (attempt_at (lk_next l))) as [|[]|[] err]; try done; simpl;
    unfold serve, bind, zoom, try, ret; simpl; rewrite Hm; simpl; unfold next_attempt, put_rpc; simpl;
    rewrite Hl; eauto.
Qed.
(** One attempt whose answer is lost, and one that is answered: the handler
    runs twice. *)
Lemma call_runs_twice {A} (zero : A) m l r1 p1 r2 p2 : lk_late l = [] →
  unanswered (lk_rpc l) (attempt_at (lk_next l)) = true →
  answered false (attempt_at (S (lk_next l))) = true →
  m (lk_server l) = (Ok r1, p1) → m p1 = (Ok r2, p2) →
  ∃ l', app_call zero m l = (Ok r2, l') ∧ lk_server l' = p2.
Proof.
  intros Hl Hu Ha H1 H2. destruct (turn_unanswered zero m l r1 p1 Hl Hu H1) as [err Ht].
  pose proof (turn_answered zero m (mkLink p1 [] false (S (lk_next l))) eq_refl Ha) as Ht2.
  simpl in Ht2. rewrite H2 in Ht2. eexists. unfold app_call. simpl. unfold bind at 1, try at 1. rewrite Ht.
  unfold bind at 1, try at 1. rewrite Ht2. done.
Qed.
End lost.


(** The other direction: a transaction whose acknowledgement is lost is
    submitted to consensus twice. *)
Definition lost_answer : Network := λ i,
  match i with
  | O => mkAttempt [] None (Broken RunsNow (EMsg "unexpected EOF"))
  | _ => mkAttempt [] None Answered
  end.
Example lost_acknowledgement tx :
  let '(r, l) := SocketBabbleProxy_SubmitTx (NT:=lost_answer) tx (NewSocketBabbleProxyClient []) in
  r = Ok tt ∧ lk_server l = [tx; tx].
Proof. done. Qed.
