(* ===== verification/ComponentTheorems.v ===== *)
(** * The components: theorems

    The statements about the parts that the hashgraph is built from: quorums
    and peer-sets, the caches, the in-memory store, the text encodings, the
    median timestamp, the selection of gossip peers, the checks before a
    fast-forward. *)
From S2P Require Export NodeTheorems.

(** ** Quorums *)
Section peers.
Implicit Types (ps : PeerSet).

(** Two quorums share an honest member. Any two sets of validators that
    reach the super-majority of a peer-set have more than a third of its
    validators in common. *)
Theorem quorum_intersection ps (X Y : gset string) :
  X ⊆ dom (ByPubKey ps) → Y ⊆ dom (ByPubKey ps) →
  SuperMajority ps ≤ Z.of_nat (size X) → SuperMajority ps ≤ Z.of_nat (size Y) →
  PS_Len ps < 3 * Z.of_nat (size (X ∩ Y)).
Proof. apply supermajority_intersection. Qed.

(** C27: joins and leaves keep a peer-set consistent. On a peer-set without
    repeated keys, adding a peer appends it unless its identifier is taken,
    removing one takes out exactly the peers with that key, and in both cases
    the maps agree with the list of peers: the map by key has exactly the
    peers of the list under their keys, and the map by identifier has, under
    each identifier, the last peer of the list with it, and no other entry. *)
Theorem peer_set_updates ps peer ps1 ps2 id :
  ps_wf ps → ID peer = Ok id → WithNewPeer ps peer = Ok ps1 → WithRemovedPeer ps peer = Ok ps2 →
  (ps_wf ps1 ∧
   Peers ps1 = match ByID ps !! id with Some _ => Peers ps | None => Peers ps ++ [peer] end) ∧
  (ps_wf ps2 ∧ ∀ p, p ∈ Peers ps2 ↔ p ∈ Peers ps ∧ PubKeyHex p ≠ PubKeyHex peer).
Proof.
  intros Hwf Hid H1 H2. split; [by eapply WithNewPeer_wf|by eapply WithRemovedPeer_wf].
Qed.

(** Gossip partners. The selector built from a peer-set picks a peer of
    the set other than the node itself whenever there is one, and, when there
    are at least two, not the one it talked to last, whatever number the
    random generator draws. *)
Theorem gossip_partner (ps : randomPeerSelector) rnd :
  selector_wf ps → selectablePeersSlice ps ≠ [] →
  ∃ p id, next ps rnd = Ok (Some p) ∧ ID p = Ok id ∧ p ∈ Peers (rps_peers ps) ∧
    id ≠ rps_selfID ps ∧ (1 < zlen (selectablePeersSlice ps) → id ≠ rps_last ps).
Proof. apply next_selects. Qed.
End peers.

Section peers_witnesses.
Definition toy_four : PeerSet := toy_peers [1; 2; 3; 4].

Lemma toy_peers_wf ds : is_okb (NewPeerSet (toy_peer <$> ds)) = true →
  bool_decide (NoDup (PubKeyString <$> (toy_peer <$> ds))) = true → ps_wf (toy_peers ds).
Proof.
  intros Hok Hnd. apply bool_decide_eq_true in Hnd. unfold toy_peers.
  destruct (NewPeerSet (toy_peer <$> ds)) as [ps| | |] eqn:Hps; [|done..].
  by eapply NewPeerSet_wf.
Qed.

Lemma quorum_intersection_witness :
  PS_Len toy_four < 3 * Z.of_nat (size
    (({[toy_pubhex 1; toy_pubhex 2; toy_pubhex 3]} : gset string) ∩
      {[toy_pubhex 2; toy_pubhex 3; toy_pubhex 4]})).
Proof.
  apply (quorum_intersection toy_four); try (vm_compute; done).
  - apply (bool_decide_unpack _). vm_compute. exact I.
  - apply (bool_decide_unpack _). vm_compute. exact I.
Defined.

Lemma peer_set_updates_witness :
  ∃ ps1 ps2, WithNewPeer toy_four (toy_peer 5) = Ok ps1 ∧
    WithRemovedPeer toy_four (toy_peer 5) = Ok ps2 ∧ ps_wf ps1 ∧ ps_wf ps2.
Proof.
  assert (ps_wf toy_four) as Hwf by (apply toy_peers_wf; vm_compute; reflexivity).
  destruct (WithNewPeer toy_four (toy_peer 5)) as [ps1| | |] eqn:H1; try (vm_compute in H1; discriminate).
  destruct (WithRemovedPeer toy_four (toy_peer 5)) as [ps2| | |] eqn:H2;
    try (vm_compute in H2; discriminate).
  destruct (ID (toy_peer 5)) as [id| | |] eqn:Hid; try (vm_compute in Hid; discriminate).
  destruct (peer_set_updates toy_four (toy_peer 5) ps1 ps2 id Hwf Hid H1 H2) as [[? _] [? _]].
  exists ps1, ps2. auto.
Defined.

Definition toy_selector4 : randomPeerSelector :=
  res_get (mkSelector toy_four 0 ∅ [] 0)
    (newRandomPeerSelector toy_four (res_get 0 (ID (toy_peer 1)))).
Lemma gossip_partner_witness :
  ∃ p id, next toy_selector4 7 = Ok (Some p) ∧ ID p = Ok id ∧ id ≠ rps_selfID toy_selector4.
Proof.
  assert (selector_wf toy_selector4) as Hwf.
  { unfold toy_selector4.
    destruct (newRandomPeerSelector toy_four _) as [s| | |] eqn:Hs; try (vm_compute in Hs; discriminate).
    eapply newRandomPeerSelector_wf; [exact Hs|].
    set (ids := (λ p, res_get 0 (ID p)) <$> Peers toy_four).
    assert (ID <$> Peers toy_four = Ok <$> ids) as -> by (vm_compute; reflexivity).
    apply NoDup_fmap_2; [intros ? ? [=]; done|]. apply (bool_decide_unpack _). vm_compute. exact I. }
  assert (selectablePeersSlice toy_selector4 ≠ []) as Hne by (vm_compute; discriminate).
  destruct (gossip_partner toy_selector4 7 Hwf Hne) as (p & id & H1 & H2 & _ & H4 & _).
  exists p, id. auto.
Defined.
End peers_witnesses.

(** ** Caches *)
Section caches.
Context {RO : RangeOrder}.

(** The eviction policy. Whatever the sequence of calls of [Add] and [Get]
    on a new cache of [n] entries, the keys it holds are the [n] most recently
    used ones, in that order. *)
Theorem lru_keeps_most_recent {K V} `{Countable K} n cb (ops : list (lru_op K V)) :
  1 ≤ Z.of_nat n →
  let st := lru_run ops (NewLRU (Z.of_nat n) cb, []) in
  (evictList st.1).*1 = take n (latest st.2).
Proof. apply run_recency. Qed.

(** The rolling window. After any number of appends to a rolling index of
    size at least two, it holds a suffix of what was appended, at most [size]
    items and at least half of that (or everything), its last index is that of
    the last item; asking for an index answers the item, [TooLate] below the
    window and [KeyNotFound] above. *)
Theorem rolling_window {A} name size (l : list A) index :
  2 ≤ size →
  let r := append_all l 0 (NewRollingIndex name size) in
  (lastIndex r = zlen l - 1 ∧
   ∃ k, ri_items r = drop k l ∧
        Z.min (zlen l) (size - Z.quot size 2) ≤ zlen l - Z.of_nat k ≤ size) ∧
  RI_GetItem r index =
    if index <? oldest r then Err (NewStoreErr (ri_name r) TooLate (pretty index))
    else match ri_at r index with
         | Some a => Ok a
         | None => Err (NewStoreErr (ri_name r) KeyNotFound (pretty index))
         end.
Proof.
  intros Hsz r. split; [|apply GetItem_spec].
  destruct (append_window name size l Hsz) as (_ & Hlast & Hitems). done.
Qed.

(** Which peer-set governs a round. In a well-formed table of peer-sets
    the answer for a round is the peer-set recorded at the latest round that
    is not after it, or the earliest one if the round precedes them all, and
    no other. *)
Theorem peer_set_of_round c round ps :
  psc_wf c → psc_rounds c ≠ [] →
  PSC_Get c round = Ok ps ↔ ∃ r, governs c r round ∧ psc_peerSets c !! r = Some ps.
Proof. apply PSC_Get_iff. Qed.

(** The queue of pending rounds. Queueing a round that is not yet queued,
    marking rounds as decided, and cleaning processed rounds keep the queue
    sorted without repetition and in agreement with its map; cleaning removes
    exactly the processed rounds. *)
Theorem pending_queue c pr decided processed :
  prc_wf c → Queued c (pr_Index pr) = false →
  prc_wf (PRC_Set c pr) ∧ prc_wf (PRC_Update c decided) ∧ prc_wf (PRC_Clean c processed) ∧
  ∀ p, p ∈ sortedItems (PRC_Clean c processed) ↔ p ∈ sortedItems c ∧ pr_Index p ∉ processed.
Proof.
  intros Hwf Hq. split; [by apply PRC_Set_wf|]. split; [by apply PRC_Update_wf|].
  by apply PRC_Clean_spec.
Qed.
End caches.

Section caches_witnesses.
Lemma lru_keeps_most_recent_witness :
  (evictList (lru_run [OpAdd 1 10; OpAdd 2 20; OpGet 1; OpAdd 3 30] (NewLRU 2 false, [])).1).*1
  = [3; 1] :> list Z.
Proof. exact (lru_keeps_most_recent 2 false [OpAdd 1 10; OpAdd 2 20; OpGet 1; OpAdd 3 30] ltac:(lia)). Defined.

Lemma rolling_window_witness :
  RI_GetItem (append_all [10; 11; 12; 13; 14] 0 (NewRollingIndex "w" 4)) 3 = Ok 13.
Proof. exact (proj2 (rolling_window "w" 4 [10; 11; 12; 13; 14] 3 ltac:(lia))). Defined.

Lemma peer_set_of_round_witness :
  PSC_Get (PSC_Set 0 toy_four NewPeerSetCache).2 5 = Ok toy_four.
Proof.
  apply (peer_set_of_round (PSC_Set 0 toy_four NewPeerSetCache).2 5 toy_four).
  - apply PSC_Set_wf, NewPeerSetCache_wf.
  - vm_compute. discriminate.
  - exists 0. split; [|vm_compute; reflexivity]. 
    assert (psc_rounds (PSC_Set 0 toy_four NewPeerSetCache).2 = [0]) as Hrs by (vm_compute; reflexivity).
    unfold governs. rewrite Hrs. split; [apply list_elem_of_singleton; reflexivity|].
    left. split; [lia|]. intros r' ->%list_elem_of_singleton. lia.
Defined.

Lemma pending_queue_witness :
  prc_wf (PRC_Set NewPendingRoundsCache (mkPR 3 false)) ∧
  prc_wf (PRC_Update NewPendingRoundsCache [3]).
Proof.
  destruct (pending_queue NewPendingRoundsCache (mkPR 3 false) [3] [3] NewPendingRoundsCache_wf eq_refl)
    as (H1 & H2 & _).
  split; [exact H1|exact H2].
Defined.
End caches_witnesses.

(** ** Encodings *)

(** Hexadecimal text. Decoding the text of a byte string gives the byte
    string back, and a text that decodes without error is, but for its first
    two characters and its letter case, the text of what it decodes to. *)
Theorem hex_text bs a b s :
  DecodeFromString (EncodeToString bs) = Ok (bs, None) ∧
  (DecodeFromString (String a (String b s)) = Ok (bs, None) →
   EncodeToString bs = "0X" +:+ ToUpper s).
Proof.
  split; [apply hex_roundtrip|]. unfold DecodeFromString, EncodeToString. simpl.
  intros [= H]. by rewrite (hex_DecodeString_canonical s bs).
Qed.

(** Signatures as text. Decoding the text of a signature gives its two
    numbers back, whatever they are. *)
Theorem signature_text r s : DecodeSignature (EncodeSignature r s) = Ok (Some r, Some s).
Proof. apply DecodeSignature_Encode. Qed.

(** The timestamp of a block cannot be forged by a minority. If more than
    half of the timestamps lie between two bounds, the median does too; the
    bounds keep the sum of two timestamps within 64 bits. *)
Theorem median_bounded (input : list Z) (a b : Z) :
  - 2 ^ 62 ≤ a → b < 2 ^ 62 →
  (length input < 2 * length (filter (λ t, (a ≤ t ≤ b)%Z) input))%nat →
  a ≤ Median input ≤ b.
Proof. apply Median_majority. Qed.

Lemma median_bounded_witness : 10 ≤ Median [1000000; 12; 10] ≤ 12.
Proof. apply (median_bounded [1000000; 12; 10] 10 12); [lia|lia|vm_compute; lia]. Defined.

(** What a block is made of. The block built from a frame has the given
    index, the round, timestamp and hashes of the frame and of its peers, the
    transactions and internal transactions of the frame's events, in order
    and with nothing added or left out, and no signature. *)
Theorem block_of_frame {KP : Keys} {CP : Codec} {RO : RangeOrder} i frame b :
  NewBlockFromFrame i frame = Ok b →
  Block_Index b = i ∧ Block_RoundReceived b = fr_Round frame ∧
  Block_Transactions b = concat ((λ e, Transactions (fe_Core e)) <$> fr_Events frame) ∧
  Block_InternalTransactions b =
    concat ((λ e, InternalTransactions (fe_Core e)) <$> fr_Events frame) ∧
  Block_Timestamp b = fr_Timestamp frame ∧ Frame_Hash frame = Ok (Block_FrameHash b) ∧
  (∃ ps, NewPeerSet (fr_Peers frame) = Ok ps ∧ PS_Hash ps = Ok (Block_PeersHash b)) ∧
  bl_Signatures b = ∅.
Proof. apply NewBlockFromFrame_spec. Qed.

Definition toy_frame : Frame :=
  mkFrame 7 [toy_peer 1] ∅ [mkFrameEvent (toy_event 1 0 "" "" [str_bytes "a"; str_bytes "b"]) 0 0 true] ∅ 99.
Lemma block_of_frame_witness :
  ∃ b, NewBlockFromFrame 3 toy_frame = Ok b ∧ Block_Index b = 3 ∧
    Block_Transactions b = [str_bytes "a"; str_bytes "b"].
Proof.
  assert (is_okb (NewBlockFromFrame 3 toy_frame) = true) as Hok by (vm_compute; reflexivity).
  assert (concat ((λ e, Transactions (fe_Core e)) <$> fr_Events toy_frame)
          = [str_bytes "a"; str_bytes "b"]) as Htx by (vm_compute; reflexivity).
  destruct (NewBlockFromFrame 3 toy_frame) as [b| | |] eqn:Hb; [|discriminate Hok..].
  destruct (block_of_frame 3 toy_frame b Hb) as (H1 & _ & H3 & _).
  exists b. split; [reflexivity|]. split; [exact H1|]. rewrite H3. exact Htx.
Defined.

(** ** The in-memory store *)

(** The store is a map of events with bounded memory. After an event is
    stored successfully, asking for its hash answers that event; asking for
    any other hash answers what it answered before, except that a new event
    stored in a full cache may make another one unavailable, with the error
    [KeyNotFound]. *)
Theorem inmem_event_map {KP : Keys} {CP : Codec} {RO : RangeOrder} e (s s' : InmemStore) :
  inmem_ok s → Inmem_SetEvent e s = (Ok tt, s') →
  inmem_ok s' ∧ (Inmem_GetEvent (Hex e) s').1 = Ok e ∧
  ∀ k, k ≠ Hex e →
    found (v_events (inmem_view s) !! k) (Inmem_GetEvent k s').1 ∨
    found None (Inmem_GetEvent k s').1 ∧ v_events (inmem_view s) !! Hex e = None ∧
      v_size (inmem_view s) ≤ Z.of_nat (size (v_events (inmem_view s))).
Proof.
  intros Hok Hset.
  assert (inmem_ok s' ∧ ∃ evs, v_events (inmem_view s') = evs ∧
    bounded_insert (v_size (inmem_view s)) (Hex e) e (v_events (inmem_view s)) evs) as
    (Hok' & evs & Hevs & Hsub & Hself & Hroom & _).
  { destruct (v_events (inmem_view s) !! Hex e) as [e0|] eqn:He.
    - destruct (Inmem_SetEvent_known e s Hok) as (_ & Hok' & Hv); [eauto|].
      rewrite Hset in Hok', Hv. simpl in Hok', Hv. split; [done|].
      exists (<[Hex e := e]> (v_events (inmem_view s))). split; [by rewrite Hv|].
      split; [done|]. split; [by rewrite lookup_insert_eq|]. done.
    - destruct (PEC_Set (Creator e) (Hex e) (Index e) (v_pec (inmem_view s))) as [r pec] eqn:Hp.
      destruct (Inmem_SetEvent_new e s r pec Hok He Hp) as (Hr & Hok' & Hv).
      rewrite Hset in Hr, Hok', Hv. simpl in Hr, Hok', Hv. subst r. destruct Hv as (evs & Hb & Hv).
      split; [done|]. exists evs. split; [by rewrite Hv|done]. }
  split; [done|]. split.
  { destruct (Inmem_GetEvent_law (Hex e) s' Hok') as (_ & _ & Hf).
    rewrite Hevs, Hself in Hf. exact Hf. }
  intros k Hk. destruct (Inmem_GetEvent_law k s' Hok') as (_ & _ & Hf). rewrite Hevs in Hf.
  destruct (evs !! k) as [ek|] eqn:Hek.
  - left. rewrite map_subseteq_spec in Hsub. apply Hsub in Hek.
    rewrite lookup_insert_ne in Hek by done. by rewrite Hek.
  - destruct (v_events (inmem_view s) !! k) as [ek|] eqn:Hold; [|by left]. right.
    split; [done|].
    destruct (v_events (inmem_view s) !! Hex e) as [e0|] eqn:He.
    + rewrite (Hroom (or_introl (ex_intro _ e0 eq_refl))) in Hek.
      rewrite lookup_insert_ne in Hek by done. congruence.
    + split; [done|]. destruct (decide (Z.of_nat (size (v_events (inmem_view s))) < v_size (inmem_view s)))
        as [Hlt|]; [|lia].
      rewrite (Hroom (or_intror Hlt)), lookup_insert_ne in Hek by done. congruence.
Qed.

Lemma inmem_event_map_witness :
  ∃ s', Inmem_SetEvent toy_a0 (hg_Store toy_start.1) = (Ok tt, s') ∧
    (Inmem_GetEvent (Hex toy_a0) s').1 = Ok toy_a0.
Proof.
  assert (is_okb (Inmem_SetEvent toy_a0 (hg_Store toy_start.1)).1 = true) as Hr by (vm_compute; reflexivity).
  assert (inmem_ok (hg_Store toy_start.1)) as Hok.
  { destruct (Init_inv 10 (toy_peers [1; 2])) as ((_ & _ & _ & Hs) & _); [lia|]. exact (proj1 Hs). }
  destruct (Inmem_SetEvent toy_a0 (hg_Store toy_start.1)) as [r s'] eqn:Hset.
  destruct r as [[]| | |]; [|discriminate Hr..]. exists s'. split; [reflexivity|].
  exact (proj1 (proj2 (inmem_event_map toy_a0 (hg_Store toy_start.1) s' Hok Hset))).
Defined.

(** ** Fast-forward *)
Section check_block.
Context {KP : Keys} {CP : Codec} {RO : RangeOrder}.

(** A signature that counts: of a validator, and right for the block. *)
Definition counts (b : Block) (ps : PeerSet) (s : BlockSignature) : bool :=
  match ByPubKey ps !! ValidatorHex s with
  | Some _ => match Block_Verify b s with Ok true => true | _ => false end
  | None => false
  end.
Definition valid_signatures (b : Block) (ps : PeerSet) (sigs : list BlockSignature) : Z :=
  zlen (filter (λ s, counts b ps s = true) sigs).

Lemma CheckBlock_loop b ps sigs n n' :
  res_foldM (λ n s,
      match ByPubKey ps !! ValidatorHex s with
      | None => Ok n
      | Some _ =>
          match Block_Verify b s with
          | Ok true => Ok (n + 1)
          | Ok false | Err _ => Ok n
          | Panic => Panic
          | OutOfFuel => OutOfFuel
          end
      end) n sigs = Ok (E:=error) n' → n' = n + valid_signatures b ps sigs.
Proof.
  unfold valid_signatures, zlen. revert n. induction sigs as [|s sigs IH]; intros n; simpl.
  { intros [= <-]. simpl. lia. }
  rewrite filter_cons.
  destruct (decide (counts b ps s = true)) as [Hc|Hc]; unfold counts in Hc;
    destruct (ByPubKey ps !! ValidatorHex s); try done;
    try (destruct (Block_Verify b s) as [[]| | |]; try done); simpl;
    intros H; apply IH in H; simpl; lia.
Qed.

Lemma CheckBlock_spec b ps : CheckBlock b ps = Ok tt →
  PS_Hash ps = Ok (Block_PeersHash b) ∧
  ∃ sigs, GetSignatures b = Ok sigs ∧ TrustCount ps < valid_signatures b ps sigs.
Proof.
  unfold CheckBlock. intros (psh & Hh & H)%res_bind_Ok.
  destruct (negb _) eqn:Heq; [done|]. apply negb_false_iff, bool_decide_eq_true in Heq as ->.
  apply res_bind_Ok in H as (sigs & Hsigs & H). apply res_bind_Ok in H as (n & Hn & H).
  apply CheckBlock_loop in Hn as ->. split; [done|]. exists sigs. split; [done|].
  destruct (0 + valid_signatures b ps sigs <=? TrustCount ps) eqn:Hle; [done|]. lia.
Qed.

(** C22: a fast-forward is checked first. Whatever block and frame another node
    answers, the core is exactly as it was unless the hash of the frame's
    peers is the one in the block, more signatures of the block than the trust
    count are valid and by those peers, and the frame's hash is the one in the
    block. *)
Theorem fast_forward_checked {St} {STO : Store St} {P} fuel block frame
    (s : Hashgraph St * (coreState * P)) :
  (fastForward fuel block frame s).2 = s ∨
  ∃ ps sigs, NewPeerSet (fr_Peers frame) = Ok ps ∧ PS_Hash ps = Ok (Block_PeersHash block) ∧
    GetSignatures block = Ok sigs ∧ TrustCount ps < valid_signatures block ps sigs ∧
    Frame_Hash frame = Ok (Block_FrameHash block).
Proof.
  unfold fastForward. unfold bind at 1, lift at 1.
  destruct (NewPeerSet (fr_Peers frame)) as [ps| | |] eqn:Hps; [|by left..].
  unfold bind at 1, lift at 1. destruct (CheckBlock block ps) as [[]| | |] eqn:Hc; [|by left..].
  unfold bind at 1, lift at 1. destruct (Frame_Hash frame) as [fh| | |] eqn:Hf; [|by left..].
  destruct (bool_decide (Block_FrameHash block = fh)) eqn:Heq; simpl; [|by left].
  apply bool_decide_eq_true in Heq as <-. apply CheckBlock_spec in Hc as (Hh & sigs & Hs & Ht).
  right. exists ps, sigs. done.
Qed.

Lemma res_mapM_all {A B} (f : A → res B) (l : list A) (Q : B → Prop) :
  (∀ a, a ∈ l → ∃ b, f a = Ok b ∧ Q b) →
  ∃ bs, res_mapM f l = Ok bs ∧ length bs = length l ∧ ∀ b, b ∈ bs → Q b.
Proof.
  unfold res_mapM. intros Hf.
  assert (∀ acc, (∀ b, b ∈ acc → Q b) →
    ∃ bs, res_foldM (λ acc a, b <-- f a ;; Ok (acc ++ [b])) acc l = Ok bs ∧
      length bs = (length acc + length l)%nat ∧ ∀ b, b ∈ bs → Q b) as H; [|exact (H [] ltac:(set_solver))].
  induction l as [|a l IH]; intros acc Hacc; simpl; [exists acc; split; [done|]; split; [lia|done]|].
  destruct (Hf a ltac:(set_solver)) as (b & -> & Hb). simpl.
  destruct (IH ltac:(intros; apply Hf; set_solver) (acc ++ [b])) as (bs & Hbs & Hlen & HQ).
  { intros b' [?| ->%list_elem_of_singleton]%elem_of_app; auto. }
  exists bs. split; [done|]. rewrite length_app in Hlen. simpl in Hlen. split; [lia|done].
Qed.

Lemma CheckBlock_counts b ps sigs : (∀ s, s ∈ sigs → counts b ps s = true) → ∀ n,
  res_foldM (λ n s,
      match ByPubKey ps !! ValidatorHex s with
      | None => Ok n
      | Some _ =>
          match Block_Verify b s with
          | Ok true => Ok (n + 1)
          | Ok false | Err _ => Ok n
          | Panic => Panic
          | OutOfFuel => OutOfFuel
          end
      end) n sigs = Ok (E:=error) (n + zlen sigs).
Proof.
  induction sigs as [|s sigs IH]; intros Hall n; simpl; [unfold zlen; simpl; f_equal; lia|].
  pose proof (Hall s ltac:(set_solver)) as Hs. unfold counts in Hs.
  destruct (ByPubKey ps !! ValidatorHex s); [|done].
  destruct (Block_Verify b s) as [[]| | |]; try done. simpl.
  rewrite IH by (intros; apply Hall; set_solver). f_equal. unfold zlen. simpl. lia.
Qed.

(** C40: one validator can stand in for a third. [CheckBlock] counts the entries
    of the block's map of signatures and not the validators behind them: if
    every entry decodes to the same validator and carries its valid signature,
    the block passes as soon as there are more entries than the trust count,
    and a public key has many spellings. *)
Theorem check_block_one_signer b ps v sig :
  PS_Hash ps = Ok (Block_PeersHash b) →
  is_Some (ByPubKey ps !! EncodeToString v) →
  Block_Verify b (mkBS v (Block_Index b) sig) = Ok true →
  (∀ k s, bl_Signatures b !! k = Some s → DecodeFromString k = Ok (v, None) ∧ s = sig) →
  TrustCount ps < Z.of_nat (size (bl_Signatures b)) →
  CheckBlock b ps = Ok tt.
Proof.
  intros Hh [p Hp] Hv Hall Ht.
  destruct (res_mapM_all (λ '(val, sig), validatorBytes <-- DecodeFromString val ;;
      Ok (mkBS validatorBytes.1 (Block_Index b) sig)) (range (bl_Signatures b))
      (λ s, counts b ps s = true)) as (sigs & Hsigs & Hlen & Hcount).
  { intros [k s] Hin. rewrite (range_perm (bl_Signatures b)) in Hin.
    apply elem_of_map_to_list in Hin. destruct (Hall k s Hin) as [-> ->]. simpl.
    eexists. split; [done|]. unfold counts, ValidatorHex. simpl. by rewrite Hp, Hv. }
  unfold CheckBlock. rewrite Hh. simpl. rewrite bool_decide_true by done. simpl.
  unfold GetSignatures. rewrite Hsigs. simpl. rewrite CheckBlock_counts by done. simpl.
  assert (zlen sigs = Z.of_nat (size (bl_Signatures b))) as ->.
  { unfold zlen. rewrite Hlen, (range_perm (bl_Signatures b)). by rewrite length_map_to_list. }
  by rewrite (proj2 (Z.leb_gt _ _)).
Qed.
End check_block.

Section check_block_witness.
(** Four validators, of which the first signs under three spellings. *)
Definition toy_forged_body : BlockBody :=
  mkBlockBody 5 9 0 [] [] (res_get [] (PS_Hash toy_four)) [] [] [].
Definition toy_forged_sig : string :=
  res_get "" (s <-- Block_Sign (mkBlock toy_forged_body ∅) (toy_key 1) ;; Ok (bs_Signature s)).
Definition respell (prefix k : string) : string :=
  match k with String _ (String _ t) => prefix +:+ t | _ => k end.
Definition toy_forged : Block :=
  mkBlock toy_forged_body
    {[ toy_pubhex 1 := toy_forged_sig; respell "0x" (toy_pubhex 1) := toy_forged_sig;
       respell "zz" (toy_pubhex 1) := toy_forged_sig ]}.

Lemma forged_entries (m : gmap string string) v sig :
  map_Forall (λ k s, DecodeFromString k = Ok (v, None) ∧ s = sig) m →
  ∀ k s, m !! k = Some s → DecodeFromString k = Ok (v, None) ∧ s = sig.
Proof. intros H k s Hk. exact (H k s Hk). Qed.

Lemma check_block_one_signer_witness : PS_Len toy_four = 4 ∧ CheckBlock toy_forged toy_four = Ok tt.
Proof.
  split; [vm_compute; reflexivity|].
  apply (check_block_one_signer toy_forged toy_four (toy_pub 1) toy_forged_sig).
  - vm_compute. reflexivity.
  - eexists. vm_compute. reflexivity.
  - vm_compute. reflexivity.
  - apply forged_entries. repeat apply map_Forall_insert_2; try (split; vm_compute; reflexivity).
    apply map_Forall_empty.
  - vm_compute. reflexivity.
Defined.
End check_block_witness.
