(* ===== verification/BadgerTheorems.v ===== *)
(** * The persistent store: theorems

    An event that was stored stays readable, across anything the hashgraph
    does and across a restart; the topological sequence of the database is
    the append-only log of the new events; bootstrapping replays that
    sequence without touching the database. *)
From S2P Require Export Database StoreInstances PipelineTheorems.

Section frames.
Context {KP : Keys} {CP : Codec} {RO : RangeOrder} {DC : DBCodec}.
Context {DB : Type} {KVD : KV DB} {LAW : KVLaws DB} {CL : DBCodecLaws} (db_fuel : nat).
Abbreviation BS := (BadgerStore DB).
Implicit Types (s : BadgerStore DB) (d : DB).
#[local] Existing Instance BadgerStore_Store.
#[local] Instance STO : Store BS := BadgerStore_Store db_fuel.

Lemma Badger_SetEvent_spec e s :
  let out := Badger_SetEvent e s in
  badger_maintenanceMode out.2 = badger_maintenanceMode s ∧
  (badger_maintenanceMode s = true → badger_db out.2 = badger_db s) ∧
  if is_ok out.1 && negb (badger_maintenanceMode s)
  then ∃ v, Event_MarshalDB e = Ok v ∧ content out.2 = event_writes (content s) e v
  else content out.2 = content s.
Proof.
  unfold Badger_SetEvent, unless_maintenance, onInmem, zoom, gets, bind.
  destruct (Inmem_SetEvent e (inmemStore s)) as [[[]|err| |] im]; [|by simpl..].
  set (s1 := set_inmemStore im s). change (badger_maintenanceMode s1) with (badger_maintenanceMode s).
  destruct (badger_maintenanceMode s) eqn:Hm; [by simpl|]. rewrite andb_true_r.
  destruct (dbSetEvents_spec e s1) as (_ & Hm1 & Hc). cbv zeta in *. split_and!; [by etrans; [exact Hm1|exact Hm]|done|].
  exact Hc.
Qed.

(** An invariant that only the events and the mode decide. *)
Lemma badger_frame (I : BS → Prop) :
  (∀ s s', beside s s' → I s → I s') → (∀ e, respects (keeps I) (Badger_SetEvent e)) →
  StoreFrame I (λ _, True).
Proof.
  intros Hb He.
  assert (∀ A (m : M BS A), respects beside m → respects (keeps I) m) as Hr.
  { intros A m Hm. apply (respects_impl _ _ _ Hm). intros s s' Hs. unfold keeps. by apply Hb. }
  assert (∀ s im, I s → I (set_inmemStore im s)) as Hmut.
  { intros s im. by apply Hb. }
  split; simpl.
  - intros k s Hs. pose proof (Hr _ _ (beside_cached (Inmem_GetEvent k) (λ d, dbGetEvent d k)
      "Event" k) s Hs) as Hg. unfold Badger_GetEvent. by destruct (cached _ _ _ _ s) as [[]].
  - done.
  - intros e _. apply He.
  - intros r. apply Hr, beside_onInmem.
  - intros r ri. apply Hr, beside_SetRound.
  - intros i. apply Hr, beside_cached.
  - intros b. apply Hr, beside_SetBlock.
  - intros i. apply Hr, beside_onInmem.
  - intros f. apply Hr, beside_SetFrame.
  - intros r ps. apply Hr, beside_SetPeerSet.
  - intros e. apply Hr, beside_onInmem.
  - intros k f s _. apply Hmut.
  - intros k f s. apply Hmut.
  - intros k f s. apply Hmut.
Qed.

(** ** Events are never lost *)
Definition persisted (k : string) s : Prop := holds_event (content s) k.

Lemma holds_event_insert m k v k' : k ≠ k' → holds_event m k → holds_event (<[k' := v]> m) k.
Proof. intros Hne (w & e & Hw & He). exists w, e. by rewrite lookup_insert_ne. Qed.
Lemma holds_event_set m k e v : hash_text k → Event_MarshalDB e = Ok v →
  k = Hex e ∨ holds_event m k → holds_event (event_writes m e v) k.
Proof.
  intros Hk Hv Hor.
  assert (holds_event (<[Hex e := v]> m) k) as H1.
  { destruct (decide (k = Hex e)) as [->|Hne].
    - destruct (unmarshal_marshal e v Hv) as (e' & He' & Hx & _). exists v, e'.
      by rewrite lookup_insert_eq.
    - apply holds_event_insert; [done|]. by destruct Hor. }
  unfold event_writes. case_match; [done|].
  apply holds_event_insert; [|apply holds_event_insert; [|done]].
  - intros ->. by apply (apart_participant (Creator e) (Index e)) in Hk.
  - intros ->. by apply (topo_not_hash (ev_topologicalIndex e)) in Hk.
Qed.
Lemma persisted_SetEvent k e : hash_text k → respects (keeps (persisted k)) (Badger_SetEvent e).
Proof.
  intros Hk s Hp. unfold persisted. destruct (Badger_SetEvent_spec e s) as (_ & _ & Hc).
  cbv zeta in Hc. destruct (_ && _).
  - destruct Hc as (v & Hv & ->). apply holds_event_set; auto.
  - by rewrite Hc.
Qed.
Lemma persisted_beside k s s' : hash_text k → beside s s' → persisted k s → persisted k s'.
Proof.
  intros Hk (_ & Ha & _) (v & e & Hv & He). exists v, e. rewrite Ha; [done|by left].
Qed.
Lemma persisted_frame k : hash_text k → StoreFrame (persisted k) (λ _, True).
Proof.
  intros Hk. apply badger_frame; [intros s s'; by apply persisted_beside|].
  intros e. by apply persisted_SetEvent.
Qed.

(** ** Maintenance mode *)
Definition frozen d s : Prop := badger_maintenanceMode s = true ∧ badger_db s = d.
Lemma frozen_frame d : StoreFrame (frozen d) (λ _, True).
Proof.
  apply badger_frame.
  - intros s s' (Hm & _ & Hd) [Hs <-]. split; [congruence|auto].
  - intros e s [Hs <-]. destruct (Badger_SetEvent_spec e s) as (Hm & Hd & _).
    split; [congruence|auto].
Qed.
Definition normal s : Prop := badger_maintenanceMode s = false.
Lemma normal_frame : StoreFrame normal (λ _, True).
Proof.
  apply badger_frame.
  - intros s s' (Hm & _) Hs. unfold normal. congruence.
  - intros e s Hs. destruct (Badger_SetEvent_spec e s) as (Hm & _). unfold normal. congruence.
Qed.

(** ** An insertion persists its event *)
Lemma Hex_same_public e e' :
  eb_public (ev_Body e') = eb_public (ev_Body e) → Hex e' = Hex e.
Proof. intros Hb. unfold Hex, EventBody_Hash. by rewrite Hb. Qed.
Lemma hoare_SetEvent k e : Hex e = k →
  hoare normal (SetEvent e) (λ _, persisted k) (λ s, normal s ∨ persisted k s).
Proof.
  intros <- s Hn. destruct (Badger_SetEvent_spec e s) as (Hm & _ & Hc). cbv zeta in *.
  unfold normal in *. rewrite Hn in *. rewrite andb_true_r in Hc. simpl.
  destruct (Badger_SetEvent e s) as [[u|err| |] s']; [|by left..].
  destruct Hc as (v & Hv & Hc). unfold persisted. simpl in *. rewrite Hc.
  apply holds_event_set; auto using Hex_text.
Qed.

Section runs.
Context (fuel : nat) {P : Type} (app : Block → GoM error P CommitResponse).
Abbreviation run := (Hashgraph BS * (coreState * P))%type.

Lemma insert_persists e w :
  hoare (λ h, normal (hg_Store h)) (InsertEvent fuel e w)
    (λ _ h, persisted (Hex e) (hg_Store h)) (either normal (persisted (Hex e))).
Proof.
  pose proof normal_frame. pose proof (persisted_frame _ (Hex_text e)).
  eapply hoare_InsertEvent; [done..|]. intros e' Hb. by apply hoare_SetEvent, Hex_same_public.
Qed.
Lemma pipeline_persists e w hx e' hx' :
  InsertEventAndRunConsensus fuel (commit app) e w hx = (Ok e', hx') →
  normal (hg_Store hx.1) → persisted (Hex e) (hg_Store hx'.1).
Proof.
  intros (e1 & hx1 & Hins & Hrest)%bind_Ok Hn.
  pose proof (persisted_frame _ (Hex_text e)) as SF.
  apply zoom_Ok in Hins as (h1 & Hins & ->).
  apply (hoare_Ok _ _ _ _ _ _ _ (insert_persists e w) Hn) in Hins.
  refine (proj1 (respects_Ok (framedX (persisted (Hex e))) _ _ _ _ _ Hrest Hins)).
  apply (framed_run_consensus _ (λ _, True)). intros b. apply (framed_commit _ (λ _, True)).
Qed.

(** What a node does with its hashgraph. *)
Inductive graph_op :=
| GInsert (e : Event) (setWireInfo : bool)
| GProcessSigPool
| GGetFrame (rr : Z)
| GReset (block : Block) (frame : Frame).
Definition run_op (op : graph_op) (hx : run) : run :=
  match op with
  | GInsert e w => (InsertEventAndRunConsensus fuel (commit app) e w hx).2
  | GProcessSigPool => (onHG ProcessSigPool hx).2
  | GGetFrame rr => (onHG (HG_GetFrame fuel rr) hx).2
  | GReset block frame => (onHG (Reset fuel block frame) hx).2
  end.
Definition run_ops (ops : list graph_op) (hx : run) : run := foldl (λ hx op, run_op op hx) hx ops.

Lemma persisted_storable k e : hash_text k → storable (persisted k) e.
Proof. intros Hk e' _. by apply persisted_SetEvent. Qed.
Lemma persisted_op k op hx : hash_text k →
  persisted k (hg_Store hx.1) → persisted k (hg_Store (run_op op hx).1).
Proof.
  intros Hk. pose proof (persisted_frame k Hk) as SF.
  assert (respects (keptX (persisted k) (X:=coreState * P)) (λ hx, (Ok (E:=error) tt, run_op op hx)))
    as Hop; [|exact (Hop hx)].
  intros hx0. destruct op as [e w| |rr|b f]; simpl.
  - apply (kept_pipeline _ (λ _, True)); [|by apply persisted_storable].
    intros b'. apply (framed_commit _ (λ _, True)).
  - by eapply keptX_onHG, kept_framed, framed_ProcessSigPool.
  - by eapply keptX_onHG, kept_framed, framed_HG_GetFrame.
  - apply keptX_onHG, (kept_Reset _ (λ _, True)); [intros e; by apply persisted_storable|].
    apply (respects_impl _ _ _ (beside_Reset f)). intros s s' Hs. unfold keeps.
    by apply persisted_beside.
Qed.
Lemma persisted_ops k ops hx : hash_text k →
  persisted k (hg_Store hx.1) → persisted k (hg_Store (run_ops ops hx).1).
Proof.
  intros Hk. revert hx. induction ops as [|op ops IH]; intros hx Hp; [done|].
  by apply IH, persisted_op.
Qed.

Lemma persisted_readable k s : hash_text k → persisted k s →
  ∃ e, dbGetEvent (badger_db s) k = Ok e ∧ Hex e = k.
Proof.
  intros Hk (v & e & Hv & He & Hx). exists e. split; [|done]. unfold dbGetEvent.
  by rewrite (db_view_Some _ k v (hash_text_ne k Hk) Hv).
Qed.

(** C14: once the insertion of an event has succeeded on a store that is not in
    maintenance mode, the event is never lost: whatever the node goes on to do
    with its hashgraph (inserting other events, processing signatures,
    computing frames, resetting to a frame), a store opened on the same
    database afterwards answers the event's hash with an event of that
    hash. *)
Theorem events_survive e w hx e' hx' ops size path mode :
  InsertEventAndRunConsensus fuel (commit app) e w hx = (Ok e', hx') →
  badger_maintenanceMode (hg_Store hx.1) = false →
  ∃ s found,
    NewBadgerStore size path mode (Ok (badger_db (hg_Store (run_ops ops hx').1))) = Ok s ∧
    (GetEvent (Hex e) s).1 = Ok found ∧ Hex found = Hex e.
Proof.
  intros Hins Hn. apply pipeline_persists in Hins; [|done].
  apply (persisted_ops _ ops) in Hins; [|apply Hex_text].
  destruct (persisted_readable _ _ (Hex_text e) Hins) as (found & Hf & Hx).
  eexists _, found. split_and!; [done| |done].
  simpl. unfold Badger_GetEvent, cached, bind, try, onInmem, zoom. simpl. by rewrite Hf.
Qed.
End runs.

(** ** The topological sequence *)

(** What the database holds under the topological key [i] is the event of
    [es] there. *)
Abbreviation entry d es i := (match es !! i%nat with
    | Some e =>
        kv_content d !! topologicalEventKey (Z.of_nat i) = Some (String.list_byte_of_string (Hex e)) ∧
        ∃ v, kv_content d !! Hex e = Some v ∧ Event_UnmarshalDB v = Ok e
    | None => kv_content d !! topologicalEventKey (Z.of_nat i) = None
    end).
(** [es] is what the database holds under the topological keys, in order. *)
Definition db_log d (es : list Event) : Prop := ∀ i : nat, entry d es i.
(** The abstract state: the hashes of the events, in the order they were first
    stored; no other event is in the database. *)
Definition log_of d (L : list string) : Prop :=
  ∃ es, db_log d es ∧ Hex <$> es = L ∧
    ∀ k, hash_text k → is_Some (kv_content d !! k) → k ∈ L.

Lemma topo_ne i : topologicalEventKey i ≠ "".
Proof. done. Qed.
(** Reading stops at the first missing key: what comes after does not matter. *)
Lemma topologicalEvents_from_upto d es m n (i : nat) acc :
  (∀ j : nat, (j ≤ m)%nat → entry d es j) → (length es ≤ m)%nat → (i ≤ m)%nat →
  topologicalEvents_from n d (Z.of_nat i) acc = Ok (acc ++ take n (drop i es)).
Proof.
  intros Hlog Hm. revert i acc. induction n as [|n IH]; intros i acc Him; simpl;
    pose proof (Hlog i Him) as Hi; pose proof (kv_Get_law d [] _ (topo_ne (Z.of_nat i))) as Hg; simpl in Hg.
  - rewrite take_0, app_nil_r. destruct (es !! i) as [e|].
    + destruct Hi as [Hi _]. rewrite Hi in Hg. by destruct Hg as (it & -> & _).
    + rewrite Hi in Hg. by rewrite Hg, isDBKeyNotFound_refl.
  - destruct (es !! i) as [e|] eqn:He.
    + destruct Hi as (Hi & v & Hv & Hd). rewrite Hi in Hg. destruct Hg as (it & -> & ->).
      rewrite String.string_of_list_byte_of_string.
      rewrite (db_view_Some _ _ v (hash_text_ne _ (Hex_text e)) Hv). simpl. rewrite Hd. simpl.
      replace (Z.of_nat i + 1) with (Z.of_nat (S i)) by lia.
      apply lookup_lt_Some in He as Hlt. rewrite IH by lia.
      by rewrite (drop_S es e i He), <-app_assoc.
    + rewrite Hi in Hg. rewrite Hg, isDBKeyNotFound_refl.
      by rewrite drop_ge, take_nil, app_nil_r by (by apply lookup_ge_None).
Qed.
Lemma dbTopologicalEvents_log d es (start : nat) n : db_log d es →
  dbTopologicalEvents d (Z.of_nat start) n = Ok (take (Z.to_nat n) (drop start es)).
Proof.
  intros Hlog. unfold dbTopologicalEvents.
  apply (topologicalEvents_from_upto d es (start + length es)); [intros j _; apply Hlog|lia..].
Qed.

Lemma log_of_aside d d' L : aside (kv_content d) (kv_content d') → log_of d L → log_of d' L.
Proof.
  intros Ha (es & Hlog & HL & Hin). exists es. split_and!; [|done|].
  - intros i. specialize (Hlog i).
    rewrite (Ha (topologicalEventKey (Z.of_nat i))) by eauto. destruct (es !! i) as [e|]; [|done].
    rewrite (Ha (Hex e)); [done|left; apply Hex_text].
  - intros k Hk. rewrite (Ha k) by auto. by apply Hin.
Qed.

(** Storing an event the log has replaces its value. *)
Lemma log_of_update d d' L e v : log_of d L → Hex e ∈ L → Event_MarshalDB e = Ok v →
  kv_content d' = event_writes (kv_content d) e v → log_of d' L.
Proof.
  intros (es & Hlog & HL & Hin) Hk Hv Hd'.
  destruct (unmarshal_marshal e v Hv) as (e' & He' & Hx & _).
  rewrite <-HL in Hk. apply list_elem_of_fmap in Hk as (e0 & Hx0 & [i0 Hi0]%list_elem_of_lookup).
  assert (kv_content d' = <[Hex e := v]> (kv_content d)) as Hc.
  { rewrite Hd'. unfold event_writes. specialize (Hlog i0). rewrite Hi0 in Hlog.
    destruct Hlog as (_ & v0 & Hv0 & _). by rewrite Hx0, Hv0. }
  exists ((λ x, if decide (Hex x = Hex e) then e' else x) <$> es). split_and!.
  - intros i. specialize (Hlog i). rewrite list_lookup_fmap, Hc.
    rewrite lookup_insert_ne by (apply not_eq_sym, topo_not_hash, Hex_text).
    destruct (es !! i) as [x|]; simpl; [|done]. destruct Hlog as (Ht & v0 & Hv0 & Hd).
    destruct (decide (Hex x = Hex e)) as [Hxe|Hne].
    + rewrite Hx, <-Hxe. split; [done|]. exists v. by rewrite lookup_insert_eq.
    + split; [done|]. exists v0. by rewrite lookup_insert_ne.
  - rewrite <-HL, <-list_fmap_compose. apply list_fmap_ext. intros i x _. simpl.
    destruct (decide (Hex x = Hex e)); congruence.
  - intros k Hkt. rewrite Hc. destruct (decide (k = Hex e)) as [->|Hne].
    + intros _. apply Hin; [apply Hex_text|]. specialize (Hlog i0). rewrite Hi0 in Hlog.
      destruct Hlog as (_ & v0 & Hv0 & _). by rewrite Hx0, Hv0.
    + rewrite lookup_insert_ne by done. by apply Hin.
Qed.

(** Storing a new event under the next index appends it. *)
Lemma log_of_append d d' L e v : log_of d L → Hex e ∉ L →
  ev_topologicalIndex e = zlen L → Event_MarshalDB e = Ok v →
  kv_content d' = event_writes (kv_content d) e v → log_of d' (L ++ [Hex e]).
Proof.
  intros (es & Hlog & HL & Hin) Hk Hti Hv Hd'.
  destruct (unmarshal_marshal e v Hv) as (e' & He' & Hx & _).
  assert (length es = length L) as Hlen by (by rewrite <-HL, length_fmap).
  assert (kv_content d !! Hex e = None) as Hnew.
  { apply eq_None_not_Some. intros Hs. by apply Hk, Hin; [apply Hex_text|]. }
  unfold event_writes in Hd'. rewrite Hnew, Hti in Hd'.
  assert (∀ k, hash_text k → kv_content d' !! k = (<[Hex e := v]> (kv_content d)) !! k) as Hh.
  { intros k Hkt. rewrite Hd', 2!lookup_insert_ne; [done|..].
    - by apply topo_not_hash.
    - by apply apart_participant. }
  assert (∀ i : nat, kv_content d' !! topologicalEventKey (Z.of_nat i) =
      if decide (i = length es) then Some (String.list_byte_of_string (Hex e))
      else kv_content d !! topologicalEventKey (Z.of_nat i)) as Ht.
  { intros i. rewrite Hd', lookup_insert_ne by apply apart_participant. destruct (decide _) as [->|Hne].
    - unfold zlen. by rewrite Hlen, lookup_insert_eq.
    - rewrite !lookup_insert_ne; [done|..].
      + apply not_eq_sym, topo_not_hash, Hex_text.
      + unfold zlen. intros Heq%topologicalEventKey_inj; lia. }
  exists (es ++ [e']). split_and!.
  - intros i. rewrite Ht. specialize (Hlog i). destruct (decide (i = length es)) as [->|Hne].
    + rewrite list_lookup_middle by done. rewrite Hx. split; [done|]. exists v.
      rewrite Hh by apply Hex_text. by rewrite lookup_insert_eq.
    + destruct (decide (i < length es)%nat).
      * rewrite lookup_app_l by done. destruct (es !! i) as [x|] eqn:Hxi; [|done].
        destruct Hlog as (? & v0 & Hv0 & ?). split; [done|]. exists v0.
        rewrite Hh, lookup_insert_ne; [done| |apply Hex_text].
        intros Heq. apply Hk. rewrite Heq, <-HL. apply list_elem_of_fmap_2.
        by eapply list_elem_of_lookup_2.
      * rewrite (lookup_ge_None_2 (es ++ [e'])) by (rewrite length_app; simpl; lia).
        rewrite (lookup_ge_None_2 es) in Hlog by lia. done.
  - by rewrite fmap_app, HL; simpl; rewrite Hx.
  - intros k Hkt. rewrite Hh by done. destruct (decide (k = Hex e)) as [->|Hne].
    + set_solver.
    + rewrite lookup_insert_ne by done. intros Hs%Hin; [set_solver|done].
Qed.

(** ** The log as an abstract specification

    The operations of the store, in any order. The abstract log grows when
    [SetEvent] succeeds on an event it does not have, and no other operation
    changes it. *)
Inductive store_op :=
| SSetEvent (e : Event)
| SSetRound (r : Z) (ri : RoundInfo)
| SSetBlock (b : Block)
| SSetFrame (f : Frame)
| SSetPeerSet (r : Z) (ps : PeerSet)
| SAddConsensusEvent (e : Event)
| SReset (f : Frame)
| SGetEvent (k : string)
| SGetBlock (i : Z)
| SGetRound (r : Z)
| SGetFrame (i : Z).
Definition ignore {A} (m : M BS A) : M BS unit := _ <- m ;; ret tt.
Definition store_run (op : store_op) : M BS unit :=
  match op with
  | SSetEvent e => SetEvent e
  | SSetRound r ri => SetRoundInfo r ri
  | SSetBlock b => SetBlock b
  | SSetFrame f => SetFrame f
  | SSetPeerSet r ps => SetPeerSet r ps
  | SAddConsensusEvent e => AddConsensusEvent e
  | SReset f => Store_Reset f
  | SGetEvent k => ignore (GetEvent k)
  | SGetBlock i => ignore (GetBlock i)
  | SGetRound r => ignore (GetRoundInfo r)
  | SGetFrame i => ignore (GetFrame i)
  end.

Definition log_step (op : store_op) (ok : bool) (L : list string) : list string :=
  match op with
  | SSetEvent e => if ok && negb (bool_decide (Hex e ∈ L)) then L ++ [Hex e] else L
  | _ => L
  end.
Fixpoint run_store (ops : list store_op) s (L : list string) : BS * list string :=
  match ops with
  | [] => (s, L)
  | op :: ops =>
      let '(r, s') := store_run op s in run_store ops s' (log_step op (is_ok r) L)
  end.
(** New events come with consecutive topological indexes. *)
Definition next_index (op : store_op) (L : list string) : bool :=
  match op with
  | SSetEvent e => bool_decide (Hex e ∈ L) || (ev_topologicalIndex e =? zlen L)
  | _ => true
  end.
Fixpoint in_order (ops : list store_op) s (L : list string) : bool :=
  match ops with
  | [] => true
  | op :: ops =>
      next_index op L &&
      let '(r, s') := store_run op s in in_order ops s' (log_step op (is_ok r) L)
  end.

Lemma beside_ignore {A} (m : M BS A) : respects beside m → respects beside (ignore m).
Proof. intros Hm. unfold ignore. respects_go. Qed.
Lemma store_run_beside op : (∀ e, op ≠ SSetEvent e) → respects beside (store_run op).
Proof.
  intros Hne. destruct op; simpl; try apply beside_ignore; try apply beside_cached;
    try apply beside_onInmem; auto using beside_SetRound, beside_SetBlock, beside_SetFrame,
      beside_SetPeerSet, beside_Reset.
  by destruct (Hne e).
Qed.

(** One operation refines one step of the log. *)
Lemma log_simulation op s L : log_of (badger_db s) L → normal s → next_index op L = true →
  let out := store_run op s in
  normal out.2 ∧ log_of (badger_db out.2) (log_step op (is_ok out.1) L).
Proof.
  intros Hlog Hn Hnext. assert ((∃ e, op = SSetEvent e) ∨ (∀ e, op ≠ SSetEvent e)) as [[e ->]|Hne]
    by (destruct op; naive_solver).
  - simpl in *. destruct (Badger_SetEvent_spec e s) as (Hm & _ & Hc). cbv zeta in *.
    split; [unfold normal in *; congruence|]. unfold normal in Hn. rewrite Hn, andb_true_r in Hc.
    destruct (is_ok _); simpl.
    + destruct Hc as (v & Hv & Hc). case_bool_decide as Hin; simpl.
      * by eapply log_of_update.
      * simpl in Hnext. eapply log_of_append; try done. lia.
    + eapply log_of_aside; [|exact Hlog]. intros k _. unfold content in Hc. by rewrite Hc.
  - destruct (store_run_beside op) with (s := s) as (Hm & Ha & _); [naive_solver|]. cbv zeta.
    split; [unfold normal in *; congruence|].
    replace (log_step op _ L) with L by (destruct op; naive_solver).
    by eapply log_of_aside.
Qed.

Lemma run_store_log ops s L :
  log_of (badger_db s) L → normal s → in_order ops s L = true →
  log_of (badger_db (run_store ops s L).1) (run_store ops s L).2.
Proof.
  revert s L. induction ops as [|op ops IH]; intros s L Hlog Hn Ho; simpl; [done|].
  simpl in Ho. apply andb_prop in Ho as [Hnext Ho].
  pose proof (log_simulation op s L Hlog Hn Hnext) as Hsim. cbv zeta in Hsim.
  destruct (store_run op s) as [r s']. destruct Hsim. by apply IH.
Qed.
Lemma log_of_empty d : kv_content d = ∅ → log_of d [].
Proof.
  intros Hd. exists []. rewrite Hd. split_and!; [intros i; by rewrite Hd|done|].
  intros k _. rewrite lookup_empty. by intros [].
Qed.

(** C15: the topological sequence of the database is an append-only log. Take a
    store that is not in maintenance mode (in that mode, which [Bootstrap] sets
    too, storing an event succeeds and writes nothing) and whose database holds
    a log, as an empty one does. For every sequence of store operations,
    some of which may fail, in which new events carry consecutive
    topological indexes: the log contains, in order, after what it had,
    the hash of each event whose first storing succeeded, and nothing else;
    reading the sequence back from the database yields an event for each
    hash of the log, in the order of the log. *)
Theorem log_refined ops s L :
  log_of (badger_db s) L → badger_maintenanceMode s = false → in_order ops s L = true →
  let out := run_store ops s L in
  log_of (badger_db out.1) out.2 ∧
  ∃ es, dbTopologicalEvents (badger_db out.1) 0 (zlen out.2) = Ok es ∧ Hex <$> es = out.2.
Proof.
  intros Hlog Hn Ho. pose proof (run_store_log ops s L Hlog Hn Ho) as Hout.
  split; [exact Hout|]. destruct Hout as (es & Hes & HL & _). exists es. split; [|done].
  rewrite (dbTopologicalEvents_log _ es 0 _ Hes). rewrite drop_0, take_ge; [done|].
  unfold zlen. rewrite <-HL, length_fmap. lia.
Qed.

(** ** A missing index ends the sequence

    What reading the topological sequence finds; other events may be in the
    database besides. *)
Definition sequence_of d (L : list string) : Prop :=
  ∃ es, (∀ i : nat, (i ≤ length es)%nat → entry d es i) ∧ Hex <$> es = L.
Definition store_runs (ops : list store_op) s : BS := foldl (λ s op, (store_run op s).2) s ops.
(** New events come with indexes beyond the end of the sequence. *)
Definition beyond (L : list string) (op : store_op) : Prop :=
  ∀ e, op = SSetEvent e → Hex e ∈ L ∨ zlen L < ev_topologicalIndex e.

Lemma sequence_aside d d' L : aside (kv_content d) (kv_content d') → sequence_of d L → sequence_of d' L.
Proof.
  intros Ha (es & Hlog & HL). exists es. split; [|done]. intros i Hi. specialize (Hlog i Hi).
  rewrite (Ha (topologicalEventKey (Z.of_nat i))) by eauto. destruct (es !! i) as [e|]; [|done].
  rewrite (Ha (Hex e)); [done|left; apply Hex_text].
Qed.
Lemma sequence_beyond d d' L e v : sequence_of d L → Hex e ∈ L ∨ zlen L < ev_topologicalIndex e →
  Event_MarshalDB e = Ok v → kv_content d' = event_writes (kv_content d) e v → sequence_of d' L.
Proof.
  intros (es & Hlog & HL) Hor Hv Hd'. destruct (unmarshal_marshal e v Hv) as (e' & He' & Hx & _).
  assert (length es = length L) as Hlen by (by rewrite <-HL, length_fmap).
  assert (Hex e ∈ L → is_Some (kv_content d !! Hex e)) as Hold.
  { rewrite <-HL. intros (e0 & Hx0 & [i Hi]%list_elem_of_lookup)%list_elem_of_fmap.
    apply lookup_lt_Some in Hi as Hlt.
    specialize (Hlog i ltac:(lia)). rewrite Hi in Hlog. destruct Hlog as (_ & v0 & Hv0 & _). rewrite Hx0. eauto. }
  assert (∀ k, hash_text k → kv_content d' !! k = (<[Hex e := v]> (kv_content d)) !! k) as Hh.
  { intros k Hkt. rewrite Hd'. unfold event_writes. case_match; [done|].
    rewrite 2!lookup_insert_ne; [done|..]; [by apply topo_not_hash|by apply apart_participant]. }
  assert (∀ i, (i ≤ length es)%nat → kv_content d' !! topologicalEventKey (Z.of_nat i) =
      kv_content d !! topologicalEventKey (Z.of_nat i)) as Ht.
  { intros i Hi. rewrite Hd'. unfold event_writes.
    assert (topologicalEventKey (Z.of_nat i) ≠ Hex e) by apply topo_not_hash, Hex_text.
    destruct (kv_content d !! Hex e) eqn:Hold'; [by rewrite lookup_insert_ne|].
    rewrite lookup_insert_ne by apply apart_participant. rewrite !lookup_insert_ne; [done|done|].
    destruct Hor as [Hin|Hlt]; [by destruct (Hold Hin)|]. unfold zlen in Hlt.
    intros Heq%topologicalEventKey_inj; lia. }
  exists ((λ x, if decide (Hex x = Hex e) then e' else x) <$> es). split.
  - intros i. rewrite length_fmap. intros Hi. specialize (Hlog i Hi). rewrite list_lookup_fmap, Ht by done.
    destruct (es !! i) as [x|]; simpl; [|done]. destruct Hlog as (Htx & v0 & Hv0 & Hd).
    destruct (decide (Hex x = Hex e)) as [Hxe|Hne]; rewrite Hh by apply Hex_text.
    + rewrite Hx, <-Hxe. split; [done|]. exists v. by rewrite lookup_insert_eq.
    + split; [done|]. exists v0. by rewrite lookup_insert_ne.
  - rewrite <-HL, <-list_fmap_compose. apply list_fmap_ext. intros i x _. simpl.
    destruct (decide (Hex x = Hex e)); congruence.
Qed.
Lemma beyond_step op s L : sequence_of (badger_db s) L → normal s → beyond L op →
  let s' := (store_run op s).2 in sequence_of (badger_db s') L ∧ normal s'.
Proof.
  intros Hseq Hn Hb. assert ((∃ e, op = SSetEvent e) ∨ (∀ e, op ≠ SSetEvent e)) as [[e ->]|Hne]
    by (destruct op; naive_solver).
  - simpl. destruct (Badger_SetEvent_spec e s) as (Hm & _ & Hc). cbv zeta in *.
    unfold normal in *. rewrite Hn, andb_true_r in Hc. split; [|congruence]. destruct (is_ok _).
    + destruct Hc as (v & Hv & Hc). by eapply sequence_beyond; [..|exact Hc]; eauto.
    + eapply sequence_aside; [|exact Hseq]. intros k _. unfold content in Hc. by rewrite Hc.
  - destruct (store_run_beside op) with (s := s) as (Hm & Ha & _); [naive_solver|]. cbv zeta.
    split; [by eapply sequence_aside|unfold normal in *; congruence].
Qed.
Lemma beyond_runs ops s L : sequence_of (badger_db s) L → normal s → Forall (beyond L) ops →
  sequence_of (badger_db (store_runs ops s)) L ∧ normal (store_runs ops s).
Proof.
  intros Hseq Hn Hb. revert s Hseq Hn. induction Hb as [|op ops Hop _ IH]; intros s Hseq Hn; [done|].
  destruct (beyond_step op s L Hseq Hn Hop). by apply IH.
Qed.
Lemma persisted_runs k ops s : hash_text k → persisted k s → persisted k (store_runs ops s).
Proof.
  intros Hk. revert s. induction ops as [|op ops IH]; intros s Hp; [done|]. apply IH.
  assert ((∃ e, op = SSetEvent e) ∨ (∀ e, op ≠ SSetEvent e)) as [[e ->]|Hne] by (destruct op; naive_solver).
  - by apply persisted_SetEvent.
  - eapply persisted_beside; [done| |exact Hp]. by apply store_run_beside.
Qed.

(** C35: a gap in the topological indexes hides every event stored after it.
    The store is not in maintenance mode and the topological sequence of its
    database ends at some length; the index of that length is not used again
    (an insertion that the store refused has taken it,
    [refused_event_truncates_log]): every event stored from then on is one of
    the sequence or has a greater index. Then, whatever store operations
    follow, reading the topological sequence from the start, as [Bootstrap]
    does, goes on to answer the same events and no others, without an error;
    and each event whose storing succeeded is in the database, which answers
    its hash. *)
Theorem gap_hides_events ops s L :
  sequence_of (badger_db s) L → badger_maintenanceMode s = false → Forall (beyond L) ops →
  let d := badger_db (store_runs ops s) in
  (∀ n, zlen L ≤ n → ∃ es, dbTopologicalEvents d 0 n = Ok es ∧ Hex <$> es = L) ∧
  ∀ before e after, ops = before ++ SSetEvent e :: after →
    is_ok (SetEvent e (store_runs before s)).1 = true → ∃ e', dbGetEvent d (Hex e) = Ok e' ∧ Hex e' = Hex e.
Proof.
  intros Hseq Hn Hb d. split.
  - intros n Hln. destruct (beyond_runs ops s L Hseq Hn Hb) as [(es & Hes & HL) _]. exists es. split; [|done].
    unfold dbTopologicalEvents. change 0 with (Z.of_nat 0).
    rewrite (topologicalEvents_from_upto _ es (length es)) by (done || lia).
    rewrite drop_0, take_ge; [done|]. rewrite <-HL in Hln. unfold zlen in Hln. rewrite length_fmap in Hln. lia.
  - intros before e after -> Hok. apply persisted_readable; [apply Hex_text|]. unfold store_runs.
    rewrite foldl_app. apply (persisted_runs _ after); [apply Hex_text|].
    apply Forall_app in Hb as [Hb _]. destruct (beyond_runs before s L Hseq Hn Hb) as [_ Hn'].
    pose proof (hoare_SetEvent (Hex e) e eq_refl _ Hn') as Hp. fold (store_runs before s).
    change (store_run (SSetEvent e)) with (SetEvent e).
    by destruct (SetEvent e (store_runs before s)) as [[u|err| |] s'].
Qed.

(** ** Bootstrapping *)
Section bootstrap.
Context (fuel : nat) {P : Type} (app : Block → GoM error P CommitResponse).
Abbreviation HX := (GoM error (Hashgraph BS * (coreState * P))).

Definition insert_stored (e : Event) : HX unit :=
  _ <- InsertEventAndRunConsensus fuel (commit app) e true ;; ret tt.

(** The reference: the events in batches of a hundred, [k] full ones and the
    rest. *)
Fixpoint replay (k : nat) (es : list Event) : HX unit :=
  forM (take 100 es) insert_stored ;;;
  onHG ProcessSigPool ;;;
  match k with
  | O => ret tt
  | S k => replay k (drop 100 es)
  end.

Lemma frozen_insert_stored d e : respects (keptX (frozen d)) (insert_stored e).
Proof.
  pose proof (frozen_frame d) as SF. unfold insert_stored.
  apply (respects_bind _); [|intros ?; apply respects_ret, _].
  apply (kept_pipeline _ (λ _, True)); [intros b; apply (framed_commit _ (λ _, True))|].
  intros e' _. by apply (sf_SetEvent (ev:=λ _, True)).
Qed.
Lemma frozen_ProcessSigPool d :
  respects (keptX (frozen d)) (onHG (X:=coreState * P) ProcessSigPool).
Proof. pose proof (frozen_frame d). by eapply keptX_onHG, kept_framed, framed_ProcessSigPool. Qed.
Lemma frozen_batch d es : respects (keptX (frozen d)) (forM es insert_stored).
Proof. apply (respects_forM _), frozen_insert_stored. Qed.
Lemma frozen_replay d k es : respects (keptX (frozen d)) (replay k es).
Proof.
  revert es. induction k as [|k IH]; intros es; simpl;
    (apply (respects_bind _); [apply frozen_batch|intros _]);
    (apply (respects_bind _); [apply frozen_ProcessSigPool|intros _]);
    [apply respects_ret, _|apply IH].
Qed.

(** A computation whose continuation is only reached in frozen states. *)
Lemma bind_frozen {A} d (m : HX A) (c1 c2 : A → HX unit) hx :
  respects (keptX (frozen d)) m → frozen d (hg_Store hx.1) →
  (∀ a hx', frozen d (hg_Store hx'.1) → c1 a hx' = c2 a hx') →
  bind m c1 hx = bind m c2 hx.
Proof.
  intros Hm Hf Hc. specialize (Hm hx Hf). unfold bind.
  destruct (m hx) as [[a|e| |] hx']; [by apply Hc|done..].
Qed.

Lemma replay_unfold k es :
  replay k es = (forM (take 100 es) insert_stored ;;; onHG ProcessSigPool ;;;
    match k with O => ret tt | S k => replay k (drop 100 es) end).
Proof. by destruct k. Qed.

Lemma batches_replay d es n (i : nat) hx :
  db_log d es → frozen d (hg_Store hx.1) → (100 * i ≤ length es)%nat →
  ((length es - 100 * i) / 100 < n)%nat →
  bootstrap_batches db_fuel fuel (commit app) n (Z.of_nat i) hx =
    replay ((length es - 100 * i) / 100) (drop (100 * i) es) hx.
Proof.
  intros Hlog. revert i hx. induction n as [|n IH]; intros i hx Hf Hi Hn; [lia|].
  cbn [bootstrap_batches]. unfold bind at 1, gets. rewrite (proj2 Hf).
  replace (Z.of_nat i * batchSize) with (Z.of_nat (100 * i)) by (unfold batchSize; lia).
  rewrite (dbTopologicalEvents_log d es _ _ Hlog). change (Z.to_nat batchSize) with 100%nat.
  remember (drop (100 * i) es) as rest eqn:Hrest.
  assert (length rest = length es - 100 * i)%nat as Hlen by (rewrite Hrest; apply length_drop).
  rewrite <-Hlen in *. unfold bind at 1, lift. rewrite replay_unfold.
  eapply bind_frozen; [apply frozen_batch|done|]. intros [] hx1 Hf1.
  eapply bind_frozen; [apply frozen_ProcessSigPool|done|]. intros [] hx2 Hf2.
  unfold zlen. rewrite length_take. unfold batchSize.
  destruct (decide (length rest < 100)%nat) as [Hlt|Hge].
  - rewrite Nat.div_small by done. by rewrite (proj2 (Z.ltb_lt _ _)) by lia.
  - rewrite (proj2 (Z.ltb_ge _ _)) by lia.
    assert (length rest / 100 = S ((length es - 100 * (S i)) / 100))%nat as Hdiv.
    { replace (length rest) with (1 * 100 + (length es - 100 * S i))%nat by lia.
      by rewrite Nat.div_add_l. }
    rewrite Hdiv. replace (Z.of_nat i + 1) with (Z.of_nat (S i)) by lia.
    rewrite IH by (done || lia). rewrite Hrest, drop_drop.
    by replace (100 * i + 100)%nat with (100 * S i)%nat by lia.
Qed.

Lemma frozen_genesis d ps : respects (keptX (frozen d))
  (try (onHG (X:=coreState * P) (onStore (onInmem (Inmem_SetPeerSet 0 ps))))).
Proof.
  apply respects_try, keptX_onHG, (respects_zoom _ (keeps (frozen d))).
  - intros s [Hm <-]. destruct (beside_onInmem (Inmem_SetPeerSet 0 ps) s) as (Hm' & _ & Hd').
    split; [congruence|auto].
  - by intros h s Hs.
Qed.

Lemma Bootstrap_run n h x :
  Bootstrap db_fuel fuel (commit app) n (h, x) =
    let out := bootstrap_body db_fuel fuel (commit app) n (h, x) in
    if badger_maintenanceMode (hg_Store h) then out
    else (out.1, (set_mode false out.2.1, out.2.2)).
Proof.
  unfold Bootstrap, bind at 1, gets, deferred, GetMaintenanceMode. cbn [fst]. cbv zeta.
  destruct (badger_maintenanceMode (hg_Store h)); [done|].
  by destruct (bootstrap_body _ _ _ _ _) as [r [h' x']].
Qed.

(** C13: bootstrapping replays the database: it sets the genesis peer-set and
    inserts the events of the topological sequence, from first to last, in
    batches of a hundred followed by the processing of the signatures, the
    last batch being the first that is not full; it stops, as soon as it is
    given one step more than there are full batches. Nothing is written to
    the database meanwhile, and the maintenance mode is what it was. *)
Theorem bootstrap_replays d es ps n h x :
  db_log d es → badger_db (hg_Store h) = d → dbGetPeerSet d 0 = Ok ps →
  (length es / 100 < n)%nat →
  let out := Bootstrap db_fuel fuel (commit app) n (h, x) in
  let ref := (_ <- try (onHG (onStore (onInmem (Inmem_SetPeerSet 0 ps)))) ;;
              replay (length es / 100) es) (set_mode true h, x) in
  let mode := badger_maintenanceMode (hg_Store h) in
  out = (ref.1, (set_mode mode ref.2.1, ref.2.2)) ∧ badger_db (hg_Store out.2.1) = d.
Proof.
  intros Hlog Hd Hps Hn. cbv zeta.
  assert (frozen d (hg_Store (set_mode true h))) as Hf by done.
  assert (bootstrap_body db_fuel fuel (commit app) n (h, x) =
    (_ <- try (onHG (onStore (onInmem (Inmem_SetPeerSet 0 ps)))) ;;
              replay (length es / 100) es) (set_mode true h, x)) as Hbody.
  { unfold bootstrap_body. unfold bind at 1, onHG at 1, zoom at 1, modify. cbn [fst snd].
    unfold bind at 1, gets. cbn [fst]. change (badger_db _) with (badger_db (hg_Store h)).
    rewrite Hd, Hps. eapply bind_frozen; [apply frozen_genesis|done|]. intros u hx' Hf'.
    change 0 with (Z.of_nat 0). rewrite (batches_replay d es) by (done || lia).
    by rewrite Nat.mul_0_r, Nat.sub_0_r, drop_0. }
  assert (respects (keptX (frozen d)) (_ <- try (onHG (onStore (onInmem (Inmem_SetPeerSet 0 ps)))) ;;
    replay (length es / 100) es)) as Hkept.
  { apply (respects_bind _); [apply frozen_genesis|]. intros u. apply frozen_replay. }
  specialize (Hkept (set_mode true h, x) Hf). rewrite Bootstrap_run. cbv zeta. rewrite Hbody.
  destruct (badger_maintenanceMode (hg_Store h));
    destruct (bind _ _ (set_mode true h, x)) as [r [h' x']]; destruct Hkept as [Hm Hd']; simpl in *;
    [|by split].
  split; [|done]. f_equal. f_equal. destruct h' as [[? ? ? ?]]. simpl in *. by subst.
Qed.
End bootstrap.
End frames.

(** ** A node with a database in memory, for the witnesses *)
Section toy_badger.
Abbreviation MapStore := (BadgerStore (gmap string bytes)).
#[local] Instance toy_interface : Store MapStore := BadgerStore_Store 20.
Abbreviation toy_bcommit := (commit (St:=MapStore) (P:=unit) DummyCommitCallback).

Definition toy_badger (d : gmap string bytes) : MapStore :=
  mkBadger (NewInmemStore 10) d "db" false.
Definition toy_bstart : Hashgraph MapStore * (coreState * unit) := Eval vm_compute in
  ((Init toy_alone (NewHashgraph (toy_badger ∅))).2, (toy_cs, tt)).
(** Two events of the validator, and between them one that skips indexes. *)
Definition toy_e0 : Event := toy_event 1 0 "" "" [str_bytes "0"].
Definition toy_bad : Event := toy_event 1 5 (Hex toy_e0) "" [].
Definition toy_e1 : Event := toy_event 1 1 (Hex toy_e0) "" [str_bytes "1"].

Lemma run_ok {E S A} (m : GoM E S A) s : is_ok (m s).1 = true → ∃ a, m s = (Ok a, (m s).2).
Proof. destruct (m s) as [[a|e| |] s']; [eauto|discriminate..]. Qed.

Definition toy_later : list graph_op :=
  [GInsert toy_bad true; GInsert toy_e1 true; GProcessSigPool; GGetFrame 0].
Lemma events_survive_witness :
  ∃ s found,
    NewBadgerStore 10 "db" false
      (Ok (badger_db (hg_Store (run_ops 20 20 DummyCommitCallback toy_later
             (InsertEventAndRunConsensus 20 toy_bcommit toy_e0 true toy_bstart).2).1))) = Ok s ∧
    (GetEvent (Hex toy_e0) s).1 = Ok found ∧ Hex found = Hex toy_e0.
Proof.
  assert (badger_maintenanceMode (hg_Store toy_bstart.1) = false) as Hm
    by (vm_compute; reflexivity).
  destruct (run_ok (InsertEventAndRunConsensus 20 toy_bcommit toy_e0 true) toy_bstart) as [e' He'];
    [vm_compute; reflexivity|].
  exact (events_survive 20 20 DummyCommitCallback toy_e0 true toy_bstart e' _ toy_later 10 "db" false
           He' Hm).
Defined.

Lemma toy_log_empty : log_of (badger_db (toy_badger ∅)) [].
Proof. by apply log_of_empty. Qed.
Definition toy_ops : list store_op :=
  [SSetPeerSet 0 toy_alone; SSetEvent toy_e0; SSetEvent (set_topologicalIndex toy_bad 1); SSetRound 0 NewRoundInfo;
   SSetEvent (SetRound toy_e0 0); SSetEvent (set_topologicalIndex toy_e1 1)].
Lemma log_refined_witness :
  in_order 20 toy_ops (toy_badger ∅) [] = true ∧
  let out := run_store 20 toy_ops (toy_badger ∅) [] in
  log_of (badger_db out.1) out.2 ∧
  ∃ es, dbTopologicalEvents (badger_db out.1) 0 (zlen out.2) = Ok es ∧ Hex <$> es = out.2.
Proof.
  assert (in_order 20 toy_ops (toy_badger ∅) [] = true) as Ho by (vm_compute; reflexivity).
  split; [exact Ho|].
  exact (log_refined 20 toy_ops (toy_badger ∅) [] toy_log_empty eq_refl Ho).
Defined.

(** The sequence has one event; the index 1 is left out. *)
Definition toy_one : MapStore := Eval vm_compute in
  (run_store 20 [SSetPeerSet 0 toy_alone; SSetEvent toy_e0] (toy_badger ∅) []).1.
Lemma toy_one_sequence : sequence_of (badger_db toy_one) [Hex toy_e0].
Proof.
  assert (in_order 20 [SSetPeerSet 0 toy_alone; SSetEvent toy_e0] (toy_badger ∅) [] = true) as Ho
    by (vm_compute; reflexivity).
  pose proof (run_store_log 20 _ _ _ toy_log_empty eq_refl Ho) as (es & Hes & HL & _).
  exists es. split; [intros i _; exact (Hes i)|exact HL].
Qed.
Lemma gap_hides_events_witness :
  let op := SSetEvent (set_topologicalIndex toy_e1 2) in
  let d := badger_db (store_runs 20 [op] toy_one) in
  (∃ es, dbTopologicalEvents d 0 100 = Ok es ∧ Hex <$> es = [Hex toy_e0]) ∧
  ∃ e', dbGetEvent d (Hex toy_e1) = Ok e' ∧ Hex e' = Hex toy_e1.
Proof.
  intros op d.
  assert (Forall (beyond [Hex toy_e0]) [op]) as Hb.
  { constructor; [|constructor]. intros e [= <-]. right. reflexivity. }
  destruct (gap_hides_events 20 [op] toy_one [Hex toy_e0] toy_one_sequence eq_refl Hb) as [Hseq Hget].
  split; [apply (Hseq 100); discriminate|].
  apply (Hget [] (set_topologicalIndex toy_e1 2) []); [reflexivity|vm_compute; reflexivity].
Defined.

(** A database with the genesis peers and two events, and a hashgraph that
    starts on it. *)
Definition toy_db : gmap string bytes := Eval vm_compute in
  badger_db (run_store 20 [SSetPeerSet 0 toy_alone; SSetEvent toy_e0;
    SSetEvent (set_topologicalIndex toy_e1 1)] (toy_badger ∅) []).1.
Lemma toy_db_log : ∃ es, db_log toy_db es ∧ Hex <$> es = [Hex toy_e0; Hex toy_e1].
Proof.
  pose (ops := [SSetPeerSet 0 toy_alone; SSetEvent toy_e0;
                SSetEvent (set_topologicalIndex toy_e1 1)]).
  assert (in_order 20 ops (toy_badger ∅) [] = true) as Ho by (vm_compute; reflexivity).
  assert (badger_db (run_store 20 ops (toy_badger ∅) []).1 = toy_db) as Hd
    by (vm_compute; reflexivity).
  assert ((run_store 20 ops (toy_badger ∅) []).2 = [Hex toy_e0; Hex toy_e1]) as HL
    by (vm_compute; reflexivity).
  destruct (run_store_log 20 ops (toy_badger ∅) [] toy_log_empty eq_refl Ho)
    as (es & Hes & Hx & _).
  rewrite Hd in Hes. rewrite HL in Hx. exists es. split; [exact Hes|exact Hx].
Qed.
Definition toy_reborn : Hashgraph MapStore := NewHashgraph (toy_badger toy_db).
Lemma bootstrap_replays_witness :
  ∃ es, Hex <$> es = [Hex toy_e0; Hex toy_e1] ∧
  let out := Bootstrap 20 20 toy_bcommit 1 (toy_reborn, (toy_cs, tt)) in
  let ref := (_ <- try (onHG (onStore (onInmem (Inmem_SetPeerSet 0 toy_alone)))) ;;
              replay 20 20 DummyCommitCallback (length es / 100) es)
               (set_mode true toy_reborn, (toy_cs, tt)) in
  out = (ref.1, (set_mode false ref.2.1, ref.2.2)) ∧ badger_db (hg_Store out.2.1) = toy_db.
Proof.
  destruct toy_db_log as (es & Hes & Hx). exists es. split; [exact Hx|].
  assert (dbGetPeerSet toy_db 0 = Ok toy_alone) as Hps by (vm_compute; reflexivity).
  assert (length es / 100 < 1)%nat as Hlen.
  { rewrite <-(length_fmap Hex), Hx. vm_compute. lia. }
  exact (bootstrap_replays 20 20 DummyCommitCallback toy_db es toy_alone 1 toy_reborn (toy_cs, tt)
           Hes eq_refl Hps Hlen).
Defined.

(** An event that the store refuses cuts the topological sequence; here, a run of
    three insertions. A validator's event with an index that skips ahead passes the checks of
    [InsertEvent], takes a topological index, and is refused by the store;
    the next event is inserted and persisted under the following index. The
    database has a gap: it answers the hash of the later event, but the
    topological sequence ends before it, and a node that bootstraps from the
    database does not get it back, without an error. *)
Example refused_event_truncates_log :
  let insert e hx := InsertEventAndRunConsensus 20 toy_bcommit e true hx in
  let s0 := insert toy_e0 toy_bstart in
  let s1 := insert toy_bad s0.2 in
  let s2 := insert toy_e1 s1.2 in
  let d := badger_db (hg_Store s2.2.1) in
  let boot := Bootstrap 20 20 toy_bcommit 1 (NewHashgraph (toy_badger d), (toy_cs, tt)) in
  is_ok s0.1 = true ∧
  s1.1 = Err (EMsg "SetEvent: ParticipantEvents[2020387990], 5, Skipped Index") ∧
  is_ok s2.1 = true ∧ is_ok (dbGetEvent d (Hex toy_e1)) = true ∧
  (es <-- dbTopologicalEvents d 0 100 ;; Ok (Hex <$> es)) = Ok [Hex toy_e0] ∧
  boot.1 = Ok tt ∧
  LastEventFrom (hg_Store s2.2.1) (Creator toy_e0) = Ok (Hex toy_e1) ∧
  LastEventFrom (hg_Store boot.2.1) (Creator toy_e0) = Ok (Hex toy_e0).
Proof. vm_compute. repeat split. Qed.

(** The block and the frame of round 1 that a node with five events sends to
    one that catches up: the private fields of the events are not sent. *)
Definition toy_sender : Hashgraph MapStore := Eval vm_compute in
  (foldl (λ hx e, (InsertEventAndRunConsensus 20 toy_bcommit e true hx).2)
     toy_bstart (toy_chain 5)).1.
Definition sent_fe (fe : FrameEvent) : FrameEvent := fe_of_public (fe_public fe).
Definition sent_frame (f : Frame) : Frame :=
  mkFrame (fr_Round f) (fr_Peers f) ((λ r, mkRoot (sent_fe <$> root_Events r)) <$> fr_Roots f)
    (sent_fe <$> fr_Events f) (fr_PeerSets f) (fr_Timestamp f).

(** A node that has fast-forwarded and then fails to bootstrap: [Reset] starts the
    topological indexes again from zero, so that the event inserted later
    replaces the events of the frame in the topological sequence. The
    bootstrap starts with an event whose parent it does not have, and
    fails. *)
Example fast_forward_breaks_bootstrap :
  ∃ block frame,
    (GetBlock 0 (hg_Store toy_sender)).1 = Ok block ∧
    (HG_GetFrame 20 1 toy_sender).1 = Ok frame ∧
    let s0 := Reset 20 block (sent_frame frame) toy_bstart.1 in
    let s1 := InsertEventAndRunConsensus 20 toy_bcommit toy_e1 true (s0.2, (toy_cs, tt)) in
    let d := badger_db (hg_Store s1.2.1) in
    let boot := Bootstrap 20 20 toy_bcommit 1 (NewHashgraph (toy_badger d), (toy_cs, tt)) in
    s0.1 = Ok tt ∧ is_ok s1.1 = true ∧
    boot.1 = Err (ESelfParent "ParticipantEvents, 2020387990, Empty" false).
Proof.
  do 2 eexists. do 2 (split; [vm_compute; reflexivity|]). vm_compute. repeat split.
Qed.
End toy_badger.
