(* ===== verification/TransportTheorems.v ===== *)
(** * The network transport: theorems

    Connections are neither leaked nor shared; short requests are told apart
    on a connection, one of exactly 512 bytes is not. *)
From S2P Require Export NetTransport StoreInstances.
From S2P Require Import Engine.

(** ** The pool of connections *)
(** C25: Connections are neither leaked nor shared. Starting from a new
    transport, after any interleaving of requests that start and end, with
    any failure of the network at any point and a shutdown at any time: every
    connection that was ever dialled is exactly once held by a request, or
    pooled, or released; and a target has at most [maxPool] pooled
    connections, all of them to that target. *)
Theorem connection_pool (max : Z) (steps : list rpc_step) :
  let t := foldl (λ t s, step_run s t) (NewNetworkTransport max) steps in
  (nc_id <$> inUse t) ++ (nc_id <$> pooled (connPool t)) ++ released t ≡ₚ seq 0 (nextConn t) ∧
  ∀ target l, connPool t !! target = Some l →
    zlen l ≤ Z.max 0 max ∧ Forall (λ c, nc_target c = target) l.
Proof.
  assert (∀ t s, maxPool (step_run s t) = maxPool t) as Hmax by exact step_run_max.
  assert (∀ t, pool_ok t → pool_ok (foldl (λ t s, step_run s t) t steps) ∧
    maxPool (foldl (λ t s, step_run s t) t steps) = maxPool t) as Hinv.
  { induction steps as [|s steps IH]; intros t Ht; [done|]. simpl.
    rewrite <-(Hmax t s). apply IH. by apply pool_ok_step. }
  intros t. destruct (Hinv (NewNetworkTransport max)) as [[Hs Hp] Hm]; [|fold t in Hs, Hp, Hm].
  - split; [reflexivity|]. intros target l Hl. simpl in Hl. by rewrite lookup_empty in Hl.
  - split; [|by rewrite Hm in Hp]. by rewrite <-Hs, app_assoc, <-fmap_app.
Qed.

(** ** Reading requests *)
Section reading.
Context {JS : JSONStream} {JL : JSONStreamLaws}.
Context (serve : nat → Command → option (Response * option error)) (written : nat → unit + error).

(** C26: Short requests are told apart. A connection on which the other side
    sends any number of requests, each shorter than the 512 bytes that the
    decoder asks for at least, and delivered in one piece, is read to its
    end: every request is dispatched, in order, with its arguments, and
    answered, although the newline after each is only skipped by the decoder
    when it reads the next one. *)
Theorem requests_framed cmds fuel :
  (∀ k c, is_Some (serve k c)) → (∀ k, written k = inl tt) → Forall small cmds →
  ∃ c, handleConn serve written (S (S fuel)) (S (length cmds)) (accepted (request <$> cmds)) =
         (Err io_EOF, c) ∧
    ib_commands c = cmds ∧ length (ib_answers c) = length cmds.
Proof.
  intros Hserve Hwritten Hall.
  exact (handleConn_requests serve written Hserve Hwritten cmds _ fuel (accepted_clean _) Hall).
Qed.

(** A request of exactly 512 bytes breaks its connection. The decoder
    then reads the value and leaves the newline after it in the reader
    below; [handleCommand] reads this newline as the type of the next
    request. Whatever the peer sends afterwards, the connection is closed
    with an error, after the first request was served. *)
Theorem request_of_512_bytes cmd rest fuel :
  (∀ k c, is_Some (serve k c)) → (∀ k, written k = inl tt) →
  faithful cmd → zlen (json_Command cmd) = 512 →
  ∃ c, handleConn serve written (S (S fuel)) 2 (accepted (request cmd :: rest)) =
         (Err (EMsg "unknown rpc type 10"), c) ∧
    ib_commands c = [cmd] ∧ length (ib_answers c) = 1%nat.
Proof.
  intros Hserve Hwritten Hf Hlen. cbn [handleConn].
  destruct (handleCommand_512 serve written Hserve Hwritten cmd rest fuel Hf Hlen)
    as (c & Hrun & Hr & Hc & Ha).
  rewrite (bind_Ok_l _ _ _ _ _ Hrun). unfold bind at 1, handleCommand, bind at 1.
  rewrite (read_newline (S (S fuel)) c rest Hr). eauto.
Qed.
End reading.

(** ** An encoding of requests, for the witnesses

    Braces around the hexadecimal text of the fields; a value ends with the
    first closing brace. *)
#[export] Instance wire_wbs : Wire WireBlockSignature.
Proof.
  refine (wire_iso (λ b, (wbs_Index b, wbs_Signature b)) (λ '(i, s), mkWBS i s) _). by intros [].
Defined.
#[export] Instance wire_wbody : Wire WireBody.
Proof.
  refine (wire_iso (λ b, (wb_Transactions b, wb_InternalTransactions b, wb_BlockSignatures b,
              wb_CreatorID b, wb_OtherParentCreatorID b, wb_Index b, wb_SelfParentIndex b,
              wb_OtherParentIndex b, wb_Timestamp b))
            (λ '(t, it, bs, c, oc, i, si, oi, ts), mkWireBody t it bs c oc i si oi ts) _).
  by intros [].
Defined.
#[export] Instance wire_wevent : Wire WireEvent.
Proof.
  refine (wire_iso (λ e, (we_Body e, we_Signature e)) (λ '(b, s), mkWireEvent b s) _). by intros [].
Defined.
Definition command_fields (c : Command) : bytes :=
  match c with
  | CSync r => put (sq_FromID r, sq_Known r, sq_SyncLimit r)
  | CEagerSync r => put (eq_FromID r, eq_Events r)
  | CFastForward r => put (fq_FromID r)
  | CJoin r => put (jq_InternalTransaction r)
  | COther => []
  end.
Definition command_of_fields (ty : Z) (bs : bytes) : res Command :=
  if ty =? rpcSync then f <-- decode_ bs ;; Ok (CSync (mkSyncRequest f.1.1 f.1.2 f.2))
  else if ty =? rpcEagerSync then f <-- decode_ bs ;; Ok (CEagerSync (mkEagerRequest f.1 f.2))
  else if ty =? rpcFastForward then i <-- decode_ bs ;; Ok (CFastForward (mkFFRequest i))
  else t <-- decode_ bs ;; Ok (CJoin (mkJoinRequest t)).
Lemma decode_put {A} `{Wire A} (a : A) : decode_ (put a) = Ok a.
Proof. by apply StoreInstances.decode_encode. Qed.
Lemma command_of_command_fields c ty : rpc_type c = Some ty →
  command_of_fields ty (command_fields c) = Ok c.
Proof.
  unfold command_of_fields, command_fields.
  destruct c as [[i k l]|[i es]|[i]|[t]|]; intros [= <-]; simpl (_ =? _); cbv iota;
    by rewrite decode_put.
Qed.

Fixpoint brace_end (bs : bytes) : option nat :=
  match bs with
  | [] => None
  | b :: bs => if decide (b = x7d) then Some 1%nat else S <$> brace_end bs
  end.
Fixpoint brace_scan (bs : bytes) : option (option nat) :=
  match bs with
  | [] => Some None
  | b :: bs =>
      if is_space b then option_map (option_map S) (brace_scan bs)
      else if decide (b = x7b) then Some (S <$> brace_end bs) else None
  end.
Fixpoint skip_space (bs : bytes) : bytes :=
  match bs with b :: r => if is_space b then skip_space r else bs | [] => [] end.
Definition brace_text (bs : bytes) : bytes :=
  x7b :: String.list_byte_of_string (hex_EncodeToString bs) ++ [x7d].
Definition text_brace (bs : bytes) : bytes :=
  let inner := tail (skip_space bs) in
  (hex_DecodeString (String.string_of_list_byte (take (length inner - 1) inner))).1.
#[export] Instance BraceStream : JSONStream := {
  scan_value := brace_scan;
  json_Command := λ c, brace_text (command_fields c);
  unmarshal_command := λ ty bs, command_of_fields ty (text_brace bs);
}.

Lemma brace_end_spec s rest : Forall hex_byte s →
  brace_end (s ++ x7d :: rest) = Some (S (length s)).
Proof.
  induction 1 as [|b s Hb _ IH]; simpl; [done|]. rewrite decide_False; [by rewrite IH|]. by intros ->.
Qed.
Lemma brace_scan_blank ws bs : blank ws = true →
  brace_scan (ws ++ bs) = option_map (option_map (Nat.add (length ws))) (brace_scan bs).
Proof.
  induction ws as [|b ws IH]; simpl; [by destruct (brace_scan bs) as [[]|]|].
  intros [Hb Hws]%andb_true_iff. rewrite Hb, IH by done. by destruct (brace_scan bs) as [[]|].
Qed.
Lemma skip_space_blank ws bs : blank ws = true → skip_space (ws ++ bs) = skip_space bs.
Proof.
  induction ws as [|b ws IH]; simpl; [done|]. intros [Hb Hws]%andb_true_iff. rewrite Hb. by apply IH.
Qed.
#[export] Instance BraceStream_laws : JSONStreamLaws.
Proof.
  split; simpl.
  - intros ws Hws. rewrite <-(app_nil_r ws). by rewrite brace_scan_blank.
  - intros ws c rest Hws _. rewrite brace_scan_blank by done. unfold brace_text. simpl.
    rewrite <-app_assoc. simpl. rewrite brace_end_spec by apply lower_hex_text. simpl.
    rewrite length_app. simpl. do 2 f_equal. lia.
  - intros ws c ty Hws _. unfold text_brace. by rewrite skip_space_blank.
Qed.
Lemma BraceStream_faithful c : is_Some (rpc_type c) → faithful c.
Proof.
  intros [ty Hty]. exists ty. split; [done|]. simpl. unfold text_brace, brace_text. simpl.
  set (s := String.list_byte_of_string (hex_EncodeToString (command_fields c))).
  rewrite length_app. simpl. replace (length s + 1 - 1)%nat with (length s) by lia.
  rewrite take_app_length. unfold s. rewrite String.string_of_list_byte_of_string, lower_hex_decode.
  by apply command_of_command_fields.
Qed.

Definition test_serve (k : nat) (c : Command) : option (Response * option error) :=
  Some (RNil, if (k =? 1)%nat then Some (EMsg "late") else None).
Definition test_commands : list Command :=
  [CFastForward (mkFFRequest 7); CSync (mkSyncRequest 7 {[ 1 := 4 ]} 100);
   CEagerSync (mkEagerRequest 7 [])].
Lemma requests_framed_witness :
  ∃ c, handleConn test_serve (λ _, inl tt) 2 4 (accepted (request <$> test_commands)) =
         (Err io_EOF, c) ∧
    ib_commands c = test_commands ∧ length (ib_answers c) = 3%nat.
Proof.
  apply (requests_framed test_serve (λ _, inl tt) test_commands 0).
  - intros k c. exact (mk_is_Some _ _ eq_refl).
  - intros k. reflexivity.
  - repeat constructor; try (apply BraceStream_faithful; vm_compute; eexists; reflexivity);
      vm_compute; reflexivity.
Defined.

Definition test_512 : Command :=
  CSync (mkSyncRequest (2 ^ 31) {[ 2 ^ 31 := 128; 2 ^ 31 + 1 := 128 ]} 1024).
Lemma request_of_512_bytes_witness :
  ∃ c, handleConn test_serve (λ _, inl tt) 2 2 (accepted (request test_512 :: [request test_512])) =
         (Err (EMsg "unknown rpc type 10"), c) ∧
    ib_commands c = [test_512] ∧ length (ib_answers c) = 1%nat.
Proof.
  apply (request_of_512_bytes test_serve (λ _, inl tt) test_512 [request test_512] 0).
  - intros k c. exact (mk_is_Some _ _ eq_refl).
  - intros k. reflexivity.
  - apply BraceStream_faithful. vm_compute. eexists. reflexivity.
  - vm_compute. reflexivity.
Defined.
