(* ===== verification/EngineTheorems.v ===== *)
(** * The engine and the application: theorems

    A private key survives its file, and the engine starts with the key that
    the command [keygen] made; an application restored from a snapshot
    follows the others; a node in maintenance mode only reads its files and
    its database. *)
From S2P Require Export Settings BadgerTheorems.

(** ** Big-endian bytes *)
Lemma byteZ_bounds b : 0 ≤ byteZ b < 256.
Proof. destruct b; vm_compute; done. Qed.
Lemma byteZ_of_Z z : byteZ (byte_of_Z z) = z mod 256.
Proof.
  unfold byteZ, byte_of_Z. pose proof (Z.mod_pos_bound z 256 eq_refl) as Hb.
  destruct (Byte.of_N (Z.to_N (z mod 256))) as [b|] eqn:Hz; simpl.
  - apply Byte.to_of_N in Hz. lia.
  - apply Byte.of_N_None_iff in Hz. lia.
Qed.

Lemma SetBytes_acc a bs :
  foldl (λ a b, a * 256 + byteZ b) a bs = a * 256 ^ zlen bs + SetBytes bs.
Proof.
  unfold SetBytes. revert a. induction bs as [|b bs IH]; intros a; simpl.
  - unfold zlen. simpl. lia.
  - rewrite IH, (IH (0 * 256 + byteZ b)). unfold zlen. simpl length.
    rewrite Nat2Z.inj_succ, Z.pow_succ_r by lia. lia.
Qed.
Lemma SetBytes_app a b : SetBytes (a ++ b) = SetBytes a * 256 ^ zlen b + SetBytes b.
Proof. unfold SetBytes at 1. rewrite foldl_app. apply SetBytes_acc. Qed.
Lemma SetBytes_cons x bs : SetBytes (x :: bs) = byteZ x * 256 ^ zlen bs + SetBytes bs.
Proof. apply (SetBytes_app [x]). Qed.
Lemma SetBytes_zeros n bs : SetBytes (replicate n x00 ++ bs) = SetBytes bs.
Proof.
  induction n as [|n IH]; simpl; [done|]. rewrite SetBytes_cons, IH. vm_compute (byteZ x00). lia.
Qed.

Lemma bytes_go_spec f n acc : 0 ≤ n < 256 ^ Z.of_nat f →
  SetBytes (bytes_go f n acc) = n * 256 ^ zlen acc + SetBytes acc.
Proof.
  revert n acc. induction f as [|f IH]; intros n acc Hn; simpl.
  - replace n with 0 by (simpl in Hn; lia). lia.
  - destruct (n =? 0) eqn:H0; [lia|].
    rewrite Nat2Z.inj_succ, Z.pow_succ_r in Hn by lia.
    rewrite IH by (Z.to_euclidean_division_equations; lia).
    rewrite SetBytes_cons, byteZ_of_Z. unfold zlen. simpl length.
    rewrite Nat2Z.inj_succ, Z.pow_succ_r by lia.
    pose proof (Z.div_mod n 256 ltac:(lia)). nia.
Qed.
Lemma bytes_go_length f k n acc : (1 ≤ k)%nat → 256 ^ Z.of_nat (k - 1) ≤ n < 256 ^ Z.of_nat k →
  (k ≤ f)%nat → length (bytes_go f n acc) = (k + length acc)%nat.
Proof.
  revert k n acc. induction f as [|f IH]; intros k n acc Hk Hn Hf; [lia|]. simpl.
  assert (0 < 256 ^ Z.of_nat (k - 1)) by (apply Z.pow_pos_nonneg; lia).
  destruct (n =? 0) eqn:H0; [lia|]. destruct (decide (k = 1)%nat) as [->|Hk1].
  - simpl in Hn. replace (n / 256) with 0 by (symmetry; apply Z.div_small; lia).
    destruct f; simpl; lia.
  - rewrite (IH (k - 1)%nat); [simpl; lia|lia| |lia].
    replace (Z.of_nat k) with (Z.succ (Z.of_nat (k - 1))) in Hn by lia.
    replace (Z.of_nat (k - 1)) with (Z.succ (Z.of_nat (k - 1 - 1))) in Hn at 1 by lia.
    rewrite !Z.pow_succ_r in Hn by lia. Z.to_euclidean_division_equations; lia.
Qed.

(** The words of a number. *)
Fixpoint words_val (l : list Z) : Z :=
  match l with [] => 0 | w :: l => w + 2 ^ 64 * words_val l end.
Lemma words_go_spec f n : 0 ≤ n < (2 ^ 64) ^ Z.of_nat f →
  words_val (words_go f n) = n ∧ Forall (λ w, 0 ≤ w < 2 ^ 64) (words_go f n).
Proof.
  revert n. induction f as [|f IH]; intros n Hn; simpl.
  - simpl in Hn. split; [lia|constructor].
  - destruct (n =? 0) eqn:H0; [split; [simpl; lia|constructor]|].
    rewrite Nat2Z.inj_succ, Z.pow_succ_r in Hn by lia.
    destruct (IH (n / 2 ^ 64)) as [Hv Hf]; [Z.to_euclidean_division_equations; lia|].
    pose proof (Z.mod_pos_bound n (2 ^ 64) eq_refl). cbn [words_val].
    split; [|by constructor]. rewrite Hv. pose proof (Z.div_mod n (2 ^ 64) ltac:(lia)). lia.
Qed.

Lemma words_go_length f k n : 0 ≤ n < (2 ^ 64) ^ Z.of_nat k → (length (words_go f n) ≤ k)%nat.
Proof.
  revert k n. induction f as [|f IH]; intros k n Hn; simpl; [lia|].
  destruct (n =? 0) eqn:H0; simpl; [lia|]. destruct k as [|k]; [simpl in Hn; lia|].
  rewrite Nat2Z.inj_succ, Z.pow_succ_r in Hn by lia. apply le_n_S, IH.
  Z.to_euclidean_division_equations; lia.
Qed.

(** The bytes that [readBits] writes for a word, before those it has written. *)
Fixpoint word_bytes (j : nat) (d : Z) (suf : bytes) : bytes :=
  match j with O => suf | S j => word_bytes j (Z.shiftr d 8) (byte_of_Z d :: suf) end.
Lemma word_bytes_spec j d suf : 0 ≤ d →
  length (word_bytes j d suf) = (j + length suf)%nat ∧
  SetBytes (word_bytes j d suf) = (d mod 256 ^ Z.of_nat j) * 256 ^ zlen suf + SetBytes suf.
Proof.
  revert d suf. induction j as [|j IH]; intros d suf Hd; cbn [word_bytes].
  - rewrite Z.mod_1_r. split; [done|lia].
  - rewrite Z.shiftr_div_pow2 by lia. change (2 ^ 8) with 256.
    destruct (IH (d / 256) (byte_of_Z d :: suf)) as [-> ->]; [by apply Z.div_pos|].
    split; [simpl; lia|]. rewrite SetBytes_cons, byteZ_of_Z. unfold zlen. simpl length.
    rewrite !Nat2Z.inj_succ, !Z.pow_succ_r by lia.
    rewrite (Z.rem_mul_r d 256 (256 ^ Z.of_nat j)); [lia|lia|].
    apply Z.pow_pos_nonneg; lia.
Qed.
Lemma readBits_word_spec j d i suf : (j ≤ i)%nat →
  readBits_word j d i (replicate i x00 ++ suf) =
    ((i - j)%nat, replicate (i - j) x00 ++ word_bytes j d suf).
Proof.
  revert d i suf. induction j as [|j IH]; intros d i suf Hj; cbn [readBits_word word_bytes].
  - by rewrite Nat.sub_0_r.
  - destruct i as [|i]; [lia|]. rewrite replicate_S_end, <-app_assoc, insert_app_r_alt.
    + rewrite length_replicate, Nat.sub_diag. simpl. rewrite IH by lia. done.
    + rewrite length_replicate. lia.
Qed.
Lemma readBits_fold l i suf : (8 * length l ≤ i)%nat → Forall (λ w, 0 ≤ w < 2 ^ 64) l →
  ∃ suf', foldl (λ '(i, buf) d, readBits_word (Z.to_nat wordBytes) d i buf)
            (i, replicate i x00 ++ suf) l =
          ((i - 8 * length l)%nat, replicate (i - 8 * length l) x00 ++ suf') ∧
    length suf' = (8 * length l + length suf)%nat ∧
    SetBytes suf' = words_val l * 256 ^ zlen suf + SetBytes suf.
Proof.
  revert i suf. induction l as [|w l IH]; intros i suf Hi Hall.
  { exists suf. simpl. rewrite Nat.sub_0_r. split; [done|]. split; [done|lia]. }
  inversion Hall as [|? ? Hw Hrest]; subst. cbn [length] in Hi. cbn [foldl].
  change (Z.to_nat wordBytes) with 8%nat. rewrite readBits_word_spec by lia.
  destruct (word_bytes_spec 8 w suf) as [Hlen Hval]; [lia|].
  destruct (IH (i - 8)%nat (word_bytes 8 w suf)) as (suf' & Hrun & Hlen' & Hval'); [lia|done|].
  exists suf'. cbn [length]. replace (i - 8 * S (length l))%nat with (i - 8 - 8 * length l)%nat by lia.
  split; [exact Hrun|]. split; [lia|]. rewrite Hval', Hval. unfold zlen. rewrite Hlen.
  change (256 ^ Z.of_nat 8) with (2 ^ 64). rewrite Z.mod_small by lia. cbn [words_val].
  rewrite Nat2Z.inj_add, Z.pow_add_r by lia. change (256 ^ Z.of_nat 8) with (2 ^ 64). lia.
Qed.

(** The padded bytes of a number that fits are as many as asked for, and are
    the number. *)
Lemma paddedBigBytes_spec n : 0 < n < 2 ^ 256 →
  length (paddedBigBytes n 32) = 32%nat ∧ SetBytes (paddedBigBytes n 32) = n.
Proof.
  intros Hn. unfold paddedBigBytes, BitLen. destruct (n =? 0) eqn:H0; [lia|].
  assert (Z.log2 n < 256) as Hlog by (apply Z.log2_lt_pow2; lia).
  destruct (32 <=? (Z.log2 n + 1) / 8) eqn:Hfull.
  - assert (Z.log2 n = 255) as Hl by (Z.to_euclidean_division_equations; lia).
    destruct (Z.log2_spec n) as [Hlo _]; [lia|]. rewrite Hl in Hlo. unfold Bytes. rewrite Hl.
    change (Z.to_nat (255 + 1)) with 256%nat. split.
    + rewrite (bytes_go_length 256 32); [done|lia| |lia].
      assert (256 ^ Z.of_nat (32 - 1) ≤ 2 ^ 255) by (vm_compute; done).
      change (256 ^ Z.of_nat 32) with (2 ^ 256). lia.
    + rewrite bytes_go_spec; [unfold zlen; simpl; unfold SetBytes; simpl; lia|].
      assert (2 ^ 256 ≤ 256 ^ Z.of_nat 256) by (vm_compute; done). lia.
  - unfold readBits. rewrite length_replicate. change (Z.to_nat 32) with 32%nat.
    assert (0 ≤ n < (2 ^ 64) ^ Z.of_nat (Z.to_nat (Z.log2 n + 1))) as Hfuel.
    { destruct (Z.log2_spec n) as [_ Hhi]; [lia|]. pose proof (Z.log2_nonneg n).
      rewrite Z2Nat.id by lia. split; [lia|].
      apply (Z.lt_le_trans _ (2 ^ Z.succ (Z.log2 n))); [done|]. rewrite <-Z.pow_mul_r by lia.
      apply Z.pow_le_mono_r; lia. }
    destruct (words_go_spec _ n Hfuel) as [Hv Hall].
    assert (length (Bits n) ≤ 4)%nat as Hlen.
    { apply (words_go_length _ 4). change ((2 ^ 64) ^ Z.of_nat 4) with (2 ^ 256). lia. }
    destruct (readBits_fold (Bits n) 32 []) as (suf & Hrun & Hls & Hsb); [lia|done|].
    rewrite app_nil_r in Hrun. rewrite Hrun. simpl (_.2). rewrite length_app, length_replicate, Hls.
    rewrite SetBytes_zeros, Hsb. unfold Bits. rewrite Hv. unfold zlen, SetBytes. simpl.
    split; [unfold Bits in Hlen; lia|lia].
Qed.

(** ** The key file *)
Lemma trim_left_hex s : Forall hex_byte s → trim_left s = s ∧ trim_right_rev s = s.
Proof.
  intros [|b r Hb _]; [done|]. clear s. destruct b; try done.
Qed.
Lemma TrimSpace_hex s : Forall hex_byte s → TrimSpace s = s.
Proof.
  intros Hs. unfold TrimSpace. rewrite (proj1 (trim_left_hex s Hs)).
  rewrite (proj2 (trim_left_hex (reverse s) (proj2 (Forall_reverse _ _) Hs))).
  apply reverse_involutive.
Qed.

Lemma ReadKey_written {KP : Keys} {DB} keyfile D p (d : disk DB) :
  0 < D < secp256k1N → ScalarBaseMult D = Some p →
  dk_files d !! keyfile =
    Some (String.list_byte_of_string (hex_EncodeToString (DumpPrivateKey (Some D)))) →
  ReadKey keyfile d = (Ok (D, p), d).
Proof.
  intros HD Hp Hf. unfold ReadKey, ReadFile, bind, gets. rewrite Hf. cbn [ret].
  unfold ret. rewrite TrimSpace_hex by apply lower_hex_text.
  rewrite String.string_of_list_byte_of_string, lower_hex_decode. unfold lift, ParsePrivateKey.
  simpl DumpPrivateKey. change (BitSize / 8) with 32.
  destruct (paddedBigBytes_spec D) as [Hlen Hval]; [unfold secp256k1N in HD; lia|].
  unfold zlen. rewrite Hlen, Hval. change (8 * Z.of_nat 32 =? BitSize) with true. simpl negb.
  cbv iota. rewrite (proj2 (Z.leb_gt _ _)), (proj2 (Z.leb_gt D 0)) by lia. by rewrite Hp.
Qed.

(** C28: A private key survives its file. For every scalar of the curve
    ([0 < D < N]) that has a public point, whatever was in the file before,
    [WriteKey] followed by [ReadKey] returns the same key with its public
    key: the padding to 32 bytes, the word-by-word copy of [readBits], the
    hexadecimal text and the trimming of white space lose nothing. *)
Theorem key_file_roundtrip {KP : Keys} {DB} keyfile D p (d : disk DB) :
  0 < D < secp256k1N → ScalarBaseMult D = Some p →
  let w := WriteKey (inl tt) (inl tt) keyfile D d in
  w.1 = Ok tt ∧ ReadKey keyfile w.2 = (Ok (D, p), w.2) ∧
  dk_dbs w.2 = dk_dbs d ∧ ∀ other, other ≠ keyfile → dk_files w.2 !! other = dk_files d !! other.
Proof.
  intros HD Hp w. split; [done|]. split; [|split; [done|]].
  - apply ReadKey_written; [done..|]. apply lookup_insert_eq.
  - intros other Hne. simpl. by rewrite lookup_insert_ne.
Qed.
Definition test_disk : disk (gmap string bytes) := mkDisk {[ "priv_key" := [x31] ]} ∅.
Lemma key_file_roundtrip_witness :
  let w := WriteKey (inl tt) (inl tt) "priv_key" 1234567890123456789012345 test_disk in
  ReadKey "priv_key" w.2 = (Ok (1234567890123456789012345, toy_point 1234567890123456789012345), w.2).
Proof.
  destruct (key_file_roundtrip "priv_key" 1234567890123456789012345
    (toy_point 1234567890123456789012345) test_disk) as (_ & Hr & _).
  - split; vm_compute; reflexivity.
  - reflexivity.
  - exact Hr.
Defined.

(** ** The key of a new node *)

(** C39: the command [keygen] and the engine agree on the key. When the user has
    a home directory, and the system lets the files be written, [keygen] with
    its default files on a disk without a key saves the key it drew, a scalar
    below the order of the curve with its point, and the
    engine, started with the default settings, reads this key with its public
    point. A second [keygen] fails, whatever it draws, and changes nothing: a
    key is never overwritten. *)
Theorem keygen_then_start {KP : Keys} {DB} env D p (d : disk DB) :
  let s := NewDefaultConfig env in
  let c := validateConfig (DefaultDataDir env) (st_engine s) in
  let priv := defaultPrivateKeyFile s in
  let pub := defaultPublicKeyFile s in
  HomeDir env ≠ "" → dk_files d !! priv = None →
  0 < D < secp256k1N → ScalarBaseMult D = Some p →
  let r := keygen (λ _, inl tt) (Ok (D, p)) priv pub d in
  r.1 = Ok tt ∧
  initKey c r.2 = (Ok (set_eg_Key (Some (D, p)) c), r.2) ∧
  ∀ answers key, ∃ err, keygen answers key priv pub r.2 = (Err err, r.2).
Proof.
  intros s c priv pub Hhome Hnone HD Hp r.
  set (text := String.list_byte_of_string (hex_EncodeToString (DumpPrivateKey (Some D)))).
  assert (r = (Ok tt, mkDisk (<[pub := String.list_byte_of_string (PublicKeyHex (Some p))]>
                               (<[priv := text]> (dk_files d))) (dk_dbs d))) as Hr.
  { unfold r, keygen, bind, gets. rewrite Hnone. done. }
  assert (dk_files r.2 !! priv = Some text) as Hf.
  { rewrite Hr. simpl. rewrite lookup_insert_ne; [by rewrite lookup_insert_eq|].
    unfold pub, priv, defaultPublicKeyFile, defaultPrivateKeyFile. by intros [=]%(inj _). }
  assert (Keyfile c = priv) as Hk.
  { change (Engine.Join (DefaultDataDir env) DefaultKeyfile = DefaultDataDir env +:+ "/priv_key").
    unfold Engine.Join at 1. case_decide as He; [|done]. exfalso. revert He. unfold DefaultDataDir. rewrite bool_decide_false by done. simpl.
    unfold Engine.Join. rewrite decide_False by done. destruct (HomeDir env); [done|].
    by repeat case_bool_decide. }
  split; [by rewrite Hr|]. split.
  - unfold initKey. change (eg_Key c) with (@None (Z * (Z * Z))). cbv iota. rewrite Hk.
    unfold bind, try. by rewrite (ReadKey_written priv D p r.2 HD Hp Hf).
  - intros answers key. eexists. unfold keygen, bind at 1, gets. rewrite Hf. reflexivity.
Qed.

Lemma keygen_then_start_witness :
  let env := mkEnvironment "/root" Panic "linux" in
  let s := NewDefaultConfig env in
  let d := mkDisk (DB:=gmap string bytes) ∅ ∅ in
  let r := keygen (λ _, inl tt) (Ok (12345, toy_point 12345))
             "/root/.babble/priv_key" "/root/.babble/key.pub" d in
  ∃ c, initKey (validateConfig "/root/.babble" (st_engine s)) r.2 = (Ok c, r.2) ∧
       eg_Key c = Some (12345, toy_point 12345).
Proof.
  destruct (keygen_then_start (mkEnvironment "/root" Panic "linux") 12345 (toy_point 12345)
    (mkDisk (DB:=gmap string bytes) ∅ ∅)) as (_ & Hi & _).
  - discriminate.
  - reflexivity.
  - split; vm_compute; reflexivity.
  - reflexivity.
  - eexists. split; [exact Hi|reflexivity].
Defined.

(** The value of the flag [--join-timeout] is lost: the setting is read under
    the name [join_timeout]. Every other flag of [run] is read. *)
Lemma join_timeout_flag_lost : lost_flags = ["join-timeout"].
Proof. reflexivity. Qed.

(** ** The application *)
(** C29: An application that is restored from a snapshot follows the others.
    Let [a] commit blocks, among them [b] and then [bs2], with no second block
    of the index of [b]. It then has the snapshot of [b], and asking for it
    changes nothing. Any application [fresh] that is restored from this
    snapshot, and given the blocks that follow [b], answers each of them as
    the first one did, and ends with the same state hash. *)
Theorem snapshot_resumes {KP : Keys} (a fresh : DummyState) bs1 b bs2 bs3 :
  Block_Index b ∉ Block_Index <$> bs2 →
  let at_b := (commit_all (bs1 ++ [b]) a).2 in
  let now := (commit_all bs2 at_b).2 in
  ∃ snapshot,
    GetSnapshot (Block_Index b) now = (Ok snapshot, now) ∧
    (Restore snapshot fresh).1 = Ok tt ∧
    let joined := (Restore snapshot fresh).2 in
    (commit_all (bs2 ++ bs3) joined).1 = (commit_all bs2 at_b).1 ++ (commit_all bs3 now).1 ∧
    stateHash (commit_all (bs2 ++ bs3) joined).2 = stateHash (commit_all bs3 now).2.
Proof.
  intros Hb at_b now.
  assert (snapshots now !! Block_Index b = Some (stateHash at_b)) as Hsnap.
  { unfold now. rewrite snapshot_kept by done. unfold at_b. rewrite commit_all_app.
    apply (commit_records b). }
  exists (stateHash at_b). split.
  { simpl. unfold InmemProxy_GetSnapshot, SnapshotHandler. simpl. unfold Dummy_SnapshotHandler, bind, gets.
    by rewrite Hsnap. }
  split; [done|]. intros joined.
  destruct (commit_all_same (bs2 ++ bs3) joined at_b) as [-> ->]; [done|].
  by rewrite commit_all_app.
Qed.

Definition test_block (i : Z) (txs : list bytes) : Block :=
  mkBlock (mkBlockBody i i 0 [] [] [] txs [] []) ∅.
Lemma snapshot_resumes_witness :
  let bs := [test_block 1 [[x01]]; test_block 2 []] in
  let now := (commit_all bs (commit_all [test_block 0 [[x02]; [x03]]] NewState).2).2 in
  ∃ snapshot, GetSnapshot 0 now = (Ok snapshot, now) ∧
    stateHash (commit_all bs (Restore snapshot NewState).2).2 = stateHash now.
Proof.
  destruct (snapshot_resumes NewState NewState [] (test_block 0 [[x02]; [x03]])
    [test_block 1 [[x01]]; test_block 2 []] []) as (snap & Hg & _ & _ & Hh).
  - vm_compute. intros Hin. repeat (inversion Hin as [|? ? ? Hin']; subst; clear Hin; rename Hin' into Hin).
  - exists snap. split; [exact Hg|exact Hh].
Defined.

(** ** Maintenance mode *)
Section maintenance.
Context {KP : Keys} {CP : Codec} {RO : RangeOrder} {DC : DBCodec}.
Context {DB : Type} {KVD : KV DB} {LAW : KVLaws DB} {CL : DBCodecLaws}.
Context {P : Type} {APP : AppProxy P}.
Context (db_fuel fuel batches : nat).
#[local] Instance engine_store : Store (BadgerStore DB) := BadgerStore_Store db_fuel.

Lemma frozen_batches d (app : Block → GoM error P CommitResponse) n i :
  respects (keptX (frozen d)) (bootstrap_batches db_fuel fuel (commit app) n i).
Proof.
  revert i. induction n as [|n IH]; intros i; cbn [bootstrap_batches].
  - apply respects_diverge, _.
  - apply (respects_bind _); [apply respects_gets, _|intros d'].
    apply (respects_bind _); [apply respects_lift, _|intros es].
    apply (respects_bind _); [apply frozen_batch|intros []].
    apply (respects_bind _); [apply frozen_ProcessSigPool|intros []].
    destruct (_ <? _); [apply respects_ret, _|apply IH].
Qed.
Lemma frozen_Bootstrap d (app : Block → GoM error P CommitResponse) n :
  respects (keptX (frozen d)) (Bootstrap db_fuel fuel (commit app) n).
Proof.
  intros [h x] Hf. pose proof (Bootstrap_run db_fuel fuel app n h x) as Hrun. cbv zeta in Hrun.
  pose proof (proj1 Hf) as Hm. simpl in Hm. rewrite Hm in Hrun. clear Hm. unfold STO in Hrun. unfold engine_store. rewrite Hrun.
  revert Hf. apply (respects_bind (keptX (frozen d))).
  - intros [h' x'] [Hm Hd]. by split.
  - intros []. apply (respects_bind _); [apply respects_gets, _|intros d'].
    destruct (dbGetPeerSet d' 0);
      [|apply respects_ret, _|apply respects_panic, _|apply respects_diverge, _].
    apply (respects_bind _); [apply frozen_genesis|intros u; apply frozen_batches].
Qed.

(** Creating a node does not touch a frozen database. *)
Lemma frozen_newCore d v ps genesis s mode (p : P) c : frozen d s →
  newCore v ps genesis s mode p = Ok c → frozen d (hg_Store c.1).
Proof.
  pose proof (frozen_frame db_fuel d) as SF. intros Hs. unfold newCore.
  destruct (newRandomPeerSelector ps _); simpl; [|done..].
  assert (respects (kept (frozen d)) (Init genesis)) as Hi.
  { apply respects_wrap, (respects_zoom _ (keeps (frozen d))); [apply (sf_SetPeerSet (ev:=λ _, True))|].
    by intros h s' Hs'. }
  specialize (Hi (NewHashgraph s) Hs).
  destruct (Init genesis (NewHashgraph s)) as [[u|err| |] h]; [| |done..]; by intros [= <-].
Qed.

Lemma maintenance_start d c v ps genesis s (app : P) n :
  frozen d s → conf_MaintenanceMode (eg_node c) = true → conf_Bootstrap (eg_node c) = true →
  start (Bootstrap db_fuel fuel (commit CommitBlock) batches) c v ps genesis s app = Ok n →
  nstate n = Suspended ∧ frozen d (hg_Store (n_core n).1).
Proof.
  intros Hs Hmode Hboot. unfold start, NewNode.
  destruct (newCore v ps genesis s _ app) as [c0| | |] eqn:Hc; simpl; [|done..].
  pose proof (frozen_newCore d _ _ _ _ _ _ _ Hs Hc) as Hf.
  unfold Node_Init, conf, gets, bind. simpl. rewrite Hboot. unfold onCore at 1, zoom. simpl.
  pose proof (frozen_Bootstrap d CommitBlock batches c0 Hf) as Hf1.
  destruct (Bootstrap _ _ _ _ c0) as [[u|err| |] c1]; simpl; [|done..]. rewrite Hmode.
  unfold transition, bind, modify, try, onAppN, onCore, onApp, zoom. simpl.
  destruct (OnStateChanged Suspended c1.2.2) as [[|err| |] p']; simpl; [| |done..];
    by intros [= <-].
Qed.

Lemma validateConfig_maintenance dir c : conf_MaintenanceMode (eg_node c) = true →
  let c' := validateConfig dir c in
  conf_MaintenanceMode (eg_node c') = true ∧ conf_Bootstrap (eg_node c') = true ∧
  eg_Store c' = true.
Proof.
  intros Hm. unfold validateConfig. simpl. rewrite Hm. simpl. by destruct (_ <? _).
Qed.
(** The key and the peers are only read. *)
Lemma initKey_reads c (k : disk DB) : (initKey c k).2 = k ∧
  ∀ c', (initKey c k).1 = Ok c' → eg_node c' = eg_node c ∧ eg_Store c' = eg_Store c ∧
    eg_DatabaseDir c' = eg_DatabaseDir c.
Proof.
  assert (∀ f, (ReadKey f k).2 = k) as Hr.
  { intros f. unfold ReadKey, ReadFile, bind, gets. simpl. destruct (dk_files k !! f); [simpl|done].
    by destruct (hex_DecodeString _) as [? []]. }
  unfold initKey. destruct (eg_Key c); [by split; [|intros c' [= <-]]|].
  unfold bind, try. specialize (Hr (Keyfile c)).
  destruct (ReadKey (Keyfile c) k) as [[] k']; simpl in *; (split; [done|]); intros c'; try done;
    by intros [= <-].
Qed.
Lemma initPeers_reads c (k : disk DB) : (initPeers c k).2 = k.
Proof.
  assert (∀ f, (JSONPeerSet_PeerSet f k).2 = k) as Hr.
  { intros f. unfold JSONPeerSet_PeerSet, ReadFile, bind, gets. simpl.
    destruct (dk_files k !! f) as [buf|]; [simpl|done]. destruct (_ =? _); [done|].
    unfold lift. destruct (unjson_Peers buf); [|done..]. by destruct (NewPeerSet _). }
  unfold initPeers, bind, try.
  pose proof (Hr (NewJSONPeerSet (eg_DataDir c) true)) as H1.
  destruct (JSONPeerSet_PeerSet _ k) as [[] k1]; simpl in *; [|done..]. subst k1.
  pose proof (Hr (NewJSONPeerSet (eg_DataDir c) false)) as H2.
  by destruct (JSONPeerSet_PeerSet _ k) as [[] k2].
Qed.
(** The disk after the database at [path] was opened, and nothing else. *)
Definition opened pf (path : string) (k : disk DB) : disk DB :=
  mkDisk (dk_files k)
    (partial_alter (λ _, (pf_open pf (dk_dbs k !! path)).2) path (dk_dbs k)).
Lemma opened_same pf path (k : disk DB) d : dk_dbs k !! path = Some d →
  pf_open pf (Some d) = (Ok d, Some d) → opened pf path k = k.
Proof.
  intros Hd Ho. unfold opened. rewrite Hd, Ho. destruct k as [fs dbs]. simpl in *. f_equal.
  rewrite <-Hd. apply partial_alter_self.
Qed.
Lemma maintenance_store pf c (k : disk DB) :
  conf_MaintenanceMode (eg_node c) = true → conf_Bootstrap (eg_node c) = true →
  eg_Store c = true →
  initStore pf c k =
    ((d <-- (pf_open pf (dk_dbs k !! eg_DatabaseDir c)).1 ;;
      Ok (inr (mkBadger (NewInmemStore (eg_CacheSize c)) d (eg_DatabaseDir c) true))),
     opened pf (eg_DatabaseDir c) k).
Proof.
  intros Hm Hb Hs. unfold initStore, opened. rewrite Hs, Hb, Hm. unfold bind, ret, gets, lift, modify. simpl.
  by destruct (pf_open pf _) as [[] ?].
Qed.

End maintenance.

(** A data directory with the key, the peers and the database of a node. *)
Definition test_config : EngineConfig :=
  mkEngineConfig (mkConfig false true false 100 100 10 1000) "data" "data/badger_db" false 10 "" None.
Definition test_data : disk (gmap string bytes) :=
  mkDisk {[ "data/priv_key" := str_bytes (hex_EncodeToString (DumpPrivateKey (Some 1))) ++ [x0a];
            "data/peers.json" := match json_Peers (Peers toy_alone) with Ok b => b | _ => [] end ]}
    {[ "data/badger_db" := toy_db ]}.
Definition test_platform : platform (DB:=gmap string bytes) :=
  mkPlatform "home" (λ p, p +:+ "--backup") (inl tt) (λ d, (Ok (default ∅ d), Some (default ∅ d)))
    (inr (EMsg "no network")).
